(* ===== verification/_CoqProject ===== *)
-Q . S2P
Prelude.v
PyVal.v
Text.v
Conditions.v
Redaction.v
Routing.v
RoutingProps.v
RoutingSafety.v
RoutingFates.v
Predicates.v
Operators.v
Reduction.v
ArrayBuilder.v
Engine.v
EngineProps.v
EngineValues.v
EngineCache.v
Store.v
Breaker.v
Dedupe.v
Boundary.v
Radix.v
Inflight.v
Window.v
Detection.v
Ocsf.v
Envelope.v
Cursor.v
Dispatch.v
Pipeline.v
PipelineProps.v
Aggregate.v
Delivery.v
HashStore.v
RuleCompile.v
Detections.v
Absence.v
Flush.v
Emission.v
EnrichDsl.v
EnrichApply.v
EnrichCache.v
EnrichRuntime.v
Tenancy.v
Accounts.v
AccountsProps.v
RateLimit.v
Lockout.v
Syslog.v
SyslogProps.v
SyslogRound.v
Base64.v
Secrets.v
SecretsProps.v
Vault.v
Ingest.v
IngestProps.v
Classify.v
Sources.v
SourcesProps.v
SyslogServer.v
SyslogServerProps.v
Senders.v
SendersProps.v
Limiters.v
LimitersProps.v
Bulkhead.v
