(* ===== verification/Prelude.v ===== *)
(** * CentralOps: a verification development

    CentralOps collects security events from vendor APIs and agents, normalises
    them with a mapping language, reduces and redacts them, matches detection
    rules against them in flight, and routes them to destinations.  This library
    models the core of its Python backend ([src/backend/app/collectors/],
    [src/backend/app/syslog/], the accounts, secrets and limits of
    [src/backend/app/core/], and what they store through [src/backend/app/db/]) as
    executable Rocq functions and proves what that core promises.

    ** The path of an event

    A collection cycle ([_run_collection_once] of [pipeline.py], file [Pipeline])
    reads the cursor of its stream ([state/cursor.py], file [Cursor]) and takes
    events from a collector, which remembers what it emitted at the edge of its
    window ([cursor_boundary.py], file [Boundary]).  For each event the cycle
    computes a message id and claims it in Redis ([state/dedupe.py], file
    [Dedupe]); maps it ([normalize/engine.py] and the modules it calls, files
    [Predicates], [Operators], [ArrayBuilder], [Reduction], [Engine]) into an
    envelope ([normalize/envelope.py], file [Envelope]); validates it ([Ocsf]);
    matches the rules of the organization ([inflight/], files [RuleCompile],
    [Inflight], [Detection]); and adds it to a batch.  A full batch is handed off
    ([_enqueue_dispatch], file [Dispatch]): [routing/engine.py] decides which
    destinations receive each event and with which copy (files [Conditions],
    [Routing]), redacting fields on the way ([routing/pii_redaction.py], file
    [Redaction]), and each sub-batch is queued.  Only then are its claims settled.
    When the cycle ends the cursor is saved, the claims not settled are released,
    and the matches are flushed ([Flush]) into detections ([Detections]), some of
    which leave as events of their own through the same hand-off ([Emission]).

    Between the envelope and the batch, and again when the batch is full, the
    policy of the organization adds context to the events ([enrich/]): the policy
    is compiled ([EnrichDsl]), its rules are applied to one event by a pure
    function ([EnrichApply]) whose answers come from resident tables ([Radix]) or,
    for a batch, from a cache ([EnrichCache]) and remote providers
    ([EnrichRuntime]).

    A worker takes a sub-batch from the queue ([tasks.py] and
    [dispatch_batch_to_destination], file [Delivery]), aggregates it if the
    destination asks for it ([Aggregate]), cuts it into chunks and sends them,
    with retries, under a circuit breaker shared by all workers
    ([circuit_breaker.py], file [Breaker]); what the destination rejects goes to
    the table of dead letters.

    Events also come in by themselves.  A push source posts batches to an
    endpoint ([routers/ingest.py], file [Ingest]), which checks the token of the
    integration ([services/ingest_tokens.py], file [Secrets]) and a rate
    ([core/rate_limiter.py], file [RateLimit]), parses the body and appends the
    events to a capped list in Redis, which a cycle of the virtual collector
    drains.  A syslog receiver ([syslog/server.py], file [SyslogServer]) finds the
    source of a peer among the rows that administrators manage
    ([routers/syslog_sources.py], file [Sources]), parses the line
    ([syslog/parser.py], file [Syslog]), names its stream
    ([collectors/classify.py], file [Classify]) and flushes its queues into the
    same lists.

    What the workers share bounds what they do together: the requests to a vendor
    by windows and leases in sorted sets of Redis, the sends to a destination by a
    lease of the same kind (file [Limiters]) and, within one event loop, by a
    semaphore that is resized in flight (file [Bulkhead]).  Two of the senders
    write syslog lines (file [Senders]), which the receiver of another instance
    may read.

    Around the pipeline: the users, their sessions and tokens and what each may
    reach ([core/tenant.py], [core/auth.py], [routers/auth.py] and its
    neighbours, files [Tenancy], [Accounts]), the limits on logins
    ([core/rate_limiter.py], file [Lockout]), and the secrets of the integrations
    ([core/secrets/], [services/integration_secrets.py], files [Secrets] and
    [Vault]).

    ** Files

    - [Prelude] (this file): the Python exceptions as [exn], the error monad
      [result], [dict] as an insertion-ordered association list, tactics.
    - [PyVal]: JSON-shaped Python values ([pyval]), equality, ordering, truth,
      [str], [repr], text functions, binary64 floats through [SpecFloat].
    - [Conditions]: the condition language of [routing/engine.py] ([matches],
      [match_clause], [normalize_aliases], validation, the value sets that
      [_subsumes] compares).
    - [Redaction]: [compile_pii_redaction], [apply_pii_redaction].
    - [Routing]: [evaluate_event], [route_batch] and everything it calls:
      canary, sampling, loop blocking, residency, fallback, per-destination
      copies, counters.  An event's effects are a list of [outcome]s, folded
      into the [batch_routing] record as the loop of [route_batch] does.
      [RoutingProps] has the evaluation order and the analyses
      ([find_unreachable]); [RoutingSafety] what a batch guarantees and
      [RoutingFates] the one fate of each of its events.
    - [Predicates]: [dotpath.py] and [predicates.py].
    - [Operators]: [operators.py], [registry.py], [preprocess.py].
    - [Reduction]: [payload_reduction.py].
    - [ArrayBuilder]: [array_builder.py].
    - [Engine]: [normalize/engine.py]: [compile_rules] for both language
      versions, [apply_compiled], the [MappingEngine] cache.  [EngineProps]:
      shapes of compiled mappings, isolation of targets.  [EngineValues]: the
      value a rule produces, its errors, and the consumed paths.
      [EngineCache]: the cache.
    - [Store] and [HashStore]: the interface of Redis, its counters and its
      hashes, as classes with laws, and in-memory implementations of them.
    - [Breaker]: [circuit_breaker.py].  [Dedupe]: [state/dedupe.py].  [Boundary]:
      [cursor_boundary.py].  [Radix]: the CIDR tables of [enrich/radix.py].
    - [Inflight]: [inflight/matcher.py] and the compiler of its clauses.
      [Window]: [inflight/window.py].  [Detection]: the accumulator of a cycle
      and the budget of a flush.  [RuleCompile]: the compiler of a rule.
      [Detections]: [DetectionRepository].  [Absence]: [inflight/absence.py].
      [Flush]: windows, sequences and writes of a flush.  [Emission]:
      [_build_detection_event], [_emit_detection_events], [flush_inflight].
    - [Ocsf]: [normalize/ocsf/validator.py], [ocsf_policy.py].  [Envelope]:
      [normalize/envelope.py].  [Cursor]: [state/cursor.py] and
      [CollectionStateRepository.upsert].
    - [Dispatch]: the hand-off of a batch.  [Pipeline]: the cycle.
      [PipelineProps]: what sequences of cycles guarantee.
    - [Aggregate]: [reduction/aggregate.py].  [Delivery]: the worker of a
      destination and its task.
    - [EnrichDsl]: [enrich/dsl.py] and [enrich/registry.py].  [EnrichApply]:
      [enrich/applier.py].  [EnrichCache]: [enrich/cache.py] and the interface of
      Redis texts.  [EnrichRuntime]: the remote half of [enrich/runtime.py].
    - [Tenancy]: roles, permissions, password hashes and the scopes of
      [core/tenant.py].  [Accounts]: the rows of users, service accounts,
      sessions, tokens and organizations, and the handlers over them, gathered in
      one [handle] and one [serve]; with the logins, the creation of the first
      administrator and the return from the identity provider ([routers/sso.py])
      they are the [call]s of [serve_all].  [AccountsProps]: what any sequence of
      calls guarantees.
    - [RateLimit] and [Lockout]: the windows and the attempt store of
      [core/rate_limiter.py], and the login behind it.
    - [Text]: cutting and hexadecimal.  [Syslog]: [syslog/parser.py].
      [SyslogProps]: termination and errors.  [SyslogRound]: a writer of lines,
      and that the parser undoes it.
    - [Base64]: the URL-safe alphabet.  [Secrets]: the two encryption backends
      behind the class [SecretsBackend], the credentials of an integration, the
      ingestion tokens.  [SecretsProps]: the laws of a backend, discharged by
      both, and the theorems proved against them.  [Vault]: the threads of
      [core/secrets/vault_transit.py] as a step relation.
    - [Ingest]: [collectors/ingest_buffer.py], [vendors/push_ingest.py] and
      [routers/ingest.py], over an interface of Redis lists.  [IngestProps]: the
      buffer and the endpoint.
    - [Classify]: [collectors/classify.py].  [Sources]: the handlers of
      [routers/syslog_sources.py]; [SourcesProps]: what any sequence of them
      guarantees.  [SyslogServer]: [syslog/server.py], its coroutines as a step
      relation; [SyslogServerProps]: its theorems, and the rows of [Sources] put
      to use.
    - [Senders]: [output/syslog_sender.py], [output/rfc3164_sender.py] and
      [normalize/severity_map.py]; [SendersProps]: what the receiver reads of
      what they write.
    - [Limiters]: [rate_limit_redis.py], [domain_limiter.py] and
      [output/destination_limiter.py] over the class [SortedSets], the workers
      interleaved command by command; [LimitersProps]: their bounds.
      [Bulkhead]: [output/concurrency_pool.py] and [asyncio.Semaphore].

    ** How the definitions correspond to the code

    A definition keeps the name of the function it models, without the leading
    underscore; a method becomes a function of its object's record.  A function
    that raises returns [result]; a loop is a fold with the loop's order; an
    early return is a branch.  Python [dict]s keep insertion order; [dict_equiv]
    is their equality and the operations are [Proper] for it.  Integers are
    unbounded, as Python's.  A command to Redis, a write to SQL or an answer of a
    sink may fail: the operations take, as arguments, which of them succeed.
    Time is the store's clock, or an argument.

    [apply_compiled] builds nested dicts in place, some of which are shared
    with the raw event or the mapping.  The output is therefore a tree whose
    nodes know who owns them ([otree]), and the result records whether a write
    went into a node it does not own ([res_shared]).  Elsewhere values are not
    mutated after they are built, and a value stands for the object.

    ** What is proved

    - Pipeline: no collected event is lost, whatever fails, across cycles
      ([at_least_once]); claims end as they should ([claims_after_cycle]); the
      position advances only on success ([position_follows_success],
      [cursor_round_trip], [checkpoint_history]); a hand-off that returned
      published everything ([hand_off_complete]).
    - Delivery: the chunks a task sends are its batch, and each way it ends says
      what was answered, dead-lettered or lost ([delivery_accounts]); chunks
      partition the batch within their caps ([chunks_partition]); aggregation is
      exact ([coalesce_exact]).
    - Routing: every event has one fate, and the lists and counters of the result
      hold exactly these fates ([no_silent_loss]); every
      copy has a reason ([delivery_justified]) and is unique per destination
      ([one_copy_per_destination]); nothing collected from Wazuh returns to it
      ([no_wazuh_loop]); a redacting route wins, the fallback apart ([redacting_route_wins]);
      residency holds for routed copies ([residency_respected]); detections get
      full fidelity ([detection_route_full_fidelity]); order is kept
      ([route_batch_app]) and does not depend on load order
      ([order_routes_deterministic]); [evaluate_event] refines its declarative
      description ([evaluate_event_spec]); the static analyses are sound
      ([subsumes_sound], [find_unreachable_sound]), under the hypothesis that a
      condition names each field once, without which they are not.
    - Redaction: no cleartext survives below a masked or dropped path
      ([apply_seals]); the rest is untouched ([apply_frame]); a partial reveal
      is bounded ([partial_slice_masks]).
    - Mapping language: rules do not interfere ([rule_independence]) and touch
      neither the event nor the cached mapping ([targets_isolated]); the
      consumed paths are complete ([consumed_paths_sound]); defaults and
      required fields ([default_is_final], [required_never_null]); the errors
      that can escape ([apply_errors]); the fast path equals JMESPath
      ([fast_path_exact]); the cache is invisible ([engine_cache_transparent]).
    - Reduction: every bound on a path that ends in a key is met, and a path that
      ends in a wildcard does nothing ([reduction_bounds]); by removal only
      ([reduction_only_removes]).
    - Breaker: isolation of destinations, opening at the threshold, at most
      one probe per cooldown besides the checks that met a failure of Redis
      ([one_probe_per_cooldown]), recovery.
    - Dedupe: the Redis keys implement a table of claims
      ([dedupe_refines_claims]); one claim succeeds per window ([claim_once]);
      message ids are stable ([message_id_stable]); suppression counts a fixed
      window ([suppress_window]).
    - Cursor boundary: an event is skipped only if its key was emitted
      ([skip_is_safe]), and boundary events are skipped ([no_reemission]).
    - Detection: compiled rules have the shape of their type
      ([compile_row_typed]); no match of a cycle disappears
      ([detection_accounting]), nor any key of a flush ([flush_accounts]); the
      budget is fair ([flush_cap_fair]); windows count ([window_counts]);
      sequences refine a set of legs with a deadline that each leg renews, and so
      miss nothing that the documented window asks for ([sequence_refines]); the
      rows of the table are sessions ([detections_are_sessions]); an absence is
      alerted only with cause ([absence_alert_justified]); an alert that leaves
      is valid ([emission_contract]) and never feeds itself
      ([emission_no_loop]).
    - Enrichment: a compiled policy has its type ([compile_policy_typed]) and a
      bad one is refused ([compile_policy_errors]); the applier writes only where
      it may ([enrich_frame]), erases nothing ([vendor_wins]), names its sources
      ([provenance]) and counts right ([apply_accounting]).  The local cache
      refines the history of its answers ([l1_refines]) and keeps what is used
      ([l1_retains]); the shared one serves other workers ([shared_answers]).
      Remotely, only keys the gate lets by leave ([egress_gated]), every row is
      somebody's answer ([verdicts_justified]), silence writes nothing
      ([silence_is_not_a_miss]), locks are given back ([locks_released]) and a
      failing source is left alone for a doubling time ([quarantine_doubles]).
    - Accounts: ids and names stay unique ([tables_stay_well_formed]); actors
      confined to some organizations, who update users of these only, touch
      nothing outside ([confined_actors_stay_confined]); an active administrator
      remains unless the identity provider takes the role from the last one
      ([active_admin_remains]); a deactivation ends every credential for good
      ([offboarding]).
    - Limits: no interval holds more requests than its window allows
      ([quota_respected], and in Redis, for any number of workers,
      [window_budget]); live leases stay within their limit
      ([leases_within_limit]) and leaked ones come back
      ([leaked_slots_return]); a destination's slot is never overbooked, nor its
      waiters forgotten ([bulkhead_never_overbooked]); repeated failures lock an
      address out until the deadline ([ip_lockout]).
    - Syslog: the parser answers for every line ([every_line_is_answered]) and
      reads back what a writer wrote ([rfc5424_round_trip]).  The receiver keeps
      each event it accepted in one place and counts it ([receiver_conserves]), asks the most
      specific source ([most_specific_source]), reads counted frames back
      ([octet_frames_round_trip]) and, with rows from the API
      ([sources_stay_usable]), leaves no line of a known peer unclassified
      ([registered_streams_served]).  It reads back what the RFC 3164 sender
      wrote, batch by batch ([rfc3164_batch_read_back]), and of the other
      sender each event ([rfc5424_event_read_back]) but only the first of a batch
      ([counted_batch_keeps_first]).
    - Secrets: a token decrypts to its secret, whatever the cache holds and
      whatever else was called ([secrets_read_back]); the rows refine a map from
      names to secrets ([credentials_refine]); an ingestion token opens its
      integration alone, until it is revoked ([ingest_token_lifecycle]); threads
      that find a session expired log in once ([one_login_per_expiry]).
    - Push ingestion: the buffer is a capped queue, and what a drain that lost its
      connection had popped is the one loss not reported, but for the drops of a push
      whose answer was lost ([buffer_is_fifo]); only an
      accepted token reaches a buffer, and one buffer ([ingest_is_confined]); bad
      lines cost only themselves ([bad_lines_cost_themselves]).
    - CIDR tables: the tree answers as a scan of the rows
      ([radix_longest_prefix]).  OCSF: the gate ([gate_sound_complete]).
    - Where the code does not do what it says, a lemma at the end of the file
      evaluates the model on an input that shows it (for instance
      [RoutingSafety.fallback_ignores_residency]).

    ** Parameters

    Third-party and numeric library code is a parameter, a type class named
    after it, with the documented behaviour the proofs use as a law:
    [JmesPath] with [JmesLaws] (a plain dot-path is a chain of dict lookups),
    [Sha256], [Sha1] and [Blake2s] with [Blake2sLaw], [FloatRepr] (float to
    text), [FloatParse], [IsoParse] and [FromIso] (timestamps), [IpAddress] with
    [IpAddressLaws], [JsonLoads], [JsonLimit], [JsonDumps], [CursorJson],
    [EnvelopeBytes] (the serialiser), [BreakerSchema] with [BreakerSchemaLaw]
    (pydantic), [Redis] with [RedisLaws], [RedisHash] with [RedisHashLaws];
    [Ellipsis] and [EmDash] are the two characters of the texts that are not
    8-bit.  Also [Pbkdf2], [TokenHash], [SessionHash] (digests), [SessionTtl],
    [AttemptSettings], [TokenLimiter] (settings and other limiters), [IsoMillis]
    (the rendering of an instant), [Fernet] with [FernetLaws] (authenticated
    encryption, with the encoding to UTF-8 and back inside [seal] and
    [unseal]), [Kms] with [KmsLaws] and [NoCollision] (no two wrapped
    keys at hand have the same digest), [RedisSets], [RedisLists] and
    [SortedSets] with their laws, [NetworkText] and [ConfigDumps] with [SourceLaws] (the text of a network
    and of a configuration), [EventJson] with [EventJsonLaws] (JSON text of an event is one line,
    between braces), [DecodeBody] with [DecodeLaw] (it undoes the
    encoding) and [Registry] (which platforms take a push,
    and the streams they have).  Concrete instances named [demo_...], [mem_redis], [mem_hashes],
    [mem_zsets] and [mem_texts] are used by the witnesses.  What a batch meets while it is
    enriched (the clock, other workers, the providers' answers) is a [world] per
    rule, over which the theorems quantify.

    ** Limits of the model

    Text is a sequence of 8-bit code points, so non-Latin-1 code points and
    their case mapping are not represented.  NaN is one value, not an object
    identity.  Recursion has no depth limit: the functions of the model are
    structural, on the value, the list or the retries left.  Four loops
    have fuel: [rounds] of [Detection], with the number of pending keys and two
    ([flush_cap_fair]); the loops of the structured data of a syslog line, with
    the length of the text and one ([every_line_is_answered]); the drain of a
    buffer, with its length and one ([drain_loop_returns]); the frames of a TCP
    connection, with the length of what it sends and one
    ([octet_frames_round_trip]).  Each is proved enough.  Where the code visits a dict of
    sub-batches or of rules, the model visits a finite map, in the order of the
    map.  Instants are integers, microseconds or seconds as each file says.
    Metrics, logging and tracing are left out.  Redis evicts nothing before
    its deadline.

    The clocks of the workers that share a limit differ by a bounded skew; a
    coroutine that is cancelled while it waits leaves the queue at once.

    Not modelled: the other senders and their wire formats, the connections, the
    drain of the dead letters, Kafka, vendor collectors and providers, the loading of
    enrichment tables and policies with their providers and quotas,
    drift, the sockets and signals of the syslog receiver, the attempt
    store of a deployment without Redis, the requests to Vault, the
    self-service handlers of [/auth/me], the synchronisation of users with Entra and
    the exchange with the identity provider (its answer is an argument), the
    queries behind the rest of the HTTP and MCP APIs, configuration,
    licensing, scheduling, and the frontend: I/O around
    the core above, third-party code, or text that only describes it.  A
    byte-order mark at the head of a syslog line lies outside 8-bit text. *)

From stdpp Require Export base gmap strings list.
From Stdlib Require Export ZArith Lia.

#[global] Set Default Goal Selector "!".
#[global] Generalizable All Variables.

(** ** Exceptions and the error monad

    The code signals failure with Python exceptions.  [exn] lists the classes
    the modelled code raises, catches or lets escape; messages are dropped
    except where the code computes with the payload. *)

Inductive exn :=
| EOperator                        (* registry.OperatorError(ValueError) *)
| EOperatorSize                    (* registry.OperatorSizeError(OperatorError) *)
| EMapping                         (* exceptions.MappingError *)
| EMappingDefinition               (* exceptions.MappingDefinitionError(MappingError) *)
| EMappingRequired (target : string) (* exceptions.MappingRequiredFieldError(MappingError) *)
| EPiiRedaction                    (* pii_redaction.PiiRedactionError(ValueError) *)
| EBreakerOpen (destination : string) (* circuit_breaker.BreakerOpen *)
| EClassifier                      (* classify.ClassifierError(ValueError) *)
| EEnrichmentConfig                (* enrich.contract.EnrichmentConfigError(ValueError) *)
| EPiiEnricherRefused              (* enrich.contract.PiiEnricherRefused(ValueError) *)
| EJsonDecode                      (* json.JSONDecodeError(ValueError) *)
| ERecursion                       (* RecursionError *)
| ETransientDelivery (destination : string) (* delivery.TransientDeliveryError *)
| EHttp (status : Z) (code : string) (* fastapi.HTTPException, core.errors.ApiError *)
| EConnection                      (* ConnectionError, TimeoutError, OSError *)
| EType | EValue | EOverflow | EAttribute | EKey
| EOther (* any other class: an error of a third-party library *).

#[export] Instance exn_eq_dec : EqDecision exn.
Proof. solve_decision. Defined.

(** Subclass tests: what an [except C] clause catches. *)
Definition is_operator_error (e : exn) : bool :=
  match e with EOperator | EOperatorSize => true | _ => false end.
Definition is_value_error (e : exn) : bool :=
  match e with
  | EValue | EOperator | EOperatorSize | EPiiRedaction | EClassifier | EJsonDecode | EEnrichmentConfig | EPiiEnricherRefused => true
  | _ => false
  end.
Definition is_mapping_error (e : exn) : bool :=
  match e with EMapping | EMappingDefinition | EMappingRequired _ => true | _ => false end.

Inductive result (A : Type) :=
| Ok (a : A)
| Raise (e : exn).
Arguments Ok {A} a.
Arguments Raise {A} e.

#[export] Instance result_eq_dec `{EqDecision A} : EqDecision (result A).
Proof. solve_decision. Defined.

#[export] Instance result_ret : MRet result := @Ok.
#[export] Instance result_bind : MBind result :=
  fun A B f m => match m with Ok a => f a | Raise e => Raise e end.
#[export] Instance result_fmap : FMap result :=
  fun A B f m => match m with Ok a => Ok (f a) | Raise e => Raise e end.

Definition is_ok {A} (r : result A) : bool :=
  match r with Ok _ => true | Raise _ => false end.
Definition result_to_option {A} (r : result A) : option A :=
  match r with Ok a => Some a | Raise _ => None end.

(** [try body except C as e: handler e]. *)
Definition try_except {A} (m : result A) (c : exn -> bool) (h : exn -> result A) : result A :=
  match m with
  | Ok a => Ok a
  | Raise e => if c e then h e else Raise e
  end.

(** [if b: raise e]. *)
Definition raise_if (b : bool) (e : exn) : result unit :=
  if b then Raise e else Ok tt.

(** A [for] loop that may raise: left to right, first error wins. *)
Fixpoint result_map {A B} (f : A -> result B) (l : list A) : result (list B) :=
  match l with
  | [] => Ok []
  | x :: l' => y ← f x; ys ← result_map f l'; Ok (y :: ys)
  end.

Fixpoint result_fold {A S} (f : S -> A -> result S) (s : S) (l : list A) : result S :=
  match l with
  | [] => Ok s
  | x :: l' => s' ← f s x; result_fold f s' l'
  end.

Lemma result_bind_ok {A B} (m : result A) (f : A -> result B) b :
  m ≫= f = Ok b <-> exists a, m = Ok a /\ f a = Ok b.
Proof. destruct m; cbn; naive_solver. Qed.

Lemma result_bind_raise {A B} (m : result A) (f : A -> result B) e :
  m ≫= f = Raise e <-> m = Raise e \/ exists a, m = Ok a /\ f a = Raise e.
Proof. destruct m; cbn; naive_solver. Qed.

Lemma raise_if_ok b e u : raise_if b e = Ok u <-> b = false.
Proof. destruct b, u; cbn; naive_solver. Qed.

Lemma raise_if_raise b e e' : raise_if b e = Raise e' <-> b = true /\ e = e'.
Proof. destruct b; cbn; naive_solver. Qed.

Lemma result_map_ok {A B} (f : A -> result B) l ys :
  result_map f l = Ok ys <-> Forall2 (fun x y => f x = Ok y) l ys.
Proof.
  revert ys; induction l as [|x l IH]; intros ys; cbn.
  - split; [intros [= <-]; constructor | by inversion 1].
  - rewrite result_bind_ok. split.
    + intros (y & Hy & H). apply result_bind_ok in H as (ys' & H & [= <-]).
      constructor; [done | by apply IH].
    + inversion 1 as [|? y ? ys' Hy Hys]; subst. exists y; split; [done|].
      apply result_bind_ok. exists ys'. split; [by apply IH | done].
Qed.

Lemma result_map_raise {A B} (f : A -> result B) l e :
  result_map f l = Raise e -> exists x, x ∈ l /\ f x = Raise e.
Proof.
  induction l as [|x l IH]; cbn; [done|].
  rewrite result_bind_raise. intros [H | (y & _ & H)].
  - exists x. split; [left | done].
  - apply result_bind_raise in H as [H | (? & _ & [=])].
    destruct (IH H) as (z & ? & ?). exists z. split; [by right | done].
Qed.

(** ** Ordered dictionaries

    A Python [dict] with string keys, as its items in insertion order.
    [dict_set] overwrites in place or appends, [dict_pop] removes. *)

Section dict.
Context {A : Type}.
Implicit Types (d : list (string * A)) (k : string) (v : A).

Fixpoint dict_get k d : option A :=
  match d with
  | [] => None
  | (k', v) :: d' => if String.eqb k k' then Some v else dict_get k d'
  end.

Fixpoint dict_set k v d : list (string * A) :=
  match d with
  | [] => [(k, v)]
  | (k', v') :: d' => if String.eqb k k' then (k', v) :: d' else (k', v') :: dict_set k v d'
  end.

Definition dict_pop k d : list (string * A) :=
  filter (fun kv => String.eqb k kv.1 = false) d.

Definition dict_has k d : bool :=
  match dict_get k d with Some _ => true | None => false end.

Definition dict_keys d : list string := d.*1.

(** A dict never holds a key twice. *)
Definition dict_wf d : Prop := NoDup (dict_keys d).

(** Two dicts with the same bindings: Python's [==], up to the values. *)
Definition dict_equiv d1 d2 : Prop := forall k, dict_get k d1 = dict_get k d2.
End dict.

#[export] Instance dict_equiv_equivalence {A} : Equivalence (@dict_equiv A).
Proof. split; unfold dict_equiv; [done | by intros ? ? H k | intros ? ? ? H1 H2 k; by rewrite H1]. Qed.

#[export] Instance dict_get_proper {A} k : Proper (dict_equiv ==> eq) (@dict_get A k).
Proof. intros d1 d2 H. apply H. Qed.
#[export] Instance dict_has_proper {A} k : Proper (dict_equiv ==> eq) (@dict_has A k).
Proof. intros d1 d2 H. unfold dict_has. by rewrite H. Qed.

Section dict_lemmas.
Context {A : Type}.
Implicit Types (d : list (string * A)) (k : string) (v : A).

Lemma dict_get_set_eq k v d : dict_get k (dict_set k v d) = Some v.
Proof.
  induction d as [|[k' v'] d IH]; cbn; [by rewrite String.eqb_refl|].
  destruct (String.eqb k k') eqn:E; cbn; by rewrite E.
Qed.

Lemma dict_get_set_ne k k' v d : k <> k' -> dict_get k (dict_set k' v d) = dict_get k d.
Proof.
  intros Hne. induction d as [|[k'' v''] d IH]; cbn.
  - by apply String.eqb_neq in Hne as ->.
  - destruct (String.eqb_spec k' k'') as [<-|]; cbn.
    + by apply String.eqb_neq in Hne as ->.
    + by rewrite IH.
Qed.

Lemma dict_get_pop_eq k d : dict_get k (dict_pop k d) = None.
Proof.
  unfold dict_pop. induction d as [|[k' v'] d IH]; [done|].
  rewrite filter_cons. destruct (decide _) as [E|E]; cbn in *; [by rewrite E | done].
Qed.

Lemma dict_get_pop_ne k k' d : k <> k' -> dict_get k (dict_pop k' d) = dict_get k d.
Proof.
  intros Hne. unfold dict_pop. induction d as [|[k'' v''] d IH]; [done|].
  rewrite filter_cons. destruct (decide _) as [E|E]; cbn in *; [by rewrite IH|].
  apply not_false_is_true, String.eqb_eq in E as ->.
  apply String.eqb_neq in Hne. by rewrite Hne.
Qed.

Lemma dict_get_elem k v d : dict_get k d = Some v -> (k, v) ∈ d.
Proof.
  induction d as [|[k' v'] d IH]; cbn; [done|].
  destruct (String.eqb_spec k k') as [->|]; [intros [= ->]; left | right; auto].
Qed.

Lemma dict_get_in_keys k d : is_Some (dict_get k d) <-> k ∈ dict_keys d.
Proof.
  unfold dict_keys. induction d as [|[k' v'] d IH]; cbn.
  - rewrite elem_of_nil. split; [by intros [? [=]] | done].
  - rewrite elem_of_cons. destruct (String.eqb_spec k k') as [->|Hne]; [naive_solver|].
    rewrite IH. naive_solver.
Qed.

Lemma dict_get_None k d : dict_get k d = None <-> k ∉ dict_keys d.
Proof. rewrite <- dict_get_in_keys, eq_None_not_Some. done. Qed.

Lemma dict_elem_get k v d : dict_wf d -> (k, v) ∈ d -> dict_get k d = Some v.
Proof.
  unfold dict_wf, dict_keys. induction d as [|[k' v'] d IH]; cbn; [by rewrite elem_of_nil|].
  rewrite NoDup_cons, elem_of_cons. intros [Hn Hd] [[= -> ->]|Hin].
  - by rewrite String.eqb_refl.
  - destruct (String.eqb_spec k k') as [->|]; [|auto].
    destruct Hn. by apply (list_elem_of_fmap_2 fst) in Hin.
Qed.

Lemma dict_keys_set k v d :
  dict_keys (dict_set k v d) = if dict_has k d then dict_keys d else dict_keys d ++ [k].
Proof.
  unfold dict_keys, dict_has. induction d as [|[k' v'] d IH]; cbn; [done|].
  destruct (String.eqb_spec k k') as [->|]; cbn; [done|].
  rewrite IH. by destruct (dict_get k d).
Qed.

Lemma dict_set_wf k v d : dict_wf d -> dict_wf (dict_set k v d).
Proof.
  unfold dict_wf. rewrite dict_keys_set. unfold dict_has.
  destruct (dict_get k d) eqn:E; [done|]. intros Hd.
  apply NoDup_app. split_and!; [done| |apply NoDup_singleton].
  intros x Hx ->%list_elem_of_singleton. apply dict_get_None in E. done.
Qed.

Lemma dict_pop_wf k d : dict_wf d -> dict_wf (dict_pop k d).
Proof.
  unfold dict_wf, dict_keys, dict_pop. intros Hd.
  induction d as [|[k' v'] d IH]; [done|]. cbn in Hd.
  apply NoDup_cons in Hd as [Hn Hd]. rewrite filter_cons.
  destruct (decide _); [|auto]. cbn. apply NoDup_cons. split; [|auto].
  intros Hin. apply Hn. apply list_elem_of_fmap in Hin as ([k'' v''] & -> & Hin).
  apply list_elem_of_filter in Hin as [_ Hin]. by apply (list_elem_of_fmap_2 fst) in Hin.
Qed.

Lemma dict_has_true k d : dict_has k d = true <-> is_Some (dict_get k d).
Proof. unfold dict_has. destruct (dict_get k d); split; naive_solver. Qed.

Lemma dict_has_false k d : dict_has k d = false <-> dict_get k d = None.
Proof. unfold dict_has. destruct (dict_get k d); naive_solver. Qed.
End dict_lemmas.

#[export] Instance dict_set_proper {A} k (v : A) : Proper (dict_equiv ==> dict_equiv) (dict_set k v).
Proof.
  intros d1 d2 H k'. destruct (decide (k' = k)) as [->|].
  - by rewrite !dict_get_set_eq.
  - by rewrite !dict_get_set_ne.
Qed.
#[export] Instance dict_pop_proper {A} k : Proper (dict_equiv ==> dict_equiv) (@dict_pop A k).
Proof.
  intros d1 d2 H k'. destruct (decide (k' = k)) as [->|].
  - by rewrite !dict_get_pop_eq.
  - by rewrite !dict_get_pop_ne.
Qed.

(** ** Lists *)

Lemma Forall_filter_sub {A} (Q P : A -> Prop) `{!forall x, Decision (P x)} l :
  Forall Q l -> Forall Q (filter P l).
Proof.
  rewrite !Forall_forall. intros HQ x Hx. apply HQ. by apply list_elem_of_filter in Hx as [_ ?].
Qed.

Lemma list_filter_all {A} (P : A -> Prop) `{!forall x, Decision (P x)} l : Forall P l -> filter P l = l.
Proof. intros Hl. induction Hl as [|x l Hx _ IH]; [done|]. by rewrite filter_cons, decide_True, IH. Qed.

(** ** Automation *)

Create HintDb cops.
Create Rewrite HintDb cops.
#[export] Hint Resolve dict_set_wf dict_pop_wf dict_get_elem : cops.
#[export] Hint Rewrite @dict_get_set_eq @dict_get_pop_eq : cops.
#[export] Hint Rewrite @dict_get_set_ne @dict_get_pop_ne using congruence : cops.

(** Split every [let]/[match] the goal or the context is stuck on. *)
Ltac break_match :=
  match goal with
  | |- context [match ?x with _ => _ end] => destruct x eqn:?
  | H : context [match ?x with _ => _ end] |- _ => destruct x eqn:?
  end.
Ltac break_goal_match :=
  match goal with
  | |- context [match ?x with _ => _ end] => destruct x eqn:?
  end.

(** Invert the successful runs of the error monad in the context. *)
Ltac inv_ok :=
  repeat match goal with
  | H : mret _ = Ok _ |- _ => injection H as H
  | H : Ok _ = Ok _ |- _ => injection H as H
  | H : Raise _ = Ok _ |- _ => discriminate H
  | H : Ok _ = Raise _ |- _ => discriminate H
  | H : raise_if _ _ = Ok _ |- _ => apply raise_if_ok in H
  | H : _ ≫= _ = Ok _ |- _ =>
      let a := fresh "a" in let Ha := fresh "Ha" in
      apply result_bind_ok in H as (a & Ha & H); try (is_var a; destruct a)
  | H : mbind _ _ = Ok _ |- _ =>
      let a := fresh "a" in let Ha := fresh "Ha" in
      apply result_bind_ok in H as (a & Ha & H)
  end.

(** Peel one step of a successful run: drop it, or name its value and equation. *)
Ltac skip_bind H := apply result_bind_ok in H as (_ & _ & H).
Tactic Notation "peel_bind" hyp(H) "as" simple_intropattern(a) simple_intropattern(Ha) :=
  apply result_bind_ok in H as (a & Ha & H).

Ltac bool_simpl :=
  repeat match goal with
  | H : _ && _ = true |- _ => apply andb_true_iff in H as [? ?]
  | H : _ || _ = false |- _ => apply orb_false_iff in H as [? ?]
  | H : negb _ = true |- _ => apply negb_true_iff in H
  | H : negb _ = false |- _ => apply negb_false_iff in H
  | H : String.eqb _ _ = true |- _ => apply String.eqb_eq in H
  | H : String.eqb _ _ = false |- _ => apply String.eqb_neq in H
  | H : Z.eqb _ _ = true |- _ => apply Z.eqb_eq in H
  | H : Z.eqb _ _ = false |- _ => apply Z.eqb_neq in H
  | H : Z.leb _ _ = true |- _ => apply Z.leb_le in H
  | H : Z.leb _ _ = false |- _ => apply Z.leb_gt in H
  | H : Z.ltb _ _ = true |- _ => apply Z.ltb_lt in H
  | H : Z.ltb _ _ = false |- _ => apply Z.ltb_ge in H
  end.
