(* ===== verification/PyVal.v ===== *)
(** * Python values

    The values that flow through the pipeline: what [json.loads] produces and
    the code builds from it.  Floats are IEEE binary64 as [spec_float] (the
    Standard Library's executable floats), strings are sequences of 8-bit code
    points (U+0000 to U+00FF), dicts keep their insertion order.

    This file gives the language's own operations: truth, equality, ordering,
    [in], [str], the string methods the code uses. *)

From Stdlib Require Export SpecFloat Ascii.
From Stdlib Require Import DecimalString DecimalPos DecimalZ.
From S2P Require Export Prelude.

#[local] Set Warnings "-register-all".
Local Open Scope Z_scope.

Inductive pyval :=
| PNone
| PBool (b : bool)
| PInt (z : Z)
| PFloat (f : spec_float)
| PStr (s : string)
| PList (l : list pyval)
| PDict (d : list (string * pyval)).

(** Induction through the nested lists. *)
Section pyval_ind.
Context (P : pyval -> Prop).
Context (HNone : P PNone) (HBool : forall b, P (PBool b)) (HInt : forall z, P (PInt z))
  (HFloat : forall f, P (PFloat f)) (HStr : forall s, P (PStr s))
  (HList : forall l, Forall P l -> P (PList l))
  (HDict : forall d, Forall (fun kv => P kv.2) d -> P (PDict d)).

Fixpoint pyval_ind' (v : pyval) : P v :=
  match v with
  | PNone => HNone | PBool b => HBool b | PInt z => HInt z
  | PFloat f => HFloat f | PStr s => HStr s
  | PList l => HList l
      ((fix go l : Forall P l :=
          match l with [] => Forall_nil_2 _ | x :: l' => Forall_cons_2 _ _ _ (pyval_ind' x) (go l') end) l)
  | PDict d => HDict d
      ((fix go d : Forall (fun kv => P kv.2) d :=
          match d with [] => Forall_nil_2 _ | (k, x) :: d' => Forall_cons_2 _ (k, x) _ (pyval_ind' x) (go d') end) d)
  end.
End pyval_ind.

(** ** Type tests *)

Definition is_none (v : pyval) : bool := match v with PNone => true | _ => false end.
Definition is_str (v : pyval) : bool := match v with PStr _ => true | _ => false end.
Definition is_mapping (v : pyval) : bool := match v with PDict _ => true | _ => false end.
Definition is_list (v : pyval) : bool := match v with PList _ => true | _ => false end.
Definition is_bool (v : pyval) : bool := match v with PBool _ => true | _ => false end.
(** [isinstance(v, int)]: a [bool] is an [int]. *)
Definition is_int (v : pyval) : bool := match v with PInt _ | PBool _ => true | _ => false end.
(** [v is True]. *)
Definition is_true (v : pyval) : bool := match v with PBool b => b | _ => false end.

Definition of_option (o : option pyval) : pyval := default PNone o.
(** [d.get(k)] on a dict's items. *)
Definition dget (k : string) (d : list (string * pyval)) : pyval := of_option (dict_get k d).
(** The items of [dict(v or {})] when [v] is a mapping or falsy. *)
Definition dict_items (v : pyval) : list (string * pyval) :=
  match v with PDict d => d | _ => [] end.

(** ** Numbers

    Python compares [bool], [int] and [float] by exact value.  [num] is that
    value: a dyadic rational [m * 2^e], an infinity or not-a-number. *)

Inductive num := NNan | NInf (neg : bool) | NDy (m e : Z).

Definition float_num (f : spec_float) : num :=
  match f with
  | S754_zero _ => NDy 0 0
  | S754_infinity s => NInf s
  | S754_nan => NNan
  | S754_finite s m e => NDy (if s then Z.neg m else Z.pos m) e
  end.

Definition num_of (v : pyval) : option num :=
  match v with
  | PBool b => Some (NDy (if b then 1 else 0) 0)
  | PInt z => Some (NDy z 0)
  | PFloat f => Some (float_num f)
  | _ => None
  end.

Definition num_cmp (x y : num) : option comparison :=
  match x, y with
  | NNan, _ | _, NNan => None
  | NInf s, NInf t => Some (match s, t with true, false => Lt | false, true => Gt | _, _ => Eq end)
  | NInf s, NDy _ _ => Some (if s then Lt else Gt)
  | NDy _ _, NInf t => Some (if t then Gt else Lt)
  | NDy m1 e1, NDy m2 e2 =>
      let e := Z.min e1 e2 in
      Some (Z.compare (m1 * 2 ^ (e1 - e)) (m2 * 2 ^ (e2 - e)))
  end.

Definition num_eqb (x y : num) : bool :=
  match num_cmp x y with Some Eq => true | _ => false end.

(** ** Truth value *)

Definition truthy (v : pyval) : bool :=
  match v with
  | PNone => false
  | PBool b => b
  | PInt z => negb (z =? 0)
  | PFloat (S754_zero _) => false
  | PFloat _ => true
  | PStr s => negb (String.eqb s "")
  | PList l => match l with [] => false | _ => true end
  | PDict d => match d with [] => false | _ => true end
  end.

(** [a or b]. *)
Definition py_or (a b : pyval) : pyval := if truthy a then a else b.

(** ** Equality

    Native [==]: numbers by value across [bool]/[int]/[float], no coercion
    between strings and numbers, lists elementwise, dicts as maps. *)

Fixpoint py_eq (a b : pyval) {struct a} : bool :=
  match a, b with
  | PNone, PNone => true
  | PStr s, PStr t => String.eqb s t
  | PList l, PList m =>
      (fix go l m :=
         match l, m with
         | [], [] => true
         | x :: l', y :: m' => py_eq x y && go l' m'
         | _, _ => false
         end) l m
  | PDict d, PDict e =>
      Nat.eqb (length d) (length e) &&
      (fix go d :=
         match d with
         | [] => true
         | (k, x) :: d' =>
             match dict_get k e with Some y => py_eq x y | None => false end && go d'
         end) d
  | _, _ =>
      match num_of a, num_of b with Some x, Some y => num_eqb x y | _, _ => false end
  end.

(** Ordering operators; [None] is the [TypeError] of incomparable types. *)
Inductive cmpop := CGt | CGe | CLt | CLe.

Definition cmp_holds (op : cmpop) (c : comparison) : bool :=
  match op, c with
  | CGt, Gt | CGe, Gt | CGe, Eq | CLt, Lt | CLe, Lt | CLe, Eq => true
  | _, _ => false
  end.

Fixpoint py_order (op : cmpop) (a b : pyval) {struct a} : option bool :=
  match a, b with
  | PStr s, PStr t => Some (cmp_holds op (String.compare s t))
  | PList l, PList m =>
      (fix go l m :=
         match l, m with
         | [], [] => Some (cmp_holds op Eq)
         | [], _ => Some (cmp_holds op Lt)
         | _, [] => Some (cmp_holds op Gt)
         | x :: l', y :: m' => if py_eq x y then go l' m' else py_order op x y
         end) l m
  | _, _ =>
      match num_of a, num_of b with
      | Some x, Some y =>
          Some (match num_cmp x y with Some c => cmp_holds op c | None => false end)
      | _, _ => None
      end
  end.

(** A value that [hash] accepts: no list or dict inside. *)
Definition hashable (v : pyval) : bool :=
  match v with PList _ | PDict _ => false | _ => true end.

(** ** Strings *)

Fixpoint str_prefix (p s : string) : bool :=
  match p, s with
  | EmptyString, _ => true
  | String a p', String b s' => Ascii.eqb a b && str_prefix p' s'
  | _, _ => false
  end.

Fixpoint str_contains (sub s : string) : bool :=
  str_prefix sub s ||
  match s with EmptyString => false | String _ s' => str_contains sub s' end.

(** [s.split(c)] for a one-character separator. *)
Fixpoint str_split (c : ascii) (s : string) : list string :=
  match s with
  | EmptyString => [""%string]
  | String a s' =>
      if Ascii.eqb a c then ""%string :: str_split c s'
      else match str_split c s' with
           | [] => [String a ""]
           | w :: ws => String a w :: ws
           end
  end.

Fixpoint str_map (f : ascii -> ascii) (s : string) : string :=
  match s with EmptyString => EmptyString | String a s' => String (f a) (str_map f s') end.

Definition in_range (lo hi : N) (a : ascii) : bool :=
  (N.leb lo (N_of_ascii a) && N.leb (N_of_ascii a) hi)%N.

Definition ascii_lower (a : ascii) : ascii :=
  if in_range 65 90 a || in_range 192 214 a || in_range 216 222 a
  then ascii_of_N (N_of_ascii a + 32) else a.
(** Exact except for the three Latin-1 letters whose upper case lies outside
    U+0000..U+00FF (U+00B5, U+00DF, U+00FF), left unchanged here. *)
Definition ascii_upper (a : ascii) : ascii :=
  if in_range 97 122 a || in_range 224 246 a || in_range 248 254 a
  then ascii_of_N (N_of_ascii a - 32) else a.
Definition str_lower : string -> string := str_map ascii_lower.
Definition str_upper : string -> string := str_map ascii_upper.

Definition is_space (a : ascii) : bool :=
  in_range 9 13 a || in_range 28 32 a || in_range 133 133 a || in_range 160 160 a.
Fixpoint str_lstrip (s : string) : string :=
  match s with
  | String a s' => if is_space a then str_lstrip s' else s
  | EmptyString => EmptyString
  end.
Fixpoint str_rev_app (s acc : string) : string :=
  match s with EmptyString => acc | String a s' => str_rev_app s' (String a acc) end.
Definition str_rev (s : string) : string := str_rev_app s EmptyString.
(** [s.strip()]. *)
Definition str_strip (s : string) : string := str_rev (str_lstrip (str_rev (str_lstrip s))).
(** [not s.strip()]. *)
Definition str_blank (s : string) : bool := String.eqb (str_strip s) "".

Fixpoint str_take (n : nat) (s : string) : string :=
  match n, s with
  | S n', String a s' => String a (str_take n' s')
  | _, _ => EmptyString
  end.
Fixpoint str_drop (n : nat) (s : string) : string :=
  match n, s with
  | S n', String _ s' => str_drop n' s'
  | _, _ => s
  end.
Fixpoint str_repeat (s : string) (n : nat) : string :=
  match n with O => EmptyString | S n' => (s +:+ str_repeat s n')%string end.

(** [len(s.encode("utf-8"))]: one byte below U+0080, two above. *)
Definition utf8_width (a : ascii) : nat := if in_range 0 127 a then 1%nat else 2%nat.
Fixpoint utf8_len (s : string) : nat :=
  match s with EmptyString => 0%nat | String a s' => (utf8_width a + utf8_len s')%nat end.
(** [s.encode("utf-8")[:n].decode("utf-8", "ignore")]: a cut sequence is dropped. *)
Fixpoint utf8_clip (n : nat) (s : string) : string :=
  match s with
  | EmptyString => EmptyString
  | String a s' =>
      if Nat.leb (utf8_width a) n then String a (utf8_clip (n - utf8_width a) s') else EmptyString
  end.

(** ** Float arithmetic (binary64, round to nearest even) *)

Definition float_of_Z (z : Z) : spec_float := binary_normalize 53 1024 z 0 false.
Definition float_add : spec_float -> spec_float -> spec_float := SFadd 53 1024.
Definition float_mul : spec_float -> spec_float -> spec_float := SFmul 53 1024.
Definition float_div : spec_float -> spec_float -> spec_float := SFdiv 53 1024.

Definition str_of_Z (z : Z) : string := NilZero.string_of_int (Z.to_int z).
Definition str_of_nat (n : nat) : string := str_of_Z (Z.of_nat n).

Fixpoint has_char (c : ascii) (s : string) : bool :=
  match s with EmptyString => false | String a s' => Ascii.eqb a c || has_char c s' end.

Lemma has_char_app c s t : has_char c (s +:+ t)%string = has_char c s || has_char c t.
Proof. induction s as [|a s IH]; [done|]. cbn [has_char String.append]. change (String a s +:+ t)%string with (String a (s +:+ t)). cbn [has_char]. by rewrite IH, orb_assoc. Qed.

(** A text without the separator is determined by what precedes the separator. *)
Lemma split_at_sep c s1 s2 t1 t2 :
  has_char c s1 = false -> has_char c s2 = false ->
  (s1 +:+ String c t1)%string = (s2 +:+ String c t2)%string -> s1 = s2 /\ t1 = t2.
Proof.
  revert s2. induction s1 as [|a s1 IH]; intros [|b s2] H1 H2 He; cbn in *.
  - by simplify_eq.
  - injection He as <- _. by rewrite Ascii.eqb_refl in H2.
  - injection He as -> _. by rewrite Ascii.eqb_refl in H1.
  - apply orb_false_iff in H1 as [_ H1], H2 as [_ H2]. injection He as -> He.
    destruct (IH s2 H1 H2 He) as [-> ->]. done.
Qed.

Lemma str_of_Z_no_sep z : has_char ":" (str_of_Z z) = false.
Proof.
  unfold str_of_Z, NilZero.string_of_int. generalize (Z.to_int z). intros i.
  assert (forall u, has_char ":" (NilEmpty.string_of_uint u) = false) as Hu by (intros u; by induction u).
  assert (forall u, has_char ":" (NilZero.string_of_uint u) = false) as Hz by (intros u; destruct u; apply Hu || done).
  destruct i; cbn; apply Hz.
Qed.

Lemma str_of_Z_inj z1 z2 : str_of_Z z1 = str_of_Z z2 -> z1 = z2.
Proof.
  intros He. assert (forall z, NilZero.int_of_string (str_of_Z z) = Some (Z.to_int z)) as Hr.
  { intros z. apply NilZero.isi; destruct z as [|p|p]; cbn; try done; intros [= E];
      by apply (DecimalPos.Unsigned.to_uint_nonnil p). }
  apply DecimalZ.to_int_inj. pose proof (Hr z1) as E1. rewrite He, Hr in E1. congruence.
Qed.

(** [a in b]; [None] is the [TypeError] of a container that cannot answer. *)
Definition py_contains (a b : pyval) : option bool :=
  match b with
  | PList l => Some (existsb (py_eq a) l)
  | PDict d =>
      match a with
      | PStr k => Some (dict_has k d)
      | _ => if hashable a then Some false else None
      end
  | PStr s => match a with PStr t => Some (str_contains t s) | _ => None end
  | _ => None
  end.

(** ** [str] and [repr]

    The shortest round-trip rendering of a float is the interpreter's. *)
Class FloatRepr := float_repr : spec_float -> string.

Definition hex_digit (n : N) : ascii :=
  ascii_of_N (if (n <? 10)%N then 48 + n else 87 + n)%N.
Definition hex_escape (a : ascii) : string :=
  let n := N_of_ascii a in
  String "\" (String "x" (String (hex_digit (n / 16)) (String (hex_digit (n mod 16)) ""))).
Definition quote_char : ascii := "'"%char.
Definition dquote_char : ascii := ascii_of_nat 34.

Definition repr_char (q a : ascii) : string :=
  if Ascii.eqb a q || Ascii.eqb a "\" then String "\" (String a "")
  else if Ascii.eqb a (ascii_of_nat 10) then "\n"
  else if Ascii.eqb a (ascii_of_nat 13) then "\r"
  else if Ascii.eqb a (ascii_of_nat 9) then "\t"
  else if in_range 0 31 a || in_range 127 160 a || in_range 173 173 a then hex_escape a
  else String a "".
Definition repr_str (s : string) : string :=
  let has c := str_contains (String c "") s in
  let q := if has quote_char && negb (has dquote_char) then dquote_char else quote_char in
  let fix go s := match s with EmptyString => ""%string | String a s' => (repr_char q a +:+ go s')%string end in
  String q (go s +:+ String q "")%string.

Fixpoint py_repr `{FloatRepr} (v : pyval) : string :=
  match v with
  | PNone => "None"
  | PBool b => if b then "True" else "False"
  | PInt z => str_of_Z z
  | PFloat f => float_repr f
  | PStr s => repr_str s
  | PList l => ("[" +:+ String.concat ", " (map py_repr l) +:+ "]")%string
  | PDict d =>
      ("{" +:+ String.concat ", " (map (fun kv => (repr_str kv.1 +:+ ": " +:+ py_repr kv.2)%string) d) +:+ "}")%string
  end.

(** [str(v)]. *)
Definition py_str `{FloatRepr} (v : pyval) : string :=
  match v with PStr s => s | _ => py_repr v end.

(** ** Well-formed values

    A Python dict holds a key once, at every depth. *)
Inductive pywf : pyval -> Prop :=
| pywf_atom v : is_list v = false -> is_mapping v = false -> pywf v
| pywf_list l : Forall pywf l -> pywf (PList l)
| pywf_dict d : dict_wf d -> Forall (fun kv => pywf kv.2) d -> pywf (PDict d).

(** ** Lemmas *)

Lemma pywf_list_inv l : pywf (PList l) -> Forall pywf l.
Proof. by inversion 1. Qed.
Lemma pywf_dict_inv d : pywf (PDict d) -> dict_wf d /\ Forall (fun kv => pywf kv.2) d.
Proof. by inversion 1. Qed.
Lemma pywf_dict_get d k v : pywf (PDict d) -> dict_get k d = Some v -> pywf v.
Proof.
  intros [_ Hd]%pywf_dict_inv Hg%dict_get_elem. rewrite Forall_forall in Hd. exact (Hd _ Hg).
Qed.
Lemma pywf_dict_set d k v : pywf (PDict d) -> pywf v -> pywf (PDict (dict_set k v d)).
Proof.
  intros [Hw Hd]%pywf_dict_inv Hv. constructor; [by apply dict_set_wf|]. clear Hw.
  induction Hd as [|[k' v'] d Hv' Hd IH]; cbn.
  - by apply Forall_singleton.
  - destruct (String.eqb k k'); by apply Forall_cons.
Qed.
Lemma pywf_dict_filter (P : string * pyval -> Prop) `{!forall kv, Decision (P kv)} d :
  pywf (PDict d) -> pywf (PDict (filter P d)).
Proof.
  intros [Hw Hd]%pywf_dict_inv. constructor; [|by apply Forall_filter_sub].
  unfold dict_wf, dict_keys in *. eapply sublist_NoDup; [exact Hw|]. apply fmap_sublist, sublist_filter.
Qed.

Lemma dy_scale m1 e1 m2 e2 e :
  e <= Z.min e1 e2 ->
  (m1 * 2 ^ (e1 - Z.min e1 e2) = m2 * 2 ^ (e2 - Z.min e1 e2) <->
   m1 * 2 ^ (e1 - e) = m2 * 2 ^ (e2 - e)).
Proof.
  intros He. set (k := Z.min e1 e2) in *.
  assert (forall x, k <= x -> 2 ^ (x - e) = 2 ^ (x - k) * 2 ^ (k - e)) as Hs.
  { intros x Hx. rewrite <- Z.pow_add_r by lia. f_equal. lia. }
  rewrite (Hs e1), (Hs e2), !Z.mul_assoc by lia.
  split; [by intros -> | apply Z.mul_reg_r]. apply Z.pow_nonzero; lia.
Qed.

Lemma num_eqb_dy m1 e1 m2 e2 :
  num_eqb (NDy m1 e1) (NDy m2 e2) = true <->
  m1 * 2 ^ (e1 - Z.min e1 e2) = m2 * 2 ^ (e2 - Z.min e1 e2).
Proof.
  unfold num_eqb, num_cmp. rewrite <- Z.compare_eq_iff. cbv zeta. by destruct (Z.compare _ _).
Qed.

Lemma num_eqb_trans x y z : num_eqb x y = true -> num_eqb y z = true -> num_eqb x z = true.
Proof.
  destruct x as [|s|m1 e1], y as [|t|m2 e2], z as [|u|m3 e3]; try done.
  all: try by (repeat match goal with b : bool |- _ => destruct b end).
  rewrite !num_eqb_dy. intros E1 E2.
  set (e := Z.min e1 (Z.min e2 e3)).
  apply (dy_scale _ _ _ _ e) in E1; [|lia]. apply (dy_scale _ _ _ _ e) in E2; [|lia].
  apply (dy_scale _ _ _ _ e); [lia | congruence].
Qed.

Lemma num_cmp_dy_refl m e : num_cmp (NDy m e) (NDy m e) = Some Eq.
Proof. cbn. by rewrite Z.compare_refl. Qed.

Lemma py_eq_list l m :
  py_eq (PList l) (PList m) = true <-> Forall2 (fun x y => py_eq x y = true) l m.
Proof.
  cbn. revert m. induction l as [|x l IH]; intros [|y m]; cbn.
  - split; [constructor | done].
  - split; [done | inversion 1].
  - split; [done | inversion 1].
  - rewrite andb_true_iff, IH. split.
    + intros []. by constructor.
    + by inversion 1.
Qed.

Lemma py_eq_dict d e :
  py_eq (PDict d) (PDict e) = true <->
  length d = length e /\
  Forall (fun kv => exists y, dict_get kv.1 e = Some y /\ py_eq kv.2 y = true) d.
Proof.
  cbn. rewrite andb_true_iff, Nat.eqb_eq. apply and_iff_compat_l.
  induction d as [|[k x] d IH]; cbn; [by split|].
  rewrite Forall_cons, <- IH, andb_true_iff. cbn. destruct (dict_get k e); naive_solver.
Qed.

Lemma py_eq_num a b x y : num_of a = Some x -> num_of b = Some y -> py_eq a b = num_eqb x y.
Proof. destruct a, b; intros [= <-] [= <-]; done. Qed.

Lemma py_eq_trans a b c : py_eq a b = true -> py_eq b c = true -> py_eq a c = true.
Proof.
  revert b c. induction a as [| | | |s|l IH|d IH] using pyval_ind'; intros v w H1 H2.
  1-4: destruct v, w; try done; erewrite py_eq_num in H1, H2 |- * by done;
    eapply num_eqb_trans; eassumption.
  - destruct v, w; cbn in *; try done. bool_simpl. subst. by apply String.eqb_eq.
  - destruct v as [| | | | |m|]; cbn in H1; try done.
    destruct w as [| | | | |k|]; cbn in H2; try done.
    apply py_eq_list in H1, H2. apply py_eq_list.
    revert m k H1 H2. induction IH as [|x l Hx _ IHl]; intros m k H1 H2.
    + inversion H1; subst. by inversion H2.
    + inversion H1; subst. inversion H2; subst. constructor; eauto.
  - destruct v as [| | | | | |e]; cbn in H1; try done.
    destruct w as [| | | | | |g]; cbn in H2; try done.
    apply py_eq_dict in H1 as [L1 H1], H2 as [L2 H2]. apply py_eq_dict. split; [congruence|].
    rewrite Forall_forall in IH, H1, H2 |- *. intros kv Hkv.
    destruct (H1 _ Hkv) as (y & Hy & E1). destruct (H2 _ (dict_get_elem _ _ _ Hy)) as (z & Hz & E2).
    exists z. split; [done|]. by eapply IH.
Qed.

Lemma py_eq_str_l s v : py_eq (PStr s) v = true <-> v = PStr s.
Proof.
  destruct v; cbn; try done. rewrite String.eqb_eq. split; [by intros -> | by intros [= ->]].
Qed.
Lemma py_eq_str_r s v : py_eq v (PStr s) = true <-> v = PStr s.
Proof. destruct v; cbn; try done. rewrite String.eqb_eq. split; [by intros -> | by intros [= ->]]. Qed.
Lemma py_eq_none_r v : py_eq v PNone = true <-> v = PNone.
Proof. destruct v; cbn; done. Qed.
Lemma py_eq_none_l v : py_eq PNone v = true <-> v = PNone.
Proof. destruct v; cbn; done. Qed.
Lemma py_eq_int a b : py_eq (PInt a) (PInt b) = (a =? b).
Proof.
  erewrite py_eq_num by done. unfold num_eqb, num_cmp. cbv zeta.
  rewrite !Z.mul_1_r, Z.eqb_compare. by destruct (a ?= b).
Qed.

#[export] Hint Rewrite py_eq_str_l py_eq_str_r py_eq_none_l py_eq_none_r : cops.

Lemma str_length_app s t : String.length (s +:+ t) = (String.length s + String.length t)%nat.
Proof. induction s as [|c s IH]; [done|]. change (S (String.length (s +:+ t)) = S (String.length s + String.length t)). by rewrite IH. Qed.
Lemma str_app_assoc s t u : ((s +:+ t) +:+ u)%string = (s +:+ (t +:+ u))%string.
Proof.
  induction s as [|c s IH]; [done|].
  change (String c ((s +:+ t) +:+ u) = String c (s +:+ (t +:+ u)))%string. by rewrite IH.
Qed.
Lemma str_app_inj s t u v :
  String.length s = String.length t -> (s +:+ u)%string = (t +:+ v)%string -> s = t /\ u = v.
Proof.
  revert t. induction s as [|c s IH]; intros [|d t]; try done. intros [= Hl] He.
  change (String c (s +:+ u) = String d (t +:+ v))%string in He. injection He as -> He.
  destruct (IH t Hl He) as [-> ->]. done.
Qed.
Lemma str_app_inj_suffix s t u v :
  String.length u = String.length v -> (s +:+ u)%string = (t +:+ v)%string -> s = t /\ u = v.
Proof.
  intros Hl He. apply str_app_inj; [|done]. apply (f_equal String.length) in He.
  rewrite !str_length_app in He. lia.
Qed.
Lemma str_length_take n s : String.length (str_take n s) = Nat.min n (String.length s).
Proof. revert s; induction n as [|n IH]; intros []; cbn; try done. by rewrite IH. Qed.
Lemma str_length_drop n s : String.length (str_drop n s) = (String.length s - n)%nat.
Proof. revert s; induction n; intros []; cbn; done. Qed.
Lemma str_length_repeat a n : String.length (str_repeat (String a "") n) = n.
Proof.
  induction n as [|n IH]; [done|].
  change (S (String.length (str_repeat (String a "") n)) = S n). by rewrite IH.
Qed.
Lemma str_get_repeat a n i : (i < n)%nat -> String.get i (str_repeat (String a "") n) = Some a.
Proof. revert i; induction n; intros [] ?; cbn; [lia..| done |]. apply IHn. lia. Qed.

(** Renderings for closed examples. *)
Definition demo_float_repr : FloatRepr := fun _ => "0.0"%string.

(** ** The order on texts

    [<] on [str] compares code points. *)

Lemma ascii_compare_lt_trans a b c :
  Ascii.compare a b = Lt -> Ascii.compare b c = Lt -> Ascii.compare a c = Lt.
Proof. unfold Ascii.compare. rewrite !N.compare_lt_iff. lia. Qed.

Lemma string_compare_lt_trans s t u :
  String.compare s t = Lt -> String.compare t u = Lt -> String.compare s u = Lt.
Proof.
  revert t u. induction s as [|a s IH]; intros [|b t] [|c u]; cbn; try done.
  destruct (Ascii.compare a b) eqn:Eab, (Ascii.compare b c) eqn:Ebc; try done; intros H1 H2.
  - apply Ascii.compare_eq_iff in Eab, Ebc. subst.
    unfold Ascii.compare. rewrite N.compare_refl. by eapply IH.
  - apply Ascii.compare_eq_iff in Eab. subst. by rewrite Ebc.
  - apply Ascii.compare_eq_iff in Ebc. subst. by rewrite Eab.
  - by rewrite (ascii_compare_lt_trans _ _ _ Eab Ebc).
Qed.

Lemma string_compare_refl s : String.compare s s = Eq.
Proof. induction s as [|a s IH]; [done|]. cbn. unfold Ascii.compare. by rewrite N.compare_refl. Qed.

Lemma string_leb_false s t : String.leb s t = false -> String.compare t s = Lt.
Proof. unfold String.leb. rewrite (String.compare_antisym t s). by destruct (String.compare s t). Qed.
Lemma string_leb_lt s t : String.compare s t = Lt -> String.leb s t = true /\ String.leb t s = false.
Proof. intros Hlt. unfold String.leb. rewrite (String.compare_antisym t s), Hlt. done. Qed.
Lemma string_leb_cases s t : s = t \/ String.compare s t = Lt \/ String.compare t s = Lt.
Proof.
  destruct (String.compare s t) eqn:E; [left; by apply String.compare_eq_iff|right; by left|right; right].
  by rewrite String.compare_antisym, E.
Qed.
Lemma string_leb_refl s : String.leb s s = true.
Proof. unfold String.leb. by rewrite string_compare_refl. Qed.

(** [sorted] on texts. *)
Fixpoint insert_str (s : string) (l : list string) : list string :=
  match l with
  | [] => [s]
  | t :: l' => if String.leb s t then s :: l else t :: insert_str s l'
  end.
Definition sorted_strs (l : list string) : list string := foldr insert_str [] l.

Lemma insert_str_swap_lt s t l :
  String.compare s t = Lt -> insert_str s (insert_str t l) = insert_str t (insert_str s l).
Proof.
  intros Hst. destruct (string_leb_lt s t Hst) as [H1 H2]. induction l as [|u l IH]; cbn; [by rewrite H1, H2|].
  destruct (String.leb t u) eqn:Et; cbn.
  - rewrite H1. assert (String.leb s u = true) as Es.
    { destruct (String.leb s u) eqn:E; [done|]. apply string_leb_false in E.
      pose proof (string_compare_lt_trans _ _ _ E Hst) as [_ Hf]%string_leb_lt. congruence. }
    rewrite Es. cbn. by rewrite H2, Et.
  - destruct (String.leb s u) eqn:Es; cbn; [by rewrite H2, Et|]. by rewrite Et, IH.
Qed.

Lemma insert_str_swap s t l : insert_str s (insert_str t l) = insert_str t (insert_str s l).
Proof.
  destruct (string_leb_cases s t) as [->|[H|H]]; [done|by apply insert_str_swap_lt|].
  symmetry. by apply insert_str_swap_lt.
Qed.

#[export] Instance sorted_strs_proper : Proper ((≡ₚ) ==> (=)) sorted_strs.
Proof.
  unfold sorted_strs. induction 1 as [|s l1 l2 _ IH|s t l|l1 l2 l3 _ IH1 _ IH2]; cbn;
    [done|by rewrite IH|apply insert_str_swap|congruence].
Qed.

Lemma insert_str_perm s l : insert_str s l ≡ₚ s :: l.
Proof.
  induction l as [|t l IH]; [done|]. cbn. case_match; [done|]. rewrite IH. apply perm_swap.
Qed.
Lemma sorted_strs_perm l : sorted_strs l ≡ₚ l.
Proof. induction l as [|s l IH]; [done|]. cbn. by rewrite insert_str_perm, IH. Qed.

(** A text without the separator is determined by what follows the last one. *)
Lemma split_at_last_sep c s1 s2 t1 t2 :
  has_char c t1 = false -> has_char c t2 = false ->
  (s1 +:+ String c t1)%string = (s2 +:+ String c t2)%string -> s1 = s2 /\ t1 = t2.
Proof.
  revert s2. induction s1 as [|a s1 IH]; intros [|b s2] H1 H2 He; cbn in He.
  - by simplify_eq.
  - injection He as -> He. exfalso. rewrite He, has_char_app in H1. cbn in H1.
    by rewrite Ascii.eqb_refl, orb_true_r in H1.
  - injection He as -> He. exfalso. rewrite <- He, has_char_app in H2. cbn in H2.
    by rewrite Ascii.eqb_refl, orb_true_r in H2.
  - injection He as -> He. by destruct (IH s2 H1 H2 He) as [-> ->].
Qed.
