(* ===== verification/Text.v ===== *)
(** * Operations on texts

    The methods of Python's [str] and [bytes] the account tables, the syslog
    parser and the labels of a row use, beyond those of [PyVal]: cutting at a
    separator, searching, and the hexadecimal form of bytes. *)

From S2P Require Import Prelude PyVal.

Local Open Scope string_scope.

(** [s.partition(c)] for one character, when it occurs. *)
Fixpoint str_cut (c : ascii) (s : string) : option (string * string) :=
  match s with
  | EmptyString => None
  | String a s' =>
      if Ascii.eqb a c then Some ("", s') else (fun p : string * string => (String a p.1, p.2)) <$> str_cut c s'
  end.

(** [s.split(c, n)]: at most [n] cuts. *)
Fixpoint str_split_max (n : nat) (c : ascii) (s : string) : list string :=
  match n with
  | 0%nat => [s]
  | S n' => match str_cut c s with Some (a, b) => a :: str_split_max n' c b | None => [s] end
  end.

(** [s[s.find(sub) + len(sub):]], when [sub] occurs. *)
Fixpoint str_after (sub s : string) : option string :=
  if str_prefix sub s then Some (str_drop (String.length sub) s)
  else match s with EmptyString => None | String _ s' => str_after sub s' end.

Lemma str_cut_app c s t : has_char c s = false -> str_cut c (s +:+ String c t) = Some (s, t).
Proof.
  induction s as [|a s IH].
  - intros _. change ("" +:+ String c t) with (String c t). cbn [str_cut]. by rewrite Ascii.eqb_refl.
  - change (String a s +:+ String c t) with (String a (s +:+ String c t)). cbn [str_cut has_char].
    intros [H1 H2]%orb_false_iff. by rewrite H1, IH.
Qed.

Lemma str_cut_none c s : has_char c s = false -> str_cut c s = None.
Proof. induction s as [|a s IH]; cbn [str_cut has_char]; [done|]. intros [H1 H2]%orb_false_iff. by rewrite H1, IH. Qed.

Lemma str_cut_some c s a b : str_cut c s = Some (a, b) -> s = (a +:+ String c b) /\ has_char c a = false.
Proof.
  revert a. induction s as [|x s IH]; intros a; cbn [str_cut]; [done|].
  destruct (Ascii.eqb_spec x c) as [->|Hne]; [by intros [= <- <-]|].
  destruct (str_cut c s) as [[a' b']|]; [|done]. cbn. intros [= <- ->].
  destruct (IH _ eq_refl) as [-> Hc]. split; [done|]. cbn [has_char]. rewrite Hc.
  by apply Ascii.eqb_neq in Hne as ->.
Qed.

(** ** Bytes in hexadecimal *)

Fixpoint to_hex (b : string) : string :=
  match b with
  | EmptyString => ""
  | String a b' => String (hex_digit (N_of_ascii a / 16)) (String (hex_digit (N_of_ascii a mod 16)) (to_hex b'))
  end.

Definition hex_value (a : ascii) : option N :=
  let n := N_of_ascii a in
  if in_range 48 57 a then Some (n - 48)%N
  else if in_range 97 102 a then Some (n - 87)%N
  else if in_range 65 70 a then Some (n - 55)%N
  else None.

(** The blanks [bytes.fromhex] skips between two bytes. *)
Definition hex_blank (a : ascii) : bool := in_range 9 13 a || Ascii.eqb a " ".

(** [bytes.fromhex]; [None] is its [ValueError]. *)
Fixpoint from_hex (s : string) : option string :=
  match s with
  | EmptyString => Some ""
  | String a s' =>
      if hex_blank a then from_hex s'
      else match s' with
           | EmptyString => None
           | String b s'' =>
               x ← hex_value a; y ← hex_value b; rest ← from_hex s'';
               Some (String (ascii_of_N (16 * x + y)) rest)
           end
  end.

Lemma hex_byte a : exists x y,
  hex_blank (hex_digit (N_of_ascii a / 16)) = false /\
  hex_value (hex_digit (N_of_ascii a / 16)) = Some x /\ hex_value (hex_digit (N_of_ascii a mod 16)) = Some y /\
  ascii_of_N (16 * x + y) = a.
Proof.
  exists (N_of_ascii a / 16)%N, (N_of_ascii a mod 16)%N.
  by destruct a as [[] [] [] [] [] [] [] []]; vm_compute.
Qed.

Lemma hex_round b : from_hex (to_hex b) = Some b.
Proof.
  induction b as [|a b IH]; [done|]. cbn [to_hex from_hex].
  destruct (hex_byte a) as (x & y & -> & -> & -> & Ha). cbn [mbind option_bind]. by rewrite IH, <- Ha at 1.
Qed.

Lemma hex_digits a :
  hex_value (hex_digit (N_of_ascii a / 16)) <> None /\ hex_value (hex_digit (N_of_ascii a mod 16)) <> None.
Proof. by destruct a as [[] [] [] [] [] [] [] []]; vm_compute. Qed.

Lemma hex_no_sep c b : hex_value c = None -> has_char c (to_hex b) = false.
Proof.
  intros Hc. induction b as [|a b IH]; [done|]. cbn [to_hex has_char]. rewrite IH, orb_false_r.
  destruct (hex_digits a) as [H1 H2]. apply orb_false_iff.
  split; apply Ascii.eqb_neq; congruence.
Qed.
