(* ===== verification/Conditions.v ===== *)
(** * Route conditions

    [backend/app/collectors/routing/engine.py]: the operator vocabulary
    ([compare_values]), the evaluation of a label-driven condition ([matches]),
    its write-time validation ([validate_condition], [validate_suppress_key])
    and the subsumption test behind [find_unreachable]. *)

From S2P Require Export Prelude PyVal.

Local Open Scope string_scope.
Local Open Scope list_scope.

Definition labels := list (string * pyval).
Definition condition := list (string * pyval).

(** ** Vocabulary *)

Definition DETECTION_MATCHED_FIELD : string := "detection_matched".

Definition ALLOWED_FIELDS : list string :=
  ["vendor"; "platform"; "organization_id"; "severity_id"; "stream"; "event_type";
   "integration_id"; "customer_id"; "data_geography"; DETECTION_MATCHED_FIELD].

Definition BOOLEAN_FIELDS : list string := [DETECTION_MATCHED_FIELD].
Definition ORDERING_OPS : list string := ["gt"; "gte"; "lt"; "lte"].
Definition ALLOWED_OPS : list string :=
  ["eq"; "ne"; "gt"; "gte"; "lt"; "lte"; "in"; "nin"; "exists"].
Definition UNIQUE_PER_EVENT_LABELS : list string := ["event_id"; "collected_at"].

Definition mem (s : string) (l : list string) : bool := existsb (String.eqb s) l.

Definition canonical_field (field_name : string) : string :=
  if String.eqb field_name "org_id" then "organization_id" else field_name.

(** ** Evaluation *)

Section eval.
Context `{FloatRepr}.

(** One operator.  The [except TypeError] turns incomparable operands into
    [false]. *)
Definition compare_values (op : string) (actual expected : pyval) : bool :=
  if String.eqb op "exists" then Bool.eqb (negb (is_none actual)) (truthy expected)
  else if is_none actual then mem op ["ne"; "nin"]
  else if String.eqb op "eq" then py_eq actual expected
  else if String.eqb op "ne" then negb (py_eq actual expected)
  else if String.eqb op "gt" then default false (py_order CGt actual expected)
  else if String.eqb op "gte" then default false (py_order CGe actual expected)
  else if String.eqb op "lt" then default false (py_order CLt actual expected)
  else if String.eqb op "lte" then default false (py_order CLe actual expected)
  else if String.eqb op "contains" then str_contains (py_str expected) (py_str actual)
  else if String.eqb op "in" then default false (py_contains actual expected)
  else if String.eqb op "nin" then default false (negb <$> py_contains actual expected)
  else false.

Definition match_clause (spec actual : pyval) : bool :=
  match spec with
  | PDict ops => forallb (fun ov => compare_values ov.1 actual ov.2) ops
  | _ => compare_values "eq" actual spec
  end.

Definition matches (c : condition) (l : labels) : bool :=
  forallb (fun fs => match_clause fs.2 (dget (canonical_field fs.1) l)) c.
End eval.

(** ** Validation *)

(** [_reject_unmatchable_boolean]: the clauses a present-or-absent mark can
    never honour. *)
Definition reject_unmatchable_boolean (spec : pyval) : result unit :=
  match spec with
  | PDict ops =>
      result_fold (fun _ ov =>
        let '(op, val) := ov in
        raise_if (mem op ORDERING_OPS) EValue ;;
        raise_if (mem op ["eq"; "ne"] && negb (is_true val)) EValue ;;
        (if mem op ["in"; "nin"] then
           match val with
           | PList [] => Raise EValue
           | PList vs => raise_if (existsb (fun v => negb (is_true v)) vs) EValue
           | _ => Raise EValue
           end
         else Ok tt)) tt ops
  | _ => raise_if (negb (is_true spec)) EValue
  end.

Definition validate_op (op : string) (val : pyval) : result unit :=
  raise_if (negb (mem op ALLOWED_OPS)) EValue ;;
  raise_if (mem op ["in"; "nin"] && negb (is_list val)) EValue ;;
  raise_if (String.eqb op "exists" && negb (is_bool val)) EValue.

Definition validate_condition (c : pyval) : result unit :=
  match c with
  | PDict fields =>
      result_fold (fun _ fs =>
        let '(field_name, spec) := fs in
        let canonical := canonical_field field_name in
        raise_if (negb (mem canonical ALLOWED_FIELDS)) EValue ;;
        (if mem canonical BOOLEAN_FIELDS then reject_unmatchable_boolean spec else Ok tt) ;;
        match spec with
        | PDict ops =>
            raise_if (match ops with [] => true | _ => false end) EValue ;;
            result_fold (fun _ ov => validate_op ov.1 ov.2) tt ops
        | _ => Ok tt
        end) tt fields
  | _ => Raise EValue
  end.

(** The CSV fields of a suppression signature: stripped, empty ones dropped. *)
Definition csv_fields (s : string) : list string :=
  filter (fun f => String.eqb f "" = false) (str_strip <$> str_split "," s).

Definition validate_suppress_key (suppress_key : pyval) : result unit :=
  match suppress_key with
  | PNone => Ok tt
  | PStr s =>
      result_fold (fun _ field_name =>
        let canonical := canonical_field field_name in
        raise_if (mem canonical UNIQUE_PER_EVENT_LABELS) EValue ;;
        raise_if (negb (mem canonical ALLOWED_FIELDS)) EValue) tt (csv_fields s)
  | _ => Raise EValue
  end.

(** ** Subsumption *)

(** [_hashable]: a list becomes a tuple, which hashes when its items do. *)
Definition hashable_conv (v : pyval) : bool :=
  match v with PList l => forallb hashable l | PDict _ => false | _ => true end.

(** The finite set of values a clause admits, as a list; [None] when it is not
    enumerable.  The [{"eq": v}] branch is outside the [try]: an unhashable [v]
    escapes as [TypeError]. *)
Definition clause_value_set (spec : pyval) : result (option (list pyval)) :=
  match spec with
  | PDict [(op, val)] =>
      if String.eqb op "eq" then
        if hashable_conv val then Ok (Some [val]) else Raise EType
      else if String.eqb op "in" then
        match val with
        | PList vs => Ok (if forallb hashable_conv vs then Some vs else None)
        | _ => Ok None
        end
      else Ok None
  | PDict _ => Ok None
  | _ => Ok (if hashable_conv spec then Some [spec] else None)
  end.

(** [{canonical(f): s for f, s in cond.items()}]: a later alias overwrites. *)
Definition normalize_aliases (c : condition) : condition :=
  foldl (fun d fs => dict_set (canonical_field fs.1) fs.2 d) [] c.

Definition subset_values (b_set a_set : list pyval) : bool :=
  forallb (fun b => existsb (py_eq b) a_set) b_set.

Fixpoint subsumes_fields (a_norm b_norm : condition) : result bool :=
  match a_norm with
  | [] => Ok true
  | (field_name, a_spec) :: a_rest =>
      a_set ← clause_value_set a_spec;
      match a_set with
      | None => Ok false
      | Some a_set =>
          match dict_get field_name b_norm with
          | None => Ok false
          | Some b_spec =>
              b_set ← clause_value_set b_spec;
              match b_set with
              | None | Some [] => Ok false
              | Some b_set =>
                  if subset_values b_set a_set then subsumes_fields a_rest b_norm else Ok false
              end
          end
      end
  end.

Definition subsumes (cond_a cond_b : condition) : result bool :=
  subsumes_fields (normalize_aliases cond_a) (normalize_aliases cond_b).

(** ** Lemmas *)

Section lemmas.
Context `{FloatRepr}.

#[export] Instance matches_proper c : Proper (dict_equiv ==> eq) (matches c).
Proof.
  intros l1 l2 Hl. unfold matches. induction c as [|[f s] c IH]; cbn; [done|].
  rewrite IH. unfold dget. by rewrite Hl.
Qed.

(** A condition sees the label dict only through its bindings. *)
Lemma matches_cons f s c l :
  matches ((f, s) :: c) l = match_clause s (dget (canonical_field f) l) && matches c l.
Proof. done. Qed.

Lemma matches_forall c l :
  matches c l = true <->
  forall f s, (f, s) ∈ c -> match_clause s (dget (canonical_field f) l) = true.
Proof.
  unfold matches. rewrite forallb_forall. split.
  - intros Hf f s Hin. apply (Hf (f, s)). by apply list_elem_of_In.
  - intros Hf [f s] Hin%list_elem_of_In. by apply Hf.
Qed.

(** An enumerable clause admits exactly the present values equal to one of
    the enumerated ones. *)
Lemma clause_value_set_spec spec vs actual :
  clause_value_set spec = Ok (Some vs) ->
  match_clause spec actual = negb (is_none actual) && existsb (py_eq actual) vs.
Proof.
  intros Hc.
  assert (forall v, compare_values "eq" actual v
            = negb (is_none actual) && existsb (py_eq actual) [v]) as Heq.
  { intros v. unfold compare_values. cbn. rewrite orb_false_r. by destruct (is_none actual). }
  destruct spec as [| | | | |l|[|[op val] [|]]]; cbn in Hc; try discriminate Hc.
  1-5: injection Hc as <-; apply Heq.
  1: destruct (forallb hashable l); [injection Hc as <-; apply Heq | done].
  cbn. rewrite andb_true_r. destruct (String.eqb_spec op "eq") as [->|].
  { destruct (hashable_conv val); [injection Hc as <-; apply Heq | done]. }
  destruct (String.eqb_spec op "in") as [->|]; [|done].
  destruct val as [| | | | |ws|]; try discriminate Hc.
  destruct (forallb hashable_conv ws); [injection Hc as <- | done].
  unfold compare_values. cbn. by destruct (is_none actual).
Qed.

Lemma subset_values_sound bs av actual :
  subset_values bs av = true -> existsb (py_eq actual) bs = true -> existsb (py_eq actual) av = true.
Proof.
  unfold subset_values. rewrite forallb_forall, !existsb_exists.
  intros Hsub (b & Hb & E1). apply Hsub, existsb_exists in Hb as (a & Ha & E2).
  exists a. split; [done|]. by eapply py_eq_trans.
Qed.

Definition canonical_keys (c : condition) : list string := canonical_field <$> c.*1.

Lemma normalize_aliases_app acc c :
  NoDup (acc.*1 ++ canonical_keys c) ->
  foldl (fun d fs => dict_set (canonical_field fs.1) fs.2 d) acc c
  = acc ++ ((fun fs => (canonical_field fs.1, fs.2)) <$> c).
Proof.
  revert acc. induction c as [|[f s] c IH]; intros acc Hnd; cbn; [by rewrite app_nil_r|].
  assert (dict_set (canonical_field f) s acc = acc ++ [(canonical_field f, s)]) as E.
  { cbn in Hnd. apply NoDup_app in Hnd as (_ & Hnd & _). clear IH.
    induction acc as [|[k v] acc IH]; cbn; [done|].
    destruct (String.eqb_spec (canonical_field f) k) as [<-|].
    - exfalso. apply (Hnd (canonical_field f)); left.
    - f_equal. apply IH. intros x Hx. apply Hnd. by right. }
  rewrite E, IH, <- app_assoc; [done|].
  rewrite fmap_app. cbn. by rewrite <- app_assoc.
Qed.

Lemma normalize_aliases_nodup c :
  NoDup (canonical_keys c) ->
  normalize_aliases c = (fun fs => (canonical_field fs.1, fs.2)) <$> c.
Proof. intros Hnd. unfold normalize_aliases. by rewrite normalize_aliases_app. Qed.

Lemma canonical_field_idemp f : canonical_field (canonical_field f) = canonical_field f.
Proof.
  unfold canonical_field. destruct (String.eqb f "org_id") eqn:E; [done|]. by rewrite E.
Qed.

Lemma matches_normalized c l :
  matches ((fun fs => (canonical_field fs.1, fs.2)) <$> c) l = matches c l.
Proof.
  unfold matches. induction c as [|[f s] c IH]; cbn; [done|].
  by rewrite canonical_field_idemp, IH.
Qed.

Lemma subsumes_fields_sound a b l :
  (forall f s, (f, s) ∈ a -> canonical_field f = f) ->
  (forall f s, (f, s) ∈ b -> canonical_field f = f) ->
  subsumes_fields a b = Ok true -> matches b l = true -> matches a l = true.
Proof.
  intros Ha Hb Hs Hm. induction a as [|[f s] a IH]; [done|].
  cbn in Hs. apply result_bind_ok in Hs as ([av|] & Hav & Hs); [|done].
  destruct (dict_get f b) as [bs|] eqn:Ef; [|done].
  apply result_bind_ok in Hs as ([[|b0 bvs]|] & Hbv & Hs); [done| |done].
  destruct (subset_values (b0 :: bvs) av) eqn:Esub; [|done].
  rewrite matches_cons, (Ha f s) by left. apply andb_true_intro. split.
  - apply dict_get_elem in Ef.
    rewrite matches_forall in Hm. specialize (Hm f bs Ef).
    rewrite (Hb f bs Ef), (clause_value_set_spec _ _ _ Hbv) in Hm.
    rewrite (clause_value_set_spec _ _ _ Hav).
    apply andb_true_iff in Hm as [-> Hm]. cbn [negb andb]. by eapply subset_values_sound.
  - apply IH; [|done]. intros f' s' Hin. eapply Ha. by right.
Qed.
End lemmas.
