(* ===== verification/Redaction.v ===== *)
(** * Per-route PII redaction

    [backend/app/collectors/routing/pii_redaction.py]: compilation and
    validation of the [pii_redaction] rules of a route and their application to
    the copy of the event the route delivers.  The code mutates a deep copy of
    the envelope; the model returns the new tree. *)

From S2P Require Export Prelude PyVal.

Local Open Scope string_scope.
Local Open Scope list_scope.

(** [hashlib.sha256(s.encode("utf-8")).hexdigest()]. *)
Class Sha256 := sha256_hex : string -> string.

Definition mem_str (s : string) (l : list string) : bool := existsb (String.eqb s) l.

Definition ALLOWED_ROOTS : list string := ["raw"; "normalized"].
Definition ALLOWED_ACTIONS : list string := ["mask"; "hash"; "partial"; "drop_field"].
Definition MASK_SENTINEL : string := "[REDACTED]".

(** ** Compilation *)

Record redaction_rule := RedactionRule {
  path_str : string;
  path_parts : list string;
  rule_action : string;
  rule_params : list (string * pyval);
}.

Definition extract_rules (spec : pyval) : result (list pyval) :=
  match spec with
  | PNone => Ok []
  | PDict d =>
      match dict_get "rules" d with
      | None => Ok []
      | Some (PList rules) => Ok rules
      | Some _ => Raise EPiiRedaction
      end
  | PList rules => Ok rules
  | _ => Raise EPiiRedaction
  end.

Definition mask_char_param (item : list (string * pyval)) : result string :=
  match default (PStr "*") (dict_get "mask_char" item) with
  | PStr mc => if Nat.eqb (String.length mc) 1 then Ok mc else Raise EPiiRedaction
  | _ => Raise EPiiRedaction
  end.

(** [isinstance(v, int) and not isinstance(v, bool)] and the bound. *)
Definition int_at_least (lo : Z) (v : pyval) : bool :=
  match v with PInt z => Z.leb lo z | _ => false end.

Definition validate_params (action : string) (item : list (string * pyval))
    : result (list (string * pyval)) :=
  if String.eqb action "mask" then
    let fixed_len := dget "fixed_len" item in
    raise_if (negb (is_none fixed_len) && negb (int_at_least 1 fixed_len)) EPiiRedaction ;;
    mc ← mask_char_param item;
    Ok ((if is_none fixed_len then [] else [("fixed_len", fixed_len)]) ++ [("mask_char", PStr mc)])
  else if String.eqb action "hash" then
    let algo := default (PStr "sha256") (dict_get "algo" item) in
    raise_if (negb (py_eq algo (PStr "sha256"))) EPiiRedaction ;;
    let salt := dget "salt" item in
    raise_if (negb (is_none salt) && negb (is_str salt)) EPiiRedaction ;;
    Ok ([("algo", algo)] ++ (if is_none salt then [] else [("salt", salt)]))
  else if String.eqb action "partial" then
    let octets := dget "octets" item in
    params ←
      (if negb (is_none octets) then
         raise_if (negb (int_at_least 1 octets)) EPiiRedaction ;;
         Ok [("octets", octets)]
       else
         let zero v := if is_none v then PInt 0 else v in
         let kp := zero (dget "keep_prefix" item) in
         let ks := zero (dget "keep_suffix" item) in
         raise_if (negb (int_at_least 0 kp) || negb (int_at_least 0 ks)) EPiiRedaction ;;
         raise_if (py_eq kp (PInt 0) && py_eq ks (PInt 0)) EPiiRedaction ;;
         Ok [("keep_prefix", kp); ("keep_suffix", ks)]);
    mc ← mask_char_param item;
    Ok (params ++ [("mask_char", PStr mc)])
  else Ok [].

Definition compile_rule (item : pyval) : result redaction_rule :=
  match item with
  | PDict d =>
      match dget "path" d with
      | PStr path =>
          raise_if (str_blank path) EPiiRedaction ;;
          let parts := filter (fun p => String.eqb p "" = false) (str_split "." path) in
          match parts with
          | [] => Raise EPiiRedaction
          | root :: rest =>
              raise_if (negb (mem_str root ALLOWED_ROOTS)) EPiiRedaction ;;
              raise_if (match rest with [] => true | _ => false end) EPiiRedaction ;;
              match dget "action" d with
              | PStr action =>
                  raise_if (negb (mem_str action ALLOWED_ACTIONS)) EPiiRedaction ;;
                  params ← validate_params action d;
                  Ok (RedactionRule path parts action params)
              | v => if hashable v then Raise EPiiRedaction else Raise EType
              end
          end
      | _ => Raise EPiiRedaction
      end
  | _ => Raise EPiiRedaction
  end.

Definition compile_pii_redaction (spec : pyval) : result (list redaction_rule) :=
  rules ← extract_rules spec; result_map compile_rule rules.

(** ** Navigation *)

(** The three outcomes of [_navigate]; the path locates [parent[key]]. *)
Inductive nav := NavOk (at_path : list string) | NavBlocked (at_path : list string) | NavAbsent.

Definition nav_under (k : string) (n : nav) : nav :=
  match n with NavOk p => NavOk (k :: p) | NavBlocked p => NavBlocked (k :: p) | NavAbsent => NavAbsent end.

Fixpoint navigate (obj : pyval) (parts : list string) : nav :=
  match obj, parts with
  | PDict d, [k] => if dict_has k d then NavOk [k] else NavAbsent
  | PDict d, k :: rest =>
      match dict_get k d with
      | None => NavAbsent
      | Some (PDict _ as nxt) => nav_under k (navigate nxt rest)
      | Some _ => NavBlocked [k]
      end
  | _, _ => NavAbsent
  end.

(** [parent[key]] and the two ways of writing it: assignment ([Some]) and
    [del] ([None]). *)
Fixpoint get_at (p : list string) (obj : pyval) : option pyval :=
  match p, obj with
  | [k], PDict d => dict_get k d
  | k :: rest, PDict d => dict_get k d ≫= get_at rest
  | _, _ => None
  end.

Fixpoint put_at (p : list string) (v : option pyval) (obj : pyval) : pyval :=
  match p, obj with
  | [k], PDict d => PDict (match v with Some w => dict_set k w d | None => dict_pop k d end)
  | k :: rest, PDict d =>
      match dict_get k d with
      | Some child => PDict (dict_set k (put_at rest v child) d)
      | None => obj
      end
  | _, _ => obj
  end.

(** ** Application *)

Section apply.
Context `{FloatRepr} `{Sha256}.

Definition param_str (k dflt : string) (r : redaction_rule) : string :=
  match dict_get k (rule_params r) with Some (PStr s) => s | _ => dflt end.
Definition param_int (k : string) (r : redaction_rule) : option Z :=
  match dict_get k (rule_params r) with Some (PInt z) => Some z | _ => None end.

Definition mask_value (r : redaction_rule) : string :=
  match param_int "fixed_len" r with
  | Some n => if Z.eqb n 0 then MASK_SENTINEL else str_repeat (param_str "mask_char" "*" r) (Z.to_nat n)
  | None => MASK_SENTINEL
  end.

Definition hash_value (r : redaction_rule) (value : pyval) : pyval * bool :=
  match value with
  | PStr s =>
      if str_prefix "sha256:" s then (value, false)
      else (PStr ("sha256:" +:+ sha256_hex (param_str "salt" "" r +:+ s)), true)
  | _ => (PStr ("sha256:" +:+ sha256_hex (param_str "salt" "" r +:+ py_str value)), true)
  end.

Definition partial_octets (mask_char : string) (octets : Z) (s : string) : string :=
  let masked sep :=
    let groups := str_split sep s in
    if Z.leb (Z.of_nat (length groups)) octets then MASK_SENTINEL
    else
      let kept := take (Z.to_nat octets) groups in
      String.concat (String sep "")
        (kept ++ ((fun _ => mask_char) <$> drop (Z.to_nat octets) groups)) in
  if str_contains "." s then masked "."%char
  else if str_contains ":" s then masked ":"%char
  else MASK_SENTINEL.

Definition partial_slice (mask_char : string) (kp ks : Z) (s : string) : string :=
  let len := Z.of_nat (String.length s) in
  if Z.leb len (kp + ks) then MASK_SENTINEL
  else
    let middle := str_repeat mask_char (Z.to_nat (len - kp - ks)) in
    let prefix := str_take (Z.to_nat kp) s in
    let suffix := str_drop (Z.to_nat (len - ks)) s in
    (prefix +:+ middle +:+ suffix).

Definition partial_value (r : redaction_rule) (value : pyval) : pyval * bool :=
  let mask_char := param_str "mask_char" "*" r in
  match value with
  | PStr s =>
      match param_int "octets" r with
      | Some octets => (PStr (partial_octets mask_char octets s), true)
      | None =>
          (PStr (partial_slice mask_char (default 0%Z (param_int "keep_prefix" r))
                   (default 0%Z (param_int "keep_suffix" r)) s), true)
      end
  | _ => (PStr MASK_SENTINEL, true)
  end.

(** The leaf transformation of the non-[drop_field] actions; the fall-through
    is unreachable after compilation. *)
Definition transform (r : redaction_rule) (value : pyval) : pyval * bool :=
  if String.eqb (rule_action r) "mask" then (PStr (mask_value r), true)
  else if String.eqb (rule_action r) "hash" then hash_value r value
  else if String.eqb (rule_action r) "partial" then partial_value r value
  else (value, false).

Definition is_drop (r : redaction_rule) : bool := String.eqb (rule_action r) "drop_field".

(** One rule of the plan: the new tree and the provenance mark, or [None] when
    the rule leaves the tree alone. *)
Definition redact_rule (obj : pyval) (r : redaction_rule) : option (pyval * string) :=
  match navigate obj (path_parts r) with
  | NavAbsent => None
  | NavBlocked p =>
      if is_drop r then Some (put_at p None obj, path_str r +:+ ":drop_field(blocked)")
      else Some (put_at p (Some (PStr MASK_SENTINEL)) obj, path_str r +:+ ":mask(blocked-list)")
  | NavOk p =>
      if is_drop r then Some (put_at p None obj, path_str r +:+ ":drop_field")
      else
        let '(new_value, changed) := transform r (default PNone (get_at p obj)) in
        if changed then Some (put_at p (Some new_value) obj, path_str r +:+ ":" +:+ rule_action r)
        else None
  end.

Definition redact_step (st : pyval * list string) (r : redaction_rule) : pyval * list string :=
  match redact_rule st.1 r with
  | Some (obj', mark) => (obj', st.2 ++ [mark])
  | None => st
  end.

Definition resolves (obj : pyval) (r : redaction_rule) : bool :=
  match navigate obj (path_parts r) with NavAbsent => false | _ => true end.

Definition apply_pii_redaction (envelope : list (string * pyval)) (rules : list redaction_rule)
    : option (list (string * pyval)) :=
  let env := PDict envelope in
  match filter (fun r => resolves env r = true) rules with
  | [] => None
  | plan =>
      match foldl redact_step (env, []) plan with
      | (_, []) => None
      | (obj, applied) =>
          Some (dict_set "_centralops_redacted" (PList (PStr <$> applied)) (dict_items obj))
      end
  end.
End apply.

(** ** What a redacted field can hold

    [opaque rules s]: the text [s] is computed from the rules alone, or is a
    digest.  The set does not mention the event. *)

Section opaque.
Context `{FloatRepr} `{Sha256}.

Inductive opaque (rules : list redaction_rule) : string -> Prop :=
| opaque_sentinel : opaque rules MASK_SENTINEL
| opaque_mask r : r ∈ rules -> opaque rules (mask_value r)
| opaque_digest t : opaque rules ("sha256:" +:+ sha256_hex t)
| opaque_again r s s' b :
    r ∈ rules -> opaque rules s -> transform r (PStr s) = (PStr s', b) -> opaque rules s'.

Definition located (n : nav) : option (list string) :=
  match n with NavOk p | NavBlocked p => Some p | NavAbsent => None end.

(** The field a path leads to is gone, or (it or the ancestor that blocks the
    path) holds an opaque text. *)
Definition sealed (rules : list redaction_rule) (parts : list string) (obj : pyval) : Prop :=
  forall p, located (navigate obj parts) = Some p ->
  exists s, get_at p obj = Some (PStr s) /\ opaque rules s.

(** A write that keeps opaque text opaque and puts an opaque text in place of
    anything that is not a string. *)
Definition write_ok (rules : list redaction_rule) (old : pyval) (new : option pyval) : Prop :=
  forall w, new = Some w -> exists s, w = PStr s /\
    ((forall t, old = PStr t -> opaque rules t) -> opaque rules s).

Lemma located_under k n : located (nav_under k n) = cons k <$> located n.
Proof. by destruct n. Qed.

Lemma navigate_not_dict v parts : is_mapping v = false -> navigate v parts = NavAbsent.
Proof. by destruct v, parts as [|? []]. Qed.

Lemma navigate_nil v : navigate v [] = NavAbsent.
Proof. by destruct v. Qed.

Lemma navigate_cons k k' rest d :
  navigate (PDict d) (k :: k' :: rest) =
  match dict_get k d with
  | None => NavAbsent
  | Some nxt => if is_mapping nxt then nav_under k (navigate nxt (k' :: rest)) else NavBlocked [k]
  end.
Proof. cbn. destruct (dict_get k d) as [[]|]; done. Qed.

Lemma navigate_one k d : navigate (PDict d) [k] = if dict_has k d then NavOk [k] else NavAbsent.
Proof. done. Qed.

Lemma located_nonempty obj parts : located (navigate obj parts) <> Some [].
Proof.
  destruct obj as [| | | | | |d], parts as [|k [|k' rest]]; try done.
  - rewrite navigate_one. by destruct (dict_has k d).
  - rewrite navigate_cons. destruct (dict_get k d) as [nxt|]; [|done].
    destruct (is_mapping nxt); [|done]. rewrite located_under.
    by destruct (located _).
Qed.

(** How a located path starts. *)
Lemma located_inv obj k rest p :
  located (navigate obj (k :: rest)) = Some p ->
  exists d v, obj = PDict d /\ dict_get k d = Some v /\
    ((p = [k] /\ (rest = [] \/ is_mapping v = false)) \/
     (exists q, p = k :: q /\ q <> [] /\ is_mapping v = true /\ located (navigate v rest) = Some q)).
Proof.
  destruct obj as [| | | | | |d]; try (by destruct rest).
  destruct rest as [|k' rest].
  - rewrite navigate_one. destruct (dict_has k d) eqn:E; [|done]. intros [= <-].
    apply dict_has_true in E as [v Hv]. exists d, v. naive_solver.
  - rewrite navigate_cons. destruct (dict_get k d) as [v|] eqn:E; [|done].
    destruct (is_mapping v) eqn:Em.
    + rewrite located_under. destruct (located _) as [q|] eqn:El; [|done]. intros [= <-].
      exists d, v. split_and!; [done..|]. right. exists q. split_and!; try done.
      intros ->. by apply located_nonempty in El.
    + intros [= <-]. exists d, v. naive_solver.
Qed.

Lemma get_at_step k q d : q <> [] -> get_at (k :: q) (PDict d) = dict_get k d ≫= get_at q.
Proof. by destruct q. Qed.
Lemma put_at_step k q w d :
  q <> [] -> put_at (k :: q) w (PDict d) =
  match dict_get k d with Some child => PDict (dict_set k (put_at q w child) d) | None => PDict d end.
Proof. by destruct q. Qed.
Lemma put_at_mapping q w v : is_mapping (put_at q w v) = is_mapping v.
Proof. destruct q as [|? []], v as [| | | | | |d]; try done. cbn. by destruct (dict_get _ d). Qed.

(** Navigation locates an existing binding. *)
Lemma located_get obj parts p :
  located (navigate obj parts) = Some p -> exists v, get_at p obj = Some v.
Proof.
  revert obj p. induction parts as [|k rest IH]; intros obj p; [by rewrite navigate_nil|].
  intros (d & v & -> & Hv & [[-> _] | (q & -> & Hq & _ & Hl)])%located_inv.
  - by exists v.
  - destruct (IH _ _ Hl) as [w Hw]. exists w. by rewrite get_at_step, Hv.
Qed.

(** One write, wherever another rule's path leads, keeps a sealed field sealed. *)
Lemma sealed_put rules parts parts2 obj p2 old w :
  sealed rules parts obj ->
  located (navigate obj parts2) = Some p2 -> get_at p2 obj = Some old ->
  write_ok rules old w ->
  sealed rules parts (put_at p2 w obj).
Proof.
  revert parts2 obj p2. induction parts as [|k rest IH]; intros parts2 obj p2 Hs Hl Hold Hw p Hp.
  { by rewrite navigate_nil in Hp. }
  destruct parts2 as [|k2 rest2]; [by rewrite navigate_nil in Hl|].
  apply located_inv in Hl as (d & v & -> & Hv & Hl).
  destruct (decide (k = k2)) as [<-|Hne]; last first.
  - (* the write is elsewhere: nothing changes along [parts] *)
    assert (exists d', put_at p2 w (PDict d) = PDict d' /\ dict_get k d' = dict_get k d) as (d' & E & Hk).
    { destruct Hl as [[-> _] | (q & -> & Hq & _)].
      - destruct w; cbn; eexists; (split; [done|]); by autorewrite with cops.
      - rewrite put_at_step, Hv by done. eexists; (split; [done|]); by autorewrite with cops. }
    rewrite E in Hp |- *.
    assert (located (navigate (PDict d) (k :: rest)) = Some p) as Hp'.
    { destruct rest; rewrite ?navigate_cons, ?navigate_one in *; unfold dict_has in *; by rewrite Hk in Hp. }
    destruct (Hs _ Hp') as (s & Hg & Ho). exists s. split; [|done].
    destruct p as [|k' p']; [done|].
    apply located_inv in Hp' as (? & ? & [= <-] & ? & [[[= -> ->] _]|(? & [= -> ->] & Hn & _)]).
    + cbn in *. by rewrite Hk.
    + rewrite get_at_step in * by done. by rewrite Hk.
  - destruct Hl as [[-> Hstop] | (q2 & -> & Hq2 & Hm & Hl)].
    + (* the write replaces or removes the binding of [k] *)
      destruct w as [w|]; cbn [put_at] in Hp |- *.
      * apply located_inv in Hp as (? & w' & [= <-] & Hw' & Hp).
        autorewrite with cops in Hw'. injection Hw' as <-.
        destruct (Hw w eq_refl) as (s & -> & Ho).
        destruct Hp as [[-> _]|(? & _ & _ & [=] & _)].
        exists s. cbn. rewrite dict_get_set_eq. split; [done|]. apply Ho. intros t ->.
        cbn in Hold. rewrite Hv in Hold. injection Hold as ->.
        assert (located (navigate (PDict d) (k :: rest)) = Some [k]) as Hl'.
        { destruct rest; [rewrite navigate_one; unfold dict_has | rewrite navigate_cons]; by rewrite Hv. }
        destruct (Hs _ Hl') as (s' & Hg & Ho'). cbn in Hg. naive_solver.
      * apply located_inv in Hp as (? & w' & [= <-] & Hw' & _).
        by autorewrite with cops in Hw'.
    + rewrite put_at_step, Hv in Hp |- * by done.
      rewrite get_at_step, Hv in Hold by done. cbn in Hold.
      apply located_inv in Hp as (? & v' & [= <-] & Hv' & Hp).
      autorewrite with cops in Hv'. injection Hv' as <-.
      destruct Hp as [[-> Hstop]|(q & -> & Hq & _ & Hp)].
      * (* [k] itself is the location: then it held an opaque text, not a dict *)
        rewrite put_at_mapping in Hstop. destruct Hstop as [->|]; [|congruence].
        destruct (Hs [k]) as (s & Hg & _); [rewrite navigate_one; unfold dict_has; by rewrite Hv|].
        cbn in Hg. rewrite Hv in Hg. injection Hg as ->. done.
      * assert (sealed rules rest v) as Hsv.
        { intros p' Hp'. destruct (Hs (k :: p')) as (s & Hg & Ho).
          - destruct rest; [by rewrite navigate_nil in Hp'|]. rewrite navigate_cons, Hv, Hm, located_under. by rewrite Hp'.
          - exists s. split; [|done]. rewrite get_at_step, Hv in Hg; [done|].
            intros ->. by apply located_nonempty in Hp'. }
        destruct (IH rest2 v q2 Hsv Hl Hold Hw q Hp) as (s & Hg & Ho).
        exists s. split; [|done]. rewrite get_at_step by done. by autorewrite with cops.
Qed.

(** Writing an opaque text, or deleting, where a path leads seals that path. *)
Lemma sealed_put_same rules parts obj p w :
  located (navigate obj parts) = Some p ->
  (forall v, w = Some v -> exists s, v = PStr s /\ opaque rules s) ->
  sealed rules parts (put_at p w obj).
Proof.
  revert obj p. induction parts as [|k rest IH]; intros obj p Hl Hw p' Hp'.
  { by rewrite navigate_nil in Hl. }
  apply located_inv in Hl as (d & v & -> & Hv & [[-> Hstop]|(q & -> & Hq & Hm & Hl)]).
  - destruct w as [w|]; cbn [put_at] in Hp' |- *;
      apply located_inv in Hp' as (? & v' & [= <-] & Hv' & Hp'); autorewrite with cops in Hv'; [|done].
    injection Hv' as <-. destruct (Hw w eq_refl) as (s & -> & Ho).
    destruct Hp' as [[-> _]|(? & _ & _ & [=] & _)].
    exists s. cbn. by autorewrite with cops.
  - rewrite put_at_step, Hv in Hp' |- * by done.
    apply located_inv in Hp' as (? & v' & [= <-] & Hv' & Hp').
    autorewrite with cops in Hv'. injection Hv' as <-.
    destruct Hp' as [[-> Hstop]|(q' & -> & Hq' & _ & Hp')].
    + rewrite put_at_mapping in Hstop. destruct Hstop as [->|]; [|congruence].
      by rewrite navigate_nil in Hl.
    + destruct (IH v q Hl Hw q' Hp') as (s & Hg & Ho).
      exists s. split; [|done]. rewrite get_at_step by done. by autorewrite with cops.
Qed.

Lemma transform_write_ok rules r v w b :
  r ∈ rules -> transform r v = (w, b) -> b = true -> write_ok rules v (Some w).
Proof.
  unfold transform. intros Hr Ht -> w' [= <-].
  destruct (String.eqb (rule_action r) "mask") eqn:Em.
  { injection Ht as <-. eexists; split; [done|]. intros _. by apply opaque_mask. }
  destruct (String.eqb (rule_action r) "hash") eqn:Eh.
  { unfold hash_value in Ht. destruct v as [| | | |s| |]; try (injection Ht as <-; eexists; split; [done|]; intros _; apply opaque_digest).
    destruct (str_prefix "sha256:" s); [done|]. injection Ht as <-.
    eexists; split; [done|]. intros _; apply opaque_digest. }
  destruct (String.eqb (rule_action r) "partial") eqn:Ep; [|done].
  assert (forall x, transform r x = partial_value r x) as Hx by (intros; unfold transform; by rewrite Em, Eh, Ep).
  destruct v as [| | | |s| |]; cbn in Ht;
    try (injection Ht as <-; eexists; split; [done|]; intros _; apply opaque_sentinel).
  assert (exists s', w = PStr s') as [s' ->] by (destruct (param_int "octets" r); naive_solver).
  exists s'. split; [done|]. intros Ho. eapply opaque_again; [done | by apply Ho |].
  rewrite Hx. exact Ht.
Qed.

Lemma redact_rule_put obj r obj' m :
  redact_rule obj r = Some (obj', m) ->
  exists p old w, located (navigate obj (path_parts r)) = Some p /\ get_at p obj = Some old /\
    obj' = put_at p w obj /\
    (is_drop r = true /\ w = None \/
     is_drop r = false /\ (w = Some (PStr MASK_SENTINEL) \/ exists v, transform r old = (v, true) /\ w = Some v)).
Proof.
  unfold redact_rule. intros Hr.
  assert (forall p, located (navigate obj (path_parts r)) = Some p -> exists v, get_at p obj = Some v) as Hget
    by (intros; by eapply located_get).
  destruct (navigate obj (path_parts r)) as [p|p|]; [| |done].
  all: destruct (Hget p eq_refl) as [v Hv].
  - rewrite Hv in Hr. cbn in Hr. exists p, v. destruct (is_drop r) eqn:Ed.
    + injection Hr as <- <-. exists None. naive_solver.
    + destruct (transform r v) as [nv []] eqn:Et; [|done]. injection Hr as <- <-.
      exists (Some nv). naive_solver.
  - exists p, v. destruct (is_drop r) eqn:Ed; injection Hr as <- <-.
    + exists None. naive_solver.
    + exists (Some (PStr MASK_SENTINEL)). naive_solver.
Qed.

Lemma redact_step_sealed rules parts st r :
  r ∈ rules -> sealed rules parts st.1 -> sealed rules parts (redact_step st r).1.
Proof.
  intros Hr Hs. unfold redact_step. destruct (redact_rule st.1 r) as [[obj' m]|] eqn:E; [|done].
  apply redact_rule_put in E as (p & old & w & Hl & Hg & -> & Hw). cbn.
  eapply sealed_put; [done..|]. destruct Hw as [[_ ->]|[_ [->|(v & Ht & ->)]]].
  - by intros ? [=].
  - intros ? [= <-]. eexists; split; [done|]. intros _. apply opaque_sentinel.
  - by eapply transform_write_ok.
Qed.

Lemma redact_steps_sealed rules parts plan st :
  (forall r, r ∈ plan -> r ∈ rules) ->
  sealed rules parts st.1 -> sealed rules parts (foldl redact_step st plan).1.
Proof.
  revert st. induction plan as [|r plan IH]; intros st Hin Hs; [done|]. cbn.
  apply IH; [intros; apply Hin; by right|]. apply redact_step_sealed; [apply Hin; left | done].
Qed.

(** [mask] and [drop_field] rules. *)
Definition erasing (r : redaction_rule) : bool := String.eqb (rule_action r) "mask" || is_drop r.

Lemma redact_step_seals rules st r :
  r ∈ rules -> erasing r = true -> sealed rules (path_parts r) (redact_step st r).1.
Proof.
  intros Hr He. unfold redact_step. destruct (redact_rule st.1 r) as [[obj' m]|] eqn:E.
  - apply redact_rule_put in E as (p & old & w & Hl & Hg & -> & Hw). cbn.
    eapply sealed_put_same; [done|]. unfold erasing in He.
    destruct Hw as [[_ ->]|[Hd [->|(v & Ht & ->)]]].
    + done.
    + intros ? [= <-]. eexists; split; [done | apply opaque_sentinel].
    + intros ? [= <-]. rewrite Hd, orb_false_r in He. unfold transform in Ht. rewrite He in Ht.
      injection Ht as <-. eexists; split; [done | by apply opaque_mask].
  - intros p Hp. exfalso. unfold redact_rule in E. unfold erasing in He.
    destruct (navigate st.1 (path_parts r)); try done; destruct (is_drop r); try done.
    rewrite orb_false_r in He. unfold transform in E. by rewrite He in E.
Qed.
End opaque.

(** ** Compiled rules *)

(** What [compile_pii_redaction] guarantees of a rule: a known action, a path of
    at least two segments rooted in [raw] or [normalized]. *)
Definition rule_wf (r : redaction_rule) : Prop :=
  rule_action r ∈ ALLOWED_ACTIONS /\
  exists root k rest, path_parts r = root :: k :: rest /\ root ∈ ALLOWED_ROOTS.

Lemma mem_str_elem s l : mem_str s l = true <-> s ∈ l.
Proof.
  unfold mem_str. rewrite existsb_exists. split.
  - intros (x & Hx & ->%String.eqb_eq). by apply list_elem_of_In.
  - intros Hin%list_elem_of_In. exists s. by rewrite String.eqb_refl.
Qed.

Lemma compile_rule_wf item r : compile_rule item = Ok r -> rule_wf r.
Proof.
  intros Hc. destruct item as [| | | | | |d]; try discriminate Hc. cbn in Hc.
  destruct (dget "path" d) as [| | | |path| |]; try discriminate Hc. apply result_bind_ok in Hc as (u & Hu & Hc).
  destruct (filter _ (str_split "." path)) as [|root [|k rest]] eqn:Ef; [done| |];
    apply result_bind_ok in Hc as (u1 & Hu1 & Hc);
    apply result_bind_ok in Hc as (u2 & Hu2 & Hc); [done|].
  destruct (dget "action" d) as [| | | |action| |]; try discriminate Hc.
  apply result_bind_ok in Hc as (u3 & Hu3 & Hc).
  apply result_bind_ok in Hc as (params & _ & [= <-]).
  apply raise_if_ok in Hu1, Hu3. bool_simpl. split; cbn.
  - by apply mem_str_elem.
  - exists root, k, rest. split; [done|]. by apply mem_str_elem.
Qed.

Lemma compile_rules_wf spec rules : compile_pii_redaction spec = Ok rules -> Forall rule_wf rules.
Proof.
  unfold compile_pii_redaction. intros (items & _ & Hm)%result_bind_ok.
  apply result_map_ok in Hm. induction Hm; constructor; [by eapply compile_rule_wf | done].
Qed.

Section theorems.
Context `{FloatRepr} `{Sha256}.

Lemma redact_step_frame k st r d :
  rule_wf r -> k ∉ ALLOWED_ROOTS -> st.1 = PDict d ->
  exists d', (redact_step st r).1 = PDict d' /\ dict_get k d' = dict_get k d.
Proof.
  intros (_ & root & k1 & rest & Hp & Hroot) Hk Hd. unfold redact_step.
  destruct (redact_rule st.1 r) as [[obj' m]|] eqn:E; [|eauto].
  apply redact_rule_put in E as (p & old & w & Hl & _ & -> & _). cbn.
  rewrite Hd, Hp in Hl. apply located_inv in Hl as (? & v & [= <-] & Hv & Hl). rewrite Hd.
  assert (k <> root) by (by intros ->).
  destruct Hl as [[-> _]|(q & -> & Hq & _)].
  - destruct w; cbn; eexists; (split; [done|]); by autorewrite with cops.
  - rewrite put_at_step, Hv by done. eexists; (split; [done|]); by autorewrite with cops.
Qed.

Lemma redact_steps_frame k plan st d :
  Forall rule_wf plan -> k ∉ ALLOWED_ROOTS -> st.1 = PDict d ->
  exists d', (foldl redact_step st plan).1 = PDict d' /\ dict_get k d' = dict_get k d.
Proof.
  intros Hwf Hk. revert st d. induction Hwf as [|r plan Hr _ IH]; intros st d Hd; [eauto|]. cbn.
  destruct (redact_step_frame k st r d Hr Hk Hd) as (d1 & H1 & E1).
  destruct (IH _ _ H1) as (d2 & H2 & E2). exists d2. by rewrite H2, E2, E1.
Qed.

(** [apply_pii_redaction] as the fold of the plan. *)
Lemma apply_unfold env rules :
  exists plan st, plan = filter (fun r => resolves (PDict env) r = true) rules /\
    st = foldl redact_step (PDict env, []) plan /\
    apply_pii_redaction env rules =
      match st.2 with
      | [] => None
      | _ => Some (dict_set "_centralops_redacted" (PList (PStr <$> st.2)) (dict_items st.1))
      end.
Proof.
  eexists _, _. split_and!; [done..|]. unfold apply_pii_redaction.
  destruct (filter _ rules) as [|r plan] eqn:E; [done|].
  destruct (foldl redact_step _ _) as [obj [|]]; done.
Qed.

Lemma redact_steps_marks plan st : exists ext, (foldl redact_step st plan).2 = st.2 ++ ext.
Proof.
  revert st. induction plan as [|r plan IH]; intros st; cbn; [exists []; by rewrite app_nil_r|].
  destruct (IH (redact_step st r)) as [ext ->]. unfold redact_step.
  destruct (redact_rule st.1 r) as [[obj' m]|]; cbn; [|eauto].
  exists (m :: ext). by rewrite <- app_assoc.
Qed.

Lemma redact_steps_id plan st :
  (forall r, r ∈ plan -> redact_rule st.1 r = None) -> foldl redact_step st plan = st.
Proof.
  revert st. induction plan as [|r plan IH]; intros st Hn; [done|]. cbn.
  assert (redact_step st r = st) as E by (unfold redact_step; by rewrite Hn by left).
  rewrite E. apply IH. intros. apply Hn. by right.
Qed.

Lemma redact_steps_none plan st :
  (foldl redact_step st plan).2 = st.2 -> forall r, r ∈ plan -> redact_rule st.1 r = None.
Proof.
  revert st. induction plan as [|r plan IH]; intros st Hs r' Hin; [by apply elem_of_nil in Hin|].
  cbn in Hs. destruct (redact_rule st.1 r) as [[obj' m]|] eqn:E.
  - assert (redact_step st r = (obj', st.2 ++ [m])) as Er by (unfold redact_step; by rewrite E).
    rewrite Er in Hs. destruct (redact_steps_marks plan (obj', st.2 ++ [m])) as [ext Hx].
    rewrite Hx in Hs. cbn in Hs. rewrite <- app_assoc in Hs.
    rewrite <- (app_nil_r st.2) in Hs at 2. by apply app_inv_head in Hs.
  - assert (redact_step st r = st) as Er by (unfold redact_step; by rewrite E).
    rewrite Er in Hs. apply elem_of_cons in Hin as [->|Hin]; [done|]. by eapply IH.
Qed.

Lemma redact_rule_unresolved obj r : resolves obj r = false -> redact_rule obj r = None.
Proof. unfold resolves, redact_rule. by destruct (navigate obj _). Qed.

Lemma sealed_set_other rules parts k0 v d :
  (forall k rest, parts = k :: rest -> k <> k0) ->
  sealed rules parts (PDict d) -> sealed rules parts (PDict (dict_set k0 v d)).
Proof.
  intros Hne Hs p Hp. destruct parts as [|k rest]; [by rewrite navigate_nil in Hp|].
  assert (k <> k0) as Hk by by eapply Hne.
  assert (dict_get k (dict_set k0 v d) = dict_get k d) as E by by autorewrite with cops.
  assert (located (navigate (PDict d) (k :: rest)) = Some p) as Hp'.
  { destruct rest; rewrite ?navigate_cons, ?navigate_one in *; unfold dict_has in *; by rewrite E in Hp. }
  destruct (Hs p Hp') as (s & Hg & Ho). exists s. split; [|done].
  apply located_inv in Hp' as (? & w & [= <-] & Hw & [[-> _]|(q & -> & Hq & _)]).
  - cbn in *. by rewrite E.
  - rewrite get_at_step in * by done. by rewrite E.
Qed.

(** C26 [apply_seals] (no cleartext behind an erasing rule).  Whatever a route
    delivers after redaction (the redacted copy, or the original when
    [apply_pii_redaction] returns [None]), the field a compiled [mask] or
    [drop_field] rule points at is gone or, at the field or at the ancestor
    that blocks its path, holds a text computed from the rules alone or a
    digest -- whatever other rules run before or after it. *)
Theorem apply_seals spec rules env r :
  compile_pii_redaction spec = Ok rules ->
  r ∈ rules -> erasing r = true ->
  sealed rules (path_parts r) (PDict (default env (apply_pii_redaction env rules))).
Proof.
  intros Hc Hr He. apply compile_rules_wf in Hc.
  destruct (apply_unfold env rules) as (plan & st & Hplan & Hst & ->).
  assert (forall r, r ∈ plan -> r ∈ rules) as Hin
    by (intros ? Hx; subst plan; by apply list_elem_of_filter in Hx as [_ ?]).
  assert (Forall rule_wf plan) as Hwf by (subst plan; by apply Forall_filter_sub).
  assert (sealed rules (path_parts r) st.1) as Hs.
  { destruct (resolves (PDict env) r) eqn:Er.
    - assert (r ∈ plan) as (p1 & p2 & Hp)%list_elem_of_split by (subst plan; by apply list_elem_of_filter).
      rewrite Hst, Hp, foldl_app. cbn. apply redact_steps_sealed.
      + intros r' Hr'. apply Hin. rewrite Hp. apply elem_of_app. right. by right.
      + by apply redact_step_seals.
    - rewrite Hst. apply redact_steps_sealed; [done|]. cbn. intros p Hp.
      unfold resolves in Er. by destruct (navigate (PDict env) (path_parts r)). }
  rewrite Forall_forall in Hc. destruct (Hc r Hr) as (_ & root & k & rest & Hp & Hroot).
  destruct st.2 as [|m ms] eqn:Em; cbn.
  - assert (st = (PDict env, [])) as E.
    { rewrite Hst. apply redact_steps_id. apply redact_steps_none. cbn. rewrite <- Hst. done. }
    by rewrite E in Hs.
  - destruct (redact_steps_frame "_centralops" plan (PDict env, []) env) as (d' & Hd & _); try done.
    { apply (bool_decide_unpack _); vm_compute; done. }
    rewrite <- Hst in Hd. rewrite Hd in Hs |- *. cbn.
    apply sealed_set_other; [|done]. intros k' rest' Hk ->.
    rewrite Hp in Hk. injection Hk as -> _. clear -Hroot.
    unfold ALLOWED_ROOTS in Hroot. set_solver.
Qed.

(** [apply_frame] (identity of the event is untouchable).  Redaction with
    compiled rules leaves every top-level key other than [raw] and
    [normalized] as it was, [_centralops] included; only the provenance mark
    [_centralops_redacted] is added. *)
Theorem apply_frame spec rules env env' k :
  compile_pii_redaction spec = Ok rules ->
  apply_pii_redaction env rules = Some env' ->
  k ∉ ["raw"; "normalized"; "_centralops_redacted"] ->
  dict_get k env' = dict_get k env.
Proof.
  intros Hc Ha Hk. apply compile_rules_wf in Hc.
  destruct (apply_unfold env rules) as (plan & st & Hplan & Hst & E). rewrite E in Ha.
  destruct st.2 as [|m ms]; [done|]. injection Ha as <-.
  rewrite dict_get_set_ne by set_solver.
  destruct (redact_steps_frame k plan (PDict env, []) env) as (d' & Hd & Hg); try done.
  - subst plan. by apply Forall_filter_sub.
  - unfold ALLOWED_ROOTS. set_solver.
  - by rewrite Hst, Hd.
Qed.

(** [apply_none_iff] (copy on first mutation).  [apply_pii_redaction]
    returns [None] -- the caller then delivers the original object -- exactly
    when no rule, taken alone, would change the event. *)
Theorem apply_none_iff env rules :
  apply_pii_redaction env rules = None <->
  forall r, r ∈ rules -> redact_rule (PDict env) r = None.
Proof.
  destruct (apply_unfold env rules) as (plan & st & Hplan & Hst & ->). split.
  - intros Hn r Hr. destruct (resolves (PDict env) r) eqn:Er.
    + assert (r ∈ plan) by (subst plan; by apply list_elem_of_filter).
      eapply (redact_steps_none plan (PDict env, [])); [|done]. rewrite <- Hst. by destruct st.2.
    + by apply redact_rule_unresolved.
  - intros Hn. rewrite Hst, redact_steps_id; [done|]. cbn. intros r Hr. apply Hn.
    subst plan. by apply list_elem_of_filter in Hr as [_ ?].
Qed.
End theorems.

(** [partial_slice_masks] (a partial reveal fails closed).  With [keep_prefix]
    and [keep_suffix] the masked text has the length of the original and every
    position outside the kept prefix and suffix is the mask character; when the
    two together would reveal the whole value it is the sentinel instead. *)
Theorem partial_slice_masks a kp ks s :
  (0 <= kp)%Z -> (0 <= ks)%Z ->
  let out := partial_slice (String a "") kp ks s in
  let len := Z.of_nat (String.length s) in
  ((len <= kp + ks)%Z -> out = MASK_SENTINEL) /\
  ((kp + ks < len)%Z ->
     String.length out = String.length s /\
     forall i, (kp <= Z.of_nat i < len - ks)%Z -> String.get i out = Some a).
Proof.
  intros Hkp Hks out len. subst out. unfold partial_slice. fold len.
  destruct (Z.leb_spec len (kp + ks)) as [Hle|Hlt]; [split; [done | lia]|].
  split; [lia|]. intros _.
  set (pre := str_take _ s). set (mid := str_repeat _ _). set (suf := str_drop _ s).
  assert (String.length pre = Z.to_nat kp) as Lp by (unfold pre; rewrite str_length_take; lia).
  assert (String.length mid = Z.to_nat (len - kp - ks)) as Lm by apply str_length_repeat.
  assert (String.length suf = Z.to_nat ks) as Ls by (unfold suf; rewrite str_length_drop; lia).
  split; [rewrite !str_length_app; lia|].
  intros i Hi. replace i with ((i - Z.to_nat kp) + String.length pre)%nat by lia.
  rewrite <- String.append_correct2, <- String.append_correct1 by lia.
  apply str_get_repeat. lia.
Qed.

(** ** Closed examples *)

Definition demo_sha256 : Sha256 := fun s => ("#" +:+ s)%string.

Definition demo_spec : pyval :=
  PDict [("version", PInt 1);
         ("rules", PList [PDict [("path", PStr "raw.user.email"); ("action", PStr "mask")];
                          PDict [("path", PStr "raw.user"); ("action", PStr "hash")];
                          PDict [("path", PStr "raw.ips.addr"); ("action", PStr "drop_field")]])].
Definition demo_rules : list redaction_rule :=
  match compile_pii_redaction demo_spec with Ok rs => rs | Raise _ => [] end.
Definition demo_mask_rule : redaction_rule :=
  RedactionRule "raw.user.email" ["raw"; "user"; "email"] "mask" [("mask_char", PStr "*")].
Definition demo_event : list (string * pyval) :=
  [("_centralops", PDict [("event_id", PStr "e1")]);
   ("raw", PDict [("user", PDict [("email", PStr "a@b.c"); ("name", PStr "ana")]);
                  ("ips", PList [PDict [("addr", PStr "10.0.0.1")]])])].

Lemma apply_seals_witness :
  sealed (H := demo_float_repr) (H0 := demo_sha256) demo_rules ["raw"; "user"; "email"]
    (PDict (default demo_event
       (apply_pii_redaction (H := demo_float_repr) (H0 := demo_sha256) demo_event demo_rules))).
Proof.
  apply (apply_seals (H := demo_float_repr) (H0 := demo_sha256)
           demo_spec demo_rules demo_event demo_mask_rule); [reflexivity| |reflexivity].
  vm_compute. left.
Defined.

Lemma apply_frame_witness :
  exists env', apply_pii_redaction (H := demo_float_repr) (H0 := demo_sha256) demo_event demo_rules = Some env' /\
    dict_get "_centralops" env' = dict_get "_centralops" demo_event.
Proof.
  eexists. split; [reflexivity|].
  eapply (apply_frame (H := demo_float_repr) (H0 := demo_sha256) demo_spec demo_rules);
    [reflexivity | reflexivity |].
  intros Hin. repeat (apply elem_of_cons in Hin as [Hin|Hin]; [discriminate Hin|]).
  by apply elem_of_nil in Hin.
Defined.

Lemma partial_slice_masks_witness :
  partial_slice "*" 1 1 "secret" = "s****t" /\
  ((3 <= 2 + 1)%Z -> partial_slice "*" 2 1 "abc" = MASK_SENTINEL).
Proof.
  split; [reflexivity|].
  apply (partial_slice_masks "*"%char 2 1 "abc"); lia.
Defined.

(** A value that already looks like a pseudonym passes a [hash] rule in clear. *)
Lemma hash_passes_forged_pseudonym `{FloatRepr} `{Sha256} r s :
  hash_value r (PStr ("sha256:" +:+ s)) = (PStr ("sha256:" +:+ s), false).
Proof. reflexivity. Qed.

(** An unhashable [action] escapes as [TypeError], not [PiiRedactionError]. *)
Lemma compile_unhashable_action :
  compile_pii_redaction (PList [PDict [("path", PStr "raw.a"); ("action", PList [])]]) = Raise EType.
Proof. reflexivity. Qed.
