(* ===== verification/Routing.v ===== *)
(** * The routing engine

    [backend/app/collectors/routing/engine.py]: per-event evaluation of the
    ordered routes ([evaluate_event]), the split of a batch into per-destination
    sub-batches ([route_batch]) and the shadowing analysis ([find_unreachable]).

    [route_batch] mutates one [BatchRouting]; every mutation site of the code is
    a constructor of [outcome] whose effect on the record is [apply_outcome].
    [route_event] gives the sites one event goes through, in order, and
    [route_batch] folds them over the batch. *)

From S2P Require Export Prelude PyVal Conditions Redaction.

Local Open Scope string_scope.
Local Open Scope list_scope.
Local Open Scope Z_scope.

(** [hashlib.sha1(s.encode("utf-8")).hexdigest()]. *)
Class Sha1 := sha1_hex : string -> string.
(** [len(dumps_bytes(envelope))]: the wire serializer is a third-party one;
    0 when it fails. *)
Class EnvelopeBytes := envelope_bytes : list (string * pyval) -> Z.

Definition envelope := list (string * pyval).

(** ** Routes *)

Record compiled_route := CompiledRoute {
  route_id : string;
  route_name : string;
  priority : Z;
  route_condition : condition;
  action : string;
  destination_ids : list string;
  is_final : bool;
  enabled : bool;
  canary_percent : Z;
  protect_detection : bool;
  sample_percent : Z;
  suppress_key : option string;
  suppress_allow : Z;
  suppress_window_s : Z;
  redaction : list redaction_rule;
  drop_raw : bool;
}.

Definition ACTION_ROUTE : string := "route".
Definition ACTION_DROP : string := "drop".

Record sampling_config := SamplingConfig {
  sampling_enabled : bool;
  protect_detection_enforced : bool;
}.

(** [sorted(routes, key=lambda r: (r.priority, r.id))], a stable sort. *)
Definition route_leb (r s : compiled_route) : bool :=
  match priority r ?= priority s with
  | Lt => true
  | Gt => false
  | Eq => match String.compare (route_id r) (route_id s) with Gt => false | _ => true end
  end.

Fixpoint insert_route (r : compiled_route) (l : list compiled_route) : list compiled_route :=
  match l with
  | [] => [r]
  | s :: l' => if route_leb r s then r :: l else s :: insert_route r l'
  end.

Definition order_routes (routes : list compiled_route) : list compiled_route :=
  foldr insert_route [] routes.

(** [int(h, 16)] on hexadecimal digits. *)
Definition hex_value (a : ascii) : Z :=
  let n := Z.of_N (N_of_ascii a) in
  if in_range 48 57 a then n - 48 else if in_range 97 102 a then n - 87
  else if in_range 65 70 a then n - 55 else 0.
Fixpoint parse_hex (s : string) (acc : Z) : Z :=
  match s with EmptyString => acc | String a s' => parse_hex s' (acc * 16 + hex_value a) end.

Section routing.
Context `{FloatRepr} `{Sha256} `{Sha1} `{EnvelopeBytes}.

Definition canary_bucket (event_id : string) : Z :=
  parse_hex (str_take 8 (sha1_hex event_id)) 0 mod 100.

Definition canary_pass (percent : Z) (event_id : string) : bool :=
  if 100 <=? percent then true
  else if percent <=? 0 then false
  else canary_bucket event_id <? percent.

Definition should_sample_out (r : compiled_route) (event_id : string)
    (sampling : option sampling_config) : bool :=
  match sampling with
  | None => false
  | Some cfg =>
      if negb (sampling_enabled cfg) || (100 <=? sample_percent r) then false
      else if protect_detection r && protect_detection_enforced cfg then false
      else negb (canary_pass (sample_percent r) event_id)
  end.

(** ** The copies a route delivers *)

(** [_centralops] is a mapping or falsy ([build_envelope] writes a dict). *)
Definition event_labels (env : envelope) : labels := dict_items (dget "_centralops" env).

(** [round(p / 100.0, 6)]; the quotient of a whole percentage has two
    decimals, so the rounding is the identity. *)
Definition sample_rate (percent : Z) : spec_float := float_div (float_of_Z percent) (float_of_Z 100).

Definition with_sample_rate (env : envelope) (percent : Z) : envelope :=
  dict_set "_centralops"
    (PDict (dict_set "sample_rate" (PFloat (sample_rate percent)) (event_labels env))) env.

Definition without_raw (env : envelope) : option envelope :=
  if dict_has "raw" env then
    let out := dict_pop "raw" env in
    Some (dict_set "_centralops"
            (PDict (dict_set "raw_dropped" (PBool true) (event_labels out))) out)
  else None.

(** ** Per-event evaluation *)

Record event_routing := EventRouting {
  destinations : gset string;
  er_dropped : bool;
  er_matched : bool;
  matched_route_ids : gset string;
  assignments : list (string * compiled_route);
  drop_route_id : option string;
}.

Definition label_event_id (l : labels) : string := py_str (py_or (dget "event_id" l) (PStr "")).

Fixpoint evaluate_routes (l : labels) (event_id : string) (routes : list compiled_route)
    (dests matched_ids : gset string) (assigned : list (string * compiled_route)) : event_routing :=
  match routes with
  | [] => EventRouting dests false (bool_decide (matched_ids <> ∅)) matched_ids assigned None
  | r :: rest =>
      if negb (enabled r) then evaluate_routes l event_id rest dests matched_ids assigned
      else if negb (matches (route_condition r) l) then
        evaluate_routes l event_id rest dests matched_ids assigned
      else if negb (canary_pass (canary_percent r) event_id) then
        evaluate_routes l event_id rest dests matched_ids assigned
      else
        let matched_ids' := {[ route_id r ]} ∪ matched_ids in
        if String.eqb (action r) ACTION_DROP then
          EventRouting ∅ true true matched_ids' [] (Some (route_id r))
        else
          let dests' := dests ∪ list_to_set (destination_ids r) in
          let assigned' := assigned ++ ((fun d => (d, r)) <$> destination_ids r) in
          if is_final r then
            EventRouting dests' false true matched_ids' assigned' None
          else evaluate_routes l event_id rest dests' matched_ids' assigned'
  end.

Definition evaluate_event (l : labels) (ordered : list compiled_route) : event_routing :=
  evaluate_routes l (label_event_id l) ordered ∅ ∅ [].

(** ** Batch routing *)

Definition org_bytes := list (pyval * spec_float).

Record batch_routing := BatchRouting {
  sub_batches : gmap string (list envelope);
  routed : Z;
  dropped : Z;
  fallback : Z;
  unrouted : Z;
  unrouted_events : list envelope;
  per_route : gmap string Z;
  residency_blocked : Z;
  loop_blocked : Z;
  sampled : Z;
  sampled_per_route : gmap string Z;
  sampled_bytes_per_org : org_bytes;
  dropped_bytes_per_org : org_bytes;
  raw_dropped_bytes_per_org : org_bytes;
  dropped_events : list (envelope * string);
  loop_blocked_events : list (envelope * string);
  residency_blocked_events : list (envelope * string);
  sampled_events : list (envelope * string * string);
}.

Definition empty_batch : batch_routing :=
  BatchRouting ∅ 0 0 0 0 [] ∅ 0 0 0 ∅ [] [] [] [] [] [] [].

(** [d[org] = d.get(org, 0.0) + n]. *)
Fixpoint org_add (org : pyval) (n : Z) (m : org_bytes) : org_bytes :=
  match m with
  | [] => [(org, float_add (float_of_Z 0) (float_of_Z n))]
  | (o, x) :: m' =>
      if py_eq o org then (o, float_add x (float_of_Z n)) :: m' else (o, x) :: org_add org n m'
  end.

Definition bump (k : string) (m : gmap string Z) : gmap string Z := <[k := default 0 (m !! k) + 1]> m.
Definition push (k : string) (e : envelope) (m : gmap string (list envelope)) : gmap string (list envelope) :=
  <[k := default [] (m !! k) ++ [e]]> m.

(** One constructor per mutation site of [route_batch]. *)
Inductive outcome :=
| OMatched (rid : string)
| ODropped (env : envelope) (rid : string)
| ODropBytes (org : pyval) (n : Z)
| OLoopBlocked (env : envelope) (reason : string)
| OFallback (dest : string) (env : envelope)
| OUnrouted (env : envelope)
| OResidencyBlocked (env : envelope) (dest : string)
| OSampled (env : envelope) (dest rid : string)
| OSampledBytes (org : pyval) (n : Z)
| ORawDropBytes (org : pyval) (n : Z)
| ODelivered (dest : string) (env : envelope)
| ORouted.

Definition apply_outcome (b : batch_routing) (o : outcome) : batch_routing :=
  let '(BatchRouting sub ro dr fa un une pr res lb sa spr sb db rb dre lbe rbe sae) := b in
  match o with
  | OMatched rid => BatchRouting sub ro dr fa un une (bump rid pr) res lb sa spr sb db rb dre lbe rbe sae
  | ODropped env rid =>
      BatchRouting sub ro (dr + 1) fa un une pr res lb sa spr sb db rb (dre ++ [(env, rid)]) lbe rbe sae
  | ODropBytes org n => BatchRouting sub ro dr fa un une pr res lb sa spr sb (org_add org n db) rb dre lbe rbe sae
  | OLoopBlocked env reason =>
      BatchRouting sub ro dr fa un une pr res (lb + 1) sa spr sb db rb dre (lbe ++ [(env, reason)]) rbe sae
  | OFallback dest env =>
      BatchRouting (push dest env sub) ro dr (fa + 1) un une pr res lb sa spr sb db rb dre lbe rbe sae
  | OUnrouted env =>
      BatchRouting sub ro dr fa (un + 1) (une ++ [env]) pr res lb sa spr sb db rb dre lbe rbe sae
  | OResidencyBlocked env dest =>
      BatchRouting sub ro dr fa un une pr (res + 1) lb sa spr sb db rb dre lbe (rbe ++ [(env, dest)]) sae
  | OSampled env dest rid =>
      BatchRouting sub ro dr fa un une pr res lb (sa + 1) (bump rid spr) sb db rb dre lbe rbe
        (sae ++ [(env, dest, rid)])
  | OSampledBytes org n => BatchRouting sub ro dr fa un une pr res lb sa spr (org_add org n sb) db rb dre lbe rbe sae
  | ORawDropBytes org n => BatchRouting sub ro dr fa un une pr res lb sa spr sb db (org_add org n rb) dre lbe rbe sae
  | ODelivered dest env => BatchRouting (push dest env sub) ro dr fa un une pr res lb sa spr sb db rb dre lbe rbe sae
  | ORouted => BatchRouting sub (ro + 1) dr fa un une pr res lb sa spr sb db rb dre lbe rbe sae
  end.

(** The keyword arguments of [route_batch]. *)
Record routing_options := RoutingOptions {
  fallback_destination_id : option string;
  destination_residency : list (string * option string);
  wazuh_loop_destination_ids : gset string;
  sampling : option sampling_config;
  measure_drop_bytes : bool;
}.
Context (opts : routing_options).

(** [_residency_conflict]; a geography that is a truthy non-string has no
    [lower]. *)
Definition residency_conflict (dest_residency : option string) (event_geography : pyval) : result bool :=
  match dest_residency with
  | None | Some "" => Ok false
  | Some res =>
      if negb (truthy event_geography) then Ok false
      else if String.eqb (str_lower res) "global" then Ok false
      else match event_geography with
           | PStr geo =>
               Ok (negb (String.eqb (str_lower geo) "global")
                   && negb (String.eqb (str_upper res) (str_upper geo)))
           | _ => Raise EAttribute
           end
  end.

Definition source_is_wazuh (l : labels) : bool := py_eq (dget "platform" l) (PStr "wazuh").

Definition in_loop (d : string) : bool := bool_decide (d ∈ wazuh_loop_destination_ids opts).

(** [_no_destination]. *)
Definition no_destination (env : envelope) (l : labels) (reason : string) : list outcome :=
  let fb := fallback_destination_id opts in
  if source_is_wazuh l && match fb with None => true | Some d => in_loop d end then
    [OLoopBlocked env reason]
  else
    match fb with
    | Some d => [OFallback d env]
    | None => [OUnrouted env]
    end.

(** One copy per destination: the first route assigned, unless it does not
    redact and a later one does. *)
Definition choose_routes (assigned : list (string * compiled_route)) : list (string * compiled_route) :=
  foldl (fun chosen dr =>
           let '(dest, route) := dr in
           match dict_get dest chosen with
           | None => dict_set dest route chosen
           | Some cur =>
               if match redaction cur, redaction route with [], _ :: _ => true | _, _ => false end
               then dict_set dest route chosen else chosen
           end) [] assigned.

Definition drop_loops (l : labels) (chosen : list (string * compiled_route)) :=
  if source_is_wazuh l then filter (fun dr => in_loop dr.1 = false) chosen else chosen.

(** The residency filter: the destinations kept and the ones blocked. *)
Fixpoint residency_split (geo : pyval) (chosen : list (string * compiled_route))
    : result (list (string * compiled_route) * list string) :=
  match chosen with
  | [] => Ok ([], [])
  | (dest, route) :: rest =>
      conflict ← residency_conflict (default None (dict_get dest (destination_residency opts))) geo;
      '(kept, blocked) ← residency_split geo rest;
      Ok (if conflict : bool then (kept, dest :: blocked) else ((dest, route) :: kept, blocked))
  end.

Definition enforce_residency (l : labels) (chosen : list (string * compiled_route)) :=
  match destination_residency opts with
  | [] => Ok (chosen, [])
  | _ => residency_split (py_or (dget "data_geography" l) PNone) chosen
  end.

(** A per-organization byte counter: skipped without an organization or when
    there is nothing to add; the key must hash. *)
Definition org_outcome (l : labels) (n : Z) (mk : pyval -> Z -> outcome) : result (list outcome) :=
  let org := dget "organization_id" l in
  if is_none org || (n =? 0) then Ok []
  else if hashable org then Ok [mk org n] else Raise EType.

Definition is_sampled_route (r : compiled_route) : bool :=
  match sampling opts with
  | Some cfg =>
      sampling_enabled cfg && (sample_percent r <? 100)
      && negb (protect_detection r && protect_detection_enforced cfg)
  | None => false
  end.

(** The copy bound for the destinations of a route before the [raw] drop. *)
Definition redacted_copy (r : compiled_route) (env : envelope) : envelope :=
  let env_out := if is_sampled_route r then with_sample_rate env (sample_percent r) else env in
  match redaction r with [] => env_out | rules => default env_out (apply_pii_redaction env_out rules) end.

Definition raw_dropped (r : compiled_route) (env_out : envelope) : option envelope :=
  if drop_raw r && negb (protect_detection r) then without_raw env_out else None.

Definition delivered_copy (r : compiled_route) (env : envelope) : envelope :=
  let env_out := redacted_copy r env in default env_out (raw_dropped r env_out).

(** The body of [for dest, route in chosen.items()]. *)
Definition deliver (env : envelope) (l : labels) (event_id : string) (dest : string)
    (r : compiled_route) : result (list outcome) :=
  if should_sample_out r event_id (sampling opts) then
    bytes ← org_outcome l (envelope_bytes env) OSampledBytes;
    Ok (OSampled env dest (route_id r) :: bytes)
  else
    let env_out := redacted_copy r env in
    bytes ←
      (match raw_dropped r env_out with
       | Some dropped_env =>
           if measure_drop_bytes opts then
             let saved := envelope_bytes env_out - envelope_bytes dropped_env in
             if 0 <? saved then org_outcome l saved ORawDropBytes else Ok []
           else Ok []
       | None => Ok []
       end);
    Ok (bytes ++ [ODelivered dest (delivered_copy r env)]).

Definition is_delivery (o : outcome) : bool := match o with ODelivered _ _ => true | _ => false end.

Definition deliver_all (env : envelope) (l : labels) (chosen : list (string * compiled_route))
    : result (list outcome) :=
  outs ← result_map (fun dr => deliver env l (label_event_id l) dr.1 dr.2) chosen;
  let log := concat outs in
  Ok (log ++ if existsb is_delivery log then [ORouted] else []).

(** The body of [for env in batch]. *)
Definition route_event (ordered : list compiled_route) (env : envelope) : result (list outcome) :=
  let l := event_labels env in
  let decision := evaluate_event l ordered in
  let matched := OMatched <$> elements (matched_route_ids decision) in
  if er_dropped decision then
    bytes ← (if measure_drop_bytes opts then org_outcome l (envelope_bytes env) ODropBytes else Ok []);
    Ok (matched ++ ODropped env (default "" (drop_route_id decision)) :: bytes)
  else
    match assignments decision with
    | [] => Ok (matched ++ no_destination env l "no-explicit-destination")
    | assigned =>
        '(kept, blocked) ← enforce_residency l (drop_loops l (choose_routes assigned));
        let matched := matched ++ (OResidencyBlocked env <$> blocked) in
        match kept with
        | [] => Ok (matched ++ no_destination env l "all-destinations-loop")
        | _ => log ← deliver_all env l kept; Ok (matched ++ log)
        end
    end.

Definition route_batch (batch : list envelope) (routes : list compiled_route) : result batch_routing :=
  let ordered := order_routes routes in
  logs ← result_map (route_event ordered) batch;
  Ok (foldl apply_outcome empty_batch (concat logs)).
End routing.

(** ** Shadowed routes *)

(** [any(_subsumes(e.condition, c) for e in seen_final)]: stops at the first hit. *)
Fixpoint any_subsumes (seen : list compiled_route) (c : condition) : result bool :=
  match seen with
  | [] => Ok false
  | e :: rest => b ← subsumes (route_condition e) c; if b : bool then Ok true else any_subsumes rest c
  end.

Fixpoint unreachable_from (seen_final ordered : list compiled_route) : result (list string) :=
  match ordered with
  | [] => Ok []
  | r :: rest =>
      if negb (enabled r) then unreachable_from seen_final rest
      else
        shadowed ← any_subsumes seen_final (route_condition r);
        if shadowed : bool then ids ← unreachable_from seen_final rest; Ok (route_id r :: ids)
        else
          unreachable_from
            (if is_final r && (100 <=? canary_percent r) then seen_final ++ [r] else seen_final) rest
  end.

Definition find_unreachable (ordered : list compiled_route) : result (list string) :=
  unreachable_from [] ordered.
