(* ===== verification/RoutingProps.v ===== *)
(** * Correctness of the routing engine

    Theorems about [Conditions] and [Routing]: soundness of the shadowing
    analysis, the declarative reading of [evaluate_event], and the safety of
    [route_batch] (nothing lost, no loop, one copy, redaction wins, residency). *)

From stdpp Require Import sorting.
From S2P Require Import Prelude PyVal Conditions Redaction Routing.

Local Open Scope string_scope.
Local Open Scope list_scope.
Local Open Scope Z_scope.

(** ** Route evaluation *)

Section evaluation.
Context `{FloatRepr} `{Sha1}.
Implicit Types (l : labels) (r : compiled_route).

(** A route applies to an event: enabled, matching, inside its canary. *)
Definition applicable l r : bool :=
  enabled r && matches (route_condition r) l && canary_pass (canary_percent r) (label_event_id l).

Definition is_drop_route r : bool := String.eqb (action r) ACTION_DROP.
(** Evaluation stops at a drop and at a final route. *)
Definition stops r : bool := is_drop_route r || is_final r.

(** The list up to and including its first element that satisfies [p]. *)
Fixpoint upto {A} (p : A -> bool) (xs : list A) : list A :=
  match xs with [] => [] | x :: xs' => if p x then [x] else x :: upto p xs' end.

(** The declarative reading of route evaluation: the applicable routes, in
    order, up to the first that stops. *)
Definition hits l (ordered : list compiled_route) : list compiled_route :=
  upto stops (filter (fun r => applicable l r = true) ordered).

Definition assign r : list (string * compiled_route) := (fun d => (d, r)) <$> destination_ids r.

(** The specification of [evaluate_event]. *)
Definition spec_event l (ordered : list compiled_route) : event_routing :=
  let hs := hits l ordered in
  let ids := list_to_set (route_id <$> hs) in
  match List.find is_drop_route hs with
  | Some r => EventRouting ∅ true true ids [] (Some (route_id r))
  | None =>
      EventRouting (list_to_set (hs ≫= destination_ids)) false (bool_decide (hs <> []))
        ids (hs ≫= assign) None
  end.

Lemma evaluate_skip l r rest dests ids assigned :
  applicable l r = false ->
  evaluate_routes l (label_event_id l) (r :: rest) dests ids assigned
  = evaluate_routes l (label_event_id l) rest dests ids assigned.
Proof.
  unfold applicable. cbn. destruct (enabled r), (matches (route_condition r) l); cbn; try done.
  by intros ->.
Qed.

Lemma evaluate_hit l r rest dests ids assigned :
  applicable l r = true ->
  evaluate_routes l (label_event_id l) (r :: rest) dests ids assigned =
    let ids' := {[ route_id r ]} ∪ ids in
    if is_drop_route r then EventRouting ∅ true true ids' [] (Some (route_id r))
    else
      let dests' := dests ∪ list_to_set (destination_ids r) in
      if is_final r then EventRouting dests' false true ids' (assigned ++ assign r) None
      else evaluate_routes l (label_event_id l) rest dests' ids' (assigned ++ assign r).
Proof. unfold applicable. intros Ha. bool_simpl. cbn. by rewrite H1, H3, H2. Qed.

Lemma evaluate_routes_spec l ordered pre dests (ids : gset string) assigned :
  List.find is_drop_route pre = None ->
  dests = list_to_set (pre ≫= destination_ids) ->
  ids = list_to_set (route_id <$> pre) ->
  assigned = pre ≫= assign ->
  evaluate_routes l (label_event_id l) ordered dests ids assigned =
    let hs := pre ++ hits l ordered in
    let ids := list_to_set (route_id <$> hs) in
    match List.find is_drop_route hs with
    | Some r => EventRouting ∅ true true ids [] (Some (route_id r))
    | None =>
        EventRouting (list_to_set (hs ≫= destination_ids)) false (bool_decide (hs <> []))
          ids (hs ≫= assign) None
    end.
Proof.
  assert (forall xs ys : list compiled_route, List.find is_drop_route xs = None ->
    List.find is_drop_route (xs ++ ys) = List.find is_drop_route ys) as Hfind.
  { induction xs as [|x xs IH]; cbn; [done|]. intros ys. destruct (is_drop_route x); [done|]. apply IH. }
  revert pre dests ids assigned. induction ordered as [|r rest IH]; intros pre dests ids assigned Hpre -> -> ->.
  - cbn. rewrite app_nil_r, Hpre. f_equal. apply bool_decide_ext. destruct pre; cbn; [done|].
    split; [done | set_solver].
  - destruct (applicable l r) eqn:Ha; last first.
    { rewrite evaluate_skip by done. unfold hits. rewrite filter_cons_False by (by rewrite Ha).
      by apply IH. }
    rewrite evaluate_hit by done. unfold hits. rewrite filter_cons_True by done. cbn [upto].
    assert (stops r = is_drop_route r || is_final r) as -> by done.
    destruct (is_drop_route r) eqn:Ed; cbn [orb].
    { rewrite Hfind by done. cbn. rewrite Ed, fmap_app, list_to_set_app_L. cbn.
      by rewrite (right_id_L ∅ (∪)), (comm_L (∪)). }
    assert (List.find is_drop_route (pre ++ [r]) = None) as Hpre' by (rewrite Hfind by done; cbn; by rewrite Ed).
    destruct (is_final r) eqn:Ef.
    + rewrite Hpre'. rewrite fmap_app, !bind_app, !list_to_set_app_L. cbn. rewrite !app_nil_r.
      rewrite (right_id_L ∅ (∪)), (comm_L (∪) (list_to_set (route_id <$> pre))).
      rewrite (bool_decide_eq_true_2 (pre ++ [r] <> [])); [done | by destruct pre].
    + rewrite (IH (pre ++ [r])); try done.
      * by rewrite <- app_assoc.
      * rewrite bind_app, list_to_set_app_L. cbn. by rewrite app_nil_r.
      * rewrite fmap_app, list_to_set_app_L. cbn. set_solver.
      * rewrite bind_app. cbn. by rewrite app_nil_r.
Qed.

(** [evaluate_event_spec] (first match, fan-out, drop).  [evaluate_event]
    computes its declarative reading: the routes that apply (enabled, condition
    holds, inside the canary) are taken in order up to the first final or drop
    route; a drop among them discards the event, otherwise it is assigned to
    every destination of every route taken, in order. *)
Theorem evaluate_event_spec l ordered : evaluate_event l ordered = spec_event l ordered.
Proof. unfold evaluate_event. by rewrite (evaluate_routes_spec l ordered []). Qed.
End evaluation.

(** ** Shadowing *)

Section shadowing.
Context `{FloatRepr} `{Sha1}.
Implicit Types (l : labels) (r : compiled_route).

(** No condition constrains one label twice (once as [org_id], once as
    [organization_id]). *)
Definition alias_free (c : condition) : Prop := NoDup (canonical_keys c).

Lemma subsumes_matches a b l :
  alias_free a -> alias_free b -> subsumes a b = Ok true ->
  matches b l = true -> matches a l = true.
Proof.
  unfold subsumes, alias_free. intros Ha Hb. rewrite !normalize_aliases_nodup by done.
  intros Hs Hm. rewrite <- (matches_normalized a), <- (matches_normalized b) in *.
  eapply subsumes_fields_sound; [| |done|done].
  all: intros f s Hin; apply list_elem_of_fmap in Hin as ([f' s'] & [= -> ->] & _);
    apply canonical_field_idemp.
Qed.

Lemma any_subsumes_matches seen c l :
  Forall (fun e => alias_free (route_condition e)) seen -> alias_free c ->
  any_subsumes seen c = Ok true -> matches c l = true ->
  exists e, e ∈ seen /\ matches (route_condition e) l = true.
Proof.
  intros Hseen Hc Hs Hm. induction Hseen as [|e seen He _ IH]; [done|]. cbn in Hs.
  apply result_bind_ok in Hs as ([] & Hb & Hs).
  - exists e. split; [left | by eapply subsumes_matches].
  - destruct (IH Hs) as (e' & Hin & ?). exists e'. split; [by right | done].
Qed.

(** [subsumes_sound] (subsumption is sound).  When [_subsumes(A, B)] answers
    true and neither condition names a label under two aliases, every event
    that matches [B] matches [A]. *)
Theorem subsumes_sound a b l :
  alias_free a -> alias_free b -> subsumes a b = Ok true ->
  matches b l = true -> matches a l = true.
Proof. apply subsumes_matches. Qed.

Lemma unreachable_ids seen ordered ids :
  unreachable_from seen ordered = Ok ids -> forall i, i ∈ ids -> i ∈ route_id <$> ordered.
Proof.
  revert seen ids. induction ordered as [|r rest IH]; intros seen ids Hu i Hi; cbn in Hu.
  - injection Hu as <-. by apply elem_of_nil in Hi.
  - cbn. apply elem_of_cons. destruct (enabled r); cbn in Hu; [|right; by eapply IH].
    apply result_bind_ok in Hu as ([] & _ & Hu); [|right; by eapply IH].
    apply result_bind_ok in Hu as (ids' & Hu & [= <-]).
    apply elem_of_cons in Hi as [->|Hi]; [by left | right; by eapply IH].
Qed.

Definition keep (ids : list string) (ordered : list compiled_route) : list compiled_route :=
  filter (fun r => route_id r ∉ ids) ordered.

Lemma keep_fresh i ids ordered :
  i ∉ route_id <$> ordered -> keep (i :: ids) ordered = keep ids ordered.
Proof.
  intros Hi. unfold keep. induction ordered as [|r rest IH]; [done|].
  cbn in Hi. apply not_elem_of_cons in Hi as [Hne Hi]. rewrite !filter_cons, IH by done.
  destruct (decide (route_id r ∉ i :: ids)) as [Hd|Hd], (decide (route_id r ∉ ids)) as [Hd'|Hd'];
    try done; rewrite not_elem_of_cons in Hd; naive_solver.
Qed.

Lemma hits_cons l r rest :
  hits l (r :: rest) =
  if applicable l r then if stops r then [r] else r :: hits l rest else hits l rest.
Proof.
  unfold hits. destruct (applicable l r) eqn:Ea.
  - by rewrite filter_cons_True.
  - rewrite filter_cons_False; [done | by rewrite Ea].
Qed.

Lemma hits_keep l seen ordered ids :
  Forall (fun r => alias_free (route_condition r)) seen ->
  Forall (fun r => alias_free (route_condition r)) ordered ->
  NoDup (route_id <$> ordered) ->
  (forall e, e ∈ seen -> matches (route_condition e) l = false) ->
  unreachable_from seen ordered = Ok ids ->
  hits l (keep ids ordered) = hits l ordered.
Proof.
  intros Hseen Hord. revert seen ids Hseen.
  induction Hord as [|r rest Hr Hrest IH]; intros seen ids Hseen Hnd Hno Hu; [done|].
  cbn in Hnd. apply NoDup_cons in Hnd as [Hfresh Hnd].
  rewrite hits_cons. cbn in Hu. destruct (enabled r) eqn:Een; cbn in Hu; last first.
  { assert (applicable l r = false) as Ha by (unfold applicable; by rewrite Een). rewrite Ha.
    unfold keep. rewrite filter_cons. destruct (decide _); [rewrite hits_cons, Ha|]; by eapply IH. }
  apply result_bind_ok in Hu as (shadowed & Hsh & Hu). destruct shadowed.
  - apply result_bind_ok in Hu as (ids' & Hu & [= <-]).
    assert (applicable l r = false) as ->.
    { unfold applicable. destruct (matches (route_condition r) l) eqn:Em; [|by rewrite andb_false_r].
      destruct (any_subsumes_matches seen _ l Hseen Hr Hsh Em) as (e & He & Hme).
      by rewrite Hno in Hme. }
    assert (keep (route_id r :: ids') (r :: rest) = keep ids' rest) as ->.
    { unfold keep at 1. rewrite filter_cons_False by (intros Hx; apply Hx; left).
      by apply keep_fresh. }
    by eapply IH.
  - assert (route_id r ∉ ids) as Hid.
    { intros Hi. apply Hfresh. by eapply unreachable_ids. }
    unfold keep. rewrite filter_cons_True by done. fold (keep ids rest). rewrite hits_cons.
    destruct (applicable l r) eqn:Ea.
    + destruct (stops r) eqn:Est; [done|]. f_equal.
      unfold stops in Est. apply orb_false_iff in Est as [_ Ef]. rewrite Ef in Hu. by eapply IH.
    + eapply IH; [|done| |exact Hu].
      * destruct (_ && _); [|done]. apply Forall_app. by repeat constructor.
      * intros e He. destruct (is_final r && (100 <=? canary_percent r)) eqn:Ef; [|by apply Hno].
        apply elem_of_app in He as [He|He%list_elem_of_singleton]; [by apply Hno|]. subst e.
        apply andb_true_iff in Ef as [_ Ec]. unfold applicable in Ea.
        rewrite Een in Ea. unfold canary_pass in Ea. rewrite Ec in Ea.
        cbn in Ea. by rewrite andb_true_r in Ea.
Qed.

(** [find_unreachable_sound] (no false positives).  When [find_unreachable]
    returns [ids] for routes with distinct ids whose conditions never name a
    label under two aliases, deleting the flagged routes changes the routing of
    no event at all. *)
Theorem find_unreachable_sound ordered ids l :
  Forall (fun r => alias_free (route_condition r)) ordered ->
  NoDup (route_id <$> ordered) ->
  find_unreachable ordered = Ok ids ->
  evaluate_event l (filter (fun r => route_id r ∉ ids) ordered) = evaluate_event l ordered.
Proof.
  intros Hal Hnd Hu. rewrite !evaluate_event_spec. fold (keep ids ordered).
  unfold spec_event. rewrite (hits_keep l [] ordered ids); try done.
  intros e He. by apply elem_of_nil in He.
Qed.
End shadowing.

(** ** Evaluation order *)

Lemma insert_route_perm r l : insert_route r l ≡ₚ r :: l.
Proof.
  induction l as [|s l IH]; cbn; [done|]. destruct (route_leb r s); [done|]. rewrite IH. apply Permutation_swap.
Qed.
Lemma order_routes_perm routes : order_routes routes ≡ₚ routes.
Proof. unfold order_routes. induction routes as [|r l IH]; cbn; [done|]. by rewrite insert_route_perm, IH. Qed.
Lemma order_routes_elem r routes : r ∈ order_routes routes <-> r ∈ routes.
Proof. by rewrite order_routes_perm. Qed.

(** ** Validated conditions *)

Section validation.
Context `{FloatRepr}.

Lemma is_true_eq v : is_true v = true -> v = PBool true.
Proof. destruct v as [|[]| | | | |]; done. Qed.

Lemma all_true_list vs :
  existsb (fun v => negb (is_true v)) vs = false -> forall v, v ∈ vs -> v = PBool true.
Proof.
  intros He v Hv%list_elem_of_In. apply is_true_eq. destruct (is_true v) eqn:E; [done|].
  assert (existsb (fun v => negb (is_true v)) vs = true) as Hx; [|congruence].
  apply existsb_exists. exists v. by rewrite E.
Qed.

Lemma boolean_op_separates op val :
  reject_unmatchable_boolean (PDict [(op, val)]) = Ok tt -> validate_op op val = Ok tt ->
  compare_values op (PBool true) val <> compare_values op PNone val.
Proof.
  cbn. intros Hr Hv.
  apply result_bind_ok in Hr as ([] & Hr & _).
  apply result_bind_ok in Hr as ([] & Hord%raise_if_ok & Hr).
  apply result_bind_ok in Hr as ([] & Heq%raise_if_ok & Hin).
  unfold validate_op in Hv. apply result_bind_ok in Hv as ([] & Hop%raise_if_ok & Hv).
  apply result_bind_ok in Hv as ([] & _ & Hex%raise_if_ok).
  apply negb_false_iff in Hop. unfold ALLOWED_OPS, mem in Hop. cbn in Hop.
  repeat match type of Hop with
  | (_ || _)%bool = true => apply orb_true_iff in Hop as [Hop%String.eqb_eq|Hop]; [subst op|]
  end; cbn in Hord, Heq, Hin, Hex; try discriminate.
  1-2: destruct (is_true val) eqn:E; [|done]; apply is_true_eq in E as ->; done.
  1-2: destruct val as [| | | | |[|v vs]|]; try discriminate Hin; apply raise_if_ok in Hin;
    assert (v = PBool true) as -> by (eapply all_true_list; [exact Hin | left]); done.
  destruct val as [|[]| | | | |]; try discriminate Hex; done.
Qed.

(** [boolean_clause_separates] (no silent boolean clause).  A clause on the
    detection mark that [validate_condition] accepts, a scalar or one operator,
    tells detected from undetected events: with the mark present and with the
    mark absent it gives different answers. *)
Theorem boolean_clause_separates f spec l :
  canonical_field f = DETECTION_MATCHED_FIELD ->
  validate_condition (PDict [(f, spec)]) = Ok tt ->
  (forall ops, spec = PDict ops -> length ops = 1%nat) ->
  matches [(f, spec)] (dict_set DETECTION_MATCHED_FIELD (PBool true) l)
  <> matches [(f, spec)] (dict_pop DETECTION_MATCHED_FIELD l).
Proof.
  intros Hf Hv Hone. unfold matches. cbn -[dict_set dict_pop]. rewrite Hf. unfold dget.
  rewrite dict_get_set_eq, dict_get_pop_eq, !andb_true_r. cbn.
  cbn -[canonical_field reject_unmatchable_boolean] in Hv. rewrite Hf in Hv.
  apply result_bind_ok in Hv as ([] & Hv & _).
  apply result_bind_ok in Hv as ([] & _ & Hv).
  change (mem DETECTION_MATCHED_FIELD BOOLEAN_FIELDS) with true in Hv. cbv iota in Hv.
  apply result_bind_ok in Hv as ([] & Hr & Hv).
  destruct spec as [| [] | | | | |ops]; try discriminate Hr; [done|].
  specialize (Hone ops eq_refl). destruct ops as [|[op val] [|]]; try discriminate Hone.
  apply result_bind_ok in Hv as ([] & _ & Hv). cbn -[validate_op] in Hv.
  apply result_bind_ok in Hv as ([] & Hv & _).
  cbn. rewrite !andb_true_r. by apply boolean_op_separates.
Qed.
End validation.

(** ** Closed examples *)

Section examples.
#[local] Existing Instance demo_float_repr.
#[local] Instance demo_sha1 : Sha1 := fun _ => "0000002a".

Definition demo_route (id : string) (prio : Z) (c : condition) (final : bool) : compiled_route :=
  CompiledRoute id id prio c ACTION_ROUTE ["siem"] final true 100 true 100 None 0 30 [] false.
Definition demo_routes : list compiled_route :=
  [demo_route "a" 1 [("vendor", PDict [("in", PList [PStr "sophos"; PStr "okta"])])] true;
   demo_route "b" 2 [("vendor", PStr "okta"); ("severity_id", PInt 4)] false;
   demo_route "c" 3 [("vendor", PStr "wazuh")] false].

Lemma subsumes_sound_witness :
  matches [("vendor", PDict [("in", PList [PStr "sophos"; PStr "okta"])])]
    [("vendor", PStr "okta"); ("severity_id", PInt 4)] = true.
Proof.
  apply (subsumes_sound _ [("vendor", PStr "okta"); ("severity_id", PInt 4)]).
  - apply (bool_decide_unpack _). vm_compute. exact I.
  - apply (bool_decide_unpack _). vm_compute. exact I.
  - reflexivity.
  - reflexivity.
Defined.

Lemma find_unreachable_sound_witness :
  find_unreachable demo_routes = Ok ["b"] /\
  evaluate_event [("vendor", PStr "okta")] (filter (fun r => route_id r ∉ ["b"]) demo_routes)
  = evaluate_event [("vendor", PStr "okta")] demo_routes.
Proof.
  split; [reflexivity|]. apply find_unreachable_sound.
  - repeat constructor; apply (bool_decide_unpack _); vm_compute; exact I.
  - apply (bool_decide_unpack _). vm_compute. exact I.
  - reflexivity.
Defined.

Lemma boolean_clause_separates_witness :
  matches [("detection_matched", PDict [("exists", PBool false)])] [("detection_matched", PBool true)]
  <> matches [("detection_matched", PDict [("exists", PBool false)])] [].
Proof.
  apply (boolean_clause_separates "detection_matched" (PDict [("exists", PBool false)]) []);
    [reflexivity | reflexivity | intros ops [= <-]; reflexivity].
Defined.

(** A condition that names the organization under both of its aliases is
    accepted, matches nothing it should shadow, and yet shadows. *)
Lemma double_alias_breaks_subsumption :
  let a := [("org_id", PInt 1); ("organization_id", PInt 2)] in
  let b := [("organization_id", PInt 2)] in
  validate_condition (PDict a) = Ok tt /\ subsumes a b = Ok true /\
  matches b [("organization_id", PInt 2)] = true /\ matches a [("organization_id", PInt 2)] = false.
Proof. by vm_compute. Qed.

(** An accepted condition on which the shadowing analysis raises. *)
Lemma unhashable_eq_breaks_find_unreachable :
  let c := [("vendor", PDict [("eq", PDict [])])] in
  validate_condition (PDict c) = Ok tt /\
  find_unreachable [demo_route "a" 1 c true; demo_route "b" 2 c true] = Raise EType.
Proof. by vm_compute. Qed.
End examples.
