(* ===== verification/RoutingSafety.v ===== *)
(** * Safety of batch routing

    Theorems about [Routing.route_batch]: every delivery is justified by an
    applicable route or by the fallback, one copy per destination, no
    source-destination loop, residency of the routed copies. *)

From S2P Require Import Prelude PyVal Conditions Redaction Routing RoutingProps.

Local Open Scope string_scope.
Local Open Scope list_scope.
Local Open Scope Z_scope.

(** ** The log of an event and the record it produces *)

(** The mutation that closes the account of an event. *)
Definition terminal (o : outcome) : Z :=
  match o with ORouted | ODropped _ _ | OFallback _ _ | OUnrouted _ | OLoopBlocked _ _ => 1 | _ => 0 end.
Definition samples (o : outcome) : Z := match o with OSampled _ _ _ => 1 | _ => 0 end.
Definition sum_of (f : outcome -> Z) (log : list outcome) : Z := foldr Z.add 0 (f <$> log).

#[local] Arguments sum_of : simpl never.

(** What an outcome appends to the sub-batch of [d]. *)
Definition sent_to (d : string) (o : outcome) : option envelope :=
  match o with
  | ODelivered d' e | OFallback d' e => if String.eqb d' d then Some e else None
  | _ => None
  end.

(** Counters and bytes only: neither closes an account nor sends nor samples. *)
Definition neutral (o : outcome) : Prop :=
  terminal o = 0 /\ samples o = 0 /\ forall d, sent_to d o = None.

(** [routed + dropped + fallback + unrouted + loop_blocked]. *)
Definition accounted (b : batch_routing) : Z :=
  routed b + dropped b + fallback b + unrouted b + loop_blocked b.
Definition sub_batch (b : batch_routing) (d : string) : list envelope := default [] (sub_batches b !! d).

Lemma sum_of_app f xs ys : sum_of f (xs ++ ys) = sum_of f xs + sum_of f ys.
Proof. unfold sum_of. induction xs as [|x xs IH]; cbn in *; [done|]. lia. Qed.
Lemma sum_of_cons f x xs : sum_of f (x :: xs) = f x + sum_of f xs.
Proof. done. Qed.
Lemma sum_of_neutral xs : Forall neutral xs -> sum_of terminal xs = 0 /\ sum_of samples xs = 0.
Proof.
  unfold sum_of. induction 1 as [|x xs (H1 & H2 & _) _ [IH1 IH2]]; cbn; [done|]. lia.
Qed.
Lemma sent_neutral d xs : Forall neutral xs -> omap (sent_to d) xs = [].
Proof. induction 1 as [|x xs (_ & _ & H1) _ IH]; cbn; [done|]. by rewrite H1. Qed.

Lemma apply_outcomes_counts log b :
  accounted (foldl apply_outcome b log) = accounted b + sum_of terminal log /\
  sampled (foldl apply_outcome b log) = sampled b + sum_of samples log.
Proof.
  revert b. induction log as [|o log IH]; intros b; [unfold sum_of; cbn; lia|].
  cbn [foldl]. rewrite !sum_of_cons. destruct (IH (apply_outcome b o)) as [-> ->].
  unfold accounted. destruct b, o; cbn; lia.
Qed.

Lemma apply_outcomes_sub log b d :
  sub_batch (foldl apply_outcome b log) d = sub_batch b d ++ omap (sent_to d) log.
Proof.
  revert b. induction log as [|o log IH]; intros b; cbn; [by rewrite app_nil_r|].
  rewrite IH. clear IH.
  assert (forall k e sub, default [] (push k e sub !! d)
            = default [] (sub !! d) ++ (if String.eqb k d then [e] else [])) as Hpush.
  { intros k e sub. unfold push. destruct (String.eqb_spec k d) as [->|].
    - by rewrite lookup_insert_eq.
    - by rewrite lookup_insert_ne, app_nil_r by done. }
  unfold sub_batch. destruct b, o; cbn -[push]; try done.
  all: rewrite Hpush, <- app_assoc; by destruct (String.eqb dest d).
Qed.

Section safety.
Context `{FloatRepr} `{Sha256} `{Sha1} `{EnvelopeBytes}.
Context (opts : routing_options).
Implicit Types (l : labels) (env e : envelope) (r : compiled_route) (log : list outcome).

Ltac neutral := repeat constructor.

Lemma org_outcome_neutral l n mk os :
  (forall o n, neutral (mk o n)) -> org_outcome l n mk = Ok os -> Forall neutral os.
Proof.
  unfold org_outcome. intros Hmk. destruct (is_none _ || _)%bool.
  { intros [= <-]. apply Forall_nil_2. }
  destruct (hashable _); [intros [= <-]; by apply Forall_singleton | done].
Qed.

(** One delivery: it samples the pair out or appends exactly one copy. *)
Lemma deliver_inv env l eid d r os :
  deliver opts env l eid d r = Ok os ->
  exists pre, Forall neutral pre /\
    ((should_sample_out r eid (sampling opts) = true /\ os = OSampled env d (route_id r) :: pre) \/
     (should_sample_out r eid (sampling opts) = false /\
      os = pre ++ [ODelivered d (delivered_copy opts r env)])).
Proof.
  unfold deliver. destruct (should_sample_out _ _ _).
  - intros (bytes & Hb & [= <-])%result_bind_ok. exists bytes.
    split; [eapply org_outcome_neutral; [|exact Hb]; neutral | by left].
  - intros (bytes & Hb & [= <-])%result_bind_ok. exists bytes. split; [|by right].
    destruct (raw_dropped r _); [|injection Hb as <-; apply Forall_nil_2].
    destruct (measure_drop_bytes opts); [|injection Hb as <-; apply Forall_nil_2].
    destruct (0 <? _); [|injection Hb as <-; apply Forall_nil_2].
    eapply org_outcome_neutral; [|exact Hb]. neutral.
Qed.

(** ** Choosing one route per destination *)

Definition routes_for (d : string) (assigned : list (string * compiled_route)) : list compiled_route :=
  omap (fun dr => if String.eqb dr.1 d then Some dr.2 else None) assigned.

Definition pick (cur : option compiled_route) r : option compiled_route :=
  match cur with
  | None => Some r
  | Some c => if match redaction c, redaction r with [], _ :: _ => true | _, _ => false end
              then Some r else cur
  end.

Lemma routes_for_elem d assigned r : r ∈ routes_for d assigned <-> (d, r) ∈ assigned.
Proof.
  unfold routes_for. rewrite list_elem_of_omap. split.
  - intros ([d' r'] & Hin & Hr). cbn in Hr. destruct (String.eqb_spec d' d) as [->|]; naive_solver.
  - intros Hin. exists (d, r). split; [done|]. cbn. by rewrite String.eqb_refl.
Qed.

Lemma choose_routes_get d assigned :
  dict_get d (choose_routes assigned) = foldl pick None (routes_for d assigned).
Proof.
  unfold choose_routes, routes_for. induction assigned as [|[d0 r0] xs IH] using rev_ind; [done|].
  rewrite foldl_app, omap_app, foldl_app. cbn. set (c := foldl _ [] xs) in *.
  destruct (String.eqb_spec d0 d) as [->|Hne]; cbn.
  - rewrite <- IH. unfold pick. destruct (dict_get d c) as [cur|] eqn:E.
    + destruct (redaction cur), (redaction r0); by rewrite ?dict_get_set_eq, ?E.
    + by rewrite dict_get_set_eq.
  - rewrite <- IH. destruct (dict_get d0 c) as [cur|];
      [destruct (redaction cur), (redaction r0)|]; by rewrite ?dict_get_set_ne by done.
Qed.

Lemma pick_spec rs r :
  foldl pick None rs = Some r ->
  r ∈ rs /\ (redaction r = [] -> forall r', r' ∈ rs -> redaction r' = []).
Proof.
  revert r. induction rs as [|x rs IH] using rev_ind; intros r; [done|].
  rewrite foldl_app. cbn. destruct (foldl pick None rs) as [c|] eqn:E; cbn.
  - destruct (IH c eq_refl) as [Hin Hred].
    destruct (redaction c) eqn:Ec, (redaction x) eqn:Ex; intros [= <-]; (split; [set_solver|]);
      rewrite ?Ec, ?Ex; intros ?; try done.
    intros r' [Hr'| ->%list_elem_of_singleton]%elem_of_app; [by apply Hred | done].
  - intros [= <-]. split; [set_solver|]. intros Hx r' [Hr'| ->%list_elem_of_singleton]%elem_of_app; [|done].
    exfalso. clear -E Hr'. induction rs as [|y rs IH] using rev_ind; [set_solver|].
    rewrite foldl_app in E. cbn in E. destruct (foldl pick None rs); cbn in E; [|done].
    by destruct (match redaction c with [] => _ | _ => _ end).
Qed.

Lemma choose_routes_wf assigned : dict_wf (choose_routes assigned).
Proof.
  unfold choose_routes. induction assigned as [|[d0 r0] xs IH] using rev_ind; [constructor|].
  rewrite foldl_app. cbn. destruct (dict_get d0 _); [destruct (match redaction _ with [] => _ | _ => _ end)|];
    auto with cops.
Qed.

Lemma choose_routes_spec assigned d r :
  (d, r) ∈ choose_routes assigned ->
  (d, r) ∈ assigned /\
  (redaction r = [] -> forall r', (d, r') ∈ assigned -> redaction r' = []).
Proof.
  intros Hin. apply dict_elem_get in Hin; [|apply choose_routes_wf].
  rewrite choose_routes_get in Hin. apply pick_spec in Hin as [Hin Hred].
  rewrite routes_for_elem in Hin. split; [done|]. intros Hr r' Hr'. apply Hred; [done|].
  by apply routes_for_elem.
Qed.

(** ** Delivering to the chosen destinations *)

Lemma deliver_counts env l eid d r os :
  deliver opts env l eid d r = Ok os ->
  sum_of terminal os = 0 /\ 0 <= sum_of samples os /\
  (existsb is_delivery os = false -> sum_of samples os = 1).
Proof.
  intros (pre & Hpre & [[_ ->]|[_ ->]])%deliver_inv; destruct (sum_of_neutral _ Hpre) as [H1' H2'].
  - rewrite !sum_of_cons, H1', H2'. cbn. lia.
  - rewrite !sum_of_app, H1', H2'. rewrite existsb_app. cbn. rewrite orb_true_r. by split_and!.
Qed.

Lemma deliver_sent env l eid d r os d' :
  deliver opts env l eid d r = Ok os ->
  omap (sent_to d') os =
    if String.eqb d d' && negb (should_sample_out r eid (sampling opts))
    then [delivered_copy opts r env] else [].
Proof.
  intros (pre & Hpre & [[Hs ->]|[Hs ->]])%deliver_inv; rewrite Hs; cbn.
  - by rewrite andb_false_r, sent_neutral.
  - rewrite omap_app, sent_neutral by done. cbn. by destruct (String.eqb d d').
Qed.

Lemma deliver_list_sent env l eid kept outs d :
  result_map (fun dr => deliver opts env l eid dr.1 dr.2) kept = Ok outs ->
  omap (sent_to d) (concat outs) =
  omap (fun dr => if String.eqb dr.1 d && negb (should_sample_out dr.2 eid (sampling opts))
                  then Some (delivered_copy opts dr.2 env) else None) kept.
Proof.
  intros Hm%result_map_ok. induction Hm as [|[d0 r0] os kept outs Hd _ IH]; [done|].
  cbn in *. rewrite omap_app, IH. rewrite (deliver_sent _ _ _ _ _ _ d Hd).
  by destruct (_ && _).
Qed.

Lemma deliver_list_counts env l eid kept outs :
  result_map (fun dr => deliver opts env l eid dr.1 dr.2) kept = Ok outs ->
  sum_of terminal (concat outs) = 0 /\ 0 <= sum_of samples (concat outs) /\
  (existsb is_delivery (concat outs) = false -> kept <> [] -> 1 <= sum_of samples (concat outs)).
Proof.
  intros Hm%result_map_ok. induction Hm as [|[d0 r0] os kept outs Hd _ (IH1 & IH2 & IH3)]; [by split_and!|].
  cbn in *. destruct (deliver_counts _ _ _ _ _ _ Hd) as (H1' & H2' & H3').
  rewrite !sum_of_app, H1', IH1, existsb_app. split_and!; [done | lia |].
  intros [Hn1 Hn2]%orb_false_iff _. rewrite (H3' Hn1). lia.
Qed.

Lemma deliver_all_inv env l kept log :
  deliver_all opts env l kept = Ok log -> kept <> [] ->
  sum_of terminal log <= 1 /\ 0 <= sum_of samples log /\ 1 <= sum_of terminal log + sum_of samples log /\
  forall d, omap (sent_to d) log =
    omap (fun dr => if String.eqb dr.1 d && negb (should_sample_out dr.2 (label_event_id l) (sampling opts))
                    then Some (delivered_copy opts dr.2 env) else None) kept.
Proof.
  unfold deliver_all. intros (outs & Ho & [= <-])%result_bind_ok Hk.
  destruct (deliver_list_counts _ _ _ _ _ Ho) as (H1' & H2' & H3').
  rewrite !sum_of_app, H1'.
  assert (sum_of terminal [ORouted] = 1 /\ sum_of samples [ORouted] = 0 /\
          sum_of terminal [] = 0 /\ sum_of samples [] = 0) as (E1 & E2 & E3 & E4) by done.
  split_and!.
  1-3: destruct (existsb _ _) eqn:E; rewrite ?E1, ?E2, ?E3, ?E4; try specialize (H3' eq_refl Hk); lia.
  - intros d. rewrite omap_app, (deliver_list_sent _ _ _ _ _ d Ho).
    destruct (existsb _ _); cbn; by rewrite app_nil_r.
Qed.

(** At most one of the pairs goes to [d], since the destinations are distinct. *)
Lemma omap_one {B} (f : string * compiled_route -> option B) d (kept : list (string * compiled_route)) :
  NoDup (kept.*1) -> (forall dr b, f dr = Some b -> dr.1 = d) -> (length (omap f kept) <= 1)%nat.
Proof.
  intros Hnd Hf. induction kept as [|[d0 r0] kept IH]; cbn; [lia|].
  cbn in Hnd. apply NoDup_cons in Hnd as [Hfresh Hnd]. destruct (f (d0, r0)) eqn:E; [|by apply IH].
  apply Hf in E. cbn in E. subst d0. cbn.
  assert (omap f kept = []) as ->; [|cbn; lia].
  clear IH Hnd. induction kept as [|[d1 r1] kept IH]; cbn; [done|]. cbn in Hfresh.
  destruct (f (d1, r1)) eqn:E; [apply Hf in E; cbn in E; subst; set_solver | apply IH; set_solver].
Qed.

(** ** Filtering the chosen destinations *)

Lemma residency_split_spec geo chosen kept blocked :
  residency_split opts geo chosen = Ok (kept, blocked) ->
  kept `sublist_of` chosen /\
  forall d r, (d, r) ∈ kept ->
    residency_conflict (default None (dict_get d (destination_residency opts))) geo = Ok false.
Proof.
  revert kept blocked. induction chosen as [|[d0 r0] rest IH]; intros kept blocked; cbn.
  - intros [= <- <-]. split; [constructor | set_solver].
  - intros (b & Hb & ([k bl] & Hs & Heq)%result_bind_ok)%result_bind_ok.
    destruct (IH _ _ Hs) as [Hsub Hres]. destruct b; injection Heq as <- <-.
    + split; [by apply sublist_cons | done].
    + split; [by apply sublist_skip|]. intros d r [[= -> ->]|Hin]%elem_of_cons; [done | by eapply Hres].
Qed.

Definition event_geo l : pyval := py_or (dget "data_geography" l) PNone.

Lemma kept_spec l assigned kept blocked :
  enforce_residency opts l (drop_loops opts l (choose_routes assigned)) = Ok (kept, blocked) ->
  NoDup (kept.*1) /\
  forall d r, (d, r) ∈ kept ->
    (d, r) ∈ assigned /\
    (redaction r = [] -> forall r', (d, r') ∈ assigned -> redaction r' = []) /\
    (source_is_wazuh l = true -> d ∉ wazuh_loop_destination_ids opts) /\
    (destination_residency opts <> [] ->
     residency_conflict (default None (dict_get d (destination_residency opts))) (event_geo l) = Ok false).
Proof.
  intros He.
  assert (kept `sublist_of` drop_loops opts l (choose_routes assigned) /\
    forall d r, (d, r) ∈ kept -> destination_residency opts <> [] ->
      residency_conflict (default None (dict_get d (destination_residency opts))) (event_geo l) = Ok false) as [Hsub Hres].
  { unfold enforce_residency in He. destruct (destination_residency opts) eqn:E.
    - injection He as <- <-. by split.
    - rewrite <- E in *. apply residency_split_spec in He as [Hsub Hres]. split; [done|]. eauto. }
  assert (drop_loops opts l (choose_routes assigned) `sublist_of` choose_routes assigned) as Hloop.
  { unfold drop_loops. destruct (source_is_wazuh l); [apply sublist_filter | done]. }
  split.
  - eapply sublist_NoDup; [apply choose_routes_wf|]. unfold dict_keys. apply fmap_sublist. by etrans.
  - intros d r Hin. assert ((d, r) ∈ drop_loops opts l (choose_routes assigned)) as Hdl by by eapply elem_of_sublist.
    destruct (choose_routes_spec assigned d r) as [? ?]; [by eapply elem_of_sublist|].
    split_and!; try done; [|by eapply Hres].
    intros Hw. unfold drop_loops in Hdl. rewrite Hw in Hdl. apply list_elem_of_filter in Hdl as [Hl _].
    unfold in_loop in Hl. cbn in Hl. by apply bool_decide_eq_false in Hl.
Qed.

(** ** One event *)

Lemma hits_applicable l ordered r : r ∈ hits l ordered -> r ∈ ordered /\ applicable l r = true.
Proof.
  unfold hits. intros Hin.
  assert (r ∈ filter (fun r => applicable l r = true) ordered) as Hf.
  { revert Hin. generalize (filter (fun r => applicable l r = true) ordered) as xs.
    induction xs as [|x xs IH]; cbn; [done|]. destruct (stops x); set_solver. }
  apply list_elem_of_filter in Hf as [? ?]. done.
Qed.

Lemma assignments_elem l ordered d r :
  (d, r) ∈ assignments (evaluate_event l ordered) ->
  r ∈ ordered /\ applicable l r = true /\ d ∈ destination_ids r.
Proof.
  rewrite evaluate_event_spec. unfold spec_event. cbv zeta. destruct (List.find _ _); cbn; [set_solver|].
  intros (r' & Hin & Hr')%list_elem_of_bind. unfold assign in Hin.
  apply list_elem_of_fmap in Hin as (d' & [= -> ->] & Hd).
  apply hits_applicable in Hr' as [? ?]. done.
Qed.

Lemma matched_neutral (ids : gset string) : Forall neutral (OMatched <$> elements ids).
Proof. apply Forall_fmap, Forall_forall. neutral. Qed.

Lemma route_event_inv ordered env log :
  route_event opts ordered env = Ok log ->
  let l := event_labels env in
  let dec := evaluate_event l ordered in
  exists pre log', log = pre ++ log' /\ Forall neutral pre /\
    ((exists bytes, er_dropped dec = true /\ Forall neutral bytes /\
        log' = ODropped env (default "" (drop_route_id dec)) :: bytes) \/
     (exists reason, er_dropped dec = false /\ log' = no_destination opts env l reason) \/
     (exists kept blocked, er_dropped dec = false /\ kept <> [] /\
        enforce_residency opts l (drop_loops opts l (choose_routes (assignments dec))) = Ok (kept, blocked) /\
        deliver_all opts env l kept = Ok log')).
Proof.
  intros Hr l dec. unfold route_event in Hr. fold l dec in Hr.
  pose proof (matched_neutral (matched_route_ids dec)) as Hm.
  destruct (er_dropped dec).
  - apply result_bind_ok in Hr as (bytes & Hb & [= <-]). eexists _, _. split_and!; [done..|].
    left. exists bytes. split_and!; try done.
    destruct (measure_drop_bytes opts); [|injection Hb as <-; apply Forall_nil_2].
    eapply org_outcome_neutral; [|exact Hb]. neutral.
  - destruct (assignments dec) as [|a0 rest] eqn:Ea.
    { injection Hr as <-. eexists _, _. split_and!; [done..|]. right; left. by eexists. }
    apply result_bind_ok in Hr as ([kept blocked] & He & Hr).
    assert (Forall neutral ((OMatched <$> elements (matched_route_ids dec)) ++ (OResidencyBlocked env <$> blocked))) as Hpre.
    { apply Forall_app. split; [done|]. apply Forall_fmap, Forall_forall. neutral. }
    destruct kept as [|k0 kept].
    + injection Hr as <-. eexists _, _. split_and!; [done..|]. right; left. by eexists.
    + apply result_bind_ok in Hr as (log' & Hd & [= <-]). eexists _, _. split_and!; [done..|].
      right; right. by exists (k0 :: kept), blocked.
Qed.

Lemma no_destination_counts env l reason :
  sum_of terminal (no_destination opts env l reason) = 1 /\
  sum_of samples (no_destination opts env l reason) = 0.
Proof.
  unfold no_destination. destruct (_ && _)%bool; [done|]. by destruct (fallback_destination_id opts).
Qed.

Lemma no_destination_sent env l reason d e :
  e ∈ omap (sent_to d) (no_destination opts env l reason) ->
  e = env /\ fallback_destination_id opts = Some d /\
  (source_is_wazuh l = true -> d ∉ wazuh_loop_destination_ids opts).
Proof.
  unfold no_destination. destruct (fallback_destination_id opts) as [fb|]; cbn;
    [|destruct (source_is_wazuh l); cbn; set_solver].
  destruct (source_is_wazuh l && in_loop opts fb) eqn:E; cbn; [set_solver|].
  destruct (String.eqb_spec fb d) as [->|]; [|set_solver].
  intros ->%list_elem_of_singleton. split_and!; [done..|]. intros Hw. rewrite Hw in E. cbn in E.
  unfold in_loop in E. by apply bool_decide_eq_false in E.
Qed.

(** The accounting of one event. *)
Lemma route_event_counts ordered env log :
  route_event opts ordered env = Ok log ->
  sum_of terminal log <= 1 /\ 0 <= sum_of samples log /\ 1 <= sum_of terminal log + sum_of samples log.
Proof.
  intros (pre & log' & -> & Hpre & Hcase)%route_event_inv.
  destruct (sum_of_neutral _ Hpre) as [E1 E2]. rewrite !sum_of_app, E1, E2.
  destruct Hcase as [(bytes & _ & Hb & ->)|[(reason & _ & ->)|(kept & blocked & _ & Hk & _ & Hd)]].
  - destruct (sum_of_neutral _ Hb) as [E3 E4]. rewrite !sum_of_cons, E3, E4. cbn. lia.
  - destruct (no_destination_counts env (event_labels env) reason) as [-> ->]. lia.
  - destruct (deliver_all_inv _ _ _ _ Hd Hk) as (H1' & H2' & H3' & _). lia.
Qed.

(** What one event sends to [d]: at most one copy, with its justification. *)
Lemma route_event_sent ordered env log d :
  route_event opts ordered env = Ok log ->
  let l := event_labels env in
  (length (omap (sent_to d) log) <= 1)%nat /\
  forall e, e ∈ omap (sent_to d) log ->
    (source_is_wazuh l = true -> d ∉ wazuh_loop_destination_ids opts) /\
    ((e = env /\ fallback_destination_id opts = Some d) \/
     (exists r, (d, r) ∈ assignments (evaluate_event l ordered) /\
        should_sample_out r (label_event_id l) (sampling opts) = false /\
        e = delivered_copy opts r env /\
        (redaction r = [] ->
         forall r', (d, r') ∈ assignments (evaluate_event l ordered) -> redaction r' = []) /\
        (destination_residency opts <> [] ->
         residency_conflict (default None (dict_get d (destination_residency opts))) (event_geo l) = Ok false))).
Proof.
  intros (pre & log' & -> & Hpre & Hcase)%route_event_inv l.
  rewrite omap_app, (sent_neutral d _ Hpre). cbn [app].
  destruct Hcase as [(bytes & _ & Hb & ->)|[(reason & _ & ->)|(kept & blocked & _ & Hk & He & Hd)]].
  - cbn. rewrite (sent_neutral d _ Hb). cbn. split; [lia | set_solver].
  - split.
    + unfold no_destination. destruct (fallback_destination_id opts); cbn;
        destruct (source_is_wazuh _); cbn; try (destruct (in_loop opts s); cbn);
        try destruct (String.eqb _ _); cbn; lia.
    + intros e (-> & Hfb & Hw)%no_destination_sent. split; [done|]. by left.
  - destruct (deliver_all_inv _ _ _ _ Hd Hk) as (_ & _ & _ & Hs). rewrite Hs.
    destruct (kept_spec _ _ _ _ He) as [Hnd Hkept]. split.
    + apply (omap_one _ d); [done|]. intros [d' r'] b. cbn.
      destruct (String.eqb_spec d' d); [done | by destruct (should_sample_out _ _ _)].
    + intros e ([d' r] & Hin & Hr)%list_elem_of_omap. cbn in Hr.
      destruct (String.eqb_spec d' d) as [->|]; [|done].
      destruct (should_sample_out r _ _) eqn:Eso; [done|]. cbn in Hr. injection Hr as <-.
      destruct (Hkept _ _ Hin) as (Ha & Hred & Hw & Hres). split; [done|]. right. exists r. by split_and!.
Qed.

(** ** The batch *)

Lemma route_batch_inv batch routes b :
  route_batch opts batch routes = Ok b ->
  exists logs, Forall2 (fun env log => route_event opts (order_routes routes) env = Ok log) batch logs /\
    b = foldl apply_outcome empty_batch (concat logs).
Proof. intros (logs & Hl%result_map_ok & [= <-])%result_bind_ok. by exists logs. Qed.

Lemma batch_counts batch logs ordered :
  Forall2 (fun env log => route_event opts ordered env = Ok log) batch logs ->
  sum_of terminal (concat logs) <= Z.of_nat (length batch) /\
  0 <= sum_of samples (concat logs) /\
  Z.of_nat (length batch) <= sum_of terminal (concat logs) + sum_of samples (concat logs).
Proof.
  induction 1 as [|env log batch logs He _ IH]; [done|].
  cbn [concat length]. rewrite !sum_of_app. apply route_event_counts in He. lia.
Qed.

Lemma unsampled_log ordered env log :
  (forall r eid, should_sample_out r eid (sampling opts) = false) ->
  route_event opts ordered env = Ok log -> sum_of samples log = 0.
Proof.
  intros Hoff (pre & log' & -> & Hpre & Hcase)%route_event_inv.
  destruct (sum_of_neutral _ Hpre) as [_ E2]. rewrite !sum_of_app, E2.
  destruct Hcase as [(bytes & _ & Hb & ->)|[(reason & _ & ->)|(kept & blocked & _ & _ & _ & Hd)]].
  - destruct (sum_of_neutral _ Hb) as [_ E3]. rewrite sum_of_cons, E3. done.
  - destruct (no_destination_counts env (event_labels env) reason) as [_ ->]. done.
  - unfold deliver_all in Hd. apply result_bind_ok in Hd as (outs & Ho & [= <-]).
    assert (sum_of samples (concat outs) = 0) as E.
    { apply result_map_ok in Ho. induction Ho as [|[d r] os kept outs Hdl _ IH]; [done|].
      cbn [concat]. rewrite sum_of_app, IH.
      apply deliver_inv in Hdl as (p & Hp & [[Hs _]|[_ ->]]); [by rewrite Hoff in Hs|].
      destruct (sum_of_neutral _ Hp) as [_ E3]. rewrite sum_of_app, E3. done. }
    rewrite sum_of_app, E. by destruct (existsb _ _).
Qed.

Definition sampling_off : Prop :=
  match sampling opts with None => True | Some cfg => sampling_enabled cfg = false end.

(** [counters_add_up].  When [route_batch] returns, every
    event of the batch is accounted for: the counters [routed], [dropped],
    [fallback], [unrouted] and [loop_blocked] add up to the size of the batch,
    short by at most the number of (event, destination) pairs the sampling
    lever removed and recorded; with sampling off they add up exactly. *)
Theorem counters_add_up batch routes b :
  route_batch opts batch routes = Ok b ->
  accounted b <= Z.of_nat (length batch) <= accounted b + sampled b /\
  (sampling_off -> accounted b = Z.of_nat (length batch)).
Proof.
  intros (logs & Hl & ->)%route_batch_inv.
  destruct (apply_outcomes_counts (concat logs) empty_batch) as [-> ->].
  assert (accounted empty_batch = 0 /\ sampled empty_batch = 0) as [-> ->] by done.
  destruct (batch_counts _ _ _ Hl) as (H1' & H2' & H3'). split; [lia|].
  intros Hoff. cut (sum_of samples (concat logs) = 0); [lia|].
  clear H1' H2' H3'. induction Hl as [|env log batch logs He _ IH]; [done|].
  cbn [concat]. rewrite sum_of_app, IH. cut (sum_of samples log = 0); [lia|].
  eapply unsampled_log; [|exact He]. intros r eid. unfold sampling_off in Hoff. unfold should_sample_out.
  destruct (sampling opts) as [cfg|]; [by rewrite Hoff | done].
Qed.

Lemma sub_batch_sent batch routes b d e :
  route_batch opts batch routes = Ok b -> e ∈ sub_batch b d ->
  exists env log, env ∈ batch /\ route_event opts (order_routes routes) env = Ok log /\
    e ∈ omap (sent_to d) log.
Proof.
  intros (logs & Hl & ->)%route_batch_inv. rewrite apply_outcomes_sub. cbn.
  intros He. change (e ∈ omap (sent_to d) (concat logs)) in He.
  induction Hl as [|env log batch logs Hev _ IH]; [by apply elem_of_nil in He|].
  cbn in He. rewrite omap_app in He. apply elem_of_app in He as [He|He].
  - exists env, log. split_and!; [left | done | done].
  - destruct (IH He) as (env' & log' & ? & ? & ?). exists env', log'. split_and!; [by right | done | done].
Qed.

(** [delivery_justified] (nothing is delivered without a reason).  Every
    envelope of the sub-batch of a destination is the copy that some enabled
    route, matching the event and inside its canary, makes for that
    destination and has not sampled out, or the untouched event sent to the
    configured fallback. *)
Theorem delivery_justified batch routes b d e :
  route_batch opts batch routes = Ok b -> e ∈ sub_batch b d ->
  exists env, env ∈ batch /\
    ((e = env /\ fallback_destination_id opts = Some d) \/
     (exists r, r ∈ routes /\ applicable (event_labels env) r = true /\ d ∈ destination_ids r /\
        should_sample_out r (label_event_id (event_labels env)) (sampling opts) = false /\
        e = delivered_copy opts r env)).
Proof.
  intros Hb He. destruct (sub_batch_sent _ _ _ _ _ Hb He) as (env & log & Hin & Hev & Hs).
  destruct (route_event_sent _ _ _ d Hev) as [_ Hj].
  destruct (Hj e Hs) as (_ & [Hfb|(r & Ha & Hso & -> & _)]); exists env; (split; [done|]); [by left|right].
  destruct (assignments_elem _ _ _ _ Ha) as (Hr & Hap & Hd).
  exists r. split_and!; try done. by apply order_routes_elem.
Qed.

(** [one_copy_per_destination] (deduplication).  However many routes name
    a destination, and however often, it receives at most one copy of each
    event. *)
Theorem one_copy_per_destination batch routes b d :
  route_batch opts batch routes = Ok b -> (length (sub_batch b d) <= length batch)%nat.
Proof.
  intros (logs & Hl & ->)%route_batch_inv. rewrite apply_outcomes_sub. cbn.
  change (length (omap (sent_to d) (concat logs)) <= length batch)%nat.
  induction Hl as [|env log batch logs Hev _ IH]; [done|].
  cbn. rewrite omap_app, length_app. destruct (route_event_sent _ _ _ d Hev) as [H1' _]. cbn in *. lia.
Qed.

(** [no_wazuh_loop] (anti-loop).  An event collected from Wazuh is never in
    the sub-batch of a destination that delivers back to the manager, neither
    through a route nor through the fallback. *)
Theorem no_wazuh_loop batch routes b d e :
  route_batch opts batch routes = Ok b -> e ∈ sub_batch b d ->
  d ∈ wazuh_loop_destination_ids opts ->
  exists env, env ∈ batch /\ source_is_wazuh (event_labels env) = false /\
    (e = env \/ exists r, r ∈ routes /\ e = delivered_copy opts r env).
Proof.
  intros Hb He Hloop. destruct (sub_batch_sent _ _ _ _ _ Hb He) as (env & log & Hin & Hev & Hs).
  destruct (route_event_sent _ _ _ d Hev) as [_ Hj]. destruct (Hj e Hs) as (Hw & Hc).
  exists env. split; [done|]. split; [destruct (source_is_wazuh _); [by destruct (Hw eq_refl) | done]|].
  destruct Hc as [[-> _]|(r & Ha & _ & -> & _)]; [by left | right].
  exists r. split; [|done]. apply assignments_elem in Ha as [? _]. by apply order_routes_elem.
Qed.

(** [residency_respected] (data residency).  With residency enforcement
    configured, a copy reaches a destination through a route only when the
    destination's zone does not conflict with the geography of the event; only
    the fallback is exempt. *)
Theorem residency_respected ordered env log d e :
  route_event opts ordered env = Ok log ->
  destination_residency opts <> [] ->
  e ∈ omap (sent_to d) log ->
  (e = env /\ fallback_destination_id opts = Some d) \/
  residency_conflict (default None (dict_get d (destination_residency opts)))
    (event_geo (event_labels env)) = Ok false.
Proof.
  intros Hev Hres He. destruct (route_event_sent _ _ _ d Hev) as [_ Hj].
  destruct (Hj e He) as (_ & [Hfb|(r & _ & _ & _ & _ & Hc)]); [by left | right]. by apply Hc.
Qed.
End safety.

(** ** Order and fidelity *)

Section fidelity.
Context `{FloatRepr} `{Sha256} `{Sha1} `{EnvelopeBytes}.
Context (opts : routing_options).

Lemma result_map_app {A B} (f : A -> result B) xs ys us vs :
  result_map f xs = Ok us -> result_map f ys = Ok vs -> result_map f (xs ++ ys) = Ok (us ++ vs).
Proof. rewrite !result_map_ok. apply Forall2_app. Qed.

(** [route_batch_app] (order is preserved).  Routing two consecutive batches
    as one gives, for every destination, the first sub-batch followed by the
    second: a destination sees its events in collection order, and no event
    influences the routing of another. *)
Theorem route_batch_app xs ys routes bx by_ :
  route_batch opts xs routes = Ok bx -> route_batch opts ys routes = Ok by_ ->
  exists b, route_batch opts (xs ++ ys) routes = Ok b /\
    accounted b = accounted bx + accounted by_ /\
    forall d, sub_batch b d = sub_batch bx d ++ sub_batch by_ d.
Proof.
  unfold route_batch. intros (lx & Hx & [= <-])%result_bind_ok (ly & Hy & [= <-])%result_bind_ok.
  rewrite (result_map_app _ _ _ _ _ Hx Hy). eexists. split; [done|].
  rewrite concat_app.
  destruct (apply_outcomes_counts (concat lx ++ concat ly) empty_batch) as [-> _].
  destruct (apply_outcomes_counts (concat lx) empty_batch) as [-> _].
  destruct (apply_outcomes_counts (concat ly) empty_batch) as [-> _].
  assert (accounted empty_batch = 0) as -> by done. rewrite sum_of_app. split; [lia|].
  intros d. rewrite !apply_outcomes_sub, omap_app. done.
Qed.

(** [detection_route_full_fidelity] (detection fail-safe).  While the
    fail-safe is enforced, a route that feeds detection samples nothing out and,
    unless it redacts, delivers the event itself: no sample-rate label, no
    [raw] block dropped. *)
Theorem detection_route_full_fidelity r env eid :
  protect_detection r = true ->
  (forall cfg, sampling opts = Some cfg -> protect_detection_enforced cfg = true) ->
  should_sample_out r eid (sampling opts) = false /\
  (redaction r = [] -> delivered_copy opts r env = env) /\
  (redaction r <> [] ->
   delivered_copy opts r env = default env (apply_pii_redaction env (redaction r))).
Proof.
  intros Hp Henf. unfold should_sample_out, delivered_copy, redacted_copy, raw_dropped, is_sampled_route.
  rewrite Hp, andb_false_r. cbn.
  destruct (sampling opts) as [cfg|].
  - rewrite (Henf cfg eq_refl). cbn. rewrite andb_false_r. split_and!.
    + by destruct (_ || _)%bool.
    + by intros ->.
    + by destruct (redaction r).
  - split_and!; [done | by intros -> | by destruct (redaction r)].
Qed.

(** [raw_drop_is_marked].  A copy that lost its [raw] block says so: the
    block is gone, [_centralops.raw_dropped] is true and every other top-level
    key of the copy is the one the route would have delivered. *)
Theorem raw_drop_is_marked r env out :
  raw_dropped r (redacted_copy opts r env) = Some out ->
  protect_detection r = false /\ dict_has "raw" (redacted_copy opts r env) = true /\
  dict_get "raw" out = None /\
  dict_get "raw_dropped" (event_labels out) = Some (PBool true) /\
  forall k, k <> "raw" -> k <> "_centralops" ->
    dict_get k out = dict_get k (redacted_copy opts r env).
Proof.
  unfold raw_dropped. destruct (drop_raw r); [|done].
  destruct (protect_detection r); [done|]. cbn. unfold without_raw. intros Hr.
  destruct (dict_has "raw" _); [injection Hr as <- | done].
  split_and!; [done..| | |].
  - by autorewrite with cops.
  - unfold event_labels, dget. autorewrite with cops. cbn. by autorewrite with cops.
  - intros k H1' H2'. by autorewrite with cops.
Qed.
End fidelity.

Section canary.
Context `{Sha1}.

(** [canary_monotone] (gradual cutover).  The canary is a threshold on a
    bucket in 0..99 that depends only on the event id: raising the percentage
    never moves an event out of the canary, 100 takes every event, 0 none. *)
Theorem canary_monotone p q event_id :
  p <= q -> canary_pass p event_id = true -> canary_pass q event_id = true.
Proof.
  unfold canary_pass. intros Hpq Hp.
  destruct (Z.leb_spec 100 q); [done|].
  destruct (Z.leb_spec 100 p); [lia|].
  destruct (Z.leb_spec p 0); [done|].
  destruct (Z.leb_spec q 0); [lia|].
  apply Z.ltb_lt in Hp. apply Z.ltb_lt. lia.
Qed.

Lemma canary_bucket_range event_id : 0 <= canary_bucket event_id < 100.
Proof. unfold canary_bucket. by apply Z.mod_pos_bound. Qed.
End canary.

(** ** Deterministic order *)

(** The sort key: priority, then id. *)
Definition route_key_lt (r s : compiled_route) : Prop :=
  priority r < priority s \/
  (priority r = priority s /\ String.compare (route_id r) (route_id s) = Lt).

Lemma route_key_lt_trans r s t : route_key_lt r s -> route_key_lt s t -> route_key_lt r t.
Proof.
  unfold route_key_lt. intros [?|[E1 H1]] [?|[E2 H2]]; [left; lia..|right].
  split; [congruence | by eapply string_compare_lt_trans].
Qed.

Lemma route_leb_lt r s : route_id r <> route_id s -> route_leb r s = true <-> route_key_lt r s.
Proof.
  unfold route_leb, route_key_lt. intros Hne.
  assert (String.compare (route_id r) (route_id s) <> Eq) as Hc by (by intros ?%String.compare_eq_iff).
  destruct (Z.compare_spec (priority r) (priority s)) as [E|E|E].
  - destruct (String.compare _ _) eqn:Es; split; try done; try naive_solver lia.
  - naive_solver lia.
  - split; [done | lia].
Qed.

Lemma route_leb_not_lt r s : route_id r <> route_id s -> route_leb r s = false <-> route_key_lt s r.
Proof.
  intros Hne. split.
  - intros Hf. apply route_leb_lt; [done|]. unfold route_leb in *.
    rewrite (Z.compare_antisym (priority r) (priority s)).
    rewrite (String.compare_antisym (route_id s)).
    destruct (priority r ?= priority s); cbn; try done.
    by destruct (String.compare (route_id r) (route_id s)).
  - intros Hlt. destruct (route_leb r s) eqn:E; [|done]. apply route_leb_lt in E; [|done].
    exfalso. unfold route_key_lt in *. destruct Hlt as [?|[? H1]], E as [?|[? H2]]; try lia.
    rewrite String.compare_antisym, H2 in H1. done.
Qed.

Lemma insert_route_comm x y l :
  NoDup (route_id <$> x :: y :: l) -> insert_route x (insert_route y l) = insert_route y (insert_route x l).
Proof.
  assert (forall l, NoDup (route_id <$> x :: y :: l) -> forall a, a ∈ l ->
    route_id x <> route_id a /\ route_id y <> route_id a) as Hids.
  { intros k Hnd a Ha. cbn in Hnd. apply NoDup_cons in Hnd as [Hx Hnd]. apply NoDup_cons in Hnd as [Hy _].
    apply (list_elem_of_fmap_2 route_id) in Ha. split; intros E; rewrite <- E in Ha; set_solver. }
  induction l as [|a l IH]; intros Hnd.
  - assert (route_id x <> route_id y) as Hxy by (cbn in Hnd; apply NoDup_cons in Hnd as [? _]; set_solver).
    cbn. destruct (route_leb x y) eqn:Exy, (route_leb y x) eqn:Eyx; try done.
    + apply route_leb_lt, route_leb_not_lt in Exy; congruence.
    + apply route_leb_not_lt, route_leb_lt in Exy; congruence.
  - assert (route_id x <> route_id y) as Hxy by (cbn in Hnd; apply NoDup_cons in Hnd as [? _]; set_solver).
    destruct (Hids _ Hnd a) as [Hxa Hya]; [left|].
    assert (NoDup (route_id <$> x :: y :: l)) as Hnd'.
    { eapply sublist_NoDup; [exact Hnd|]. apply (fmap_sublist route_id). repeat apply sublist_skip. by apply sublist_cons. }
    cbn. destruct (route_leb x a) eqn:Exa, (route_leb y a) eqn:Eya; cbn;
      rewrite ?Exa, ?Eya; try (by rewrite IH).
    + destruct (route_leb x y) eqn:Exy, (route_leb y x) eqn:Eyx; rewrite ?Exa, ?Eya; try done.
      * apply route_leb_lt, route_leb_not_lt in Exy; congruence.
      * apply route_leb_not_lt, route_leb_lt in Exy; congruence.
    + assert (route_leb y x = false) as ->; [|done].
      apply route_leb_lt in Exa; [|done]. apply route_leb_not_lt in Eya; [|done].
      apply route_leb_not_lt; [done|]. by eapply route_key_lt_trans.
    + assert (route_leb x y = false) as ->; [|done].
      apply route_leb_not_lt in Exa; [|done]. apply route_leb_lt in Eya; [|done].
      apply route_leb_not_lt; [done|]. by eapply route_key_lt_trans.
Qed.

(** [order_routes_deterministic].  Evaluation order depends on the priorities
    and ids alone: in whatever order the store returns routes with distinct ids,
    [order_routes] produces the same list. *)
Theorem order_routes_deterministic routes routes' :
  routes ≡ₚ routes' -> NoDup (route_id <$> routes) -> order_routes routes = order_routes routes'.
Proof.
  unfold order_routes. induction 1 as [|r l l' Hp IH|x y l|l1 l2 l3 Hp1 IH1 Hp2 IH2]; intros Hnd; cbn.
  - done.
  - cbn in Hnd. apply NoDup_cons in Hnd as [_ Hnd]. by rewrite IH.
  - fold (order_routes l). apply insert_route_comm.
    eapply NoDup_Permutation_proper; [|exact Hnd].
    apply (fmap_Permutation route_id). by rewrite order_routes_perm.
  - rewrite IH1 by done. apply IH2. by eapply NoDup_Permutation_proper; [symmetry; apply fmap_Permutation|].
Qed.

(** ** Closed examples *)

Section examples.
#[local] Existing Instance demo_float_repr.
#[local] Existing Instance demo_sha256.
#[local] Instance demo_sha1 : Sha1 := fun s => if String.eqb s "e1" then "0000002a" else "00000001".
#[local] Instance demo_bytes : EnvelopeBytes := fun env => 10 * Z.of_nat (length env).

Definition ex_route (id : string) (prio : Z) (c : condition) (dests : list string)
    (rules : list redaction_rule) (protect : bool) (sample : Z) (no_raw : bool) : compiled_route :=
  CompiledRoute id id prio c ACTION_ROUTE dests false true 100 protect sample None 0 30 rules no_raw.
Definition siem_masked := ex_route "masked" 2 [("vendor", PStr "sophos")] ["siem"] demo_rules true 100 false.
Definition siem_clear := ex_route "clear" 1 [] ["siem"; "lake"] [] false 100 true.
Definition ex_routes : list compiled_route := [siem_masked; siem_clear].

Definition ex_opts : routing_options :=
  RoutingOptions (Some "lake") [("siem", Some "EU")] {[ "wazuh" ]}
    (Some (SamplingConfig false true)) true.

Definition ex_event (id vendor geo : string) : envelope :=
  [("_centralops", PDict [("event_id", PStr id); ("vendor", PStr vendor);
                          ("platform", PStr vendor);
                          ("organization_id", PInt 7); ("data_geography", PStr geo)]);
   ("raw", PDict [("user", PDict [("email", PStr "a@b.c")])])].
Definition ex_batch : list envelope := [ex_event "e1" "sophos" "eu"; ex_event "e2" "okta" "US"].

Definition run (batch : list envelope) : batch_routing :=
  match route_batch ex_opts batch ex_routes with Ok b => b | Raise _ => empty_batch end.
Definition run_event (env : envelope) : list outcome :=
  match route_event ex_opts (order_routes ex_routes) env with Ok log => log | Raise _ => [] end.

Lemma run_ok : route_batch ex_opts ex_batch ex_routes = Ok (run ex_batch).
Proof. vm_compute. reflexivity. Qed.
Lemma run_event_ok : route_event ex_opts (order_routes ex_routes) (ex_event "e1" "sophos" "eu")
  = Ok (run_event (ex_event "e1" "sophos" "eu")).
Proof. vm_compute. reflexivity. Qed.

Lemma counters_add_up_witness : accounted (run ex_batch) = Z.of_nat (length ex_batch).
Proof. apply (counters_add_up ex_opts ex_batch ex_routes _ run_ok). reflexivity. Defined.

Lemma delivery_justified_witness :
  let e := default [] (head (sub_batch (run ex_batch) "lake")) in
  exists env, env ∈ ex_batch /\
    ((e = env /\ fallback_destination_id ex_opts = Some "lake") \/
     (exists r, r ∈ ex_routes /\ applicable (event_labels env) r = true /\ "lake" ∈ destination_ids r /\
        should_sample_out r (label_event_id (event_labels env)) (sampling ex_opts) = false /\
        e = delivered_copy ex_opts r env)).
Proof.
  apply (delivery_justified ex_opts ex_batch ex_routes (run ex_batch) "lake"); [exact run_ok | vm_compute; left].
Defined.

Lemma one_copy_per_destination_witness :
  length (sub_batch (run ex_batch) "lake") = 2%nat /\
  (length (sub_batch (run ex_batch) "lake") <= length ex_batch)%nat.
Proof. split; [reflexivity|]. apply (one_copy_per_destination ex_opts ex_batch ex_routes _ _ run_ok). Defined.

Definition loop_opts : routing_options :=
  RoutingOptions None [] {[ "lake" ]} None false.
Lemma no_wazuh_loop_witness :
  exists env, env ∈ ex_batch /\ source_is_wazuh (event_labels env) = false.
Proof.
  destruct (no_wazuh_loop loop_opts ex_batch ex_routes
              (match route_batch loop_opts ex_batch ex_routes with Ok b => b | Raise _ => empty_batch end)
              "lake" (delivered_copy loop_opts siem_clear (ex_event "e1" "sophos" "eu")))
    as (env & Hin & Hw & _); [vm_compute; reflexivity | vm_compute; left | |].
  - apply (bool_decide_unpack _). vm_compute. exact I.
  - exists env. split; [exact Hin | exact Hw].
Defined.

Lemma residency_respected_witness :
  residency_conflict (Some "EU") (PStr "eu") = Ok false /\
  forall e, e ∈ omap (sent_to "siem") (run_event (ex_event "e1" "sophos" "eu")) ->
    (e = ex_event "e1" "sophos" "eu" /\ Some "lake" = Some "siem") \/
    residency_conflict (Some "EU") (PStr "eu") = Ok false.
Proof.
  split; [reflexivity|]. intros e He.
  exact (residency_respected ex_opts _ _ _ "siem" e run_event_ok ltac:(discriminate) He).
Defined.

Lemma route_batch_app_witness :
  exists b, route_batch ex_opts ([ex_event "e1" "sophos" "eu"] ++ [ex_event "e2" "okta" "US"]) ex_routes = Ok b.
Proof.
  destruct (route_batch_app ex_opts [ex_event "e1" "sophos" "eu"] [ex_event "e2" "okta" "US"] ex_routes
              (run [ex_event "e1" "sophos" "eu"]) (run [ex_event "e2" "okta" "US"])) as (b & Hb & _);
    [vm_compute; reflexivity | vm_compute; reflexivity |].
  exists b. exact Hb.
Defined.

Lemma detection_route_full_fidelity_witness :
  should_sample_out (ex_route "p" 1 [] ["siem"] [] true 10 true) "e1"
    (sampling (RoutingOptions None [] ∅ (Some (SamplingConfig true true)) true)) = false.
Proof.
  apply (detection_route_full_fidelity (RoutingOptions None [] ∅ (Some (SamplingConfig true true)) true)
           (ex_route "p" 1 [] ["siem"] [] true 10 true) [] "e1"); [reflexivity|].
  intros cfg [= <-]. reflexivity.
Defined.

Lemma raw_drop_is_marked_witness :
  exists out, raw_dropped siem_clear (redacted_copy ex_opts siem_clear (ex_event "e1" "sophos" "eu")) = Some out /\
    dict_get "raw" out = None.
Proof.
  eexists. split; [reflexivity|].
  apply (raw_drop_is_marked ex_opts siem_clear (ex_event "e1" "sophos" "eu")). reflexivity.
Defined.

Lemma canary_monotone_witness :
  canary_pass 43 "e1" = true /\ canary_pass 42 "e1" = false /\ canary_pass 50 "e1" = true.
Proof.
  split; [reflexivity|]. split; [reflexivity|]. apply (canary_monotone 43 50); [lia | reflexivity].
Defined.

Lemma order_routes_deterministic_witness :
  order_routes [siem_clear; siem_masked] = order_routes [siem_masked; siem_clear].
Proof.
  apply order_routes_deterministic; [apply Permutation_swap|].
  apply (bool_decide_unpack _). vm_compute. exact I.
Defined.

(** The fallback is outside residency enforcement: an event whose only
    destination is blocked for its geography is delivered, unredacted, to that
    same destination when it is also the configured fallback. *)
Lemma fallback_ignores_residency :
  let opts := RoutingOptions (Some "siem") [("siem", Some "EU")] ∅ None false in
  let env := ex_event "e1" "sophos" "US" in
  route_event opts [siem_masked] env =
    Ok [OMatched "masked"; OResidencyBlocked env "siem"; OFallback "siem" env] /\
  residency_conflict (Some "EU") (event_geo (event_labels env)) = Ok true.
Proof. by vm_compute. Qed.
End examples.
