(* ===== verification/RoutingFates.v ===== *)
(** * The fate of every event of a batch

    [RoutingSafety] proves what a delivery needs; this file proves that nothing
    else can happen to an event.  A [fate] says how the account of one event is
    closed and what became of it at each destination its routes assign it to;
    [explains] ties a fate to the routes, [recorded] to the result of
    [route_batch], list by list and counter by counter. *)

From S2P Require Import Prelude PyVal Conditions Redaction Routing RoutingProps RoutingSafety.

Local Open Scope string_scope.
Local Open Scope list_scope.
Local Open Scope Z_scope.

(** ** Fates *)

(** At one destination: the copy sent, or why there is none. *)
Inductive dest_fate := Sent (copy : envelope) | SampledOut (rid : string) | ZonedOut | LoopedOut.
(** How the account of the event is closed. *)
Inductive closing :=
| AsRouted | AsSampled | AsDropped (rid : string) | AsFallback (dest : string) | AsUnrouted | AsLooped (reason : string).
Record fate := Fate { at_destinations : list (string * dest_fate); closed : closing }.

Definition is_sent (v : dest_fate) : bool := match v with Sent _ => true | _ => false end.
Definition is_sampled_out (v : dest_fate) : bool := match v with SampledOut _ => true | _ => false end.
Definition is_routed (c : closing) : bool := match c with AsRouted => true | _ => false end.
Definition is_fallback (c : closing) : bool := match c with AsFallback _ => true | _ => false end.

(** The copies an event leaves in the sub-batch of [d]. *)
Definition copies_for (d : string) (x : envelope * fate) : list envelope :=
  omap (fun kv => match kv.2 with Sent e => if String.eqb kv.1 d then Some e else None | _ => None end) (at_destinations x.2)
  ++ match closed x.2 with AsFallback d' => if String.eqb d' d then [x.1] else [] | _ => [] end.
Definition drops_of (x : envelope * fate) : list (envelope * string) :=
  match closed x.2 with AsDropped rid => [(x.1, rid)] | _ => [] end.
Definition unrouted_of (x : envelope * fate) : list envelope := match closed x.2 with AsUnrouted => [x.1] | _ => [] end.
Definition loops_of (x : envelope * fate) : list (envelope * string) :=
  match closed x.2 with AsLooped reason => [(x.1, reason)] | _ => [] end.
Definition samples_of (x : envelope * fate) : list (envelope * string * string) :=
  omap (fun kv => match kv.2 with SampledOut rid => Some (x.1, kv.1, rid) | _ => None end) (at_destinations x.2).
Definition zoned_of (x : envelope * fate) : list (envelope * string) :=
  omap (fun kv => match kv.2 with ZonedOut => Some (x.1, kv.1) | _ => None end) (at_destinations x.2).

(** The record of a batch holds the fates of its events, each where it belongs. *)
Record recorded (batch : list envelope) (fates : list fate) (b : batch_routing) : Prop := {
  rec_sub d : sub_batch b d = zip batch fates ≫= copies_for d;
  rec_routed : routed b = Z.of_nat (length (List.filter (fun f => is_routed (closed f)) fates));
  rec_fallback : fallback b = Z.of_nat (length (List.filter (fun f => is_fallback (closed f)) fates));
  rec_dropped : dropped_events b = zip batch fates ≫= drops_of /\ dropped b = Z.of_nat (length (dropped_events b));
  rec_unrouted : unrouted_events b = zip batch fates ≫= unrouted_of /\ unrouted b = Z.of_nat (length (unrouted_events b));
  rec_looped : loop_blocked_events b = zip batch fates ≫= loops_of /\ loop_blocked b = Z.of_nat (length (loop_blocked_events b));
  rec_sampled : sampled_events b = zip batch fates ≫= samples_of /\ sampled b = Z.of_nat (length (sampled_events b));
  rec_zoned : residency_blocked_events b = zip batch fates ≫= zoned_of /\
    residency_blocked b = Z.of_nat (length (residency_blocked_events b));
}.

(** ** The log of a fate *)

Definition dest_log (env : envelope) (kv : string * dest_fate) : option outcome :=
  match kv.2 with
  | Sent e => Some (ODelivered kv.1 e)
  | SampledOut rid => Some (OSampled env kv.1 rid)
  | ZonedOut => Some (OResidencyBlocked env kv.1)
  | LoopedOut => None
  end.
Definition closing_log (env : envelope) (c : closing) : list outcome :=
  match c with
  | AsRouted => [ORouted]
  | AsSampled => []
  | AsDropped rid => [ODropped env rid]
  | AsFallback d => [OFallback d env]
  | AsUnrouted => [OUnrouted env]
  | AsLooped reason => [OLoopBlocked env reason]
  end.
Definition fate_log (x : envelope * fate) : list outcome :=
  omap (dest_log x.1) (at_destinations x.2) ++ closing_log x.1 (closed x.2).

(** Hits of routes and bytes of organizations say nothing of the event. *)
Definition significant (o : outcome) : bool :=
  match o with OMatched _ | ODropBytes _ _ | OSampledBytes _ _ | ORawDropBytes _ _ => false | _ => true end.
Definition gist (log : list outcome) : list outcome := List.filter significant log.

#[local] Arguments gist : simpl never.

Lemma gist_cons o log : gist (o :: log) = if significant o then o :: gist log else gist log.
Proof. done. Qed.
Lemma gist_app xs ys : gist (xs ++ ys) = gist xs ++ gist ys.
Proof. apply List.filter_app. Qed.
Lemma gist_none xs : Forall (fun o => significant o = false) xs -> gist xs = [].
Proof. induction 1 as [|o xs Ho _ IH]; [done|]. by rewrite gist_cons, Ho. Qed.

(** What the record keeps of an outcome, field by field. *)
Definition kept_drop (o : outcome) := match o with ODropped e rid => Some (e, rid) | _ => None end.
Definition kept_unrouted (o : outcome) := match o with OUnrouted e => Some e | _ => None end.
Definition kept_loop (o : outcome) := match o with OLoopBlocked e reason => Some (e, reason) | _ => None end.
Definition kept_sample (o : outcome) := match o with OSampled e d rid => Some (e, d, rid) | _ => None end.
Definition kept_zoned (o : outcome) := match o with OResidencyBlocked e d => Some (e, d) | _ => None end.
Definition kept_routed (o : outcome) := match o with ORouted => Some tt | _ => None end.
Definition kept_fallback (o : outcome) := match o with OFallback _ _ => Some tt | _ => None end.

Definition count {A} (f : outcome -> option A) (log : list outcome) : Z := Z.of_nat (length (omap f log)).

Lemma count_cons {A} (f : outcome -> option A) o log : count f (o :: log) = (if f o is Some _ then 1 else 0) + count f log.
Proof. unfold count. cbn. destruct (f o); cbn [length]; lia. Qed.

Lemma apply_outcomes_counters log b :
  let b' := foldl apply_outcome b log in
  routed b' = routed b + count kept_routed log /\ fallback b' = fallback b + count kept_fallback log /\
  dropped b' = dropped b + count kept_drop log /\ unrouted b' = unrouted b + count kept_unrouted log /\
  loop_blocked b' = loop_blocked b + count kept_loop log /\ sampled b' = sampled b + count kept_sample log /\
  residency_blocked b' = residency_blocked b + count kept_zoned log.
Proof.
  revert b. induction log as [|o log IH]; intros b; cbn zeta; [unfold count; cbn; lia|]. cbn [foldl].
  destruct (IH (apply_outcome b o)) as (-> & -> & -> & -> & -> & -> & ->). rewrite !count_cons.
  destruct b, o; cbn; lia.
Qed.
Lemma apply_outcomes_lists log b :
  let b' := foldl apply_outcome b log in
  dropped_events b' = dropped_events b ++ omap kept_drop log /\ unrouted_events b' = unrouted_events b ++ omap kept_unrouted log /\
  loop_blocked_events b' = loop_blocked_events b ++ omap kept_loop log /\ sampled_events b' = sampled_events b ++ omap kept_sample log /\
  residency_blocked_events b' = residency_blocked_events b ++ omap kept_zoned log.
Proof.
  revert b. induction log as [|o log IH]; intros b; cbn zeta; [cbn; by rewrite !app_nil_r|]. cbn [foldl].
  destruct (IH (apply_outcome b o)) as (-> & -> & -> & -> & ->). destruct b, o; cbn; by rewrite <- ?app_assoc.
Qed.

(** An observer that ignores what is insignificant reads the logs of the fates. *)
Lemma observe_gist {A} (f : outcome -> option A) log : (forall o, significant o = false -> f o = None) ->
  omap f (gist log) = omap f log.
Proof.
  intros Hf. unfold gist. induction log as [|o log IH]; [done|]. cbn. destruct (significant o) eqn:E; cbn; rewrite IH; [done|]. by rewrite Hf.
Qed.
Lemma observe_fates {A} (f : outcome -> option A) batch fates logs : (forall o, significant o = false -> f o = None) ->
  Forall2 (fun x log => gist log = fate_log x) (zip batch fates) logs ->
  omap f (concat logs) = zip batch fates ≫= (fun x => omap f (fate_log x)).
Proof.
  intros Hf. induction 1 as [|x log xs logs Hl _ IH]; [done|]. cbn [concat mbind list_bind].
  rewrite omap_app, IH. cbv beta. by rewrite <- Hl, observe_gist.
Qed.

Lemma bind_same {A B} (f g : A -> list B) (l : list A) : (forall x, f x = g x) -> l ≫= f = l ≫= g.
Proof. intros E. induction l as [|x l IH]; [done|]. cbn. by rewrite E, IH. Qed.
Lemma omap_dest {A} (f : outcome -> option A) env (l : list (string * dest_fate)) : omap f (omap (dest_log env) l) = omap (fun kv => dest_log env kv ≫= f) l.
Proof. induction l as [|kv l IH]; [done|]. cbn. destruct (dest_log env kv); cbn; by rewrite IH. Qed.
Lemma omap_same {A B} (f g : A -> option B) (l : list A) : (forall x, f x = g x) -> omap f l = omap g l.
Proof. intros E. induction l as [|x l IH]; [done|]. cbn. by rewrite E, IH. Qed.
Lemma omap_none {A B} (f : A -> option B) (l : list A) : (forall x, f x = None) -> omap f l = [].
Proof. intros E. induction l as [|x l IH]; [done|]. cbn. by rewrite E. Qed.
Lemma observe_fate {A} (f : outcome -> option A) x :
  omap f (fate_log x) = omap (fun kv => dest_log x.1 kv ≫= f) (at_destinations x.2) ++ omap f (closing_log x.1 (closed x.2)).
Proof. unfold fate_log. by rewrite omap_app, omap_dest. Qed.
Lemma count_closed (p : closing -> bool) (batch : list envelope) fates : length batch = length fates ->
  length (zip batch fates ≫= (fun x => if p (closed x.2) then [tt] else [])) = length (List.filter (fun f => p (closed f)) fates).
Proof.
  revert batch. induction fates as [|f fates IH]; intros [|e batch] [=]; [done|]. cbn.
  destruct (p (closed f)); cbn; by rewrite IH.
Qed.

(** The record of the logs is the record of the fates. *)
Lemma recorded_logs batch fates logs : length batch = length fates ->
  Forall2 (fun x log => gist log = fate_log x) (zip batch fates) logs ->
  recorded batch fates (foldl apply_outcome empty_batch (concat logs)).
Proof.
  intros Hlen Hl.
  destruct (apply_outcomes_counters (concat logs) empty_batch) as (E1 & E2 & E3 & E4 & E5 & E6 & E7).
  destruct (apply_outcomes_lists (concat logs) empty_batch) as (L1 & L2 & L3 & L4 & L5).
  cbn [empty_batch dropped_events unrouted_events loop_blocked_events sampled_events residency_blocked_events app] in L1, L2, L3, L4, L5.
  assert (forall {A} (f : outcome -> option A) g, (forall o, significant o = false -> f o = None) ->
    (forall x : envelope * fate, omap f (fate_log x) = g x) -> omap f (concat logs) = zip batch fates ≫= g) as Hobs.
  { intros A f g Hf Hg. rewrite (observe_fates f batch fates logs Hf Hl). by apply bind_same. }
  assert (forall {A} (f : outcome -> option A) (g : envelope * fate -> list A), (forall o, significant o = false -> f o = None) ->
    (forall x, omap (fun kv => dest_log x.1 kv ≫= f) (at_destinations x.2) ++ omap f (closing_log x.1 (closed x.2)) = g x) ->
    omap f (concat logs) = zip batch fates ≫= g) as Hobs'.
  { intros A f g Hf Hg. apply Hobs; [done|]. intros x. by rewrite observe_fate. }
  clear Hobs. split.
  - intros d. rewrite apply_outcomes_sub. cbn [app]. change (sub_batch empty_batch d) with ([] : list envelope). cbn [app].
    apply Hobs'; [by intros []|]. intros [env [ds c]]. unfold copies_for. cbn. f_equal; [|destruct c; cbn; try done; by destruct (_ =? _)%string].
    apply omap_same. by intros [d' []].
  - rewrite E1. unfold count. rewrite (Hobs' _ _ (fun x => if is_routed (closed x.2) then [tt] else [])), count_closed by done || (by intros []) ||
      (intros [env [ds c]]; cbn; rewrite omap_none by (by intros [? []]); by destruct c). done.
  - rewrite E2. unfold count. rewrite (Hobs' _ _ (fun x => if is_fallback (closed x.2) then [tt] else [])), count_closed by done || (by intros []) ||
      (intros [env [ds c]]; cbn; rewrite omap_none by (by intros [? []]); by destruct c). done.
  - rewrite L1, E3. split; [|done]. apply Hobs'; [by intros []|]. intros [env [ds c]]. unfold drops_of. cbn.
    rewrite omap_none by (by intros [? []]). by destruct c.
  - rewrite L2, E4. split; [|done]. apply Hobs'; [by intros []|]. intros [env [ds c]]. unfold unrouted_of. cbn.
    rewrite omap_none by (by intros [? []]). by destruct c.
  - rewrite L3, E5. split; [|done]. apply Hobs'; [by intros []|]. intros [env [ds c]]. unfold loops_of. cbn.
    rewrite omap_none by (by intros [? []]). by destruct c.
  - rewrite L4, E6. split; [|done]. apply Hobs'; [by intros []|]. intros [env [ds c]]. unfold samples_of. cbn.
    assert (omap kept_sample (closing_log env c) = []) as -> by (by destruct c). rewrite app_nil_r. apply omap_same. by intros [? []].
  - rewrite L5, E7. split; [|done]. apply Hobs'; [by intros []|]. intros [env [ds c]]. unfold zoned_of. cbn.
    assert (omap kept_zoned (closing_log env c) = []) as -> by (by destruct c). rewrite app_nil_r. apply omap_same. by intros [? []].
Qed.

(** ** The fate of an event *)

Section fates.
Context `{FloatRepr} `{Sha256} `{Sha1} `{EnvelopeBytes}.
Context (opts : routing_options).
Implicit Types (l : labels) (env e : envelope) (r : compiled_route) (log : list outcome).

(** The route that serves a destination redacts if any of those assigned to it does. *)
Definition rightful (assigned : list (string * compiled_route)) (d : string) r : Prop :=
  (d, r) ∈ assigned /\ (redaction r = [] -> forall r', (d, r') ∈ assigned -> redaction r' = []).

(** What a verdict at destination [d] owes to the routes assigned to it. *)
Definition justified env (assigned : list (string * compiled_route)) (d : string) (v : dest_fate) : Prop :=
  let l := event_labels env in
  match v with
  | Sent e => exists r, rightful assigned d r /\ should_sample_out r (label_event_id l) (sampling opts) = false /\
      e = delivered_copy opts r env
  | SampledOut rid => exists r, rightful assigned d r /\ should_sample_out r (label_event_id l) (sampling opts) = true /\
      rid = route_id r
  | ZonedOut => destination_residency opts <> [] /\
      residency_conflict (default None (dict_get d (destination_residency opts))) (event_geo l) = Ok true
  | LoopedOut => source_is_wazuh l = true /\ d ∈ wazuh_loop_destination_ids opts
  end.

(** Every destination the routes assign has one verdict, and the account is closed by
    the drop of a route, by the copies, by the samples, or without a destination. *)
Definition explains (ordered : list compiled_route) env (f : fate) : Prop :=
  let l := event_labels env in
  let dec := evaluate_event l ordered in
  NoDup (at_destinations f).*1 /\
  (forall d, d ∈ (at_destinations f).*1 <-> d ∈ (assignments dec).*1) /\
  (forall d v, (d, v) ∈ at_destinations f -> justified env (assignments dec) d v) /\
  let sent := existsb (fun kv => is_sent kv.2) (at_destinations f) in
  let sampled_out := existsb (fun kv => is_sampled_out kv.2) (at_destinations f) in
  match closed f with
  | AsRouted => sent = true
  | AsSampled => sent = false /\ sampled_out = true
  | AsDropped rid => er_dropped dec = true /\ drop_route_id dec = Some rid
  | c =>
      er_dropped dec = false /\ sent = false /\ sampled_out = false /\
      match c with
      | AsFallback d => fallback_destination_id opts = Some d /\ (source_is_wazuh l = true -> d ∉ wazuh_loop_destination_ids opts)
      | AsUnrouted => fallback_destination_id opts = None /\ source_is_wazuh l = false
      | _ => source_is_wazuh l = true /\ forall d, fallback_destination_id opts = Some d -> d ∈ wazuh_loop_destination_ids opts
      end
  end.

(** *** The lists of destinations *)

Lemma pick_some cur r : is_Some (pick cur r).
Proof. unfold pick. destruct cur; [destruct (match redaction _ with [] => _ | _ => _ end)|]; eauto. Qed.
Lemma choose_routes_covers d assigned : d ∈ (choose_routes assigned).*1 <-> d ∈ assigned.*1.
Proof.
  change ((choose_routes assigned).*1) with (dict_keys (choose_routes assigned)).
  rewrite <- dict_get_in_keys, choose_routes_get, list_elem_of_fmap. split.
  - intros [r Hr]. apply pick_spec in Hr as [Hr _]. apply routes_for_elem in Hr. by exists (d, r).
  - intros ([d' r] & -> & Hin%routes_for_elem). cbn [fst] in *. induction (routes_for d' assigned) as [|x rs _] using rev_ind;
      [by apply not_elem_of_nil in Hin|]. rewrite foldl_app. apply pick_some.
Qed.

Lemma residency_split_perm geo chosen kept blocked : residency_split opts geo chosen = Ok (kept, blocked) ->
  chosen.*1 ≡ₚ blocked ++ kept.*1 /\
  (forall d, d ∈ blocked -> residency_conflict (default None (dict_get d (destination_residency opts))) geo = Ok true).
Proof.
  revert kept blocked. induction chosen as [|[d0 r0] rest IH]; intros kept blocked; cbn.
  - intros [= <- <-]. split; [done|]. by intros d ?%not_elem_of_nil.
  - intros (b & Hb & ([k bl] & Hs & Heq)%result_bind_ok)%result_bind_ok. destruct (IH _ _ Hs) as [Hperm Hz].
    destruct b; injection Heq as <- <-; cbn.
    + split; [by rewrite Hperm|]. intros d [->|Hd]%elem_of_cons; [done|by apply Hz].
    + split; [by rewrite Hperm, Permutation_middle|done].
Qed.

(** The chosen destinations are those kept, those in another zone and those that would
    close a loop. *)
Lemma kept_partition l chosen kept blocked : enforce_residency opts l (drop_loops opts l chosen) = Ok (kept, blocked) ->
  exists looped, chosen.*1 ≡ₚ blocked ++ looped ++ kept.*1 /\
    (forall d, d ∈ looped -> source_is_wazuh l = true /\ d ∈ wazuh_loop_destination_ids opts) /\
    (forall d, d ∈ blocked -> destination_residency opts <> [] /\
       residency_conflict (default None (dict_get d (destination_residency opts))) (event_geo l) = Ok true) /\
    kept `sublist_of` chosen.
Proof.
  intros He. assert (exists looped : list (string * compiled_route), chosen ≡ₚ looped ++ drop_loops opts l chosen /\
    (forall d, d ∈ looped.*1 -> source_is_wazuh l = true /\ d ∈ wazuh_loop_destination_ids opts) /\
    drop_loops opts l chosen `sublist_of` chosen) as (looped & Hp & Hl & Hsub).
  { unfold drop_loops. destruct (source_is_wazuh l); [|by exists []; split_and!; [..|by intros ? ?%not_elem_of_nil|]].
    exists (filter (fun dr => ~ in_loop opts dr.1 = false) chosen). split_and!; [| |apply sublist_filter].
    { symmetry. etrans; [apply Permutation_app_comm|]. apply (filter_app_complement (fun dr => in_loop opts dr.1 = false)). }
    intros d (dr & -> & [Hin _]%list_elem_of_filter)%list_elem_of_fmap. split; [done|]. unfold in_loop in Hin. by destruct (bool_decide_reflect (dr.1 ∈ wazuh_loop_destination_ids opts)). }
  exists (looped.*1). unfold enforce_residency in He. destruct (destination_residency opts) eqn:E.
  - injection He as <- <-. split_and!; [by rewrite Hp at 1; rewrite fmap_app|done|by intros ? ?%not_elem_of_nil|done].
  - rewrite <- E in *. destruct (residency_split_perm _ _ _ _ He) as [Hperm Hz]. apply residency_split_spec in He as [Hk _].
    split_and!; [|done| |by etrans].
    + rewrite Hp at 1. rewrite fmap_app, Hperm. by rewrite !app_assoc, (Permutation_app_comm blocked).
    + intros d Hd. split; [by rewrite E|]. by apply Hz.
Qed.

(** *** The log of the destinations *)

Definition verdict_of env (dr : string * compiled_route) : string * dest_fate :=
  (dr.1, if should_sample_out dr.2 (label_event_id (event_labels env)) (sampling opts) then SampledOut (route_id dr.2)
         else Sent (delivered_copy opts dr.2 env)).

Lemma org_outcome_gist l n mk os : (forall o n, significant (mk o n) = false) -> org_outcome l n mk = Ok os -> gist os = [].
Proof.
  unfold org_outcome. intros Hmk. destruct (is_none _ || _)%bool; [by intros [= <-]|].
  destruct (hashable _); [intros [= <-]; by rewrite gist_cons, Hmk|done].
Qed.
Lemma deliver_gist env d r os : deliver opts env (event_labels env) (label_event_id (event_labels env)) d r = Ok os ->
  gist os = omap (dest_log env) [verdict_of env (d, r)] /\ existsb is_delivery os = is_sent (verdict_of env (d, r)).2.
Proof.
  intros Hd. assert (gist os = omap (dest_log env) [verdict_of env (d, r)]) as Hg.
  { unfold deliver, verdict_of in *. cbn. destruct (should_sample_out _ _ _).
    - apply result_bind_ok in Hd as (bytes & Hb & [= <-]). rewrite gist_cons. cbn. by rewrite (org_outcome_gist _ _ OSampledBytes _ ltac:(done) Hb).
    - apply result_bind_ok in Hd as (bytes & Hb & [= <-]). rewrite gist_app.
      assert (gist bytes = []) as ->; [|done].
      destruct (raw_dropped r _); [|by injection Hb as <-]. destruct (measure_drop_bytes opts); [|by injection Hb as <-].
      destruct (0 <? _); [|by injection Hb as <-]. by apply (org_outcome_gist _ _ ORawDropBytes _ ltac:(done) Hb). }
  split; [done|].
  assert (forall xs, existsb is_delivery xs = existsb is_delivery (gist xs)) as Hex.
  { induction xs as [|o xs IH]; [done|]. rewrite gist_cons. cbn. rewrite IH. by destruct o. }
  rewrite Hex, Hg. unfold verdict_of. cbn. by destruct (should_sample_out _ _ _).
Qed.
Lemma deliver_all_gist env kept log : deliver_all opts env (event_labels env) kept = Ok log ->
  let vs := map (verdict_of env) kept in
  gist log = omap (dest_log env) vs ++ if existsb (fun kv => is_sent kv.2) vs then [ORouted] else [].
Proof.
  unfold deliver_all. intros (outs & Ho%result_map_ok & [= <-])%result_bind_ok. cbn zeta. rewrite gist_app.
  assert (gist (concat outs) = omap (dest_log env) (map (verdict_of env) kept) /\
          existsb is_delivery (concat outs) = existsb (fun kv => is_sent kv.2) (map (verdict_of env) kept)) as [-> ->].
  { induction Ho as [|[d r] os kept outs Hd _ [IH1 IH2]]; [done|]. cbn [fst snd] in Hd. apply deliver_gist in Hd as [Hg Hx].
    cbn [concat map existsb]. rewrite gist_app, existsb_app, IH1, IH2, Hg, Hx. split; [|done].
    cbn. by destruct (dest_log env _). }
  f_equal. by destruct (existsb _ _).
Qed.

Definition destination_free env reason : closing :=
  let fb := fallback_destination_id opts in
  if source_is_wazuh (event_labels env) && match fb with None => true | Some d => in_loop opts d end then AsLooped reason
  else match fb with Some d => AsFallback d | None => AsUnrouted end.
Lemma destination_free_gist env reason : gist (no_destination opts env (event_labels env) reason) = closing_log env (destination_free env reason).
Proof. unfold no_destination, destination_free. destruct (_ && _)%bool; [done|]. by destruct (fallback_destination_id opts). Qed.

(** *** One event *)

Lemma dropped_decision l ordered : er_dropped (evaluate_event l ordered) = true ->
  assignments (evaluate_event l ordered) = [] /\ exists rid, drop_route_id (evaluate_event l ordered) = Some rid.
Proof. rewrite evaluate_event_spec. unfold spec_event. cbv zeta. destruct (List.find _ _); cbn; [eauto|done]. Qed.

Lemma matched_gist (ids : gset string) : gist (OMatched <$> elements ids) = [].
Proof. apply gist_none, Forall_fmap, Forall_forall. done. Qed.
Lemma blocked_gist env blocked : gist (OResidencyBlocked env <$> blocked) = OResidencyBlocked env <$> blocked.
Proof. induction blocked as [|d blocked IH]; [done|]. rewrite fmap_cons, gist_cons. cbn. by rewrite IH. Qed.

(** The verdicts at the destinations of an event. *)
Definition verdicts env blocked looped (kept : list (string * compiled_route)) : list (string * dest_fate) :=
  map (fun d => (d, ZonedOut)) blocked ++ map (fun d => (d, LoopedOut)) looped ++ map (verdict_of env) kept.

Lemma verdicts_keys env blocked looped kept : (verdicts env blocked looped kept).*1 = blocked ++ looped ++ kept.*1.
Proof.
  assert (forall v (ds : list string), (map (fun d => (d, v)) ds : list (string * dest_fate)).*1 = ds) as Hk.
  { intros v ds. induction ds as [|d ds IH]; [done|]. cbn. by rewrite IH. }
  unfold verdicts. rewrite !fmap_app, !Hk. f_equal. f_equal. induction kept as [|dr kept IH]; [done|]. cbn. by rewrite IH.
Qed.
Lemma verdicts_log env blocked looped kept :
  omap (dest_log env) (verdicts env blocked looped kept) =
  (OResidencyBlocked env <$> blocked) ++ omap (dest_log env) (map (verdict_of env) kept).
Proof.
  unfold verdicts. rewrite !omap_app. assert (omap (dest_log env) (map (fun d => (d, LoopedOut)) looped) = []) as ->.
  { induction looped; done. }
  f_equal. induction blocked as [|d blocked IH]; [done|]. cbn. by rewrite IH.
Qed.
Lemma existsb_verdicts p env blocked looped kept : p ZonedOut = false -> p LoopedOut = false ->
  existsb (fun kv => p kv.2) (verdicts env blocked looped kept) = existsb (fun kv => p kv.2) (map (verdict_of env) kept).
Proof.
  intros H1' H2'. unfold verdicts. rewrite !existsb_app.
  assert (forall v (ds : list string), p v = false -> existsb (fun kv : string * dest_fate => p kv.2) (map (fun d => (d, v)) ds) = false) as Hno.
  { intros v ds Hv. induction ds as [|d ds IH]; [done|]. cbn. by rewrite Hv. }
  by rewrite !Hno.
Qed.
Lemma verdicts_explained env ordered kept blocked :
  let dec := evaluate_event (event_labels env) ordered in
  enforce_residency opts (event_labels env) (drop_loops opts (event_labels env) (choose_routes (assignments dec))) = Ok (kept, blocked) ->
  exists looped, NoDup (verdicts env blocked looped kept).*1 /\
    (forall d, d ∈ (verdicts env blocked looped kept).*1 <-> d ∈ (assignments dec).*1) /\
    forall d v, (d, v) ∈ verdicts env blocked looped kept -> justified env (assignments dec) d v.
Proof.
  intros dec (looped & Hperm & Hl & Hz & Hsub)%kept_partition. exists looped. rewrite verdicts_keys. split_and!.
  - rewrite <- Hperm. apply choose_routes_wf.
  - intros d. rewrite <- Hperm. apply choose_routes_covers.
  - intros d v. unfold verdicts. rewrite !elem_of_app. intros [Hin|[Hin|Hin]]; apply list_elem_of_fmap in Hin as (x & [= -> ->] & Hx).
    + by apply Hz.
    + by apply Hl.
    + assert ((x.1, x.2) ∈ choose_routes (assignments dec)) as Hc by (destruct x; by eapply elem_of_sublist).
      apply choose_routes_spec in Hc. destruct (should_sample_out x.2 _ _) eqn:Es; cbn; exists x.2; by rewrite Es.
Qed.

Lemma destination_free_explained ordered env reason ds : er_dropped (evaluate_event (event_labels env) ordered) = false ->
  NoDup ds.*1 -> (forall d, d ∈ ds.*1 <-> d ∈ (assignments (evaluate_event (event_labels env) ordered)).*1) ->
  (forall d v, (d, v) ∈ ds -> justified env (assignments (evaluate_event (event_labels env) ordered)) d v) ->
  existsb (fun kv => is_sent kv.2) ds = false -> existsb (fun kv => is_sampled_out kv.2) ds = false ->
  explains ordered env (Fate ds (destination_free env reason)).
Proof.
  intros Hd Hnd Hc Hj Hs Ho. do 3 (split; [done|]). cbn [at_destinations closed]. rewrite Hs, Ho. unfold destination_free, in_loop.
  destruct (source_is_wazuh (event_labels env)), (fallback_destination_id opts) as [fb|]; cbn [andb]; try case_bool_decide; cbn;
    split_and!; try done; naive_solver.
Qed.

Lemma route_event_fate ordered env log : route_event opts ordered env = Ok log ->
  exists f, gist log = fate_log (env, f) /\ explains ordered env f.
Proof.
  unfold route_event. set (dec := evaluate_event (event_labels env) ordered). destruct (er_dropped dec) eqn:Hdrop.
  - intros (bytes & Hb & [= <-])%result_bind_ok. destruct (dropped_decision _ _ Hdrop) as [Ha [rid Hrid]].
    assert (gist bytes = []) as Hby.
    { destruct (measure_drop_bytes opts); [by apply (org_outcome_gist _ _ ODropBytes _ ltac:(done) Hb)|by injection Hb as <-]. }
    exists (Fate [] (AsDropped rid)). rewrite gist_app, matched_gist, gist_cons, Hby. cbn. fold dec in Hrid. rewrite Hrid. split; [done|].
    split; [apply NoDup_nil_2|]. split; [by rewrite Ha|]. split; [by intros d v ?%not_elem_of_nil|done].
  - destruct (assignments dec) as [|a0 rest] eqn:Ea.
    + intros [= <-]. exists (Fate [] (destination_free env "no-explicit-destination")).
      rewrite gist_app, matched_gist, destination_free_gist. split; [done|].
      apply destination_free_explained; [done|apply NoDup_nil_2| |by intros d v ?%not_elem_of_nil|done|done]. fold dec. by rewrite Ea.
    + rewrite <- Ea. intros ([kept blocked] & He & Hr)%result_bind_ok. destruct (verdicts_explained _ _ _ _ He) as (looped & Hnd & Hc & Hj).
      destruct kept as [|k0 kept].
      * injection Hr as <-. exists (Fate (verdicts env blocked looped []) (destination_free env "all-destinations-loop")).
        rewrite !gist_app, matched_gist, blocked_gist, destination_free_gist. unfold fate_log. cbn [fst snd at_destinations closed].
        rewrite verdicts_log. cbn. rewrite app_nil_r. split; [done|].
        by apply destination_free_explained; [..|by rewrite existsb_verdicts|by rewrite existsb_verdicts].
      * apply result_bind_ok in Hr as (log' & Hd & [= <-]). apply deliver_all_gist in Hd.
        remember (k0 :: kept) as ks eqn:Eks.
        exists (Fate (verdicts env blocked looped ks)
                  (if existsb (fun kv => is_sent kv.2) (map (verdict_of env) ks) then AsRouted else AsSampled)).
        rewrite !gist_app, matched_gist, blocked_gist, Hd. unfold fate_log. cbn [fst snd at_destinations closed].
        rewrite verdicts_log. split; [by destruct (existsb _ _); rewrite <- ?app_assoc|].
        do 3 (split; [done|]). cbn [at_destinations closed]. rewrite !existsb_verdicts by done.
        destruct (existsb (fun kv => is_sent kv.2) _) eqn:Es; [done|]. split; [done|].
        subst ks. cbn in Es |- *. unfold verdict_of in *. by destruct (should_sample_out _ _ _).
Qed.

(** ** The batch *)

(** C2 [no_silent_loss] (invariant): when [route_batch] returns, every event of the
    batch has exactly one fate: each destination that its routes assign has one
    verdict (the copy sent, a sampled pair, another zone, a loop), and the account is
    closed once (routed, fully sampled out, dropped by a route, sent whole to the
    fallback, unrouted or stopped as a loop).  The result holds exactly these fates,
    in order: the sub-batch of each destination is the copies and fallbacks bound for
    it, each list holds the events so closed, and each counter their number. *)
Theorem no_silent_loss batch routes b : route_batch opts batch routes = Ok b ->
  exists fates, Forall2 (explains (order_routes routes)) batch fates /\ recorded batch fates b.
Proof.
  intros (logs & Hl & ->)%route_batch_inv.
  assert (exists fates, Forall2 (explains (order_routes routes)) batch fates /\
    Forall2 (fun x log => gist log = fate_log x) (zip batch fates) logs) as (fates & He & Hg).
  { induction Hl as [|env log batch logs Hev _ (fates & He & Hg)]; [by exists []|].
    apply route_event_fate in Hev as (f & Hf & Hx). exists (f :: fates). split; by constructor. }
  exists fates. split; [done|]. apply recorded_logs; [|done]. by eapply Forall2_length.
Qed.

(** C5 [redacting_route_wins] (safety): when some route that redacts assigns an event to
    a destination, every copy of the event that the destination gets through the routes
    is made by a route that redacts.  The event reaches it otherwise only as the
    fallback, and only if each of its destinations lies in another zone or would close
    a loop. *)
Theorem redacting_route_wins ordered env log d e r' :
  let assigned := assignments (evaluate_event (event_labels env) ordered) in
  route_event opts ordered env = Ok log -> (d, r') ∈ assigned -> redaction r' <> [] -> e ∈ omap (sent_to d) log ->
  (exists r, (d, r) ∈ assigned /\ redaction r <> [] /\ e = delivered_copy opts r env) \/
  (e = env /\ fallback_destination_id opts = Some d /\
   forall d', d' ∈ assigned.*1 -> justified env assigned d' ZonedOut \/ justified env assigned d' LoopedOut).
Proof.
  intros assigned (f & Hg & Hnd & Hc & Hj & Hcl)%route_event_fate Ha Hred He.
  rewrite <- observe_gist, Hg, observe_fate in He by (by intros []). apply elem_of_app in He as [He|He].
  - left. apply list_elem_of_omap in He as ([d0 v] & Hin & Hv). destruct v as [copy| | |]; try done. cbn in Hv.
    destruct (String.eqb_spec d0 d) as [->|]; [|done]. injection Hv as ->. destruct (Hj _ _ Hin) as (r & [Hr Hw] & _ & ->).
    exists r. split_and!; try done. intros Hn. apply Hred. by apply (Hw Hn).
  - right. cbv zeta in Hcl. cbn [fst snd] in He. destruct (closed f) as [| |rid|fb| |reason]; cbn in He; try by apply not_elem_of_nil in He.
    destruct (String.eqb_spec fb d) as [->|]; [|by apply not_elem_of_nil in He]. apply list_elem_of_singleton in He as ->.
    destruct Hcl as (_ & Hs & Ho & Hfb & _). split; [done|]. split; [done|]. intros d' Hd'. fold assigned in Hc. apply Hc in Hd'.
    apply list_elem_of_fmap in Hd' as ([d1 v] & -> & Hin). pose proof (Hj _ _ Hin) as Hv.
    assert (forall p, existsb (fun kv : string * dest_fate => p kv.2) (at_destinations f) = false -> p v = false) as Hno.
    { intros p Hp. apply not_true_iff_false. intros Hpv. apply not_true_iff_false in Hp. apply Hp. apply existsb_exists.
      exists (d1, v). split; [by apply list_elem_of_In|done]. }
    apply Hno in Hs, Ho. destruct v; try done; [by left|by right].
Qed.
End fates.

Section examples.
#[local] Existing Instances demo_float_repr demo_sha256 demo_sha1 demo_bytes.

Lemma no_silent_loss_witness :
  exists fates, Forall2 (explains ex_opts (order_routes ex_routes)) ex_batch fates /\ recorded ex_batch fates (run ex_batch).
Proof. apply (no_silent_loss ex_opts ex_batch ex_routes). vm_compute. reflexivity. Defined.

Lemma redacting_route_wins_witness :
  exists r, redaction r <> [] /\
    forall e, e ∈ omap (sent_to "siem") (run_event (ex_event "e1" "sophos" "eu")) ->
      e = ex_event "e1" "sophos" "eu" \/ exists r, redaction r <> [] /\ e = delivered_copy ex_opts r (ex_event "e1" "sophos" "eu").
Proof.
  exists siem_masked. split; [by vm_compute|]. intros e He.
  destruct (redacting_route_wins ex_opts (order_routes ex_routes) (ex_event "e1" "sophos" "eu") _ "siem" e siem_masked run_event_ok)
    as [(r & _ & Hr & ->)|[-> _]].
  - vm_compute. right. right. left.
  - by vm_compute.
  - exact He.
  - right. exists r. split; [exact Hr | reflexivity].
  - by left.
Defined.
End examples.
