(* ===== verification/Predicates.v ===== *)
(** * Sources and [when] predicates

    Models [collectors/normalize/dotpath.py] (the dot-path fast path of a
    mapping's [source] expressions) and [collectors/normalize/predicates.py]
    (the [when] gate of DSL v2).

    The JMESPath library is a parameter: a type of parsed expressions with its
    compiler and its search.  [JmesLaws] is the part of its documented
    semantics the fast path relies on. *)

From S2P Require Import Prelude PyVal.

Local Open Scope string_scope.
Local Open Scope list_scope.

Class JmesPath := {
  jmes_expr : Type;
  jmes_compile : string -> result jmes_expr;
  jmes_search : jmes_expr -> pyval -> result pyval;
}.

(** [NORMALIZE_DOTPATH_FASTPATH], read once at import. *)
Class FastPath := fastpath_enabled : bool.

(** ** [dotpath.py] *)

Definition ident_start (a : ascii) : bool :=
  in_range 65 90 a || in_range 97 122 a || Ascii.eqb a "_".
Definition ident_char (a : ascii) : bool := ident_start a || in_range 48 57 a.
Fixpoint all_chars (p : ascii -> bool) (s : string) : bool :=
  match s with EmptyString => true | String a s' => p a && all_chars p s' end.
(** [[A-Za-z_][A-Za-z0-9_]*]. *)
Definition is_identifier (s : string) : bool :=
  match s with EmptyString => false | String a s' => ident_start a && all_chars ident_char s' end.

Definition newline : ascii := ascii_of_nat 10.
(** Python's [$] also matches just before one final newline. *)
Fixpoint drop_final_newline (s : string) : string :=
  match s with
  | EmptyString => EmptyString
  | String a EmptyString => if Ascii.eqb a newline then EmptyString else s
  | String a s' => String a (drop_final_newline s')
  end.

(** [_DOT_PATH.match(expr)]. *)
Definition DOT_PATH (expr : string) : bool :=
  forallb is_identifier (str_split "." (drop_final_newline expr)).

(** [value.get(key)], [None] on an [AttributeError]. *)
Definition field (key : string) (value : pyval) : pyval :=
  match value with PDict d => dget key d | _ => PNone end.

(** The loop of [DotPathResolver.search]. *)
Fixpoint search_rest (rest : list string) (value : pyval) : pyval :=
  match rest with
  | [] => value
  | key :: rest' =>
      if is_none value then PNone
      else match value with
           | PDict d => search_rest rest' (dget key d)
           | _ => PNone
           end
  end.
Definition dotpath_search (first : string) (rest : list string) (value : pyval) : pyval :=
  match value with PDict d => search_rest rest (dget first d) | _ => PNone end.

Section sources.
Context `{JmesPath} `{FastPath}.

Inductive resolver :=
| DotPathResolver (first : string) (rest : list string)
| ParsedResult (e : jmes_expr).

Definition dotpath_resolver (expression : string) : resolver :=
  match str_split "." expression with
  | first :: rest => DotPathResolver first rest
  | [] => DotPathResolver "" []
  end.

Definition search (r : resolver) (value : pyval) : result pyval :=
  match r with
  | DotPathResolver first rest => Ok (dotpath_search first rest value)
  | ParsedResult e => jmes_search e value
  end.

Definition is_fast_path (expr : string) : bool := fastpath_enabled && DOT_PATH expr.

Definition compile_source (expr : string) : result resolver :=
  parsed ← jmes_compile expr;
  Ok (if fastpath_enabled && DOT_PATH expr then dotpath_resolver expr else ParsedResult parsed).

(** [isinstance(e, str) and e.strip()], then [compile_source] with every
    failure turned into [MappingDefinitionError]: the check each user of a
    source expression performs. *)
Definition compile_source_checked (expr : pyval) : result (resolver * string) :=
  match expr with
  | PStr s =>
      if str_blank s then Raise EMappingDefinition
      else try_except (r ← compile_source s; Ok (r, s)) (fun _ => true) (fun _ => Raise EMappingDefinition)
  | _ => Raise EMappingDefinition
  end.

(** ** [predicates.py] *)

Definition PRED_KEYS : list string := ["exists"; "equals"; "in"; "not"].

Inductive compiled_predicate :=
| PredExists (compiled_source : resolver) (source_str : string)
| PredEquals (compiled_source : resolver) (source_str : string) (literal : pyval)
| PredIn (compiled_source : resolver) (source_str : string) (literal : list pyval)
| PredNot (child : compiled_predicate).

(** [spec[key]] where the key is known to be present. *)
Definition dict_item (key : string) (d : list (string * pyval)) : result pyval :=
  match dict_get key d with Some v => Ok v | None => Raise EKey end.

(** The [source]/[value(s)] object of [equals] and [in]. *)
Definition pred_operands (value_key : string) (inner : pyval) : result (pyval * pyval) :=
  match inner with
  | PDict d =>
      match dict_get "source" d with
      | None => Raise EMappingDefinition
      | Some source =>
          match dict_get value_key d with
          | None => Raise EMappingDefinition
          | Some v => Ok (source, v)
          end
      end
  | _ => Raise EMappingDefinition
  end.

Fixpoint compile_predicate (spec : pyval) : result compiled_predicate :=
  match spec with
  | PDict d =>
      match filter (fun k => dict_has k d = true) PRED_KEYS with
      | [k] =>
          if String.eqb k "exists" then
            expr ← dict_item "exists" d;
            src ← compile_source_checked expr;
            Ok (PredExists src.1 src.2)
          else if String.eqb k "equals" then
            inner ← dict_item "equals" d;
            ops ← pred_operands "value" inner;
            src ← compile_source_checked ops.1;
            Ok (PredEquals src.1 src.2 ops.2)
          else if String.eqb k "in" then
            inner ← dict_item "in" d;
            ops ← pred_operands "values" inner;
            match ops.2 with
            | PList values =>
                src ← compile_source_checked ops.1;
                Ok (PredIn src.1 src.2 values)
            | _ => Raise EMappingDefinition
            end
          else
            child ← (fix not_child (d : list (string * pyval)) : result compiled_predicate :=
                       match d with
                       | [] => Raise EKey
                       | (k, v) :: d' => if String.eqb "not" k then compile_predicate v else not_child d'
                       end) d;
            Ok (PredNot child)
      | _ => Raise EMappingDefinition
      end
  | _ => Raise EMappingDefinition
  end.

Definition safe_search (compiled : resolver) (data : pyval) : pyval :=
  match search compiled data with Ok v => v | Raise _ => PNone end.

Fixpoint evaluate_predicate (pred : compiled_predicate) (data : pyval) : bool :=
  match pred with
  | PredExists src _ => negb (is_none (safe_search src data))
  | PredEquals src _ literal => py_eq (safe_search src data) literal
  | PredIn src _ literal => existsb (py_eq (safe_search src data)) literal
  | PredNot child => negb (evaluate_predicate child data)
  end.

Fixpoint collect_predicate_source_strs (pred : compiled_predicate) : list string :=
  match pred with
  | PredNot child => collect_predicate_source_strs child
  | PredExists _ s | PredEquals _ s _ | PredIn _ s _ => [s]
  end.

End sources.

Arguments jmes_expr : clear implicits.
Arguments jmes_expr {_}.

(** ** Splitting and joining on dots *)


Lemma str_split_nonempty c s : str_split c s <> [].
Proof. destruct s as [|a s]; cbn; [done|]. destruct (Ascii.eqb a c); [done|]. by destruct (str_split c s). Qed.

Lemma str_split_app c s t :
  str_split c (s +:+ String c t) = str_split c s ++ str_split c t.
Proof.
  induction s as [|a s IH]; cbn [str_split String.append app].
  - change (("" +:+ String c t)%string) with (String c t). cbn. by rewrite Ascii.eqb_refl.
  - change ((String a s +:+ String c t)%string) with (String a (s +:+ String c t)). cbn [str_split].
    destruct (Ascii.eqb a c); rewrite IH; [done|].
    destruct (str_split c s) eqn:E; [by destruct (str_split_nonempty c s)|done].
Qed.

Lemma str_split_single c s : has_char c s = false -> str_split c s = [s].
Proof.
  induction s as [|a s IH]; cbn; [done|]. intros [H1 H2]%orb_false_iff. by rewrite H1, (IH H2).
Qed.

Lemma identifier_no_dot s : is_identifier s = true -> has_char "." s = false.
Proof.
  assert (forall a, ident_char a = true -> Ascii.eqb a "." = false) as Ha.
  { intros a H. destruct (Ascii.eqb_spec a "."%char) as [->|]; [by vm_compute in H | done]. }
  destruct s as [|a s]; [done|]. cbn [is_identifier has_char]. intros [H1 H2]%andb_true_iff.
  rewrite Ha by (unfold ident_char; by rewrite H1). cbn [orb].
  induction s as [|b s IH]; [done|]. cbn [all_chars has_char] in *.
  apply andb_true_iff in H2 as [H2 H3]. by rewrite Ha, IH.
Qed.

(** A string is its last segment after the segments before it. *)
Lemma str_split_snoc c s :
  (has_char c s = false /\ str_split c s = [s]) \/
  exists s1 s2, s = (s1 +:+ String c s2)%string /\ has_char c s2 = false.
Proof.
  induction s as [|a s [[Hc IH]|(s1 & s2 & -> & H)]].
  - by left.
  - destruct (Ascii.eqb_spec a c) as [->|Hne].
    + right. by exists "", s.
    + left. cbn. destruct (Ascii.eqb_spec a c); [done|]. by rewrite Hc, IH.
  - right. exists (String a s1), s2. done.
Qed.

(** ** The fast path agrees with the library *)

(** JMESPath's specification of identifiers and sub-expressions: [k] looks a
    key up in an object and is null on anything else, [s.k] evaluates [k] on
    the result of [s], null staying null. *)
Class JmesLaws `{JmesPath} := {
  jmes_identifier k : is_identifier k = true ->
    exists e, jmes_compile k = Ok e /\ forall v, jmes_search e v = Ok (field k v);
  jmes_subexpression s k e : jmes_compile s = Ok e -> is_identifier k = true ->
    exists e', jmes_compile (s +:+ "." +:+ k)%string = Ok e' /\
      forall v, jmes_search e' v =
        (w ← jmes_search e v; Ok (if is_none w then PNone else field k w));
}.

Lemma search_rest_snoc rest k v :
  search_rest (rest ++ [k]) v =
  (if is_none (search_rest rest v) then PNone else field k (search_rest rest v)).
Proof.
  revert v; induction rest as [|k' rest IH]; intros v; cbn.
  - by destruct v.
  - by destruct v; cbn.
Qed.

Lemma dotpath_search_snoc first rest k v :
  dotpath_search first (rest ++ [k]) v =
  (if is_none (dotpath_search first rest v) then PNone else field k (dotpath_search first rest v)).
Proof. destruct v; cbn; try done. apply search_rest_snoc. Qed.

Section dotpath.
Context `{JmesLaws}.

Lemma dotpath_agrees expr :
  forallb is_identifier (str_split "." expr) = true ->
  exists e, jmes_compile expr = Ok e /\
    forall v, search (dotpath_resolver expr) v = jmes_search e v.
Proof.
  induction expr as [expr IH] using (induction_ltof1 _ String.length); unfold ltof in IH.
  destruct (str_split_snoc "." expr) as [[_ Hs]|(s & k & -> & Hk)].
  - rewrite Hs. cbn. rewrite andb_true_r. intros Hid.
    destruct (jmes_identifier expr Hid) as (e & He & Hse). exists e. split; [done|]. intros v.
    unfold dotpath_resolver. rewrite Hs, Hse. cbn. by destruct v.
  - rewrite str_split_app, (str_split_single _ k Hk), forallb_app. intros [Hid Hidk]%andb_true_iff.
    cbn in Hidk. rewrite andb_true_r in Hidk.
    destruct (IH s) as (e & He & Hse); [rewrite str_length_app; change (String.length (String "." k)) with (S (String.length k)); lia | done |].
    destruct (jmes_subexpression s k e He Hidk) as (e' & He' & Hse').
    exists e'. split; [exact He'|]. intros v. rewrite Hse', <- Hse.
    unfold dotpath_resolver. rewrite str_split_app, (str_split_single _ k Hk).
    destruct (str_split "." s) as [|first rest] eqn:E; [by destruct (str_split_nonempty "." s)|].
    cbn [app search]. rewrite dotpath_search_snoc. done.
Qed.

(** [fast_path_exact] (the fast path is JMESPath).  On every dot-path
    without a final newline [compile_source] succeeds, and its resolver
    returns on every value what the compiled JMESPath expression returns,
    whether the fast path is enabled or not. *)
Theorem fast_path_exact `{FastPath} expr :
  DOT_PATH expr = true -> drop_final_newline expr = expr ->
  exists r e, compile_source expr = Ok r /\ jmes_compile expr = Ok e /\
    forall v, search r v = jmes_search e v.
Proof.
  intros HD Hn. pose proof HD as Hid. unfold DOT_PATH in Hid. rewrite Hn in Hid.
  destruct (dotpath_agrees expr Hid) as (e & He & Hse).
  unfold compile_source. rewrite He. cbn. rewrite HD, andb_true_r.
  destruct fastpath_enabled.
  - exists (dotpath_resolver expr), e. done.
  - exists (ParsedResult e), e. done.
Qed.

End dotpath.

(** ** What a predicate reads *)

Section predicates.
Context `{JmesPath} `{FastPath}.

(** Each source of a compiled predicate is the resolver its string compiles to. *)
Fixpoint pred_sources_ok (pred : compiled_predicate) : Prop :=
  match pred with
  | PredExists src s | PredEquals src s _ | PredIn src s _ => compile_source s = Ok src
  | PredNot child => pred_sources_ok child
  end.

Lemma compile_source_checked_ok expr src :
  compile_source_checked expr = Ok src -> expr = PStr src.2 /\ compile_source src.2 = Ok src.1.
Proof.
  unfold compile_source_checked. destruct expr; try done. destruct (str_blank s); [done|].
  destruct (compile_source s) as [r|] eqn:E; cbn; [|done]. intros [= <-]. done.
Qed.

Lemma compile_predicate_ok spec pred : compile_predicate spec = Ok pred -> pred_sources_ok pred.
Proof.
  revert pred. induction spec as [| | | | | |d IH] using pyval_ind'; intros pred; try done.
  cbn [compile_predicate]. destruct (filter _ _) as [|k [|]]; try done.
  repeat case_match; intros Hc.
  1-3: repeat match goal with
       | H : _ ≫= _ = Ok _ |- _ => apply result_bind_ok in H as (? & ? & H)
       | H : match ?x with _ => _ end = Ok _ |- _ => destruct x; try done
       end; injection Hc as <-; cbn; by eapply compile_source_checked_ok.
  apply result_bind_ok in Hc as (child & Hc & [= <-]). cbn.
  induction IH as [|[k' v] d Hv _ IHd]; [done|]. destruct (String.eqb "not" k'); [by apply Hv | auto].
Qed.

Lemma predicate_frame_ok pred d1 d2 :
  pred_sources_ok pred ->
  (forall s r, s ∈ collect_predicate_source_strs pred -> compile_source s = Ok r ->
     search r d1 = search r d2) ->
  evaluate_predicate pred d1 = evaluate_predicate pred d2.
Proof.
  intros Hc. induction pred as [r s|r s l|r s l|p IH]; cbn in *; intros Hs.
  1-3: unfold safe_search; rewrite (Hs s r); [done | by left | done].
  by rewrite IH.
Qed.

(** [predicate_frame] (the sources of a gate are all it reads).  If two
    documents give the same search result for every source string that
    [collect_predicate_source_strs] reports, the gate evaluates the same on
    both. *)
Theorem predicate_frame spec pred d1 d2 :
  compile_predicate spec = Ok pred ->
  (forall s r, s ∈ collect_predicate_source_strs pred -> compile_source s = Ok r ->
     search r d1 = search r d2) ->
  evaluate_predicate pred d1 = evaluate_predicate pred d2.
Proof. intros Hc. by apply predicate_frame_ok, (compile_predicate_ok spec). Qed.

End predicates.

(** ** A concrete expression language: dot-paths only *)

#[local] Instance demo_jmes : JmesPath := {
  jmes_expr := list string;
  jmes_compile s :=
    let tokens := str_split "." s in
    if forallb is_identifier tokens then Ok tokens else Raise EOther;
  jmes_search tokens v := Ok (foldl (fun w k => if is_none w then PNone else field k w) v tokens);
}.

#[local] Instance demo_jmes_laws : JmesLaws.
Proof.
  split.
  - intros k Hk. exists [k]. cbn. rewrite str_split_single by by apply identifier_no_dot.
    cbn. rewrite Hk. split; [done|]. intros v. by destruct v.
  - intros s k e Hs Hk. exists (e ++ [k]). cbn in *.
    change ("." +:+ k)%string with (String "." k).
    rewrite str_split_app, (str_split_single _ k) by by apply identifier_no_dot.
    rewrite forallb_app. cbn. rewrite Hk, andb_true_r.
    destruct (forallb is_identifier (str_split "." s)); [|done]. injection Hs as <-.
    split; [done|]. intros v. by rewrite foldl_snoc.
Defined.

Definition demo_doc : pyval :=
  PDict [("user", PDict [("name", PStr "ana"); ("uid", PInt 7)]); ("level", PInt 1)].

Lemma fast_path_exact_witness :
  DOT_PATH "user.name" = true /\ drop_final_newline "user.name" = "user.name" /\
  exists r e, @compile_source demo_jmes true "user.name" = Ok r /\ jmes_compile "user.name" = Ok e /\
    search r demo_doc = Ok (PStr "ana") /\ forall v, search r v = jmes_search e v.
Proof.
  split; [reflexivity|]. split; [reflexivity|].
  destruct (@fast_path_exact demo_jmes demo_jmes_laws true "user.name") as (r & e & Hr & He & Hs);
    [reflexivity..|].
  exists r, e. split; [exact Hr|]. split; [exact He|]. split; [|exact Hs].
  injection Hr as <-. vm_compute. reflexivity.
Defined.

Definition demo_when : pyval :=
  PDict [("not", PDict [("equals", PDict [("source", PStr "user.name"); ("value", PStr "ana")])])].

Lemma predicate_frame_witness :
  let other := PDict [("user", PDict [("name", PStr "ana")])] in
  exists pred, @compile_predicate demo_jmes true demo_when = Ok pred /\
    evaluate_predicate pred demo_doc = evaluate_predicate pred other /\
    evaluate_predicate pred demo_doc = false.
Proof.
  eexists. split; [reflexivity|]. split; [|reflexivity].
  apply (@predicate_frame demo_jmes true demo_when); [reflexivity|].
  intros s r Hs Hr. apply list_elem_of_singleton in Hs as ->. injection Hr as <-. vm_compute. reflexivity.
Defined.

(** ** Divergences *)

(** Python's [$] admits a final newline, so ["user\n"] takes the fast path and
    looks up the key ["user\n"]; JMESPath ignores the white space and finds
    [user].  The resolver is documented to have JMESPath's exact semantics. *)
Lemma fast_path_final_newline `{JmesPath} e :
  let expr := ("user" +:+ String newline "")%string in
  let doc := PDict [("user", PInt 7)] in
  jmes_compile expr = Ok e -> jmes_search e doc = Ok (PInt 7) ->
  exists r, @compile_source _ true expr = Ok r /\ search r doc <> jmes_search e doc.
Proof.
  intros expr doc He Hs. unfold compile_source. rewrite He. eexists. split; [reflexivity|].
  rewrite Hs. discriminate.
Qed.

(** The module says a missing path never satisfies [equals] or [in], and that
    both are type-strict: a [null] literal is matched by a missing path, and
    the number 1 equals [true]. *)
Lemma missing_path_equals_null :
  exists pred,
    @compile_predicate demo_jmes true
      (PDict [("equals", PDict [("source", PStr "absent"); ("value", PNone)])]) = Ok pred /\
    evaluate_predicate pred demo_doc = true.
Proof. eexists. split; reflexivity. Qed.

Lemma equals_not_type_strict :
  exists pred,
    @compile_predicate demo_jmes true
      (PDict [("equals", PDict [("source", PStr "level"); ("value", PBool true)])]) = Ok pred /\
    evaluate_predicate pred demo_doc = true.
Proof. eexists. split; reflexivity. Qed.
