(* ===== verification/Operators.v ===== *)
(** * Operators of the mapping DSL

    Models [collectors/normalize/operators.py] (type casts, [value_map],
    [default]), [registry.py] (the table of casts) and the operator of
    [preprocess.py].

    Three conversions of the interpreter are parameters: [float(s)],
    [datetime.fromisoformat(s)] followed by [timestamp()] (UTC when the text has
    no zone), and [json.loads(s)]. *)

From S2P Require Import Prelude PyVal.

Local Open Scope string_scope.
Local Open Scope list_scope.
Local Open Scope Z_scope.

Class FloatParse := float_parse : string -> option spec_float.
Class IsoParse := iso_timestamp : string -> option spec_float.
(** [json.loads]; its exceptions are [JSONDecodeError], [RecursionError] and
    [ValueError]. *)
Class JsonLoads := json_loads : string -> result pyval.
(** [_JSON_MAX_BYTES], read from the environment at import. *)
Class JsonLimit := JSON_MAX_BYTES : Z.

(** ** Rounding of floats *)

(** [round] of [m * 2^e], ties to even. *)
Definition dy_round (m e : Z) : Z :=
  if 0 <=? e then m * 2 ^ e
  else
    let d := 2 ^ (- e) in
    let q := m / d in
    match Z.compare (2 * (m mod d)) d with
    | Lt => q
    | Gt => q + 1
    | Eq => if Z.even q then q else q + 1
    end.
Definition dy_trunc (m e : Z) : Z := if 0 <=? e then m * 2 ^ e else Z.quot m (2 ^ (- e)).

(** [round(f)] and [int(f)] of a [float]. *)
Definition float_to_int (conv : Z -> Z -> Z) (f : spec_float) : result Z :=
  match float_num f with
  | NNan => Raise EValue
  | NInf _ => Raise EOverflow
  | NDy m e => Ok (conv m e)
  end.
Definition float_round := float_to_int dy_round.
Definition float_trunc := float_to_int dy_trunc.

(** ** Dates: the proleptic Gregorian calendar *)

(** Year, month and day of a day count from 1970-01-01. *)
Definition civil_from_days (days : Z) : Z * Z * Z :=
  let z := days + 719468 in
  let era := z / 146097 in
  let doe := z mod 146097 in
  let yoe := (doe - doe / 1460 + doe / 36524 - doe / 146096) / 365 in
  let doy := doe - (365 * yoe + yoe / 4 - yoe / 100) in
  let mp := (5 * doy + 2) / 153 in
  let d := doy - (153 * mp + 2) / 5 + 1 in
  let m := if mp <? 10 then mp + 3 else mp - 9 in
  (yoe + era * 400 + (if m <=? 2 then 1 else 0), m, d).

Definition pad (w : nat) (z : Z) : string :=
  let s := str_of_Z z in (str_repeat "0" (w - String.length s) +:+ s)%string.

(** [datetime.fromtimestamp(secs, utc).isoformat(timespec="seconds")] with the
    offset written [Z]: years 1 to 9999.  Beyond them a [ValueError]; an [OSError]
    when the year does not fit the C library's [int], an [OverflowError] when the
    instant does not fit [time_t]. *)
Definition iso_of_seconds (secs : Z) : result string :=
  if (secs <? -62135596800) || (253402300799 <? secs) then
    Raise (if (secs <? - 2 ^ 63) || (2 ^ 63 <=? secs) then EOverflow
           else if (secs <? -67768040609740800) || (67768036191676799 <? secs) then EConnection else EValue)
  else
    let '(y, m, d) := civil_from_days (secs / 86400) in
    let t := secs mod 86400 in
    Ok (pad 4 y +:+ "-" +:+ pad 2 m +:+ "-" +:+ pad 2 d +:+ "T" +:+
        pad 2 (t / 3600) +:+ ":" +:+ pad 2 (t / 60 mod 60) +:+ ":" +:+ pad 2 (t mod 60) +:+ "Z")%string.

(** ** [int(s)] *)

Definition is_ascii (s : string) : bool := Nat.eqb (utf8_len s) (String.length s).
(** The white space [int] skips: ASCII's, and Unicode's when the text is not ASCII. *)
Definition int_space (ascii_text : bool) (a : ascii) : bool :=
  in_range 9 13 a || in_range 32 32 a || (negb ascii_text && is_space a).
Fixpoint drop_while (p : ascii -> bool) (s : string) : string :=
  match s with
  | String a s' => if p a then drop_while p s' else s
  | EmptyString => EmptyString
  end.
Definition strip_while (p : ascii -> bool) (s : string) : string :=
  str_rev (drop_while p (str_rev (drop_while p s))).

Definition digit_value (a : ascii) : option Z :=
  if in_range 48 57 a then Some (Z.of_N (N_of_ascii a) - 48) else None.
(** Digits with single underscores between them; at most 4300 digits. *)
Fixpoint int_digits (s : string) (after_digit : bool) (n : nat) (acc : Z) : option Z :=
  match s with
  | EmptyString => if after_digit && Nat.leb n 4300 then Some acc else None
  | String a s' =>
      if Ascii.eqb a "_" then if after_digit then int_digits s' false n acc else None
      else match digit_value a with
           | Some d => int_digits s' true (S n) (10 * acc + d)
           | None => None
           end
  end.
Definition py_int_of_str (s : string) : option Z :=
  match strip_while (int_space (is_ascii s)) s with
  | String a s' =>
      if Ascii.eqb a "-" then Z.opp <$> int_digits s' false 0 0
      else if Ascii.eqb a "+" then int_digits s' false 0 0
      else int_digits (String a s') false 0 0
  | EmptyString => None
  end.

(** [s.replace(c, t)] for one character. *)
Fixpoint str_replace (c : ascii) (t s : string) : string :=
  match s with
  | EmptyString => EmptyString
  | String a s' => (if Ascii.eqb a c then t +:+ str_replace c t s' else String a (str_replace c t s'))%string
  end.
Definition ends_with (c : ascii) (s : string) : bool :=
  match str_rev s with String a _ => Ascii.eqb a c | EmptyString => false end.

(** ** The casts *)

Definition EPOCH_MS_THRESHOLD : Z := 100000000000.

(** [float] or [int] that is not a [bool]. *)
Inductive number := NumInt (z : Z) | NumFloat (f : spec_float).
Definition as_number (v : pyval) : option number :=
  match v with PInt z => Some (NumInt z) | PFloat f => Some (NumFloat f) | _ => None end.

Definition coerce_epoch_millis (value : number) : result Z :=
  match value with
  | NumInt z => Ok (if Z.abs z <? EPOCH_MS_THRESHOLD then z * 1000 else z)
  | NumFloat f =>
      match py_order CLt (PFloat (SFabs f)) (PInt EPOCH_MS_THRESHOLD) with
      | Some true => float_round (float_mul f (float_of_Z 1000))
      | _ => float_trunc f
      end
  end.

Section casts.
Context `{FloatRepr} `{FloatParse} `{IsoParse}.

Definition iso_to_epoch (value : pyval) : result pyval :=
  match as_number value with
  | Some n => PInt <$> coerce_epoch_millis n
  | None =>
      match value with
      | PStr s =>
          let normalized := if ends_with "Z" s then str_replace "Z" "+00:00" s else s in
          match iso_timestamp normalized with
          | Some ts => PInt <$> float_round (float_mul ts (float_of_Z 1000))
          | None => Raise EOperator
          end
      | _ => Raise EOperator
      end
  end.

Definition epoch_to_iso (value : pyval) : result pyval :=
  value ← match value with
          | PStr s => match float_parse s with Some f => Ok (PFloat f) | None => Raise EOperator end
          | _ => Ok value
          end;
  match as_number value with
  | None => Raise EOperator
  | Some n =>
      millis ← coerce_epoch_millis n;
      PStr <$> iso_of_seconds (millis / 1000)
  end.

Definition to_str (value : pyval) : result pyval :=
  if is_none value then Raise EOperator else Ok (PStr (py_str value)).

Definition to_int (value : pyval) : result pyval :=
  match value with
  | PBool _ => Raise EOperator
  | PInt z => Ok (PInt z)
  | PFloat f => PInt <$> float_trunc f
  | PStr s => match py_int_of_str s with Some z => Ok (PInt z) | None => Raise EOperator end
  | _ => Raise EOperator
  end.

Definition to_bool (value : pyval) : result pyval :=
  match value with
  | PBool b => Ok (PBool b)
  | PInt _ | PFloat _ => Ok (PBool (truthy value))
  | PStr s =>
      let normalized := str_lower (str_strip s) in
      if existsb (String.eqb normalized) ["true"; "1"; "yes"; "y"] then Ok (PBool true)
      else if existsb (String.eqb normalized) ["false"; "0"; "no"; "n"; ""] then Ok (PBool false)
      else Raise EOperator
  | _ => Raise EOperator
  end.

Definition score_to_percent (value : pyval) : result pyval :=
  match value with
  | PNone => Ok PNone
  | PInt z => if (0 <=? z) && (z <=? 100) then Ok value else Raise EOperator
  | PFloat f =>
      match py_order CLe (PFloat (float_of_Z 0)) value, py_order CLe value (PFloat (float_of_Z 1)) with
      | Some true, Some true => PInt <$> float_round (float_mul f (float_of_Z 100))
      | _, _ => Raise EOperator
      end
  | _ => Raise EOperator
  end.

(** [lowercase], [uppercase] and [trim] share their guards. *)
Definition string_cast (f : string -> string) (value : pyval) : result pyval :=
  match value with
  | PNone => Ok PNone
  | PStr s => Ok (PStr (f s))
  | _ => Raise EOperator
  end.
Definition lowercase := string_cast str_lower.
Definition uppercase := string_cast str_upper.
Definition trim := string_cast str_strip.

Definition to_array (value : pyval) : result pyval :=
  match value with
  | PNone => Ok (PList [])
  | PList _ => Ok value
  | _ => Ok (PList [value])
  end.

(** The loop of [dedup]: [seen] holds the hashable items kept so far. *)
Fixpoint dedup_loop (seen l : list pyval) : list pyval :=
  match l with
  | [] => []
  | item :: l' =>
      if hashable item then
        if existsb (py_eq item) seen then dedup_loop seen l'
        else item :: dedup_loop (item :: seen) l'
      else item :: dedup_loop seen l'
  end.
Definition dedup (value : pyval) : result pyval :=
  match value with
  | PNone => Ok PNone
  | PList l => Ok (PList (dedup_loop [] l))
  | _ => Raise EOperator
  end.

Definition nonempty_str (v : pyval) : bool :=
  match v with PStr s => negb (String.eqb s "") | _ => false end.

(** One entry of [mitre_tactic_to_ocsf]; [None] when its tactic is null. *)
Definition mitre_item (item : pyval) : result (option pyval) :=
  match item with
  | PDict d =>
      match dict_get "tactic" d with
      | None => Raise EOperator
      | Some PNone => Ok None
      | Some (PDict tactic) =>
          let tactic_id := dget "id" tactic in
          let tactic_name := dget "name" tactic in
          if negb (nonempty_str tactic_id) then Raise EOperator
          else if negb (nonempty_str tactic_name) then Raise EOperator
          else Ok (Some (PDict [("tactics", PList [PDict [("uid", tactic_id); ("name", tactic_name)]]);
                                ("version", PStr "16.1")]))
      | Some _ => Raise EOperator
      end
  | _ => Raise EOperator
  end.
Definition mitre_tactic_to_ocsf (value : pyval) : result pyval :=
  match value with
  | PNone => Ok PNone
  | PList l => items ← result_map mitre_item l; Ok (PList (omap id items))
  | _ => Raise EOperator
  end.

(** ** [registry.TYPE_CASTS] and [apply_type_cast] *)

Definition TYPE_CASTS : list (string * (pyval -> result pyval)) :=
  [("iso_to_epoch", iso_to_epoch); ("epoch_to_iso", epoch_to_iso); ("to_str", to_str);
   ("to_int", to_int); ("to_bool", to_bool); ("score_to_percent", score_to_percent);
   ("lowercase", lowercase); ("uppercase", uppercase); ("trim", trim); ("to_array", to_array);
   ("dedup", dedup); ("mitre_tactic_to_ocsf", mitre_tactic_to_ocsf)].

Definition apply_type_cast (value : pyval) (cast_name : string) : result pyval :=
  match dict_get cast_name TYPE_CASTS with
  | None => Raise EOperator
  | Some fn => fn value
  end.

(** ** [value_map] and [default] *)

(** The case-insensitive scan of [apply_value_map] for a string value. *)
Fixpoint value_map_scan {A} (key : string) (mapping : list (string * A)) : option A :=
  match mapping with
  | [] => None
  | (k, v) :: mapping' => if String.eqb (str_lower k) key then Some v else value_map_scan key mapping'
  end.

(** The lookup of [apply_value_map]: [Some] on a hit, [None] on the passthrough.
    A JSON mapping has string keys, so a value that is not a string has only its
    [str] to be found by; an unhashable one raises [TypeError]. *)
Definition value_map_lookup {A} (value : pyval) (mapping : list (string * A)) : result (option A) :=
  match value with
  | PStr s => Ok (value_map_scan (str_lower s) mapping)
  | _ =>
      if negb (hashable value) then Raise EType
      else if is_none value then Ok None
      else Ok (dict_get (py_str value) mapping)
  end.
Definition apply_value_map (value : pyval) (mapping : list (string * pyval)) : result pyval :=
  hit ← value_map_lookup value mapping;
  Ok (default value hit).

Definition apply_default (value dflt : pyval) : pyval := if is_none value then dflt else value.

End casts.

(** ** [preprocess.json_parse] *)

Section preprocess.
Context `{JsonLoads} `{JsonLimit}.

Definition is_parse_error (e : exn) : bool :=
  match e with ERecursion => true | _ => is_value_error e end.

Definition json_parse (value : pyval) (tolerant : bool) : result pyval :=
  match value with
  | PNone => Ok PNone
  | PStr s =>
      if JSON_MAX_BYTES <? Z.of_nat (utf8_len s) then Raise EOperatorSize
      else try_except (json_loads s) is_parse_error
             (fun _ => if tolerant then Ok PNone else Raise EOperator)
  | _ => if tolerant then Ok PNone else Raise EOperator
  end.

Definition PREPROCESS_OPS : list (string * (pyval -> bool -> result pyval)) :=
  [("json_parse", json_parse)].

Definition apply_preprocess_op (value : pyval) (op_name : string) (tolerant : bool) : result pyval :=
  match dict_get op_name PREPROCESS_OPS with
  | None => Raise EOperator
  | Some fn => fn value tolerant
  end.

End preprocess.

(** ** String lemmas *)

Lemma str_rev_app_spec s acc : str_rev_app s acc = (str_rev s +:+ acc)%string.
Proof.
  unfold str_rev. revert acc. induction s as [|a s IH]; intros acc; [done|]. cbn [str_rev_app].
  rewrite IH, (IH (String a "")). clear. induction (str_rev_app s ""); [done|].
  change ((String a0 s0 +:+ String a "") +:+ acc)%string with (String a0 ((s0 +:+ String a "") +:+ acc)).
  change (String a0 s0 +:+ String a acc)%string with (String a0 (s0 +:+ String a acc)). by rewrite IHs0.
Qed.

Lemma str_rev_cons a s : str_rev (String a s) = (str_rev s +:+ String a "")%string.
Proof. exact (str_rev_app_spec s (String a "")). Qed.

Lemma str_rev_snoc s a : str_rev (s +:+ String a "")%string = String a (str_rev s).
Proof.
  induction s as [|b s IH]; [done|].
  change (String b s +:+ String a "")%string with (String b (s +:+ String a "")).
  by rewrite !str_rev_cons, IH.
Qed.

Lemma str_rev_involutive s : str_rev (str_rev s) = s.
Proof. induction s as [|a s IH]; [done|]. by rewrite str_rev_cons, str_rev_snoc, IH. Qed.

Lemma str_lstrip_idemp s : str_lstrip (str_lstrip s) = str_lstrip s.
Proof. induction s as [|a s IH]; [done|]. cbn. destruct (is_space a) eqn:E; [done|]. cbn. by rewrite E. Qed.

Lemma str_lstrip_head s :
  str_lstrip s = ""%string \/ exists a t, str_lstrip s = String a t /\ is_space a = false.
Proof. induction s as [|a s IH]; [by left|]. cbn. destruct (is_space a) eqn:E; [done|]. right. eauto. Qed.

Lemma str_lstrip_snoc s a :
  is_space a = false -> str_lstrip (s +:+ String a "")%string = (str_lstrip s +:+ String a "")%string.
Proof.
  intros Ha. induction s as [|b s IH].
  - change ("" +:+ String a "")%string with (String a ""). cbn. by rewrite Ha.
  - change (String b s +:+ String a "")%string with (String b (s +:+ String a "")). cbn [str_lstrip].
    by destruct (is_space b).
Qed.

Lemma str_strip_idemp s : str_strip (str_strip s) = str_strip s.
Proof.
  unfold str_strip. destruct (str_lstrip_head s) as [->|(a & t & -> & Ha)]; [done|].
  rewrite str_rev_cons, str_lstrip_snoc, str_rev_snoc by done. cbn [str_lstrip]. rewrite Ha.
  rewrite str_rev_cons, str_rev_involutive, str_lstrip_snoc, str_lstrip_idemp, str_rev_snoc by done. done.
Qed.

Lemma str_map_idemp f s : (forall a, f (f a) = f a) -> str_map f (str_map f s) = str_map f s.
Proof. intros Hf. induction s as [|a s IH]; cbn; [done|]. by rewrite Hf, IH. Qed.

(** A decidable fact about every character, by enumeration. *)
Lemma ascii_forall (p : ascii -> bool) :
  forallb p (map ascii_of_nat (seq 0 256)) = true -> forall a, p a = true.
Proof.
  rewrite forallb_forall. intros Hp a. apply Hp. rewrite in_map_iff. exists (nat_of_ascii a).
  split; [apply ascii_nat_embedding|]. apply in_seq. pose proof (nat_ascii_bounded a). lia.
Qed.
Lemma ascii_lower_idemp a : ascii_lower (ascii_lower a) = ascii_lower a.
Proof. apply Ascii.eqb_eq. revert a. by apply ascii_forall. Qed.
Lemma ascii_upper_idemp a : ascii_upper (ascii_upper a) = ascii_upper a.
Proof. apply Ascii.eqb_eq. revert a. by apply ascii_forall. Qed.

Lemma str_lower_idemp s : str_lower (str_lower s) = str_lower s.
Proof. apply str_map_idemp, ascii_lower_idemp. Qed.

(** ** Casts *)

Section cast_theorems.
Context `{FloatRepr} `{FloatParse} `{IsoParse}.

Lemma apply_type_cast_elem v c w :
  apply_type_cast v c = Ok w -> exists fn, (c, fn) ∈ TYPE_CASTS /\ fn v = Ok w.
Proof.
  unfold apply_type_cast. destruct (dict_get c TYPE_CASTS) as [fn|] eqn:E; [|done].
  intros Hw. exists fn. split; [by apply dict_get_elem|done].
Qed.

Lemma result_fmap_ok {A B} (f : A -> B) (m : result A) b :
  f <$> m = Ok b -> exists a, m = Ok a /\ b = f a.
Proof. destruct m; cbn; naive_solver. Qed.

Lemma cast_presence v c w : apply_type_cast v c = Ok w -> v <> PNone -> w <> PNone.
Proof.
  intros (fn & Hin & Hfn)%apply_type_cast_elem Hv.
  repeat (apply elem_of_cons in Hin as [[= -> ->]|Hin]); [..|by apply elem_of_nil in Hin].
  - unfold iso_to_epoch in Hfn. repeat case_match; try done; apply result_fmap_ok in Hfn as (? & _ & ->); discriminate.
  - unfold epoch_to_iso in Hfn. apply result_bind_ok in Hfn as (v' & _ & Hfn). case_match; [|done].
    apply result_bind_ok in Hfn as (? & _ & Hfn). apply result_fmap_ok in Hfn as (? & _ & ->). discriminate.
  - unfold to_str in Hfn. destruct (is_none v); naive_solver.
  - unfold to_int in Hfn. repeat case_match; try done; [naive_solver | | naive_solver].
    apply result_fmap_ok in Hfn as (? & _ & ->). discriminate.
  - unfold to_bool in Hfn. repeat case_match; naive_solver.
  - unfold score_to_percent in Hfn. repeat case_match; try done; [naive_solver|].
    apply result_fmap_ok in Hfn as (? & _ & ->). discriminate.
  - unfold lowercase, string_cast in Hfn. case_match; naive_solver.
  - unfold uppercase, string_cast in Hfn. case_match; naive_solver.
  - unfold trim, string_cast in Hfn. case_match; naive_solver.
  - unfold to_array in Hfn. case_match; naive_solver.
  - unfold dedup in Hfn. case_match; naive_solver.
  - unfold mitre_tactic_to_ocsf in Hfn. case_match; try done.
    apply result_bind_ok in Hfn as (? & _ & [= <-]). discriminate.
Qed.

(** [cast_keeps_presence] (a cast never erases a value).  Whatever the cast,
    when it succeeds on a value that is not [None] its result is not [None]. *)
Theorem cast_keeps_presence v c w :
  apply_type_cast v c = Ok w -> v <> PNone -> w <> PNone.
Proof. apply cast_presence. Qed.

End cast_theorems.

(** ** [dedup] *)

Lemma dedup_loop_sublist seen l : dedup_loop seen l `sublist_of` l.
Proof.
  revert seen. induction l as [|x l IH]; intros seen; [done|]. cbn.
  repeat case_match; by constructor.
Qed.

Lemma dedup_loop_fresh seen l x :
  x ∈ dedup_loop seen l -> hashable x = true -> existsb (py_eq x) seen = false.
Proof.
  revert seen. induction l as [|y l IH]; intros seen; cbn; [by rewrite elem_of_nil|].
  destruct (hashable y) eqn:Hy.
  - destruct (existsb (py_eq y) seen) eqn:Hs; [apply IH|].
    rewrite elem_of_cons. intros [->|Hx] Hh; [done|]. specialize (IH _ Hx Hh).
    cbn in IH. by apply orb_false_iff in IH as [_ IH].
  - rewrite elem_of_cons. intros [->|Hx] Hh; [congruence | by apply IH].
Qed.

Lemma dedup_loop_covers seen l x :
  x ∈ l ->
  x ∈ dedup_loop seen l \/ (hashable x = true /\ exists y, y ∈ seen ++ dedup_loop seen l /\ py_eq x y = true).
Proof.
  revert seen. induction l as [|y l IH]; intros seen; cbn; [by rewrite elem_of_nil|].
  rewrite elem_of_cons. intros [->|Hx].
  - destruct (hashable y) eqn:Hy; [|by left; left].
    destruct (existsb (py_eq y) seen) eqn:Hs; [|by left; left].
    apply existsb_exists in Hs as (z & Hz%list_elem_of_In & Hyz). right. split; [done|].
    exists z. split; [|done]. apply elem_of_app. by left.
  - repeat case_match.
    + apply IH; done.
    + destruct (IH (y :: seen) Hx) as [?|(Hh & z & Hz & Hxz)]; [by left; right|].
      right. split; [done|]. exists z. split; [|done]. set_solver.
    + destruct (IH seen Hx) as [?|(Hh & z & Hz & Hxz)]; [by left; right|].
      right. split; [done|]. exists z. split; [|done]. set_solver.
Qed.

(** [dedup_spec] (the [dedup] cast).  The result keeps the order of the
    input, holds no hashable item equal to an earlier item of the result, keeps
    every unhashable item, and every hashable item of the input is equal to one
    that was kept. *)
Theorem dedup_spec l :
  exists r, dedup (PList l) = Ok (PList r) /\ r `sublist_of` l /\
    ForallOrdPairs (fun x y => hashable x = true -> hashable y = true -> py_eq y x = false) r /\
    (forall x, x ∈ l -> x ∈ r \/ (hashable x = true /\ exists y, y ∈ r /\ py_eq x y = true)).
Proof.
  exists (dedup_loop [] l). split_and!; [done | apply dedup_loop_sublist | | ].
  - generalize (@nil pyval) as seen. induction l as [|x l IH]; intros seen; [constructor|]. cbn.
    destruct (hashable x) eqn:Hx; [destruct (existsb (py_eq x) seen); [apply IH|]|].
    + constructor; [|apply IH]. apply Forall_forall. intros y Hy _ Hh.
      apply dedup_loop_fresh in Hy; [|done]. cbn in Hy. by apply orb_false_iff in Hy as [? _].
    + constructor; [|apply IH]. apply Forall_forall. intros; congruence.
  - exact (dedup_loop_covers [] l).
Qed.

Lemma dedup_loop_idemp seen l : dedup_loop seen (dedup_loop seen l) = dedup_loop seen l.
Proof.
  revert seen. induction l as [|x l IH]; intros seen; [done|]. cbn.
  destruct (hashable x) eqn:Hx; [destruct (existsb (py_eq x) seen) eqn:Hs; [apply IH|]|];
    cbn; rewrite Hx; [rewrite Hs|]; by rewrite IH.
Qed.

Definition IDEMPOTENT_CASTS : list string :=
  ["to_str"; "to_int"; "to_bool"; "lowercase"; "uppercase"; "trim"; "to_array"; "dedup"].

(** [cast_idempotent] (normalising twice is normalising once).  The casts
    that do not change units give back their own results unchanged, so a value
    that [pre_cast] already normalised goes through the same [type_cast]
    untouched. *)
Theorem cast_idempotent `{FloatRepr} `{FloatParse} `{IsoParse} v c w :
  c ∈ IDEMPOTENT_CASTS -> apply_type_cast v c = Ok w -> apply_type_cast w c = Ok w.
Proof.
  intros Hc. unfold IDEMPOTENT_CASTS in Hc.
  repeat (apply elem_of_cons in Hc as [->|Hc]); [..|by apply elem_of_nil in Hc];
    unfold apply_type_cast; cbn.
  - unfold to_str. destruct (is_none v); [done|]. by intros [= <-].
  - unfold to_int. destruct v; cbn; try done; [by intros [= <-] | | case_match; naive_solver].
    intros (z & _ & ->)%result_fmap_ok. done.
  - unfold to_bool. repeat case_match; naive_solver.
  - unfold lowercase, string_cast. case_match; intros [= <-]; [done|]. by rewrite str_lower_idemp.
  - unfold uppercase, string_cast. case_match; intros [= <-]; [done|].
    unfold str_upper. by rewrite (str_map_idemp _ _ ascii_upper_idemp).
  - unfold trim, string_cast. case_match; intros [= <-]; [done|]. by rewrite str_strip_idemp.
  - unfold to_array. case_match; by intros [= <-].
  - unfold dedup. case_match; intros [= <-]; [done|]. by rewrite dedup_loop_idemp.
Qed.

(** ** Examples and witnesses *)

Definition demo_float_parse : FloatParse := fun _ => None.
Definition demo_iso : IsoParse := fun s =>
  if String.eqb s "2026-04-23T14:22:10+00:00" then Some (float_of_Z 1776954130) else None.

Section examples.
#[local] Existing Instance demo_float_repr.
#[local] Existing Instance demo_float_parse.
#[local] Existing Instance demo_iso.

Example iso_to_epoch_ex : iso_to_epoch (PStr "2026-04-23T14:22:10Z") = Ok (PInt 1776954130000).
Proof. reflexivity. Qed.
Example epoch_to_iso_ex : epoch_to_iso (PInt 1776954130) = Ok (PStr "2026-04-23T14:22:10Z").
Proof. reflexivity. Qed.
Example epoch_to_iso_neg : epoch_to_iso (PInt (-1)) = Ok (PStr "1969-12-31T23:59:59Z").
Proof. reflexivity. Qed.
Example to_int_ex : to_int (PStr " -1_000 ") = Ok (PInt (-1000)).
Proof. reflexivity. Qed.
Example score_ex : score_to_percent (PFloat (float_div (float_of_Z 1) (float_of_Z 8))) = Ok (PInt 12).
Proof. reflexivity. Qed.

Lemma cast_keeps_presence_witness :
  apply_type_cast (PStr " Alice ") "trim" = Ok (PStr "Alice") /\ PStr "Alice" <> PNone.
Proof.
  split; [reflexivity|].
  apply (cast_keeps_presence (PStr " Alice ") "trim"); [reflexivity | discriminate].
Defined.

Lemma cast_idempotent_witness :
  "trim" ∈ IDEMPOTENT_CASTS /\ apply_type_cast (PStr " Alice ") "trim" = Ok (PStr "Alice") /\
  apply_type_cast (PStr "Alice") "trim" = Ok (PStr "Alice").
Proof.
  assert ("trim" ∈ IDEMPOTENT_CASTS) as Hin by (apply list_elem_of_In; cbn; tauto).
  split; [exact Hin|]. split; [reflexivity|].
  exact (cast_idempotent (PStr " Alice ") "trim" _ Hin eq_refl).
Defined.

(** [epoch_to_iso] is documented as the inverse of [iso_to_epoch]; an instant
    before 1973-03-03 written in milliseconds is read back as seconds. *)
Lemma epoch_round_trip_fails :
  epoch_to_iso (PInt 100000) = Ok (PStr "1970-01-02T03:46:40Z") /\
  iso_of_seconds 100 = Ok "1970-01-01T00:01:40Z".
Proof. split; reflexivity. Qed.

(** Values outside the tested types leave the casts with an exception that is
    not an [OperatorError], which the engine does not catch. *)
Lemma casts_leak_exceptions :
  to_int (PFloat (S754_infinity false)) = Raise EOverflow /\
  epoch_to_iso (PInt 999999999999999) = Raise EValue /\
  value_map_lookup (A:=pyval) (PList []) [("3", PStr "high")] = Raise EType.
Proof. split_and!; reflexivity. Qed.
End examples.

Definition demo_json : JsonLoads := fun s =>
  if String.eqb s "[1]" then Ok (PList [PInt 1]) else Raise EJsonDecode.
Definition demo_limit : JsonLimit := 16.
