(* ===== verification/Reduction.v ===== *)
(** * Reduction of the vendor payload

    Models [collectors/normalize/payload_reduction.py]: the [raw_reduction]
    block of DSL v2 prunes strings, lists and keys of a copy of the raw event.

    The copy-on-write of the code returns the same reference when nothing
    changed; here a node comes with the flag the code returns beside it. *)

From S2P Require Import Prelude PyVal.

#[local] Set Warnings "-register-all".

Local Open Scope string_scope.
Local Open Scope list_scope.
Local Open Scope Z_scope.

Definition LIST_WILDCARD : string := "[]".

Record reduction_spec := ReductionSpec {
  red_path_str : string;
  red_path_parts : list string;
  red_max_items : option Z;
  red_max_bytes : option Z;
  red_drop : bool;
  red_keep_only : option (list string);
  red_drop_nulls : bool;
}.

Definition is_global (s : reduction_spec) : bool :=
  red_drop_nulls s && match red_path_parts s with [] => true | _ => false end.

(** ** Compilation *)

(** [segment.endswith("[]")], with what stands before. *)
Definition strip_wildcard (segment : string) : option string :=
  match str_rev segment with
  | String "]" (String "[" before) => Some (str_rev before)
  | _ => None
  end.

Definition split_segment (segment : string) : list string :=
  match strip_wildcard segment with
  | Some before => (if String.eqb before "" then [] else [before]) ++ [LIST_WILDCARD]
  | None => [segment]
  end.

Definition split_path (path : string) : list string :=
  mjoin (split_segment <$> filter (fun p => String.eqb p "" = false) (str_split "." path)).

(** [v is None] or a positive [int] that is not a [bool]. *)
Definition positive_limit (v : pyval) : result (option Z) :=
  match v with
  | PNone => Ok None
  | PInt z => if z <=? 0 then Raise EMappingDefinition else Ok (Some z)
  | _ => Raise EMappingDefinition
  end.

Definition keep_list (v : pyval) : result (option (list string)) :=
  match v with
  | PNone => Ok None
  | PList l =>
      keys ← result_map (fun k => match k with
                                  | PStr s => if String.eqb s "" then Raise EMappingDefinition else Ok s
                                  | _ => Raise EMappingDefinition
                                  end) l;
      Ok (Some keys)
  | _ => Raise EMappingDefinition
  end.

Definition compile_spec (item : pyval) : result reduction_spec :=
  match item with
  | PDict d =>
      let drop_nulls := truthy (dget "drop_nulls" d) in
      let path := dget "path" d in
      if drop_nulls && is_none path then Ok (ReductionSpec "" [] None None false None true)
      else
        match path with
        | PStr p =>
            raise_if (str_blank p) EMappingDefinition;;
            let parts := split_path p in
            raise_if (bool_decide (parts = [])) EMappingDefinition;;
            let max_items := dget "max_items" d in
            let max_bytes := dget "max_bytes" d in
            let drop := truthy (dget "drop" d) in
            keep_only ← keep_list (dget "keep_only" d);
            raise_if (is_none max_items && is_none max_bytes && negb drop &&
                      negb (bool_decide (is_Some keep_only)) && negb drop_nulls) EMappingDefinition;;
            raise_if (drop && (negb (is_none max_items) || negb (is_none max_bytes) ||
                               bool_decide (is_Some keep_only))) EMappingDefinition;;
            items ← positive_limit max_items;
            bytes ← positive_limit max_bytes;
            Ok (ReductionSpec p parts items bytes drop keep_only drop_nulls)
        | _ => Raise EMappingDefinition
        end
  | _ => Raise EMappingDefinition
  end.

Definition compile_raw_reduction (raw_reduction : pyval) : result (list reduction_spec) :=
  match raw_reduction with
  | PNone => Ok []
  | PList l => result_map compile_spec l
  | _ => Raise EMappingDefinition
  end.

(** ** Application *)

(** What a leaf-op asks for: the value itself, the removal of its key, or a new
    value. *)
Inductive leaf_result := LeafSame | LeafRemove | LeafSet (v : pyval).

Section transform.
(** The leaf-op also appends the provenance mark of what it did. *)
Context (leaf_op : pyval -> leaf_result * list string).

(** [_transform]: the new node, whether it changed, the marks appended. *)
Fixpoint transform (parts : list string) (node : pyval) : pyval * bool * list string :=
  match parts with
  | [] => (node, false, [])
  | head :: rest =>
      if String.eqb head LIST_WILDCARD then
        match node with
        | PList l =>
            let results := map (transform rest) l in
            let changed := existsb (fun r => r.1.2) results in
            ((if changed then PList (map (fun r => r.1.1) results) else node), changed,
             mjoin (map snd results))
        | _ => (node, false, [])
        end
      else
        match node with
        | PDict d =>
            match dict_get head d with
            | None => (node, false, [])
            | Some v =>
                match rest with
                | [] =>
                    match leaf_op v with
                    | (LeafSame, marks) => (node, false, marks)
                    | (LeafRemove, marks) => (PDict (dict_pop head d), true, marks)
                    | (LeafSet w, marks) => (PDict (dict_set head w d), true, marks)
                    end
                | _ =>
                    let '(child, changed, marks) := transform rest v in
                    ((if changed then PDict (dict_set head child d) else node), changed, marks)
                end
            end
        | _ => (node, false, [])
        end
  end.
End transform.

Fixpoint prune_nulls (node : pyval) : pyval * bool :=
  match node with
  | PDict d =>
      let '(out, changed) :=
        (fix go (d : list (string * pyval)) : list (string * pyval) * bool :=
           match d with
           | [] => ([], false)
           | (key, value) :: d' =>
               let '(out, changed) := go d' in
               if is_none value then (out, true)
               else let '(new_value, value_changed) := prune_nulls value in
                    ((key, new_value) :: out, value_changed || changed)
           end) d in
      if changed then (PDict out, true) else (node, false)
  | PList l =>
      let '(out, changed) :=
        (fix go (l : list pyval) : list pyval * bool :=
           match l with
           | [] => ([], false)
           | item :: l' =>
               let '(out, changed) := go l' in
               let '(new_item, item_changed) := prune_nulls item in
               (new_item :: out, item_changed || changed)
           end) l in
      if changed then (PList out, true) else (node, false)
  | _ => (node, false)
  end.

Definition leaf_mark (spec : reduction_spec) (what : string) : list string :=
  [(red_path_str spec +:+ what)%string].

(** [_leaf] of [apply_raw_reduction]. *)
Definition leaf (spec : reduction_spec) (value : pyval) : leaf_result * list string :=
  if red_drop spec then (LeafRemove, leaf_mark spec "(dropped)")
  else match red_keep_only spec, value with
  | Some keys, PDict d =>
      let kept := filter (fun kv => bool_decide (kv.1 ∈ keys) = true) d in
      if Nat.eqb (length kept) (length d) then (LeafSame, [])
      else (LeafSet (PDict kept),
            leaf_mark spec ("(kept " +:+ str_of_nat (length kept) +:+ "/" +:+ str_of_nat (length d) +:+ ")"))
  | _, _ =>
      match red_max_items spec, value with
      | Some n, PList l =>
          if n <? Z.of_nat (length l)
          then (LeafSet (PList (take (Z.to_nat n) l)),
                leaf_mark spec ("[+" +:+ str_of_Z (Z.of_nat (length l) - n) +:+ " items]"))
          else (LeafSame, [])
      | _, _ =>
          match red_max_bytes spec, value with
          | Some n, PStr s =>
              if n <? Z.of_nat (utf8_len s)
              then (LeafSet (PStr (utf8_clip (Z.to_nat n) s)),
                    leaf_mark spec ("(~" +:+ str_of_Z (Z.of_nat (utf8_len s) - n) +:+ "B)"))
              else (LeafSame, [])
          | _, _ => (LeafSame, [])
          end
      end
  end.

(** One turn of the loop of [apply_raw_reduction] on [(obj, dropped)]. *)
Definition reduce_step (st : pyval * list string) (spec : reduction_spec) : pyval * list string :=
  let '(obj, dropped) := st in
  if is_global spec then
    let '(new_obj, changed) := prune_nulls obj in
    if changed then (new_obj, dropped ++ ["nulls"]) else (obj, dropped)
  else
    let '(new_obj, changed, marks) := transform (leaf spec) (red_path_parts spec) obj in
    if changed then (new_obj, dropped ++ marks) else (obj, dropped).

Definition REDUCED_KEY : string := "_centralops_reduced".

(** [obj] is [raw] itself exactly when no step changed it, and then [dropped] is
    empty. *)
Definition apply_raw_reduction (raw : list (string * pyval)) (specs : list reduction_spec)
  : option (list (string * pyval)) :=
  match specs with
  | [] => None
  | _ =>
      let '(obj, dropped) := foldl reduce_step (PDict raw, []) specs in
      match dropped with
      | [] => None
      | _ => Some (dict_set REDUCED_KEY (PList (PStr <$> dropped)) (dict_items obj))
      end
  end.

(** ** Specification: what a path reaches and what a spec allows there *)

(** The values a path designates, as documented: a [[]] stands for each item of a
    list. *)
Fixpoint reaches (parts : list string) (v w : pyval) : Prop :=
  match parts with
  | [] => w = v
  | head :: rest =>
      if String.eqb head LIST_WILDCARD then
        match v with PList l => exists x, x ∈ l /\ reaches rest x w | _ => False end
      else
        match v with
        | PDict d => exists x, dict_get head d = Some x /\ reaches rest x w
        | _ => False
        end
  end.

(** The last segment is a key, or [[]]. *)
Definition ends_in_key (parts : list string) : Prop := match last parts with Some p => p <> LIST_WILDCARD | None => False end.
Definition ends_in_wildcard (parts : list string) : bool := bool_decide (last parts = Some LIST_WILDCARD).

Definition within (spec : reduction_spec) (w : pyval) : Prop :=
  red_drop spec = false /\
  match w with
  | PDict d => forall keys, red_keep_only spec = Some keys -> forall k, k ∈ dict_keys d -> k ∈ keys
  | PList l => forall n, red_max_items spec = Some n -> Z.of_nat (length l) <= n
  | PStr s => forall n, red_max_bytes spec = Some n -> Z.of_nat (utf8_len s) <= n
  | _ => True
  end.

(** [shrinks v' v]: [v'] is [v] with keys, list tails and string tails removed. *)
Inductive shrinks : pyval -> pyval -> Prop :=
| shrinks_refl v : shrinks v v
| shrinks_str s' s : str_prefix s' s = true -> shrinks (PStr s') (PStr s)
| shrinks_list l' l : Forall2 shrinks l' (take (length l') l) -> shrinks (PList l') (PList l)
| shrinks_dict d' d :
    (forall k x', dict_get k d' = Some x' -> exists x, dict_get k d = Some x /\ shrinks x' x) ->
    shrinks (PDict d') (PDict d).

(** No dict of [v], at any depth, binds a key to [None]. *)
Inductive null_free : pyval -> Prop :=
| null_free_atom v : is_list v = false -> is_mapping v = false -> null_free v
| null_free_list l : Forall null_free l -> null_free (PList l)
| null_free_dict d :
    (forall k x, dict_get k d = Some x -> x <> PNone /\ null_free x) -> null_free (PDict d).

(** ** Lemmas *)

Lemma str_prefix_refl s : str_prefix s s = true.
Proof. induction s as [|a s IH]; [done|]. cbn. by rewrite Ascii.eqb_refl. Qed.
Lemma str_prefix_trans s t u : str_prefix s t = true -> str_prefix t u = true -> str_prefix s u = true.
Proof.
  revert t u. induction s as [|a s IH]; intros [|b t] [|c u]; cbn; try done.
  intros [->%Ascii.eqb_eq H1]%andb_true_iff [->%Ascii.eqb_eq H2]%andb_true_iff.
  rewrite Ascii.eqb_refl. cbn. eauto.
Qed.
Lemma str_prefix_utf8_len s t : str_prefix s t = true -> (utf8_len s <= utf8_len t)%nat.
Proof.
  revert t. induction s as [|a s IH]; intros [|b t]; cbn; try done; [lia|].
  intros [->%Ascii.eqb_eq H1]%andb_true_iff. apply IH in H1. lia.
Qed.
Lemma utf8_clip_prefix n s : str_prefix (utf8_clip n s) s = true.
Proof.
  revert n. induction s as [|a s IH]; intros n; [done|]. cbn.
  destruct (Nat.leb _ _); [|done]. cbn. by rewrite Ascii.eqb_refl, IH.
Qed.
Lemma utf8_clip_len n s : (utf8_len (utf8_clip n s) <= n)%nat.
Proof.
  revert n. induction s as [|a s IH]; intros n; cbn; [lia|].
  destruct (Nat.leb_spec (utf8_width a) n); cbn; [|lia]. specialize (IH (n - utf8_width a)%nat). lia.
Qed.

Lemma shrinks_list_id l : shrinks (PList l) (PList l).
Proof. apply shrinks_refl. Qed.

Lemma Forall2_take_take {A} (R : A -> A -> Prop) l' l k :
  Forall2 R l' (take (length l') l) -> Forall2 R (take k l') (take (length (take k l')) l).
Proof.
  intros HF. rewrite length_take.
  assert (take (Nat.min k (length l')) l = take k (take (length l') l)) as ->
    by (rewrite take_take; done).
  by apply Forall2_take.
Qed.

Lemma shrinks_trans u v w : shrinks u v -> shrinks v w -> shrinks u w.
Proof.
  revert v w. induction u as [| | | |s|l IH|d IH] using pyval_ind'; intros v w H1 H2.
  1-4: by inversion H1; subst.
  - inversion H1 as [|? t Ht| |]; subst; [done|]. inversion H2; subst; [done|].
    constructor. by eapply str_prefix_trans.
  - inversion H1 as [| |? m Hm|]; subst; [done|]. inversion H2 as [| |? k Hk|]; subst; [done|].
    constructor. apply (Forall2_take_take _ _ _ (length l)) in Hk.
    assert (length (take (length l) m) = length l) as HL by (symmetry; by eapply Forall2_length).
    rewrite HL in Hk. revert Hm Hk. generalize (take (length l) k) as k'.
    generalize (take (length l) m) as m'. clear -IH.
    induction IH as [|x l Hx _ IHl]; intros m' k' Hm Hk; inversion Hm; subst; inversion Hk; subst; constructor; eauto.
  - inversion H1 as [| | |? e He]; subst; [done|]. inversion H2 as [| | |? g Hg]; subst; [done|].
    constructor. intros k x Hx. destruct (He k x Hx) as (y & Hy & Hxy).
    destruct (Hg k y Hy) as (z & Hz & Hyz). exists z. split; [done|].
    rewrite Forall_forall in IH. apply dict_get_elem in Hx. by apply (IH (k, x) Hx y).
Qed.

#[export] Instance shrinks_preorder : PreOrder shrinks.
Proof. split; [exact shrinks_refl | exact shrinks_trans]. Qed.

Lemma shrinks_none u v : shrinks u v -> u = PNone -> v = PNone.
Proof. by inversion 1. Qed.

Lemma shrinks_set d k w v :
  dict_get k d = Some v -> shrinks w v -> shrinks (PDict (dict_set k w d)) (PDict d).
Proof.
  intros Hg Hw. constructor. intros k' x'. destruct (decide (k' = k)) as [->|Hne].
  - rewrite dict_get_set_eq. intros [= <-]. eauto.
  - rewrite dict_get_set_ne by done. intros Hx. exists x'. split; [done|reflexivity].
Qed.

Lemma shrinks_pop d k : shrinks (PDict (dict_pop k d)) (PDict d).
Proof.
  constructor. intros k' x'. destruct (decide (k' = k)) as [->|Hne].
  - by rewrite dict_get_pop_eq.
  - rewrite dict_get_pop_ne by done. intros Hx. exists x'. split; [done|reflexivity].
Qed.

Lemma dict_get_filter_key {A} (p : string -> bool) k (d : list (string * A)) :
  dict_get k (filter (fun kv => p kv.1 = true) d) = if p k then dict_get k d else None.
Proof.
  induction d as [|[k' v] d IH]; [by destruct (p k)|]. rewrite filter_cons. cbn.
  destruct (decide _) as [E|E]; cbn; destruct (String.eqb_spec k k') as [->|].
  - by rewrite E.
  - done.
  - rewrite IH. by destruct (p k').
  - done.
Qed.

Lemma shrinks_filter_key (p : string -> bool) d :
  shrinks (PDict (filter (fun kv => p kv.1 = true) d)) (PDict d).
Proof.
  constructor. intros k x. rewrite dict_get_filter_key. destruct (p k); [|done].
  intros Hx. exists x. split; [done|reflexivity].
Qed.

Lemma shrinks_map (f : pyval -> pyval) l :
  (forall x, x ∈ l -> shrinks (f x) x) -> shrinks (PList (map f l)) (PList l).
Proof.
  intros Hf. constructor. rewrite length_map, take_ge by lia.
  induction l as [|x l IH]; constructor; [apply Hf; by left | apply IH; intros; apply Hf; by right].
Qed.

(** ** The leaf-op *)

Definition mark_free (r : leaf_result) : bool := match r with LeafSame => true | _ => false end.

Lemma leaf_marks spec v r ms : leaf spec v = (r, ms) -> mark_free r = false -> ms <> [].
Proof. unfold leaf. repeat case_match; intros [= <- <-]; by cbn. Qed.

Lemma leaf_same_within spec v ms : leaf spec v = (LeafSame, ms) -> within spec v.
Proof.
  unfold leaf, within. destruct (red_drop spec) eqn:Hd; [done|]. intros Hl. split; [done|].
  destruct v as [| | | |s|l|d]; try done.
  - intros n Hn. rewrite Hn in Hl.
    destruct (Z.ltb_spec n (Z.of_nat (utf8_len s))); [|done].
    by destruct (red_keep_only spec), (red_max_items spec).
  - intros n Hn. rewrite Hn in Hl. destruct (Z.ltb_spec n (Z.of_nat (length l))); [|done].
    by destruct (red_keep_only spec).
  - intros keys HK k Hk. rewrite HK in Hl.
    destruct (Nat.eqb_spec (length (filter (fun kv => bool_decide (kv.1 ∈ keys) = true) d)) (length d))
      as [E|]; [|done].
    apply list_elem_of_fmap in Hk as (kv & -> & Hkv). apply dec_stable. intros Hn.
    apply (length_filter_lt (fun kv => bool_decide (kv.1 ∈ keys) = true)) in Hkv; [lia|].
    by rewrite bool_decide_eq_true.
Qed.

Lemma positive_take (n : Z) (l : list pyval) :
  (n <? Z.of_nat (length l)) = true -> 0 <= n -> Z.of_nat (length (take (Z.to_nat n) l)) <= n.
Proof. rewrite length_take. lia. Qed.

(** The limits of a compiled spec are positive. *)
Definition spec_wf (spec : reduction_spec) : Prop :=
  (forall n, red_max_items spec = Some n -> 0 < n) /\ (forall n, red_max_bytes spec = Some n -> 0 < n).

Lemma leaf_set_within spec v w ms : spec_wf spec -> leaf spec v = (LeafSet w, ms) -> within spec w.
Proof.
  intros [Hi Hb]. unfold leaf, within. destruct (red_drop spec) eqn:Hd; [done|]. intros Hl. split; [done|].
  destruct (red_keep_only spec) as [keys|] eqn:HK, v as [| | | |s|l|d];
    repeat (case_match; try done); simplify_eq; try done; intros; simplify_eq.
  all: first
    [ match goal with H : _ ∈ dict_keys _ |- _ => apply list_elem_of_fmap in H as (kv & -> & Hkv) end;
      apply list_elem_of_filter in Hkv as [Hkv _]; by apply bool_decide_eq_true in Hkv
    | apply positive_take; [done|]; apply Z.lt_le_incl, Hi; congruence
    | match goal with |- context [utf8_clip (Z.to_nat ?m) ?t] => pose proof (utf8_clip_len (Z.to_nat m) t);
        assert (0 < m) by (apply Hb; congruence) end; lia ].
Qed.

Lemma shrinks_take n l : shrinks (PList (take n l)) (PList l).
Proof.
  constructor. replace (take (length (take n l)) l) with (take n l).
  - clear. induction (take n l); constructor; [reflexivity|done].
  - rewrite length_take. revert l. induction n as [|n IH]; intros [|x l]; cbn; by rewrite <- ?IH.
Qed.

Lemma leaf_set_shrinks spec v w ms : leaf spec v = (LeafSet w, ms) -> shrinks w v.
Proof.
  unfold leaf. repeat case_match; intros [= <- <-];
    first [apply shrinks_take
          | match goal with HK : red_keep_only _ = Some ?keys |- _ =>
              exact (shrinks_filter_key (fun k => bool_decide (k ∈ keys)) _) end
          | apply shrinks_str, utf8_clip_prefix].
Qed.

(** ** [transform] *)

Section transform_lemmas.
Context (leaf_op : pyval -> leaf_result * list string).

Lemma transform_unchanged parts v : (transform leaf_op parts v).1.2 = false -> (transform leaf_op parts v).1.1 = v.
Proof.
  destruct parts as [|head rest]; [done|]. cbn [transform]. destruct (String.eqb head LIST_WILDCARD).
  - destruct v; try done. cbn. by intros ->.
  - destruct v; try done. destruct (dict_get head d); [|done]. destruct rest.
    + destruct (leaf_op p) as [[] ?]; done.
    + destruct (transform leaf_op _ p) as [[c b] m]. cbn. by intros ->.
Qed.

Lemma transform_shrinks parts v :
  (forall x w ms, leaf_op x = (LeafSet w, ms) -> shrinks w x) ->
  shrinks (transform leaf_op parts v).1.1 v.
Proof.
  intros Hl. revert v. induction parts as [|head rest IH]; intros v; [reflexivity|]. cbn [transform].
  destruct (String.eqb head LIST_WILDCARD).
  - destruct v; try reflexivity. cbn. destruct (existsb _ _); [|reflexivity].
    rewrite map_map. by apply shrinks_map.
  - destruct v; try reflexivity. destruct (dict_get head d) as [x|] eqn:Hx; [|reflexivity]. destruct rest.
    + destruct (leaf_op x) as [[| |w] ms] eqn:E; cbn; [reflexivity | apply shrinks_pop |].
      apply (shrinks_set _ _ _ _ Hx). by eapply Hl.
    + specialize (IH x). destruct (transform leaf_op _ x) as [[c b] m]. cbn in *.
      destruct b; [|reflexivity]. by apply (shrinks_set _ _ _ _ Hx).
Qed.

Lemma transform_wf parts v :
  (forall x w ms, leaf_op x = (LeafSet w, ms) -> pywf x -> pywf w) ->
  pywf v -> pywf (transform leaf_op parts v).1.1.
Proof.
  intros Hl. revert v. induction parts as [|head rest IH]; intros v Hv; [done|]. cbn [transform].
  destruct (String.eqb head LIST_WILDCARD).
  - destruct v; try done. cbn. destruct (existsb _ _); [|done]. rewrite map_map. apply pywf_list.
    apply pywf_list_inv in Hv. apply Forall_map. eapply Forall_impl; [exact Hv|]. intros x Hx. by apply IH.
  - destruct v; try done. destruct (dict_get head d) as [x|] eqn:Hx; [|done].
    assert (pywf x) as Hwx by by eapply pywf_dict_get. destruct rest.
    + destruct (leaf_op x) as [[| |w] ms] eqn:E; cbn; [done | by apply pywf_dict_filter |].
      apply pywf_dict_set; [done|]. by eapply Hl.
    + specialize (IH x Hwx). destruct (transform leaf_op _ x) as [[c b] m]. cbn in *.
      destruct b; [|done]. by apply pywf_dict_set.
Qed.

Lemma ends_in_key_cons head rest : ends_in_key (head :: rest) -> rest = [] /\ head <> LIST_WILDCARD \/ ends_in_key rest.
Proof. unfold ends_in_key. destruct rest as [|x rest]; [by left|]. by right. Qed.

(** After [transform], a value at the path is the leaf-op's answer for the value
    that was there. *)
Lemma transform_reaches parts v w :
  ends_in_key parts -> reaches parts (transform leaf_op parts v).1.1 w ->
  exists x ms, leaf_op x = (LeafSame, ms) /\ w = x \/ leaf_op x = (LeafSet w, ms).
Proof.
  intros He. revert v He. induction parts as [|head rest IH]; intros v He; [done|]. apply ends_in_key_cons in He as Hk.
  cbn [transform reaches]. destruct (String.eqb_spec head LIST_WILDCARD) as [->|Hw].
  - destruct Hk as [[_ ?]|Hk]; [done|]. destruct v; try done. cbn. destruct (existsb _ _) eqn:E.
    + intros (y & Hy & Hr). rewrite map_map in Hy. apply list_elem_of_In, in_map_iff in Hy as (x & <- & _).
      by apply IH in Hr.
    + intros (y & Hy & Hr). assert ((transform leaf_op rest y).1.2 = false) as Hc.
      { destruct (transform leaf_op rest y).1.2 eqn:Hc; [|done].
        assert (existsb (fun r : pyval * bool * list string => r.1.2) (map (transform leaf_op rest) l) = true); [|congruence].
        apply existsb_exists. exists (transform leaf_op rest y). split; [|done].
        apply in_map. by apply list_elem_of_In. }
      apply transform_unchanged in Hc. rewrite <- Hc in Hr. by apply IH in Hr.
  - destruct v; try done. destruct (dict_get head d) as [x|] eqn:Hx; [destruct rest as [|next rest]|].
    + destruct (leaf_op x) as [[| |w'] ms] eqn:E; cbn.
      * rewrite Hx. intros (? & [= <-] & ->). eauto.
      * rewrite dict_get_pop_eq. by intros (? & ? & _).
      * rewrite dict_get_set_eq. intros (? & [= <-] & ->). eauto.
    + destruct Hk as [[? _]|Hk]; [done|].
      pose proof (transform_unchanged (next :: rest) x) as Hu. specialize (IH x Hk).
      destruct (transform leaf_op (next :: rest) x) as [[c b] m]. cbn [fst snd] in *. destruct b.
      * rewrite dict_get_set_eq. intros (? & [= <-] & Hr). by apply IH.
      * rewrite Hx. rewrite Hu in IH by done. intros (? & [= <-] & Hr). by apply IH.
    + cbn. rewrite Hx. by intros (? & ? & _).
Qed.

(** A path that ends in [[]] is walked to its end, where nothing is done. *)
Lemma transform_trailing_wildcard parts v : last parts = Some LIST_WILDCARD ->
  (transform leaf_op parts v).1 = (v, false).
Proof.
  revert v. induction parts as [|head rest IH]; intros v Hl; [done|]. cbn [transform].
  assert (rest = [] \/ last rest = Some LIST_WILDCARD) as Hr by (destruct rest; [by left|by right]).
  destruct (String.eqb_spec head LIST_WILDCARD) as [->|Hw].
  - destruct v; try done. cbn. assert (existsb (fun r : pyval * bool * list string => r.1.2) (map (transform leaf_op rest) l) = false) as ->; [|done].
    destruct (existsb _ _) eqn:E; [|done]. apply existsb_exists in E as (r & Hin & Hc).
    apply in_map_iff in Hin as (x & <- & _). destruct Hr as [->|Hr]; [done|]. by rewrite IH in Hc.
  - destruct v; try done. destruct (dict_get head d) as [x|]; [|done]. destruct Hr as [->|Hr].
    + cbn in Hl. congruence.
    + destruct rest as [|next rest]; [done|]. specialize (IH x Hr). destruct (transform leaf_op (next :: rest) x) as [[c b] m].
      cbn in IH. by injection IH as -> ->.
Qed.

Lemma transform_marks parts v :
  (forall x r ms, leaf_op x = (r, ms) -> mark_free r = false -> ms <> []) ->
  (transform leaf_op parts v).1.2 = true -> (transform leaf_op parts v).2 <> [].
Proof.
  intros Hl. revert v. induction parts as [|head rest IH]; intros v; [done|]. cbn [transform].
  destruct (String.eqb head LIST_WILDCARD).
  - destruct v; try done. cbn. intros (r & Hr & Hc)%existsb_exists.
    apply in_map_iff in Hr as (x & <- & Hx). apply IH in Hc. intros Hn. apply Hc.
    apply in_split in Hx as (l1 & l2 & ->). rewrite !map_app in Hn. cbn in Hn.
    rewrite join_app in Hn. cbn in Hn. by apply app_eq_nil in Hn as [_ [Hn _]%app_eq_nil].
  - destruct v; try done. destruct (dict_get head d) as [x|]; [|done]. destruct rest.
    + destruct (leaf_op x) as [[| |w'] ms] eqn:E; cbn; [done| |]; intros _; by eapply Hl.
    + specialize (IH x). by destruct (transform leaf_op _ x) as [[c b] m].
Qed.

End transform_lemmas.

Lemma leaf_wf spec x w ms : leaf spec x = (LeafSet w, ms) -> pywf x -> pywf w.
Proof.
  unfold leaf. repeat case_match; intros [= <- <-] Hx; try done; simplify_eq.
  all: first [ by constructor | by apply pywf_dict_filter
             | apply pywf_list, Forall_take, pywf_list_inv; exact Hx ].
Qed.

(** ** [prune_nulls] *)

(** What [prune_nulls] guarantees of its result [v'] for [v]. *)
Definition pruned (v : pyval) (r : pyval * bool) : Prop :=
  pywf r.1 /\ shrinks r.1 v /\ null_free r.1 /\ (r.2 = false -> r.1 = v).

Definition prune_items :=
  fix go (d : list (string * pyval)) : list (string * pyval) * bool :=
    match d with
    | [] => ([], false)
    | (key, value) :: d' =>
        let '(out, changed) := go d' in
        if is_none value then (out, true)
        else let '(new_value, value_changed) := prune_nulls value in
             ((key, new_value) :: out, value_changed || changed)
    end.
Definition prune_list :=
  fix go (l : list pyval) : list pyval * bool :=
    match l with
    | [] => ([], false)
    | item :: l' =>
        let '(out, changed) := go l' in
        let '(new_item, item_changed) := prune_nulls item in
        (new_item :: out, item_changed || changed)
    end.

Lemma prune_nulls_dict d :
  prune_nulls (PDict d) = let '(out, changed) := prune_items d in
                          if changed then (PDict out, true) else (PDict d, false).
Proof. reflexivity. Qed.
Lemma prune_nulls_list l :
  prune_nulls (PList l) = let '(out, changed) := prune_list l in
                          if changed then (PList out, true) else (PList l, false).
Proof. reflexivity. Qed.

Lemma prune_items_spec d :
  Forall (fun kv => pruned kv.2 (prune_nulls kv.2)) d -> dict_wf d ->
  dict_keys (prune_items d).1 `sublist_of` dict_keys d /\
  Forall (fun kv => pywf kv.2) (prune_items d).1 /\
  (forall k x', dict_get k (prune_items d).1 = Some x' ->
     exists x, dict_get k d = Some x /\ x' <> PNone /\ shrinks x' x /\ null_free x') /\
  ((prune_items d).2 = false -> (prune_items d).1 = d).
Proof.
  intros Hd. induction Hd as [|[key value] d (Hwf & Hsh & Hnf & Hid) _ IH]; intros Hw.
  { split_and!; [done | by apply Forall_nil_2 | done | done]. }
  apply NoDup_cons in Hw as [Hk Hw]. cbn in Hk. destruct (IH Hw) as (Hs & Hwfs & Hg & Hi). clear IH.
  cbn [prune_items]. fold prune_items. destruct (prune_items d) as [out changed]. cbn [fst snd] in *.
  destruct (is_none value) eqn:Hnone; cbn [fst snd].
  - split_and!; [by constructor | done | | done]. intros k x' Hx. destruct (Hg k x' Hx) as (x & Hxd & ?).
    exists x. split; [|done]. cbn. destruct (String.eqb_spec k key) as [->|]; [|done].
    apply dict_get_None in Hk. congruence.
  - destruct (prune_nulls value) as [nv vc]. cbn [fst snd] in *. split_and!.
    + by constructor.
    + by apply Forall_cons.
    + intros k x'. cbn. destruct (String.eqb_spec k key) as [->|]; [|apply Hg].
      intros [= <-]. exists value. split_and!; try done. intros ->.
      apply shrinks_none in Hsh as ->; done.
    + intros [-> ->]%orb_false_iff. by rewrite Hi, Hid.
Qed.

Lemma prune_list_spec l :
  Forall (fun v => pruned v (prune_nulls v)) l ->
  Forall pywf (prune_list l).1 /\ Forall2 shrinks (prune_list l).1 l /\
  Forall null_free (prune_list l).1 /\ ((prune_list l).2 = false -> (prune_list l).1 = l).
Proof.
  induction 1 as [|v l (Hwf & Hsh & Hnf & Hid) _ (Hw & Hs & Hn & Hi)].
  { split_and!; try done; constructor. }
  cbn [prune_list]. fold prune_list. destruct (prune_list l) as [out changed]. destruct (prune_nulls v) as [nv vc].
  cbn [fst snd] in *. split_and!; [by constructor.. |].
  intros [-> ->]%orb_false_iff. by rewrite Hi, Hid.
Qed.

Lemma prune_nulls_spec v : pywf v -> pruned v (prune_nulls v).
Proof.
  induction v as [| | | |s|l IH|d IH] using pyval_ind'; intros Hv.
  1-5: split_and!; [done | reflexivity | by constructor | done].
  - apply pywf_list_inv in Hv. destruct (prune_list_spec l) as (Hw & Hs & Hn & Hi).
    { rewrite Forall_forall in IH, Hv |- *. auto. }
    unfold pruned. rewrite prune_nulls_list. destruct (prune_list l) as [out changed]. cbn [fst snd] in *.
    destruct changed; cbn.
    + split_and!; [by apply pywf_list | | by apply null_free_list | done].
      apply shrinks_list. by rewrite (Forall2_length _ _ _ Hs), firstn_all.
    + rewrite Hi in * by done. split_and!; [by apply pywf_list | reflexivity | by apply null_free_list | done].
  - apply pywf_dict_inv in Hv as [Hw Hd]. destruct (prune_items_spec d) as (Hk & Hwf & Hg & Hi); [|done|].
    { rewrite Forall_forall in IH, Hd |- *. auto. }
    unfold pruned. rewrite prune_nulls_dict. destruct (prune_items d) as [out changed]. cbn [fst snd] in *.
    assert (null_free (PDict out)) as Hnf.
    { apply null_free_dict. intros k x Hx. destruct (Hg k x Hx) as (y & _ & ? & _ & ?). done. }
    destruct changed; cbn.
    + split_and!; [apply pywf_dict; [|done] | | done | done].
      * unfold dict_wf in *. eapply sublist_NoDup; [exact Hw | exact Hk].
      * apply shrinks_dict. intros k x' Hx. destruct (Hg k x' Hx) as (y & Hy & _ & Hs & _). eauto.
    + rewrite Hi in * by done. split_and!; [by apply pywf_dict | reflexivity | done | done].
Qed.

(** ** Bounds are inherited by smaller values *)

Lemma shrinks_reaches parts v' v w' :
  shrinks v' v -> reaches parts v' w' -> exists w, reaches parts v w /\ shrinks w' w.
Proof.
  revert v' v. induction parts as [|head rest IH]; intros v' v Hs; [intros ->; by exists v|]. cbn.
  destruct (String.eqb head LIST_WILDCARD).
  - destruct v' as [| | | | |l'|]; try done. intros (x' & Hx' & Hr).
    inversion Hs as [| |? l Hl|]; subst.
    + exists w'. split; [eauto|reflexivity].
    + apply list_elem_of_lookup in Hx' as (i & Hi).
      destruct (Forall2_lookup_l _ _ _ _ _ Hl Hi) as (x & Hx & Hxx).
      destruct (IH _ _ Hxx Hr) as (w & Hw & Hww). exists w. split; [|done]. exists x. split; [|done].
      apply list_elem_of_lookup_2 in Hx. eapply elem_of_sublist; [exact Hx | apply sublist_take].
  - destruct v' as [| | | | | |d']; try done. intros (x' & Hx' & Hr).
    assert (exists d x, v = PDict d /\ dict_get head d = Some x /\ shrinks x' x) as (d & x & -> & Hx & Hxx).
    { inversion Hs as [| | |? d Hd]; subst; [exists d', x'; split_and!; [done..|reflexivity]|].
      destruct (Hd _ _ Hx') as (x & ? & ?). eauto. }
    destruct (IH _ _ Hxx Hr) as (w & Hw & Hww). exists w. split; [|done]. exists x. auto.
Qed.

Lemma within_shrinks spec w' w : shrinks w' w -> within spec w -> within spec w'.
Proof.
  intros Hs [Hd Hw]. split; [done|]. inversion Hs as [|s' s Hp|l' l Hl|d' d Hg]; subst; [done|..].
  - intros n Hn. apply Hw in Hn. apply str_prefix_utf8_len in Hp. lia.
  - intros n Hn. apply Hw in Hn. apply Forall2_length in Hl. rewrite length_take in Hl. lia.
  - intros keys HK k Hk. apply (Hw keys HK). apply dict_get_in_keys in Hk as [x' Hx'].
    destruct (Hg _ _ Hx') as (x & Hx & _). apply dict_get_in_keys. eauto.
Qed.

Lemma null_free_shrinks v' v : shrinks v' v -> null_free v -> null_free v'.
Proof.
  revert v. induction v' as [| | | |s|l IH|d IH] using pyval_ind'; intros v Hs Hn; try by constructor.
  - inversion Hs as [| |? m Hm|]; subst; [done|]. inversion Hn as [|? Hl|]; subst; [done|].
    apply null_free_list. rewrite Forall_forall in IH |- *. intros x' Hx'.
    pose proof Hx' as (i & Hi)%list_elem_of_lookup.
    destruct (Forall2_lookup_l _ _ _ _ _ Hm Hi) as (x & Hx & Hxx). apply (IH _ Hx' _ Hxx).
    rewrite Forall_forall in Hl. apply Hl. apply list_elem_of_lookup_2 in Hx.
    eapply elem_of_sublist; [exact Hx | apply sublist_take].
  - inversion Hs as [| | |? e He]; subst; [done|]. inversion Hn as [| |? Hd]; subst; [done|].
    apply null_free_dict. intros k x' Hx'. destruct (He _ _ Hx') as (x & Hx & Hxx).
    destruct (Hd _ _ Hx) as [Hne Hnf]. split.
    + intros ->. by apply Hne, (shrinks_none _ _ Hxx).
    + rewrite Forall_forall in IH. apply dict_get_elem in Hx'. by apply (IH _ Hx' x).
Qed.

(** ** The loop *)

(** What one spec guarantees of a document. *)
Definition satisfied (obj : pyval) (spec : reduction_spec) : Prop :=
  (forall w, ends_in_key (red_path_parts spec) -> reaches (red_path_parts spec) obj w -> within spec w) /\
  (is_global spec = true -> null_free obj).

Lemma satisfied_shrinks obj' obj spec : shrinks obj' obj -> satisfied obj spec -> satisfied obj' spec.
Proof.
  intros Hs [Hw Hn]. split.
  - intros w' He Hr. destruct (shrinks_reaches _ _ _ _ Hs Hr) as (w & Hw' & Hww).
    by apply (within_shrinks _ _ w), Hw.
  - intros Hg. by apply (null_free_shrinks _ obj), Hn.
Qed.

Lemma reduce_step_ok obj dropped spec :
  spec_wf spec -> pywf obj ->
  let st := reduce_step (obj, dropped) spec in
  pywf st.1 /\ shrinks st.1 obj /\ satisfied st.1 spec /\ (st = (obj, dropped) \/ st.2 <> []).
Proof.
  intros Hwf Hobj. cbn. destruct (is_global spec) eqn:Hg.
  - destruct (prune_nulls_spec obj Hobj) as (H1 & H2 & H3 & H4). destruct (prune_nulls obj) as [obj' changed].
    unfold satisfied. assert (red_path_parts spec = []) as Hp
      by (unfold is_global in Hg; destruct (red_path_parts spec); [done|by rewrite andb_false_r in Hg]).
    rewrite Hp. cbn [fst snd reaches] in *. destruct changed; cbn.
    + split_and!; try done. right. by destruct dropped.
    + rewrite <- H4 in * by done. split_and!; try done; try reflexivity. by left.
  - pose proof (transform_unchanged (leaf spec) (red_path_parts spec) obj) as Hu.
    pose proof (transform_shrinks (leaf spec) (red_path_parts spec) obj (leaf_set_shrinks spec)) as Hs.
    pose proof (transform_wf (leaf spec) (red_path_parts spec) obj (leaf_wf spec) Hobj) as Hw.
    pose proof (transform_marks (leaf spec) (red_path_parts spec) obj (leaf_marks spec)) as Hm.
    assert (satisfied (transform (leaf spec) (red_path_parts spec) obj).1.1 spec) as Hsat.
    { split; [|congruence]. intros w He (x & ms & [[Hl ->]|Hl])%transform_reaches; [| |done].
      - by eapply leaf_same_within. - by eapply leaf_set_within. }
    destruct (transform _ _ obj) as [[obj' changed] marks]. cbn [fst snd] in *. destruct changed; cbn.
    + split_and!; try done. right. destruct dropped; [|done]. by apply Hm.
    + rewrite Hu in * by done. split_and!; try done; try reflexivity. by left.
Qed.

Lemma reduce_steps_ok specs raw obj dropped processed :
  Forall spec_wf specs -> pywf obj -> shrinks obj raw -> Forall (satisfied obj) processed ->
  (dropped = [] -> obj = raw) ->
  let st := foldl reduce_step (obj, dropped) specs in
  shrinks st.1 raw /\ Forall (satisfied st.1) (processed ++ specs) /\ (st.2 = [] -> st.1 = raw).
Proof.
  revert obj dropped processed. induction specs as [|spec specs IH]; intros obj dropped processed Hwf Hobj Hs Hp Hd.
  - rewrite app_nil_r. done.
  - apply Forall_cons in Hwf as [Hspec Hwf]. destruct (reduce_step_ok obj dropped spec Hspec Hobj) as (H1 & H2 & H3 & H4).
    cbn [foldl]. destruct (reduce_step (obj, dropped) spec) as [obj' dropped']. cbn [fst snd] in *.
    rewrite (cons_middle spec processed specs), (assoc_L (++)). apply IH; try done.
    + by etrans.
    + apply Forall_app. split; [|by apply Forall_singleton].
      eapply Forall_impl; [exact Hp|]. intros s. by apply satisfied_shrinks.
    + destruct H4 as [[= -> ->]|]; [done|]. intros ->. done.
Qed.

Lemma positive_limit_ok v n : positive_limit v = Ok (Some n) -> 0 < n.
Proof. unfold positive_limit. repeat case_match; intros [= <-]. by apply Z.leb_gt. Qed.

Lemma compile_spec_wf item spec : compile_spec item = Ok spec -> spec_wf spec.
Proof.
  unfold compile_spec. destruct item as [| | | | | |d]; try done. case_match; [by intros [= <-]|].
  case_match; try done. intros Hc.
  skip_bind Hc. skip_bind Hc.
  peel_bind Hc as ko _. skip_bind Hc.
  skip_bind Hc. peel_bind Hc as mi Hi.
  apply result_bind_ok in Hc as (mb & Hb & [= <-]).
  split; cbn; intros n ->; by eapply positive_limit_ok.
Qed.

Lemma compile_specs_wf block specs : compile_raw_reduction block = Ok specs -> Forall spec_wf specs.
Proof.
  destruct block as [| | | | |l|]; cbn; try done; [intros [= <-]; by apply Forall_nil_2|].
  rewrite result_map_ok. induction 1 as [|x y l ys Hxy _ IH]; [by apply Forall_nil_2|].
  apply Forall_cons. split; [by eapply compile_spec_wf | done].
Qed.

Lemma apply_reduction_cases block raw specs :
  compile_raw_reduction block = Ok specs -> pywf (PDict raw) ->
  exists d, shrinks (PDict d) (PDict raw) /\ Forall (satisfied (PDict d)) specs /\
    (apply_raw_reduction raw specs = None /\ d = raw \/
     exists marks, marks <> [] /\
       apply_raw_reduction raw specs = Some (dict_set REDUCED_KEY (PList (PStr <$> marks)) d)).
Proof.
  intros Hc Hraw. apply compile_specs_wf in Hc. unfold apply_raw_reduction.
  destruct specs as [|s0 specs0]; [exists raw; split_and!; [reflexivity | by apply Forall_nil_2 | by left]|].
  remember (s0 :: specs0) as specs eqn:E.
  destruct (reduce_steps_ok specs (PDict raw) (PDict raw) [] []) as (Hs & Hsat & Hd);
    [done | done | reflexivity | by apply Forall_nil_2 | done |].
  destruct (foldl reduce_step (PDict raw, []) specs) as [obj dropped]. cbn [fst snd app] in *.
  assert (exists d, obj = PDict d) as (d & ->) by (inversion Hs; subst; eauto).
  exists d. split_and!; [done..|]. destruct dropped as [|m ms].
  - left. split; [done|]. specialize (Hd eq_refl). congruence.
  - right. exists (m :: ms). done.
Qed.

(** ** Properties *)

Lemma reduce_step_ignores st spec : ends_in_wildcard (red_path_parts spec) = true -> reduce_step st spec = st.
Proof.
  intros Hl%bool_decide_eq_true. destruct st as [obj dropped]. unfold reduce_step.
  assert (is_global spec = false) as -> by (unfold is_global; destruct (red_path_parts spec); [done|by rewrite andb_false_r]).
  pose proof (transform_trailing_wildcard (leaf spec) (red_path_parts spec) obj Hl) as Ht.
  destruct (transform _ _ obj) as [[obj' changed] marks]. cbn in Ht. by injection Ht as -> ->.
Qed.

Lemma reduce_steps_ignore specs st :
  foldl reduce_step st specs = foldl reduce_step st (filter (fun s => ends_in_wildcard (red_path_parts s) = false) specs).
Proof.
  revert st. induction specs as [|spec specs IH]; intros st; [done|]. rewrite filter_cons. cbn [foldl].
  case_decide as E; cbn [foldl]; [apply IH|]. apply not_false_iff_true in E. rewrite reduce_step_ignores by done. apply IH.
Qed.

(** C34 [reduction_bounds] (the limits hold on what is sent).  After
    [apply_raw_reduction] with a compiled block, whatever the order of the specs,
    every value designated by the path of a spec that ends in a key, and does not start
    at the provenance key, respects that spec: nothing is left where [drop] applies, a
    mapping keeps only listed keys, a list has at most [max_items] items, a string at
    most [max_bytes] bytes.  A spec whose path ends in [[]], documented to apply to
    each item, is the exception: it changes nothing. *)
Theorem reduction_bounds block specs raw :
  compile_raw_reduction block = Ok specs -> pywf (PDict raw) ->
  (forall spec w, spec ∈ specs -> ends_in_key (red_path_parts spec) -> head (red_path_parts spec) <> Some REDUCED_KEY ->
     reaches (red_path_parts spec) (PDict (default raw (apply_raw_reduction raw specs))) w -> within spec w) /\
  apply_raw_reduction raw specs =
    apply_raw_reduction raw (filter (fun s => ends_in_wildcard (red_path_parts s) = false) specs).
Proof.
  intros Hc Hraw. split.
  - intros spec w Hspec He Hhead. destruct (apply_reduction_cases block raw specs Hc Hraw) as (d & _ & Hsat & Hout).
    rewrite Forall_forall in Hsat. destruct (Hsat spec Hspec) as [Hw _].
    destruct Hout as [[-> ->]|(marks & _ & ->)]; [by apply Hw|]. cbn [default]. intros Hr. apply Hw; [done|].
    destruct (red_path_parts spec) as [|h rest]; [done|]. cbn in *. destruct (String.eqb h LIST_WILDCARD); [done|].
    rewrite dict_get_set_ne in Hr by congruence. done.
  - unfold apply_raw_reduction. rewrite (reduce_steps_ignore specs). destruct specs as [|s specs]; [done|].
    by destruct (filter _ (s :: specs)).
Qed.

(** [reduction_only_removes] (a reduction invents nothing).  When the raw
    event is reduced, the result without its provenance marker is the raw event
    with keys, list tails and string tails removed, and the marker lists at least
    one reduction; with a [drop_nulls] spec no key of it is bound to [None]. *)
Theorem reduction_only_removes block specs raw out :
  compile_raw_reduction block = Ok specs -> pywf (PDict raw) ->
  apply_raw_reduction raw specs = Some out ->
  shrinks (PDict (dict_pop REDUCED_KEY out)) (PDict raw) /\
  (exists marks, marks <> [] /\ dict_get REDUCED_KEY out = Some (PList (PStr <$> marks))) /\
  (existsb is_global specs = true -> null_free (PDict out)).
Proof.
  intros Hc Hraw Ho. destruct (apply_reduction_cases block raw specs Hc Hraw) as (d & Hs & Hsat & Hout).
  destruct Hout as [[Ho' _]|(marks & Hm & Ho')]; [congruence|].
  rewrite Ho in Ho'. injection Ho' as ->. split_and!.
  - etrans; [|exact Hs]. apply shrinks_dict. intros k x. destruct (decide (k = REDUCED_KEY)) as [->|Hne].
    + by rewrite dict_get_pop_eq.
    + rewrite dict_get_pop_ne, dict_get_set_ne by done. intros Hx. exists x. split; [done|reflexivity].
  - exists marks. split; [done|]. by rewrite dict_get_set_eq.
  - intros (spec & Hin%list_elem_of_In & Hg)%existsb_exists. rewrite Forall_forall in Hsat.
    destruct (Hsat spec Hin) as [_ Hn]. specialize (Hn Hg). inversion Hn as [|?|? Hd]; subst; [done|].
    apply null_free_dict. intros k x. destruct (decide (k = REDUCED_KEY)) as [->|Hne].
    + rewrite dict_get_set_eq. intros [= <-]. split; [done|]. apply null_free_list, Forall_fmap, Forall_true.
      intros s. by constructor.
    + rewrite dict_get_set_ne by done. apply Hd.
Qed.

(** ** Examples and witnesses *)

Definition demo_block : pyval :=
  PList [PDict [("path", PStr "alerts[].evidence"); ("max_bytes", PInt 3)];
         PDict [("path", PStr "lineage"); ("drop", PBool true)];
         PDict [("drop_nulls", PBool true)]].
Definition demo_raw : list (string * pyval) :=
  [("alerts", PList [PDict [("evidence", PStr "abcdef"); ("n", PNone)]; PInt 3]);
   ("lineage", PDict [("x", PInt 1)]); ("keep", PInt 1)].

Lemma demo_raw_wf : pywf (PDict demo_raw).
Proof.
  apply pywf_dict.
  - apply (bool_decide_unpack _). vm_compute. exact I.
  - repeat (apply Forall_cons_2 || apply Forall_nil_2).
    + apply pywf_list. repeat (apply Forall_cons_2 || apply Forall_nil_2); [|by constructor].
      apply pywf_dict; [apply (bool_decide_unpack _); vm_compute; exact I|].
      repeat (apply Forall_cons_2 || apply Forall_nil_2); by constructor.
    + apply pywf_dict; [apply (bool_decide_unpack _); vm_compute; exact I|].
      repeat (apply Forall_cons_2 || apply Forall_nil_2); by constructor.
    + by constructor.
Defined.

Definition demo_specs : list reduction_spec :=
  match compile_raw_reduction demo_block with Ok s => s | Raise _ => [] end.

Example demo_reduced :
  apply_raw_reduction demo_raw demo_specs =
  Some [("alerts", PList [PDict [("evidence", PStr "abc")]; PInt 3]); ("keep", PInt 1);
        ("_centralops_reduced", PList [PStr "alerts[].evidence(~3B)"; PStr "lineage(dropped)"; PStr "nulls"])].
Proof. reflexivity. Qed.

Lemma reduction_bounds_witness :
  exists spec, spec ∈ demo_specs /\ red_max_bytes spec = Some 3 /\
    reaches (red_path_parts spec) (PDict (default demo_raw (apply_raw_reduction demo_raw demo_specs))) (PStr "abc") /\
    within spec (PStr "abc").
Proof.
  set (spec := ReductionSpec "alerts[].evidence" ["alerts"; "[]"; "evidence"] None (Some 3) false None false).
  assert (spec ∈ demo_specs) as Hin by (apply list_elem_of_In; left; reflexivity).
  assert (reaches (red_path_parts spec) (PDict (default demo_raw (apply_raw_reduction demo_raw demo_specs))) (PStr "abc")) as Hr.
  { eexists. split; [reflexivity|]. cbn. eexists. split; [left|]. eexists. split; reflexivity. }
  exists spec. split; [exact Hin|]. split; [reflexivity|]. split; [exact Hr|].
  apply (proj1 (reduction_bounds demo_block demo_specs demo_raw eq_refl demo_raw_wf) spec); [exact Hin|discriminate|discriminate|exact Hr].
Defined.

Lemma reduction_only_removes_witness :
  exists out, apply_raw_reduction demo_raw demo_specs = Some out /\
    shrinks (PDict (dict_pop REDUCED_KEY out)) (PDict demo_raw) /\
    (existsb is_global demo_specs = true -> null_free (PDict out)).
Proof.
  eexists. split; [reflexivity|].
  edestruct (reduction_only_removes demo_block demo_specs demo_raw) as (H1 & _ & H3);
    [reflexivity | exact demo_raw_wf | reflexivity |].
  split; [exact H1 | exact H3].
Defined.

(** ** Divergences *)

(** A path that ends in [[]] is accepted, and documented to apply its operation
    to every item of the list; [_transform] runs out of path there and does
    nothing. *)
Lemma trailing_wildcard_is_ignored :
  exists spec, compile_spec (PDict [("path", PStr "alerts[]"); ("drop", PBool true)]) = Ok spec /\
    apply_raw_reduction demo_raw [spec] = None.
Proof. eexists. split; reflexivity. Qed.

(** [drop_nulls] with a path is accepted as the spec's only operation, and never
    does anything. *)
Lemma drop_nulls_with_path_is_ignored :
  exists spec, compile_spec (PDict [("path", PStr "alerts"); ("drop_nulls", PBool true)]) = Ok spec /\
    apply_raw_reduction [("alerts", PDict [("x", PNone)])] [spec] = None.
Proof. eexists. split; reflexivity. Qed.
