(* ===== verification/ArrayBuilder.v ===== *)
(** * [array_builder] rules

    Models [collectors/normalize/array_builder.py]: the DSL v2 rule that builds
    a list of observables from several sources. *)

From S2P Require Import Prelude PyVal Predicates.

Local Open Scope string_scope.
Local Open Scope list_scope.

Definition SCALAR_RULE_FIELDS_FORBIDDEN : list string :=
  ["source"; "const"; "value_map"; "default"; "type_cast"; "pre_cast"; "fallback_source"; "when"].
Definition ARRAY_BUILDER_RULE_FIELDS : list string := ["target"; "kind"; "items"; "skip_null"; "dedup_by"].
Definition ITEM_REQUIRED_FIELDS : list string := ["name"; "type"; "type_id"; "source"].
Definition ITEM_LEGAL_FIELDS : list string := ["name"; "type"; "type_id"; "source"; "explode"; "skip_null"].

(** Where a source is resolved: the vendor payload or the preprocess results. *)
Inductive source_root := FromRaw | FromExtracted.
Definition root_of_source (source : string) : source_root :=
  if str_prefix "_" source then FromExtracted else FromRaw.

(** [target] as path segments, for both kinds of rule. *)
Definition target_parts (target : pyval) : result (string * list string) :=
  match target with
  | PStr t =>
      if str_blank t then Raise EMappingDefinition
      else match filter (fun p => String.eqb p "" = false) (str_split "." t) with
           | [] => Raise EMappingDefinition
           | parts => Ok (t, parts)
           end
  | _ => Raise EMappingDefinition
  end.

(** A field that must be a string with more than white space. *)
Definition required_str (v : pyval) : result string :=
  match v with
  | PStr s => if str_blank s then Raise EMappingDefinition else Ok s
  | _ => Raise EMappingDefinition
  end.

Definition has_only (legal : list string) {A} (d : list (string * A)) : bool :=
  forallb (fun k => bool_decide (k ∈ legal)) (dict_keys d).

Section builder.
Context `{JmesPath} `{FastPath}.

Record array_item := ArrayItem {
  item_name : string;
  item_type : string;
  item_type_id : pyval;          (* an [int]; [bool] passes the check *)
  item_source : resolver;
  item_source_str : string;
  item_source_root : source_root;
  item_explode : bool;
  item_skip_null : bool;
}.

Record array_rule := ArrayRule {
  arr_target_path : list string;
  arr_target_str : string;
  arr_items : list array_item;
  arr_dedup_by : list string;
}.

Definition compile_item (rule_skip_null : bool) (item : pyval) : result array_item :=
  match item with
  | PDict d =>
      raise_if (dict_has "required" d) EMappingDefinition;;
      raise_if (negb (has_only ITEM_LEGAL_FIELDS d)) EMappingDefinition;;
      raise_if (negb (forallb (fun k => dict_has k d) ITEM_REQUIRED_FIELDS)) EMappingDefinition;;
      name ← required_str (dget "name" d);
      type_label ← required_str (dget "type" d);
      let type_id := dget "type_id" d in
      raise_if (negb (is_int type_id)) EMappingDefinition;;
      src ← compile_source_checked (dget "source" d);
      Ok (ArrayItem name type_label type_id src.1 src.2 (root_of_source src.2)
            (truthy (dget "explode" d))
            (match dict_get "skip_null" d with Some v => truthy v | None => rule_skip_null end))
  | _ => Raise EMappingDefinition
  end.

Definition compile_array_builder_rule (rule : pyval) : result array_rule :=
  match rule with
  | PDict d =>
      target ← target_parts (dget "target" d);
      raise_if (existsb (fun k => dict_has k d) SCALAR_RULE_FIELDS_FORBIDDEN) EMappingDefinition;;
      raise_if (negb (has_only ARRAY_BUILDER_RULE_FIELDS d)) EMappingDefinition;;
      match dget "items" d with
      | PList items =>
          let rule_skip_null := truthy (default (PBool true) (dict_get "skip_null" d)) in
          match default (PList []) (dict_get "dedup_by" d) with
          | PList dedup =>
              dedup_by ← result_map required_str dedup;
              compiled ← result_map (compile_item rule_skip_null) items;
              Ok (ArrayRule target.2 target.1 compiled dedup_by)
          | _ => Raise EMappingDefinition
          end
      | _ => Raise EMappingDefinition
      end
  | _ => Raise EMappingDefinition
  end.

Definition observable (item : array_item) (value : pyval) : list (string * pyval) :=
  [("name", PStr (item_name item)); ("type", PStr (item_type item));
   ("type_id", item_type_id item); ("value", value)].

(** The observables of one item whose source resolved to [value]. *)
Definition item_observables (item : array_item) (value : pyval) : list (list (string * pyval)) :=
  if item_explode item then
    match value with
    | PNone => []
    | _ =>
        let elements := match value with PList l => l | _ => [value] end in
        observable item <$> filter (fun e => is_none e && item_skip_null item = false) elements
    end
  else if is_none value && item_skip_null item then []
  else [observable item value].

Definition pick_root (root : source_root) (raw extracted : pyval) : pyval :=
  match root with FromRaw => raw | FromExtracted => extracted end.

(** The [dedup_by] key of an observable; hashing it fails on a list or a dict. *)
Definition dedup_key (dedup_by : list string) (obs : list (string * pyval)) : result (list pyval) :=
  let key := (fun k => dget k obs) <$> dedup_by in
  if forallb hashable key then Ok key else Raise EType.

Fixpoint keys_eq (a b : list pyval) : bool :=
  match a, b with
  | [], [] => true
  | x :: a', y :: b' => py_eq x y && keys_eq a' b'
  | _, _ => false
  end.

Fixpoint dedup_observables (dedup_by : list string) (seen : list (list pyval))
    (l : list (list (string * pyval))) : result (list (list (string * pyval))) :=
  match l with
  | [] => Ok []
  | obs :: l' =>
      key ← dedup_key dedup_by obs;
      if existsb (keys_eq key) seen then dedup_observables dedup_by seen l'
      else rest ← dedup_observables dedup_by (key :: seen) l'; Ok (obs :: rest)
  end.

(** The loop over the items: the observables of each. *)
Definition build_items (items : list array_item) (raw extracted : pyval)
  : result (list (list (list (string * pyval)))) :=
  result_map (fun item =>
    value ← search (item_source item) (pick_root (item_source_root item) raw extracted);
    Ok (item_observables item value)) items.

Definition apply_array_builder (rule : array_rule) (raw extracted : pyval)
  : result (list (list (string * pyval))) :=
  per_item ← build_items (arr_items rule) raw extracted;
  let observables := concat per_item in
  match arr_dedup_by rule with
  | [] => Ok observables
  | dedup_by => dedup_observables dedup_by [] observables
  end.

(** ** Properties *)

(** The observables before deduplication. *)
Definition raw_observables (rule : array_rule) (raw extracted : pyval)
  : result (list (list (string * pyval))) :=
  per_item ← build_items (arr_items rule) raw extracted; Ok (concat per_item).

Definition obs_key (dedup_by : list string) (obs : list (string * pyval)) : list pyval :=
  (fun k => dget k obs) <$> dedup_by.

Lemma dedup_key_ok dedup_by obs key : dedup_key dedup_by obs = Ok key -> key = obs_key dedup_by obs.
Proof. unfold dedup_key, obs_key. case_match; by intros [= <-]. Qed.

Lemma dedup_observables_spec dedup_by seen l r :
  dedup_observables dedup_by seen l = Ok r ->
  r `sublist_of` l /\
  Forall (fun o => existsb (keys_eq (obs_key dedup_by o)) seen = false) r /\
  ForallOrdPairs (fun o1 o2 => keys_eq (obs_key dedup_by o2) (obs_key dedup_by o1) = false) r /\
  (forall o, o ∈ l -> o ∈ r \/ existsb (keys_eq (obs_key dedup_by o)) (seen ++ (obs_key dedup_by <$> r)) = true).
Proof.
  revert seen r. induction l as [|o l IH]; intros seen r; cbn [dedup_observables].
  { intros [= <-]. split_and!; [done | by apply Forall_nil_2 | constructor | set_solver]. }
  intros (key & ->%dedup_key_ok & Hr)%result_bind_ok.
  destruct (existsb (keys_eq (obs_key dedup_by o)) seen) eqn:Hs.
  - apply IH in Hr as (H1 & H2 & H3 & H4). split_and!; [by constructor | done | done |].
    intros o' [->|Ho]%elem_of_cons; [|auto]. right. rewrite existsb_app. by rewrite Hs.
  - apply result_bind_ok in Hr as (rest & Hr & [= <-]). apply IH in Hr as (H1 & H2 & H3 & H4).
    assert (Forall (fun o' => keys_eq (obs_key dedup_by o') (obs_key dedup_by o) = false /\
                              existsb (keys_eq (obs_key dedup_by o')) seen = false) rest) as H2'.
    { eapply Forall_impl; [exact H2|]. cbn. intros o'. by rewrite orb_false_iff. }
    split_and!; [by constructor | | |].
    + apply Forall_cons. split; [done|]. eapply Forall_impl; [exact H2'|]. by intros o' [].
    + constructor; [|done]. eapply Forall_impl; [exact H2'|]. by intros o' [].
    + intros o' [->|Ho]%elem_of_cons; [by left; left|]. destruct (H4 o' Ho) as [?|He]; [by left; right|].
      right. rewrite existsb_app in He |- *. cbn in *. by destruct (keys_eq _ _), (existsb _ seen), (existsb _ _).
Qed.

(** [array_builder_spec] (observables, first wins).  When
    [apply_array_builder] returns, its list is the concatenation of the items'
    observables in declaration order, with later observables dropped exactly
    when an earlier kept one has the same [dedup_by] fields; without [dedup_by]
    nothing is dropped. *)
Theorem array_builder_spec rule raw extracted r :
  apply_array_builder rule raw extracted = Ok r ->
  exists all, raw_observables rule raw extracted = Ok all /\ r `sublist_of` all /\
    (arr_dedup_by rule = [] -> r = all) /\
    (arr_dedup_by rule <> [] ->
       ForallOrdPairs (fun o1 o2 => keys_eq (obs_key (arr_dedup_by rule) o2) (obs_key (arr_dedup_by rule) o1) = false) r /\
       forall o, o ∈ all -> o ∈ r \/
         exists o', o' ∈ r /\ keys_eq (obs_key (arr_dedup_by rule) o) (obs_key (arr_dedup_by rule) o') = true).
Proof.
  unfold apply_array_builder, raw_observables. intros (per_item & Hm & Hr)%result_bind_ok. rewrite Hm.
  exists (concat per_item). split; [done|]. destruct (arr_dedup_by rule) as [|f fs] eqn:E.
  - injection Hr as <-. split_and!; [done | done | by intros []].
  - apply dedup_observables_spec in Hr as (H1 & _ & H3 & H4). split_and!; [done | done|].
    intros _. split; [done|]. intros o Ho. destruct (H4 o Ho) as [?|He]; [by left|]. right.
    apply existsb_exists in He as (k & Hk%list_elem_of_In & Hkk). cbn in Hk.
    apply list_elem_of_fmap in Hk as (o' & -> & Ho'). eauto.
Qed.

(** What the list depends on. *)
Lemma array_builder_frame rule raw1 raw2 extracted :
  (forall item, item ∈ arr_items rule -> item_source_root item = FromRaw ->
     search (item_source item) raw1 = search (item_source item) raw2) ->
  apply_array_builder rule raw1 extracted = apply_array_builder rule raw2 extracted.
Proof.
  intros Hs. unfold apply_array_builder.
  assert (build_items (arr_items rule) raw1 extracted = build_items (arr_items rule) raw2 extracted) as ->; [|done].
  unfold build_items. induction (arr_items rule) as [|i l IH]; [done|]. cbn [result_map].
  rewrite IH by (intros; apply Hs; [by right|done]).
  destruct (item_source_root i) eqn:E; cbn; [rewrite (Hs i ltac:(left) E)|]; reflexivity.
Qed.

End builder.

(** ** Examples and witnesses *)

Section examples.
#[local] Existing Instance demo_jmes.
#[local] Instance demo_fast : FastPath := true.

Definition demo_builder : pyval :=
  PDict [("target", PStr "normalized.observables"); ("kind", PStr "array_builder");
         ("items", PList [PDict [("name", PStr "ip"); ("type", PStr "IP Address"); ("type_id", PInt 2);
                                 ("source", PStr "ips"); ("explode", PBool true)];
                          PDict [("name", PStr "user"); ("type", PStr "User"); ("type_id", PInt 4);
                                 ("source", PStr "user.name")]]);
         ("dedup_by", PList [PStr "value"])].
Definition demo_observed : pyval :=
  PDict [("ips", PList [PStr "10.0.0.1"; PNone; PStr "10.0.0.1"]); ("user", PDict [("name", PStr "ana")])].

Definition demo_array_rule : array_rule :=
  match compile_array_builder_rule demo_builder with Ok r => r | Raise _ => ArrayRule [] "" [] [] end.
Definition demo_observables : list (list (string * pyval)) :=
  match apply_array_builder demo_array_rule demo_observed (PDict []) with Ok r => r | Raise _ => [] end.

Lemma array_builder_spec_witness :
  apply_array_builder demo_array_rule demo_observed (PDict []) = Ok demo_observables /\
  length demo_observables = 2%nat /\
  exists all, raw_observables demo_array_rule demo_observed (PDict []) = Ok all /\
    demo_observables `sublist_of` all.
Proof.
  split; [reflexivity|]. split; [reflexivity|].
  destruct (array_builder_spec demo_array_rule demo_observed (PDict []) demo_observables eq_refl)
    as (all & Hall & Hs & _).
  exists all. split; [exact Hall | exact Hs].
Defined.

(** A list-valued observable makes [dedup_by] raise [TypeError], which no caller
    in the engine turns into a [MappingError]. *)
Lemma dedup_by_unhashable :
  exists rule,
    compile_array_builder_rule
      (PDict [("target", PStr "o"); ("kind", PStr "array_builder");
              ("items", PList [PDict [("name", PStr "ip"); ("type", PStr "IP Address");
                                      ("type_id", PInt 2); ("source", PStr "ips")]]);
              ("dedup_by", PList [PStr "value"])]) = Ok rule /\
    apply_array_builder rule demo_observed (PDict []) = Raise EType.
Proof. eexists. split; reflexivity. Qed.
End examples.
