(* ===== verification/Engine.v ===== *)
(** * The mapping engine

    Models [collectors/normalize/engine.py]: compilation of the mapping DSL
    (v1 and v2) and its application to a raw event.

    The output document is an [otree]: dicts that [_set_path] created itself
    ([Owned]) and values a rule placed ([Placed]), which the code shares by
    reference with the raw event or with the compiled mapping.  When a later
    target descends into a placed dict, [_set_path] writes into that shared
    object; [res_shared] records that it happened.  Up to the first such write
    trees and references agree, and [EngineProps] proves that a mapping whose
    targets do not extend one another never makes one. *)

From S2P Require Import Prelude PyVal Predicates Operators Reduction ArrayBuilder.

#[local] Set Warnings "-register-all".

Local Open Scope string_scope.
Local Open Scope list_scope.
Local Open Scope Z_scope.

Definition DEFAULT_FROM_INGEST_TIME : string := "ingest_time".

(** What v2 accepts and v1 rejects, the keyword arguments of
    [_compile_single_rule]. *)
Record dsl_flags := DslFlags {
  reject_underscore_target : bool;
  allow_fallback_source : bool;
  allow_when : bool;
  allow_expected_always_default : bool;
  allow_default_from : bool;
}.
Definition v1_flags : dsl_flags := DslFlags false false false false false.
Definition v2_flags : dsl_flags := DslFlags true true true true true.

Section engine.
Context `{JmesPath} `{FastPath} `{FloatRepr} `{FloatParse} `{IsoParse} `{JsonLoads} `{JsonLimit}.

(** ** Compiled forms *)

Record compiled_rule := CompiledRule {
  cr_target : string;
  cr_target_path : list string;
  cr_source : option (resolver * string);        (* [source], [source_str] *)
  cr_source_root : source_root;
  cr_const : option pyval;
  cr_default : option pyval;
  cr_value_map : option (list (string * pyval));
  cr_pre_cast : option string;
  cr_type_cast : option string;
  cr_required : bool;
  cr_fallbacks : list (resolver * string);
  cr_when : option compiled_predicate;
  cr_predicate_strs : list string;
  cr_expected_always_default : bool;
  cr_default_from : option string;
  cr_probe : bool;                                (* [value_map_probe is not None] *)
}.

Record preprocess_op := PreprocessOp {
  pp_op : string;
  pp_source : resolver;
  pp_source_str : string;
  pp_target : string;
  pp_tolerant : bool;
}.

Inductive any_rule := Scalar (r : compiled_rule) | Builder (r : array_rule).

Record compiled_rules := CompiledRules {
  preprocess_ops : list preprocess_op;
  rules : list any_rule;
  raw_reduction : list reduction_spec;
}.

(** ** Compilation *)

Definition optional_str (v : pyval) : result (option string) :=
  match v with
  | PNone => Ok None
  | PStr s => Ok (Some s)
  | _ => Raise EMappingDefinition
  end.

Definition compile_source_field (d : list (string * pyval)) : result (option (resolver * string)) :=
  match dict_get "source" d with
  | None => Ok None
  | Some v => src ← compile_source_checked v; Ok (Some src)
  end.

Definition compile_pre_cast (v : pyval) : result (option string) :=
  c ← optional_str v;
  match c with
  | None => Ok None
  | Some c => raise_if (negb (dict_has c TYPE_CASTS)) EMappingDefinition;; Ok (Some c)
  end.

Definition compile_value_map (v : pyval) : result (option (list (string * pyval))) :=
  match v with
  | PNone => Ok None
  | PDict m => Ok (Some m)
  | _ => Raise EMappingDefinition
  end.

Definition same_root (a b : source_root) : bool :=
  match a, b with FromRaw, FromRaw | FromExtracted, FromExtracted => true | _, _ => false end.

Definition compile_fallback (root : source_root) (fb : pyval) : result (resolver * string) :=
  match fb with
  | PStr s =>
      raise_if (negb (same_root (root_of_source s) root)) EMappingDefinition;;
      try_except (r ← compile_source s; Ok (r, s)) (fun _ => true) (fun _ => Raise EMappingDefinition)
  | _ => Raise EMappingDefinition
  end.

Definition compile_fallbacks (flags : dsl_flags) (has_source : bool) (root : source_root) (v : pyval)
  : result (list (resolver * string)) :=
  match v with
  | PNone => Ok []
  | _ =>
      raise_if (negb (allow_fallback_source flags)) EMappingDefinition;;
      raise_if (negb has_source) EMappingDefinition;;
      match v with
      | PList l => result_map (compile_fallback root) l
      | _ => Raise EMappingDefinition
      end
  end.

Definition compile_when (flags : dsl_flags) (v : pyval) : result (option compiled_predicate) :=
  match v with
  | PNone => Ok None
  | _ => raise_if (negb (allow_when flags)) EMappingDefinition;; p ← compile_predicate v; Ok (Some p)
  end.

Definition compile_expected_default (flags : dsl_flags) (d : list (string * pyval)) : result bool :=
  raise_if (dict_has "expected_always_default" d && negb (allow_expected_always_default flags)) EMappingDefinition;;
  match default (PBool false) (dict_get "expected_always_default" d) with
  | PBool b => Ok b
  | _ => Raise EMappingDefinition
  end.

Definition compile_default_from (flags : dsl_flags) (v : pyval) : result (option string) :=
  match v with
  | PNone => Ok None
  | _ =>
      raise_if (negb (allow_default_from flags)) EMappingDefinition;;
      raise_if (negb (hashable v)) EType;;
      match v with
      | PStr s => if String.eqb s DEFAULT_FROM_INGEST_TIME then Ok (Some s) else Raise EMappingDefinition
      | _ => Raise EMappingDefinition
      end
  end.

Definition compile_single_rule (flags : dsl_flags) (rule : pyval) : result compiled_rule :=
  match rule with
  | PDict d =>
      target ← target_parts (dget "target" d);
      raise_if (reject_underscore_target flags && str_prefix "_" target.1) EMappingDefinition;;
      let has_source := dict_has "source" d in
      let has_const := dict_has "const" d in
      raise_if (has_source && has_const) EMappingDefinition;;
      raise_if (negb has_source && negb has_const) EMappingDefinition;;
      source ← compile_source_field d;
      let root := match source with Some src => root_of_source src.2 | None => FromRaw end in
      type_cast ← optional_str (dget "type_cast" d);
      pre_cast ← compile_pre_cast (dget "pre_cast" d);
      value_map ← compile_value_map (dget "value_map" d);
      fallbacks ← compile_fallbacks flags has_source root (dget "fallback_source" d);
      when ← compile_when flags (dget "when" d);
      expected ← compile_expected_default flags d;
      default_from ← compile_default_from flags (dget "default_from" d);
      Ok (CompiledRule target.1 target.2 source root (dict_get "const" d) (dict_get "default" d)
            value_map pre_cast type_cast (truthy (dget "required" d)) fallbacks when
            (match when with Some p => collect_predicate_source_strs p | None => [] end)
            expected default_from (bool_decide (is_Some value_map) && dict_has "default" d))
  | _ => Raise EMappingDefinition
  end.

Definition compile_preprocess_op (item : pyval) : result preprocess_op :=
  match item with
  | PDict d =>
      op ← required_str (dget "op" d);
      raise_if (negb (dict_has op PREPROCESS_OPS)) EMappingDefinition;;
      src ← compile_source_checked (dget "source" d);
      target ← required_str (dget "target" d);
      raise_if (negb (str_prefix "_" target)) EMappingDefinition;;
      Ok (PreprocessOp op src.1 src.2 target (truthy (dget "tolerant" d)))
  | _ => Raise EMappingDefinition
  end.

Definition compile_v1_rule (rule : pyval) : result any_rule :=
  raise_if (match rule with PDict d => dict_has "kind" d | _ => false end) EMappingDefinition;;
  r ← compile_single_rule v1_flags rule; Ok (Scalar r).

Definition compile_v1 (rules : list pyval) : result compiled_rules :=
  compiled ← result_map compile_v1_rule rules;
  Ok (CompiledRules [] compiled []).

Definition compile_v2_rule (rule : pyval) : result any_rule :=
  match rule with
  | PDict d =>
      let kind := default (PStr "scalar") (dict_get "kind" d) in
      if py_eq kind (PStr "scalar") then r ← compile_single_rule v2_flags rule; Ok (Scalar r)
      else if py_eq kind (PStr "array_builder") then r ← compile_array_builder_rule rule; Ok (Builder r)
      else Raise EMappingDefinition
  | _ => Raise EMappingDefinition
  end.

Definition compile_v2 (payload : list (string * pyval)) : result compiled_rules :=
  ops ← match dget "preprocess" payload with
        | PNone => Ok []
        | PList l => result_map compile_preprocess_op l
        | _ => Raise EMappingDefinition
        end;
  match dget "rules" payload with
  | PList [] => Raise EMappingDefinition
  | PList l =>
      compiled ← result_map compile_v2_rule l;
      reduction ← compile_raw_reduction (dget "raw_reduction" payload);
      Ok (CompiledRules ops compiled reduction)
  | _ => Raise EMappingDefinition
  end.

Definition detect_dsl_version (rules_or_dict : pyval) : result Z :=
  match rules_or_dict with
  | PList _ => Ok 1
  | PDict _ => Ok 2
  | _ => Raise EMappingDefinition
  end.

Definition compile_rules (rules_or_dict : pyval) (dsl_version : option Z) : result compiled_rules :=
  version ← match dsl_version with Some v => Ok v | None => detect_dsl_version rules_or_dict end;
  raise_if (negb ((version =? 1) || (version =? 2))) EMappingDefinition;;
  match rules_or_dict with
  | PList l => raise_if (version =? 2) EMappingDefinition;; compile_v1 l
  | PDict d => raise_if (version =? 1) EMappingDefinition;; compile_v2 d
  | _ => Raise EMappingDefinition
  end.

(** ** The output document *)

Inductive otree := Placed (v : pyval) | Owned (d : list (string * otree)).

Fixpoint erase (t : otree) : pyval :=
  match t with
  | Placed v => v
  | Owned d => PDict (map (fun kt => (kt.1, erase kt.2)) d)
  end.

(** [_set_path] inside a dict the engine does not own. *)
Fixpoint put_path (path : list string) (value : pyval) (d : list (string * pyval)) : list (string * pyval) :=
  match path with
  | [] => d
  | [k] => dict_set k value d
  | k :: rest =>
      let sub := match dict_get k d with Some (PDict s) => s | _ => [] end in
      dict_set k (PDict (put_path rest value sub)) d
  end.

(** [_set_path] in the output; the flag tells that it wrote into a placed dict. *)
Fixpoint set_path (path : list string) (value : pyval) (d : list (string * otree))
  : list (string * otree) * bool :=
  match path with
  | [] => (d, false)
  | [k] => (dict_set k (Placed value) d, false)
  | k :: rest =>
      match dict_get k d with
      | Some (Placed (PDict s)) => (dict_set k (Placed (PDict (put_path rest value s))) d, true)
      | Some (Owned s) =>
          let '(s', shared) := set_path rest value s in (dict_set k (Owned s') d, shared)
      | _ => let '(s', shared) := set_path rest value [] in (dict_set k (Owned s') d, shared)
      end
  end.

(** ** Application *)

Record apply_state := ApplyState {
  st_output : list (string * otree);
  st_consumed : gset string;
  st_default_hits : list string;
  st_ingest : list string;
  st_shared : bool;
}.

Record apply_result := ApplyResult {
  res_output : list (string * otree);
  res_consumed : gset string;
  res_default_hits : list string;
  res_ingest_fallback : list string;
  res_reduced_raw : option (list (string * pyval));
  res_shared : bool;
}.

Definition consumed_source (s : string) : string := ("source:" +:+ s)%string.

(** One operator of the preprocess phase, on [extracted] and [consumed]. *)
Definition preprocess_step (raw : pyval) (st : list (string * pyval) * gset string) (op : preprocess_op)
  : result (list (string * pyval) * gset string) :=
  let '(extracted, consumed) := st in
  match (source_value ← search (pp_source op) raw;
         value ← apply_preprocess_op source_value (pp_op op) (pp_tolerant op);
         Ok (source_value, value)) with
  | Ok (source_value, value) =>
      Ok (dict_set (pp_target op) value extracted,
          if is_none source_value then consumed else {[consumed_source (pp_source_str op)]} ∪ consumed)
  | Raise EOperatorSize => Raise EMapping
  | Raise e =>
      if is_operator_error e then
        if pp_tolerant op then Ok (dict_set (pp_target op) PNone extracted, consumed) else Raise EMapping
      else Raise e
  end.

Fixpoint first_fallback (fallbacks : list (resolver * string)) (root value : pyval) : result pyval :=
  match fallbacks with
  | [] => Ok value
  | fb :: fallbacks' =>
      value ← search fb.1 root;
      if is_none value then first_fallback fallbacks' root value else Ok value
  end.

Definition resolve_value (rule : compiled_rule) (raw extracted : pyval) : result pyval :=
  match cr_const rule with
  | Some c => Ok c
  | None =>
      match cr_source rule with
      | None => Raise EMapping
      | Some src =>
          let root := pick_root (cr_source_root rule) raw extracted in
          value ← search src.1 root;
          if is_none value then first_fallback (cr_fallbacks rule) root value else Ok value
      end
  end.

(** [except Exception], [except OperatorError]: raise [MappingError]. *)
Definition any_as_mapping {A} (m : result A) : result A :=
  try_except m (fun _ => true) (fun _ => Raise EMapping).
Definition operator_as_mapping {A} (m : result A) : result A :=
  try_except m is_operator_error (fun _ => Raise EMapping).

(** [apply_type_cast(value, cast)] when there is a cast and a value. *)
Definition cast_step (cast : option string) (value : pyval) : result pyval :=
  match cast with
  | Some c =>
      if String.eqb c "" || is_none value then Ok value
      else operator_as_mapping (apply_type_cast value c)
  | None => Ok value
  end.

Definition value_map_step (rule : compiled_rule) (used_ingest : bool) (value : pyval) : result pyval :=
  match cr_value_map rule with
  | Some m =>
      if is_none value then Ok value
      else operator_as_mapping
        (if cr_probe rule && negb used_ingest then
           hit ← value_map_lookup value m;
           Ok (match hit with Some v => v | None => of_option (cr_default rule) end)
         else apply_value_map value m)
  | None => Ok value
  end.

(** The value of a rule after its source: default, ingest fallback, [pre_cast],
    [required], [value_map], [type_cast].  The flags tell that the default and
    the ingest time were used. *)
Record finished := Finished { fin_value : pyval; fin_default : bool; fin_ingest : bool }.

Definition finish_value (rule : compiled_rule) (ingest_time_epoch : option Z) (resolved : pyval)
  : result finished :=
  let used_default := bool_decide (is_Some (cr_default rule)) && is_none resolved in
  let value := match cr_default rule with Some dflt => apply_default resolved dflt | None => resolved end in
  let used_ingest := is_none value &&
    bool_decide (cr_default_from rule = Some DEFAULT_FROM_INGEST_TIME) && bool_decide (is_Some ingest_time_epoch) in
  let value := if used_ingest then match ingest_time_epoch with Some t => PInt t | None => value end else value in
  value ← (if used_default then Ok value else cast_step (cr_pre_cast rule) value);
  raise_if (is_none value && cr_required rule) (EMappingRequired (cr_target rule));;
  value ← (if used_default then Ok value else value_map_step rule used_ingest value);
  value ← cast_step (cr_type_cast rule) value;
  Ok (Finished value used_default used_ingest).

Definition gate_open (rule : compiled_rule) (raw extracted : pyval) : bool :=
  match cr_when rule with
  | Some p => evaluate_predicate p (pick_root (cr_source_root rule) raw extracted)
  | None => true
  end.

Definition sources_of (strs : list string) : gset string := list_to_set (consumed_source <$> strs).

(** [if rule.source is not None and rule.source_str: ...] and the target, when a
    value was resolved; then the fallback paths. *)
Definition rule_consumed (rule : compiled_rule) (resolved : pyval) : gset string :=
  match cr_source rule with
  | Some src =>
      {[consumed_source src.2]} ∪ (if is_none resolved then ∅ else {[cr_target rule]})
  | None => ∅
  end ∪ sources_of (cr_fallbacks rule).*2.

Definition write (path : list string) (value : pyval) (st : apply_state) : apply_state :=
  let '(output, shared) := set_path path value (st_output st) in
  ApplyState output (st_consumed st) (st_default_hits st) (st_ingest st) (st_shared st || shared).
Definition consume (paths : gset string) (st : apply_state) : apply_state :=
  ApplyState (st_output st) (paths ∪ st_consumed st) (st_default_hits st) (st_ingest st) (st_shared st).
Definition note (rule : compiled_rule) (f : finished) (st : apply_state) : apply_state :=
  ApplyState (st_output st) (st_consumed st)
    (st_default_hits st ++ if fin_default f then [cr_target rule] else [])
    (st_ingest st ++ if fin_ingest f then [cr_target rule] else []) (st_shared st).

(** One turn of the rule loop. *)
Definition apply_rule (raw extracted : pyval) (ingest_time_epoch : option Z) (st : apply_state) (rule : any_rule)
  : result apply_state :=
  match rule with
  | Builder r =>
      observables ← apply_array_builder r raw extracted;
      Ok (write (arr_target_path r) (PList (PDict <$> observables))
            (consume (sources_of (item_source_str <$> arr_items r)) st))
  | Scalar r =>
      let st := consume (sources_of (cr_predicate_strs r)) st in
      if gate_open r raw extracted then
        resolved ← any_as_mapping (resolve_value r raw extracted);
        f ← finish_value r ingest_time_epoch resolved;
        Ok (write (cr_target_path r) (fin_value f) (note r f (consume (rule_consumed r resolved) st)))
      else Ok st
  end.

Definition preprocess (compiled : compiled_rules) (raw : pyval)
  : result (list (string * pyval) * gset string) :=
  result_fold (preprocess_step raw) ([], ∅) (preprocess_ops compiled).

Definition apply_compiled (compiled : compiled_rules) (raw : list (string * pyval)) (ingest_time_epoch : option Z)
  : result apply_result :=
  pre ← preprocess compiled (PDict raw);
  st ← result_fold (apply_rule (PDict raw) (PDict pre.1) ingest_time_epoch)
         (ApplyState [] pre.2 [] [] false) (rules compiled);
  Ok (ApplyResult (st_output st) (st_consumed st) (st_default_hits st) (st_ingest st)
        (apply_raw_reduction raw (raw_reduction compiled)) (st_shared st)).

(** ** [MappingEngine]: the LRU cache of compiled mappings

    The [OrderedDict] is the list of its items, least recently used first. *)

Definition cache_key := (string * Z)%type.
Definition cache := list (cache_key * compiled_rules).

Fixpoint cache_get (k : cache_key) (c : cache) : option compiled_rules :=
  match c with
  | [] => None
  | (k', compiled) :: c' => if decide (k = k') then Some compiled else cache_get k c'
  end.
Definition cache_pop (k : cache_key) (c : cache) : cache := filter (fun kv => kv.1 <> k) c.

Definition get_compiled (max_cache : Z) (mapping_version_id : string) (payload : pyval) (dsl_version : Z) (c : cache)
  : result (compiled_rules * cache) :=
  let key := (mapping_version_id, dsl_version) in
  match cache_get key c with
  | Some cached => Ok (cached, cache_pop key c ++ [(key, cached)])
  | None =>
      compiled ← compile_rules payload (Some dsl_version);
      c ← (if max_cache <=? Z.of_nat (length c) then
             match c with [] => Raise EKey | _ :: c' => Ok c' end
           else Ok c);
      Ok (compiled, c ++ [(key, compiled)])
  end.

(** [apply]: the cache keeps the compiled mapping even when applying it fails. *)
Definition engine_apply (max_cache : Z) (mapping_version_id : string) (payload : pyval)
    (raw : list (string * pyval)) (dsl_version : Z) (ingest_time_epoch : option Z) (c : cache)
  : result apply_result * cache :=
  match get_compiled max_cache mapping_version_id payload dsl_version c with
  | Raise e => (Raise e, c)
  | Ok (compiled, c') => (apply_compiled compiled raw ingest_time_epoch, c')
  end.

Definition invalidate (mapping_version_id : string) (c : cache) : cache :=
  filter (fun kv => kv.1.1 <> mapping_version_id) c.

End engine.
