(* ===== verification/EngineProps.v ===== *)
(** * Properties of the mapping engine

    Theorems about [Engine]: where a rule's value ends up, what the output
    depends on, how failures surface, what [required] and [default] guarantee,
    what compilation enforces, and that the LRU cache is transparent. *)

From S2P Require Import Prelude PyVal Predicates Operators Reduction ArrayBuilder Engine.

Local Open Scope string_scope.
Local Open Scope list_scope.
Local Open Scope Z_scope.

(** ** Paths in the output *)

(** The node at a path, through dicts the engine owns. *)
Fixpoint get_path (path : list string) (d : list (string * otree)) : option otree :=
  match path with
  | [] => None
  | [k] => dict_get k d
  | k :: rest => match dict_get k d with Some (Owned s) => get_path rest s | _ => None end
  end.

Definition proper_prefix (p q : list string) : Prop := exists k rest, q = p ++ k :: rest.
Definition incomparable (p q : list string) : Prop := p <> q /\ ~ proper_prefix p q /\ ~ proper_prefix q p.

Lemma get_path_cons k rest d :
  rest <> [] ->
  get_path (k :: rest) d = match dict_get k d with Some (Owned s) => get_path rest s | _ => None end.
Proof. by destruct rest. Qed.

Lemma get_path_nil_dict p : get_path p [] = None.
Proof. by destruct p as [|k [|k' p]]. Qed.

Lemma set_path_cons k rest v d :
  rest <> [] ->
  set_path (k :: rest) v d =
  match dict_get k d with
  | Some (Placed (PDict s)) => (dict_set k (Placed (PDict (put_path rest v s))) d, true)
  | Some (Owned s) => (dict_set k (Owned (set_path rest v s).1) d, (set_path rest v s).2)
  | _ => (dict_set k (Owned (set_path rest v []).1) d, (set_path rest v []).2)
  end.
Proof.
  destruct rest as [|k' rest]; [done|]. intros _. cbn [set_path]. fold (set_path (k' :: rest)).
  repeat case_match; try done; simplify_eq; done.
Qed.

Lemma proper_prefix_cons k p q : proper_prefix p q -> proper_prefix (k :: p) (k :: q).
Proof. intros (k' & rest & ->). by exists k', rest. Qed.

Lemma incomparable_cons k p q : incomparable (k :: p) (k :: q) -> incomparable p q.
Proof.
  intros (H1 & H2 & H3). split_and!; [by intros -> | |]; intros H; [apply H2 | apply H3]; by apply proper_prefix_cons.
Qed.

Lemma incomparable_tails k p q : incomparable (k :: p) (k :: q) -> p <> [] /\ q <> [].
Proof.
  intros (H1 & H2 & H3). split; intros ->.
  - destruct q as [|k' q]; [done|]. apply H2. by exists k', q.
  - destruct p as [|k' p]; [done|]. apply H3. by exists k', p.
Qed.

Lemma get_path_other_head k k' rest w d : k <> k' ->
  get_path (k :: rest) (dict_set k' w d) = get_path (k :: rest) d.
Proof. intros Hne. destruct rest; cbn; by rewrite dict_get_set_ne. Qed.

Lemma get_set_other p q v d : incomparable p q -> get_path q (set_path p v d).1 = get_path q d.
Proof.
  revert q d. induction p as [|k p IH]; intros q d Hi; [done|].
  destruct q as [|k' q]; [done|]. destruct (decide (k' = k)) as [->|Hne].
  - destruct (incomparable_tails _ _ _ Hi) as [Hp Hq]. apply incomparable_cons in Hi.
    rewrite set_path_cons, !get_path_cons by done.
    destruct (dict_get k d) as [[w|s]|]; [destruct w|..]; cbn [fst]; rewrite dict_get_set_eq; try done;
      by rewrite IH, ?get_path_nil_dict.
  - destruct p as [|k2 p]; [by apply get_path_other_head|].
    rewrite set_path_cons by done. destruct (dict_get k d) as [[w0|s]|]; [destruct w0|..]; cbn [fst];
      by apply get_path_other_head.
Qed.

Lemma get_set_same p v d :
  p <> [] -> (set_path p v d).2 = false -> get_path p (set_path p v d).1 = Some (Placed v).
Proof.
  revert d. induction p as [|k p IH]; intros d Hp Hs; [done|].
  destruct p as [|k2 p]; [cbn; by rewrite dict_get_set_eq|].
  rewrite set_path_cons in Hs |- * by done. rewrite get_path_cons by done.
  destruct (dict_get k d) as [[w|s]|]; [destruct w|..]; try done; cbn [fst snd] in *; rewrite dict_get_set_eq;
    by apply IH.
Qed.

Lemma set_path_shared p v d :
  (set_path p v d).2 = true -> exists q w, proper_prefix q p /\ get_path q d = Some (Placed w).
Proof.
  revert d. induction p as [|k p IH]; intros d; [done|]. destruct p as [|k2 p]; [done|].
  rewrite set_path_cons by done. destruct (dict_get k d) as [[w|s]|] eqn:E.
  - assert (proper_prefix [k] (k :: k2 :: p)) by by exists k2, p.
    intros _. exists [k], w. done.
  - cbn [snd]. intros (q & w & Hq & Hg)%IH. exists (k :: q), w. split; [by apply proper_prefix_cons|].
    destruct q; [done|]. rewrite get_path_cons, E by done. done.
  - cbn [snd]. intros (q & w & Hq & Hg)%IH. by rewrite get_path_nil_dict in Hg.
Qed.

Lemma get_set_placed p q v w d :
  get_path q (set_path p v d).1 = Some (Placed w) -> q = p \/ exists w', get_path q d = Some (Placed w').
Proof.
  revert q d. induction p as [|k p IH]; intros q d; [cbn; eauto|].
  destruct q as [|k' q]; [done|]. destruct (decide (k' = k)) as [->|Hne].
  2: { destruct p as [|k2 p]; [cbn [set_path fst]; rewrite get_path_other_head by done; eauto|].
       rewrite set_path_cons by done. destruct (dict_get k d) as [[w0|s]|]; [destruct w0|..]; cbn [fst]; rewrite get_path_other_head by done; eauto. }
  destruct p as [|k2 p], q as [|k3 q].
  - by left.
  - rewrite get_path_cons by done. cbn. by rewrite dict_get_set_eq.
  - rewrite set_path_cons by done. cbn [get_path].
    destruct (dict_get k d) as [[w0|s]|] eqn:E; [|cbn [fst]; by rewrite dict_get_set_eq..].
    intros _. eauto.
  - rewrite set_path_cons, !get_path_cons by done.
    destruct (dict_get k d) as [[w0|s]|] eqn:E; [destruct w0|..]; cbn [fst]; rewrite dict_get_set_eq; try done.
    all: intros [Heq|[w' Hg]]%IH; [left; congruence | by (try rewrite get_path_nil_dict in Hg; eauto)].
Qed.

Section props.
Context `{JmesPath} `{FastPath} `{FloatRepr} `{FloatParse} `{IsoParse} `{JsonLoads} `{JsonLimit}.

(** ** What compilation enforces *)

Definition target_of (r : any_rule) : list string :=
  match r with Scalar r => cr_target_path r | Builder r => arr_target_path r end.

(** Every resolver of a rule is what its source string compiles to. *)
Definition source_ok (src : resolver * string) : Prop := compile_source src.2 = Ok src.1.
Definition scalar_wf (r : compiled_rule) : Prop :=
  (forall src, cr_source r = Some src -> source_ok src) /\
  Forall source_ok (cr_fallbacks r) /\
  (forall p, cr_when r = Some p -> pred_sources_ok p /\ cr_predicate_strs r = collect_predicate_source_strs p).
Definition item_ok (i : array_item) : Prop := source_ok (item_source i, item_source_str i).
Definition rule_wf (r : any_rule) : Prop :=
  target_of r <> [] /\
  match r with Scalar r => scalar_wf r | Builder r => Forall item_ok (arr_items r) end.

(** The v2-only features of a scalar rule are absent. *)
Definition plain_scalar (r : any_rule) : Prop :=
  exists s, r = Scalar s /\ cr_when s = None /\ cr_fallbacks s = [] /\ cr_default_from s = None /\
    cr_expected_always_default s = false.

Lemma target_parts_ok v t : target_parts v = Ok t -> t.2 <> [].
Proof. unfold target_parts. repeat case_match; intros [= <-]; done. Qed.

Lemma compile_source_field_ok d src : compile_source_field d = Ok (Some src) -> source_ok src.
Proof.
  unfold compile_source_field. case_match; [|done].
  intros (s & Hs & [= ->])%result_bind_ok. by apply compile_source_checked_ok in Hs as [_ ?].
Qed.

Lemma compile_fallback_ok root v fb : compile_fallback root v = Ok fb -> source_ok fb /\ root_of_source fb.2 = root.
Proof.
  unfold compile_fallback. case_match; try done. intros (_ & Hr%raise_if_ok & Hc)%result_bind_ok.
  destruct (compile_source s) as [r|] eqn:E; cbn in Hc; [|done]. injection Hc as <-.
  split; [done|]. cbn. by destruct (root_of_source s), root.
Qed.

Lemma compile_fallbacks_ok flags b root v fbs :
  compile_fallbacks flags b root v = Ok fbs ->
  Forall (fun fb => source_ok fb /\ root_of_source fb.2 = root) fbs /\
  (allow_fallback_source flags = false -> fbs = []).
Proof.
  unfold compile_fallbacks. intros Hc.
  assert (v = PNone /\ fbs = [] \/ allow_fallback_source flags = true /\
          exists l, v = PList l /\ result_map (compile_fallback root) l = Ok fbs) as [[-> ->]|(Ha & l & -> & Hl)].
  { destruct v; try (peel_bind Hc as _ Ha%raise_if_ok;
      skip_bind Hc; apply negb_false_iff in Ha); try done;
      [left; split; congruence | right; eauto]. }
  - split; [by apply Forall_nil_2 | done].
  - split; [|congruence]. apply result_map_ok in Hl. clear Hc.
    induction Hl as [|x y l ys Hxy _ IH]; [by apply Forall_nil_2|].
    apply Forall_cons. split; [by eapply compile_fallback_ok | done].
Qed.

Lemma compile_when_ok flags v w :
  compile_when flags v = Ok w ->
  (forall p, w = Some p -> pred_sources_ok p) /\ (allow_when flags = false -> w = None).
Proof.
  unfold compile_when. intros Hc.
  assert (w = None \/ allow_when flags = true /\ exists p, compile_predicate v = Ok p /\ w = Some p)
    as [->|(Ha & p & Hp & ->)].
  { destruct v; [left; congruence|..]; right; peel_bind Hc as _ Ha%raise_if_ok;
      apply negb_false_iff in Ha; apply result_bind_ok in Hc as (p & Hp & [= <-]); eauto. }
  - done.
  - split; [|congruence]. intros ? [= <-]. by eapply compile_predicate_ok.
Qed.

Lemma compile_default_from_ok flags v o :
  compile_default_from flags v = Ok o -> allow_default_from flags = false -> o = None.
Proof.
  unfold compile_default_from. intros Hc Ha. rewrite Ha in Hc. destruct v; cbn in Hc; congruence.
Qed.

Lemma compile_expected_default_ok flags d b :
  compile_expected_default flags d = Ok b -> allow_expected_always_default flags = false -> b = false.
Proof.
  unfold compile_expected_default. intros (_ & Hr%raise_if_ok & Hc)%result_bind_ok Ha.
  rewrite Ha, andb_true_r in Hr. apply dict_has_false in Hr. rewrite Hr in Hc. cbn in Hc. congruence.
Qed.

(** Everything [compile_single_rule] checked, from a successful result. *)
Lemma compile_single_rule_ok flags v r :
  compile_single_rule flags v = Ok r ->
  rule_wf (Scalar r) /\
  (reject_underscore_target flags = true -> str_prefix "_" (cr_target r) = false) /\
  Forall (fun fb => root_of_source fb.2 = cr_source_root r) (cr_fallbacks r) /\
  (flags = v1_flags -> plain_scalar (Scalar r)).
Proof.
  unfold compile_single_rule. destruct v as [| | | | | |d]; try done.
  intros (t & Ht & Hc)%result_bind_ok. peel_bind Hc as _ Hu%raise_if_ok.
  skip_bind Hc. skip_bind Hc.
  peel_bind Hc as src Hsrc. peel_bind Hc as tc _.
  peel_bind Hc as pc _. peel_bind Hc as vm _.
  peel_bind Hc as fbs Hfb. peel_bind Hc as w Hw.
  peel_bind Hc as ex Hex. apply result_bind_ok in Hc as (df & Hdf & [= <-]).
  apply compile_fallbacks_ok in Hfb as [Hfb Hfb']. apply compile_when_ok in Hw as [Hw Hw'].
  unfold rule_wf, scalar_wf, plain_scalar. cbn. split_and!.
  - by eapply target_parts_ok.
  - intros s ->. by eapply compile_source_field_ok.
  - eapply Forall_impl; [exact Hfb|]. by intros ? [].
  - intros p ->. split; [by apply Hw | done].
  - intros Hr. rewrite Hr in Hu. done.
  - eapply Forall_impl; [exact Hfb|]. by intros ? [].
  - intros ->. eexists. split; [reflexivity|]. cbn. split_and!.
    + by apply Hw'.
    + by apply Hfb'.
    + by eapply compile_default_from_ok.
    + by eapply compile_expected_default_ok.
Qed.

Lemma compile_item_ok b v i : compile_item b v = Ok i -> item_ok i.
Proof.
  unfold compile_item. destruct v as [| | | | | |d]; try done.
  intros (_ & _ & Hc)%result_bind_ok. skip_bind Hc.
  skip_bind Hc. peel_bind Hc as n _.
  peel_bind Hc as t _. skip_bind Hc.
  apply result_bind_ok in Hc as (src & Hs & [= <-]). by apply compile_source_checked_ok in Hs as [_ ?].
Qed.

Lemma compile_builder_ok v r : compile_array_builder_rule v = Ok r -> rule_wf (Builder r).
Proof.
  unfold compile_array_builder_rule. destruct v as [| | | | | |d]; try done.
  intros (t & Ht & Hc)%result_bind_ok. skip_bind Hc.
  skip_bind Hc. destruct (dget "items" d) as [| | | | |items|]; try done.
  destruct (default _ _) as [| | | | |dd|]; try done.
  peel_bind Hc as ds _. apply result_bind_ok in Hc as (its & His & [= <-]).
  split; cbn; [by eapply target_parts_ok|]. apply result_map_ok in His.
  induction His as [|x y l ys Hxy _ IH]; [by apply Forall_nil_2|].
  apply Forall_cons. split; [by eapply compile_item_ok | done].
Qed.

Lemma result_map_Forall {A B} (f : A -> result B) (P : B -> Prop) l ys :
  result_map f l = Ok ys -> (forall x y, f x = Ok y -> P y) -> Forall P ys.
Proof.
  intros Hm HP. apply result_map_ok in Hm. induction Hm; [by apply Forall_nil_2|].
  apply Forall_cons. eauto.
Qed.

(** [compile_v1_plain] (v1 mappings carry no v2 feature).  A list-shaped
    mapping that compiles has no preprocess step and no payload reduction, and
    each of its rules is a scalar rule without [when], [fallback_source],
    [default_from] or [expected_always_default]. *)
Theorem compile_v1_plain l version compiled :
  compile_rules (PList l) version = Ok compiled ->
  preprocess_ops compiled = [] /\ raw_reduction compiled = [] /\
  length (rules compiled) = length l /\ Forall plain_scalar (rules compiled).
Proof.
  unfold compile_rules. intros (v & _ & Hc)%result_bind_ok. skip_bind Hc.
  skip_bind Hc. apply result_bind_ok in Hc as (rs & Hrs & [= <-]). cbn.
  split_and!; [done..| |].
  - apply result_map_ok in Hrs. symmetry. by eapply Forall2_length.
  - eapply result_map_Forall; [exact Hrs|]. intros x y (_ & _ & Hy)%result_bind_ok.
    apply result_bind_ok in Hy as (s & Hs & [= <-]). apply compile_single_rule_ok in Hs as (_ & _ & _ & Hp). by apply Hp.
Qed.

(** [compile_v2_namespaces] (the reserved namespace).  In a compiled v2
    mapping every preprocess target starts with an underscore and no scalar
    target does, there is at least one rule, and the fallbacks of a rule resolve
    in the same root as its primary source. *)
Theorem compile_v2_namespaces d version compiled :
  compile_rules (PDict d) version = Ok compiled ->
  rules compiled <> [] /\
  Forall (fun op => str_prefix "_" (pp_target op) = true) (preprocess_ops compiled) /\
  forall r, Scalar r ∈ rules compiled ->
    str_prefix "_" (cr_target r) = false /\
    Forall (fun fb => root_of_source fb.2 = cr_source_root r) (cr_fallbacks r).
Proof.
  unfold compile_rules. intros (v & _ & Hc)%result_bind_ok. skip_bind Hc.
  skip_bind Hc. unfold compile_v2 in Hc.
  peel_bind Hc as ops Hops. destruct (dget "rules" d) as [| | | | |[|x l]|]; try done.
  peel_bind Hc as rs Hrs. apply result_bind_ok in Hc as (red & _ & [= <-]). cbn [rules preprocess_ops].
  split_and!.
  - intros ->. apply result_map_ok in Hrs. by inversion Hrs.
  - destruct (dget "preprocess" d) as [| | | | |ops'|]; try done; [injection Hops as <-; by apply Forall_nil_2|].
    eapply result_map_Forall; [exact Hops|]. clear. intros v op. unfold compile_preprocess_op.
    destruct v as [| | | | | |d]; try done. intros (o & _ & Hc)%result_bind_ok.
    skip_bind Hc. peel_bind Hc as s _.
    peel_bind Hc as t _. apply result_bind_ok in Hc as (_ & Hp%raise_if_ok & [= <-]).
    by apply negb_false_iff in Hp.
  - assert (Forall (fun r => forall s, r = Scalar s -> str_prefix "_" (cr_target s) = false /\
      Forall (fun fb => root_of_source fb.2 = cr_source_root s) (cr_fallbacks s)) rs) as HF.
    { eapply result_map_Forall; [exact Hrs|]. clear. intros v r. unfold compile_v2_rule.
      destruct v as [| | | | | |d]; try done. repeat case_match; try done.
      - intros (s & Hs & [= <-])%result_bind_ok s' [= <-].
        apply compile_single_rule_ok in Hs as (_ & Hu & Hf & _). by split; [apply Hu|].
      - by intros (s & Hs & [= <-])%result_bind_ok s' [=]. }
    intros r Hr. rewrite Forall_forall in HF. by apply (HF _ Hr).
Qed.

Lemma compiled_rules_wf payload version compiled :
  compile_rules payload version = Ok compiled -> Forall rule_wf (rules compiled).
Proof.
  unfold compile_rules. intros (v & _ & Hc)%result_bind_ok. skip_bind Hc.
  destruct payload as [| | | | |l|d]; try done; skip_bind Hc.
  - apply result_bind_ok in Hc as (rs & Hrs & [= <-]). cbn. eapply result_map_Forall; [exact Hrs|].
    intros x y (_ & _ & Hy)%result_bind_ok. apply result_bind_ok in Hy as (s & Hs & [= <-]).
    by apply compile_single_rule_ok in Hs as (? & _).
  - peel_bind Hc as ops _. destruct (dget "rules" d) as [| | | | |[|x l]|]; try done.
    peel_bind Hc as rs Hrs. apply result_bind_ok in Hc as (red & _ & [= <-]). cbn [rules].
    eapply result_map_Forall; [exact Hrs|]. clear. intros v r. unfold compile_v2_rule.
    destruct v as [| | | | | |d]; try done. repeat case_match; try done.
    + intros (s & Hs & [= <-])%result_bind_ok. by apply compile_single_rule_ok in Hs as (? & _).
    + intros (s & Hs & [= <-])%result_bind_ok. by eapply compile_builder_ok.
Qed.

(** ** Where a rule's value ends up *)

(** What a rule contributes on its own; [None] when its gate is closed. *)
Definition rule_outcome (raw extracted : pyval) (t : option Z) (rule : any_rule) : result (option pyval) :=
  match rule with
  | Builder r => observables ← apply_array_builder r raw extracted; Ok (Some (PList (PDict <$> observables)))
  | Scalar r =>
      if gate_open r raw extracted then
        resolved ← any_as_mapping (resolve_value r raw extracted);
        f ← finish_value r t resolved; Ok (Some (fin_value f))
      else Ok None
  end.

Definition write_outcome (p : list string) (o : option pyval) (d : list (string * otree)) : list (string * otree) * bool :=
  match o with Some v => set_path p v d | None => (d, false) end.

Lemma apply_rule_inv raw extracted t st rule st' :
  apply_rule raw extracted t st rule = Ok st' ->
  exists o, rule_outcome raw extracted t rule = Ok o /\
    st_output st' = (write_outcome (target_of rule) o (st_output st)).1 /\
    st_shared st' = st_shared st || (write_outcome (target_of rule) o (st_output st)).2 /\
    st_consumed st ⊆ st_consumed st'.
Proof.
  unfold apply_rule, rule_outcome. destruct rule as [r|r].
  - destruct (gate_open r raw extracted).
    + intros (v & Hv & Hs)%result_bind_ok. peel_bind Hs as f Hf. injection Hs as <-.
      exists (Some (fin_value f)). rewrite Hv. cbn. rewrite Hf. unfold write. cbn.
      destruct (set_path _ _ _) as [out sh]. cbn. split_and!; [done..|set_solver].
    + intros [= <-]. exists None. cbn. rewrite orb_false_r. split_and!; [done..|set_solver].
  - intros (obs & Ho & [= <-])%result_bind_ok. exists (Some (PList (PDict <$> obs))). rewrite Ho.
    unfold write. cbn. destruct (set_path _ _ _) as [out sh]. cbn. split_and!; [done..|set_solver].
Qed.

Lemma apply_rules_consumed raw extracted t rs st st' :
  result_fold (apply_rule raw extracted t) st rs = Ok st' -> st_consumed st ⊆ st_consumed st'.
Proof.
  revert st. induction rs as [|r rs IH]; intros st; cbn; [by intros [= <-]|].
  intros (st1 & (o & _ & _ & _ & Hc1)%apply_rule_inv & Hc2%IH)%result_bind_ok. set_solver.
Qed.

Lemma apply_rules_isolated raw extracted t rs st st' done :
  result_fold (apply_rule raw extracted t) st rs = Ok st' ->
  (forall q w, get_path q (st_output st) = Some (Placed w) -> q ∈ done) ->
  (forall p q, p ∈ done ++ (target_of <$> rs) -> q ∈ done ++ (target_of <$> rs) -> ~ proper_prefix p q) ->
  st_shared st = false -> st_shared st' = false.
Proof.
  revert st done. induction rs as [|r rs IH]; intros st done; cbn; [by intros [= <-]|].
  intros (st1 & (o & _ & Hout & Hsh & _)%apply_rule_inv & Hf)%result_bind_ok Hd Hp Hs.
  apply (IH st1 (done ++ [target_of r]) Hf).
  - intros q w. rewrite Hout. destruct o as [v|]; cbn [write_outcome fst].
    + intros [->|[w' Hw]]%get_set_placed; set_solver.
    + intros Hg%Hd. set_solver.
  - intros p q Hpp Hq. apply Hp; set_solver.
  - rewrite Hsh, Hs. cbn. destruct o as [v|]; [cbn|done].
    destruct (set_path _ _ _).2 eqn:E; [|done].
    apply set_path_shared in E as (q & w & Hpre & Hg%Hd). exfalso. apply (Hp q (target_of r)); set_solver.
Qed.

(** [targets_isolated] (the engine never writes into shared objects).  When no
    target of the mapping extends another one, applying it writes only into
    dicts the engine created: neither the raw event nor a [const], [default] or
    [value_map] value of the cached mapping is mutated. *)
Theorem targets_isolated compiled raw t res :
  (forall p q, p ∈ target_of <$> rules compiled -> q ∈ target_of <$> rules compiled -> ~ proper_prefix p q) ->
  apply_compiled compiled raw t = Ok res -> res_shared res = false.
Proof.
  intros Hp (pre & Hpre & Ha)%result_bind_ok. peel_bind Ha as st Hst. injection Ha as <-. cbn.
  apply (apply_rules_isolated _ _ _ _ _ _ [] Hst); [|done|done]. intros q w. cbn. by rewrite get_path_nil_dict.
Qed.

Lemma apply_rules_targets raw extracted t rs st st' :
  result_fold (apply_rule raw extracted t) st rs = Ok st' ->
  st_shared st' = false ->
  ForallOrdPairs incomparable (target_of <$> rs) ->
  Forall (fun r => target_of r <> [] /\ get_path (target_of r) (st_output st) = None) rs ->
  (forall q, (forall r, r ∈ rs -> incomparable (target_of r) q) ->
     get_path q (st_output st') = get_path q (st_output st)) /\
  forall r, r ∈ rs -> exists o, rule_outcome raw extracted t r = Ok o /\
    get_path (target_of r) (st_output st') = Placed <$> o.
Proof.
  revert st. induction rs as [|r rs IH]; intros st; cbn.
  { intros [= <-] _ _ _. split; [done|]. intros r Hr. by apply elem_of_nil in Hr. }
  intros (st1 & (o & Ho & Hout & Hsh & _)%apply_rule_inv & Hf)%result_bind_ok Hs Hinc Hempty.
  assert (Forall (incomparable (target_of r)) (target_of <$> rs) /\ ForallOrdPairs incomparable (target_of <$> rs))
    as [Hr Hrs] by by inversion Hinc.
  rewrite Forall_fmap in Hr. apply Forall_cons in Hempty as [[Hne Hg] Hempty].
  assert (forall q, incomparable (target_of r) q -> get_path q (st_output st1) = get_path q (st_output st)) as Hother.
  { intros q Hq. rewrite Hout. destruct o; [by apply get_set_other | done]. }
  destruct (IH st1 Hf Hs Hrs) as [IHq IHr].
  { rewrite Forall_forall in Hr, Hempty |- *. intros r' Hr'. destruct (Hempty r' Hr') as [? Hg'].
    split; [done|]. rewrite Hother by by apply Hr. done. }
  split.
  - intros q Hq. rewrite IHq by (intros; apply Hq; by right). apply Hother, Hq. left.
  - intros r' [->|Hr']%elem_of_cons; [|by apply IHr]. exists o. split; [done|].
    rewrite IHq by (intros r' Hr'; rewrite Forall_forall in Hr; destruct (Hr r' Hr') as (? & ? & ?);
      unfold incomparable; split_and!; [congruence|done..]).
    rewrite Hout. destruct o as [v|]; [|done]. cbn. apply get_set_same; [done|].
    assert (st_shared st1 = false) as Hs1.
    { clear -Hf Hs. revert st1 Hf. induction rs as [|r' rs IH]; intros st1; cbn; [intros [= ->]; done|].
      intros (st2 & (o & _ & _ & Hsh & _)%apply_rule_inv & Hf)%result_bind_ok.
      apply IH in Hf. rewrite Hf in Hsh. symmetry in Hsh. by apply orb_false_iff in Hsh as [? _]. }
    rewrite Hsh in Hs1. by apply orb_false_iff in Hs1 as [_ ?].
Qed.

(** C28 [rule_independence] (each target holds its own rule's value).  When no
    two targets of a compiled mapping are equal or extend one another, the
    output holds at each target exactly what that rule computes on its own from
    the raw event and the preprocess results, and nothing at all when the rule's
    [when] gate is closed, not even its default. *)
Theorem rule_independence payload version compiled raw t res :
  compile_rules payload version = Ok compiled ->
  ForallOrdPairs incomparable (target_of <$> rules compiled) ->
  apply_compiled compiled raw t = Ok res ->
  exists pre, preprocess compiled (PDict raw) = Ok pre /\
    forall r, r ∈ rules compiled ->
      exists o, rule_outcome (PDict raw) (PDict pre.1) t r = Ok o /\
        get_path (target_of r) (res_output res) = Placed <$> o.
Proof.
  intros Hc Hinc Ha. pose proof Ha as Hres. apply compiled_rules_wf in Hc.
  apply targets_isolated in Hres.
  2: { clear -Hinc. induction (target_of <$> rules compiled) as [|p l IH]; [set_solver|].
       inversion Hinc as [|? ? Hp Hl]; subst. rewrite Forall_forall in Hp.
       intros p1 q1 [->|Hp1]%elem_of_cons [->|Hq1]%elem_of_cons.
       - intros (k & rest & E). apply (f_equal length) in E. rewrite length_app in E. cbn in E. lia.
       - by apply Hp.
       - by apply Hp.
       - by apply IH. }
  peel_bind Ha as pre Hpre. exists pre. split; [done|].
  peel_bind Ha as st Hst. injection Ha as <-. cbn in *.
  apply (apply_rules_targets _ _ _ _ _ _ Hst); [done|done|].
  eapply Forall_impl; [exact Hc|]. intros r [Hr _]. split; [done|]. cbn. by rewrite get_path_nil_dict.
Qed.

End props.

(** ** Examples and witnesses *)

Section examples.
#[local] Existing Instances demo_jmes demo_float_repr demo_float_parse demo_iso demo_json demo_limit.
Definition demo_fast_path : FastPath := true.
#[local] Existing Instance demo_fast_path.

Definition demo_mapping : pyval :=
  PDict [("preprocess", PList [PDict [("op", PStr "json_parse"); ("source", PStr "blob"); ("target", PStr "_blob");
                                      ("tolerant", PBool true)]]);
         ("rules", PList [
            PDict [("target", PStr "normalized.user.name"); ("source", PStr "user"); ("fallback_source", PList [PStr "login"]);
                   ("pre_cast", PStr "trim"); ("required", PBool true)];
            PDict [("target", PStr "normalized.severity_id"); ("source", PStr "severity");
                   ("value_map", PDict [("High", PInt 4)]); ("default", PInt 1)];
            PDict [("target", PStr "normalized.time"); ("source", PStr "ts"); ("default_from", PStr "ingest_time")];
            PDict [("target", PStr "normalized.tags"); ("source", PStr "_blob"); ("type_cast", PStr "to_array")];
            PDict [("target", PStr "normalized.note"); ("const", PStr "x");
                   ("when", PDict [("exists", PStr "absent")])]])].
Definition demo_compiled : compiled_rules :=
  match compile_rules demo_mapping (Some 2) with Ok c => c | Raise _ => CompiledRules [] [] [] end.
Definition demo_event : list (string * pyval) :=
  [("login", PStr " ana "); ("severity", PStr "HIGH"); ("blob", PStr "[1]")].
Definition demo_result : apply_result :=
  match apply_compiled demo_compiled demo_event (Some 1700000000000) with
  | Ok r => r | Raise _ => ApplyResult [] ∅ [] [] None false end.

Example demo_output :
  erase (Owned (res_output demo_result)) =
  PDict [("normalized", PDict [("user", PDict [("name", PStr "ana")]); ("severity_id", PInt 4);
                               ("time", PInt 1700000000000); ("tags", PList [PInt 1])])] /\
  res_ingest_fallback demo_result = ["normalized.time"].
Proof. vm_compute. split; reflexivity. Qed.

Lemma demo_incomparable : ForallOrdPairs incomparable (target_of <$> rules demo_compiled).
Proof.
  assert (forall p q, p <> q -> length p = length q -> incomparable p q) as Hlen.
  { intros p q Hne Hl. split_and!; [done|..]; intros (k & rest & E); apply (f_equal length) in E;
      rewrite length_app in E; cbn in E; lia. }
  assert (forall k rest q, q <> [] -> head q <> Some k -> incomparable (k :: rest) q) as Hhead.
  { intros k rest q Hq Hh. split_and!.
    - by intros <-.
    - intros (k' & r' & ->). by cbn in Hh.
    - intros (k' & r' & E). destruct q; [done|]. injection E as <- _. by cbn in Hh. }
  assert (forall k p q, incomparable p q -> incomparable (k :: p) (k :: q)) as Hcons.
  { intros k p q (H1 & H2 & H3). split_and!; [congruence|..]; intros (k' & r' & E); injection E as E;
      [apply H2 | apply H3]; by exists k', r'. }
  repeat (apply FOP_cons || apply FOP_nil); repeat (apply Forall_cons_2 || apply Forall_nil_2); cbn;
    apply Hcons; first [apply Hlen; [discriminate | reflexivity] | apply Hhead; discriminate].
Defined.

Lemma compile_v1_plain_witness :
  exists compiled, compile_rules (PList [PDict [("target", PStr "a"); ("source", PStr "b")]]) None = Ok compiled /\
    Forall plain_scalar (rules compiled).
Proof.
  eexists. split; [reflexivity|].
  edestruct (compile_v1_plain [PDict [("target", PStr "a"); ("source", PStr "b")]] None) as (_ & _ & _ & Hp);
    [reflexivity | exact Hp].
Defined.

Lemma compile_v2_namespaces_witness :
  compile_rules demo_mapping (Some 2) = Ok demo_compiled /\
  length (preprocess_ops demo_compiled) = 1%nat /\
  Forall (fun op => str_prefix "_" (pp_target op) = true) (preprocess_ops demo_compiled).
Proof.
  split; [reflexivity|]. split; [reflexivity|].
  destruct (compile_v2_namespaces (dict_items demo_mapping) (Some 2) demo_compiled) as (_ & Hp & _);
    [reflexivity | exact Hp].
Defined.

Lemma rule_independence_witness :
  compile_rules demo_mapping (Some 2) = Ok demo_compiled /\
  get_path ["normalized"; "severity_id"] (res_output demo_result) = Some (Placed (PInt 4)) /\
  exists pre, preprocess demo_compiled (PDict demo_event) = Ok pre /\
    forall r, r ∈ rules demo_compiled ->
      exists o, rule_outcome (PDict demo_event) (PDict pre.1) (Some 1700000000000) r = Ok o /\
        get_path (target_of r) (res_output demo_result) = Placed <$> o.
Proof.
  split; [reflexivity|]. split; [vm_compute; reflexivity|].
  apply (rule_independence demo_mapping (Some 2) demo_compiled demo_event (Some 1700000000000) demo_result);
    [reflexivity | exact demo_incomparable | vm_compute; reflexivity].
Defined.

(** ** Divergences *)

(** Nothing rejects a target that extends another one.  Then [_set_path] writes
    the second value inside the object the first rule placed: here the [const]
    dict of the cached mapping, so one event's user name stays in the mapping
    and is delivered with the next event. *)
Definition overlapping_mapping : pyval :=
  PList [PDict [("target", PStr "user"); ("const", PDict [("kind", PStr "human")])];
         PDict [("target", PStr "user.name"); ("source", PStr "login")]].
Lemma overlapping_targets_mutate_the_mapping :
  exists compiled res,
    compile_rules overlapping_mapping None = Ok compiled /\
    apply_compiled compiled demo_event None = Ok res /\
    res_shared res = true /\
    erase (Owned (res_output res)) = PDict [("user", PDict [("kind", PStr "human"); ("name", PStr " ana ")])].
Proof. eexists _, _. split; [reflexivity|]. split; [vm_compute; reflexivity|]. split; reflexivity. Qed.

(** The underscore namespace is reserved, but an [array_builder] target may use it. *)
Lemma builder_target_reserved_namespace :
  is_ok (compile_rules (PDict [("rules", PList [PDict [("target", PStr "_x"); ("kind", PStr "array_builder");
                                                       ("items", PList [])]])]) (Some 2)) = true /\
  is_ok (compile_rules (PDict [("rules", PList [PDict [("target", PStr "_x"); ("const", PNone)]])]) (Some 2)) = false.
Proof. split; reflexivity. Qed.
End examples.
