(* ===== verification/EngineValues.v ===== *)
(** * Properties of the mapping engine: values, provenance, failures

    [required] and [default] on a rule's value, soundness of [consumed_paths],
    and the classes of exception that leave [apply_compiled]. *)

From S2P Require Import Prelude PyVal Predicates Operators Reduction ArrayBuilder Engine EngineProps.

Local Open Scope string_scope.
Local Open Scope list_scope.
Local Open Scope Z_scope.

Section values.
Context `{JmesPath} `{FastPath} `{FloatRepr} `{FloatParse} `{IsoParse} `{JsonLoads} `{JsonLimit}.

(** ** [required] *)

Lemma try_except_ok {A} (m : result A) c e v : try_except m c (fun _ => Raise e) = Ok v -> m = Ok v.
Proof. destruct m; cbn; [done|]. by destruct (c e0). Qed.

Lemma cast_step_presence cast v w : cast_step cast v = Ok w -> v <> PNone -> w <> PNone.
Proof.
  unfold cast_step. destruct cast as [c|]; [|naive_solver]. case_match; [naive_solver|].
  intros Hc%try_except_ok Hv. destruct (apply_type_cast_elem _ _ _ Hc) as (fn & _ & _).
  clear -Hc Hv. revert Hc Hv. apply cast_presence.
Qed.

Lemma value_map_scan_elem {A} key (m : list (string * A)) v : value_map_scan key m = Some v -> v ∈ m.*2.
Proof.
  induction m as [|[k x] m IH]; cbn; [done|]. case_match; [intros [= <-]; left | intros; right; auto].
Qed.

Lemma value_map_lookup_elem {A} v (m : list (string * A)) w : value_map_lookup v m = Ok (Some w) -> w ∈ m.*2.
Proof.
  unfold value_map_lookup. destruct v; cbn; try done; intros [= Hg];
    first [by eapply value_map_scan_elem | apply dict_get_elem in Hg; by apply (list_elem_of_fmap_2 snd) in Hg].
Qed.

(** The map and the default of the rule hold no [None]. *)
Definition map_present (r : compiled_rule) : Prop :=
  forall m, cr_value_map r = Some m -> (PNone ∉ m.*2) /\ cr_default r <> Some PNone.

Lemma value_map_step_presence r ingest v w :
  (cr_probe r = true -> is_Some (cr_default r)) -> map_present r ->
  value_map_step r ingest v = Ok w -> v <> PNone -> w <> PNone.
Proof.
  intros Hprobe Hm. unfold value_map_step. destruct (cr_value_map r) as [m|] eqn:E; [|naive_solver].
  destruct (Hm m E) as [Hpm Hd]. case_match; [naive_solver|]. intros Hw%try_except_ok Hv.
  destruct (cr_probe r && negb ingest) eqn:Hpr.
  - apply andb_true_iff in Hpr as [Hpr _]. peel_bind Hw as hit Hhit. injection Hw as <-.
    destruct hit as [w|]; [apply value_map_lookup_elem in Hhit; cbn; by intros ->|].
    destruct (Hprobe Hpr) as [d Hdd]. rewrite Hdd in *. cbn. by intros ->.
  - unfold apply_value_map in Hw. peel_bind Hw as hit Hhit. injection Hw as <-.
    destruct hit as [w|]; [apply value_map_lookup_elem in Hhit; cbn; by intros -> | done].
Qed.

Lemma finish_value_presence r t v f :
  (cr_probe r = true -> is_Some (cr_default r)) -> map_present r -> cr_required r = true ->
  finish_value r t v = Ok f -> fin_value f <> PNone.
Proof.
  intros Hp Hm Hr. unfold finish_value. cbv zeta.
  intros (v1 & _ & Hf)%result_bind_ok. peel_bind Hf as u Hreq. peel_bind Hf as v2 Hv2. peel_bind Hf as v3 Hv3.
  injection Hf as <-. cbn. apply raise_if_ok in Hreq. rewrite Hr, andb_true_r in Hreq.
  apply (cast_step_presence _ _ _ Hv3). destruct (bool_decide (is_Some (cr_default r)) && is_none v).
  - injection Hv2 as <-. by intros ->.
  - apply (value_map_step_presence _ _ _ _ Hp Hm Hv2). by intros ->.
Qed.

Lemma compile_single_rule_probe flags v r :
  compile_single_rule flags v = Ok r -> cr_probe r = true -> is_Some (cr_default r).
Proof.
  unfold compile_single_rule. destruct v as [| | | | | |d]; try done.
  intros (x & _ & Hc)%result_bind_ok. repeat (let y := fresh in peel_bind Hc as y _). injection Hc as <-. cbn.
  intros [_ Hd]%andb_true_iff. by apply dict_has_true.
Qed.

(** [required_never_null] (a required field is never written empty).  When a
    compiled rule is [required] and its [value_map] and [default] hold no
    [None], a rule that is applied yields a value other than [None]; with
    nothing to write it raises instead. *)
Theorem required_never_null flags spec r raw extracted t o :
  compile_single_rule flags spec = Ok r -> cr_required r = true -> map_present r ->
  rule_outcome raw extracted t (Scalar r) = Ok (Some o) -> o <> PNone.
Proof.
  intros Hc Hr Hm. cbn. destruct (gate_open r raw extracted); [|done].
  intros (v & _ & Ho)%result_bind_ok. peel_bind Ho as f Hf. injection Ho as <-.
  apply (finish_value_presence r t v); [by eapply compile_single_rule_probe | done..].
Qed.

(** ** [default] *)

(** [default_is_final] (the default is an output value).  When the source
    resolves to [None] and the rule has a default, the default skips [pre_cast]
    and [value_map] and goes only through [type_cast]; the rule is counted in
    [default_hits] and never takes the ingest time in its place. *)
Theorem default_is_final r t dflt :
  cr_default r = Some dflt -> dflt <> PNone ->
  finish_value r t PNone = (v ← cast_step (cr_type_cast r) dflt; Ok (Finished v true false)).
Proof.
  intros Hd Hn. unfold finish_value. rewrite Hd. cbn. destruct dflt; done.
Qed.

(** ** [consumed_paths] *)

Lemma first_fallback_frame fbs root1 root2 v :
  Forall (fun fb => search fb.1 root1 = search fb.1 root2) fbs ->
  first_fallback fbs root1 v = first_fallback fbs root2 v.
Proof.
  intros Hs. revert v. induction Hs as [|fb fbs Hfb _ IH]; intros v; [done|]. cbn. rewrite Hfb.
  destruct (search fb.1 root2); [|done]. cbn. by rewrite IH.
Qed.

Section frame.
Context (raw1 raw2 extracted : pyval) (t : option Z).
(** The documents give the same result for every registered path. *)
Context (paths : gset string).
Context (Hagree : forall s r, consumed_source s ∈ paths -> compile_source s = Ok r -> search r raw1 = search r raw2).

Lemma elem_of_sources s l : consumed_source s ∈ sources_of l <-> s ∈ l.
Proof.
  unfold sources_of. rewrite elem_of_list_to_set, list_elem_of_fmap. split.
  - intros (s' & Hs & ?).
    by apply (inj (String.append "source:")) in Hs as ->.
  - eauto.
Qed.

Lemma gate_open_frame r :
  scalar_wf r -> sources_of (cr_predicate_strs r) ⊆ paths -> gate_open r raw1 extracted = gate_open r raw2 extracted.
Proof.
  intros (_ & _ & Hw) Hp. unfold gate_open. destruct (cr_when r) as [p|]; [|done].
  destruct (Hw p eq_refl) as [Hok Hs]. destruct (cr_source_root r); [|done]. cbn.
  apply predicate_frame_ok; [done|]. intros s rs Hin Hrs. apply (Hagree s); [|done].
  apply Hp, elem_of_sources. by rewrite Hs.
Qed.

Lemma resolve_value_frame r :
  scalar_wf r -> (forall src, cr_source r = Some src -> consumed_source src.2 ∈ paths) ->
  sources_of (cr_fallbacks r).*2 ⊆ paths ->
  resolve_value r raw1 extracted = resolve_value r raw2 extracted.
Proof.
  intros (Hsrc & Hfb & _) Hs Hf. unfold resolve_value. destruct (cr_const r); [done|].
  destruct (cr_source r) as [src|]; [|done]. destruct (cr_source_root r); [|done]. cbn.
  rewrite (Hagree src.2 src.1 (Hs _ eq_refl) (Hsrc _ eq_refl)).
  destruct (search src.1 raw2); [|done]. cbn. destruct (is_none a); [|done].
  apply first_fallback_frame. rewrite Forall_forall in Hfb |- *. intros fb Hin. apply (Hagree fb.2); [|by apply Hfb].
  apply Hf, elem_of_sources. by apply (list_elem_of_fmap_2 snd).
Qed.

Lemma apply_rule_frame st st' rule :
  rule_wf rule -> apply_rule raw1 extracted t st rule = Ok st' -> st_consumed st' ⊆ paths ->
  apply_rule raw2 extracted t st rule = Ok st'.
Proof.
  intros [_ Hwf]. unfold apply_rule. destruct rule as [r|r].
  - destruct (gate_open r raw1 extracted) eqn:Hg.
    + intros (v & Hv & Ha)%result_bind_ok Hsub. peel_bind Ha as f Hf. injection Ha as <-.
      unfold write in Hsub. destruct (set_path _ _ _) as [out sh] eqn:Hset. cbn in Hsub.
      rewrite <- gate_open_frame by (done || set_solver). rewrite Hg.
      rewrite <- resolve_value_frame; [|done|..].
      * rewrite Hv. cbn. rewrite Hf. cbn. unfold write. by rewrite Hset.
      * intros src Hs. unfold rule_consumed in Hsub. rewrite Hs in Hsub. set_solver.
      * unfold rule_consumed in Hsub. set_solver.
    + intros [= <-] Hsub. cbn in Hsub. rewrite <- gate_open_frame by (done || set_solver). by rewrite Hg.
  - intros (obs & Ho & [= <-])%result_bind_ok Hsub.
    unfold write in Hsub |- *. destruct (set_path _ _ _) as [out sh] eqn:Hset. cbn in Hsub, Hset.
    rewrite <- (array_builder_frame r raw1 raw2).
    + rewrite Ho. cbn. by rewrite Hset.
    + intros i Hi _. rewrite Forall_forall in Hwf. apply (Hagree (item_source_str i)); [|by apply Hwf].
      apply Hsub. apply elem_of_union_l, elem_of_sources. by apply list_elem_of_fmap_2.
Qed.

Lemma apply_rules_frame rs st st' :
  Forall rule_wf rs -> result_fold (apply_rule raw1 extracted t) st rs = Ok st' -> st_consumed st' ⊆ paths ->
  result_fold (apply_rule raw2 extracted t) st rs = Ok st'.
Proof.
  intros Hwf. revert st. induction Hwf as [|r rs Hr _ IH]; intros st; [done|]. cbn.
  intros (st1 & Hst1 & Hf)%result_bind_ok Hsub.
  rewrite (apply_rule_frame _ _ _ Hr Hst1); [cbn; by apply IH|].
  apply apply_rules_consumed in Hf. set_solver.
Qed.
End frame.

(** The two events give the same value for every registered path. *)
Definition agree_on_consumed (raw1 raw2 : list (string * pyval)) (res : apply_result) : Prop :=
  forall s r, consumed_source s ∈ res_consumed res -> compile_source s = Ok r -> search r (PDict raw1) = search r (PDict raw2).

(** [consumed_paths_sound] (drift tracking misses nothing).  If a second event
    gives the same value for every path that [apply_compiled] registered in
    [consumed_paths], and for the sources of the preprocess steps, the mapping
    applied to it yields the same output, the same consumed paths, the same
    default hits and the same ingest fallbacks. *)
Theorem consumed_paths_sound payload version compiled raw1 raw2 t res :
  compile_rules payload version = Ok compiled ->
  apply_compiled compiled raw1 t = Ok res ->
  (forall op, op ∈ preprocess_ops compiled -> search (pp_source op) (PDict raw1) = search (pp_source op) (PDict raw2)) ->
  agree_on_consumed raw1 raw2 res ->
  exists res', apply_compiled compiled raw2 t = Ok res' /\
    res_output res' = res_output res /\ res_consumed res' = res_consumed res /\
    res_default_hits res' = res_default_hits res /\ res_ingest_fallback res' = res_ingest_fallback res.
Proof.
  intros Hc%compiled_rules_wf (pre & Hpre & Ha)%result_bind_ok Hops Hpaths. peel_bind Ha as st Hst. injection Ha as <-.
  assert (preprocess compiled (PDict raw2) = Ok pre) as Hpre2.
  { rewrite <- Hpre. unfold preprocess. generalize (@nil (string * pyval), ∅ : gset string) as s0.
    clear -Hops. induction (preprocess_ops compiled) as [|op ops IH]; intros s0; [done|]. cbn.
    assert (preprocess_step (PDict raw2) s0 op = preprocess_step (PDict raw1) s0 op) as ->.
    { unfold preprocess_step. by rewrite Hops by left. }
    destruct (preprocess_step (PDict raw1) s0 op); [|done]. cbn. apply IH. intros; apply Hops; by right. }
  unfold apply_compiled. rewrite Hpre2. cbn.
  rewrite (apply_rules_frame (PDict raw1) (PDict raw2) _ t (st_consumed st)
             ltac:(exact Hpaths) _ _ _ Hc Hst ltac:(reflexivity)).
  eexists. split; [reflexivity|]. done.
Qed.

(** ** Failures *)

(** What the third-party code may raise: JMESPath its own errors, [json.loads]
    the three parse errors. *)
Class ThirdPartyErrors := {
  jmes_errors e v x : jmes_search e v = Raise x -> x = EOther;
  json_errors s x : json_loads s = Raise x -> is_parse_error x = true;
}.

(** Exceptions outside the [MappingError] and [OperatorError] families. *)
Definition leak (e : exn) : bool :=
  match e with EType | EValue | EOverflow | EConnection | EOther => true | _ => false end.
(** The two errors the pipeline turns into a quarantined event. *)
Definition quarantined (e : exn) : bool :=
  match e with EMapping | EMappingRequired _ => true | _ => false end.
Definition mapping_or_leak (e : exn) : Prop := quarantined e = true \/ leak e = true.
Definition operator_or_leak (e : exn) : Prop := is_operator_error e = true \/ leak e = true.

Lemma result_fmap_raise {A B} (f : A -> B) (m : result A) e : f <$> m = Raise e -> m = Raise e.
Proof. destruct m; cbn; congruence. Qed.

Lemma search_errors `{ThirdPartyErrors} r v e : search r v = Raise e -> e = EOther.
Proof. destruct r; cbn; [done|]. apply jmes_errors. Qed.

Lemma float_to_int_errors conv f e : float_to_int conv f = Raise e -> leak e = true.
Proof. unfold float_to_int. case_match; by intros [= <-]. Qed.

Lemma coerce_errors n e : coerce_epoch_millis n = Raise e -> leak e = true.
Proof. unfold coerce_epoch_millis. repeat case_match; try done; apply float_to_int_errors. Qed.

Lemma iso_of_seconds_errors z e : iso_of_seconds z = Raise e -> leak e = true.
Proof. unfold iso_of_seconds. repeat case_match; intros [= <-]; done. Qed.

Lemma mitre_errors l e : result_map mitre_item l = Raise e -> e = EOperator.
Proof.
  intros (x & _ & Hx)%result_map_raise. unfold mitre_item in Hx. repeat case_match; congruence.
Qed.

Lemma cast_errors v c e : apply_type_cast v c = Raise e -> operator_or_leak e.
Proof.
  unfold apply_type_cast, operator_or_leak. destruct (dict_get c TYPE_CASTS) as [fn|] eqn:Hg; [|intros [= <-]; by left].
  apply dict_get_elem in Hg as Hin. clear Hg. intros Hfn.
  repeat (apply elem_of_cons in Hin as [[= -> ->]|Hin]); [..|by apply elem_of_nil in Hin].
  - unfold iso_to_epoch in Hfn.
    repeat case_match; simplify_eq; try (by left); apply result_fmap_raise in Hfn; right;
      first [by eapply coerce_errors | by eapply float_to_int_errors].
  - unfold epoch_to_iso in Hfn. apply result_bind_raise in Hfn as [Hfn|(v' & _ & Hfn)].
    + repeat case_match; simplify_eq; by left.
    + case_match; [|simplify_eq; by left]. apply result_bind_raise in Hfn as [Hfn|(m & _ & Hfn)].
      * right. by eapply coerce_errors.
      * apply result_fmap_raise in Hfn. right. by eapply iso_of_seconds_errors.
  - unfold to_str in Hfn. case_match; simplify_eq; by left.
  - unfold to_int in Hfn. repeat case_match; simplify_eq; try (by left).
    apply result_fmap_raise in Hfn. right. by eapply float_to_int_errors.
  - unfold to_bool in Hfn. repeat case_match; simplify_eq; by left.
  - unfold score_to_percent in Hfn. repeat case_match; simplify_eq; try (by left).
    apply result_fmap_raise in Hfn. right. by eapply float_to_int_errors.
  - unfold lowercase, string_cast in Hfn. case_match; simplify_eq; by left.
  - unfold uppercase, string_cast in Hfn. case_match; simplify_eq; by left.
  - unfold trim, string_cast in Hfn. case_match; simplify_eq; by left.
  - unfold to_array in Hfn. case_match; simplify_eq.
  - unfold dedup in Hfn. case_match; simplify_eq; by left.
  - unfold mitre_tactic_to_ocsf in Hfn. case_match; simplify_eq; try (by left).
    apply result_bind_raise in Hfn as [Hfn%mitre_errors|(? & _ & [=])]. simplify_eq. by left.
Qed.

Lemma operator_as_mapping_errors {A} (m : result A) e :
  (forall x, m = Raise x -> operator_or_leak x) -> operator_as_mapping m = Raise e -> mapping_or_leak e.
Proof.
  unfold operator_as_mapping, mapping_or_leak. intros Hm. destruct m as [|x]; cbn; [done|].
  destruct (Hm x eq_refl) as [Hx|Hx].
  - rewrite Hx. intros [= <-]. by left.
  - destruct (is_operator_error x); intros [= <-]; [by left | by right].
Qed.

Lemma cast_step_errors cast v e : cast_step cast v = Raise e -> mapping_or_leak e.
Proof.
  unfold cast_step. destruct cast; [|done]. case_match; [done|].
  apply operator_as_mapping_errors. intros x. apply cast_errors.
Qed.

Lemma value_map_lookup_errors {A} v (m : list (string * A)) e : value_map_lookup v m = Raise e -> e = EType.
Proof. unfold value_map_lookup. repeat case_match; intros [= <-]; done. Qed.

Lemma value_map_step_errors r b v e : value_map_step r b v = Raise e -> mapping_or_leak e.
Proof.
  unfold value_map_step. destruct (cr_value_map r); [|done]. case_match; [done|].
  apply operator_as_mapping_errors. intros x Hx. right. case_match.
  - apply result_bind_raise in Hx as [->%value_map_lookup_errors|(? & _ & [=])]. done.
  - unfold apply_value_map in Hx. apply result_bind_raise in Hx as [->%value_map_lookup_errors|(? & _ & [=])]. done.
Qed.

Lemma finish_value_errors r t v e : finish_value r t v = Raise e -> mapping_or_leak e.
Proof.
  unfold finish_value. cbv zeta. intros [Hx|(v1 & _ & Hx)]%result_bind_raise.
  { case_match; [done|]. by eapply cast_step_errors. }
  apply result_bind_raise in Hx as [[_ <-]%raise_if_raise|(u & _ & Hx)]; [by left|].
  apply result_bind_raise in Hx as [Hx|(v2 & _ & Hx)]; [case_match; [done|]; by eapply value_map_step_errors|].
  apply result_bind_raise in Hx as [Hx|(v3 & _ & [=])]. by eapply cast_step_errors.
Qed.

Lemma array_builder_errors `{ThirdPartyErrors} r raw ex e : apply_array_builder r raw ex = Raise e -> leak e = true.
Proof.
  unfold apply_array_builder, build_items. intros [Hx|(obs & _ & Hx)]%result_bind_raise.
  - apply result_map_raise in Hx as (i & _ & [->%search_errors|(? & _ & [=])]%result_bind_raise). done.
  - destruct (arr_dedup_by r); [done|]. revert Hx. generalize (@nil (list pyval)) as seen.
    induction (concat obs) as [|o os IH]; intros seen; cbn; [done|].
    intros [Hk|(k & _ & Hx)]%result_bind_raise.
    + unfold dedup_key in Hk. case_match; [done|]. by injection Hk as <-.
    + case_match; [by eapply IH|]. apply result_bind_raise in Hx as [Hx|(? & _ & [=])]. by eapply IH.
Qed.

Lemma json_parse_errors `{ThirdPartyErrors} v b e : json_parse v b = Raise e -> is_operator_error e = true.
Proof.
  unfold json_parse. intros Hx. destruct v; try done; [destruct b; naive_solver..| | |];
    [|destruct b; naive_solver..].
  case_match; [by injection Hx as <-|]. destruct (json_loads s) as [|y] eqn:Hj; cbn in Hx; [done|].
  apply json_errors in Hj. rewrite Hj in Hx. destruct b; [done|]. by injection Hx as <-.
Qed.

Lemma preprocess_step_errors `{ThirdPartyErrors} raw st op e : preprocess_step raw st op = Raise e -> mapping_or_leak e.
Proof.
  unfold preprocess_step. destruct st as [ex co].
  assert (forall x, (v ← search (pp_source op) raw; w ← apply_preprocess_op v (pp_op op) (pp_tolerant op); Ok (v, w))
                    = Raise x -> operator_or_leak x) as Hop.
  { intros x [->%search_errors|(v & _ & Hx)]%result_bind_raise; [by right|].
    apply result_bind_raise in Hx as [Hx|(w & _ & [=])]. left. unfold apply_preprocess_op in Hx.
    cbn in Hx. case_match; [|by injection Hx as <-]. case_match; simplify_eq. by eapply json_parse_errors. }
  destruct (_ ≫= _) as [[v w]|x]; [done|]. specialize (Hop x eq_refl).
  intros He. unfold mapping_or_leak. destruct Hop as [Hx|Hx].
  - destruct x; try done; cbn in He; repeat case_match; simplify_eq; by left.
  - destruct x; try done; cbn in He; simplify_eq; by right.
Qed.

Lemma apply_rule_errors `{ThirdPartyErrors} raw ex t st r e : apply_rule raw ex t st r = Raise e -> mapping_or_leak e.
Proof.
  unfold apply_rule. destruct r as [r|r].
  - case_match; [|done]. intros [Hx|(v & _ & Hx)]%result_bind_raise.
    + unfold any_as_mapping in Hx. destruct (resolve_value r raw ex); [done|]. injection Hx as <-. by left.
    + apply result_bind_raise in Hx as [Hx|(f & _ & [=])]. by eapply finish_value_errors.
  - intros [Hx|(v & _ & [=])]%result_bind_raise. right. by eapply array_builder_errors.
Qed.

Lemma result_fold_raise {A S} (f : S -> A -> result S) (P : exn -> Prop) s l e :
  (forall s x e, f s x = Raise e -> P e) -> result_fold f s l = Raise e -> P e.
Proof.
  intros Hf. revert s. induction l as [|x l IH]; intros s; cbn; [done|].
  intros [Hx|(s' & _ & Hx)]%result_bind_raise; [by eapply Hf | by eapply IH].
Qed.

(** C40 [apply_errors] (how a bad event fails).  An exception leaving
    [apply_compiled] is a [MappingError], a [MappingRequiredFieldError], or one
    of [TypeError], [ValueError], [OverflowError], the [OSError] of an epoch too
    large for the C library and a third-party error: an operator's own error never
    escapes, nor does a JSON or recursion error of
    the preprocess phase. *)
Theorem apply_errors `{ThirdPartyErrors} compiled raw t e :
  apply_compiled compiled raw t = Raise e ->
  quarantined e = true \/ leak e = true.
Proof.
  intros [Hx|(pre & _ & Hx)]%result_bind_raise.
  - eapply (result_fold_raise _ mapping_or_leak); [|exact Hx]. intros s x y. apply preprocess_step_errors.
  - apply result_bind_raise in Hx as [Hx|(st & _ & [=])].
    eapply (result_fold_raise _ mapping_or_leak); [|exact Hx]. intros s x y. apply apply_rule_errors.
Qed.

End values.

(** ** Examples and witnesses *)

Section examples.
#[local] Existing Instances demo_jmes demo_float_repr demo_float_parse demo_iso demo_json demo_limit demo_fast_path.

Definition demo_required : pyval :=
  PDict [("target", PStr "user"); ("source", PStr "login"); ("required", PBool true);
         ("value_map", PDict [("root", PStr "admin")])].

Lemma required_never_null_witness :
  exists r, compile_single_rule v2_flags demo_required = Ok r /\ cr_required r = true /\
    rule_outcome (PDict [("login", PStr "ROOT")]) (PDict []) None (Scalar r) = Ok (Some (PStr "admin")) /\
    PStr "admin" <> PNone.
Proof.
  eexists. split; [reflexivity|]. split; [reflexivity|]. split; [vm_compute; reflexivity|].
  eapply (required_never_null v2_flags demo_required _ (PDict [("login", PStr "ROOT")]) (PDict []) None);
    [reflexivity | reflexivity | | vm_compute; reflexivity].
  intros m Hm. injection Hm as <-. cbn. split; [|discriminate].
  intros Hin. apply list_elem_of_singleton in Hin. discriminate.
Defined.

Lemma default_is_final_witness :
  exists r, compile_single_rule v2_flags
      (PDict [("target", PStr "status_id"); ("source", PStr "status"); ("pre_cast", PStr "lowercase"); ("default", PInt 1)]) = Ok r /\
    cr_pre_cast r = Some "lowercase" /\
    finish_value r None PNone = Ok (Finished (PInt 1) true false).
Proof.
  eexists. split; [reflexivity|]. split; [reflexivity|].
  etrans; [apply (default_is_final _ None (PInt 1)); [reflexivity | discriminate] | reflexivity].
Defined.

Definition demo_small : pyval := PList [PDict [("target", PStr "user"); ("source", PStr "login")]].
Definition demo_small_rules : compiled_rules :=
  match compile_rules demo_small None with Ok c => c | Raise _ => CompiledRules [] [] [] end.
Definition demo_small_event : list (string * pyval) := [("login", PStr "ana")].
Definition demo_small_result : apply_result :=
  match apply_compiled demo_small_rules demo_small_event None with
  | Ok r => r | Raise _ => ApplyResult [] ∅ [] [] None false end.

Lemma consumed_paths_sound_witness :
  let other := demo_small_event ++ [("unmapped", PInt 9)] in
  compile_rules demo_small None = Ok demo_small_rules /\
  exists res', apply_compiled demo_small_rules other None = Ok res' /\
    res_output res' = res_output demo_small_result /\
    res_output demo_small_result = [("user", Placed (PStr "ana"))].
Proof.
  intros other. split; [reflexivity|].
  destruct (consumed_paths_sound demo_small None demo_small_rules demo_small_event other None demo_small_result)
    as (res' & Hr1 & Hr2 & _); [reflexivity | vm_compute; reflexivity | | |
      exists res'; split; [exact Hr1 | split; [exact Hr2 | vm_compute; reflexivity]]].
  - intros op Hop. apply elem_of_nil in Hop as [].
  - intros s r Hs Hr.
    assert (res_consumed demo_small_result = {["source:login"; "user"]}) as Hc by (vm_compute; reflexivity).
    rewrite Hc in Hs. apply elem_of_union in Hs as [Hs|Hs]; apply elem_of_singleton in Hs; [|discriminate].
    apply (inj (String.append "source:") s "login") in Hs as ->. injection Hr as <-. vm_compute. reflexivity.
Defined.

#[local] Instance demo_third_party : ThirdPartyErrors.
Proof.
  split; [done|]. intros s x. unfold json_loads, demo_json. destruct (String.eqb s "[1]"); [done|]. by intros [= <-].
Defined.

Definition demo_required_rules : compiled_rules :=
  match compile_rules (PList [demo_required]) None with Ok c => c | Raise _ => CompiledRules [] [] [] end.

Lemma apply_errors_witness :
  apply_compiled demo_required_rules [] None = Raise (EMappingRequired "user") /\
  (quarantined (EMappingRequired "user") = true \/ leak (EMappingRequired "user") = true).
Proof.
  split; [vm_compute; reflexivity|].
  apply (apply_errors demo_required_rules [] None). vm_compute. reflexivity.
Defined.

(** ** Divergences *)

(** A list where a [value_map] expects a scalar raises [TypeError], which is
    neither an [OperatorError] nor a [MappingError]: the collector's handlers do
    not catch it and the event is not quarantined. *)
Lemma unhashable_value_escapes :
  exists compiled,
    compile_rules (PList [PDict [("target", PStr "severity"); ("source", PStr "sev");
                                 ("value_map", PDict [("3", PStr "high")])]]) None = Ok compiled /\
    apply_compiled compiled [("sev", PList [PInt 3])] None = Raise EType.
Proof. eexists. split; [reflexivity|]. vm_compute. reflexivity. Qed.

(** An epoch of a million billion seconds: the [OSError] of [fromtimestamp] is not
    caught. *)
Lemma huge_epoch_escapes :
  exists compiled,
    compile_rules (PList [PDict [("target", PStr "time"); ("source", PStr "t"); ("type_cast", PStr "epoch_to_iso")]]) None = Ok compiled /\
    apply_compiled compiled [("t", PInt (10 ^ 20))] None = Raise EConnection.
Proof. eexists. split; [reflexivity|]. vm_compute. reflexivity. Qed.

(** [required] is checked before [value_map]: a map entry of [null] leaves a
    required field empty although the DSL says the final value is checked. *)
Lemma required_field_mapped_to_null :
  exists r, compile_single_rule v2_flags
      (PDict [("target", PStr "user"); ("source", PStr "login"); ("required", PBool true);
              ("value_map", PDict [("root", PNone)])]) = Ok r /\
    rule_outcome (PDict [("login", PStr "root")]) (PDict []) None (Scalar r) = Ok (Some PNone).
Proof. eexists. split; [reflexivity|]. vm_compute. reflexivity. Qed.
End examples.
