(* ===== verification/EngineCache.v ===== *)
(** * The cache of compiled mappings

    [MappingEngine] keeps compiled mappings in an LRU cache.  Mapping versions
    are immutable: a version id always comes with the same rules.  Under that
    contract the cache is invisible: every request, in any order and with any
    invalidations between, gives what compiling and applying directly gives. *)

From S2P Require Import Prelude PyVal Predicates Operators Reduction ArrayBuilder Engine EngineProps.

Local Open Scope string_scope.
Local Open Scope list_scope.
Local Open Scope Z_scope.

#[local] Arguments compile_rules : simpl never.

Section cache.
Context `{JmesPath} `{FastPath} `{FloatRepr} `{FloatParse} `{IsoParse} `{JsonLoads} `{JsonLimit}.

(** The rules stored for each mapping version. *)
Context (table : string -> pyval).
Context (max_cache : Z).

Inductive request :=
| RApply (mapping_version_id : string) (dsl_version : Z) (raw : list (string * pyval)) (ingest : option Z)
| RInvalidate (mapping_version_id : string).

(** A worker serving requests from a cache; the results of the [apply] calls. *)
Fixpoint serve (c : cache) (rs : list request) : list (result apply_result) * cache :=
  match rs with
  | [] => ([], c)
  | RApply id v raw t :: rs' =>
      let '(r, c') := engine_apply max_cache id (table id) raw v t c in
      let '(out, c'') := serve c' rs' in (r :: out, c'')
  | RInvalidate id :: rs' => serve (invalidate id c) rs'
  end.

(** The specification: no cache. *)
Definition direct (r : request) : option (result apply_result) :=
  match r with
  | RApply id v raw t => Some (compiled ← compile_rules (table id) (Some v); apply_compiled compiled raw t)
  | RInvalidate _ => None
  end.

(** Every entry is what its key compiles to, and the bound holds. *)
Definition cache_ok (c : cache) : Prop :=
  Forall (fun kv => compile_rules (table kv.1.1) (Some kv.1.2) = Ok kv.2) c /\
  Z.of_nat (length c) <= max_cache.

Lemma cache_get_elem k c compiled : cache_get k c = Some compiled -> (k, compiled) ∈ c.
Proof.
  induction c as [|[k' x] c IH]; cbn; [done|]. case_decide; [intros [= ->]; subst; left | intros; right; auto].
Qed.

Lemma cache_pop_shorter k c compiled : cache_get k c = Some compiled -> (length (cache_pop k c) < length c)%nat.
Proof.
  intros Hg%cache_get_elem. unfold cache_pop. eapply length_filter_lt; [exact Hg|]. cbn. tauto.
Qed.

Lemma get_compiled_ok id v c :
  1 <= max_cache -> cache_ok c ->
  match compile_rules (table id) (Some v) with
  | Ok compiled => exists c', get_compiled max_cache id (table id) v c = Ok (compiled, c') /\ cache_ok c'
  | Raise e => get_compiled max_cache id (table id) v c = Raise e
  end.
Proof.
  intros Hmax [Hc Hlen]. unfold get_compiled. destruct (cache_get (id, v) c) as [cached|] eqn:Hg.
  - pose proof (cache_get_elem _ _ _ Hg) as Hin. pose proof (cache_pop_shorter _ _ _ Hg).
    rewrite Forall_forall in Hc. pose proof (Hc _ Hin) as Hk. cbn [fst snd] in Hk. rewrite Hk.
    eexists. split; [reflexivity|]. split.
    + apply Forall_app. split; [apply Forall_filter_sub; by apply Forall_forall | by apply Forall_singleton].
    + rewrite length_app. cbn [length]. lia.
  - destruct (compile_rules (table id) (Some v)) as [compiled|e] eqn:Hcomp; [|done]. cbn.
    destruct (Z.leb_spec max_cache (Z.of_nat (length c))).
    + destruct c as [|x c]; [cbn [length] in *; lia|]. cbn [mbind result_bind]. eexists. split; [reflexivity|]. apply Forall_cons in Hc as [_ Hc].
      split; [by apply Forall_app_2, Forall_singleton|]. rewrite length_app. unfold cache, cache_key in *. cbn [length] in *. lia.
    + cbn. eexists. split; [reflexivity|]. split; [by apply Forall_app_2, Forall_singleton|].
      rewrite length_app. unfold cache, cache_key in *. cbn [length] in *. lia.
Qed.

Lemma invalidate_ok id c : cache_ok c -> cache_ok (invalidate id c).
Proof.
  intros [Hc Hlen]. split; [by apply Forall_filter_sub|].
  unfold invalidate. pose proof (length_filter (fun kv : cache_key * compiled_rules => kv.1.1 <> id) c).
  unfold cache, cache_key in *. lia.
Qed.

(** After [invalidate] no entry of the version is left. *)
Lemma invalidate_get id v c : cache_get (id, v) (invalidate id c) = None.
Proof.
  destruct (cache_get (id, v) (invalidate id c)) as [x|] eqn:E; [|done].
  apply cache_get_elem, list_elem_of_filter in E as [E _]. by destruct E.
Qed.

Lemma serve_ok rs c :
  1 <= max_cache -> cache_ok c -> (serve c rs).1 = omap direct rs /\ cache_ok (serve c rs).2.
Proof.
  intros Hmax. revert c. induction rs as [|[id v raw t|id] rs IH]; intros c Hc; [done|..].
  - cbn. unfold engine_apply. pose proof (get_compiled_ok id v c Hmax Hc) as Hg.
    destruct (compile_rules (table id) (Some v)) as [compiled|e].
    + destruct Hg as (c' & -> & Hc'). destruct (IH c' Hc') as [IH1 IH2].
      destruct (serve c' rs) as [out c'']. cbn [fst snd] in *. split; [|done]. by rewrite <- IH1.
    + rewrite Hg. destruct (IH c Hc) as [IH1 IH2]. destruct (serve c rs) as [out c'']. cbn [fst snd] in *. split; [|done]. by rewrite <- IH1.
  - cbn. by apply IH, invalidate_ok.
Qed.

(** [engine_cache_transparent] (the cache changes nothing but speed).  With
    room for one entry, any sequence of [apply] and [invalidate] calls from the
    empty cache returns, or raises, exactly what compiling and applying each
    mapping directly does, and the cache never holds more than [max_cache]
    compiled mappings. *)
Theorem engine_cache_transparent rs :
  1 <= max_cache ->
  (serve [] rs).1 = omap direct rs /\ Z.of_nat (length (serve [] rs).2) <= max_cache.
Proof.
  intros Hmax. destruct (serve_ok rs [] Hmax) as [H1' [_ H2']]; [|done].
  split; [by apply Forall_nil_2 | cbn; lia].
Qed.

End cache.

Section examples.
#[local] Existing Instances demo_jmes demo_float_repr demo_float_parse demo_iso demo_json demo_limit demo_fast_path.

Definition demo_table (id : string) : pyval :=
  if String.eqb id "v1" then demo_mapping else PList [PDict [("target", PStr "a"); ("const", PInt 1)]].
Definition demo_requests : list request :=
  [RApply "v1" 2 demo_event (Some 1700000000000); RApply "v2" 1 [] None;
   RApply "v1" 2 demo_event (Some 1700000000000); RInvalidate "v1"; RApply "v2" 2 [] None].

Lemma engine_cache_transparent_witness :
  (serve demo_table 1 [] demo_requests).1 = omap (direct demo_table) demo_requests /\
  length (omap (direct demo_table) demo_requests) = 4%nat /\
  Z.of_nat (length (serve demo_table 1 [] demo_requests).2) <= 1.
Proof.
  destruct (engine_cache_transparent demo_table 1 demo_requests) as [H1 H2]; [lia|].
  split; [exact H1|]. split; [vm_compute; reflexivity | exact H2].
Defined.

(** A cache of size 0 cannot serve: evicting from it raises [KeyError]. *)
Lemma empty_cache_raises : (serve demo_table 0 [] [RApply "v2" 1 [] None]).1 = [Raise EKey].
Proof. reflexivity. Qed.
End examples.
