(* ===== verification/Store.v ===== *)
(** * The shared key-value store

    The circuit breaker, the dedupe claims and the in-flight windows keep their
    state in Redis, an external service.  [Redis] is the interface the code uses
    of it: the commands, the clock, and, as laws, the documented effect of each
    command on the live entries ([r_entry]).  The clients are proved against the
    interface; [mem_redis] is an implementation that satisfies it.

    A counter or flag is an integer value with an optional deadline.  A command
    may fail (connection loss); the clients take that as an argument. *)

From S2P Require Import Prelude.

Local Open Scope Z_scope.

(** A live entry: its value and the instant it expires, if it does. *)
Definition entry := (Z * option Z)%type.

Class Redis (S : Type) := {
  r_now : S -> Z;
  r_entry : S -> string -> option entry;
  r_set_ex : string -> Z -> S -> S;             (* SET k 1 EX ttl *)
  r_set_nx_ex : string -> Z -> S -> S * bool;   (* SET k 1 NX EX ttl *)
  r_del : string -> S -> S;                     (* DEL k *)
  r_incr : string -> S -> S * Z;                (* INCR k *)
  r_incrby : string -> Z -> S -> S * Z;         (* INCRBY k n *)
  r_expire : string -> Z -> S -> S;             (* EXPIRE k ttl *)
  r_tick : Z -> S -> S;                         (* time passes *)
}.

(** Is an entry still live at an instant? *)
Definition live (now : Z) (e : entry) : bool :=
  match e.2 with Some deadline => now <? deadline | None => true end.
Definition still_live (now : Z) (e : option entry) : option entry :=
  match e with Some e => if live now e then Some e else None | None => None end.

Class RedisLaws (S : Type) `{Redis S} := {
  r_set_ex_now k ttl s : r_now (r_set_ex k ttl s) = r_now s;
  r_set_ex_entry k ttl s k' : 0 < ttl ->
    r_entry (r_set_ex k ttl s) k' = if String.eqb k' k then Some (1, Some (r_now s + ttl)) else r_entry s k';
  r_set_nx_spec k ttl s :
    r_set_nx_ex k ttl s = match r_entry s k with Some _ => (s, false) | None => (r_set_ex k ttl s, true) end;
  r_del_now k s : r_now (r_del k s) = r_now s;
  r_del_entry k s k' : r_entry (r_del k s) k' = if String.eqb k' k then None else r_entry s k';
  r_incr_now k s : r_now (r_incr k s).1 = r_now s;
  r_incr_value k s : (r_incr k s).2 = default 0 (fst <$> r_entry s k) + 1;
  r_incr_entry k s k' :
    r_entry (r_incr k s).1 k' =
    if String.eqb k' k then Some (default 0 (fst <$> r_entry s k) + 1, r_entry s k ≫= snd) else r_entry s k';
  r_incrby_now k n s : r_now (r_incrby k n s).1 = r_now s;
  r_incrby_entry k n s k' :
    r_entry (r_incrby k n s).1 k' =
    if String.eqb k' k then Some (default 0 (fst <$> r_entry s k) + n, r_entry s k ≫= snd) else r_entry s k';
  r_expire_now k ttl s : r_now (r_expire k ttl s) = r_now s;
  r_expire_entry k ttl s k' : 0 < ttl ->
    r_entry (r_expire k ttl s) k' =
    if String.eqb k' k then (fun e : entry => (e.1, Some (r_now s + ttl))) <$> r_entry s k else r_entry s k';
  r_tick_now d s : r_now (r_tick d s) = r_now s + d;
  r_tick_entry d s k : 0 <= d -> r_entry (r_tick d s) k = still_live (r_now s + d) (r_entry s k);
}.

(** ** An in-memory store *)

Record mem_store := MemStore { mem_now : Z; mem_map : gmap string entry }.

Definition mem_entry (s : mem_store) (k : string) : option entry := still_live (mem_now s) (mem_map s !! k).

Definition mem_put (k : string) (e : entry) (s : mem_store) : mem_store :=
  MemStore (mem_now s) (<[k := e]> (mem_map s)).

#[export] Instance mem_redis : Redis mem_store := {
  r_now := mem_now;
  r_entry := mem_entry;
  r_set_ex k ttl s := mem_put k (1, Some (mem_now s + ttl)) s;
  r_set_nx_ex k ttl s :=
    match mem_entry s k with
    | Some _ => (s, false)
    | None => (mem_put k (1, Some (mem_now s + ttl)) s, true)
    end;
  r_del k s := MemStore (mem_now s) (delete k (mem_map s));
  r_incr k s :=
    let v := default 0 (fst <$> mem_entry s k) + 1 in
    (mem_put k (v, mem_entry s k ≫= snd) s, v);
  r_incrby k n s :=
    let v := default 0 (fst <$> mem_entry s k) + n in
    (mem_put k (v, mem_entry s k ≫= snd) s, v);
  r_expire k ttl s :=
    match mem_entry s k with
    | Some e => mem_put k (e.1, Some (mem_now s + ttl)) s
    | None => s
    end;
  r_tick d s := MemStore (mem_now s + d) (mem_map s);
}.

Definition mem_empty : mem_store := MemStore 0 ∅.

Lemma mem_put_entry k e s k' :
  live (mem_now s) e = true ->
  mem_entry (mem_put k e s) k' = if String.eqb k' k then Some e else mem_entry s k'.
Proof.
  intros Hl. unfold mem_entry, mem_put, still_live. cbn. destruct (String.eqb_spec k' k) as [->|Hne].
  - by rewrite lookup_insert_eq, Hl.
  - by rewrite lookup_insert_ne.
Qed.

Lemma still_live_live now e e' : still_live now e = Some e' -> live now e' = true.
Proof. destruct e; cbn; [|done]. case_match; [by intros [= <-]|done]. Qed.

#[export] Instance mem_redis_laws : RedisLaws mem_store.
Proof.
  split; try done.
  - intros k ttl s k' Ht. cbn. apply mem_put_entry. unfold live. cbn. lia.
  - intros k s k'. cbn. unfold mem_entry. cbn. destruct (String.eqb_spec k' k) as [->|Hne].
    + by rewrite lookup_delete_eq.
    + by rewrite lookup_delete_ne.
  - intros k s k'. cbn. apply mem_put_entry. unfold live. cbn.
    destruct (mem_entry s k) as [[v [dl|]]|] eqn:E; cbn; try done. by apply still_live_live in E.
  - intros k n s k'. cbn. apply mem_put_entry. unfold live. cbn.
    destruct (mem_entry s k) as [[v [dl|]]|] eqn:E; cbn; try done. by apply still_live_live in E.
  - intros k ttl s. cbn. by destruct (mem_entry s k).
  - intros k ttl s k' Ht. cbn. destruct (mem_entry s k) as [e|] eqn:E; cbn.
    + apply mem_put_entry. unfold live. cbn. lia.
    + destruct (String.eqb_spec k' k) as [->|]; done.
  - intros d s k Hd. cbn. unfold mem_entry. cbn. destruct (mem_map s !! k) as [[v [dl|]]|]; cbn; try done.
    unfold live. cbn. destruct (Z.ltb_spec (mem_now s) dl); cbn; unfold live; cbn.
    + done.
    + destruct (Z.ltb_spec (mem_now s + d) dl); [lia|done].
Qed.

(** ** Consequences of the laws *)

Section laws.
Context {S : Type} `{RedisLaws S}.

Lemma r_set_nx_free k ttl s : r_entry s k = None -> r_set_nx_ex k ttl s = (r_set_ex k ttl s, true).
Proof. intros Hk. by rewrite r_set_nx_spec, Hk. Qed.
Lemma r_set_nx_taken k ttl s e : r_entry s k = Some e -> r_set_nx_ex k ttl s = (s, false).
Proof. intros Hk. by rewrite r_set_nx_spec, Hk. Qed.
Lemma r_set_ex_ne k ttl s k' : 0 < ttl -> k' <> k -> r_entry (r_set_ex k ttl s) k' = r_entry s k'.
Proof. intros Ht Hne%String.eqb_neq. by rewrite r_set_ex_entry, Hne. Qed.
Lemma r_set_ex_eq k ttl s : 0 < ttl -> r_entry (r_set_ex k ttl s) k = Some (1, Some (r_now s + ttl)).
Proof. intros Ht. by rewrite r_set_ex_entry, String.eqb_refl. Qed.
Lemma r_set_nx_now k ttl s : r_now (r_set_nx_ex k ttl s).1 = r_now s.
Proof. rewrite r_set_nx_spec. case_match; [done|]. cbn. apply r_set_ex_now. Qed.
Lemma r_set_nx_ne k ttl s k' : 0 < ttl -> k' <> k -> r_entry (r_set_nx_ex k ttl s).1 k' = r_entry s k'.
Proof. intros Ht Hne. rewrite r_set_nx_spec. case_match; [done|]. by apply r_set_ex_ne. Qed.
Lemma r_del_ne k s k' : k' <> k -> r_entry (r_del k s) k' = r_entry s k'.
Proof. intros Hne%String.eqb_neq. by rewrite r_del_entry, Hne. Qed.
Lemma r_del_eq k s : r_entry (r_del k s) k = None.
Proof. by rewrite r_del_entry, String.eqb_refl. Qed.
Lemma r_incr_ne k s k' : k' <> k -> r_entry (r_incr k s).1 k' = r_entry s k'.
Proof. intros Hne%String.eqb_neq. by rewrite r_incr_entry, Hne. Qed.
Lemma r_incrby_ne k n s k' : k' <> k -> r_entry (r_incrby k n s).1 k' = r_entry s k'.
Proof. intros Hne%String.eqb_neq. by rewrite r_incrby_entry, Hne. Qed.
Lemma r_expire_ne k ttl s k' : 0 < ttl -> k' <> k -> r_entry (r_expire k ttl s) k' = r_entry s k'.
Proof. intros Ht Hne%String.eqb_neq. by rewrite r_expire_entry, Hne. Qed.

(** An entry with a deadline ahead survives the passage of time. *)
Lemma r_tick_keep d s k v dl :
  0 <= d -> r_entry s k = Some (v, Some dl) -> r_now s + d < dl -> r_entry (r_tick d s) k = Some (v, Some dl).
Proof.
  intros Hd Hk Hlt. rewrite r_tick_entry, Hk by done. cbn. unfold live. cbn.
  by apply Z.ltb_lt in Hlt as ->.
Qed.
End laws.
