(* ===== verification/Breaker.v ===== *)
(** * The per-destination circuit breaker

    Models [collectors/circuit_breaker.py] over the [Redis] interface: three
    keys per destination, shared by every worker process.  [up1], [up2] say
    whether the first and the second command of an operation reach the server.
    The metrics gauge is left out. *)

From S2P Require Import Prelude PyVal Store.

Local Open Scope string_scope.
Local Open Scope list_scope.
Local Open Scope Z_scope.

Definition DEFAULT_FAILURE_THRESHOLD : Z := 5.
Definition DEFAULT_COOLDOWN_S : Z := 30.
Definition DEFAULT_WINDOW_S : Z := 60.

Definition key_fail (destination_id : string) : string := ("breaker:" +:+ destination_id +:+ ":fail")%string.
Definition key_open (destination_id : string) : string := ("breaker:" +:+ destination_id +:+ ":open")%string.
Definition key_probe (destination_id : string) : string := ("breaker:" +:+ destination_id +:+ ":probe")%string.

Record breaker_config := BreakerConfig {
  failure_threshold : Z;
  cooldown_s : Z;
  window_s : Z;
}.

(** Validation of a breaker blob by the delivery schema (pydantic): [None] when
    it rejects; what it accepts is within the schema's bounds. *)
Class BreakerSchema := breaker_schema : list (string * pyval) -> option breaker_config.
Definition config_in_bounds (c : breaker_config) : Prop :=
  1 <= failure_threshold c <= 1000 /\ 1 <= cooldown_s c <= 3600 /\ 1 <= window_s c <= 86400.
Class BreakerSchemaLaw `{BreakerSchema} :=
  breaker_schema_bounds d c : breaker_schema d = Some c -> config_in_bounds c.

(** [(delivery or {}).get("breaker", {}) or {}], [BreakerConfig] of it or the defaults. *)
Definition breaker_cfg `{BreakerSchema} (delivery : option (list (string * pyval))) : breaker_config :=
  let raw := dict_items (dget "breaker" (default [] delivery)) in
  match breaker_schema raw with
  | Some bc => bc
  | None => BreakerConfig DEFAULT_FAILURE_THRESHOLD DEFAULT_COOLDOWN_S DEFAULT_WINDOW_S
  end.

Lemma breaker_cfg_bounds `{BreakerSchemaLaw} delivery : config_in_bounds (breaker_cfg delivery).
Proof.
  unfold breaker_cfg. destruct (breaker_schema _) eqn:E; [by eapply breaker_schema_bounds|].
  unfold config_in_bounds, DEFAULT_FAILURE_THRESHOLD, DEFAULT_COOLDOWN_S, DEFAULT_WINDOW_S. cbn. lia.
Qed.

Section breaker.
Context {S : Type} `{Redis S}.

Definition is_open (s : S) (destination_id : string) : bool :=
  match r_entry s (key_open destination_id) with Some _ => true | None => false end.

Definition check (up1 up2 : bool) (destination_id : string) (probe_ttl_s : Z) (s : S) : S * result unit :=
  if negb up1 then (s, Ok tt)
  else if negb (is_open s destination_id) then (s, Ok tt)
  else if negb up2 then (s, Ok tt)
  else let '(s', acquired) := r_set_nx_ex (key_probe destination_id) probe_ttl_s s in
       (s', if acquired then Ok tt else Raise (EBreakerOpen destination_id)).

Definition record_success (up : bool) (destination_id : string) (s : S) : S :=
  if up then r_del (key_probe destination_id) (r_del (key_open destination_id) (r_del (key_fail destination_id) s))
  else s.

Definition record_failure (up1 up2 : bool) (destination_id : string) (threshold cooldown window : Z) (s : S) : S :=
  if up1 then
    let '(s', fail_count) := r_incr (key_fail destination_id) s in
    let s' := r_expire (key_fail destination_id) window s' in
    if (threshold <=? fail_count) && up2 then r_set_ex (key_open destination_id) cooldown s' else s'
  else s.

(** The wrappers that take their parameters from the destination's config. *)
Definition check_for_config `{BreakerSchema} (up1 up2 : bool) (destination_id : string)
    (delivery : option (list (string * pyval))) (s : S) : S * result unit :=
  check up1 up2 destination_id (cooldown_s (breaker_cfg delivery)) s.
Definition record_success_for_config (up : bool) (destination_id : string) (s : S) : S :=
  record_success up destination_id s.
Definition record_failure_for_config `{BreakerSchema} (up1 up2 : bool) (destination_id : string)
    (delivery : option (list (string * pyval))) (s : S) : S :=
  let c := breaker_cfg delivery in
  record_failure up1 up2 destination_id (failure_threshold c) (cooldown_s c) (window_s c) s.

(** ** Traces

    What workers and the clock do to the store, for any destination. *)

Inductive action :=
| ACheck (up1 up2 : bool) (destination_id : string)
| ASuccess (up : bool) (destination_id : string)
| AFailure (up1 up2 : bool) (destination_id : string)
| ATick (d : Z).

(** Each destination's configuration. *)
Context (cfg : string -> breaker_config).

(** A step yields the new state and, for a check, its answer with whether the
    breaker was open when it was asked. *)
Definition act (a : action) (s : S) : S * option (bool * result unit) :=
  match a with
  | ACheck up1 up2 d =>
      let '(s', r) := check up1 up2 d (cooldown_s (cfg d)) s in (s', Some (is_open s d, r))
  | ASuccess up d => (record_success up d s, None)
  | AFailure up1 up2 d =>
      (record_failure up1 up2 d (failure_threshold (cfg d)) (cooldown_s (cfg d)) (window_s (cfg d)) s, None)
  | ATick d => (r_tick d s, None)
  end.

Definition about (d : string) (a : action) : bool :=
  match a with
  | ACheck _ _ d' | ASuccess _ d' | AFailure _ _ d' => String.eqb d d'
  | ATick _ => false
  end.
Definition ticks (a : action) : Z := match a with ATick d => d | _ => 0 end.
Definition elapsed (l : list action) : Z := foldr (fun a n => ticks a + n) 0 l.

(** A request that a step lets through while the breaker of [d] is open, whatever
    Redis did. *)
Definition passes (d : string) (a : action) (o : option (bool * result unit)) : nat :=
  match a, o with
  | ACheck _ _ d', Some (true, Ok _) => if String.eqb d d' then 1 else 0
  | _, _ => 0
  end.
Fixpoint let_through (d : string) (l : list action) (s : S) : nat :=
  match l with [] => 0 | a :: l' => let '(s', o) := act a s in (passes d a o + let_through d l' s')%nat end.

(** A check of [d] one of whose commands failed: it fails open. *)
Definition fails_open (d : string) (a : action) : nat :=
  match a with ACheck up1 up2 d' => if String.eqb d d' && negb (up1 && up2) then 1 else 0 | _ => 0 end.
Definition failed_checks (d : string) (l : list action) : nat := sum_list_with (fails_open d) l.

(** The trace never reports a success for [d] and time only advances. *)
Definition no_success (d : string) (l : list action) : Prop :=
  Forall (fun a => match a with ASuccess _ d' => d' <> d | ATick n => 0 <= n | _ => True end) l.

End breaker.

(** ** The keys do not collide *)

Lemma key_inj suffix a b :
  ("breaker:" +:+ a +:+ suffix)%string = ("breaker:" +:+ b +:+ suffix)%string -> a = b.
Proof. intros He%(inj (String.append "breaker:")). by apply str_app_inj_suffix in He as [? _]. Qed.

Lemma key_fail_open a b : key_fail a <> key_open b.
Proof. intros He%(inj (String.append "breaker:")). by apply str_app_inj_suffix in He as [_ ?]. Qed.
Lemma key_fail_probe a b : key_fail a <> key_probe b.
Proof.
  intros He%(inj (String.append "breaker:")).
  rewrite <- (str_app_assoc b ":" "probe" : _ = (b +:+ ":probe")%string) in He.
  by apply str_app_inj_suffix in He as [_ ?].
Qed.
Lemma key_open_probe a b : key_open a <> key_probe b.
Proof.
  intros He%(inj (String.append "breaker:")).
  rewrite <- (str_app_assoc b ":" "probe" : _ = (b +:+ ":probe")%string) in He.
  by apply str_app_inj_suffix in He as [_ ?].
Qed.

(** ** Properties *)

Section props.
Context {S : Type} `{RedisLaws S}.
Context (cfg : string -> breaker_config) (cfg_ok : forall d, config_in_bounds (cfg d)).

Lemma cooldown_pos d : 0 < cooldown_s (cfg d).
Proof. destruct (cfg_ok d) as (_ & ? & _). lia. Qed.
Lemma window_pos d : 0 < window_s (cfg d).
Proof. destruct (cfg_ok d) as (_ & _ & ?). lia. Qed.
#[local] Hint Resolve cooldown_pos window_pos key_fail_open key_fail_probe key_open_probe : core.
#[local] Hint Resolve not_eq_sym : core.

(** The part of the store that concerns one destination. *)
Definition agree (d : string) (s1 s2 : S) : Prop :=
  r_now s1 = r_now s2 /\ r_entry s1 (key_fail d) = r_entry s2 (key_fail d) /\
  r_entry s1 (key_open d) = r_entry s2 (key_open d) /\ r_entry s1 (key_probe d) = r_entry s2 (key_probe d).

#[local] Instance agree_equivalence d : Equivalence (agree d).
Proof. unfold agree. split; [done | by intros ? ? (-> & -> & -> & ->) | by intros ? ? ? (-> & -> & -> & ->)]. Qed.

Definition breaker_key (d k : string) : Prop := k = key_fail d \/ k = key_open d \/ k = key_probe d.

Lemma agree_other d s1 s2 :
  r_now s1 = r_now s2 -> (forall k, breaker_key d k -> r_entry s1 k = r_entry s2 k) -> agree d s1 s2.
Proof. intros Hn Hk. split_and!; [done|..]; apply Hk; unfold breaker_key; auto. Qed.

Lemma breaker_key_ne d d' k k' : d <> d' -> breaker_key d k -> breaker_key d' k' -> k <> k'.
Proof.
  intros Hne [-> | [-> | ->]] [-> | [-> | ->]]; auto; intros He%key_inj; done.
Qed.

(** An operation on one destination does not touch another. *)
Lemma act_frame d a s : about d a = false -> ticks a = 0 -> (forall n, a <> ATick n) -> agree d s (act cfg a s).1.
Proof.
  intros Ha _ Hn. destruct a as [up1 up2 d'|up d'|up1 up2 d'|n]; [..|by destruct (Hn n)]; cbn in Ha |- *;
    apply String.eqb_neq in Ha.
  - unfold check. destruct up1, (is_open s d'), up2; cbn; try done.
    destruct (r_set_nx_ex _ _ s) as [s' b] eqn:E. cbn.
    pose proof (f_equal fst E) as Hs. cbn in Hs. subst s'. apply agree_other; [by rewrite r_set_nx_now|].
    intros k Hk. symmetry. apply r_set_nx_ne; [auto|].
    eapply breaker_key_ne; [exact Ha | exact Hk | unfold breaker_key; auto].
  - unfold record_success. destruct up; [|done]. apply agree_other; [by rewrite !r_del_now|].
    intros k Hk. rewrite !r_del_ne; [done|..];
      (eapply breaker_key_ne; [exact Ha | exact Hk | unfold breaker_key; auto]).
  - unfold record_failure. destruct up1; [|done]. destruct (r_incr _ s) as [s' c] eqn:E.
    pose proof (f_equal fst E) as Hs. cbn in Hs. subst s'.
    assert (agree d s (r_expire (key_fail d') (window_s (cfg d')) (r_incr (key_fail d') s).1)) as He.
    { apply agree_other; [by rewrite r_expire_now, r_incr_now|]. intros k Hk.
      assert (k <> key_fail d') by (eapply breaker_key_ne; [exact Ha | exact Hk | unfold breaker_key; auto]).
      rewrite r_expire_ne, r_incr_ne; auto. }
    cbn. case_match; [|done]. etrans; [exact He|]. apply agree_other; [by rewrite r_set_ex_now|].
    intros k Hk. rewrite r_set_ex_ne; [done|auto|].
    eapply breaker_key_ne; [exact Ha | exact Hk | unfold breaker_key; auto].
Qed.

(** Operations on [d] and the clock act the same on stores that agree on [d]. *)
Lemma act_agree d a s1 s2 :
  (about d a = true \/ exists n, 0 <= n /\ a = ATick n) -> agree d s1 s2 ->
  agree d (act cfg a s1).1 (act cfg a s2).1 /\ (act cfg a s1).2 = (act cfg a s2).2.
Proof.
  intros Ha Hag. pose proof Hag as (Hn & Hf & Ho & Hp). assert (is_open s1 d = is_open s2 d) as Hio by (unfold is_open; by rewrite Ho).
  destruct a as [up1 up2 d'|up d'|up1 up2 d'|n]; cbn in Ha |- *.
  - destruct Ha as [<-%String.eqb_eq|(? & _ & [=])]. unfold check. rewrite Hio.
    destruct up1, (is_open s2 d), up2; cbn; try done.
    rewrite !r_set_nx_spec, Hp. destruct (r_entry s2 (key_probe d)) eqn:E; cbn; [done|].
    split; [|done]. split_and!; [by rewrite !r_set_ex_now | rewrite !r_set_ex_ne; auto.. |].
    rewrite !r_set_ex_eq by auto. by rewrite Hn.
  - destruct Ha as [<-%String.eqb_eq|(? & _ & [=])]. unfold record_success. split; [|done].
    destruct up; [|done]. split_and!; [by rewrite !r_del_now | rewrite !r_del_entry..]; repeat case_match; done.
  - destruct Ha as [<-%String.eqb_eq|(? & _ & [=])]. unfold record_failure. split; [|done].
    destruct up1; [|done]. pose proof (r_incr_value (key_fail d) s1) as Hv1. pose proof (r_incr_value (key_fail d) s2) as Hv2.
    destruct (r_incr (key_fail d) s1) as [s1' c1] eqn:E1, (r_incr (key_fail d) s2) as [s2' c2] eqn:E2. cbn in Hv1, Hv2.
    apply (f_equal fst) in E1, E2. cbn in E1, E2. subst s1' s2'. rewrite Hf in Hv1. rewrite Hv1, Hv2. cbn.
    assert (agree d (r_expire (key_fail d) (window_s (cfg d)) (r_incr (key_fail d) s1).1)
                    (r_expire (key_fail d) (window_s (cfg d)) (r_incr (key_fail d) s2).1)) as He.
    { split_and!; [by rewrite !r_expire_now, !r_incr_now | | rewrite !r_expire_ne, !r_incr_ne; auto..].
      rewrite !r_expire_entry, !String.eqb_refl, !r_incr_now, !r_incr_entry, !String.eqb_refl by auto.
      by rewrite Hf, Hn. }
    case_match; [|done]. destruct He as (En & Ef & Eo & Ep).
    split_and!; [by rewrite !r_set_ex_now | rewrite !r_set_ex_ne; auto | | rewrite !r_set_ex_ne; auto].
    rewrite !r_set_ex_eq by auto. by rewrite En.
  - destruct Ha as [Ha|(m & Hm & [= <-])]; [done|]. split; [|done].
    split_and!; [by rewrite !r_tick_now, Hn | rewrite !r_tick_entry by done; by rewrite Hn, ?Hf, ?Ho, ?Hp..].
Qed.

Fixpoint answers (d : string) (l : list action) (s : S) : list (bool * result unit) :=
  match l with
  | [] => []
  | a :: l' =>
      let '(s', o) := act cfg a s in
      (if about d a then match o with Some r => [r] | None => [] end else []) ++ answers d l' s'
  end.

Definition concerns (d : string) (a : action) : bool :=
  about d a || match a with ATick _ => true | _ => false end.
Definition time_forward (l : list action) : Prop := Forall (fun a => 0 <= ticks a) l.

(** [breaker_isolation] (destinations do not share a breaker).  Whatever the
    workers do, the answers that checks of one destination get are the answers
    they would get if only the operations on that destination had happened at
    the same times. *)
Theorem breaker_isolation d l s :
  time_forward l -> answers d l s = answers d (filter (fun a => concerns d a = true) l) s.
Proof.
  intros Ht. assert (forall s1 s2, agree d s1 s2 ->
    answers d l s1 = answers d (filter (fun a => concerns d a = true) l) s2) as Hgen; [|by apply Hgen].
  clear s. induction Ht as [|a l Ha _ IH]; intros s1 s2 Hag; [done|].
  rewrite filter_cons. destruct (decide (concerns d a = true)) as [Hc|Hc].
  - assert (about d a = true \/ exists n, 0 <= n /\ a = ATick n) as Hca.
    { unfold concerns in Hc. destruct (about d a); [by left|]. destruct a; try done. right. eauto. }
    destruct (act_agree d a s1 s2 Hca Hag) as [Hag' Ho]. cbn [answers].
    destruct (act cfg a s1) as [s1' o1], (act cfg a s2) as [s2' o2]. cbn in *. subst. by rewrite (IH _ _ Hag').
  - apply not_true_is_false in Hc. unfold concerns in Hc. apply orb_false_iff in Hc as [Hna Hnt].
    assert (agree d s1 (act cfg a s1).1) as Hf by (apply act_frame; [done | by destruct a | by destruct a]).
    cbn [answers]. rewrite Hna. destruct (act cfg a s1) as [s1' o1]. cbn in *. apply IH. by rewrite <- Hf.
Qed.

(** ** At most one probe per cooldown *)

Lemma act_now a s : r_now (act cfg a s).1 = r_now s + ticks a.
Proof.
  destruct a as [up1 up2 d'|up d'|up1 up2 d'|n]; cbn; rewrite ?Z.add_0_r; [| | |apply r_tick_now].
  - unfold check. destruct up1, (is_open s d'), up2; cbn; try done.
    pose proof (r_set_nx_now (key_probe d') (cooldown_s (cfg d')) s). by destruct (r_set_nx_ex _ _ s).
  - unfold record_success. destruct up; [by rewrite !r_del_now|done].
  - unfold record_failure. destruct up1; [|done].
    pose proof (r_incr_now (key_fail d') s) as Hi. destruct (r_incr _ s) as [s' c]. cbn in Hi.
    case_match; by rewrite ?r_set_ex_now, r_expire_now.
Qed.

(** Without a success a held probe token stays until its deadline. *)
Lemma act_probe_kept d a s v dl :
  match a with ASuccess _ d' => d' <> d | ATick n => 0 <= n | _ => True end ->
  r_entry s (key_probe d) = Some (v, Some dl) -> r_now s + ticks a < dl ->
  r_entry (act cfg a s).1 (key_probe d) = Some (v, Some dl).
Proof.
  intros Ha He Hlt. destruct a as [up1 up2 d'|up d'|up1 up2 d'|n]; cbn in *.
  - unfold check. destruct up1, (is_open s d'), up2; cbn; try done.
    destruct (decide (d' = d)) as [->|Hne].
    + by rewrite (r_set_nx_taken _ _ _ _ He).
    + assert (key_probe d <> key_probe d') by by intros ?%key_inj.
      pose proof (r_set_nx_ne (key_probe d') (cooldown_s (cfg d')) s (key_probe d) (cooldown_pos d')).
      destruct (r_set_nx_ex _ _ s). cbn in *. rewrite <- He. auto.
  - unfold record_success. destruct up; [|done].
    assert (key_probe d <> key_probe d') by (intros ?%key_inj; done). rewrite !r_del_ne; auto.
  - unfold record_failure. destruct up1; [|done]. destruct (r_incr _ s) as [s' c] eqn:E.
    apply (f_equal fst) in E. cbn in E. subst s'.
    case_match; rewrite ?r_set_ex_ne, r_expire_ne, r_incr_ne; auto.
  - by apply r_tick_keep.
Qed.

Lemma elapsed_cons a l : elapsed (a :: l) = ticks a + elapsed l.
Proof. reflexivity. Qed.
Lemma elapsed_nonneg d l : no_success d l -> 0 <= elapsed l.
Proof. induction 1 as [|a l Ha _ IH]; [done|]. rewrite elapsed_cons. destruct a; cbn [ticks]; lia. Qed.

(** A step lets a request through only by failing open, or by taking the probe. *)
Lemma passes_step d a s s' o : act cfg a s = (s', o) ->
  (passes d a o <= fails_open d a)%nat \/
  (passes d a o = 1%nat /\ fails_open d a = 0%nat /\ r_entry s (key_probe d) = None /\ ticks a = 0 /\
   r_now s' = r_now s /\ r_entry s' (key_probe d) = Some (1, Some (r_now s + cooldown_s (cfg d)))).
Proof.
  destruct a as [up1 up2 d'| | |]; [|by left..]. cbn [act passes fails_open].
  destruct (String.eqb_spec d d') as [<-|].
  2: { destruct (check _ _ _ _ _) as [? []]; intros [= <- <-]; left; destruct (is_open s d'); cbn; lia. }
  unfold check. destruct up1, up2; cbn [andb negb].
  2-4: intros E; left; repeat case_match; simplify_eq; lia.
  destruct (is_open s d) eqn:Ho; cbn [negb]; [|intros [= <- <-]; by left].
  destruct (r_entry s (key_probe d)) as [e|] eqn:Hp.
  - rewrite (r_set_nx_taken _ _ _ _ Hp). intros [= <- <-]. by left.
  - rewrite (r_set_nx_free _ _ _ Hp). intros [= <- <-]. right. rewrite r_set_ex_now. split_and!; try done. by apply r_set_ex_eq.
Qed.

(** While the probe is taken, requests pass only by failing open. *)
Lemma probe_taken d l s v dl :
  no_success d l -> r_entry s (key_probe d) = Some (v, Some dl) -> r_now s + elapsed l < dl ->
  (let_through cfg d l s <= failed_checks d l)%nat.
Proof.
  intros Hl. revert s. induction Hl as [|a l Ha Hl IH]; intros s He Hlt; [done|]. cbn [let_through].
  pose proof (elapsed_nonneg d l Hl). rewrite elapsed_cons in Hlt.
  pose proof (act_probe_kept d a s v dl Ha He ltac:(lia)) as He'.
  pose proof (act_now a s) as Hn. destruct (act cfg a s) as [s' o] eqn:E. cbn in He', Hn.
  specialize (IH s' He' ltac:(lia)). unfold failed_checks in *. cbn [sum_list_with].
  destruct (passes_step d a s s' o E) as [?|(_ & _ & ? & _)]; [lia|congruence].
Qed.

(** C35 [one_probe_per_cooldown] (half-open).  As long as no success is reported
    for a destination, in any stretch of time shorter than its cooldown at most
    one request is let through while its breaker is open besides those whose own
    check met a Redis failure, which all pass, whatever the other workers do,
    failures included. *)
Theorem one_probe_per_cooldown d l s :
  no_success d l -> elapsed l < cooldown_s (cfg d) -> (let_through cfg d l s <= 1 + failed_checks d l)%nat.
Proof.
  intros Hl. revert s. induction Hl as [|a l Ha Hl IH]; intros s Hlt; [cbn; lia|]. cbn [let_through].
  rewrite elapsed_cons in Hlt.
  assert (elapsed l < cooldown_s (cfg d)) as Hlt' by (destruct a; cbn [ticks] in *; lia).
  destruct (act cfg a s) as [s' o] eqn:E. specialize (IH s' Hlt'). unfold failed_checks in *. cbn [sum_list_with].
  destruct (passes_step d a s s' o E) as [?|(-> & -> & _ & _ & Hn & He)]; [lia|].
  pose proof (probe_taken d l s' _ _ Hl He ltac:(lia)) as Hrest. unfold failed_checks in Hrest. lia.
Qed.

(** ** Opening *)

(** [n] failures of [d], each after a pause. *)
Fixpoint failures (d : string) (gaps : list Z) (s : S) : S :=
  match gaps with
  | [] => s
  | g :: gaps' =>
      failures d gaps' (record_failure true true d (failure_threshold (cfg d)) (cooldown_s (cfg d))
                          (window_s (cfg d)) (r_tick g s))
  end.

Lemma record_failure_spec d n s dl :
  r_entry s (key_fail d) = (if n =? 0 then None else Some (n, Some dl)) -> 0 <= n ->
  let s' := record_failure true true d (failure_threshold (cfg d)) (cooldown_s (cfg d)) (window_s (cfg d)) s in
  r_now s' = r_now s /\
  r_entry s' (key_fail d) = Some (n + 1, Some (r_now s + window_s (cfg d))) /\
  r_entry s' (key_open d) =
    if failure_threshold (cfg d) <=? n + 1 then Some (1, Some (r_now s + cooldown_s (cfg d)))
    else r_entry s (key_open d).
Proof.
  intros He Hn. unfold record_failure. pose proof (r_incr_value (key_fail d) s) as Hv.
  destruct (r_incr _ s) as [s1 c] eqn:E. apply (f_equal fst) in E. cbn in E, Hv. subst s1.
  assert (c = n + 1) as -> by (rewrite Hv, He; destruct (Z.eqb_spec n 0); cbn; lia).
  assert (r_entry (r_expire (key_fail d) (window_s (cfg d)) (r_incr (key_fail d) s).1) (key_fail d)
          = Some (n + 1, Some (r_now s + window_s (cfg d)))) as Hf.
  { rewrite r_expire_entry, String.eqb_refl, r_incr_entry, String.eqb_refl, r_incr_now by auto. cbn.
    rewrite He. destruct (Z.eqb_spec n 0); cbn; do 2 f_equal; lia. }
  cbn. rewrite andb_true_r. destruct (_ <=? _).
  - split_and!; [by rewrite r_set_ex_now, r_expire_now, r_incr_now | by rewrite r_set_ex_ne by auto |].
    by rewrite r_set_ex_eq, r_expire_now, r_incr_now by auto.
  - split_and!; [by rewrite r_expire_now, r_incr_now | done | by rewrite r_expire_ne, r_incr_ne by auto].
Qed.

Lemma failures_count d gaps n s dl :
  Forall (fun g => 0 <= g < window_s (cfg d)) gaps -> 0 <= n ->
  r_entry s (key_fail d) = (if n =? 0 then None else Some (n, Some dl)) ->
  (n = 0 \/ r_now s + window_s (cfg d) <= dl) ->
  (n < failure_threshold (cfg d) -> r_entry s (key_open d) = None) ->
  (failure_threshold (cfg d) <= n -> r_entry s (key_open d) = Some (1, Some (r_now s + cooldown_s (cfg d)))) ->
  let s' := failures d gaps s in
  let m := n + Z.of_nat (length gaps) in
  (m < failure_threshold (cfg d) -> is_open s' d = false) /\
  (failure_threshold (cfg d) <= m -> r_entry s' (key_open d) = Some (1, Some (r_now s' + cooldown_s (cfg d)))).
Proof.
  intros Hg. revert n s dl. induction Hg as [|g gaps Hg _ IH]; intros n s dl Hn He Hdl Hc Ho; cbn [failures length].
  - cbn. rewrite Z.add_0_r. unfold is_open. split; [intros Hlt; by rewrite Hc | done].
  - set (s1 := r_tick g s).
    assert (r_entry s1 (key_fail d) = (if n =? 0 then None else Some (n, Some dl))) as He1.
    { unfold s1. destruct (Z.eqb_spec n 0) as [->|Hne].
      - by rewrite r_tick_entry, He by lia.
      - apply r_tick_keep; [lia | done | lia]. }
    destruct (record_failure_spec d n s1 dl He1 Hn) as (Hnow & Hf & Hop).
    set (s2 := record_failure _ _ _ _ _ _ s1) in *.
    specialize (IH (n + 1) s2 (r_now s1 + window_s (cfg d))).
    replace (n + Z.of_nat (Datatypes.S (length gaps))) with (n + 1 + Z.of_nat (length gaps)) by lia. apply IH.
    + lia.
    + rewrite Hf. destruct (Z.eqb_spec (n + 1) 0); [lia|done].
    + right. lia.
    + intros Hlt. rewrite Hop. destruct (Z.leb_spec (failure_threshold (cfg d)) (n + 1)); [lia|].
      unfold s1. by rewrite r_tick_entry, Hc by lia.
    + intros Hle. rewrite Hop, Hnow. destruct (Z.leb_spec (failure_threshold (cfg d)) (n + 1)); [done|lia].
Qed.

(** [opens_at_threshold].  Starting from a clean destination, failures less
    than a window apart leave the breaker closed while there are fewer than
    [failure_threshold] of them, and from the threshold on it is open for
    [cooldown_s] after the last one: consecutive failures are neither lost nor
    counted twice. *)
Theorem opens_at_threshold d gaps s :
  (forall k, breaker_key d k -> r_entry s k = None) ->
  Forall (fun g => 0 <= g < window_s (cfg d)) gaps ->
  let s' := failures d gaps s in
  (Z.of_nat (length gaps) < failure_threshold (cfg d) -> is_open s' d = false) /\
  (failure_threshold (cfg d) <= Z.of_nat (length gaps) ->
     r_entry s' (key_open d) = Some (1, Some (r_now s' + cooldown_s (cfg d)))).
Proof.
  intros Hclean Hg. destruct (cfg_ok d) as (Ht & _).
  apply (failures_count d gaps 0 s 0 Hg); [lia| | by left | | lia].
  - apply Hclean. by left.
  - intros _. apply Hclean. right. by left.
Qed.

(** ** Recovery *)

(** The open flag never outlives [cooldown_s] from now. *)
Definition open_bounded (d : string) (s : S) : Prop :=
  forall e, r_entry s (key_open d) = Some e -> exists dl, e.2 = Some dl /\ dl <= r_now s + cooldown_s (cfg d).

Definition fails (d : string) (a : action) : bool :=
  match a with AFailure _ _ d' => String.eqb d d' | _ => false end.

(** Without a failure of [d] the open flag is kept or removed, never renewed. *)
Lemma act_open_entry d a s :
  0 <= ticks a -> fails d a = false ->
  r_entry (act cfg a s).1 (key_open d) = None \/
  r_entry (act cfg a s).1 (key_open d) = still_live (r_now s + ticks a) (r_entry s (key_open d)) \/
  r_entry (act cfg a s).1 (key_open d) = r_entry s (key_open d) /\ ticks a = 0.
Proof.
  intros Ht Hf. destruct (about d a) eqn:Ha.
  - destruct a as [up1 up2 d'|up d'|up1 up2 d'|n]; cbn in Ha, Hf |- *; try congruence;
      apply String.eqb_eq in Ha as <-.
    + right. right. split; [|done]. unfold check. destruct up1, (is_open s d), up2; cbn; try done.
      pose proof (r_set_nx_ne (key_probe d) (cooldown_s (cfg d)) s (key_open d)) as Hne.
      destruct (r_set_nx_ex _ _ s). cbn in *. auto.
    + unfold record_success. destruct up; [|by right; right]. left.
      rewrite r_del_ne, r_del_eq; auto.
  - destruct a as [up1 up2 d'|up d'|up1 up2 d'|n].
    4: { right. left. cbn in *. by apply r_tick_entry. }
    all: right; right; split; [|done];
      match goal with |- r_entry (act _ ?b _).1 _ = _ =>
        destruct (act_frame d b s Ha eq_refl ltac:(discriminate)) as (_ & _ & Ho & _) end; by rewrite Ho.
Qed.

Lemma act_open_bounded d a s : 0 <= ticks a -> open_bounded d s -> open_bounded d (act cfg a s).1.
Proof.
  intros Ht Hb. destruct (fails d a) eqn:Hf.
  - destruct a as [| |up1 up2 d'|]; try done. apply String.eqb_eq in Hf as <-. cbn. unfold record_failure.
    destruct up1; [|done]. pose proof (r_incr_now (key_fail d) s) as Hn.
    pose proof (r_incr_ne (key_fail d) s (key_open d)) as Hi. destruct (r_incr _ s) as [s1 c]. cbn in Hn, Hi.
    case_match; intros e.
    + rewrite r_set_ex_eq, r_set_ex_now by auto. intros [= <-]. eexists. split; [reflexivity|lia].
    + rewrite r_expire_ne, Hi, r_expire_now, Hn by auto. apply Hb.
  - intros e He. rewrite act_now. destruct (act_open_entry d a s Ht Hf) as [Hx|[Hx|[Hx Hz]]]; rewrite Hx in He; [done|..].
    + destruct (r_entry s (key_open d)) as [e'|] eqn:E; [|done]. cbn in He. case_match; [|done]. injection He as <-.
      destruct (Hb _ E) as (dl & ? & ?). exists dl. split; [done|lia].
    + destruct (Hb _ He) as (dl & ? & ?). exists dl. split; [done|lia].
Qed.

Fixpoint runs (l : list action) (s : S) : S :=
  match l with [] => s | a :: l' => runs l' (act cfg a s).1 end.

Lemma runs_open_bounded d l s : time_forward l -> open_bounded d s -> open_bounded d (runs l s).
Proof. intros Hl. revert s. induction Hl as [|a l Ha _ IH]; intros s Hs; [done|]. by apply IH, act_open_bounded. Qed.

Lemma runs_closes d l s dl :
  time_forward l -> Forall (fun a => fails d a = false) l ->
  (forall e, r_entry s (key_open d) = Some e -> e.2 = Some dl) -> dl <= r_now s + elapsed l ->
  (elapsed l = 0 -> r_entry s (key_open d) = None) ->
  is_open (runs l s) d = false.
Proof.
  intros Hl. revert s. induction Hl as [|a l Ha Hl IH]; intros s Hf He Hdl Hz; cbn [runs].
  - unfold is_open. by rewrite Hz.
  - apply Forall_cons in Hf as [Hfa Hf]. rewrite elapsed_cons in *.
    destruct (act_open_entry d a s Ha Hfa) as [Hx|[Hx|[Hx Ht]]].
    + apply IH; [done | by rewrite Hx | rewrite act_now; lia | by rewrite Hx].
    + apply IH; [done| |rewrite act_now; lia|].
      * intros e. rewrite Hx. destruct (r_entry s (key_open d)) as [e'|] eqn:E; [|done]. cbn.
        case_match; [intros [= <-]; by apply He|done].
      * intros Hz'. rewrite Hx. destruct (r_entry s (key_open d)) as [e'|] eqn:E; [|done]. cbn.
        specialize (He _ eq_refl). unfold live. rewrite He. destruct (Z.ltb_spec (r_now s + ticks a) dl); [lia|done].
    + apply IH; [done | by rewrite Hx | rewrite act_now; lia | rewrite Hx; intros; apply Hz; lia].
Qed.

(** [breaker_recovers] (no destination is blocked for ever).  Whatever
    happened before, once [cooldown_s] has passed without a new failure of the
    destination, its breaker is closed, even if no probe ever ran or reported. *)
Theorem breaker_recovers d before after s :
  (forall k, breaker_key d k -> r_entry s k = None) ->
  time_forward before -> time_forward after ->
  Forall (fun a => fails d a = false) after -> cooldown_s (cfg d) <= elapsed after ->
  is_open (runs after (runs before s)) d = false.
Proof.
  intros Hclean Hb Ha Hf Hel. set (s1 := runs before s).
  assert (open_bounded d s1) as Hs1.
  { apply runs_open_bounded; [done|]. intros e. rewrite Hclean by (right; by left). done. }
  destruct (r_entry s1 (key_open d)) as [e|] eqn:E.
  - destruct (Hs1 _ E) as (dl & Hdl & Hle). apply (runs_closes d after s1 dl); [done|done| |lia|].
    + intros e'. rewrite E. by intros [= <-].
    + pose proof (cooldown_pos d). lia.
  - apply (runs_closes d after s1 (r_now s1)); [done|done| | |done].
    + intros e'. by rewrite E.
    + pose proof (cooldown_pos d). lia.
Qed.

End props.

(** ** Witnesses, on the in-memory store *)

Section examples.

Definition demo_cfg (d : string) : breaker_config := BreakerConfig 2 30 60.
Lemma demo_cfg_ok d : config_in_bounds (demo_cfg d).
Proof. unfold config_in_bounds. cbn. lia. Qed.

Definition demo_trace : list action :=
  [AFailure true true "a"; ATick 3; AFailure true true "b"; AFailure true true "a"; ACheck true true "a";
   ATick 5; ACheck true true "a"; ACheck true true "b"].

Lemma demo_clean d k : breaker_key d k -> r_entry mem_empty k = None.
Proof. reflexivity. Qed.

Lemma breaker_isolation_witness :
  time_forward demo_trace /\
  answers demo_cfg "a" demo_trace mem_empty = [(true, Ok tt); (true, Raise (EBreakerOpen "a"))] /\
  answers demo_cfg "a" demo_trace mem_empty =
  answers demo_cfg "a" (filter (fun a => concerns "a" a = true) demo_trace) mem_empty.
Proof.
  assert (time_forward demo_trace) as Ht by (repeat (apply Forall_cons_2 || apply Forall_nil_2); cbn; lia).
  split; [exact Ht|]. split; [vm_compute; reflexivity|].
  exact (breaker_isolation demo_cfg demo_cfg_ok "a" demo_trace mem_empty Ht).
Defined.

(** The trace, with a check whose second command fails. *)
Definition demo_open_trace : list action := demo_trace ++ [ACheck true false "a"].
Lemma one_probe_per_cooldown_witness :
  elapsed demo_open_trace = 8 /\ let_through demo_cfg "a" demo_open_trace mem_empty = 2%nat /\
  (let_through demo_cfg "a" demo_open_trace mem_empty <= 1 + failed_checks "a" demo_open_trace)%nat.
Proof.
  split; [reflexivity|]. split; [vm_compute; reflexivity|].
  apply (one_probe_per_cooldown demo_cfg demo_cfg_ok); [|cbn; lia].
  repeat (apply Forall_cons_2 || apply Forall_nil_2); cbn; done || lia.
Defined.

Lemma opens_at_threshold_witness :
  let s' := failures demo_cfg "a" [0; 59] mem_empty in
  r_entry s' (key_open "a") = Some (1, Some (r_now s' + 30)) /\
  is_open (failures demo_cfg "a" [0] mem_empty) "a" = false.
Proof.
  split.
  - apply (opens_at_threshold demo_cfg demo_cfg_ok "a" [0; 59] mem_empty (demo_clean "a")); [|cbn; lia].
    repeat (apply Forall_cons_2 || apply Forall_nil_2); cbn; lia.
  - apply (opens_at_threshold demo_cfg demo_cfg_ok "a" [0] mem_empty (demo_clean "a")); [|cbn; lia].
    repeat (apply Forall_cons_2 || apply Forall_nil_2); cbn; lia.
Defined.

Lemma breaker_recovers_witness :
  is_open (runs demo_cfg demo_trace mem_empty) "a" = true /\
  is_open (runs demo_cfg [ACheck true true "a"; ATick 30] (runs demo_cfg demo_trace mem_empty)) "a" = false.
Proof.
  split; [vm_compute; reflexivity|].
  apply (breaker_recovers demo_cfg demo_cfg_ok "a" demo_trace [ACheck true true "a"; ATick 30] mem_empty (demo_clean "a"));
    [repeat (apply Forall_cons_2 || apply Forall_nil_2); cbn; done || lia..|cbn; lia].
Defined.

(** ** Divergences *)

(** [record_failure]'s documentation says the window is fixed from the first
    failure; the unconditional [EXPIRE] makes every failure restart it, so two
    failures 59 seconds apart, then two more, keep counting. *)
Lemma failure_window_slides :
  let fail s := record_failure true true "a" 4 30 60 s in
  is_open (fail (r_tick 59 (fail (r_tick 59 (fail (r_tick 59 (fail mem_empty))))))) "a" = true.
Proof. vm_compute. reflexivity. Qed.

(** The probe is granted at once: the first request after the breaker opened is
    let through without waiting for any part of the cooldown. *)
Lemma first_check_after_opening_passes :
  let s := failures demo_cfg "a" [0; 0] mem_empty in
  is_open s "a" = true /\ (check true true "a" 30 s).2 = Ok tt.
Proof. vm_compute. split; reflexivity. Qed.
End examples.
