(* ===== verification/Dedupe.v ===== *)
(** * Idempotence and suppression

    Models [collectors/state/dedupe.py]: the claim of a message id in Redis, its
    release, the TTL bounds, the message id itself, and the per-signature
    suppression counter.  [json.dumps] and SHA-256 are parameters. *)

From S2P Require Import Prelude PyVal Store Operators Redaction.

Local Open Scope string_scope.
Local Open Scope list_scope.
Local Open Scope Z_scope.

Definition DEFAULT_TTL_DAYS : Z := 1.
Definition DEFAULT_TTL_SECONDS : Z := DEFAULT_TTL_DAYS * 86400.
Definition MIN_TTL_SECONDS : Z := 4 * 3600.
Definition MAX_TTL_SECONDS : Z := 31 * 86400.

(** [int(v)]. *)
Definition py_int (v : pyval) : result Z :=
  match v with
  | PInt z => Ok z
  | PBool b => Ok (if b then 1 else 0)
  | PFloat f => float_trunc f
  | PStr s => match py_int_of_str s with Some z => Ok z | None => Raise EValue end
  | _ => Raise EType
  end.

Definition clamp_ttl_seconds (seconds : pyval) : result Z :=
  value ← try_except (z ← py_int seconds; Ok (Some z))
            (fun e => match e with EType | EValue => true | _ => false end) (fun _ => Ok None);
  match value with
  | None => Ok DEFAULT_TTL_SECONDS
  | Some v => if v <=? 0 then Ok DEFAULT_TTL_SECONDS
              else Ok (Z.max MIN_TTL_SECONDS (Z.min v MAX_TTL_SECONDS))
  end.

(** The same on an integer, which cannot fail. *)
Definition clamp_int (v : Z) : Z :=
  if v <=? 0 then DEFAULT_TTL_SECONDS else Z.max MIN_TTL_SECONDS (Z.min v MAX_TTL_SECONDS).

Definition dedupe_key (integration_id : Z) (message_id : string) : string :=
  ("dedupe:" +:+ str_of_Z integration_id +:+ ":" +:+ message_id)%string.

(** ** The message id *)

(** [json.dumps(fields, sort_keys=True, default=str, separators=(",", ":"))]. *)
Class JsonDumps := json_dumps : list (string * pyval) -> string.

Definition ID_CANDIDATES : list string := ["id"; "alertId"; "eventId"; "uuid"; "incidentId"].

Section message_id.
Context `{FloatRepr} `{Sha256} `{JsonDumps}.

(** [value not in (None, "")]. *)
Definition usable_id (v : pyval) : bool := negb (py_eq v PNone) && negb (py_eq v (PStr "")).

Fixpoint first_id (candidates : list string) (event : list (string * pyval)) : option string :=
  match candidates with
  | [] => None
  | c :: cs => if usable_id (dget c event) then Some (py_str (dget c event)) else first_id cs event
  end.

(** The dict comprehension of the fallback. *)
Definition id_fields (event : list (string * pyval)) (fields : list string) : list (string * pyval) :=
  foldl (fun d k => dict_set k (dget k event) d) [] fields.

Definition compute_message_id (event : list (string * pyval)) (fallback_fields : list string) : string :=
  match first_id ID_CANDIDATES event with
  | Some s => s
  | None =>
      let fields := match fallback_fields with [] => sorted_strs (dict_keys event) | _ => fallback_fields end in
      sha256_hex (json_dumps (id_fields event fields))
  end.
End message_id.

(** ** Claims *)

Section claims.
Context {S : Type} `{Redis S}.

Definition claim (integration_id : Z) (message_id : string) (ttl_days ttl_seconds : option Z) (s : S) : S * bool :=
  let seconds := match ttl_seconds with
                 | Some t => t
                 | None => match ttl_days with Some d => d * 86400 | None => DEFAULT_TTL_SECONDS end
                 end in
  r_set_nx_ex (dedupe_key integration_id message_id) (clamp_int seconds) s.

Definition release (integration_id : Z) (message_id : string) (s : S) : S :=
  r_del (dedupe_key integration_id message_id) s.

Definition release_many (integration_id : Z) (message_ids : list string) (s : S) : S * Z :=
  let ids := filter (fun m => String.eqb m "" = false) message_ids in
  (foldl (fun s m => r_del (dedupe_key integration_id m) s) s ids, Z.of_nat (length ids)).

(** ** Suppression *)

Definition suppress_redis_key (route_id signature : string) : string :=
  ("cops:suppress:" +:+ route_id +:+ ":" +:+ signature)%string.

(** [up1], [up2]: whether [INCR] and [EXPIRE] reach the server; an error
    propagates to the caller, which delivers the event. *)
Definition claim_suppress (up1 up2 : bool) (route_id signature : string) (allow window_s : Z) (s : S)
  : S * result (bool * Z) :=
  if allow <=? 0 then (s, Ok (true, 0))
  else
    let key := suppress_redis_key route_id signature in
    if negb up1 then (s, Raise EOther)
    else
      let '(s', count) := r_incr key s in
      if count =? 1 then
        if up2 then (r_expire key (Z.max window_s 1) s', Ok (count <=? allow, count))
        else (s', Raise EOther)
      else (s', Ok (count <=? allow, count)).
End claims.

Section signature.
Context `{FloatRepr} `{Sha256}.

Definition suppress_parts (labels : list (string * pyval)) (suppress_key : string) : list string :=
  (fun k => py_str (default (PStr "") (dict_get (str_strip k) labels))) <$>
  filter (fun k => str_blank k = false) (str_split "," suppress_key).

Definition suppress_signature (labels : list (string * pyval)) (suppress_key : string) : option string :=
  let parts := suppress_parts labels suppress_key in
  if forallb (fun p => String.eqb p "") parts then None
  else Some (str_take 16 (sha256_hex (String.concat "|" parts))).
End signature.

(** ** Bounds *)

Lemma clamp_int_bounds v : MIN_TTL_SECONDS <= clamp_int v <= MAX_TTL_SECONDS.
Proof.
  unfold clamp_int, DEFAULT_TTL_SECONDS, DEFAULT_TTL_DAYS, MIN_TTL_SECONDS, MAX_TTL_SECONDS.
  destruct (v <=? 0); lia.
Qed.

(** [clamp_ttl_bounds].  Whatever the configured value is, text, number or
    junk, the TTL that [clamp_ttl_seconds] returns lies between the floor that
    covers broker redelivery and the ceiling, and a value already in that range
    is kept; on integers it is the clamp that [claim] applies. *)
Theorem clamp_ttl_bounds v t :
  clamp_ttl_seconds v = Ok t ->
  MIN_TTL_SECONDS <= t <= MAX_TTL_SECONDS /\
  forall z, py_int v = Ok z -> t = clamp_int z /\ (MIN_TTL_SECONDS <= z <= MAX_TTL_SECONDS -> t = z).
Proof.
  unfold clamp_ttl_seconds. destruct (py_int v) as [z|e]; cbn.
  - intros Ht. assert (t = clamp_int z) as -> by (unfold clamp_int; destruct (z <=? 0); congruence).
    split; [apply clamp_int_bounds|]. intros z' [= <-]. split; [done|]. unfold clamp_int, MIN_TTL_SECONDS.
    destruct (Z.leb_spec z 0); lia.
  - destruct e; cbn; try done; intros [= <-]; (split; [|done]);
      unfold DEFAULT_TTL_SECONDS, DEFAULT_TTL_DAYS, MIN_TTL_SECONDS, MAX_TTL_SECONDS; lia.
Qed.

(** ** Keys *)

Lemma dedupe_key_inj i1 m1 i2 m2 : dedupe_key i1 m1 = dedupe_key i2 m2 -> i1 = i2 /\ m1 = m2.
Proof.
  intros He%(inj (String.append "dedupe:")).
  apply split_at_sep in He as [He ->]; [|apply str_of_Z_no_sep..]. by apply str_of_Z_inj in He.
Qed.

Lemma dedupe_key_not_suppress i m r sg : dedupe_key i m <> suppress_redis_key r sg.
Proof. done. Qed.

(** ** What the workers do to the store *)

Inductive dedupe_op :=
| DClaim (integration_id : Z) (message_id : string) (ttl_days ttl_seconds : option Z)
| DRelease (integration_id : Z) (message_id : string)
| DReleaseMany (integration_id : Z) (message_ids : list string)
| DSuppress (up1 up2 : bool) (route_id signature : string) (allow window_s : Z)
| DTick (d : Z).

Section traces.
Context {S : Type} `{Redis S}.

(** A step yields the new state and, for a claim, its answer. *)
Definition dedupe_step (o : dedupe_op) (s : S) : S * option bool :=
  match o with
  | DClaim i m td ts => let '(s', b) := claim i m td ts s in (s', Some b)
  | DRelease i m => (release i m s, None)
  | DReleaseMany i ms => ((release_many i ms s).1, None)
  | DSuppress up1 up2 r sg allow w => ((claim_suppress up1 up2 r sg allow w s).1, None)
  | DTick d => (r_tick d s, None)
  end.

Fixpoint dedupe_run (l : list dedupe_op) (s : S) : S * list bool :=
  match l with
  | [] => (s, [])
  | o :: l' =>
      let '(s1, a) := dedupe_step o s in
      let '(s2, r) := dedupe_run l' s1 in
      (s2, match a with Some b => b :: r | None => r end)
  end.
End traces.

(** ** The specification

    The claims held, by integration and message, each until an instant. *)

Record claims := Claims { c_now : Z; c_until : gmap (Z * string) Z }.

Definition c_held (c : claims) (im : Z * string) : option Z :=
  match c_until c !! im with Some dl => if c_now c <? dl then Some dl else None | None => None end.

Definition ttl_of (ttl_days ttl_seconds : option Z) : Z :=
  clamp_int (match ttl_seconds with
             | Some t => t
             | None => match ttl_days with Some d => d * 86400 | None => DEFAULT_TTL_SECONDS end
             end).

Definition c_step (o : dedupe_op) (c : claims) : claims * option bool :=
  match o with
  | DClaim i m td ts =>
      match c_held c (i, m) with
      | Some _ => (c, Some false)
      | None => (Claims (c_now c) (<[(i, m) := c_now c + ttl_of td ts]> (c_until c)), Some true)
      end
  | DRelease i m => (Claims (c_now c) (delete (i, m) (c_until c)), None)
  | DReleaseMany i ms =>
      (Claims (c_now c) (foldl (fun u m => delete (i, m) u) (c_until c) (filter (fun m => String.eqb m "" = false) ms)), None)
  | DSuppress _ _ _ _ _ _ => (c, None)
  | DTick d => (Claims (c_now c + d) (c_until c), None)
  end.

Fixpoint c_run (l : list dedupe_op) (c : claims) : claims * list bool :=
  match l with
  | [] => (c, [])
  | o :: l' =>
      let '(c1, a) := c_step o c in
      let '(c2, r) := c_run l' c1 in
      (c2, match a with Some b => b :: r | None => r end)
  end.

Definition op_time (o : dedupe_op) : Z := match o with DTick d => d | _ => 0 end.
Definition ops_time (l : list dedupe_op) : Z := foldr (fun o n => op_time o + n) 0 l.

(** ** Refinement *)

Section refinement.
Context {S : Type} `{RedisLaws S}.

Definition represents (s : S) (c : claims) : Prop :=
  r_now s = c_now c /\
  forall i m, r_entry s (dedupe_key i m) = (fun dl => (1, Some dl)) <$> c_held c (i, m).

Lemma ttl_of_pos td ts : 0 < ttl_of td ts.
Proof. unfold ttl_of. pose proof (clamp_int_bounds (match ts with Some t => t | None => match td with Some d => d * 86400 | None => DEFAULT_TTL_SECONDS end end)). unfold MIN_TTL_SECONDS in *. lia. Qed.

Lemma key_eqb_key i m i' m' : String.eqb (dedupe_key i m) (dedupe_key i' m') = bool_decide ((i, m) = (i', m')).
Proof.
  destruct (String.eqb_spec (dedupe_key i m) (dedupe_key i' m')) as [He|Hne]; symmetry.
  - apply dedupe_key_inj in He as [-> ->]. by apply bool_decide_eq_true_2.
  - apply bool_decide_eq_false_2. intros [= -> ->]. done.
Qed.

Lemma c_held_insert now u im im' dl :
  now < dl -> c_held (Claims now (<[im := dl]> u)) im' = if bool_decide (im' = im) then Some dl else c_held (Claims now u) im'.
Proof.
  intros Hlt%Z.ltb_lt. unfold c_held. cbn. case_bool_decide as Hd; [subst; by rewrite lookup_insert_eq, Hlt|].
  by rewrite lookup_insert_ne.
Qed.
Lemma c_held_delete now u im im' :
  c_held (Claims now (delete im u)) im' = if bool_decide (im' = im) then None else c_held (Claims now u) im'.
Proof.
  unfold c_held. cbn. case_bool_decide as Hd; [subst; by rewrite lookup_delete_eq|]. by rewrite lookup_delete_ne.
Qed.

Lemma represents_ext s s' c :
  represents s c -> r_now s' = r_now s -> (forall i m, r_entry s' (dedupe_key i m) = r_entry s (dedupe_key i m)) ->
  represents s' c.
Proof. intros [Hn He] Hn' He'. split; [congruence|]. intros i m. by rewrite He'. Qed.

Lemma represents_set_ex i m ttl s now u :
  0 < ttl -> represents s (Claims now u) ->
  represents (r_set_ex (dedupe_key i m) ttl s) (Claims now (<[(i, m) := now + ttl]> u)).
Proof.
  intros Ht [Hn He]. cbn in Hn. split; [by rewrite r_set_ex_now|]. intros i' m'.
  rewrite r_set_ex_entry, key_eqb_key, c_held_insert by lia. case_bool_decide; [|apply He]. by rewrite Hn.
Qed.

Lemma represents_del i m s now u :
  represents s (Claims now u) -> represents (r_del (dedupe_key i m) s) (Claims now (delete (i, m) u)).
Proof.
  intros [Hn He]. cbn in Hn. split; [by rewrite r_del_now|]. intros i' m'.
  rewrite r_del_entry, key_eqb_key, c_held_delete. case_bool_decide; [done|apply He].
Qed.

Lemma represents_del_many i ms s now u :
  represents s (Claims now u) ->
  represents (foldl (fun s m => r_del (dedupe_key i m) s) s ms) (Claims now (foldl (fun u m => delete (i, m) u) u ms)).
Proof. revert s u. induction ms as [|m ms IH]; intros s u Hr; [done|]. cbn. apply IH. by apply represents_del. Qed.

Lemma represents_tick d s now u :
  0 <= d -> represents s (Claims now u) -> represents (r_tick d s) (Claims (now + d) u).
Proof.
  intros Hd [Hn He]. cbn in Hn. split; [cbn; by rewrite r_tick_now, Hn|]. intros i m.
  rewrite r_tick_entry, He, Hn by done. unfold c_held. cbn. destruct (u !! (i, m)) as [dl|]; [|done].
  destruct (Z.ltb_spec now dl) as [Hlt|Hge]; cbn; [|destruct (Z.ltb_spec (now + d) dl); [lia|done]].
  unfold live. cbn. by destruct (now + d <? dl).
Qed.

Lemma represents_suppress up1 up2 r sg allow w s c :
  represents s c -> represents (claim_suppress up1 up2 r sg allow w s).1 c.
Proof.
  intros Hr. assert (Z.max w 1 > 0) by lia. set (k := suppress_redis_key r sg).
  assert (forall i m, dedupe_key i m <> k) as Hk by (intros i m; apply dedupe_key_not_suppress).
  assert (represents (r_incr k s).1 c) as Hi.
  { apply (represents_ext s); [done|apply r_incr_now|]. intros i m. by apply r_incr_ne. }
  unfold claim_suppress. case_match; [done|]. case_match; [done|]. fold k.
  destruct (r_incr k s) as [s' n]. cbn in Hi. repeat case_match; cbn; try done.
  apply (represents_ext s'); [done|apply r_expire_now|]. intros i m. apply r_expire_ne; [lia|done].
Qed.

Lemma step_refines o s c :
  0 <= op_time o -> represents s c ->
  represents (dedupe_step o s).1 (c_step o c).1 /\ (dedupe_step o s).2 = (c_step o c).2.
Proof.
  intros Ht Hr. destruct c as [now u]. destruct o as [i m td ts|i m|i ms|up1 up2 r sg allow w|d]; cbn in Ht |- *.
  - pose proof Hr as [Hn He]. unfold claim. fold (ttl_of td ts). rewrite r_set_nx_spec, He.
    destruct (c_held (Claims now u) (i, m)) eqn:E; cbn; [done|].
    split; [|done]. apply represents_set_ex; [apply ttl_of_pos|done].
  - split; [|done]. by apply represents_del.
  - split; [|done]. by apply represents_del_many.
  - split; [|done]. by apply represents_suppress.
  - split; [|done]. by apply represents_tick.
Qed.

(** C36 [dedupe_refines_claims] (the Redis claims implement the claim table).
    For every sequence of claims, releases, bulk releases, suppression calls
    and passage of time, by any number of workers and integrations, the answers
    of the claims are those of a table that maps each pair of an integration
    and a message id to the instant its claim expires: keys of different pairs
    never collide, and suppression counters never disturb a claim. *)
Theorem dedupe_refines_claims l s c :
  Forall (fun o => 0 <= op_time o) l -> represents s c ->
  (dedupe_run l s).2 = (c_run l c).2 /\ represents (dedupe_run l s).1 (c_run l c).1.
Proof.
  intros Ht. revert s c. induction Ht as [|o l Ho _ IH]; intros s c Hr; [done|].
  destruct (step_refines o s c Ho Hr) as [Hr' Ha]. cbn.
  destruct (dedupe_step o s) as [s1 a], (c_step o c) as [c1 a']. cbn in Hr', Ha. subst a'.
  destruct (IH s1 c1 Hr') as [He Hf].
  destruct (dedupe_run l s1) as [s2 r], (c_run l c1) as [c2 r']. cbn in He, Hf. subst. split; [|done].
  cbn. by destruct a.
Qed.
End refinement.

(** ** One claim per window *)

Definition releases (i : Z) (m : string) (o : dedupe_op) : bool :=
  match o with
  | DRelease i' m' => bool_decide ((i', m') = (i, m))
  | DReleaseMany i' ms => bool_decide (i' = i /\ m ∈ ms)
  | _ => false
  end.

Section once.
Context {S : Type} `{RedisLaws S}.

Lemma release_many_keeps i ms k s :
  (forall m, m ∈ ms -> k <> dedupe_key i m) ->
  r_entry (foldl (fun s m => r_del (dedupe_key i m) s) s ms) k = r_entry s k /\
  r_now (foldl (fun s m => r_del (dedupe_key i m) s) s ms) = r_now s.
Proof.
  revert s. induction ms as [|m ms IH]; intros s Hk; [done|]. cbn.
  destruct (IH (r_del (dedupe_key i m) s)) as [-> ->]; [intros m' Hm; apply Hk; by right|].
  rewrite r_del_now, r_del_ne; [done|]. apply Hk. by left.
Qed.

Lemma claim_suppress_now up1 up2 r sg allow w s : r_now (claim_suppress up1 up2 r sg allow w s).1 = r_now s.
Proof.
  unfold claim_suppress. case_match; [done|]. case_match; [done|].
  pose proof (r_incr_now (suppress_redis_key r sg) s) as Hi. destruct (r_incr _ s) as [s' n]. cbn in Hi.
  repeat case_match; cbn; by rewrite ?r_expire_now.
Qed.

Lemma claim_suppress_ne up1 up2 r sg allow w s k :
  k <> suppress_redis_key r sg -> r_entry (claim_suppress up1 up2 r sg allow w s).1 k = r_entry s k.
Proof.
  intros Hk. unfold claim_suppress. case_match; [done|]. case_match; [done|].
  pose proof (r_incr_ne (suppress_redis_key r sg) s k Hk) as Hi. destruct (r_incr _ s) as [s' n]. cbn in Hi.
  repeat case_match; cbn; rewrite ?r_expire_ne; done || lia.
Qed.

Lemma step_now o s : r_now (dedupe_step o s).1 = r_now s + op_time o.
Proof.
  destruct o as [i m td ts|i m|i ms|up1 up2 r sg allow w|d]; cbn; rewrite ?Z.add_0_r.
  - unfold claim. pose proof (r_set_nx_now (dedupe_key i m) (ttl_of td ts) s) as Hn. fold (ttl_of td ts).
    by destruct (r_set_nx_ex _ _ s).
  - apply r_del_now.
  - unfold release_many. cbn. generalize (filter (fun m => String.eqb m "" = false) ms). intros l. revert s.
    induction l as [|m l IH]; intros s; [done|]. cbn. by rewrite IH, r_del_now.
  - apply claim_suppress_now.
  - apply r_tick_now.
Qed.

Lemma step_keeps i m o s dl :
  0 <= op_time o -> releases i m o = false -> r_now s + op_time o < dl ->
  r_entry s (dedupe_key i m) = Some (1, Some dl) -> r_entry (dedupe_step o s).1 (dedupe_key i m) = Some (1, Some dl).
Proof.
  intros Ht Hrel Hlt He. destruct o as [i' m' td ts|i' m'|i' ms|up1 up2 r sg allow w|d]; cbn in Ht, Hrel, Hlt |- *.
  - unfold claim. fold (ttl_of td ts). destruct (String.eqb_spec (dedupe_key i' m') (dedupe_key i m)) as [Heq|Hne].
    + by rewrite Heq, (r_set_nx_taken _ _ _ _ He).
    + pose proof (r_set_nx_ne (dedupe_key i' m') (ttl_of td ts) s (dedupe_key i m) (ttl_of_pos td ts) (not_eq_sym Hne)) as Hs.
      destruct (r_set_nx_ex _ _ s). cbn in Hs |- *. by rewrite Hs.
  - apply bool_decide_eq_false_1 in Hrel. unfold release. rewrite r_del_ne; [done|].
    intros [-> ->]%dedupe_key_inj. done.
  - apply bool_decide_eq_false_1 in Hrel. unfold release_many. cbn.
    destruct (release_many_keeps i' (filter (fun m => String.eqb m "" = false) ms) (dedupe_key i m) s) as [-> _]; [|done].
    intros m' [_ Hm]%list_elem_of_filter [-> ->]%dedupe_key_inj. tauto.
  - rewrite claim_suppress_ne; [done|]. apply dedupe_key_not_suppress.
  - by apply r_tick_keep.
Qed.

Lemma ops_time_nonneg l : Forall (fun o => 0 <= op_time o) l -> 0 <= ops_time l.
Proof. induction 1 as [|o l Ho _ IH]; [done|]. change (0 <= op_time o + ops_time l). lia. Qed.

Lemma run_keeps i m l s dl :
  Forall (fun o => 0 <= op_time o) l -> Forall (fun o => releases i m o = false) l -> r_now s + ops_time l < dl ->
  r_entry s (dedupe_key i m) = Some (1, Some dl) -> r_entry (dedupe_run l s).1 (dedupe_key i m) = Some (1, Some dl).
Proof.
  revert s. induction l as [|o l IH]; intros s Ht Hrel Hlt He; [done|].
  apply Forall_cons in Ht as [Ho Ht], Hrel as [Hro Hrel]. pose proof (ops_time_nonneg l Ht).
  change (ops_time (o :: l)) with (op_time o + ops_time l) in Hlt. cbn.
  pose proof (step_now o s) as Hn. pose proof (step_keeps i m o s dl Ho Hro ltac:(lia) He) as Hk.
  destruct (dedupe_step o s) as [s1 a]. cbn in Hn, Hk. specialize (IH s1 Ht Hrel ltac:(lia) Hk).
  by destruct (dedupe_run l s1).
Qed.

(** [claim_once] (exactly one worker processes an event).  Once a claim of a
    message succeeds, every other claim of it fails, whatever the workers do
    with other messages, until the claim is released or [MIN_TTL_SECONDS] have
    passed; after a release the next claim succeeds, so a failed hand-off is
    retried and not lost. *)
Theorem claim_once i m td ts s l td' ts' :
  (claim i m td ts s).2 = true ->
  Forall (fun o => 0 <= op_time o) l -> Forall (fun o => releases i m o = false) l ->
  ops_time l < MIN_TTL_SECONDS ->
  let s' := (dedupe_run l (claim i m td ts s).1).1 in
  claim i m td' ts' s' = (s', false) /\ (claim i m td' ts' (release i m s')).2 = true.
Proof.
  intros Hok Ht Hrel Hlt s'. split.
  - assert (r_entry s' (dedupe_key i m) = Some (1, Some (r_now s + ttl_of td ts))) as He.
    { pose proof (clamp_int_bounds (match ts with Some t => t | None => match td with Some d => d * 86400 | None => DEFAULT_TTL_SECONDS end end)) as Hb.
      fold (ttl_of td ts) in Hb. unfold claim in Hok, s'. fold (ttl_of td ts) in Hok, s'.
      rewrite r_set_nx_spec in Hok. destruct (r_entry s (dedupe_key i m)) eqn:E; [done|].
      subst s'. rewrite r_set_nx_free by done. cbn [fst].
      apply run_keeps; [done|done| |apply r_set_ex_eq, ttl_of_pos]. rewrite r_set_ex_now. lia. }
    unfold claim. apply (r_set_nx_taken _ _ _ _ He).
  - unfold claim, release. rewrite r_set_nx_free; [done|]. apply r_del_eq.
Qed.
End once.

(** ** Suppression *)

(** Does the operation count on this suppression key? *)
Definition counts_on (key : string) (o : dedupe_op) : bool :=
  match o with DSuppress _ _ r sg _ _ => String.eqb (suppress_redis_key r sg) key | _ => false end.

(** The gap does not count on the key, and time does not run backwards. *)
Definition quiet (key : string) (g : list dedupe_op) : Prop :=
  Forall (fun o => counts_on key o = false /\ 0 <= op_time o) g.

Section suppression.
Context {S : Type} `{RedisLaws S}.

(** The answers of successive calls for one signature, each after a gap in
    which anything else happens. *)
Fixpoint suppress_calls (r sg : string) (allow w : Z) (gaps : list (list dedupe_op)) (s : S)
  : S * list (result (bool * Z)) :=
  match gaps with
  | [] => (s, [])
  | g :: gaps' =>
      let '(s1, a) := claim_suppress true true r sg allow w (dedupe_run g s).1 in
      let '(s2, l) := suppress_calls r sg allow w gaps' s1 in (s2, a :: l)
  end.

Definition gaps_time (gaps : list (list dedupe_op)) : Z := foldr (fun g n => ops_time g + n) 0 gaps.

(** The counter at [key], under way until [dl]. *)
Definition counter_at (key : string) (n dl : Z) (s : S) : Prop :=
  if r_now s <? dl then r_entry s key = Some (n, Some dl) else r_entry s key = None.

Lemma quiet_step key o s n dl :
  (forall i m, dedupe_key i m <> key) -> counts_on key o = false -> 0 <= op_time o ->
  counter_at key n dl s -> counter_at key n dl (dedupe_step o s).1.
Proof.
  intros Hk Hc Ht He. unfold counter_at in *. rewrite step_now.
  assert ((forall d, o <> DTick d) -> r_entry (dedupe_step o s).1 key = r_entry s key) as Hsame.
  { intros Hnt. destruct o as [i m td ts|i m|i ms|up1 up2 r sg allow w|d]; [..|by destruct (Hnt d)]; cbn in Hc |- *.
    - unfold claim. fold (ttl_of td ts).
      pose proof (r_set_nx_ne (dedupe_key i m) (ttl_of td ts) s key (ttl_of_pos td ts) (not_eq_sym (Hk i m))) as Hs.
      by destruct (r_set_nx_ex _ _ s).
    - unfold release. by rewrite r_del_ne by (apply not_eq_sym, Hk).
    - unfold release_many. cbn. apply release_many_keeps. intros m _. apply not_eq_sym, Hk.
    - apply String.eqb_neq in Hc. by apply claim_suppress_ne, not_eq_sym. }
  destruct o as [ | | | |d]; [rewrite Z.add_0_r, Hsame by done; exact He..|]. cbn in Ht |- *.
  rewrite r_tick_entry by done.
  destruct (Z.ltb_spec (r_now s) dl); rewrite He; cbn; [|by destruct (Z.ltb_spec (r_now s + d) dl); [lia|]].
  unfold live. cbn. by destruct (r_now s + d <? dl).
Qed.

Lemma run_now l s : r_now (dedupe_run l s).1 = r_now s + ops_time l.
Proof.
  revert s. induction l as [|o l IH]; intros s; [cbn; lia|]. pose proof (step_now o s) as Hn.
  change (ops_time (o :: l)) with (op_time o + ops_time l). cbn [dedupe_run].
  destruct (dedupe_step o s) as [s1 a]. cbn [fst] in Hn. specialize (IH s1).
  destruct (dedupe_run l s1). cbn [fst] in IH |- *. lia.
Qed.

Lemma quiet_run key g s n dl :
  (forall i m, dedupe_key i m <> key) -> quiet key g -> counter_at key n dl s -> counter_at key n dl (dedupe_run g s).1.
Proof.
  intros Hk. revert s. induction g as [|o g IH]; intros s Hq He; [done|]. apply Forall_cons in Hq as [[Hc Ht] Hq].
  pose proof (quiet_step key o s n dl Hk Hc Ht He) as Hs. cbn. destruct (dedupe_step o s) as [s1 a]. cbn in Hs.
  specialize (IH s1 Hq Hs). by destruct (dedupe_run g s1).
Qed.

(** A call while the counter is under way. *)
Lemma suppress_counts r sg allow w n dl s :
  0 < allow -> 0 < n -> r_now s < dl -> counter_at (suppress_redis_key r sg) n dl s ->
  let c := claim_suppress true true r sg allow w s in
  c.2 = Ok (n + 1 <=? allow, n + 1) /\ r_now c.1 = r_now s /\ counter_at (suppress_redis_key r sg) (n + 1) dl c.1.
Proof.
  intros Ha Hn Hlt He. unfold counter_at in *. apply Z.ltb_lt in Hlt. rewrite Hlt in He. unfold claim_suppress.
  destruct (Z.leb_spec allow 0); [lia|]. cbn [negb].
  pose proof (r_incr_value (suppress_redis_key r sg) s) as Hv.
  pose proof (r_incr_entry (suppress_redis_key r sg) s (suppress_redis_key r sg)) as Hi.
  pose proof (r_incr_now (suppress_redis_key r sg) s) as Hnow.
  destruct (r_incr _ s) as [s' v]. rewrite String.eqb_refl, He in Hi. rewrite He in Hv. cbn in Hv, Hi, Hnow. subst v.
  destruct (Z.eqb_spec (n + 1) 1); [lia|]. cbn. by rewrite Hnow, Hlt.
Qed.

(** The call that opens a window. *)
Lemma suppress_opens r sg allow w s :
  0 < allow -> r_entry s (suppress_redis_key r sg) = None ->
  let c := claim_suppress true true r sg allow w s in
  c.2 = Ok (true, 1) /\ r_now c.1 = r_now s /\ counter_at (suppress_redis_key r sg) 1 (r_now s + Z.max w 1) c.1.
Proof.
  intros Ha He. unfold counter_at, claim_suppress. destruct (Z.leb_spec allow 0); [lia|]. cbn [negb].
  pose proof (r_incr_value (suppress_redis_key r sg) s) as Hv.
  pose proof (r_incr_entry (suppress_redis_key r sg) s (suppress_redis_key r sg)) as Hi.
  pose proof (r_incr_now (suppress_redis_key r sg) s) as Hnow.
  destruct (r_incr _ s) as [s' v]. rewrite String.eqb_refl, He in Hi. rewrite He in Hv. cbn in Hv, Hi, Hnow. subst v.
  change (0 + 1) with 1 in *. cbn [Z.eqb Pos.eqb fst snd]. rewrite r_expire_now, Hnow, r_expire_entry, String.eqb_refl, Hi, Hnow by lia.
  destruct (Z.leb_spec 1 allow); [|lia]. destruct (Z.ltb_spec (r_now s) (r_now s + Z.max w 1)); [done|lia].
Qed.

Lemma gaps_time_nonneg key gaps : Forall (quiet key) gaps -> 0 <= gaps_time gaps.
Proof.
  induction 1 as [|g l Hg _ IH]; [done|]. change (0 <= ops_time g + gaps_time l).
  assert (0 <= ops_time g) by (apply ops_time_nonneg; eapply Forall_impl; [exact Hg|]; by intros ? [_ ?]). lia.
Qed.

Lemma suppress_calls_from r sg allow w gaps n dl s :
  0 < allow -> 0 < n -> Forall (quiet (suppress_redis_key r sg)) gaps -> r_now s + gaps_time gaps < dl ->
  counter_at (suppress_redis_key r sg) n dl s ->
  let c := suppress_calls r sg allow w gaps s in
  c.2 = (fun k => Ok (k <=? allow, k)) <$> seqZ (n + 1) (Z.of_nat (length gaps)) /\
  r_now c.1 = r_now s + gaps_time gaps /\
  counter_at (suppress_redis_key r sg) (n + Z.of_nat (length gaps)) dl c.1.
Proof.
  intros Ha. revert n s. induction gaps as [|g gaps IH]; intros n s Hn Hq Hlt He.
  { cbn. rewrite !Z.add_0_r. done. }
  apply Forall_cons in Hq as [Hg Hq]. pose proof (gaps_time_nonneg _ _ Hq).
  change (gaps_time (g :: gaps)) with (ops_time g + gaps_time gaps) in *.
  pose proof (quiet_run _ g s n dl (fun i m => dedupe_key_not_suppress i m r sg) Hg He) as He1.
  pose proof (run_now g s) as Hn1. cbn [suppress_calls]. set (s1 := (dedupe_run g s).1) in *.
  destruct (suppress_counts r sg allow w n dl s1 Ha Hn ltac:(lia) He1) as (Hc & Hcn & Hce).
  destruct (claim_suppress true true r sg allow w s1) as [s2 a]. cbn in Hc, Hcn, Hce.
  destruct (IH (n + 1) s2 ltac:(lia) Hq ltac:(lia) Hce) as (Hr & Hrn & Hre).
  destruct (suppress_calls r sg allow w gaps s2) as [s3 l]. cbn in Hr, Hrn, Hre |- *. subst a l.
  rewrite Nat2Z.inj_succ, (seqZ_cons (n + 1)) by lia. cbn. rewrite Z.pred_succ.
  replace (Z.succ (n + 1)) with (n + 1 + 1) by lia. split; [done|]. split; [lia|].
  by replace (n + Z.succ (Z.of_nat (length gaps))) with (n + 1 + Z.of_nat (length gaps)) by lia.
Qed.

(** [suppress_window] (the number to allow, per window).  With the store up,
    the calls for one route and signature within a window of [window_s] seconds
    are answered 1, 2, 3 ... and the first [allow] of them are kept, whatever
    else happens between them; the window does not slide: it ends [window_s]
    seconds after the call that opened it, and the next call starts again at 1. *)
Theorem suppress_window r sg allow w gaps g s :
  let key := suppress_redis_key r sg in
  0 < allow -> r_entry s key = None -> Forall (quiet key) gaps -> quiet key g ->
  gaps_time gaps < Z.max w 1 ->
  let c := suppress_calls r sg allow w ([] :: gaps) s in
  c.2 = (fun k => Ok (k <=? allow, k)) <$> seqZ 1 (Z.of_nat (Datatypes.S (length gaps))) /\
  (Z.max w 1 <= gaps_time gaps + ops_time g ->
   (claim_suppress true true r sg allow w (dedupe_run g c.1).1).2 = Ok (true, 1)).
Proof.
  intros key Ha He Hq Hg Hlt c.
  destruct (suppress_opens r sg allow w s Ha He) as (Hc & Hcn & Hce). subst c. cbn [suppress_calls dedupe_run fst].
  destruct (claim_suppress true true r sg allow w s) as [s1 a]. cbn in Hc, Hcn, Hce.
  assert (r_now s1 + gaps_time gaps < r_now s + Z.max w 1) as Hlt' by lia.
  destruct (suppress_calls_from r sg allow w gaps 1 (r_now s + Z.max w 1) s1 Ha Z.lt_0_1 Hq Hlt' Hce) as (Hr & Hrn & Hre).
  destruct (suppress_calls r sg allow w gaps s1) as [s2 l]. cbn in Hr, Hrn, Hre |- *. subst a l. split.
  - rewrite Nat2Z.inj_succ, (seqZ_cons 1) by lia. cbn. rewrite Z.pred_succ. by destruct (Z.leb_spec 1 allow); [|lia].
  - intros Hge. pose proof (quiet_run _ g s2 _ _ (fun i m => dedupe_key_not_suppress i m r sg) Hg Hre) as He2.
    unfold counter_at in He2. rewrite run_now in He2.
    destruct (Z.ltb_spec (r_now s2 + ops_time g) (r_now s + Z.max w 1)); [lia|].
    by destruct (suppress_opens r sg allow w (dedupe_run g s2).1 Ha He2) as [-> _].
Qed.
End suppression.

(** ** The message id *)

Section ids.
Context `{FloatRepr} `{Sha256} `{JsonDumps}.

Lemma first_id_frame cands e1 e2 :
  (forall k, k ∈ cands -> dget k e1 = dget k e2) -> first_id cands e1 = first_id cands e2.
Proof.
  induction cands as [|c cs IH]; intros Hk; [done|]. cbn. rewrite (Hk c) by (by left).
  rewrite IH; [done|]. intros k Hin. apply Hk. by right.
Qed.

Lemma id_fields_frame fields e1 e2 :
  (forall k, k ∈ fields -> dget k e1 = dget k e2) -> id_fields e1 fields = id_fields e2 fields.
Proof.
  unfold id_fields. generalize (@nil (string * pyval)). induction fields as [|f fs IH]; intros d Hk; [done|].
  cbn. rewrite (Hk f) by (by left). apply IH. intros k Hin. apply Hk. by right.
Qed.

(** [message_id_stable] (re-sent events get the same id).  The id of an
    event depends only on its native id fields and the configured fallback
    fields; with no fallback configured it depends on the content of the event
    and not on the order in which the vendor listed the fields. *)
Theorem message_id_stable e1 e2 fallback :
  (forall k, k ∈ ID_CANDIDATES ++ fallback -> dget k e1 = dget k e2) ->
  (fallback = [] -> dict_keys e1 ≡ₚ dict_keys e2 /\ forall k, dget k e1 = dget k e2) ->
  compute_message_id e1 fallback = compute_message_id e2 fallback.
Proof.
  intros Hk Hf. unfold compute_message_id.
  rewrite (first_id_frame ID_CANDIDATES e1 e2) by (intros k Hin; apply Hk; apply elem_of_app; by left).
  destruct (first_id ID_CANDIDATES e2); [done|]. destruct fallback as [|f fs].
  - destruct (Hf eq_refl) as [Hp He]. rewrite Hp. by rewrite (id_fields_frame _ e1 e2).
  - rewrite (id_fields_frame _ e1 e2); [done|]. intros k Hin. apply Hk. apply elem_of_app. by right.
Qed.
End ids.

(** ** Witnesses and divergences *)

Section examples.
#[local] Existing Instances demo_float_repr demo_sha256.
#[local] Instance demo_dumps : JsonDumps := fun d => String.concat "," (dict_keys d).

Lemma clamp_ttl_bounds_witness :
  clamp_ttl_seconds (PStr "3600") = Ok MIN_TTL_SECONDS /\ clamp_ttl_seconds PNone = Ok DEFAULT_TTL_SECONDS /\
  MIN_TTL_SECONDS <= MIN_TTL_SECONDS <= MAX_TTL_SECONDS.
Proof.
  split; [vm_compute; reflexivity|]. split; [vm_compute; reflexivity|].
  exact (proj1 (clamp_ttl_bounds (PStr "3600") MIN_TTL_SECONDS ltac:(vm_compute; reflexivity))).
Defined.

Definition demo_ops : list dedupe_op :=
  [DClaim 1 "a:b" None (Some 5); DTick 20; DClaim 1 "a:b" None None; DClaim 11 "b" (Some 2) None;
   DSuppress true true "1" "a:b" 1 60; DReleaseMany 1 [""; "c"]; DClaim 1 "a:b" None None; DRelease 1 "a:b";
   DClaim 1 "a:b" None None].

Lemma demo_ops_time : Forall (fun o => 0 <= op_time o) demo_ops.
Proof. repeat (apply Forall_cons_2 || apply Forall_nil_2); cbn; lia. Qed.

Lemma dedupe_refines_claims_witness :
  (dedupe_run demo_ops mem_empty).2 = [true; false; true; false; true] /\
  (dedupe_run demo_ops mem_empty).2 = (c_run demo_ops (Claims 0 ∅)).2.
Proof.
  split; [vm_compute; reflexivity|].
  apply (dedupe_refines_claims demo_ops mem_empty (Claims 0 ∅) demo_ops_time). split; [reflexivity|]. intros i m. reflexivity.
Defined.

Lemma claim_once_witness :
  let l := [DTick 7200; DClaim 2 "m" None None; DRelease 2 "m"] in
  let s' := (dedupe_run l (claim 1 "m" None (Some 60) mem_empty).1).1 in
  claim 1 "m" None None s' = (s', false) /\ (claim 1 "m" None None (release 1 "m" s')).2 = true.
Proof.
  apply (claim_once 1 "m" None (Some 60) mem_empty [DTick 7200; DClaim 2 "m" None None; DRelease 2 "m"] None None);
    [vm_compute; reflexivity | | | vm_compute; reflexivity];
    repeat (apply Forall_cons_2 || apply Forall_nil_2); cbn; lia || reflexivity.
Defined.

Lemma suppress_window_witness :
  let gaps := [[DTick 10]; [DClaim 1 "m" None None; DTick 20]; [DTick 29]] in
  let c := suppress_calls "r" "sig" 2 60 ([] :: gaps) mem_empty in
  c.2 = [Ok (true, 1); Ok (true, 2); Ok (false, 3); Ok (false, 4)] /\
  (claim_suppress true true "r" "sig" 2 60 (dedupe_run [DTick 1] c.1).1).2 = Ok (true, 1).
Proof.
  set (gaps := [[DTick 10]; [DClaim 1 "m" None None; DTick 20]; [DTick 29]]).
  assert (Forall (quiet (suppress_redis_key "r" "sig")) gaps) as Hq.
  { repeat (apply Forall_cons_2 || apply Forall_nil_2); cbn; split; done || lia. }
  assert (quiet (suppress_redis_key "r" "sig") [DTick 1]) as Hg.
  { repeat (apply Forall_cons_2 || apply Forall_nil_2); cbn; split; done || lia. }
  assert (r_entry mem_empty (suppress_redis_key "r" "sig") = None) as He by reflexivity.
  destruct (suppress_window "r" "sig" 2 60 gaps [DTick 1] mem_empty ltac:(lia) He Hq Hg ltac:(vm_compute; reflexivity)) as [H1 H2].
  split; [exact H1|]. apply H2. vm_compute. discriminate.
Defined.

Lemma message_id_stable_witness :
  let e1 := [("host", PStr "h"); ("msg", PStr "x")] in
  let e2 := [("msg", PStr "x"); ("host", PStr "h")] in
  compute_message_id e1 [] = "#host,msg" /\ compute_message_id e1 [] = compute_message_id e2 [].
Proof.
  split; [vm_compute; reflexivity|].
  assert (forall k, dget k [("host", PStr "h"); ("msg", PStr "x")] = dget k [("msg", PStr "x"); ("host", PStr "h")]) as Hk.
  { intros k. unfold dget, dict_get. cbn. destruct (String.eqb_spec k "host") as [->|]; [reflexivity|].
    destruct (String.eqb k "msg"); reflexivity. }
  apply message_id_stable; [intros k _; apply Hk|]. intros _. split; [apply perm_swap|exact Hk].
Defined.

(** "An out-of-range value can never bring the collection down": an infinite
    float does, its conversion raises neither of the two exceptions caught. *)
Lemma infinite_ttl_raises : clamp_ttl_seconds (PFloat (S754_infinity false)) = Raise EOverflow.
Proof. reflexivity. Qed.

(** When the [EXPIRE] that should start the window is lost, no later call
    repeats it: the counter never expires, and after [allow] calls the route
    suppresses every event of the signature for good. *)
Lemma lost_expire_suppresses_forever :
  let s := (claim_suppress true false "r" "sig" 1 60 mem_empty).1 in
  (claim_suppress true true "r" "sig" 1 60 (r_tick 1000000 s)).2 = Ok (false, 2).
Proof. vm_compute. reflexivity. Qed.
End examples.
