(* ===== verification/Boundary.v ===== *)
(** * The memory of the cursor boundary

    Models [collectors/cursor_boundary.py] and [_parse_iso_utc_naive] of
    [collectors/base.py]: which events of the instant where the next window
    starts have already been emitted.  [datetime.fromisoformat] is a parameter.
    Instants are microseconds since 0001-01-01.  Logging is left out. *)

From stdpp Require Import sorting.
From S2P Require Import Prelude PyVal.

Local Open Scope string_scope.
Local Open Scope list_scope.
Local Open Scope Z_scope.

(** ** Instants *)

(** [datetime.fromisoformat]: the local time read and its UTC offset, if any;
    [None] for [ValueError]. *)
Class FromIso := from_iso : string -> option (Z * option Z).

(** The instants a [datetime] can hold. *)
Definition DATETIME_MAX : Z := 3652059 * 86400 * 1000000.

(** [astimezone(utc)] of a local time at an offset: out of range, it raises. *)
Definition to_utc (local offset : Z) : result Z :=
  let t := local - offset in
  if (0 <=? t) && (t <? DATETIME_MAX) then Ok t else Raise EOverflow.

(** [text[-n]], on a text long enough. *)
Definition char_from_end (n : nat) (s : string) : option ascii := String.get (String.length s - n) s.

Definition normalized_offset (text : string) : string :=
  let n := String.length text in
  match char_from_end 1 text with
  | Some "Z"%char | Some "z"%char => (str_take (n - 1) text +:+ "+00:00")%string
  | _ =>
      if (5 <=? n)%nat &&
         match char_from_end 5 text with Some "+"%char | Some "-"%char => true | _ => false end &&
         match char_from_end 3 text with Some ":"%char => false | _ => true end
      then (str_take (n - 2) text +:+ ":" +:+ str_drop (n - 2) text)%string
      else text
  end.

Section boundary.
Context `{FromIso}.

Definition parse_iso_utc_naive (raw : string) : result (option Z) :=
  match from_iso (normalized_offset (str_strip raw)) with
  | None => Ok None
  | Some (local, None) => Ok (Some local)
  | Some (local, Some offset) => Some <$> to_utc local offset
  end.

(** A [datetime], with or without a time zone, or any other value. *)
Inductive moment :=
| MTime (local : Z) (offset : option Z)
| MValue (v : pyval).

Definition instant (w : moment) : result (option Z) :=
  match w with
  | MTime local None => Ok (Some local)
  | MTime local (Some offset) => Some <$> to_utc local offset
  | MValue (PStr s) => if str_blank s then Ok None else parse_iso_utc_naive s
  | MValue _ => Ok None
  end.
Definition instant_opt (w : option string) : result (option Z) :=
  match w with Some s => instant (MValue (PStr s)) | None => Ok None end.

(** ** [BoundaryKeys] *)

Definition CURSOR_KEY : string := "boundary".
Definition MAX_KEYS : nat := 500.

Record boundary_keys := BoundaryKeys {
  bk_window_start : option string;
  bk_previous : gset string;
  bk_recent : list (Z * string);
  bk_skipped : Z;
}.

(** [k for k in state["keys"] if isinstance(k, str) and k]. *)
Definition text_keys (l : list pyval) : list string :=
  omap (fun v => match v with PStr k => if String.eqb k "" then None else Some k | _ => None end) l.

Definition load (cursor : option (list (string * pyval))) (window_start : option string) : boundary_keys :=
  let previous : gset string :=
    match window_start, dget CURSOR_KEY (default [] cursor) with
    | Some w, PDict state =>
        if negb (String.eqb w "") && py_eq (dget "at" state) (PStr w) then
          match dget "keys" state with PList l => list_to_set (text_keys l) | _ => ∅ end
        else ∅
    | _, _ => ∅
    end in
  BoundaryKeys window_start previous [] 0.

(** [sort] of the pairs: by instant, then by key. *)
Definition item_leb (a b : Z * string) : bool :=
  match Z.compare a.1 b.1 with Lt => true | Gt => false | Eq => String.leb a.2 b.2 end.
Fixpoint insert_item (a : Z * string) (l : list (Z * string)) : list (Z * string) :=
  match l with
  | [] => [a]
  | b :: l' => if item_leb a b then a :: l else b :: insert_item a l'
  end.
Definition sort_items (l : list (Z * string)) : list (Z * string) := foldr insert_item [] l.

(** [del l[:-n]]. *)
Definition keep_last {A} (n : nat) (l : list A) : list A := drop (length l - n) l.

Definition observe (w : moment) (key : string) (b : boundary_keys) : result boundary_keys :=
  t ← instant w;
  match t with
  | Some t =>
      if String.eqb key "" then Ok b
      else
        let recent := bk_recent b ++ [(t, key)] in
        let recent := if (2 * MAX_KEYS <? length recent)%nat
                      then keep_last MAX_KEYS (sort_items recent) else recent in
        Ok (BoundaryKeys (bk_window_start b) (bk_previous b) recent (bk_skipped b))
  | None => Ok b
  end.

Definition seen (w : moment) (key : string) (b : boundary_keys) : result (boundary_keys * bool) :=
  b ← observe w key b;
  if negb (String.eqb key "") && bool_decide (key ∈ bk_previous b)
  then Ok (BoundaryKeys (bk_window_start b) (bk_previous b) (bk_recent b) (bk_skipped b + 1), true)
  else Ok (b, false).

Definition memory (at_ : string) (keys : list string) : list (string * pyval) :=
  [(CURSOR_KEY, PDict [("at", PStr at_); ("keys", PList (PStr <$> sorted_strs keys))])].

Definition carry (b : boundary_keys) : list (string * pyval) :=
  match bk_window_start b with
  | Some w =>
      if bool_decide (bk_previous b = ∅) || String.eqb w "" then []
      else memory w (elements (bk_previous b))
  | None => []
  end.

(** The loop of [dump]: distinct keys, the most recent first, at most [room]. *)
Fixpoint choose_keys (items : list (Z * string)) (room : nat) (chosen : list string) : list string :=
  match items with
  | [] => chosen
  | (_, key) :: items' =>
      if bool_decide (key ∈ chosen) then choose_keys items' room chosen
      else match room with
           | O => chosen
           | S room' => choose_keys items' room' (chosen ++ [key])
           end
  end.

Definition dump (next_window_start : option string) (b : boundary_keys) : result (list (string * pyval)) :=
  bound ← instant_opt next_window_start;
  match bound, next_window_start with
  | Some bound, Some next =>
      let at_or_after := reverse (sort_items (filter (fun i => bound <= i.1) (bk_recent b))) in
      match choose_keys at_or_after MAX_KEYS [] with
      | [] => Ok (if bool_decide (next_window_start = bk_window_start b) then carry b else [])
      | keys => Ok (memory next keys)
      end
  | _, _ => Ok []
  end.

Definition is_later (candidate current : moment) : result bool :=
  cand ← instant candidate;
  match cand with
  | None => Ok false
  | Some c => cur ← instant current; Ok (match cur with None => true | Some u => u <? c end)
  end.

(** ** A collection cycle

    The use the module prescribes: every event goes through [seen]; at the end
    the cursor is replaced, by the memory of the next window or, when the cycle
    stops inside the same window, by the memory carried; a failed cycle leaves
    the cursor as it was. *)

Inductive cycle_end :=
| Finish (next_window_start : option string)
| Resume
| Failed.

(** The log pairs each key with whether its event was skipped; the flag is
    false when the loop raised. *)
Fixpoint process (events : list (moment * string)) (b : boundary_keys)
  : boundary_keys * list (string * bool) * bool :=
  match events with
  | [] => (b, [], true)
  | (w, key) :: events' =>
      match seen w key b with
      | Raise _ => (b, [], false)
      | Ok (b', skip) => let '(b2, log, ok) := process events' b' in (b2, (key, skip) :: log, ok)
      end
  end.

Definition cycle_state := (option string * list (string * pyval))%type.

Definition cycle (c : list (moment * string) * cycle_end) (st : cycle_state)
  : cycle_state * list (string * bool) * bool :=
  let '(b, log, ok) := process c.1 (load (Some st.2) st.1) in
  if ok then
    match c.2 with
    | Finish next =>
        match dump next b with Ok m => ((next, m), log, true) | Raise _ => (st, log, false) end
    | Resume => ((st.1, carry b), log, false)
    | Failed => (st, log, false)
    end
  else (st, log, false).

(** Cycles in order, with the keys that the finished ones emitted. *)
Fixpoint cycles (cs : list (list (moment * string) * cycle_end)) (st : cycle_state) (emitted : list string)
  : cycle_state * list string :=
  match cs with
  | [] => (st, emitted)
  | c :: cs' =>
      let '(st', log, fin) := cycle c st in
      cycles cs' st' (if fin then emitted ++ (filter (fun e => e.2 = false) log).*1 else emitted)
  end.

End boundary.

(** ** Sorting and pruning *)

Lemma insert_item_perm a l : insert_item a l ≡ₚ a :: l.
Proof. induction l as [|b l IH]; [done|]. cbn. case_match; [done|]. rewrite IH. apply perm_swap. Qed.
Lemma sort_items_perm l : sort_items l ≡ₚ l.
Proof. induction l as [|a l IH]; [done|]. cbn. by rewrite insert_item_perm, IH. Qed.

Definition before (a b : Z * string) : Prop := a.1 <= b.1.

Lemma item_leb_before a b : if item_leb a b then before a b else before b a.
Proof.
  unfold item_leb, before. destruct (Z.compare_spec a.1 b.1) as [E|E|E]; [|lia..]. case_match; lia.
Qed.

Lemma insert_item_sorted a l : StronglySorted before l -> StronglySorted before (insert_item a l).
Proof.
  induction 1 as [|b l Hl IH Hb]; cbn; [by repeat constructor|].
  pose proof (item_leb_before a b) as Hab. destruct (item_leb a b).
  - constructor; [by constructor|]. constructor; [done|]. eapply Forall_impl; [exact Hb|].
    unfold before in *. intros; lia.
  - constructor; [done|]. rewrite insert_item_perm. by constructor.
Qed.
Lemma sort_items_sorted l : StronglySorted before (sort_items l).
Proof. induction l as [|a l IH]; [constructor|]. by apply insert_item_sorted. Qed.

(** Pruning a sorted list keeps every item from [t] on, if they fit. *)
Lemma keep_last_keeps t n l x :
  StronglySorted before l -> (length (filter (fun i => (t <= i.1)%Z) l) <= n)%nat ->
  x ∈ l -> t <= x.1 -> x ∈ keep_last n l.
Proof.
  unfold keep_last. induction 1 as [|a l Hl IH Ha]; intros Hn Hx Hle; [by apply elem_of_nil in Hx|].
  destruct (decide (length (a :: l) <= n)%nat) as [Hs|Hs].
  { replace (length (a :: l) - n)%nat with 0%nat by lia. by rewrite drop_0. }
  cbn [length] in *. replace (S (length l) - n)%nat with (S (length l - n)) by lia. cbn [drop].
  rewrite filter_cons in Hn. apply elem_of_cons in Hx as [->|Hx].
  - rewrite decide_True in Hn by done. cbn in Hn.
    assert (filter (fun i => t <= i.1) l = l) as Hf.
    { apply list_filter_all. eapply Forall_impl; [exact Ha|]. unfold before. intros; cbn; lia. }
    rewrite Hf in Hn. lia.
  - apply IH; [|done..]. case_decide; cbn in Hn; lia.
Qed.

Lemma keep_last_sub {A} n (l : list A) : keep_last n l ⊆+ l.
Proof. apply sublist_submseteq, sublist_drop. Qed.

(** ** The loop of [dump] *)

Lemma choose_keys_sub items room chosen k :
  k ∈ choose_keys items room chosen -> k ∈ chosen \/ k ∈ items.*2.
Proof.
  revert room chosen. induction items as [|[t key] items IH]; intros room chosen; cbn; [by left|].
  case_bool_decide.
  - intros [?|?]%IH; [by left|right; by right].
  - destruct room; [by left|]. intros [Hk|?]%IH; [|right; by right].
    apply elem_of_app in Hk as [?|Hk]; [by left|]. right. apply list_elem_of_singleton in Hk as ->. by left.
Qed.

Lemma choose_keys_chosen items room chosen k : k ∈ chosen -> k ∈ choose_keys items room chosen.
Proof.
  revert room chosen. induction items as [|[t key] items IH]; intros room chosen Hk; cbn; [done|].
  case_bool_decide; [by apply IH|]. destruct room; [done|]. apply IH. apply elem_of_app. by left.
Qed.

Lemma choose_keys_all items room chosen k :
  (length items <= room)%nat -> k ∈ items.*2 -> k ∈ choose_keys items room chosen.
Proof.
  revert room chosen. induction items as [|[t key] items IH]; intros room chosen Hl Hk; cbn in *; [by apply elem_of_nil in Hk|].
  apply elem_of_cons in Hk as [->|Hk].
  - case_bool_decide; [by apply choose_keys_chosen|]. destruct room; [lia|].
    apply choose_keys_chosen, elem_of_app. right. by left.
  - case_bool_decide; [apply IH; [lia|done]|]. destruct room; [lia|]. apply IH; [lia|done].
Qed.

Lemma choose_keys_bound items room chosen :
  NoDup chosen -> NoDup (choose_keys items room chosen) /\
  (length (choose_keys items room chosen) <= length chosen + room)%nat.
Proof.
  revert room chosen. induction items as [|[t key] items IH]; intros room chosen Hd; cbn; [split; [done|lia]|].
  case_bool_decide as Hk; [by apply IH|]. destruct room as [|room]; [split; [done|lia]|].
  destruct (IH room (chosen ++ [key])) as [IH1 IH2].
  { apply NoDup_app. split_and!; [done| |apply NoDup_singleton]. intros x Hx ->%list_elem_of_singleton. done. }
  split; [done|]. rewrite length_app in IH2. cbn in IH2. lia.
Qed.

(** ** Memory and its reload *)

Lemma text_keys_texts l k : k ∈ text_keys (PStr <$> l) <-> k ∈ l /\ k <> "".
Proof.
  unfold text_keys. rewrite list_elem_of_omap. split.
  - intros (v & Hv & He). apply list_elem_of_fmap in Hv as (s & -> & Hs).
    destruct (String.eqb_spec s ""); [done|]. by injection He as ->.
  - intros [Hk Hne]. exists (PStr k). split; [by apply list_elem_of_fmap_2|].
    by apply String.eqb_neq in Hne as ->.
Qed.

Lemma load_memory w keys k :
  w <> "" -> k ∈ bk_previous (load (Some (memory w keys)) (Some w)) <-> k ∈ keys /\ k <> "".
Proof.
  intros Hw. unfold load, memory. cbn [bk_previous default dget]. unfold dget. cbn [dict_get default].
  cbn. apply String.eqb_neq in Hw as ->. rewrite String.eqb_refl. cbn.
  by rewrite elem_of_list_to_set, text_keys_texts, sorted_strs_perm.
Qed.

Lemma load_nothing w : bk_previous (load (Some []) w) = ∅.
Proof. by destruct w. Qed.

Lemma load_window cursor w : bk_window_start (load cursor w) = w /\ bk_recent (load cursor w) = [].
Proof. done. Qed.

(** The memory of a window never holds the empty key. *)
Lemma load_nonempty cursor w k : k ∈ bk_previous (load cursor w) -> k <> "".
Proof.
  unfold load. cbn. repeat case_match; try (by rewrite elem_of_empty).
  rewrite elem_of_list_to_set. unfold text_keys. rewrite list_elem_of_omap. intros (v & _ & He) ->.
  destruct v as [| | | |x| |]; try done. by destruct (String.eqb_spec x ""); simplify_eq.
Qed.

Lemma carry_reload cursor w k :
  k ∈ bk_previous (load (Some (carry (load cursor w))) w) <-> k ∈ bk_previous (load cursor w).
Proof.
  unfold carry. destruct w as [w|]; [|by cbn]. cbn [bk_window_start load].
  change (BoundaryKeys (Some w) ?p [] 0) with (load cursor (Some w)).
  destruct (String.eqb_spec w "") as [->|Hw]; [rewrite orb_true_r, load_nothing; cbn; by repeat case_match|]. rewrite orb_false_r.
  case_bool_decide as He.
  - rewrite load_nothing. cbn in He |- *. by rewrite He.
  - rewrite load_memory by done. rewrite elem_of_elements. split; [by intros [? _]|].
    intros Hk. split; [done|]. by eapply load_nonempty.
Qed.

(** ** A cycle *)

Section cycle_lemmas.
Context `{FromIso}.

(** The observations of a list of events. *)
Definition observation (e : moment * string) : option (Z * string) :=
  match instant e.1 with
  | Ok (Some t) => if String.eqb e.2 "" then None else Some (t, e.2)
  | _ => None
  end.
Definition observed (events : list (moment * string)) : list (Z * string) := omap observation events.

(** [recent] holds the observations [all] as far as the boundary can matter. *)
Definition retains (all recent : list (Z * string)) : Prop :=
  recent ⊆+ all /\
  forall t, (length (filter (fun i => (t <= i.1)%Z) all) <= MAX_KEYS)%nat ->
    forall x, x ∈ all -> t <= x.1 -> x ∈ recent.

Lemma retains_refl l : retains l l.
Proof. by split. Qed.

Lemma filter_submseteq {A} (P : A -> Prop) `{forall x, Decision (P x)} l1 l2 :
  l1 ⊆+ l2 -> (length (filter P l1) <= length (filter P l2))%nat.
Proof.
  induction 1 as [|x l1 l2 _ IH|x y l|x l1 l2 _ IH|l1 l2 l3 _ IH1 _ IH2]; rewrite ?filter_cons; repeat case_decide; cbn; lia.
Qed.

Lemma retains_snoc all recent x : retains all recent -> retains (all ++ [x]) (recent ++ [x]).
Proof.
  intros [Hs Hk]. split; [by apply submseteq_app|]. intros t Hn y Hy Ht.
  rewrite filter_app, length_app in Hn. apply elem_of_app in Hy as [Hy|Hy]; apply elem_of_app; [left|by right].
  apply (Hk t); [lia|done..].
Qed.

Lemma retains_prune all recent : retains all recent -> retains all (keep_last MAX_KEYS (sort_items recent)).
Proof.
  intros [Hs Hk]. split.
  - etrans; [apply keep_last_sub|]. by rewrite sort_items_perm.
  - intros t Hn x Hx Ht. apply (keep_last_keeps t); [apply sort_items_sorted| | |done].
    + rewrite sort_items_perm. etrans; [by apply filter_submseteq|done].
    + rewrite sort_items_perm. by apply (Hk t).
Qed.

Lemma observe_spec w key b b' all :
  observe w key b = Ok b' -> retains all (bk_recent b) ->
  bk_window_start b' = bk_window_start b /\ bk_previous b' = bk_previous b /\
  retains (all ++ observed [(w, key)]) (bk_recent b').
Proof.
  intros Ho Hr. unfold observe in Ho. unfold observed, observation. cbn.
  destruct (instant w) as [[t|]|]; cbn in Ho; [|injection Ho as <-; by rewrite app_nil_r|done].
  destruct (String.eqb key ""); injection Ho as <-; [by rewrite app_nil_r|]. cbn. split_and!; [done..|].
  case_match; [apply retains_prune|]; by apply retains_snoc.
Qed.

Definition skips (previous : gset string) (key : string) : bool :=
  negb (String.eqb key "") && bool_decide (key ∈ previous).

Lemma seen_spec w key b b' s all :
  seen w key b = Ok (b', s) -> retains all (bk_recent b) ->
  s = skips (bk_previous b) key /\ bk_window_start b' = bk_window_start b /\ bk_previous b' = bk_previous b /\
  retains (all ++ observed [(w, key)]) (bk_recent b').
Proof.
  unfold seen. intros Hs Hr. destruct (observe w key b) as [b1|] eqn:Ho; cbn in Hs; [|done].
  destruct (observe_spec w key b b1 all Ho Hr) as (Hw & Hp & Hr'). unfold skips. rewrite <- Hp in *.
  case_match; injection Hs as <- <-; cbn; done.
Qed.

Lemma observed_cons e l : observed (e :: l) = observed [e] ++ observed l.
Proof. unfold observed. cbn. by destruct (observation e). Qed.

Lemma process_spec events b b' log ok all :
  process events b = (b', log, ok) -> retains all (bk_recent b) ->
  bk_window_start b' = bk_window_start b /\ bk_previous b' = bk_previous b /\
  (forall k s, (k, s) ∈ log -> s = skips (bk_previous b) k) /\
  (exists rest, events.*2 = log.*1 ++ rest /\ (ok = true -> rest = [])) /\
  (ok = true -> retains (all ++ observed events) (bk_recent b')).
Proof.
  revert b log all. induction events as [|[w key] events IH]; intros b log all Hp Hr; cbn in Hp.
  { injection Hp as <- <- <-. split_and!; [done|done|by intros k s Hin%elem_of_nil|by exists []|]. by rewrite app_nil_r. }
  destruct (seen w key b) as [[b1 s]|] eqn:Hs; cycle 1.
  { injection Hp as <- <- <-. split_and!; [done|done|by intros k s Hin%elem_of_nil|eexists; split; [done|done]|done]. }
  destruct (seen_spec w key b b1 s all Hs Hr) as (-> & Hw1 & Hp1 & Hr1).
  destruct (process events b1) as [[b2 log2] ok2] eqn:Hp2. injection Hp as <- <- <-.
  destruct (IH b1 log2 _ Hp2 Hr1) as (Hw2 & Hpv2 & Hlog & (rest & Hrest & Hok) & Hr2).
  rewrite Hp1 in *. split_and!; [congruence|congruence| | |].
  - intros k s [[= -> ->]|Hin]%elem_of_cons; [done|by apply Hlog].
  - exists rest. cbn. by rewrite Hrest.
  - intros Htrue. rewrite observed_cons, app_assoc. by apply Hr2.
Qed.

Lemma observed_keys events k : k ∈ (observed events).*2 -> k ∈ events.*2 /\ k <> "".
Proof.
  intros (x & -> & Hx)%list_elem_of_fmap. apply list_elem_of_omap in Hx as ([w key] & Hin & He).
  unfold observation in He. cbn in He. repeat case_match; try done. injection He as <-. cbn.
  split; [by apply (list_elem_of_fmap_2 snd) in Hin|]. by apply String.eqb_neq.
Qed.

Lemma carry_eq cursor w b :
  bk_window_start b = w -> bk_previous b = bk_previous (load cursor w) -> carry b = carry (load cursor w).
Proof. intros Hw Hp. unfold carry. by rewrite Hw, Hp. Qed.

Lemma instant_opt_text next t : instant_opt next = Ok (Some t) -> exists s, next = Some s /\ s <> "".
Proof. destruct next as [s|]; [|done]. intros Hi. exists s. split; [done|]. by intros ->. Qed.

(** What the next cycle loads of what [dump] wrote. *)
Lemma dump_loads next b m cursor k :
  dump next b = Ok m -> bk_previous b = bk_previous (load cursor (bk_window_start b)) ->
  k ∈ bk_previous (load (Some m) next) -> k ∈ (bk_recent b).*2 \/ k ∈ bk_previous b.
Proof.
  intros Hd Hp. unfold dump in Hd. destruct (instant_opt next) as [[bound|]|] eqn:Hi; cbn in Hd; [|injection Hd as <-; by rewrite load_nothing|done].
  destruct (instant_opt_text next bound Hi) as (n & -> & Hn).
  destruct (choose_keys _ MAX_KEYS []) as [|k0 ks] eqn:Ec; injection Hd as <-.
  - case_bool_decide as Hw; [|by rewrite load_nothing].
    rewrite (carry_eq cursor (bk_window_start b) b) by done. rewrite Hw, carry_reload, <- Hp. by right.
  - intros Hk. apply load_memory in Hk as [Hk _]; [|done]. rewrite <- Ec in Hk.
    apply choose_keys_sub in Hk as [Hk|Hk]; [by apply elem_of_nil in Hk|]. left.
    apply list_elem_of_fmap in Hk as (x & -> & Hx). apply list_elem_of_fmap_2.
    rewrite reverse_Permutation, sort_items_perm in Hx. by apply list_elem_of_filter in Hx as [_ ?].
Qed.

Lemma dump_keeps next b m bound t k :
  dump next b = Ok m -> instant_opt next = Ok (Some bound) ->
  (length (filter (fun i => (bound <= i.1)%Z) (bk_recent b)) <= MAX_KEYS)%nat ->
  (t, k) ∈ bk_recent b -> bound <= t -> k <> "" -> k ∈ bk_previous (load (Some m) next).
Proof.
  intros Hd Hi Hl Hin Ht Hk. unfold dump in Hd. rewrite Hi in Hd. cbn in Hd.
  destruct (instant_opt_text next bound Hi) as (n & -> & Hn).
  assert (k ∈ choose_keys (reverse (sort_items (filter (fun i => bound <= i.1) (bk_recent b)))) MAX_KEYS []) as Hc.
  { apply choose_keys_all; [by rewrite length_reverse, sort_items_perm|]. apply (list_elem_of_fmap_2' snd _ (t, k)); [|done].
    rewrite reverse_Permutation, sort_items_perm. by apply list_elem_of_filter. }
  destruct (choose_keys _ MAX_KEYS []) as [|k0 ks]; [by apply elem_of_nil in Hc|]. injection Hd as <-.
  by apply load_memory.
Qed.

Lemma dump_bounded next b m :
  dump next b = Ok m ->
  m = [] \/ (m = carry b /\ next = bk_window_start b) \/
  exists w keys, next = Some w /\ m = memory w keys /\ NoDup keys /\ (length keys <= MAX_KEYS)%nat.
Proof.
  unfold dump. destruct (instant_opt next) as [[bound|]|] eqn:Hi; cbn; [|intros [= <-]; by left|done].
  destruct (instant_opt_text next bound Hi) as (n & -> & Hn).
  pose proof (choose_keys_bound (reverse (sort_items (filter (fun i => bound <= i.1) (bk_recent b)))) MAX_KEYS [] (NoDup_nil_2)) as [Hd Hl].
  destruct (choose_keys _ MAX_KEYS []) as [|k0 ks]; intros [= <-].
  - case_bool_decide; [right; left; done|by left].
  - right; right. exists n, (k0 :: ks). done.
Qed.
End cycle_lemmas.

(** ** No loss, no repetition *)

Section theorems.
Context `{FromIso}.

(** Every key the next cycle would skip was emitted by a finished cycle. *)
Definition memory_justified (st : cycle_state) (emitted : list string) : Prop :=
  forall k, k ∈ bk_previous (load (Some st.2) st.1) -> k ∈ emitted.

Lemma skips_true previous k : skips previous k = true <-> k <> "" /\ k ∈ previous.
Proof.
  unfold skips. rewrite andb_true_iff, negb_true_iff, bool_decide_eq_true. by rewrite String.eqb_neq.
Qed.

(** A cycle that does not finish leaves the memory as it is. *)
Lemma cycle_unfinished c st st' log :
  cycle c st = (st', log, false) ->
  st'.1 = st.1 /\ forall k, k ∈ bk_previous (load (Some st'.2) st'.1) <-> k ∈ bk_previous (load (Some st.2) st.1).
Proof.
  unfold cycle. destruct (process c.1 _) as [[b lg] ok] eqn:Hp. intros Hc.
  destruct (process_spec _ _ _ _ _ [] Hp (retains_refl [])) as (Hw & Hpv & _).
  destruct ok; [|by injection Hc as <- <-]. destruct c.2 as [next| |]; [|injection Hc as <- <-|by injection Hc as <- <-].
  - destruct (dump next b); [done|by injection Hc as <- <-].
  - split; [done|]. intros k. cbn [fst snd]. rewrite (carry_eq (Some st.2) st.1 b Hw Hpv). apply carry_reload.
Qed.

Lemma cycle_finished c st st' log :
  cycle c st = (st', log, true) ->
  exists next b, c.2 = Finish next /\ process c.1 (load (Some st.2) st.1) = (b, log, true) /\
    dump next b = Ok st'.2 /\ st'.1 = next.
Proof.
  unfold cycle. destruct (process c.1 _) as [[b lg] ok] eqn:Hp. destruct ok; [|done].
  destruct c.2 as [next| |]; [|done|done]. destruct (dump next b) eqn:Hd; [|done].
  intros [= <- <-]. exists next, b. done.
Qed.

Lemma cycle_log c st k s :
  (k, s) ∈ (cycle c st).1.2 -> s = skips (bk_previous (load (Some st.2) st.1)) k.
Proof.
  unfold cycle. destruct (process c.1 _) as [[b lg] ok] eqn:Hp.
  destruct (process_spec _ _ _ _ _ [] Hp (retains_refl [])) as (_ & _ & Hlog & _).
  assert ((cycle c st).1.2 = lg) as Hl. { unfold cycle. rewrite Hp. by repeat case_match. }
  unfold cycle in Hl. rewrite Hp in Hl. rewrite Hl. apply Hlog.
Qed.

Lemma cycle_justified c st st' log fin emitted :
  cycle c st = (st', log, fin) -> memory_justified st emitted ->
  memory_justified st' (if fin then emitted ++ (filter (fun e => e.2 = false) log).*1 else emitted).
Proof.
  intros Hc Hm. destruct fin; cycle 1.
  { intros k Hk. apply (cycle_unfinished _ _ _ _ Hc) in Hk. by apply Hm. }
  destruct (cycle_finished _ _ _ _ Hc) as (next & b & _ & Hp & Hd & Hn).
  destruct (process_spec _ _ _ _ _ [] Hp (retains_refl [])) as (Hw & Hpv & Hlog & (rest & Hrest & Hok) & Hr).
  destruct (Hr eq_refl) as [Hsub _]. rewrite (Hok eq_refl), app_nil_r in Hrest.
  intros k Hk. rewrite Hn in Hk. apply elem_of_app.
  assert (bk_previous b = bk_previous (load (Some st.2) (bk_window_start b))) as Hpb by (by rewrite Hw).
  destruct (dump_loads next b st'.2 (Some st.2) k Hd Hpb Hk) as [Hr'|Hr']; [|left; rewrite Hpv in Hr'; by apply Hm].
  assert (k ∈ (observed c.1).*2) as Hob.
  { apply list_elem_of_fmap in Hr' as (x & -> & Hx). apply list_elem_of_fmap_2. by eapply elem_of_submseteq. }
  apply observed_keys in Hob as [Hob Hne]. rewrite Hrest in Hob. apply list_elem_of_fmap in Hob as ([k' s] & -> & Hin). cbn in *.
  pose proof (Hlog _ _ Hin) as Hs. destruct s; [left|right].
  - apply Hm. symmetry in Hs. by apply skips_true in Hs as [_ ?].
  - apply (list_elem_of_fmap_2' fst _ (k', false)); [|done]. by apply list_elem_of_filter.
Qed.

(** [skip_is_safe] (the boundary memory loses nothing).  However cycles
    succeed, fail or resume, and however the window moves, an event is skipped
    only if an earlier finished cycle emitted an event with the same key. *)
Theorem skip_is_safe cs c window k :
  let run := cycles cs (window, []) [] in
  (k, true) ∈ (cycle c run.1).1.2 -> k ∈ run.2.
Proof.
  assert (forall st emitted, memory_justified st emitted -> let run := cycles cs st emitted in memory_justified run.1 run.2) as Hinv.
  { induction cs as [|c' cs IH]; intros st emitted Hm; [done|]. cbn.
    destruct (cycle c' st) as [[st' log] fin] eqn:Hc. apply IH. by eapply cycle_justified. }
  intros run Hk. apply cycle_log in Hk. symmetry in Hk. apply skips_true in Hk as [_ Hk].
  apply (Hinv (window, []) []); [|done]. intros x. by rewrite load_nothing.
Qed.

Lemma unfinished_cycles cs st emitted k :
  Forall (fun c => match c.2 with Finish _ => False | _ => True end) cs ->
  k ∈ bk_previous (load (Some st.2) st.1) ->
  k ∈ bk_previous (load (Some (cycles cs st emitted).1.2) (cycles cs st emitted).1.1).
Proof.
  intros Hf. revert st emitted. induction Hf as [|c cs Hc _ IH]; intros st emitted Hk; [done|]. cbn.
  destruct (cycle c st) as [[st' log] fin] eqn:E. apply IH. destruct fin.
  - destruct (cycle_finished _ _ _ _ E) as (next & b & He & _). by rewrite He in Hc.
  - by apply (cycle_unfinished _ _ _ _ E).
Qed.

(** C38 [no_reemission] (a boundary event goes out once).  When a cycle finishes
    and at most [MAX_KEYS] of its observations fall at or after the start of the
    next window, each of those events is skipped by the next cycle, and by every
    cycle that retries or resumes that window, if the vendor returns it again. *)
Theorem no_reemission events next bound st st' log t k retries emitted c s :
  cycle (events, Finish next) st = (st', log, true) ->
  instant_opt next = Ok (Some bound) ->
  (length (filter (fun i => (bound <= i.1)%Z) (observed events)) <= MAX_KEYS)%nat ->
  (t, k) ∈ observed events -> bound <= t ->
  Forall (fun c => match c.2 with Finish _ => False | _ => True end) retries ->
  (k, s) ∈ (cycle c (cycles retries st' emitted).1).1.2 -> s = true.
Proof.
  intros Hc Hi Hl Hin Ht Hf Hs. apply cycle_log in Hs as ->. apply skips_true.
  assert (k <> "") as Hk by (apply (list_elem_of_fmap_2 snd) in Hin; by apply observed_keys in Hin as [_ ?]).
  split; [done|]. apply unfinished_cycles; [done|].
  destruct (cycle_finished _ _ _ _ Hc) as (n & b & [= <-] & Hp & Hd & Hn). rewrite Hn.
  destruct (process_spec _ _ _ _ _ [] Hp (retains_refl [])) as (_ & _ & _ & _ & Hr).
  destruct (Hr eq_refl) as [Hsub Hkeep]. cbn in Hsub, Hkeep.
  eapply dump_keeps; [exact Hd|exact Hi| |by apply (Hkeep bound)|done|done].
  etrans; [by apply filter_submseteq|exact Hl].
Qed.
End theorems.

(** ** Witnesses and divergences *)

Section examples.

#[local] Instance demo_from_iso : FromIso := fun s =>
  if String.eqb s "2026-10-01T00:00:05" then Some (5, None)
  else if String.eqb s "2026-10-01T00:00:08+00:00" then Some (8, Some 0)
  else if String.eqb s "0001-01-01T00:00:00+01:00" then Some (0, Some 3600000000)
  else None.

Definition demo_events : list (moment * string) :=
  [(MTime 6 None, "a"); (MValue (PStr "2026-10-01T00:00:08Z"), "b"); (MTime 9 (Some 1), "c"); (MValue PNone, "d")].

Definition demo_finish : list (moment * string) * cycle_end := (demo_events, Finish (Some "2026-10-01T00:00:08Z")).

Lemma skip_is_safe_witness :
  let st := cycles [demo_finish] (Some "2026-10-01T00:00:05", []) [] in
  ("c", true) ∈ (cycle (demo_events, Failed) st.1).1.2 /\ "c" ∈ st.2.
Proof.
  assert (("c", true) ∈ (cycle (demo_events, Failed) (cycles [demo_finish] (Some "2026-10-01T00:00:05", []) []).1).1.2) as Hc
    by (vm_compute; right; right; left).
  split; [exact Hc|].
  apply (skip_is_safe [demo_finish] (demo_events, Failed) (Some "2026-10-01T00:00:05") "c" Hc).
Defined.

Lemma no_reemission_witness :
  let st' := (cycle demo_finish (Some "2026-10-01T00:00:05", [])).1.1 in
  observed demo_events = [(6, "a"); (8, "b"); (8, "c")] /\
  (cycle (demo_events, Failed) st').1.2 = [("a", false); ("b", true); ("c", true); ("d", false)] /\
  forall s, ("b", s) ∈ (cycle (demo_events, Failed) (cycles [([], Resume)] st' []).1).1.2 -> s = true.
Proof.
  split; [vm_compute; reflexivity|]. split; [vm_compute; reflexivity|]. intros s.
  apply (no_reemission demo_events (Some "2026-10-01T00:00:08Z") 8 (Some "2026-10-01T00:00:05", [])
           (cycle demo_finish (Some "2026-10-01T00:00:05", [])).1.1 (cycle demo_finish (Some "2026-10-01T00:00:05", [])).1.2
           8 "b" [([], Resume)] [] (demo_events, Failed) s).
  - vm_compute. reflexivity.
  - vm_compute. reflexivity.
  - vm_compute. lia.
  - vm_compute. right. left.
  - lia.
  - apply Forall_cons. split; [exact I|apply Forall_nil_2].
Defined.

(** The pruning keeps the [MAX_KEYS] most recent observations, not keys: with
    one key repeated, a boundary event is forgotten although the memory would
    hold two keys, and it is emitted again. *)
Lemma repeated_key_evicts_another :
  let events := (MTime 5 None, "b") :: repeat (MTime 6 None, "a") 1000 in
  let st' := (cycle (events, Finish (Some "2026-10-01T00:00:05")) (None, [])).1.1 in
  dget "keys" (dict_items (dget CURSOR_KEY st'.2)) = PList [PStr "a"] /\
  (cycle ([(MTime 5 None, "b")], Failed) st').1.2 = [("b", false)].
Proof. vm_compute. split; reflexivity. Qed.

(** [_parse_iso_utc_naive] is documented never to raise: an instant before year
    1 in UTC does. *)
Lemma parse_iso_raises : parse_iso_utc_naive "0001-01-01T00:00:00+0100" = Raise EOverflow.
Proof. reflexivity. Qed.
End examples.
