(* ===== verification/Radix.v ===== *)
(** * Longest-prefix lookup of addresses

    Models [collectors/enrich/radix.py]: the binary tree of IP prefixes behind
    the CIDR tables of the enrichment.  Parsing addresses and networks
    ([ipaddress]) is a parameter with its documented bounds.  The reference is a
    scan of all the rows. *)

From S2P Require Import Prelude PyVal.

Local Open Scope string_scope.
Local Open Scope list_scope.
Local Open Scope Z_scope.

(** ** Addresses and networks *)

Inductive ip_version := V4 | V6.
#[export] Instance ip_version_eq_dec : EqDecision ip_version.
Proof. solve_decision. Defined.

#[export] Instance ip_version_countable : Countable ip_version.
Proof.
  refine (inj_countable' (fun v => match v with V4 => true | V6 => false end)
            (fun b : bool => if b then V4 else V6) _). by intros [].
Defined.

(** [max_prefixlen]. *)
Definition max_prefixlen (v : ip_version) : nat := match v with V4 => 32 | V6 => 128 end.

Record network := Network {
  net_version : ip_version;
  network_address : Z;
  prefixlen : nat;
}.

(** [ipaddress.ip_network(text, strict=False)] and [ipaddress.ip_address(text)];
    [None] is [ValueError]. *)
Class IpAddress := {
  ip_network : string -> option network;
  ip_address : string -> option (Z * ip_version);
}.
Class IpAddressLaws `{IpAddress} := {
  ip_network_range s n : ip_network s = Some n ->
    0 <= network_address n < 2 ^ Z.of_nat (max_prefixlen (net_version n)) /\
    (prefixlen n <= max_prefixlen (net_version n))%nat;
  ip_address_range s a v : ip_address s = Some (a, v) -> 0 <= a < 2 ^ Z.of_nat (max_prefixlen v);
}.

Section radix.
Context `{IpAddress}.

Definition parse_network (text : string) : option network := ip_network (str_strip text).
Definition ip_to_bits (text : string) : option (Z * ip_version) := ip_address (str_strip text).

(** ** The tree *)

(** [_Node]; [NoNode] is the [None] of a missing child, [None] the sentinel
    of a node without a value. *)
Inductive node :=
| NoNode
| Node (value : option pyval) (child0 child1 : node).

Definition empty_node : node := Node None NoNode NoNode.

(** [(addr >> (bits - 1 - i)) & 1] for the first [n] values of [i]. *)
Definition address_bits (addr : Z) (bits n : nat) : list bool :=
  (fun i => Z.testbit addr (Z.of_nat (bits - 1 - i))) <$> seq 0 n.

(** The descent of [insert], creating the missing nodes; whether the value is
    the first of its node. *)
Fixpoint insert_at (path : list bool) (value : pyval) (t : node) : node * bool :=
  let '(v, c0, c1) := match t with Node v c0 c1 => (v, c0, c1) | NoNode => (None, NoNode, NoNode) end in
  match path with
  | [] => (Node (Some value) c0 c1, match v with None => true | Some _ => false end)
  | false :: path' => let '(c, new) := insert_at path' value c0 in (Node v c c1, new)
  | true :: path' => let '(c, new) := insert_at path' value c1 in (Node v c0 c, new)
  end.

Record radix_tree := RadixTree {
  root4 : node;
  root6 : node;
  entry_count : Z;
  approx_bytes : Z;
}.

Definition empty_tree : radix_tree := RadixTree empty_node empty_node 0 0.

Definition root (v : ip_version) (t : radix_tree) : node := match v with V4 => root4 t | V6 => root6 t end.

Definition insert (cidr : string) (value : pyval) (t : radix_tree) : radix_tree * bool :=
  match parse_network cidr with
  | None => (t, false)
  | Some net =>
      let path := address_bits (network_address net) (max_prefixlen (net_version net)) (prefixlen net) in
      let '(node, new) := insert_at path value (root (net_version net) t) in
      let count := entry_count t + (if new : bool then 1 else 0) in
      let bytes := approx_bytes t + Z.of_nat (String.length cidr)
                   + 120 * Z.max (Z.of_nat (prefixlen net)) 1 / 8 + 64 in
      (match net_version net with
       | V4 => RadixTree node (root6 t) count bytes
       | V6 => RadixTree (root4 t) node count bytes
       end, true)
  end.

(** The loop of [search], after the root: the last value seen. *)
Fixpoint search_at (path : list bool) (t : node) (best : option pyval) : option pyval :=
  match t with
  | NoNode => best
  | Node v c0 c1 =>
      let best := match v with Some _ => v | None => best end in
      match path with
      | [] => best
      | b :: path' => search_at path' (if b : bool then c1 else c0) best
      end
  end.

Definition search (ip : string) (t : radix_tree) : option pyval :=
  match ip_to_bits ip with
  | None => None
  | Some (addr, version) =>
      let bits := max_prefixlen version in search_at (address_bits addr bits bits) (root version t) None
  end.

(** [from_rows]: the tree and the number of invalid rows.  The keys are texts. *)
Definition insert_row (st : radix_tree * Z) (row : string * pyval) : radix_tree * Z :=
  let '(t, ok) := insert row.1 row.2 st.1 in (t, if ok : bool then st.2 else st.2 + 1).
Definition from_rows (rows : list (string * pyval)) : radix_tree * Z := foldl insert_row (empty_tree, 0) rows.

(** [iter_prefixes] walks depth first, naming a node by its bits. *)
Definition bit_char (b : bool) : string := if b then "1" else "0".
Fixpoint walk (t : node) (prefix : string) (version : ip_version) : list (string * pyval) :=
  match t with
  | NoNode => []
  | Node v c0 c1 =>
      (match v with
       | Some x => [(if String.eqb prefix "" then match version with V4 => "0.0.0.0/0" | V6 => "::/0" end else prefix, x)]
       | None => []
       end) ++ walk c0 (prefix +:+ "0")%string version ++ walk c1 (prefix +:+ "1")%string version
  end.
Definition iter_prefixes (t : radix_tree) : list (string * pyval) := walk (root4 t) "" V4 ++ walk (root6 t) "" V6.

(** ** The reference: scan the rows *)

(** [addr in net]. *)
Definition contains (net : network) (addr : Z) (version : ip_version) : bool :=
  bool_decide (net_version net = version) &&
  (let host := Z.of_nat (max_prefixlen version - prefixlen net) in
   Z.shiftr addr host =? Z.shiftr (network_address net) host).

(** The most specific row so far; a later row wins a tie. *)
Definition better (addr : Z) (version : ip_version) (best : option (nat * pyval)) (row : string * pyval)
  : option (nat * pyval) :=
  match parse_network row.1 with
  | Some net =>
      if contains net addr version &&
         match best with Some (n, _) => (n <=? prefixlen net)%nat | None => true end
      then Some (prefixlen net, row.2) else best
  | None => best
  end.

Definition longest_prefix (rows : list (string * pyval)) (ip : string) : option pyval :=
  match ip_to_bits ip with
  | None => None
  | Some (addr, version) => snd <$> foldl (better addr version) None rows
  end.
End radix.

(** ** The tree as a finite map from bit strings *)

Fixpoint value_at (path : list bool) (t : node) : option pyval :=
  match t with
  | NoNode => None
  | Node v c0 c1 => match path with [] => v | b :: path' => value_at path' (if b : bool then c1 else c0) end
  end.

Lemma value_at_empty q : value_at q empty_node = None.
Proof. by destruct q as [|[] [|]]. Qed.

(** A missing node behaves as an empty one. *)
Lemma insert_at_missing p x : insert_at p x NoNode = insert_at p x empty_node.
Proof. by destruct p. Qed.

Lemma insert_at_cons b p x v c0 c1 :
  insert_at (b :: p) x (Node v c0 c1) =
  if b then (Node v c0 (insert_at p x c1).1, (insert_at p x c1).2)
  else (Node v (insert_at p x c0).1 c1, (insert_at p x c0).2).
Proof. by destruct b; cbn; [destruct (insert_at p x c1)|destruct (insert_at p x c0)]. Qed.

Lemma insert_at_value p x t q :
  value_at q (insert_at p x t).1 = if decide (p = q) then Some x else value_at q t.
Proof.
  revert t q. induction p as [|b p IH]; intros t q.
  - destruct t as [|v c0 c1], q as [|[] [|]]; done.
  - assert (forall v c0 c1, value_at q (insert_at (b :: p) x (Node v c0 c1)).1 =
              if decide (b :: p = q) then Some x else value_at q (Node v c0 c1)) as Hn.
    { intros v c0 c1. rewrite insert_at_cons.
      destruct b, q as [|[] q]; cbn [fst value_at]; rewrite ?IH; repeat case_decide; simplify_eq; done. }
    destruct t as [|v c0 c1]; [|apply Hn]. rewrite insert_at_missing. unfold empty_node. rewrite Hn.
    case_decide; [done|]. fold empty_node. by rewrite value_at_empty; destruct q.
Qed.

Lemma insert_at_new p x t : (insert_at p x t).2 = match value_at p t with None => true | Some _ => false end.
Proof.
  revert t. induction p as [|b p IH]; intros t; [by destruct t|].
  assert (forall v c0 c1, (insert_at (b :: p) x (Node v c0 c1)).2 =
            match value_at (b :: p) (Node v c0 c1) with None => true | Some _ => false end) as Hn.
  { intros v c0 c1. rewrite insert_at_cons. destruct b; cbn [snd value_at]; apply IH. }
  destruct t as [|v c0 c1]; [|apply Hn]. rewrite insert_at_missing. unfold empty_node. rewrite Hn. fold empty_node. by rewrite value_at_empty.
Qed.

(** [search_at] returns the value of the longest prefix that has one. *)
Lemma search_at_none path t best :
  (forall n, (n <= length path)%nat -> value_at (take n path) t = None) -> search_at path t best = best.
Proof.
  revert t best. induction path as [|b path IH]; intros t best Hn; destruct t as [|v c0 c1]; cbn; try done.
  - specialize (Hn 0%nat ltac:(cbn; lia)). cbn in Hn. by subst.
  - pose proof (Hn 0%nat ltac:(cbn; lia)) as H0. cbn in H0. subst v. apply IH. intros n Hl.
    specialize (Hn (S n) ltac:(cbn; lia)). by destruct b.
Qed.

Lemma search_at_longest path t best n x :
  (n <= length path)%nat -> value_at (take n path) t = Some x ->
  (forall m, (n < m <= length path)%nat -> value_at (take m path) t = None) -> search_at path t best = Some x.
Proof.
  revert t best n. induction path as [|b path IH]; intros t best n Hl Hx Hn; destruct t as [|v c0 c1];
    try (rewrite take_nil in Hx); cbn in *; try done; [by subst|by destruct n|].
  destruct n as [|n].
  - cbn in Hx. subst v. apply search_at_none. intros m Hm. specialize (Hn (S m) ltac:(lia)). by destruct b.
  - apply (IH _ _ n); [lia|by destruct b|]. intros m Hm. specialize (Hn (S m) ltac:(lia)). by destruct b.
Qed.

(** ** Prefixes of an address *)

Lemma length_address_bits addr bits n : length (address_bits addr bits n) = n.
Proof. unfold address_bits. by rewrite length_fmap, length_seq. Qed.

Lemma take_address_bits addr bits n m :
  (n <= m)%nat -> take n (address_bits addr bits m) = address_bits addr bits n.
Proof.
  intros Hn. unfold address_bits. rewrite <- fmap_take. f_equal. rewrite take_seq. f_equal. lia.
Qed.

(** Same first [n] bits, seen as text or as a shifted integer. *)
Lemma address_bits_shift a b bits n :
  (n <= bits)%nat -> 0 <= a < 2 ^ Z.of_nat bits -> 0 <= b < 2 ^ Z.of_nat bits ->
  address_bits a bits n = address_bits b bits n <->
  Z.shiftr a (Z.of_nat (bits - n)) = Z.shiftr b (Z.of_nat (bits - n)).
Proof.
  intros Hn Ha Hb. split.
  - intros He. apply Z.bits_inj'. intros k Hk. rewrite !Z.shiftr_spec by done.
    destruct (decide (k < Z.of_nat n)) as [Hlt|Hge].
    + assert (address_bits a bits n !! (n - 1 - Z.to_nat k)%nat = address_bits b bits n !! (n - 1 - Z.to_nat k)%nat) as Hi by (by rewrite He).
      unfold address_bits in Hi. rewrite !list_lookup_fmap, !lookup_seq_lt in Hi by lia. cbn in Hi. injection Hi as Hi.
      by replace (Z.of_nat (bits - 1 - (n - 1 - Z.to_nat k))) with (k + Z.of_nat (bits - n)) in Hi by lia.
    + assert (forall x, 0 <= x < 2 ^ Z.of_nat bits -> Z.testbit x (k + Z.of_nat (bits - n)) = false) as Hz.
      { intros x [Hx0 Hx]. destruct (decide (x = 0)) as [->|]; [by rewrite Z.testbit_0_l|].
        apply Z.bits_above_log2; [done|]. apply Z.log2_lt_pow2 in Hx; lia. }
      by rewrite !Hz.
  - intros He. unfold address_bits. apply list_fmap_ext. intros j i Hi.
    apply lookup_seq in Hi as [-> Hi]. cbn.
    assert (forall x, Z.testbit x (Z.of_nat (bits - 1 - j)) = Z.testbit (Z.shiftr x (Z.of_nat (bits - n))) (Z.of_nat (n - 1 - j))) as Hs.
    { intros x. rewrite Z.shiftr_spec by lia. f_equal. lia. }
    by rewrite !Hs, He.
Qed.

(** ** Refinement *)

Section theorems.
Context `{IpAddressLaws}.

Definition network_bits (net : network) : list bool :=
  address_bits (network_address net) (max_prefixlen (net_version net)) (prefixlen net).

Lemma contains_prefix s net addr version :
  parse_network s = Some net -> 0 <= addr < 2 ^ Z.of_nat (max_prefixlen version) ->
  contains net addr version = true <->
  net_version net = version /\
  network_bits net = address_bits addr (max_prefixlen version) (prefixlen net).
Proof.
  intros [Hr Hl]%ip_network_range Ha. unfold contains, network_bits.
  rewrite andb_true_iff, bool_decide_eq_true, Z.eqb_eq. split.
  - intros [<- He]. split; [done|]. by apply address_bits_shift.
  - intros [<- He]. split; [done|]. by apply address_bits_shift.
Qed.

Lemma insert_root cidr value t version q :
  value_at q (root version (insert cidr value t).1) =
  match parse_network cidr with
  | Some net => if decide (net_version net = version /\ network_bits net = q) then Some value
                else value_at q (root version t)
  | None => value_at q (root version t)
  end.
Proof.
  unfold insert. destruct (parse_network cidr) as [net|]; [|done]. fold (network_bits net).
  pose proof (insert_at_value (network_bits net) value (root (net_version net) t)) as Hv.
  destruct (insert_at (network_bits net) value (root (net_version net) t)) as [c new]. cbn [fst] in Hv |- *.
  destruct (decide (net_version net = version)) as [<-|Hne].
  - assert (root (net_version net) (match net_version net with
              | V4 => RadixTree c (root6 t) (entry_count t + (if new : bool then 1 else 0)) (approx_bytes t + Z.of_nat (String.length cidr) + 120 * Z.max (Z.of_nat (prefixlen net)) 1 / 8 + 64)
              | V6 => RadixTree (root4 t) c (entry_count t + (if new : bool then 1 else 0)) (approx_bytes t + Z.of_nat (String.length cidr) + 120 * Z.max (Z.of_nat (prefixlen net)) 1 / 8 + 64)
              end) = c) as -> by (by destruct (net_version net)).
    rewrite Hv. repeat case_decide; naive_solver.
  - rewrite decide_False by naive_solver. by destruct (net_version net), version.
Qed.

(** The best row of the reference is the longest prefix of the tree. *)
Definition agrees (t : radix_tree) (addr : Z) (version : ip_version) (best : option (nat * pyval)) : Prop :=
  let at_ n := value_at (address_bits addr (max_prefixlen version) n) (root version t) in
  match best with
  | None => forall n, (n <= max_prefixlen version)%nat -> at_ n = None
  | Some (n, x) =>
      (n <= max_prefixlen version)%nat /\ at_ n = Some x /\
      forall m, (n < m <= max_prefixlen version)%nat -> at_ m = None
  end.

Lemma agrees_insert t addr version best row :
  0 <= addr < 2 ^ Z.of_nat (max_prefixlen version) -> agrees t addr version best ->
  agrees (insert row.1 row.2 t).1 addr version (better addr version best row).
Proof.
  intros Ha Hb. destruct row as [cidr x]. unfold better. cbn [fst snd]. unfold agrees in *.
  cbv zeta in *. pose proof (insert_root cidr x t version) as Hroot.
  destruct (parse_network cidr) as [net|] eqn:Hp; [|destruct best as [[n y]|]; by setoid_rewrite Hroot].
  destruct (contains net addr version) eqn:Hc.
  - destruct (proj1 (contains_prefix _ _ _ _ Hp Ha) Hc) as [Hv Hq]. pose proof (proj2 (ip_network_range _ _ Hp)) as Hl.
    rewrite Hv in Hl.
    assert (forall m, address_bits addr (max_prefixlen version) m = network_bits net -> m = prefixlen net) as Hm.
    { intros m He. apply (f_equal length) in He. unfold network_bits in He. by rewrite !length_address_bits in He. }
    cbn [andb]. destruct best as [[n y]|].
    + destruct Hb as (Hn & Hy & Hmax). destruct (Nat.leb_spec n (prefixlen net)).
      * split_and!; [done|by rewrite Hroot, decide_True|]. intros m Hlt. rewrite Hroot, decide_False; [apply Hmax; lia|].
        intros [_ He]. symmetry in He. apply Hm in He. lia.
      * split_and!; [done| |].
        -- rewrite Hroot, decide_False; [done|]. intros [_ He]. symmetry in He. apply Hm in He. lia.
        -- intros m Hlt. rewrite Hroot, decide_False; [by apply Hmax|]. intros [_ He]. symmetry in He. apply Hm in He. lia.
    + split_and!; [done|by rewrite Hroot, decide_True|]. intros m Hlt. rewrite Hroot, decide_False; [apply Hb; lia|].
      intros [_ He]. symmetry in He. apply Hm in He. lia.
  - assert (forall m, (m <= max_prefixlen version)%nat ->
      ~ (net_version net = version /\ network_bits net = address_bits addr (max_prefixlen version) m)) as Hno.
    { intros m Hlm [Hv He]. apply not_true_iff_false in Hc. apply Hc. apply (contains_prefix _ _ _ _ Hp Ha).
      split; [done|]. rewrite He. f_equal. apply (f_equal length) in He. unfold network_bits in He.
      by rewrite !length_address_bits in He. }
    cbn [andb]. destruct best as [[n y]|].
    + destruct Hb as (Hn & Hy & Hmax). split_and!; [done|by rewrite Hroot, decide_False by (by apply Hno)|].
      intros m Hlt. rewrite Hroot, decide_False by (apply Hno; lia). by apply Hmax.
    + intros n Hn. rewrite Hroot, decide_False by (by apply Hno). by apply Hb.
Qed.

Lemma from_rows_snoc rows row : from_rows (rows ++ [row]) = insert_row (from_rows rows) row.
Proof. unfold from_rows. by rewrite foldl_app. Qed.

Lemma from_rows_agrees rows addr version :
  0 <= addr < 2 ^ Z.of_nat (max_prefixlen version) ->
  agrees (from_rows rows).1 addr version (foldl (better addr version) None rows).
Proof.
  intros Ha. induction rows as [|row rows IH] using rev_ind.
  - intros n Hn. cbn [foldl from_rows]. unfold from_rows. cbn [foldl fst root]. destruct version; apply value_at_empty.
  - rewrite from_rows_snoc, foldl_app. cbn [foldl]. unfold insert_row.
    pose proof (agrees_insert (from_rows rows).1 addr version _ row Ha IH) as Hi. by destruct (insert row.1 row.2 _).
Qed.

(** C39 [radix_longest_prefix] (the tree implements longest-prefix lookup).
    For every table and every address text, searching the tree built from the
    rows gives what scanning all the rows gives: the value of the most specific
    network that contains the address, the last row winning when a network is
    repeated, nothing when no network contains it, when its version differs or
    when the text is not an address.  Invalid rows change nothing. *)
Theorem radix_longest_prefix rows ip : search ip (from_rows rows).1 = longest_prefix rows ip.
Proof.
  unfold search, longest_prefix. destruct (ip_to_bits ip) as [[addr version]|] eqn:Hip; [|done].
  pose proof (from_rows_agrees rows addr version (ip_address_range _ _ _ Hip)) as Hag.
  destruct (foldl (better addr version) None rows) as [[n x]|]; cbn.
  - destruct Hag as (Hn & Hx & Hmax). apply (search_at_longest _ _ _ n).
    + by rewrite length_address_bits.
    + by rewrite take_address_bits.
    + intros m Hm. rewrite length_address_bits in Hm. rewrite take_address_bits by lia. by apply Hmax.
  - apply search_at_none. intros n Hn. rewrite length_address_bits in Hn. rewrite take_address_bits by done. by apply Hag.
Qed.

(** The distinct networks of a table. *)
Definition row_key (row : string * pyval) : option (ip_version * list bool) :=
  (fun net => (net_version net, network_bits net)) <$> parse_network row.1.
Definition table_networks (rows : list (string * pyval)) : gset (ip_version * list bool) :=
  list_to_set (omap row_key rows).

Lemma table_networks_snoc rows row :
  table_networks (rows ++ [row]) = match row_key row with Some k => {[k]} | None => ∅ end ∪ table_networks rows.
Proof.
  unfold table_networks. rewrite omap_app, list_to_set_app_L. cbn. destruct (row_key row); cbn; set_solver.
Qed.

Lemma from_rows_domain rows version q :
  value_at q (root version (from_rows rows).1) <> None <-> (version, q) ∈ table_networks rows.
Proof.
  induction rows as [|row rows IH] using rev_ind.
  - unfold table_networks, from_rows. cbn. destruct version; cbn [root empty_tree root4 root6]; rewrite value_at_empty; set_solver.
  - rewrite from_rows_snoc, table_networks_snoc. unfold insert_row, row_key.
    pose proof (insert_root row.1 row.2 (from_rows rows).1 version q) as Hr.
    destruct (insert row.1 row.2 (from_rows rows).1) as [t ok]. cbn [fst] in Hr |- *. rewrite Hr.
    destruct (parse_network row.1) as [net|]; cbn; [|rewrite IH; set_solver].
    case_decide as Hd; [|rewrite IH; set_solver]. destruct Hd as [<- <-]. set_solver.
Qed.

(** [radix_counts].  [entry_count] is the number of distinct networks of the
    table, repeated ones counted once, and the second result of [from_rows] is
    the number of rows whose text is not a network. *)
Theorem radix_counts rows :
  entry_count (from_rows rows).1 = Z.of_nat (size (table_networks rows)) /\
  (from_rows rows).2 = Z.of_nat (length rows) - Z.of_nat (length (omap row_key rows)).
Proof.
  induction rows as [|row rows [IH1 IH2]] using rev_ind; [done|].
  rewrite from_rows_snoc, table_networks_snoc, omap_app, !length_app. unfold insert_row.
  pose proof (from_rows_domain rows) as Hdom. destruct (from_rows rows) as [t invalid]. cbn [fst snd] in *.
  unfold insert. destruct (row_key row) as [[version q]|] eqn:Hk; unfold row_key in Hk;
    destruct (parse_network row.1) as [net|] eqn:Hp; try done; cbn in Hk.
  - injection Hk as <- <-. fold (network_bits net).
    pose proof (insert_at_new (network_bits net) row.2 (root (net_version net) t)) as Hn.
    specialize (Hdom (net_version net) (network_bits net)).
    destruct (insert_at (network_bits net) row.2 (root (net_version net) t)) as [c new]. cbn [snd] in Hn. subst new.
    cbn [fst snd]. unfold row_key at 2. cbn. rewrite Hp. cbn. split; [|lia].
    destruct (value_at (network_bits net) (root (net_version net) t)) as [x|].
    + assert ((net_version net, network_bits net) ∈ table_networks rows) as Hin by (by apply Hdom).
      replace ({[(net_version net, network_bits net)]} ∪ table_networks rows) with (table_networks rows) by set_solver.
      destruct (net_version net); cbn; lia.
    + assert ((net_version net, network_bits net) ∉ table_networks rows) as Hin by (intros Hi; by apply Hdom in Hi).
      rewrite size_union by set_solver. rewrite size_singleton. destruct (net_version net); cbn; lia.
  - cbn. unfold row_key at 2. cbn. rewrite Hp. cbn. split; [|lia]. rewrite IH1. by rewrite (left_id_L ∅ (∪)).
Qed.
End theorems.

(** ** Witness *)

Section examples.

(** A few addresses of one site. *)
#[local] Instance demo_ip : IpAddress := {
  ip_network s :=
    if String.eqb s "10.0.0.0/16" then Some (Network V4 167772160 16)
    else if String.eqb s "10.0.5.0/24" then Some (Network V4 167773440 24)
    else if String.eqb s "0.0.0.0/0" then Some (Network V4 0 0)
    else if String.eqb s "2001:db8::/32" then Some (Network V6 42540766411282592856903984951653826560 32)
    else None;
  ip_address s :=
    if String.eqb s "10.0.5.7" then Some (167773447, V4)
    else if String.eqb s "10.0.9.1" then Some (167774465, V4)
    else if String.eqb s "8.8.8.8" then Some (134744072, V4)
    else if String.eqb s "::1" then Some (1, V6)
    else None;
}.

#[local] Instance demo_ip_laws : IpAddressLaws.
Proof.
  split.
  - intros s n. cbn. repeat case_match; intros [= <-]; cbn; lia.
  - intros s a v. cbn. repeat case_match; intros [= <- <-]; cbn; lia.
Qed.

Definition demo_rows : list (string * pyval) :=
  [("10.0.5.0/24", PStr "branch"); ("10.0.0.0/16", PStr "head office"); ("bad", PNone);
   (" 10.0.5.0/24", PStr "branch SP"); ("2001:db8::/32", PStr "v6")].

Lemma radix_longest_prefix_witness :
  search "10.0.5.7" (from_rows demo_rows).1 = Some (PStr "branch SP") /\
  search "10.0.9.1" (from_rows demo_rows).1 = Some (PStr "head office") /\
  search "8.8.8.8" (from_rows demo_rows).1 = longest_prefix demo_rows "8.8.8.8".
Proof.
  split; [vm_compute; reflexivity|]. split; [vm_compute; reflexivity|].
  apply (radix_longest_prefix demo_rows "8.8.8.8").
Defined.

Lemma radix_counts_witness :
  (from_rows demo_rows).2 = 1 /\ entry_count (from_rows demo_rows).1 = Z.of_nat (size (table_networks demo_rows)).
Proof. split; [vm_compute; reflexivity|]. apply (radix_counts demo_rows). Defined.

(** [iter_prefixes] names a stored prefix by its bits, except the default one. *)
Lemma iter_prefixes_bits :
  iter_prefixes (from_rows [("10.0.0.0/16", PStr "a"); ("0.0.0.0/0", PStr "b")]).1 =
  [("0.0.0.0/0", PStr "b"); ("0000101000000000", PStr "a")].
Proof. reflexivity. Qed.
End examples.
