(* ===== verification/Inflight.v ===== *)
(** * In-flight detection: rules over one event

    Models [collectors/inflight/matcher.py] and the clause compiler of
    [collectors/inflight/runtime.py].  Operators are those of the routing
    conditions ([Conditions.compare_values]).  Logging is left out; the caps read
    from the settings are arguments. *)

From S2P Require Import Prelude PyVal Conditions Operators.

Local Open Scope string_scope.
Local Open Scope list_scope.
Local Open Scope Z_scope.

(** ** Compiled rules *)

(** The right-hand side of a clause: a [frozenset] when the list given hashes,
    any other value (a list of unhashable items stays a sequence). *)
Inductive clause_value :=
| CValue (v : pyval)
| CSet (l : list pyval).

Record compiled_clause := CompiledClause {
  clause_path : list string;
  clause_op : string;
  clause_val : clause_value;
  clause_numeric : bool;
}.

Record compiled_inflight_rule := CompiledInflightRule {
  rule_id : Z;
  rule_name : string;
  rule_severity_id : Z;
  suppression_window_seconds : Z;
  group_by_path : option (list string);
  clauses : list compiled_clause;
  emit_event : bool;
  max_dedup_keys : option Z;
  min_count : Z;
  window_seconds : Z;
  leg_index : option Z;
  legs_total : Z;
  leg_label : string;
  absence : bool;
  forget_seconds : Z;
}.

Record compiled_rule_set := CompiledRuleSet {
  ruleset_rules : list compiled_inflight_rule;
  share_paths : bool;
}.

(** ** Evaluation *)

Fixpoint resolve (cur : pyval) (path : list string) : pyval :=
  match path with
  | [] => cur
  | part :: path' =>
      match cur with
      | PDict d => if is_none (dget part d) then PNone else resolve (dget part d) path'
      | _ => PNone
      end
  end.

Section matcher.
Context `{FloatRepr} `{FloatParse}.

(** [float(v)]. *)
Definition py_float (v : pyval) : result spec_float :=
  match v with
  | PFloat f => Ok f
  | PInt z => match float_of_Z z with S754_infinity _ => Raise EOverflow | f => Ok f end
  | PBool b => Ok (float_of_Z (if b then 1 else 0))
  | PStr s => match float_parse s with Some f => Ok f | None => Raise EValue end
  | _ => Raise EType
  end.

(** [_num] and [_as_float]: [OverflowError] is not among the exceptions caught. *)
Definition as_float (v : pyval) : result (option spec_float) :=
  match py_float v with
  | Ok f => Ok (Some f)
  | Raise EType | Raise EValue => Ok None
  | Raise e => Raise e
  end.
Definition num (v : pyval) : result pyval :=
  f ← as_float v; Ok (match f with Some f => PFloat f | None => PNone end).

(** [compare_values] with a clause's value: membership in a [frozenset] hashes
    the left-hand side. *)
Definition compare_clause (op : string) (actual : pyval) (expected : clause_value) : bool :=
  match expected with
  | CValue v => compare_values op actual v
  | CSet l => if is_none actual || hashable actual then compare_values op actual (PList l) else false
  end.

Definition clause_actual (c : compiled_clause) (resolved : pyval) : result pyval :=
  if clause_numeric c && negb (is_none resolved) then num resolved else Ok resolved.

(** The inner loop, up to its [break]. *)
Fixpoint clauses_match (envelope : pyval) (cs : list compiled_clause) : result bool :=
  match cs with
  | [] => Ok true
  | c :: cs' =>
      actual ← clause_actual c (resolve envelope (clause_path c));
      if compare_clause (clause_op c) actual (clause_val c) then clauses_match envelope cs' else Ok false
  end.

Fixpoint evaluate_inflight (envelope : pyval) (rules : list compiled_inflight_rule)
  : result (list compiled_inflight_rule) :=
  match rules with
  | [] => Ok []
  | r :: rules' =>
      m ← clauses_match envelope (clauses r);
      rest ← evaluate_inflight envelope rules';
      Ok (if m : bool then r :: rest else rest)
  end.



Fixpoint clauses_match_cached (envelope : pyval) (cs : list compiled_clause) (cache : gmap (list string) pyval)
  : result (bool * gmap (list string) pyval) :=
  match cs with
  | [] => Ok (true, cache)
  | c :: cs' =>
      let '(resolved, cache) :=
        match cache !! clause_path c with
        | Some v => (v, cache)
        | None => let v := resolve envelope (clause_path c) in (v, <[clause_path c := v]> cache)
        end in
      actual ← clause_actual c resolved;
      if compare_clause (clause_op c) actual (clause_val c) then clauses_match_cached envelope cs' cache
      else Ok (false, cache)
  end.

Fixpoint evaluate_cached (envelope : pyval) (rules : list compiled_inflight_rule) (cache : gmap (list string) pyval)
  : result (list compiled_inflight_rule) :=
  match rules with
  | [] => Ok []
  | r :: rules' =>
      mc ← clauses_match_cached envelope (clauses r) cache;
      rest ← evaluate_cached envelope rules' mc.2;
      Ok (if mc.1 : bool then r :: rest else rest)
  end.

Definition evaluate_ruleset (envelope : pyval) (ruleset : compiled_rule_set) : result (list compiled_inflight_rule) :=
  if negb (share_paths ruleset) then evaluate_inflight envelope (ruleset_rules ruleset)
  else evaluate_cached envelope (ruleset_rules ruleset) ∅.

(** ** Compilation of the clauses of a [where] *)

Definition INFLIGHT_ALLOWED_OPS : list string :=
  ["eq"; "ne"; "contains"; "gt"; "lt"; "gte"; "lte"; "in"; "nin"; "exists"].
Definition NUMERIC_OPS : list string := ["gt"; "lt"; "gte"; "lte"].
Definition NEGATIVE_OPS : list string := ["ne"; "nin"].

(** One clause: compiled, or the reason it is rejected. *)
Definition compile_clause (c : list (string * pyval)) : result (compiled_clause + string) :=
  let op := py_str (py_or (dget "op" c) (PStr "eq")) in
  if negb (mem op INFLIGHT_ALLOWED_OPS) then Ok (inr "unknown_op")
  else match dget "field" c with
  | PStr field =>
      if String.eqb field "" then Ok (inr "bad_json")
      else
        let path := str_split "." field in
        let value := dget "value" c in
        if mem op ["in"; "nin"] then
          match value with
          | PList l =>
              Ok (inl (CompiledClause path op (if forallb hashable l then CSet l else CValue (PList l)) false))
          | _ => Ok (inr "bad_json")
          end
        else if String.eqb op "exists" then Ok (inl (CompiledClause path op (CValue (PBool (truthy value))) false))
        else if mem op NUMERIC_OPS then
          f ← as_float value;
          Ok (match f with
              | Some f => inl (CompiledClause path op (CValue (PFloat f)) true)
              | None => inr "bad_json"
              end)
        else Ok (inl (CompiledClause path op (CValue value) false))
  | _ => Ok (inr "bad_json")
  end.

(** The loop: stops at the first rejected clause. *)
Fixpoint compile_each (cs : list (list (string * pyval))) : result (list compiled_clause + string) :=
  match cs with
  | [] => Ok (inl [])
  | c :: cs' =>
      k ← compile_clause c;
      match k with
      | inr reason => Ok (inr reason)
      | inl k =>
          rest ← compile_each cs';
          Ok (match rest with inl ks => inl (k :: ks) | inr reason => inr reason end)
      end
  end.

(** [sorted] of a set of paths: tuples compare lexicographically. *)
Fixpoint path_leb (p q : list string) : bool :=
  match p, q with
  | [], _ => true
  | _ :: _, [] => false
  | a :: p', b :: q' =>
      match String.compare a b with Lt => true | Gt => false | Eq => path_leb p' q' end
  end.
Fixpoint insert_path (p : list string) (l : list (list string)) : list (list string) :=
  match l with
  | [] => [p]
  | q :: l' => if path_leb p q then p :: l else q :: insert_path p l'
  end.
Definition sorted_paths (s : gset (list string)) : list (list string) := foldr insert_path [] (elements s).

Definition paths_with (ops : list string) (cs : list compiled_clause) : gset (list string) :=
  list_to_set (clause_path <$> filter (fun c => mem (clause_op c) ops = true) cs).

Definition exists_clause (path : list string) : compiled_clause :=
  CompiledClause path "exists" (CValue (PBool true)) false.

Definition compile_clauses (cap : nat) (clauses_raw : list (list (string * pyval)))
  : result (list compiled_clause + string) :=
  if (cap <? length clauses_raw)%nat then Ok (inr "over_cap")
  else
    compiled ← compile_each clauses_raw;
    Ok (match compiled with
        | inl cs => inl (cs ++ (exists_clause <$> sorted_paths (paths_with NEGATIVE_OPS cs ∖ paths_with ["exists"] cs)))
        | inr reason => inr reason
        end).

(** [share_paths] of [load_inflight_rules_for_org]: some path occurs twice. *)
Fixpoint repeats (ps : list (list string)) (seen : gset (list string)) : bool :=
  match ps with
  | [] => false
  | p :: ps' => bool_decide (p ∈ seen) || repeats ps' ({[p]} ∪ seen)
  end.
Definition shares_paths (rules : list compiled_inflight_rule) : bool :=
  repeats (concat ((fun r => clause_path <$> clauses r) <$> rules)) ∅.
End matcher.

(** ** Evaluation with the cache *)

Section theorems.
Context `{FloatRepr} `{FloatParse}.

Definition cache_sound (envelope : pyval) (cache : gmap (list string) pyval) : Prop :=
  forall p v, cache !! p = Some v -> v = resolve envelope p.

Lemma clauses_cached_spec envelope cs cache :
  cache_sound envelope cache ->
  match clauses_match_cached envelope cs cache with
  | Ok (m, cache') => clauses_match envelope cs = Ok m /\ cache_sound envelope cache'
  | Raise e => clauses_match envelope cs = Raise e
  end.
Proof.
  revert cache. induction cs as [|c cs IH]; intros cache Hs; [done|]. cbn [clauses_match clauses_match_cached].
  set (resolved := resolve envelope (clause_path c)).
  assert (exists cache1, cache_sound envelope cache1 /\
    match cache !! clause_path c with Some v => (v, cache) | None => (resolved, <[clause_path c := resolved]> cache) end
    = (resolved, cache1)) as (cache1 & Hs1 & ->).
  { destruct (cache !! clause_path c) as [v|] eqn:E.
    - exists cache. split; [done|]. apply Hs in E. by subst.
    - eexists. split; [|done]. intros p v. rewrite lookup_insert_Some. intros [[<- <-]|[_ Hp]]; [done|by apply Hs]. }
  destruct (clause_actual c resolved) as [actual|e]; cbn; [|done].
  destruct (compare_clause _ _ _); [apply IH, Hs1|done].
Qed.

(** [ruleset_transparent] (the path cache is invisible).  Whether or not the
    loader decided to share resolved paths, the rules of a set that match an
    event, and the exception raised if one is, are those that evaluating each
    rule alone gives. *)
Theorem ruleset_transparent envelope ruleset :
  evaluate_ruleset envelope ruleset = evaluate_inflight envelope (ruleset_rules ruleset).
Proof.
  unfold evaluate_ruleset. destruct (share_paths ruleset); [cbn|done].
  assert (cache_sound envelope ∅) as Hs by (intros p v; by rewrite lookup_empty).
  revert Hs. generalize (∅ : gmap (list string) pyval). induction (ruleset_rules ruleset) as [|r rules IH]; intros cache Hs; [done|].
  cbn [evaluate_inflight evaluate_cached]. pose proof (clauses_cached_spec envelope (clauses r) cache Hs) as Hc.
  destruct (clauses_match_cached envelope (clauses r) cache) as [[m cache']|e]; cbn.
  - destruct Hc as [-> Hs']. cbn. by rewrite (IH cache' Hs').
  - by rewrite Hc.
Qed.

Lemma evaluate_inflight_elem envelope rules ms r :
  evaluate_inflight envelope rules = Ok ms -> r ∈ ms <-> r ∈ rules /\ clauses_match envelope (clauses r) = Ok true.
Proof.
  revert ms. induction rules as [|r' rules IH]; intros ms; cbn.
  { intros [= <-]. split; [by intros Hn%elem_of_nil|by intros [Hn%elem_of_nil _]]. }
  destruct (clauses_match envelope (clauses r')) as [m|] eqn:Hm; cbn; [|done].
  destruct (evaluate_inflight envelope rules) as [rest|] eqn:Hr; cbn; [|done].
  intros [= <-]. specialize (IH rest eq_refl). destruct m; rewrite ?elem_of_cons, IH; naive_solver congruence.
Qed.

(** ** Negative operators *)

Lemma insert_path_perm p l : insert_path p l ≡ₚ p :: l.
Proof. induction l as [|q l IH]; [done|]. cbn. case_match; [done|]. rewrite IH. apply perm_swap. Qed.
Lemma sorted_paths_elem p s : p ∈ sorted_paths s <-> p ∈ s.
Proof.
  unfold sorted_paths. rewrite <- elem_of_elements. generalize (elements s). intros l.
  assert (foldr insert_path [] l ≡ₚ l) as ->; [|done].
  induction l as [|q l IH]; [done|]. cbn. by rewrite insert_path_perm, IH.
Qed.

Lemma clauses_match_all envelope cs :
  clauses_match envelope cs = Ok true ->
  Forall (fun c => exists actual, clause_actual c (resolve envelope (clause_path c)) = Ok actual /\
            compare_clause (clause_op c) actual (clause_val c) = true) cs.
Proof.
  induction cs as [|c cs IH]; cbn; [by constructor|].
  destruct (clause_actual c _) as [actual|] eqn:Ha; cbn; [|done].
  destruct (compare_clause _ _ _) eqn:Hc; [|done]. intros Hm. constructor; [by exists actual|by apply IH].
Qed.

(** A compiled [exists] clause compares presence with a boolean. *)
Lemma compile_clause_exists r k :
  compile_clause r = Ok (inl k) -> clause_op k = "exists" ->
  exists b, clause_val k = CValue (PBool b) /\ clause_numeric k = false.
Proof.
  unfold compile_clause. destruct (mem _ INFLIGHT_ALLOWED_OPS); cbn [negb]; [|done].
  destruct (dget "field" r) as [| | | |f| |]; try done. destruct (String.eqb f ""); [done|].
  set (op := py_str _). destruct (mem op ["in"; "nin"]) eqn:Hin.
  { destruct (dget "value" r); try done. intros [= <-]. cbn. by intros ->. }
  destruct (String.eqb_spec op "exists"); [intros [= <-]; by eexists|].
  destruct (mem op NUMERIC_OPS); [destruct (as_float _) as [[|]|]; cbn; try done|]; by intros [= <-].
Qed.

Lemma compile_each_exists raw ks k :
  compile_each raw = Ok (inl ks) -> k ∈ ks -> clause_op k = "exists" ->
  exists b, clause_val k = CValue (PBool b) /\ clause_numeric k = false.
Proof.
  revert ks. induction raw as [|r raw IH]; intros ks; cbn; [intros [= <-] Hn; by apply elem_of_nil in Hn|].
  destruct (compile_clause r) as [[k'|]|] eqn:Hc; cbn; [|done|done].
  destruct (compile_each raw) as [[ks'|]|]; cbn; [|done|done].
  intros [= <-] [->|Hin]%elem_of_cons Hop; [by eapply compile_clause_exists|by eapply IH].
Qed.

(** An event that satisfies [exists: true] has the path. *)
Lemma exists_true_present envelope cs c :
  clauses_match envelope cs = Ok true -> c ∈ cs -> clause_op c = "exists" ->
  clause_val c = CValue (PBool true) -> clause_numeric c = false -> resolve envelope (clause_path c) <> PNone.
Proof.
  intros Hm Hin Ho Hv Hn. apply clauses_match_all in Hm. rewrite Forall_forall in Hm.
  destruct (Hm c Hin) as (actual & Ha & Hc). unfold clause_actual in Ha. rewrite Hn in Ha. cbn in Ha.
  injection Ha as <-. rewrite Ho, Hv in Hc. cbn in Hc. intros Hnone. by rewrite Hnone in Hc.
Qed.

Lemma paths_with_elem ops cs p :
  p ∈ paths_with ops cs <-> exists c, c ∈ cs /\ mem (clause_op c) ops = true /\ clause_path c = p.
Proof.
  unfold paths_with. rewrite elem_of_list_to_set, list_elem_of_fmap. split.
  - intros (c & -> & [Ho Hc]%list_elem_of_filter). by exists c.
  - intros (c & Hc & Ho & <-). exists c. split; [done|]. by apply list_elem_of_filter.
Qed.

(** [negative_needs_presence] (no alert on a field that is missing).  In a
    compiled rule, when a clause uses [ne] or [nin] on a path, the rule matches
    only events in which the path resolves to a value, unless the rule asks in
    so many words for the absence of that path. *)
Theorem negative_needs_presence cap raw cs envelope c :
  compile_clauses cap raw = Ok (inl cs) ->
  c ∈ cs -> mem (clause_op c) NEGATIVE_OPS = true ->
  clauses_match envelope cs = Ok true ->
  (exists c', c' ∈ cs /\ clause_path c' = clause_path c /\ clause_op c' = "exists" /\ clause_val c' = CValue (PBool false)) \/
  resolve envelope (clause_path c) <> PNone.
Proof.
  unfold compile_clauses. case_match; [done|]. destruct (compile_each raw) as [[ks|]|] eqn:Hk; cbn; [|done|done].
  intros [= <-] Hin Hop Hm. apply elem_of_app in Hin as [Hin|(p & -> & _)%list_elem_of_fmap]; [|done].
  destruct (decide (clause_path c ∈ paths_with ["exists"] ks)) as [He|He].
  - apply paths_with_elem in He as (c' & Hc' & Ho & Hp). cbn in Ho. rewrite orb_false_r in Ho. apply String.eqb_eq in Ho.
    assert (c' ∈ ks ++ (exists_clause <$> sorted_paths (paths_with NEGATIVE_OPS ks ∖ paths_with ["exists"] ks))) as Hc''
      by (apply elem_of_app; by left).
    destruct (compile_each_exists raw ks c' Hk Hc' Ho) as ([] & Hv & Hn); [right|left; by exists c'].
    rewrite <- Hp. by eapply exists_true_present.
  - right. apply (exists_true_present _ _ (exists_clause (clause_path c)) Hm); [|done..].
    apply elem_of_app. right. apply list_elem_of_fmap_2, sorted_paths_elem, elem_of_difference. split; [|done].
    apply paths_with_elem. by exists c.
Qed.
End theorems.

(** ** Witnesses *)

Section examples.
#[local] Existing Instances demo_float_repr demo_float_parse.

Definition demo_where : list (list (string * pyval)) :=
  [[("field", PStr "raw.user"); ("op", PStr "nin"); ("value", PList [PStr "root"; PStr "svc"])];
   [("field", PStr "raw.level"); ("op", PStr "gte"); ("value", PInt 5)]].

Definition demo_clauses : list compiled_clause :=
  match compile_clauses 10 demo_where with Ok (inl cs) => cs | _ => [] end.

Definition demo_rule : compiled_inflight_rule :=
  CompiledInflightRule 7 "r" 4 3600 (Some ["raw"; "user"]) demo_clauses false None 1 0 None 0 "" false 0.

Definition demo_detection : pyval :=
  PDict [("raw", PDict [("user", PStr "ana"); ("level", PInt 9)])].

Lemma negative_needs_presence_witness :
  clause_path <$> demo_clauses = [["raw"; "user"]; ["raw"; "level"]; ["raw"; "user"]] /\
  clauses_match (PDict [("raw", PDict [("level", PInt 9)])]) demo_clauses = Ok false /\
  ((exists c', c' ∈ demo_clauses /\ clause_path c' = ["raw"; "user"] /\ clause_op c' = "exists" /\ clause_val c' = CValue (PBool false)) \/
   resolve demo_detection ["raw"; "user"] <> PNone).
Proof.
  split; [vm_compute; reflexivity|]. split; [vm_compute; reflexivity|].
  apply (negative_needs_presence 10 demo_where demo_clauses demo_detection
           (CompiledClause ["raw"; "user"] "nin" (CSet [PStr "root"; PStr "svc"]) false)).
  - vm_compute. reflexivity.
  - vm_compute. left.
  - reflexivity.
  - vm_compute. reflexivity.
Defined.

Lemma ruleset_transparent_ex :
  shares_paths [demo_rule] = true /\
  evaluate_ruleset demo_detection (CompiledRuleSet [demo_rule; demo_rule] true) = Ok [demo_rule; demo_rule].
Proof. vm_compute. split; reflexivity. Qed.

(** An integer too large for a float leaves the evaluator as [OverflowError]. *)
Lemma huge_number_raises :
  evaluate_inflight (PDict [("raw", PDict [("user", PStr "ana"); ("level", PInt (2 ^ 2000))])]) [demo_rule] = Raise EOverflow.
Proof. vm_compute. reflexivity. Qed.

(** [bool("false")] is true: written as a text, the absence test becomes the
    presence test. *)
Lemma exists_false_text :
  compile_clause [("field", PStr "raw.user"); ("op", PStr "exists"); ("value", PStr "false")]
  = Ok (inl (exists_clause ["raw"; "user"])).
Proof. reflexivity. Qed.
End examples.
