(* ===== verification/Window.v ===== *)
(** * In-flight detection: the sliding window

    Models [collectors/inflight/window.py] over the [Redis] interface: matches
    are counted in time buckets and a rule fires on the sum of the live ones.
    The two pipelines run as transactions: [up1], [up2] say whether each of them
    reaches the server.  Time is in whole seconds ([int(now)]). *)

From S2P Require Import Prelude PyVal Store.

Local Open Scope string_scope.
Local Open Scope list_scope.
Local Open Scope Z_scope.

Definition N_BUCKETS : Z := 10.
Definition KEY_PREFIX : string := "inflight:win".

Definition bucket_seconds (window_seconds : Z) : Z := Z.max 1 (window_seconds / N_BUCKETS).

(** [range(cur - n, cur + 1)]. *)
Definition bucket_ids (window_seconds now : Z) : list Z :=
  let bs := bucket_seconds window_seconds in
  let cur := now / bs in
  let n := Z.max 1 (window_seconds / bs) in
  seqZ (cur - n) (n + 1).

Definition window_key (dedup_key : string) (bucket : Z) : string :=
  (KEY_PREFIX +:+ ":" +:+ dedup_key +:+ ":" +:+ str_of_Z bucket)%string.

(** What a flush brings for one key: hits of the cycle, threshold, window. *)
Definition window_item := (string * (Z * Z * Z))%type.

Section window.
Context {S : Type} `{Redis S}.

Definition add_hits (now : Z) (s : S) (item : window_item) : S :=
  let '(dk, (hits, _, win)) := item in
  let k := window_key dk (List.last (bucket_ids win now) 0) in
  r_expire k (win + bucket_seconds win + 5) (r_incrby k hits s).1.

(** [sum(int(v) for v in vals if v)]. *)
Definition window_sum (now : Z) (s : S) (dk : string) (win : Z) : Z :=
  foldr Z.add 0 ((fun b => default 0 (fst <$> r_entry s (window_key dk b))) <$> bucket_ids win now).

Definition apply_windows (up1 up2 : bool) (items : list window_item) (now : Z) (s : S)
  : S * result (list (string * Z)) :=
  match items with
  | [] => (s, Ok [])
  | _ =>
      if negb up1 then (s, Raise EOther)
      else
        let s1 := foldl (add_hits now) s items in
        if negb up2 then (s1, Raise EOther)
        else (s1, Ok ((fun it => (it.1, window_sum now s1 it.1 it.2.2)) <$> items))
  end.
End window.

(** [min_count > 1 and window_seconds > 0]. *)
Definition windowed (min_count window_seconds : Z) : bool := (1 <? min_count) && (0 <? window_seconds).

(** ** Buckets *)

Lemma bucket_seconds_pos w : 0 < bucket_seconds w.
Proof. unfold bucket_seconds. lia. Qed.

Definition bucket (w t : Z) : Z := t / bucket_seconds w.
Definition bucket_count (w : Z) : Z := Z.max 1 (w / bucket_seconds w).

Lemma bucket_ids_elem w now b : b ∈ bucket_ids w now <-> bucket w now - bucket_count w <= b <= bucket w now.
Proof. unfold bucket_ids. fold (bucket_count w) (bucket w now). rewrite elem_of_seqZ. lia. Qed.

Lemma bucket_ids_last w now : List.last (bucket_ids w now) 0 = bucket w now.
Proof.
  unfold bucket_ids. fold (bucket_count w) (bucket w now). pose proof (bucket_seconds_pos w).
  assert (0 < bucket_count w) by (unfold bucket_count; lia).
  replace (seqZ (bucket w now - bucket_count w) (bucket_count w + 1))
    with (seqZ (bucket w now - bucket_count w) (bucket_count w) ++ [bucket w now]).
  { apply last_last. }
  rewrite seqZ_app by lia. f_equal. rewrite seqZ_cons by lia. cbn. f_equal. lia.
Qed.

Lemma bucket_bounds w t : bucket w t * bucket_seconds w <= t < (bucket w t + 1) * bucket_seconds w.
Proof.
  unfold bucket. pose proof (bucket_seconds_pos w).
  pose proof (Z.mod_pos_bound t (bucket_seconds w)). pose proof (Z.div_mod t (bucket_seconds w)). nia.
Qed.

(** The buckets read never reach further back than the window and one bucket. *)
Lemma bucket_count_le w : 1 <= w -> bucket_count w * bucket_seconds w <= w.
Proof.
  intros Hw. unfold bucket_count. pose proof (bucket_seconds_pos w) as Hb.
  assert (bucket_seconds w <= w) by (unfold bucket_seconds, N_BUCKETS in *; pose proof (Z.div_le_upper_bound w 10 w); lia).
  assert (1 <= w / bucket_seconds w) by (apply Z.div_le_lower_bound; lia).
  rewrite Z.max_r by lia. pose proof (Z.mul_div_le w (bucket_seconds w) Hb). lia.
Qed.

Lemma window_key_inj dk1 b1 dk2 b2 : window_key dk1 b1 = window_key dk2 b2 -> dk1 = dk2 /\ b1 = b2.
Proof.
  unfold window_key. intros He%(inj (String.append KEY_PREFIX))%(inj (String.append ":")).
  apply split_at_last_sep in He as [-> He]; [|apply str_of_Z_no_sep..]. by apply str_of_Z_inj in He.
Qed.

(** ** Flushes over time *)

(** The hits of a history that fall in a bucket, and from a bucket on. *)
Definition sum_hits (keep : Z -> bool) (hist : list (Z * Z)) : Z :=
  foldr (fun th n => (if keep th.1 then th.2 else 0) + n) 0 hist.
Definition in_bucket (w b t : Z) : bool := bucket w t =? b.

Lemma sum_hits_app keep h1 h2 : sum_hits keep (h1 ++ h2) = sum_hits keep h1 + sum_hits keep h2.
Proof. unfold sum_hits. induction h1 as [|th h1 IH]; [done|]. cbn. rewrite IH. lia. Qed.
Lemma sum_hits_none keep hist : (forall t h, (t, h) ∈ hist -> keep t = false) -> sum_hits keep hist = 0.
Proof.
  unfold sum_hits. induction hist as [|[t h] hist IH]; intros Hk; [done|]. cbn. rewrite (Hk t h) by (by left).
  rewrite IH; [done|]. intros t' h' Hin. apply (Hk t' h'). by right.
Qed.

Section flushes.
Context {S : Type} `{RedisLaws S}.

(** A flush: the time since the previous one, and its items. *)
Definition flush := (Z * list window_item)%type.

Definition do_flush (f : flush) (s : S) : S * result (list (string * Z)) :=
  let s := r_tick f.1 s in apply_windows true true f.2 (r_now s) s.
Definition flushes (fs : list flush) (s : S) : S := foldl (fun s f => (do_flush f s).1) s fs.

(** The hits that the flushes brought for a key, each with its time. *)
Definition brought (dk : string) (now : Z) (items : list window_item) : list (Z * Z) :=
  match dict_get dk items with Some (h, _, _) => [(now, h)] | None => [] end.
Fixpoint history (dk : string) (fs : list flush) (now : Z) : list (Z * Z) :=
  match fs with
  | [] => []
  | f :: fs' => brought dk (now + f.1) f.2 ++ history dk fs' (now + f.1)
  end.

(** Time does not run backwards, the items of a flush have distinct keys and
    positive windows, and the key [dk] always has the window [w]. *)
Definition flush_ok (dk : string) (w : Z) (f : flush) : Prop :=
  0 <= f.1 /\ NoDup f.2.*1 /\ Forall (fun it => 1 <= it.2.2) f.2 /\
  forall h mc w', (dk, (h, mc, w')) ∈ f.2 -> w' = w.

(** When a bucket is no longer read. *)
Definition bucket_dead (w b : Z) : Z := b * bucket_seconds w + w + bucket_seconds w + 5.

Definition buckets_hold (dk : string) (w : Z) (s : S) (hist : list (Z * Z)) : Prop :=
  (forall t h, (t, h) ∈ hist -> t <= r_now s) /\
  forall b, match r_entry s (window_key dk b) with
            | Some (v, dl) => v = sum_hits (in_bucket w b) hist /\ exists d, dl = Some d /\ bucket_dead w b <= d
            | None => (forall t h, (t, h) ∈ hist -> in_bucket w b t = false) \/ bucket_dead w b <= r_now s
            end.

Lemma hold_tick dk w s hist d : 0 <= d -> buckets_hold dk w s hist -> buckets_hold dk w (r_tick d s) hist.
Proof.
  intros Hd [Ht Hb]. split; [intros t h Hin; rewrite r_tick_now; specialize (Ht t h Hin); lia|].
  intros b. specialize (Hb b). rewrite r_tick_entry, r_tick_now by done.
  destruct (r_entry s (window_key dk b)) as [[v dl]|]; cbn.
  - destruct Hb as (Hv & x & -> & Hx). unfold live. cbn. destruct (Z.ltb_spec (r_now s + d) x).
    + split; [done|]. by exists x.
    + right. lia.
  - destruct Hb; [by left|right; lia].
Qed.

Lemma add_hits_now now s it : r_now (add_hits now s it) = r_now s.
Proof. destruct it as [dk [[h mc] w]]. unfold add_hits. by rewrite r_expire_now, r_incrby_now. Qed.

Lemma hold_other dk w now s hist dk' x :
  dk' <> dk -> 1 <= x.2 -> buckets_hold dk w s hist -> buckets_hold dk w (add_hits now s (dk', x)) hist.
Proof.
  intros Hne Hx [Ht Hb]. split; [by intros; rewrite add_hits_now; eapply Ht|]. intros b. rewrite add_hits_now.
  destruct x as [[h mc] w']. cbn in Hx. pose proof (bucket_seconds_pos w'). unfold add_hits.
  rewrite r_expire_ne, r_incrby_ne; [apply Hb| |lia|]; by intros [-> _]%window_key_inj.
Qed.

Lemma hold_add dk w s hist h mc :
  1 <= w -> buckets_hold dk w s hist ->
  buckets_hold dk w (add_hits (r_now s) s (dk, (h, mc, w))) (hist ++ [(r_now s, h)]).
Proof.
  intros Hw [Ht Hb]. pose proof (bucket_seconds_pos w) as Hbs. split.
  - intros t h' [Hin|Hin]%elem_of_app; rewrite add_hits_now; [by eapply Ht|].
    apply list_elem_of_singleton in Hin. injection Hin as -> ->. done.
  - intros b. specialize (Hb b). unfold add_hits. rewrite bucket_ids_last, r_expire_now, r_incrby_now, sum_hits_app.
    cbn [sum_hits foldr fst snd]. rewrite r_expire_entry, r_incrby_entry, !r_incrby_now by lia.
    pose proof (bucket_bounds w (r_now s)) as Hnow. unfold bucket_dead, in_bucket in *.
    destruct (String.eqb_spec (window_key dk b) (window_key dk (bucket w (r_now s)))) as [Heq|Hne].
    + apply window_key_inj in Heq as [_ ->]. rewrite String.eqb_refl, Z.eqb_refl. cbn.
      destruct (r_entry s _) as [[v dl]|]; cbn.
      * destruct Hb as (-> & _). split; [lia|]. eexists. split; [done|]. lia.
      * split; [|eexists; split; [done|lia]]. destruct Hb as [Hb|Hb]; [rewrite (sum_hits_none _ hist Hb); lia|lia].
    + assert (bucket w (r_now s) <> b) as Hbne%Z.eqb_neq by (intros <-; done).
      rewrite r_incrby_ne, Hbne by done. destruct (r_entry s (window_key dk b)) as [[v dl]|].
      * destruct Hb as (-> & Hd). split; [lia|done].
      * destruct Hb as [Hb|Hb]; [left|by right]. intros t h' [Hin|Hin]%elem_of_app; [by eapply Hb|].
        apply list_elem_of_singleton in Hin. injection Hin as -> ->. done.
Qed.

Lemma fold_add_now now items s : r_now (foldl (add_hits now) s items) = r_now s.
Proof. revert s. induction items as [|it items IH]; intros s; [done|]. cbn. by rewrite IH, add_hits_now. Qed.

Lemma hold_items dk w items s hist :
  NoDup items.*1 -> Forall (fun it => 1 <= it.2.2) items -> (forall h mc w', (dk, (h, mc, w')) ∈ items -> w' = w) ->
  buckets_hold dk w s hist ->
  buckets_hold dk w (foldl (add_hits (r_now s)) s items) (hist ++ brought dk (r_now s) items).
Proof.
  revert s hist. induction items as [|[dk' [[h mc] w']] items IH]; intros s hist Hd Hp Hw Hb; cbn.
  { unfold brought. cbn. by rewrite app_nil_r. }
  apply NoDup_cons in Hd as [Hn Hd]. apply Forall_cons in Hp as [Hp1 Hp].
  pose proof (add_hits_now (r_now s) s (dk', (h, mc, w'))) as Hnow. unfold brought. cbn.
  destruct (String.eqb_spec dk dk') as [<-|Hne].
  - assert (w' = w) as -> by (apply (Hw h mc); by left). cbn in Hp1.
    pose proof (IH (add_hits (r_now s) s (dk, (h, mc, w))) (hist ++ [(r_now s, h)]) Hd Hp) as IH'.
    rewrite Hnow in IH'. unfold brought in IH'.
    assert (dict_get dk items = None) as Hg by (apply dict_get_None; exact Hn). rewrite Hg, app_nil_r in IH'.
    apply IH'; [intros h' mc' w'' Hin; apply (Hw h' mc'); by right|]. by apply hold_add.
  - pose proof (IH (add_hits (r_now s) s (dk', (h, mc, w'))) hist Hd Hp) as IH'. rewrite Hnow in IH'.
    apply IH'; [intros h' mc' w'' Hin; apply (Hw h' mc'); by right|]. by apply hold_other.
Qed.

Lemma do_flush_hold dk w f s hist :
  flush_ok dk w f -> buckets_hold dk w s hist ->
  buckets_hold dk w (do_flush f s).1 (hist ++ brought dk (r_now s + f.1) f.2) /\
  r_now (do_flush f s).1 = r_now s + f.1.
Proof.
  intros (Hd & Hnd & Hp & Hw) Hb. unfold do_flush. pose proof (hold_tick dk w s hist f.1 Hd Hb) as Ht.
  rewrite <- r_tick_now. destruct f as [d [|it items]]; cbn [fst snd] in *.
  - cbn. unfold brought. cbn. by rewrite app_nil_r.
  - cbn [apply_windows negb fst]. split; [by apply hold_items|apply fold_add_now].
Qed.

Lemma flushes_hold dk w fs s hist :
  Forall (flush_ok dk w) fs -> buckets_hold dk w s hist ->
  buckets_hold dk w (flushes fs s) (hist ++ history dk fs (r_now s)).
Proof.
  revert s hist. induction fs as [|f fs IH]; intros s hist Hf Hb; [cbn; by rewrite app_nil_r|].
  apply Forall_cons in Hf as [Hf1 Hf]. destruct (do_flush_hold dk w f s hist Hf1 Hb) as [Hb1 Hn1].
  cbn [flushes foldl history]. rewrite app_assoc. rewrite <- Hn1 at 2. by apply IH.
Qed.

(** Reading the buckets of a window sums the hits of the history. *)
Lemma hold_sum dk w s hist :
  1 <= w -> buckets_hold dk w s hist ->
  window_sum (r_now s) s dk w = sum_hits (fun t => bucket w (r_now s) - bucket_count w <=? bucket w t) hist.
Proof.
  intros Hw [Ht Hb]. unfold window_sum.
  assert (forall l, NoDup l -> (forall b, b ∈ l -> bucket w (r_now s) - bucket_count w <= b) ->
    foldr Z.add 0 ((fun b => default 0 (fst <$> r_entry s (window_key dk b))) <$> l) =
    sum_hits (fun t => bool_decide (bucket w t ∈ l)) hist) as Hgen.
  { induction l as [|b l IH]; intros Hnd Hl; [symmetry; by apply sum_hits_none|].
    apply NoDup_cons in Hnd as [Hbl Hnd]. cbn [fmap list_fmap foldr].
    rewrite IH by (try done; intros b' Hb'; apply Hl; by right).
    assert (default 0 (fst <$> r_entry s (window_key dk b)) = sum_hits (in_bucket w b) hist) as ->.
    { specialize (Hb b). destruct (r_entry s (window_key dk b)) as [[v dl]|]; [by destruct Hb as [-> _]|].
      destruct Hb as [Hb|Hb]; [by rewrite (sum_hits_none _ _ Hb)|]. exfalso.
      specialize (Hl b ltac:(by left)). pose proof (bucket_bounds w (r_now s)). pose proof (bucket_count_le w Hw).
      pose proof (bucket_seconds_pos w). unfold bucket_dead in Hb. nia. }
    unfold sum_hits, in_bucket. clear -Hbl. induction hist as [|[t h] hist IH]; [done|]. cbn in *. rewrite <- IH.
    destruct (Z.eqb_spec (bucket w t) b) as [->|Hne].
    - rewrite (bool_decide_eq_false_2 (b ∈ l)), (bool_decide_eq_true_2 (b ∈ b :: l)) by (done || by left). lia.
    - destruct (decide (bucket w t ∈ l)).
      + rewrite !bool_decide_eq_true_2 by (done || by right). lia.
      + rewrite !bool_decide_eq_false_2 by (done || by intros [?|?]%elem_of_cons). lia. }
  rewrite Hgen; [|apply NoDup_seqZ|intros b Hin%bucket_ids_elem; lia].
  unfold sum_hits. clear -Ht. induction hist as [|[t h] hist IH]; [done|]. cbn.
  rewrite IH by (intros t' h' Hin; apply (Ht t' h'); by right).
  assert (bool_decide (bucket w t ∈ bucket_ids w (r_now s)) = (bucket w (r_now s) - bucket_count w <=? bucket w t)) as ->; [|done].
  assert (bucket w t <= bucket w (r_now s)) as Hle.
  { unfold bucket. apply Z.div_le_mono; [apply bucket_seconds_pos|]. apply (Ht t h). by left. }
  destruct (Z.leb_spec (bucket w (r_now s) - bucket_count w) (bucket w t)).
  - apply bool_decide_eq_true_2, bucket_ids_elem. lia.
  - apply bool_decide_eq_false_2. rewrite bucket_ids_elem. lia.
Qed.

(** [window_counts] (the sliding count).  Over any history of flushes with
    the store up, the total that a flush reads for a key is the sum of the hits
    brought for that key by this and earlier flushes in the buckets of the
    window: nothing of those buckets has expired, nothing is counted twice,
    other keys do not interfere.  The buckets cover at least the last
    [window - window mod bucket] seconds, and reach back less than the window
    and one bucket. *)
Theorem window_counts dk w fs d items h mc s :
  (forall b, r_entry s (window_key dk b) = None) ->
  Forall (flush_ok dk w) fs -> flush_ok dk w (d, items) -> (dk, (h, mc, w)) ∈ items ->
  let now := r_now (flushes fs s) + d in
  let hist := history dk fs (r_now s) ++ [(now, h)] in
  let counted t := bucket w now - bucket_count w <=? bucket w t in
  (exists totals, (do_flush (d, items) (flushes fs s)).2 = Ok totals /\ (dk, sum_hits counted hist) ∈ totals) /\
  (forall t, now - (w - w mod bucket_seconds w) <= t -> counted t = true) /\
  (forall t, counted t = true -> now - w - bucket_seconds w < t).
Proof.
  intros Hs Hfs Hf Hin now hist counted.
  assert (1 <= w) as Hw by (destruct Hf as (_ & _ & Hp & _); rewrite Forall_forall in Hp; by apply (Hp _ Hin)).
  assert (buckets_hold dk w s []) as Hb0 by (split; [by intros t x Hn%elem_of_nil|intros b; rewrite Hs; left; by intros t x Hn%elem_of_nil]).
  pose proof (flushes_hold dk w fs s [] Hfs Hb0) as Hb.
  destruct (do_flush_hold dk w (d, items) _ _ Hf Hb) as [Hb1 Hn1]. cbn [fst snd app] in Hb1, Hn1.
  assert (brought dk now items = [(now, h)]) as Hbr.
  { unfold brought. destruct Hf as (_ & Hnd & _). by rewrite (dict_elem_get dk (h, mc, w) items Hnd Hin). }
  fold now in Hb1, Hn1. rewrite Hbr in Hb1. fold hist in Hb1.
  pose proof (hold_sum dk w _ _ Hw Hb1) as Hsum. rewrite Hn1 in Hsum.
  pose proof (bucket_seconds_pos w) as Hbs. pose proof (bucket_bounds w now) as Hnow. split_and!.
  - unfold do_flush in Hsum, Hn1 |- *. cbn [fst snd] in *. destruct items as [|it items]; [by apply elem_of_nil in Hin|].
    cbn [apply_windows negb fst snd] in *. eexists. split; [done|].
    rewrite r_tick_now in *. fold now in Hsum |- *. apply list_elem_of_fmap. exists (dk, (h, mc, w)). split; [|done].
    cbn [fst snd]. f_equal. symmetry. exact Hsum.
  - intros t Ht. unfold counted. apply Z.leb_le. pose proof (bucket_bounds w t). unfold bucket_count.
    assert (1 <= w / bucket_seconds w).
    { apply Z.div_le_lower_bound; [lia|]. unfold bucket_seconds, N_BUCKETS in *. pose proof (Z.div_le_upper_bound w 10 w). lia. }
    rewrite Z.max_r by lia. pose proof (Z.div_mod w (bucket_seconds w)).
    apply Z.le_sub_le_add_r. enough (bucket w now <= bucket w t + w / bucket_seconds w) by lia.
    unfold bucket. rewrite <- Z.div_add by lia. apply Z.div_le_mono; lia.
  - intros t Ht. unfold counted in Ht. apply Z.leb_le in Ht. pose proof (bucket_bounds w t).
    pose proof (bucket_count_le w Hw). nia.
Qed.
End flushes.

(** ** Witness and divergence *)

Section examples.

Definition demo_flushes : list flush :=
  [(100, [("k", (3, 5, 60)); ("other", (9, 2, 300))]); (30, [("k", (1, 5, 60))]); (40, [("other", (1, 2, 300))])].

Ltac flush_ok_tac :=
  split_and!; cbn;
    [lia | repeat (apply NoDup_nil_2 || apply NoDup_cons_2); set_solver
    | repeat (apply Forall_cons_2 || apply Forall_nil_2); cbn; lia
    | intros ? ? ?; repeat setoid_rewrite elem_of_cons; rewrite elem_of_nil; naive_solver].

Lemma demo_flushes_ok : Forall (flush_ok "k" 60) demo_flushes.
Proof. repeat (apply Forall_cons_2 || apply Forall_nil_2); flush_ok_tac. Qed.

Lemma window_counts_witness :
  (do_flush (5, [("k", (2, 5, 60))]) (flushes demo_flushes mem_empty)).2 = Ok [("k", 3)] /\
  exists totals, (do_flush (5, [("k", (2, 5, 60))]) (flushes demo_flushes mem_empty)).2 = Ok totals /\
    ("k", sum_hits (fun t => bucket 60 175 - bucket_count 60 <=? bucket 60 t) [(100, 3); (130, 1); (175, 2)]) ∈ totals.
Proof.
  split; [vm_compute; reflexivity|].
  assert (forall b, r_entry mem_empty (window_key "k" b) = None) as Hempty by reflexivity.
  apply (window_counts "k" 60 demo_flushes 5 [("k", (2, 5, 60))] 2 5 mem_empty Hempty demo_flushes_ok).
  - flush_ok_tac.
  - left.
Defined.

(** The documentation of [bucket_ids] says that the buckets cover the whole
    window; when the bucket does not divide it, the oldest seconds are missed:
    a hit of second 1 is within the 25 seconds before second 26 and is not
    read. *)
Lemma window_edge_missed :
  bucket_ids 25 26 = seqZ 1 13 /\ bucket 25 1 = 0 /\ 26 - 25 <= 1.
Proof. vm_compute. split_and!; done. Qed.
End examples.
