(* ===== verification/Detection.v ===== *)
(** * In-flight detection: the matches of a cycle

    Models the accumulator of [collectors/inflight/runtime.py]: what a match adds
    ([InflightAccumulator.add]), the pointer to the event that it keeps, and the
    budget of detections of a flush ([_apply_flush_cap]).  Logging is left out;
    the caps read from the settings are the fields of [inflight_settings]. *)

From S2P Require Import Prelude PyVal Operators Inflight.

Local Open Scope string_scope.
Local Open Scope list_scope.
Local Open Scope Z_scope.

Record inflight_settings := InflightSettings {
  MAX_GROUP_VALUE_LEN : nat;
  MAX_DEDUP_KEYS_PER_RULE : Z;
  MAX_DETECTIONS_PER_FLUSH : Z;
}.

(** [hashlib.blake2s(value, digest_size=8).hexdigest()], and the ellipsis
    character, which is outside the 8-bit text of the model. *)
Class Blake2s := blake2s_hex : string -> string.
Class Blake2sLaw `{Blake2s} := blake2s_length : forall s, String.length (blake2s_hex s) = 16%nat.
Class Ellipsis := ellipsis : ascii.

Definition GROUP_VALUE_DIGEST_SEP : string := "~".
Definition DETECTION_EVENT_TEXT_MAXLEN : nat := 120.
Definition DETECTION_EVENT_TYPE : string := "centralops.inflight.detection".

Section pointer.
Context `{FloatRepr} `{Ellipsis}.

Definition evidence_text (value : pyval) : pyval :=
  if is_none value then PNone
  else
    let text := py_str value in
    if (String.length text <=? DETECTION_EVENT_TEXT_MAXLEN)%nat then PStr text
    else PStr (str_take DETECTION_EVENT_TEXT_MAXLEN text +:+ String ellipsis "")%string.

(** [x.get(k)] when [x] is a mapping, and a test that fails otherwise. *)
Definition mapping_get (k : string) (x : pyval) : pyval :=
  match x with PDict d => dget k d | _ => PNone end.

Definition is_self_emitted (envelope : pyval) : bool :=
  py_eq (mapping_get "event_type" (mapping_get "_centralops" envelope)) (PStr DETECTION_EVENT_TYPE) ||
  let raw := mapping_get "raw" envelope in
  py_eq (mapping_get "event_type" (mapping_get "_centralops" raw)) (PStr DETECTION_EVENT_TYPE) ||
  truthy (mapping_get "centralops_detection" (mapping_get "unmapped" raw)).

Definition event_source_pointer (envelope : pyval) (group_path : option (list string)) (group_value : option string)
  : list (string * pyval) :=
  let meta := mapping_get "_centralops" envelope in
  let norm := mapping_get "normalized" envelope in
  let event_time := mapping_get "time" norm in
  let class_uid := mapping_get "class_uid" norm in
  [("event_id", evidence_text (mapping_get "event_id" meta));
   ("vendor", evidence_text (mapping_get "vendor" meta));
   ("platform", evidence_text (mapping_get "platform" meta));
   ("stream", evidence_text (mapping_get "stream" meta));
   ("event_type", evidence_text (mapping_get "event_type" meta));
   ("event_time", match event_time with PInt _ | PFloat _ => event_time | _ => PNone end);
   ("event_class_uid", match class_uid with PInt _ => class_uid | _ => PNone end);
   ("customer_name", evidence_text (mapping_get "customer_name" meta));
   ("organization_slug", evidence_text (mapping_get "organization_slug" meta));
   ("data_geography", evidence_text (mapping_get "data_geography" meta));
   ("group_field", match group_path with
                   | Some (p :: ps) => evidence_text (PStr (String.concat "." (p :: ps)))
                   | _ => PNone
                   end);
   ("group_value", match group_value with Some v => evidence_text (PStr v) | None => PNone end);
   ("self_emitted", PBool (is_self_emitted envelope))].
End pointer.

(** ** The accumulator *)

(** An item of [pending]; [legs] is the dict from leg to pointer that only the
    rules of a sequence have. *)
Record pending_item := PendingItem {
  item_rule : compiled_inflight_rule;
  item_integration : option Z;
  item_source : list (string * pyval);
  item_hits : Z;
  item_token : string;
  item_legs : list (Z * list (string * pyval));
}.

(** [errors] is keyed by reason and rule, as the nested dict is; the reasons
    that have no rule are counted in [flat_errors]. *)
Record accumulator := Accumulator {
  pending : list (string * pending_item);
  matched : gmap Z Z;
  errors : gmap (string * Z) Z;
  flat_errors : gmap string Z;
  overflow : gmap Z Z;
  keys_per_rule : gmap Z Z;
  absence_rules : gmap Z compiled_inflight_rule;
}.

Definition new_accumulator : accumulator := Accumulator [] ∅ ∅ ∅ ∅ ∅ ∅.

(** [d[k] = d.get(k, 0) + n]. *)
Definition bump `{Countable K} (k : K) (n : Z) (m : gmap K Z) : gmap K Z := <[k := default 0 (m !! k) + n]> m.

Definition set_pending (p : list (string * pending_item)) (a : accumulator) : accumulator :=
  Accumulator p (matched a) (errors a) (flat_errors a) (overflow a) (keys_per_rule a) (absence_rules a).
Definition count_error (reason : string) (rule : Z) (amount : Z) (a : accumulator) : accumulator :=
  Accumulator (pending a) (matched a) (bump (reason, rule) amount (errors a)) (flat_errors a) (overflow a)
    (keys_per_rule a) (absence_rules a).

Definition note_rules (rules : list compiled_inflight_rule) (a : accumulator) : accumulator :=
  Accumulator (pending a) (matched a) (errors a) (flat_errors a) (overflow a) (keys_per_rule a)
    (foldl (fun m r => if absence r then <[rule_id r := r]> m else m) (absence_rules a) rules).

Section add.
Context `{FloatRepr} `{Blake2s} `{Ellipsis}.
Context (cfg : inflight_settings).

(** The readable prefix and, when it was cut, the digest of the whole value. *)
Definition group_token (value : string) : string :=
  let cap := MAX_GROUP_VALUE_LEN cfg in
  let token := str_take cap value in
  if (cap <? String.length value)%nat then (token +:+ GROUP_VALUE_DIGEST_SEP +:+ blake2s_hex value)%string
  else token.

Definition is_leg (rule : compiled_inflight_rule) : bool := match leg_index rule with Some _ => true | None => false end.

Definition pending_key (organization_id : Z) (rule : compiled_inflight_rule) (token : string) : string :=
  if is_leg rule
  then ("inflight:" +:+ str_of_Z organization_id +:+ ":" +:+ str_of_Z (rule_id rule) +:+ ":seq:" +:+ token)%string
  else ("inflight:" +:+ str_of_Z organization_id +:+ ":" +:+ str_of_Z (rule_id rule) +:+ ":" +:+ token)%string.

(** [getattr(rule, "max_dedup_keys", None) or settings...]. *)
Definition key_cap (rule : compiled_inflight_rule) : Z :=
  match max_dedup_keys rule with
  | Some n => if n =? 0 then MAX_DEDUP_KEYS_PER_RULE cfg else n
  | None => MAX_DEDUP_KEYS_PER_RULE cfg
  end.

(** The same key again in the cycle. *)
Definition again (rule : compiled_inflight_rule) (pointer : list (string * pyval)) (it : pending_item) : pending_item :=
  PendingItem (item_rule it) (item_integration it) (item_source it) (item_hits it + 1) (item_token it)
    (match leg_index rule with
     | Some i => if bool_decide (i ∈ (item_legs it).*1) then item_legs it else item_legs it ++ [(i, pointer)]
     | None => item_legs it
     end).

(** The part after the group value is known. *)
Definition add_token (rule : compiled_inflight_rule) (envelope : pyval) (organization_id : Z)
    (integration_id : option Z) (group_value : option string) (token : string) (a : accumulator) : accumulator :=
  let rid := rule_id rule in
  let key := pending_key organization_id rule token in
  let pointer := event_source_pointer envelope (group_by_path rule) group_value in
  match dict_get key (pending a) with
  | Some it => set_pending (dict_set key (again rule pointer it) (pending a)) a
  | None =>
      if key_cap rule <=? default 0 (keys_per_rule a !! rid) then
        let a := count_error "key_cap" rid 1 a in
        Accumulator (pending a) (matched a) (errors a) (flat_errors a) (bump rid 1 (overflow a))
          (keys_per_rule a) (absence_rules a)
      else
        let it := PendingItem rule integration_id pointer 1 token
                    (match leg_index rule with Some i => [(i, pointer)] | None => [] end) in
        Accumulator (dict_set key it (pending a)) (matched a) (errors a) (flat_errors a) (overflow a)
          (bump rid 1 (keys_per_rule a)) (absence_rules a)
  end.

Definition add (rule : compiled_inflight_rule) (envelope : pyval) (organization_id : Z)
    (integration_id : option Z) (a : accumulator) : accumulator :=
  let rid := rule_id rule in
  let a := Accumulator (pending a) (bump rid 1 (matched a)) (errors a) (flat_errors a) (overflow a)
             (keys_per_rule a) (absence_rules a) in
  match group_by_path rule with
  | None => add_token rule envelope organization_id integration_id None "*" a
  | Some path =>
      let raw := resolve envelope path in
      if is_none raw then count_error "group_by_unresolved" rid 1 a
      else
        let value := py_str raw in
        let a := if (MAX_GROUP_VALUE_LEN cfg <? String.length value)%nat
                 then count_error "group_value_truncated" rid 1 a else a in
        add_token rule envelope organization_id integration_id (Some value) (group_token value) a
  end.
End add.

(** ** The budget of a flush *)

(** The keys of each rule, in order of arrival. *)
Fixpoint group_key (rid : Z) (key : string) (groups : list (Z * list string)) : list (Z * list string) :=
  match groups with
  | [] => [(rid, [key])]
  | (r, ks) :: rest => if r =? rid then (r, ks ++ [key]) :: rest else (r, ks) :: group_key rid key rest
  end.
Definition by_rule (p : list (string * pending_item)) : list (Z * list string) :=
  foldl (fun g kv => group_key (rule_id (item_rule kv.2)) kv.1 g) [] p.

(** One round: a key of each rule that still has one, until the cap. *)
Fixpoint round (cap : nat) (n : nat) (groups : list (Z * list string)) (kept : list string) : list string * bool :=
  match groups with
  | [] => (kept, false)
  | (_, keys) :: rest =>
      match keys !! n with
      | None => round cap n rest kept
      | Some k =>
          let kept := kept ++ [k] in
          if (cap <=? length kept)%nat then (kept, true) else ((round cap n rest kept).1, true)
      end
  end.

(** The loop; [fuel] bounds the rounds. *)
Fixpoint rounds (fuel cap n : nat) (groups : list (Z * list string)) (kept : list string) : option (list string) :=
  match fuel with
  | O => None
  | Datatypes.S fuel' =>
      if (cap <=? length kept)%nat then Some kept
      else
        let '(kept, advanced) := round cap n groups kept in
        if negb advanced then Some kept else rounds fuel' cap (n + 1) groups kept
  end.

Definition rounds_fuel (p : list (string * pending_item)) : nat := Datatypes.S (Datatypes.S (length p)).

(** The dropped keys are counted against their rule; the number of them. *)
Definition apply_flush_cap (cfg : inflight_settings) (a : accumulator) : accumulator * nat :=
  let cap := Z.to_nat (Z.max 0 (MAX_DETECTIONS_PER_FLUSH cfg)) in
  let total := length (pending a) in
  if (total <=? cap)%nat then (a, 0%nat)
  else
    let kept := default [] (rounds (rounds_fuel (pending a)) cap 0 (by_rule (pending a)) []) in
    let '(stay, gone) := (filter (fun kv => kv.1 ∈ kept) (pending a), filter (fun kv => kv.1 ∉ kept) (pending a)) in
    let a := foldl (fun a (kv : string * pending_item) => count_error "flush_cap" (rule_id (item_rule kv.2)) 1 a) (set_pending stay a) gone in
    (a, (total - length stay)%nat).

(** ** Keys and tokens *)

Lemma str_take_all n s : (String.length s <= n)%nat -> str_take n s = s.
Proof. revert n. induction s as [|a s IH]; intros [|n] Hl; cbn in *; try done; [lia|]. by rewrite IH by lia. Qed.

Section tokens.
Context `{FloatRepr} `{Blake2sLaw} `{Ellipsis}.
Context (cfg : inflight_settings).

(** [entities_not_merged] (one key per entity).  Two group values give the
    same token of a detection key only if they are the same value, whatever the
    cut: short of a collision of the 64-bit digest on these two values, no
    entity disappears inside the alert of another one. *)
Theorem entities_not_merged v1 v2 :
  (blake2s_hex v1 = blake2s_hex v2 -> v1 = v2) ->
  group_token cfg v1 = group_token cfg v2 -> v1 = v2.
Proof.
  intros Hd. unfold group_token. set (cap := MAX_GROUP_VALUE_LEN cfg).
  pose proof (str_length_take cap v1) as L1. pose proof (str_length_take cap v2) as L2.
  pose proof (blake2s_length v1) as D1. pose proof (blake2s_length v2) as D2.
  destruct (Nat.ltb_spec cap (String.length v1)), (Nat.ltb_spec cap (String.length v2)); intros He.
  - apply str_app_inj in He as [_ He]; [|lia]. apply Hd. by injection He.
  - exfalso. apply (f_equal String.length) in He. rewrite !str_length_app in He. cbn in He. lia.
  - exfalso. apply (f_equal String.length) in He. rewrite !str_length_app in He. cbn in He. lia.
  - by rewrite !str_take_all in He.
Qed.

(** The key of a rule determines the rule. *)
Definition key_tail (rule : compiled_inflight_rule) (token : string) : string :=
  if is_leg rule then ("seq:" +:+ token)%string else token.
Lemma pending_key_tail org rule token :
  pending_key org rule token =
  ("inflight:" +:+ str_of_Z org +:+ ":" +:+ str_of_Z (rule_id rule) +:+ ":" +:+ key_tail rule token)%string.
Proof. unfold pending_key, key_tail. by destruct (is_leg rule). Qed.

Lemma pending_key_inj o1 r1 t1 o2 r2 t2 :
  pending_key o1 r1 t1 = pending_key o2 r2 t2 ->
  o1 = o2 /\ rule_id r1 = rule_id r2 /\ key_tail r1 t1 = key_tail r2 t2.
Proof.
  rewrite !pending_key_tail. intros He%(inj (String.append "inflight:")).
  apply split_at_sep in He as [Ho He]; [|apply str_of_Z_no_sep..].
  apply split_at_sep in He as [Hr He]; [|apply str_of_Z_no_sep..].
  split_and!; [by apply str_of_Z_inj|by apply str_of_Z_inj|done].
Qed.

(** Every text of the pointer is bounded, whatever the event holds. *)
Lemma evidence_text_bounded v s :
  evidence_text v = PStr s -> (String.length s <= DETECTION_EVENT_TEXT_MAXLEN + 1)%nat.
Proof.
  assert (forall t, PStr t = PStr s -> t = s) as Hinj by congruence.
  unfold evidence_text. destruct (is_none v); [done|]. case_match eqn:E.
  - intros He%Hinj. subst s. apply Nat.leb_le in E. lia.
  - intros He%Hinj. rewrite <- He, str_length_app, str_length_take. cbn [String.length]. lia.
Qed.

(** [pointer_bounded].  The pointer to the source event that a detection
    carries out of the product holds no payload: each of its fields is null, a
    number or flag, or a text of at most 121 characters. *)
Theorem pointer_bounded envelope path value k v :
  (k, v) ∈ event_source_pointer envelope path value ->
  match v with
  | PStr s => (String.length s <= DETECTION_EVENT_TEXT_MAXLEN + 1)%nat
  | PList _ | PDict _ => False
  | _ => True
  end.
Proof.
  assert (forall x, match evidence_text x with
                    | PStr s => (String.length s <= DETECTION_EVENT_TEXT_MAXLEN + 1)%nat
                    | PNone => True | _ => False end) as He.
  { intros x. destruct (evidence_text x) eqn:E; try (by apply evidence_text_bounded in E); try done;
      unfold evidence_text in E; repeat case_match; done. }
  unfold event_source_pointer. cbv zeta. repeat setoid_rewrite elem_of_cons. rewrite elem_of_nil.
  intros Hin. repeat destruct Hin as [Hin|Hin]; try done; injection Hin as -> ->;
    repeat match goal with |- context [evidence_text ?x] => specialize (He x); destruct (evidence_text x); try done end;
    repeat case_match; try done;
    match goal with E : evidence_text ?x = _ |- _ => specialize (He x); rewrite E in He; done end.
Qed.
End tokens.

(** ** Accounting *)

(** The items of a rule. *)
Definition of_rule (r : Z) (kv : string * pending_item) : Prop := rule_id (item_rule kv.2) = r.
#[export] Instance of_rule_dec r kv : Decision (of_rule r kv).
Proof. unfold of_rule. apply _. Defined.
Definition keys_of (r : Z) (p : list (string * pending_item)) : list string := (filter (of_rule r) p).*1.
Definition hits_of (r : Z) (p : list (string * pending_item)) : Z :=
  foldr (fun kv n => (if decide (of_rule r kv) then item_hits kv.2 else 0) + n) 0 p.
Definition count (m : gmap Z Z) (r : Z) : Z := default 0 (m !! r).
Definition error_count (a : accumulator) (reason : string) (r : Z) : Z := default 0 (errors a !! (reason, r)).

Section accounting.
Context `{FloatRepr} `{Blake2sLaw} `{Ellipsis}.
Context (cfg : inflight_settings) (org : Z).

Lemma bump_count (r n : Z) (m : gmap Z Z) (r' : Z) : count (bump r n m) r' = count m r' + (if decide (r' = r) then n else 0).
Proof.
  unfold count, bump. case_decide; [subst; by rewrite lookup_insert_eq|]. rewrite lookup_insert_ne by done. lia.
Qed.
Lemma bump_error (reason : string) (r n : Z) (m : gmap (string * Z) Z) (k : string * Z) :
  default 0 (bump (reason, r) n m !! k) = default 0 (m !! k) + (if decide (k = (reason, r)) then n else 0).
Proof. unfold bump. case_decide; [subst; by rewrite lookup_insert_eq|]. rewrite lookup_insert_ne by done. lia. Qed.

Lemma hits_of_app r p q : hits_of r (p ++ q) = hits_of r p + hits_of r q.
Proof. unfold hits_of. induction p as [|kv p IH]; [done|]. cbn. rewrite IH. lia. Qed.

Lemma hits_of_cons r kv p :
  hits_of r (kv :: p) = (if decide (of_rule r kv) then item_hits kv.2 else 0) + hits_of r p.
Proof. done. Qed.
Lemma keys_of_cons r kv p : keys_of r (kv :: p) = if decide (of_rule r kv) then kv.1 :: keys_of r p else keys_of r p.
Proof. unfold keys_of. rewrite filter_cons. by case_decide. Qed.

(** Adding one hit to the item of a key. *)
Lemma hits_of_set r key it it' p :
  dict_wf p -> dict_get key p = Some it -> item_rule it' = item_rule it -> item_hits it' = item_hits it + 1 ->
  hits_of r (dict_set key it' p) = hits_of r p + (if decide (rule_id (item_rule it) = r) then 1 else 0) /\
  keys_of r (dict_set key it' p) = keys_of r p.
Proof.
  intros Hwf Hg Hr Hh. induction p as [|[k v] p IH]; [done|]. cbn [dict_set dict_get] in Hg |- *.
  unfold dict_wf, dict_keys in Hwf. cbn in Hwf. apply NoDup_cons in Hwf as [_ Hwf].
  destruct (String.eqb key k); rewrite !hits_of_cons, !keys_of_cons; cbn [fst snd].
  - injection Hg as ->. repeat case_decide; unfold of_rule in *; cbn [snd] in *; rewrite ?Hr in *; try done; split; (lia || done).
  - destruct (IH Hwf Hg) as [IH1 IH2]. rewrite IH1, IH2. split; [lia|done].
Qed.

Definition accounted (a : accumulator) : Prop :=
  dict_wf (pending a) /\
  Forall (fun kv => kv.1 = pending_key org (item_rule kv.2) (item_token kv.2)) (pending a) /\
  forall r,
    count (matched a) r =
      hits_of r (pending a) + count (overflow a) r + error_count a "group_by_unresolved" r /\
    count (keys_per_rule a) r = Z.of_nat (length (keys_of r (pending a))) /\
    error_count a "key_cap" r = count (overflow a) r.

(** A match already counted in [matched] and not yet placed. *)
Definition accounted_but (rid : Z) (a : accumulator) : Prop :=
  dict_wf (pending a) /\
  Forall (fun kv => kv.1 = pending_key org (item_rule kv.2) (item_token kv.2)) (pending a) /\
  forall r,
    count (matched a) r =
      hits_of r (pending a) + count (overflow a) r + error_count a "group_by_unresolved" r + (if decide (r = rid) then 1 else 0) /\
    count (keys_per_rule a) r = Z.of_nat (length (keys_of r (pending a))) /\
    error_count a "key_cap" r = count (overflow a) r.

Lemma dict_set_app {A} k (v : A) d : dict_get k d = None -> dict_set k v d = d ++ [(k, v)].
Proof.
  induction d as [|[k' v'] d IH]; [done|]. cbn. destruct (String.eqb k k'); [done|]. intros Hn. by rewrite IH.
Qed.

Lemma add_token_accounted rule envelope integ gv token a :
  accounted_but (rule_id rule) a -> accounted (add_token cfg rule envelope org integ gv token a).
Proof.
  intros (Hwf & Hk & Ha). unfold add_token. set (key := pending_key org rule token).
  destruct (dict_get key (pending a)) as [it|] eqn:Hg.
  - set (ptr := event_source_pointer _ _ _).
    assert (rule_id (item_rule it) = rule_id rule) as Hid.
    { rewrite Forall_forall in Hk. apply dict_get_elem in Hg. specialize (Hk _ Hg). cbn in Hk.
      apply pending_key_inj in Hk. by destruct Hk as (_ & -> & _). }
    split; [by apply dict_set_wf|]. split.
    + cbn [pending set_pending]. clear Ha. induction (pending a) as [|[k v] p IH]; [done|]. cbn in Hg |- *.
      apply Forall_cons in Hk as [Hk1 Hk2]. apply NoDup_cons in Hwf as [_ Hwf].
      destruct (String.eqb_spec key k) as [<-|]; apply Forall_cons; (split; [|by auto]); [|done].
      injection Hg as ->. done.
    + intros r. destruct (hits_of_set r key it (again rule ptr it) _ Hwf Hg eq_refl eq_refl) as [Hh' Hk'].
      destruct (Ha r) as (HA & HB & HC). cbn [pending set_pending matched overflow keys_per_rule]. unfold error_count in *.
      cbn [errors set_pending]. rewrite Hh', Hk', Hid. repeat case_decide; try congruence; split_and!; lia.
  - case_match eqn:Hcap.
    + split; [done|]. split; [done|]. intros r. destruct (Ha r) as (HA & HB & HC). cbn [matched pending overflow keys_per_rule count_error].
      unfold error_count in *. cbn [errors count_error]. rewrite !bump_error, bump_count.
      repeat case_decide; simplify_eq; try congruence; split_and!; lia.
    + cbn [set_pending]. split; [by apply dict_set_wf|]. cbn [pending]. rewrite (dict_set_app key) by done. split.
      { apply Forall_app. split; [done|]. by apply Forall_singleton. }
      intros r. destruct (Ha r) as (HA & HB & HC). cbn [matched overflow keys_per_rule]. unfold error_count in *. cbn [errors].
      rewrite hits_of_app, bump_count. unfold keys_of. rewrite filter_app, fmap_app, length_app. fold (keys_of r (pending a)).
      rewrite filter_cons, filter_nil. cbn [hits_of foldr snd item_hits]. unfold of_rule. cbn [snd item_rule].
      repeat case_decide; try congruence; cbn [length fmap list_fmap]; split_and!; lia.
Qed.

Lemma add_accounted rule envelope integ a :
  accounted a -> accounted (add cfg rule envelope org integ a).
Proof.
  intros (Hwf & Hk & Ha). unfold add.
  set (a1 := Accumulator _ _ _ _ _ _ _).
  assert (accounted_but (rule_id rule) a1) as Hb1.
  { split; [done|]. split; [done|]. intros r. destruct (Ha r) as (HA & HB & HC). unfold error_count in *.
    cbn [errors matched overflow pending keys_per_rule a1]. rewrite bump_count. case_decide; split_and!; lia. }
  assert (forall reason, reason <> "group_by_unresolved" -> reason <> "key_cap" -> accounted_but (rule_id rule) (count_error reason (rule_id rule) 1 a1)) as Hb2.
  { intros reason Hn1 Hn2. destruct Hb1 as (Hw1 & Hk1 & Hc1). split; [done|]. split; [done|]. intros r.
    destruct (Hc1 r) as (HA & HB & HC). unfold error_count in *. cbn [errors count_error matched overflow pending keys_per_rule].
    rewrite !bump_error. repeat case_decide; simplify_eq; split_and!; lia. }
  destruct (group_by_path rule) as [path|]; [|by apply add_token_accounted].
  destruct (is_none _).
  - destruct Hb1 as (Hw1 & Hk1 & Hc1). split; [done|]. split; [done|]. intros r. destruct (Hc1 r) as (HA & HB & HC).
    unfold error_count in *. cbn [errors count_error matched overflow pending keys_per_rule]. rewrite !bump_error.
    repeat case_decide; simplify_eq; try congruence; split_and!; lia.
  - apply add_token_accounted. case_match; [by apply Hb2|done].
Qed.
(** The matches of a cycle, one after another. *)
Definition adds (integ : option Z) (ms : list (compiled_inflight_rule * pyval)) (a : accumulator) : accumulator :=
  foldl (fun a m => add cfg m.1 m.2 org integ a) a ms.
Definition matches_of (r : Z) (ms : list (compiled_inflight_rule * pyval)) : Z :=
  foldr (fun m n => (if decide (rule_id m.1 = r) then 1 else 0) + n) 0 ms.

Lemma add_matched rule envelope integ a r :
  count (matched (add cfg rule envelope org integ a)) r = count (matched a) r + (if decide (rule_id rule = r) then 1 else 0).
Proof.
  assert (forall m, count (bump (rule_id rule) 1 m) r = count m r + (if decide (rule_id rule = r) then 1 else 0)) as Hb.
  { intros m. rewrite bump_count. repeat case_decide; congruence. }
  unfold add, add_token. destruct (group_by_path rule); repeat case_match; cbn [matched count_error set_pending]; apply Hb.
Qed.

Lemma adds_matched integ ms a r : count (matched (adds integ ms a)) r = count (matched a) r + matches_of r ms.
Proof.
  revert a. induction ms as [|m ms IH]; intros a; cbn [adds foldl matches_of foldr]; [lia|].
  fold (adds integ ms (add cfg m.1 m.2 org integ a)). rewrite IH, add_matched. unfold matches_of. lia.
Qed.

Lemma adds_accounted integ ms a : accounted a -> accounted (adds integ ms a).
Proof. revert a. induction ms as [|m ms IH]; intros a Ha; [done|]. cbn. apply IH. by apply add_accounted. Qed.

(** A new key is created only below the cap of its rule. *)
Lemma add_keys_cap rule envelope integ a r c :
  0 <= c -> (rule_id rule = r -> key_cap cfg rule <= c) -> count (keys_per_rule a) r <= c ->
  count (keys_per_rule (add cfg rule envelope org integ a)) r <= c.
Proof.
  intros Hc Hr Ha.
  assert (forall gv token b, count (keys_per_rule b) r <= c ->
            count (keys_per_rule (add_token cfg rule envelope org integ gv token b)) r <= c) as Ht.
  { intros gv token b Hb. unfold add_token. destruct (dict_get _ _); [done|]. case_match eqn:Hcap; [done|].
    cbn [keys_per_rule]. rewrite bump_count. apply Z.leb_gt in Hcap. fold (count (keys_per_rule b) (rule_id rule)) in Hcap.
    case_decide as Hd; [subst; specialize (Hr eq_refl); lia|lia]. }
  unfold add. destruct (group_by_path rule); [|by apply Ht]. destruct (is_none _); [done|]. apply Ht. by case_match.
Qed.

(** [detection_accounting] (no match disappears).  After any sequence of
    matches of a cycle, the matches of each rule are exactly those counted as
    hits of its pending detections, those refused by the cap of keys, and those
    whose group value was missing; each refusal is counted as an error; and a
    rule never has more pending detections than its cap. *)
Theorem detection_accounting integ ms r :
  let a := adds integ ms new_accumulator in
  matches_of r ms = hits_of r (pending a) + count (overflow a) r + error_count a "group_by_unresolved" r /\
  error_count a "key_cap" r = count (overflow a) r /\
  forall c, 0 <= c -> Forall (fun m => rule_id m.1 = r -> key_cap cfg m.1 <= c) ms ->
    Z.of_nat (length (keys_of r (pending a))) <= c.
Proof.
  intros a. assert (accounted new_accumulator) as Hnew.
  { split; [apply NoDup_nil_2|]. split; [by apply Forall_nil_2|]. intros r'. done. }
  destruct (adds_accounted integ ms _ Hnew) as (_ & _ & Hc). destruct (Hc r) as (HA & HB & HC). fold a in HA, HB, HC.
  pose proof (adds_matched integ ms new_accumulator r) as Hm. fold a in Hm. change (count (matched new_accumulator) r) with 0 in Hm.
  split; [lia|]. split; [done|]. intros c Hc0 Hcap. rewrite <- HB. unfold a. clear -Hc0 Hcap.
  assert (count (keys_per_rule new_accumulator) r <= c) as Ha by done. revert Ha. generalize new_accumulator.
  induction Hcap as [|m ms Hm Hcap IH]; intros a Ha; [done|]. cbn. apply IH. by apply add_keys_cap.
Qed.
End accounting.

(** ** The flush budget *)

Section budget.
Implicit Types (p : list (string * pending_item)) (groups : list (Z * list string)).

Definition round_keys (n : nat) groups : list string := omap (fun g => g.2 !! n) groups.
(** Round after round. *)
Definition round_robin (from len : nat) groups : list string := concat ((fun n => round_keys n groups) <$> seq from len).

Lemma round_keys_cons n r ks groups :
  round_keys n ((r, ks) :: groups) = option_list (ks !! n) ++ round_keys n groups.
Proof. unfold round_keys. cbn. by destruct (ks !! n). Qed.

Lemma round_spec cap n groups kept :
  (length kept < cap)%nat ->
  round cap n groups kept = (take cap (kept ++ round_keys n groups), match round_keys n groups with [] => false | _ => true end).
Proof.
  revert kept. induction groups as [|[r ks] groups IH]; intros kept Hl; cbn [round].
  { cbn. by rewrite app_nil_r, take_ge by lia. }
  rewrite round_keys_cons. destruct (ks !! n) as [k|]; cbn [option_list option_rect app]; [|by apply IH].
  replace (kept ++ k :: round_keys n groups) with ((kept ++ [k]) ++ round_keys n groups) by (by rewrite <- (assoc_L (++))).
  destruct (Nat.leb_spec cap (length (kept ++ [k]))) as [E|E].
  - f_equal. rewrite length_app in E; cbn [length] in E. rewrite take_app_le by (rewrite length_app; cbn; lia).
    by rewrite take_ge by (rewrite length_app; cbn; lia).
  - by rewrite IH.
Qed.

Lemma round_keys_mono n m groups : (n <= m)%nat -> round_keys n groups = [] -> round_keys m groups = [].
Proof.
  intros Hn. unfold round_keys. induction groups as [|[r ks] groups IH]; [done|]. cbn.
  destruct (ks !! n) eqn:E; [done|]. apply lookup_ge_None in E. intros Hg.
  rewrite (proj2 (lookup_ge_None ks m)) by lia. by apply IH.
Qed.
Lemma round_robin_nil n len groups : round_keys n groups = [] -> round_robin n len groups = [].
Proof.
  intros Hn. unfold round_robin. assert (forall m, (n <= m)%nat -> round_keys m groups = []) as Hm by (intros; by eapply round_keys_mono).
  clear Hn. revert n Hm. induction len as [|len IH]; intros n Hm; [done|]. cbn. rewrite Hm by lia. apply IH. intros m ?. apply Hm. lia.
Qed.

Lemma rounds_unfold fuel cap n groups kept :
  rounds (Datatypes.S fuel) cap n groups kept =
  if (cap <=? length kept)%nat then Some kept
  else let '(kept, advanced) := round cap n groups kept in
       if negb advanced then Some kept else rounds fuel cap (n + 1) groups kept.
Proof. done. Qed.

(** The loop keeps the first [cap] keys of the round-robin order. *)
Lemma rounds_spec fuel cap n groups kept :
  (length kept <= cap)%nat -> round_keys (n + fuel) groups = [] ->
  rounds (Datatypes.S fuel) cap n groups kept = Some (take cap (kept ++ round_robin n fuel groups)).
Proof.
  revert n kept. induction fuel as [|fuel IH]; intros n kept Hl Hn.
  - rewrite Nat.add_0_r in Hn. cbn [rounds]. destruct (Nat.leb_spec cap (length kept)) as [E|E].
    + unfold round_robin. cbn. by rewrite app_nil_r, take_ge by lia.
    + rewrite round_spec by done. rewrite Hn. cbn. by rewrite app_nil_r.
  - rewrite rounds_unfold. destruct (Nat.leb_spec cap (length kept)) as [E|E].
    { rewrite take_app_le by lia. by rewrite take_ge by lia. }
    rewrite round_spec by done. destruct (round_keys n groups) as [|k ks] eqn:Hk; cbn [negb].
    + rewrite (round_robin_nil n) by done. done.
    + rewrite IH; [|rewrite length_take; lia|by replace (n + 1 + fuel)%nat with (n + Datatypes.S fuel)%nat by lia].
      f_equal. unfold round_robin. cbn [seq fmap list_fmap concat]. rewrite Hk, Nat.add_1_r, (assoc_L (++) kept (k :: ks)).
      set (l := kept ++ k :: ks). generalize (concat ((λ m, round_keys m groups) <$> seq (Datatypes.S n) fuel)). intros tl.
      destruct (decide (length l <= cap)%nat).
      * by rewrite (take_ge l) by done.
      * rewrite !take_app_le by (rewrite ?length_take; lia). by rewrite take_take, Nat.min_id.
Qed.

(** [by_rule] lists each rule once, with all its keys in order. *)
Lemma group_key_spec rid key groups :
  (group_key rid key groups).*1 = (if bool_decide (rid ∈ groups.*1) then groups.*1 else groups.*1 ++ [rid]) /\
  concat (group_key rid key groups).*2 ≡ₚ concat groups.*2 ++ [key].
Proof.
  induction groups as [|[r ks] groups [IH1 IH2]]; [done|]. cbn. destruct (Z.eqb_spec r rid) as [->|Hne]; cbn.
  - rewrite bool_decide_eq_true_2 by (by left). split; [done|].
    rewrite <- !(assoc_L (++)). f_equiv. by rewrite (comm (++)).
  - rewrite IH1, IH2. split; [|by rewrite (assoc_L (++))].
    case_bool_decide as Hd; [rewrite bool_decide_eq_true_2 by (by right)|rewrite bool_decide_eq_false_2]; try done.
    intros [?|?]%elem_of_cons; congruence.
Qed.

Fixpoint keys_at (r : Z) groups : list string :=
  match groups with [] => [] | (r', ks) :: rest => if r' =? r then ks else keys_at r rest end.

Lemma keys_at_group_key rid key groups r :
  keys_at r (group_key rid key groups) = keys_at r groups ++ (if decide (r = rid) then [key] else []).
Proof.
  induction groups as [|[r' ks] groups IH]; cbn.
  - destruct (Z.eqb_spec rid r), (decide (r = rid)); subst; congruence.
  - destruct (Z.eqb_spec r' rid) as [->|Hne]; cbn.
    + destruct (Z.eqb_spec rid r) as [->|]; [by rewrite decide_True|]. rewrite decide_False by congruence. by rewrite app_nil_r.
    + destruct (Z.eqb_spec r' r) as [->|]; [|done]. by rewrite decide_False, app_nil_r by done.
Qed.

Lemma keys_at_elem groups r ks : NoDup groups.*1 -> (r, ks) ∈ groups -> keys_at r groups = ks.
Proof.
  induction groups as [|[r' ks'] groups IH]; cbn; intros Hd Hin; [by apply elem_of_nil in Hin|].
  apply NoDup_cons in Hd as [Hn Hd]. apply elem_of_cons in Hin as [[= -> ->]|Hin]; [by rewrite Z.eqb_refl|].
  destruct (Z.eqb_spec r' r) as [->|]; [|by apply IH]. exfalso. apply Hn. by apply (list_elem_of_fmap_2 fst) in Hin.
Qed.

Lemma by_rule_snoc p kv : by_rule (p ++ [kv]) = group_key (rule_id (item_rule kv.2)) kv.1 (by_rule p).
Proof. unfold by_rule. by rewrite foldl_app. Qed.

Lemma by_rule_spec p :
  NoDup (by_rule p).*1 /\ concat (by_rule p).*2 ≡ₚ p.*1 /\ forall r, keys_at r (by_rule p) = keys_of r p.
Proof.
  induction p as [|kv p (IH1 & IH2 & IH3)] using rev_ind; [split_and!; [apply NoDup_nil_2|done|done]|].
  rewrite by_rule_snoc. destruct (group_key_spec (rule_id (item_rule kv.2)) kv.1 (by_rule p)) as [G1 G2]. split_and!.
  - rewrite G1. case_bool_decide; [done|]. apply NoDup_app. split_and!; [done| |apply NoDup_singleton].
    intros x Hx ->%list_elem_of_singleton. done.
  - rewrite G2, IH2, fmap_app. done.
  - intros r. rewrite keys_at_group_key, IH3. unfold keys_of. rewrite filter_app, fmap_app. f_equal.
    rewrite filter_cons, filter_nil. unfold of_rule. repeat case_decide; try done; congruence.
Qed.

(** All the keys come out, once each. *)
Lemma round_robin_perm groups n :
  Forall (fun g => (length g.2 <= n)%nat) groups -> round_robin 0 n groups ≡ₚ concat groups.*2.
Proof.
  induction 1 as [|[r ks] groups Hl Hg IH]; cbn in *.
  - unfold round_robin, round_keys. clear. generalize 0%nat. induction n as [|n IH]; intros m; [done|]. cbn. apply IH.
  - rewrite <- IH. transitivity (concat ((fun n => option_list (ks !! n)) <$> seq 0 n) ++ round_robin 0 n groups).
    + unfold round_robin, round_keys. clear. generalize 0%nat. induction n as [|n IH]; intros m; [done|]. cbn. rewrite IH.
      destruct (ks !! m); cbn; [|by rewrite !(assoc_L (++)), (comm (++) (omap _ _) (concat _))].
      f_equiv. by rewrite !(assoc_L (++)), (comm (++) (omap _ _) (concat _)).
    + f_equiv. clear -Hl. assert (concat ((fun n => option_list (ks !! n)) <$> seq 0 n) = ks) as ->; [|done].
      revert n Hl. induction ks as [|k ks IH]; intros n Hl.
      { clear. generalize 0%nat. induction n as [|n IH]; intros m; [done|]. cbn. by rewrite lookup_nil, IH. }
      destruct n as [|n]; [cbn in Hl; lia|]. cbn. f_equal. rewrite <- fmap_S_seq, <- list_fmap_compose.
      apply (IH n). cbn in Hl. lia.
Qed.

Definition order_of p : list string := round_robin 0 (Datatypes.S (length p)) (by_rule p).

Lemma by_rule_length p g : g ∈ by_rule p -> (length g.2 <= length p)%nat.
Proof.
  intros Hg. destruct (by_rule_spec p) as (Hd & _ & Hk). destruct g as [r ks]. cbn.
  apply keys_at_elem in Hg; [|done]. rewrite <- Hg, Hk. unfold keys_of. rewrite length_fmap. apply length_filter.
Qed.

Lemma order_perm p : order_of p ≡ₚ p.*1.
Proof.
  unfold order_of. rewrite round_robin_perm; [by destruct (by_rule_spec p) as (_ & -> & _)|].
  apply Forall_forall. intros g Hg%by_rule_length. lia.
Qed.

Lemma rounds_order p cap :
  rounds (rounds_fuel p) cap 0 (by_rule p) [] = Some (take cap (order_of p)).
Proof.
  unfold rounds_fuel, order_of. rewrite rounds_spec; [done|cbn; lia|]. unfold round_keys.
  assert (Forall (fun g => (length g.2 <= length p)%nat) (by_rule p)) as Hf by (apply Forall_forall; apply by_rule_length).
  revert Hf. generalize (length p). generalize (by_rule p). intros groups n Hf.
  induction Hf as [|[r ks] groups Hl Hf IH]; [done|]. cbn in *. rewrite (proj2 (lookup_ge_None ks _)) by lia. done.
Qed.

(** A key comes out in the round of its rank within its rule. *)
Lemma round_keys_elem p n k : k ∈ round_keys n (by_rule p) <-> exists r, keys_of r p !! n = Some k.
Proof.
  destruct (by_rule_spec p) as (Hd & _ & Hk). unfold round_keys. rewrite list_elem_of_omap. split.
  - intros ([r ks] & Hin & Hn). exists r. rewrite <- Hk. cbn in Hn. by rewrite (keys_at_elem _ _ _ Hd Hin).
  - intros [r Hn]. rewrite <- Hk in Hn. clear Hk Hd. induction (by_rule p) as [|[r' ks] groups IH]; [done|]. cbn in Hn.
    destruct (r' =? r); [exists (r', ks); split; [by left|done]|]. destruct (IH Hn) as (g & Hg & Hg2). exists g. split; [by right|done].
Qed.

Lemma keys_of_elem r p k : k ∈ keys_of r p <-> exists it, (k, it) ∈ p /\ rule_id (item_rule it) = r.
Proof.
  unfold keys_of. rewrite list_elem_of_fmap. split.
  - intros ([k' it] & -> & [Hr Hin]%list_elem_of_filter). by exists it.
  - intros (it & Hin & Hr). exists (k, it). split; [done|]. by apply list_elem_of_filter.
Qed.

Lemma keys_of_rank p r1 r2 n1 n2 k :
  NoDup p.*1 -> keys_of r1 p !! n1 = Some k -> keys_of r2 p !! n2 = Some k -> r1 = r2 /\ n1 = n2.
Proof.
  intros Hd E1 E2. pose proof (list_elem_of_lookup_2 _ _ _ E1) as (it1 & I1 & <-)%keys_of_elem.
  pose proof (list_elem_of_lookup_2 _ _ _ E2) as (it2 & I2 & <-)%keys_of_elem.
  assert (it1 = it2) as -> by (pose proof (dict_elem_get k it1 p Hd I1); pose proof (dict_elem_get k it2 p Hd I2); congruence).
  split; [done|]. eapply NoDup_lookup; [|exact E1|exact E2]. unfold keys_of.
  eapply (sublist_NoDup _ _ Hd), fmap_sublist, sublist_filter.
Qed.

Lemma round_robin_split len1 len2 n groups :
  round_robin n (len1 + len2) groups = round_robin n len1 groups ++ round_robin (n + len1) len2 groups.
Proof. unfold round_robin. by rewrite seq_app, fmap_app, concat_app. Qed.

Lemma round_robin_elem n len groups k :
  k ∈ round_robin n len groups <-> exists m, (n <= m < n + len)%nat /\ k ∈ round_keys m groups.
Proof.
  unfold round_robin. revert n. induction len as [|len IH]; intros n; cbn.
  - rewrite elem_of_nil. split; [done|]. intros (m & ? & _). lia.
  - rewrite elem_of_app, IH. split.
    + intros [Hk|(m & Hm & Hk)]; [exists n|exists m]; (split; [lia|done]).
    + intros (m & Hm & Hk). destruct (decide (m = n)) as [->|]; [by left|]. right. exists m. split; [lia|done].
Qed.

(** When a key is among the first [cap], so are all the keys of lower rank. *)
Lemma order_fair p cap r i k s j l :
  NoDup p.*1 -> keys_of r p !! i = Some k -> keys_of s p !! j = Some l -> (j < i)%nat ->
  k ∈ take cap (order_of p) -> l ∈ take cap (order_of p).
Proof.
  intros Hd Hk Hl Hji Hin.
  assert (i <= length p)%nat as Hi.
  { apply lookup_lt_Some in Hk. unfold keys_of in Hk. rewrite length_fmap in Hk. pose proof (length_filter (of_rule r) p). lia. }
  unfold order_of in *. replace (Datatypes.S (length p)) with (i + (Datatypes.S (length p) - i))%nat in * by lia.
  rewrite round_robin_split in *. set (early := round_robin 0 i (by_rule p)) in *.
  assert (k ∉ early) as Hne.
  { intros (m & Hm & (r' & Hr')%round_keys_elem)%round_robin_elem. destruct (keys_of_rank p r r' i m k Hd Hk Hr'). lia. }
  assert (l ∈ early) as Hle.
  { apply round_robin_elem. exists j. split; [lia|]. apply round_keys_elem. by exists s. }
  destruct (decide (cap <= length early)%nat) as [Hc|Hc].
  - rewrite take_app_le in Hin by done. exfalso. apply Hne. eapply elem_of_sublist; [done|apply sublist_take].
  - rewrite take_app_ge by lia. apply elem_of_app. by left.
Qed.

Lemma count_errors_pending reason l a :
  pending (foldl (fun a (kv : string * pending_item) => count_error reason (rule_id (item_rule kv.2)) 1 a) a l) = pending a /\
  matched (foldl (fun a (kv : string * pending_item) => count_error reason (rule_id (item_rule kv.2)) 1 a) a l) = matched a.
Proof. revert a. induction l as [|kv l IH]; intros a; [done|]. cbn. by destruct (IH (count_error reason (rule_id (item_rule kv.2)) 1 a)) as [-> ->]. Qed.

Lemma count_errors_count reason l a r :
  error_count (foldl (fun a (kv : string * pending_item) => count_error reason (rule_id (item_rule kv.2)) 1 a) a l) reason r =
  error_count a reason r + Z.of_nat (length (keys_of r l)).
Proof.
  revert a. induction l as [|kv l IH]; intros a; [cbn; lia|]. cbn [foldl]. rewrite IH, keys_of_cons.
  unfold error_count. cbn [errors count_error]. rewrite bump_error. unfold of_rule. repeat case_decide; simplify_eq; try congruence; cbn [length]; lia.
Qed.

(** What stays and what goes share the keys of a rule. *)
Lemma keys_of_split r (P : string * pending_item -> Prop) `{!forall kv, Decision (P kv)} p :
  length (keys_of r p) = (length (keys_of r (filter P p)) + length (keys_of r (filter (fun kv => ~ P kv) p)))%nat.
Proof.
  induction p as [|kv p IH]; [done|]. rewrite !filter_cons, keys_of_cons.
  destruct (decide (P kv)) as [Hin|Hin];
    [rewrite (decide_False (P := ~ P kv)) by (intros Hn; exact (Hn Hin))|rewrite (decide_True (P := ~ P kv)) by done];
    rewrite keys_of_cons; case_decide; cbn [length]; lia.
Qed.

(** [flush_cap_fair] (the budget of a flush is shared).  The flush keeps
    [min cap total] detections, in their order, and counts every dropped one
    against its rule.  Detections are kept by rank: when the [i]-th detection of
    some rule is kept, every rule keeps all of its detections of lower rank, so
    no rule, however noisy, silences another one.  The loop always terminates
    within its fuel. *)
Theorem flush_cap_fair cfg a :
  NoDup (pending a).*1 ->
  let cap := Z.to_nat (Z.max 0 (MAX_DETECTIONS_PER_FLUSH cfg)) in
  let '(a', lost) := apply_flush_cap cfg a in
  length (pending a') = Nat.min cap (length (pending a)) /\
  (lost + length (pending a') = length (pending a))%nat /\
  pending a' `sublist_of` pending a /\ matched a' = matched a /\
  (forall r, error_count a' "flush_cap" r + Z.of_nat (length (keys_of r (pending a'))) =
             error_count a "flush_cap" r + Z.of_nat (length (keys_of r (pending a)))) /\
  (forall r i k s j l, keys_of r (pending a) !! i = Some k -> keys_of s (pending a) !! j = Some l -> (j < i)%nat ->
     k ∈ (pending a').*1 -> l ∈ (pending a').*1).
Proof.
  intros Hd cap. unfold apply_flush_cap. fold cap. set (p := pending a) in *.
  destruct (Nat.leb_spec (length p) cap) as [Hc|Hc].
  { fold p. split_and!; try done; [lia|]. intros r i k s j l _ Hl _ _. apply list_elem_of_lookup_2, keys_of_elem in Hl as (it & Hit & _).
    by apply (list_elem_of_fmap_2 fst) in Hit. }
  rewrite rounds_order. cbn [default from_option id]. set (kept := take cap (order_of p)).
  set (stay := filter (fun kv => kv.1 ∈ kept) p). set (gone := filter (fun kv => kv.1 ∉ kept) p).
  destruct (count_errors_pending "flush_cap" gone (set_pending stay a)) as [Hp Hm]. cbn [pending set_pending matched] in Hp, Hm.
  pose proof (count_errors_count "flush_cap" gone (set_pending stay a)) as He.
  assert (NoDup kept) as Hnk by (apply (sublist_NoDup kept (order_of p)); [rewrite (order_perm p); exact Hd|apply sublist_take]).
  assert (forall k, k ∈ stay.*1 <-> k ∈ kept) as Hst.
  { intros k. unfold stay. rewrite list_elem_of_fmap. split.
    - by intros (kv & -> & [? _]%list_elem_of_filter).
    - intros Hin. assert (k ∈ p.*1) as Hk.
      { rewrite <- (order_perm p). eapply elem_of_sublist; [done|apply sublist_take]. }
      apply list_elem_of_fmap in Hk as (kv & -> & Hkv). exists kv. split; [done|]. by apply list_elem_of_filter. }
  assert (length stay = cap) as Hlen.
  { assert (stay.*1 ≡ₚ kept) as Hperm.
    { apply NoDup_Permutation; [|done|done]. eapply (sublist_NoDup _ _ Hd), fmap_sublist, sublist_filter. }
    apply Permutation_length in Hperm. rewrite length_fmap in Hperm. rewrite Hperm. unfold kept. rewrite length_take.
    rewrite (order_perm p), length_fmap. lia. }
  rewrite Hp. split_and!; [lia|lia|apply sublist_filter|done| |].
  - intros r. rewrite He. unfold error_count at 1. cbn [errors set_pending]. fold (error_count a "flush_cap" r).
    enough (length (keys_of r p) = (length (keys_of r stay) + length (keys_of r gone))%nat) by lia.
    apply keys_of_split.
  - intros r i k s j l Hk Hl Hji Hin. apply Hst. apply Hst in Hin. by apply (order_fair p cap r i k s j l).
Qed.
End budget.

(** ** Examples *)

Section examples.
#[local] Existing Instances demo_float_repr.
#[local] Instance demo_blake : Blake2s := fun _ => "0123456789abcdef".
#[local] Instance demo_blake_law : Blake2sLaw := fun _ => eq_refl.
#[local] Instance demo_ellipsis : Ellipsis := "."%char.

Definition demo_settings : inflight_settings := InflightSettings 8 3 2.
Definition noisy (id : Z) : compiled_inflight_rule :=
  CompiledInflightRule id "r" 4 3600 (Some ["raw"; "user"]) [] false None 1 0 None 0 "" false 0.
Definition demo_seen (user : pyval) : pyval := PDict [("raw", PDict [("user", user)])].

(** A noisy rule, a quiet one, a match without a group value and one too many. *)
Definition demo_matches : list (compiled_inflight_rule * pyval) :=
  [(noisy 1, demo_seen (PStr "ana")); (noisy 1, demo_seen (PStr "bob")); (noisy 1, demo_seen (PStr "ana"));
   (noisy 1, demo_seen (PStr "a.very.long.name")); (noisy 1, demo_seen (PStr "dan")); (noisy 1, demo_seen PNone);
   (noisy 2, demo_seen (PStr "ana"))].
Definition demo_acc : accumulator := adds demo_settings 3 (Some 7) demo_matches new_accumulator.

Lemma detection_accounting_witness :
  6 = hits_of 1 (pending demo_acc) + 1 + 1 /\ keys_of 1 (pending demo_acc)
    = ["inflight:3:1:ana"; "inflight:3:1:bob"; "inflight:3:1:a.very.l~0123456789abcdef"] /\
  Z.of_nat (length (keys_of 1 (pending demo_acc))) <= 3.
Proof.
  destruct (detection_accounting demo_settings 3 (Some 7) demo_matches 1) as (Hm & _ & Hc).
  split; [exact Hm|]. split; [vm_compute; reflexivity|]. apply Hc; [lia|].
  repeat (apply Forall_cons_2 || apply Forall_nil_2); intros; vm_compute; discriminate.
Defined.

(** Two detections fit: one of each rule. *)
Lemma flush_cap_fair_witness :
  (pending (apply_flush_cap demo_settings demo_acc).1).*1 = ["inflight:3:1:ana"; "inflight:3:2:ana"] /\
  error_count (apply_flush_cap demo_settings demo_acc).1 "flush_cap" 1 = 2.
Proof.
  pose proof (flush_cap_fair demo_settings demo_acc) as Hf.
  destruct (apply_flush_cap demo_settings demo_acc) as [a' lost] eqn:Ha.
  assert (a' = (apply_flush_cap demo_settings demo_acc).1) as -> by (rewrite Ha; reflexivity).
  destruct Hf as (_ & _ & _ & _ & He & _).
  - apply (bool_decide_unpack _). vm_compute. exact I.
  - split; [vm_compute; reflexivity|]. specialize (He 1).
    assert (length (keys_of 1 (pending (apply_flush_cap demo_settings demo_acc).1)) = 1%nat) as Hl by (vm_compute; reflexivity).
    assert (length (keys_of 1 (pending demo_acc)) = 3%nat) as Hp by (vm_compute; reflexivity).
    assert (error_count demo_acc "flush_cap" 1 = 0) as H0 by (vm_compute; reflexivity).
    cbn [fst] in *. rewrite Hl, Hp, H0 in He. lia.
Defined.
End examples.
