(* ===== verification/Ocsf.v ===== *)
(** * OCSF structural validation

    Models [normalize/ocsf/validator.py] (the structural gate over a normalized
    event) and [ocsf_policy.py] (what the pipeline does with its verdict).  The
    vendored manifest is an argument: a map from class to its specification. *)

From S2P Require Import Prelude PyVal Conditions.

Local Open Scope string_scope.
Local Open Scope list_scope.
Local Open Scope Z_scope.

Inductive ocsf_reason :=
| ROk | ROutOfScope | RUnknownClass | RCategoryMismatch | RBadSeverity | RBadActivity | RTypeUidMismatch | RBadStatus.

Definition SEVERITY_IDS : list Z := [0; 1; 2; 3; 4; 5; 6; 99].
Definition ENGINE_PROVIDED : list string :=
  ["class_uid"; "category_uid"; "type_uid"; "activity_id"; "severity_id"; "time"; "metadata"].

Record ocsf_class_spec := OcsfClassSpec {
  spec_name : string;
  spec_category_uid : Z;
  spec_activity_ids : list Z;
  spec_status_ids : list Z;
  spec_required : list string;
}.

Record ocsf_result := OcsfResult {
  gate_valid : bool;
  gate_reason : ocsf_reason;
  gate_in_scope : bool;
  gate_type_uid : option Z;
  gate_class_uid : option Z;
  gate_class_name : string;
  gate_missing_required : list string;
}.

(** [_is_ocsf_int]: an [int] that is not a [bool]. *)
Definition ocsf_int (v : pyval) : option Z := match v with PInt z => Some z | _ => None end.
Definition derive_type_uid (class_uid activity_id : Z) : Z := class_uid * 100 + activity_id.

(** [_is_ocsf_int(v) and v in ids]. *)
Definition enum_member (v : pyval) (ids : list Z) : bool :=
  match ocsf_int v with Some z => bool_decide (z ∈ ids) | None => false end.

Definition gate_failure (reason : ocsf_reason) (class_uid : Z) (spec : ocsf_class_spec) (type_uid : option Z) : ocsf_result :=
  OcsfResult false reason true type_uid (Some class_uid) (spec_name spec) [].

Definition structural_gate (registry : gmap Z ocsf_class_spec) (normalized : list (string * pyval)) : ocsf_result :=
  match ocsf_int (dget "class_uid" normalized) with
  | None => OcsfResult false RUnknownClass true None None "" []
  | Some class_uid =>
      if class_uid <? 0 then OcsfResult false RUnknownClass true None (Some class_uid) "" []
      else
        match registry !! class_uid with
        | None => OcsfResult false ROutOfScope false None (Some class_uid) "" []
        | Some spec =>
            if negb (py_eq (dget "category_uid" normalized) (PInt (spec_category_uid spec)))
            then gate_failure RCategoryMismatch class_uid spec None
            else if negb (enum_member (dget "severity_id" normalized) SEVERITY_IDS)
            then gate_failure RBadSeverity class_uid spec None
            else
              match ocsf_int (dget "activity_id" normalized) with
              | Some activity_id =>
                  if negb (bool_decide (activity_id ∈ spec_activity_ids spec)) then gate_failure RBadActivity class_uid spec None
                  else
                    let expected := derive_type_uid class_uid activity_id in
                    if negb (py_eq (dget "type_uid" normalized) (PInt expected))
                    then gate_failure RTypeUidMismatch class_uid spec (Some expected)
                    else if negb (is_none (dget "status_id" normalized)) &&
                            negb (enum_member (dget "status_id" normalized) (spec_status_ids spec))
                    then gate_failure RBadStatus class_uid spec (Some expected)
                    else
                      OcsfResult true ROk true (Some expected) (Some class_uid) (spec_name spec)
                        (filter (fun a => mem a ENGINE_PROVIDED = false /\ is_none (dget a normalized) = true)
                                (spec_required spec))
              | None => gate_failure RBadActivity class_uid spec None
              end
        end
  end.

(** ** The policy *)

Inductive ocsf_action := ActionPass | ActionQuarantine | ActionDrop.

Definition decide_action (valid in_scope : bool) (mode : string) : ocsf_action :=
  if valid || negb in_scope then ActionPass
  else if String.eqb mode "quarantine" then ActionQuarantine
  else if String.eqb mode "fail_closed" then ActionDrop
  else ActionPass.

(** ** The verdict *)

(** What a valid event is, field by field. *)
Definition well_formed_event (registry : gmap Z ocsf_class_spec) (n : list (string * pyval)) : Prop :=
  exists class_uid spec activity_id severity_id,
    dget "class_uid" n = PInt class_uid /\ 0 <= class_uid /\ registry !! class_uid = Some spec /\
    py_eq (dget "category_uid" n) (PInt (spec_category_uid spec)) = true /\
    dget "severity_id" n = PInt severity_id /\ severity_id ∈ SEVERITY_IDS /\
    dget "activity_id" n = PInt activity_id /\ activity_id ∈ spec_activity_ids spec /\
    py_eq (dget "type_uid" n) (PInt (class_uid * 100 + activity_id)) = true /\
    (dget "status_id" n = PNone \/ exists s, dget "status_id" n = PInt s /\ s ∈ spec_status_ids spec).

Lemma ocsf_int_some v z : ocsf_int v = Some z <-> v = PInt z.
Proof. destruct v; cbn; naive_solver. Qed.
Lemma enum_member_true v ids : enum_member v ids = true <-> exists z, v = PInt z /\ z ∈ ids.
Proof.
  unfold enum_member. destruct (ocsf_int v) as [z|] eqn:E.
  - apply ocsf_int_some in E as ->. rewrite bool_decide_eq_true. naive_solver.
  - split; [done|]. intros (z & -> & _). done.
Qed.

(** [gate_sound_complete] (the structural gate).  The gate accepts an event
    exactly when its class is one of the manifest, its category, severity,
    activity, type and status identifiers are consistent with that class; an
    event is out of scope exactly when its class is a non-negative integer that
    the manifest does not hold.  A valid or out-of-scope event is dispatched
    under every policy, and an invalid one is dispatched unless the policy is
    one of the two that forbid it. *)
Theorem gate_sound_complete registry n mode :
  let r := structural_gate registry n in
  (gate_valid r = true <-> well_formed_event registry n) /\
  (gate_in_scope r = false <-> exists c, dget "class_uid" n = PInt c /\ 0 <= c /\ registry !! c = None) /\
  (decide_action (gate_valid r) (gate_in_scope r) mode = ActionPass <->
     well_formed_event registry n \/ gate_in_scope r = false \/ (mode <> "quarantine" /\ mode <> "fail_closed")).
Proof.
  intros r. assert (gate_valid r = true <-> well_formed_event registry n) as Hv.
  { unfold r, structural_gate, well_formed_event. split.
    - destruct (ocsf_int (dget "class_uid" n)) as [c|] eqn:Ec; [|done]. apply ocsf_int_some in Ec.
      destruct (Z.ltb_spec c 0); [done|]. destruct (registry !! c) as [spec|] eqn:Er; [|done].
      destruct (py_eq (dget "category_uid" n) _) eqn:Ecat; cbn [negb]; [|done].
      destruct (enum_member (dget "severity_id" n) _) eqn:Es; cbn [negb]; [|done]. apply enum_member_true in Es as (s & Es & Hs).
      destruct (ocsf_int (dget "activity_id" n)) as [a|] eqn:Ea; [|done]. apply ocsf_int_some in Ea.
      case_bool_decide; cbn [negb]; [|done]. destruct (py_eq (dget "type_uid" n) _) eqn:Et; cbn [negb]; [|done].
      destruct (negb (is_none (dget "status_id" n)) && negb (enum_member (dget "status_id" n) (spec_status_ids spec))) eqn:Est; [done|].
      intros _. exists c, spec, a, s. split_and!; try done. apply andb_false_iff in Est as [Est|Est]; apply negb_false_iff in Est.
      + left. by destruct (dget "status_id" n).
      + right. by apply enum_member_true in Est.
    - intros (c & spec & a & s & -> & Hc & Hr & Hcat & -> & Hs & -> & Ha & Ht & Hst). cbn [ocsf_int].
      apply Z.ltb_ge in Hc as ->. rewrite Hr, Hcat. cbn [negb enum_member ocsf_int].
      rewrite (bool_decide_eq_true_2 _ Hs), (bool_decide_eq_true_2 _ Ha). cbn [negb]. unfold derive_type_uid. rewrite Ht. cbn [negb].
      destruct Hst as [->|(x & -> & Hx)]; [done|]. cbn [is_none negb enum_member ocsf_int andb].
      by rewrite (bool_decide_eq_true_2 _ Hx). }
  assert (gate_in_scope r = false <-> exists c, dget "class_uid" n = PInt c /\ 0 <= c /\ registry !! c = None) as Hi.
  { unfold r, structural_gate. destruct (ocsf_int (dget "class_uid" n)) as [c|] eqn:Ec.
    - apply ocsf_int_some in Ec. rewrite Ec. destruct (Z.ltb_spec c 0); [split; [done|intros (c' & [= <-] & ? & _); lia]|].
      destruct (registry !! c) as [spec|] eqn:Er; [|split; [intros _; by exists c|done]].
      split; [|intros (c' & [= <-] & _ & Hn); congruence]. repeat case_match; done.
    - split; [done|]. intros (c & Hc & _). by rewrite Hc in Ec. }
  split; [exact Hv|]. split; [exact Hi|]. rewrite <- Hv. unfold decide_action.
  destruct (gate_valid r), (gate_in_scope r); cbn; try (split; [by auto|done]).
  destruct (String.eqb_spec mode "quarantine"), (String.eqb_spec mode "fail_closed"); naive_solver.
Qed.

(** The category and type identifiers are compared with Python's [==]: a float
    or a boolean of the same value passes, unlike the other identifiers. *)
Lemma gate_accepts_float_uid :
  let spec := OcsfClassSpec "c" 1 [1] [0; 1] [] in
  gate_valid (structural_gate {[ 1000 := spec ]}
    [("class_uid", PInt 1000); ("category_uid", PBool true); ("severity_id", PInt 1); ("activity_id", PInt 1);
     ("type_uid", PFloat (float_of_Z 100001))]) = true.
Proof. vm_compute. reflexivity. Qed.
