(* ===== verification/Envelope.v ===== *)
(** * The envelope

    Models [normalize/envelope.py]: the canonical envelope of an event, its
    identifier and the tenant check.  SHA-256 and [json.dumps] are the parameters
    of [Dedupe]; the clock and the host name are arguments. *)

From S2P Require Import Prelude PyVal Redaction Routing Dedupe.

Local Open Scope string_scope.
Local Open Scope list_scope.
Local Open Scope Z_scope.

Definition ENVELOPE_ROOTS : list string := ["_centralops"; "normalized"; "raw"].

Record envelope_context := EnvelopeContext {
  ctx_vendor : string;
  ctx_integration_id : option Z;
  ctx_customer_id : option Z;
  ctx_stream : string;
  ctx_event_type : string;
  ctx_mapping_version_id : option string;
  ctx_customer_name : option string;
  ctx_collector_host : string;
  ctx_platform : option string;
  ctx_organization_id : option Z;
  ctx_organization_slug : option string;
  ctx_data_geography : option string;
}.

Definition opt_str (o : option string) : pyval := match o with Some s => PStr s | None => PNone end.
Definition opt_int (o : option Z) : pyval := match o with Some z => PInt z | None => PNone end.

(** [platform], after [__post_init__]. *)
Definition platform_of (c : envelope_context) : string := default (ctx_vendor c) (ctx_platform c).

Section envelope.
Context `{Sha256} `{JsonDumps}.

Definition compute_event_id (raw : list (string * pyval)) (vendor_msg_id : string) : string :=
  if negb (String.eqb vendor_msg_id "") then vendor_msg_id
  else ("sha256:" +:+ sha256_hex (json_dumps raw))%string.

(** The two shapes of the engine's output. *)
Definition source_block (normalized : list (string * pyval)) : list (string * pyval) :=
  match dict_get "normalized" normalized with Some (PDict d) => d | _ => normalized end.

Definition centralops (ocsf_version schema_version collected_at : string) (c : envelope_context)
    (normalized_block : list (string * pyval)) (event_id : string) : list (string * pyval) :=
  [("schema_version", PStr schema_version); ("ocsf_version", PStr ocsf_version);
   ("vendor", PStr (ctx_vendor c)); ("platform", PStr (platform_of c));
   ("integration_id", opt_int (ctx_integration_id c)); ("customer_id", opt_int (ctx_customer_id c));
   ("customer_name", opt_str (ctx_customer_name c)); ("organization_id", opt_int (ctx_organization_id c));
   ("organization_slug", opt_str (ctx_organization_slug c)); ("severity_id", dget "severity_id" normalized_block);
   ("stream", PStr (ctx_stream c)); ("event_type", PStr (ctx_event_type c));
   ("mapping_version_id", opt_str (ctx_mapping_version_id c)); ("collected_at", PStr collected_at);
   ("collector_host", PStr (ctx_collector_host c)); ("event_id", PStr event_id);
   ("data_geography", opt_str (ctx_data_geography c))].

Definition build_envelope (ocsf_version schema_version collected_at : string) (raw normalized : list (string * pyval))
    (c : envelope_context) (vendor_msg_id : string) : envelope :=
  let block := source_block normalized in
  [("_centralops", PDict (centralops ocsf_version schema_version collected_at c block (compute_event_id raw vendor_msg_id)));
   ("normalized", PDict block);
   ("raw", PDict raw)].

(** [cid is not None and cid != ""]. *)
Definition has_customer_id (env : envelope) : bool :=
  let meta := py_or (dget "_centralops" env) (PDict []) in
  let cid := dget "customer_id" (dict_items meta) in
  negb (is_none cid) && negb (py_eq cid (PStr "")).
End envelope.

Section theorems.
Context `{Sha256} `{JsonDumps}.

(** [envelope_contract].  The envelope has exactly the three roots that
    dot-paths are resolved against; its raw block is the given event; its event
    id is the claimed message id whenever there is one; its severity label is
    the normalized severity; and it passes the tenant check exactly when the
    integration has an organization. *)
Theorem envelope_contract ov sv now raw normalized c msg_id :
  let env := build_envelope ov sv now raw normalized c msg_id in
  let block := source_block normalized in
  dict_keys env = ENVELOPE_ROOTS /\
  dget "raw" env = PDict raw /\ dget "normalized" env = PDict block /\
  (msg_id <> "" -> dget "event_id" (event_labels env) = PStr msg_id) /\
  dget "severity_id" (event_labels env) = dget "severity_id" block /\
  dget "organization_id" (event_labels env) = opt_int (ctx_organization_id c) /\
  (has_customer_id env = true <-> is_Some (ctx_customer_id c)).
Proof.
  cbv zeta. split_and!; try done.
  - intros Hne%String.eqb_neq. cbn. unfold compute_event_id. by rewrite Hne.
  - unfold has_customer_id. cbn. destruct (ctx_customer_id c); cbn; split; try done; intros [? [=]].
Qed.
End theorems.
