(* ===== verification/Cursor.v ===== *)
(** * The cursor store

    Models [state/cursor.py] and the checkpoint it writes
    ([CollectionStateRepository.upsert] of [db/repository.py]): the hot copy in
    Redis, the row in SQL, and what each failure leaves behind.  [up_redis] and
    [up_db] say whether the write reaches the server.  [json.dumps] and
    [json.loads] are parameters; time is an argument. *)

From S2P Require Import Prelude PyVal Operators.

Local Open Scope string_scope.
Local Open Scope list_scope.
Local Open Scope Z_scope.

(** [json.dumps(cursor, separators=(",", ":"), default=str)]. *)
Class CursorJson := cursor_dumps : pyval -> string.
(** Reading back what was written gives it back. *)
Definition json_safe `{CursorJson} `{JsonLoads} (v : pyval) : Prop :=
  json_loads (cursor_dumps v) = Ok v /\ cursor_dumps v <> "".

Record collection_state := CollectionState {
  row_cursor : string;
  last_attempt_at : Z;
  last_success_at : option Z;
  last_error : option string;
  consecutive_failures : Z;
  events_collected_total : Z;
  watermark_at : option Z;
  last_run_capped : bool;
}.

(** What a cycle reports. *)
Record checkpoint := Checkpoint {
  cp_cursor : string;
  cp_events : Z;
  cp_error : option string;
  cp_watermark : option Z;
  cp_capped : bool;
}.

(** [if error]: the empty text is not an error. *)
Definition is_error (error : option string) : bool :=
  match error with Some e => negb (String.eqb e "") | None => false end.

Definition upsert (now : Z) (c : checkpoint) (row : option collection_state) : collection_state :=
  match row with
  | None =>
      CollectionState (cp_cursor c) now (if is_error (cp_error c) then None else Some now) (cp_error c)
        (if is_error (cp_error c) then 1 else 0) (cp_events c) (cp_watermark c) (cp_capped c)
  | Some r =>
      CollectionState (cp_cursor c) now
        (if is_error (cp_error c) then last_success_at r else Some now)
        (if is_error (cp_error c) then cp_error c else None)
        (if is_error (cp_error c) then consecutive_failures r + 1 else 0)
        (events_collected_total r + cp_events c)
        (match cp_watermark c with Some w => Some w | None => watermark_at r end)
        (match cp_error c with None => cp_capped c | Some _ => last_run_capped r end)
  end.

Definition hot_key (integration_id : Z) (stream : string) : string :=
  ("collection:cursor:" +:+ str_of_Z integration_id +:+ ":" +:+ stream)%string.

(** The two levels. *)
Record cursor_store := CursorStore {
  hot : gmap string string;
  rows : gmap (Z * string) collection_state;
}.

Section cursor.
Context `{CursorJson} `{JsonLoads}.

(** [json.loads(raw)], [None] for a [JSONDecodeError]. *)
Definition loads_or_none (raw : string) : result (option pyval) :=
  try_except (v ← json_loads raw; Ok (Some v)) (fun e => match e with EJsonDecode => true | _ => false end) (fun _ => Ok None).

Definition load_cold (integration_id : Z) (stream : string) (s : cursor_store) : result (option pyval) :=
  match rows s !! (integration_id, stream) with
  | Some row => if String.eqb (row_cursor row) "" then Ok None else loads_or_none (row_cursor row)
  | None => Ok None
  end.

Definition load_cursor (up_redis : bool) (integration_id : Z) (stream : string) (s : cursor_store) : result (option pyval) :=
  if negb up_redis then Raise EOther
  else
    match hot s !! hot_key integration_id stream with
    | Some raw =>
        if String.eqb raw "" then load_cold integration_id stream s
        else
          v ← loads_or_none raw;
          match v with Some v => Ok (Some v) | None => load_cold integration_id stream s end
    | None => load_cold integration_id stream s
    end.

Definition save_cursor (up_redis up_db : bool) (now integration_id : Z) (stream : string) (cursor : pyval)
    (events_collected : Z) (error : option string) (watermark : option Z) (capped : bool) (s : cursor_store)
  : cursor_store * result unit :=
  let payload := cursor_dumps cursor in
  let hot' := if up_redis then <[hot_key integration_id stream := payload]> (hot s) else hot s in
  if negb up_db then (CursorStore hot' (rows s), Raise EOther)
  else
    let k := (integration_id, stream) in
    let row := upsert now (Checkpoint payload events_collected error watermark capped) (rows s !! k) in
    (CursorStore hot' (<[k := row]> (rows s)), Ok tt).
End cursor.

Lemma hot_key_inj i1 s1 i2 s2 : hot_key i1 s1 = hot_key i2 s2 -> i1 = i2 /\ s1 = s2.
Proof.
  intros He%(inj (String.append "collection:cursor:")).
  apply split_at_sep in He as [He ->]; [|apply str_of_Z_no_sep..]. by apply str_of_Z_inj in He.
Qed.

(** ** Round trip *)

Section theorems.
Context `{CursorJson} `{JsonLoads}.

Lemma load_hot i st s v :
  json_safe v -> hot s !! hot_key i st = Some (cursor_dumps v) -> load_cursor true i st s = Ok (Some v).
Proof.
  intros Hw Hs. unfold load_cursor. cbn [negb]. rewrite Hs.
  destruct (String.eqb_spec (cursor_dumps v) "") as [He|_]; [by destruct Hw|].
  unfold loads_or_none. by destruct Hw as [-> _].
Qed.
Lemma load_cold_row i st s v r :
  json_safe v -> rows s !! (i, st) = Some r -> row_cursor r = cursor_dumps v -> load_cold i st s = Ok (Some v).
Proof.
  intros Hw Hs Hr. unfold load_cold. rewrite Hs, Hr.
  destruct (String.eqb_spec (cursor_dumps v) "") as [He|_]; [by destruct Hw|].
  unfold loads_or_none. by destruct Hw as [-> _].
Qed.

(** C33 [cursor_round_trip] (the position survives).  After a save that reached
    Redis, the next load returns the saved cursor, even if SQL was down; after a
    save that reached SQL, it returns it too when the hot copy has been lost, is
    empty or is not JSON.  When Redis refused the write and still holds an older
    cursor, the load returns that older one: a position is never invented.  Other
    integrations and streams are not affected. *)
Theorem cursor_round_trip up_redis up_db now i st cursor n error w capped s :
  json_safe cursor ->
  let s' := (save_cursor up_redis up_db now i st cursor n error w capped s).1 in
  (up_redis = true -> load_cursor true i st s' = Ok (Some cursor)) /\
  (up_db = true ->
     (hot s' !! hot_key i st = None \/ exists raw, hot s' !! hot_key i st = Some raw /\ (raw = "" \/ json_loads raw = Raise EJsonDecode)) ->
     load_cursor true i st s' = Ok (Some cursor)) /\
  (up_db = true -> load_cursor true i st (CursorStore ∅ (rows s')) = Ok (Some cursor)) /\
  (forall old, up_redis = false -> json_safe old -> hot s !! hot_key i st = Some (cursor_dumps old) ->
     load_cursor true i st s' = Ok (Some old)) /\
  (forall up i' st', (i', st') <> (i, st) -> load_cursor up i' st' s' = load_cursor up i' st' s).
Proof.
  intros Hw s'. unfold save_cursor in s'.
  assert (up_db = true -> exists r, rows s' !! (i, st) = Some r /\ row_cursor r = cursor_dumps cursor) as Hrow.
  { intros ->. unfold s'. cbn. rewrite lookup_insert_eq. eexists. split; [done|]. unfold upsert. by destruct (rows s !! (i, st)). }
  assert (hot s' = if up_redis then <[hot_key i st := cursor_dumps cursor]> (hot s) else hot s) as Hhot by (unfold s'; by destruct up_db).
  split_and!.
  - intros ->. apply load_hot; [done|]. by rewrite Hhot, lookup_insert_eq.
  - intros Hdb Hlost. destruct (Hrow Hdb) as (r & Hr & Hc). pose proof (load_cold_row i st s' cursor r Hw Hr Hc) as Hcold.
    unfold load_cursor. cbn [negb]. destruct Hlost as [->|(raw & -> & Hraw)]; [done|].
    destruct (String.eqb_spec raw "") as [->|Hne]; [done|]. destruct Hraw as [->|Hraw]; [done|].
    unfold loads_or_none. rewrite Hraw. exact Hcold.
  - intros Hdb. destruct (Hrow Hdb) as (r & Hr & Hc). unfold load_cursor. cbn. by apply (load_cold_row _ _ _ _ r).
  - intros old -> Hwo Hh. apply load_hot; [done|]. by rewrite Hhot.
  - intros up i' st' Hne. unfold load_cursor. destruct up; cbn [negb]; [|done].
    assert (hot s' !! hot_key i' st' = hot s !! hot_key i' st') as ->.
    { rewrite Hhot. destruct up_redis; [|done]. apply lookup_insert_ne. intros [-> ->]%hot_key_inj. done. }
    assert (load_cold i' st' s' = load_cold i' st' s) as ->; [|done].
    unfold load_cold. assert (rows s' !! (i', st') = rows s !! (i', st')) as ->; [|done].
    unfold s'. destruct up_db; cbn; [|done]. by apply lookup_insert_ne.
Qed.
End theorems.

(** ** The health of a stream *)

Definition upserts (cs : list (Z * checkpoint)) : option collection_state :=
  foldl (fun row c => Some (upsert c.1 c.2 row)) None cs.

(** The failures since the last success. *)
Definition trailing_failures (cs : list (Z * checkpoint)) : Z :=
  foldl (fun n c => if is_error (cp_error c.2) then n + 1 else 0) 0 cs.
Definition last_some {A B} (f : A -> option B) (l : list A) : option B :=
  foldl (fun o a => match f a with Some b => Some b | None => o end) None l.

(** A cycle that failed says so with a text, and its cursor and watermark are
    those of the cycle before. *)
Definition proper_report (c : checkpoint) : Prop := cp_error c <> Some "".

(** [checkpoint_history] (the row tells the history).  After any sequence of
    cycles that report their failures with a non-empty text, the row holds the
    cursor of the last cycle, the number of failures since the last success, the
    last error if the last cycle failed, the sum of the events, the most recent
    watermark any cycle reported, and the backlog flag of the last success. *)
Theorem checkpoint_history cs t c :
  Forall (fun x => proper_report x.2) (cs ++ [(t, c)]) ->
  exists row, upserts (cs ++ [(t, c)]) = Some row /\
    row_cursor row = cp_cursor c /\ last_attempt_at row = t /\
    consecutive_failures row = trailing_failures (cs ++ [(t, c)]) /\
    last_error row = cp_error c /\
    last_success_at row = last_some (fun x => if is_error (cp_error x.2) then None else Some x.1) (cs ++ [(t, c)]) /\
    events_collected_total row = foldr (fun x n => cp_events x.2 + n) 0 (cs ++ [(t, c)]) /\
    watermark_at row = last_some (fun x => cp_watermark x.2) (cs ++ [(t, c)]) /\
    (forall x, last_some (fun x => match cp_error x.2 with None => Some (cp_capped x.2) | Some _ => None end) (cs ++ [(t, c)]) = Some x ->
       last_run_capped row = x).
Proof.
  intros Hp. assert (forall l : list (Z * checkpoint), forall x, foldr (fun x n => cp_events x.2 + n) 0 (l ++ [x]) = foldr (fun x n => cp_events x.2 + n) 0 l + cp_events x.2) as Hsum.
  { intros l x. induction l as [|y l IH]; cbn; [lia|]. rewrite IH. lia. }
  assert (forall c, proper_report c -> is_error (cp_error c) = match cp_error c with Some _ => true | None => false end) as Her.
  { intros c' Hc'. unfold is_error. destruct (cp_error c') as [e|] eqn:E; [|done]. destruct (String.eqb_spec e "") as [->|]; [done|done]. }
  revert t c Hp. induction cs as [|[t0 c0] cs IH] using rev_ind; intros t c Hp.
  - apply Forall_cons in Hp as [Hp _]. cbn in Hp. unfold upserts, trailing_failures, last_some. cbn [app foldl]. eexists. split; [done|].
    cbn [row_cursor last_attempt_at consecutive_failures last_error last_success_at events_collected_total watermark_at last_run_capped upsert fst snd foldr].
    rewrite (Her c Hp). split_and!; try done; try lia; try (by destruct (cp_error c)); [by destruct (cp_watermark c)|].
    intros x. destruct (cp_error c); congruence.
  - apply Forall_app in Hp as [Hp1 Hp2]. apply Forall_cons in Hp2 as [Hp2 _]. cbn in Hp2.
    destruct (IH t0 c0 Hp1) as (row & Hrow & _ & _ & Hf & _ & Hs & He & Hw & Hcap). unfold upserts, trailing_failures, last_some in *.
    rewrite (foldl_app _ _ [(t, c)]). setoid_rewrite (foldl_app _ _ [(t, c)]). rewrite Hrow. cbn [foldl fst snd]. eexists. split; [done|].
    cbn [row_cursor last_attempt_at consecutive_failures last_error last_success_at events_collected_total watermark_at last_run_capped upsert].
    rewrite (Her c Hp2). rewrite <- Hf, <- Hs, <- Hw. split_and!; try done.
    all: try (by destruct (cp_error c)).
    + rewrite Hsum, <- He. done.
    + intros x. destruct (cp_error c); [apply Hcap|congruence].
Qed.

(** A failure without a text (an [asyncio.TimeoutError] has none) is recorded
    as a success: the failure counter restarts and the error is not kept. *)
Lemma empty_error_counts_as_success now cur n w capped row :
  consecutive_failures (upsert now (Checkpoint cur n (Some "") w capped) row) = 0 /\
  last_success_at (upsert now (Checkpoint cur n (Some "") w capped) row) = Some now.
Proof. by destruct row. Qed.

(** ** Witnesses *)

Section examples.
(** A serialiser and a parser for the cursors of the example. *)
#[local] Instance demo_cursor_dumps : CursorJson :=
  fun v => match v with PDict [] => "{}" | PDict [(_, PStr s)] => ("ts:" +:+ s)%string | _ => "null" end.
#[local] Instance demo_cursor_loads : JsonLoads := fun s =>
  if String.eqb s "{}" then Ok (PDict [])
  else if str_prefix "ts:" s then Ok (PDict [("from_ts", PStr (str_drop 3 s))])
  else Raise EJsonDecode.

Definition demo_cursor (ts : string) : pyval := PDict [("from_ts", PStr ts)].

(** Redis refuses the second write: the older cursor is read back. *)
Lemma cursor_round_trip_witness :
  let s0 := (save_cursor true true 10 7 "alerts" (demo_cursor "t1") 3 None None false (CursorStore ∅ ∅)).1 in
  let s1 := (save_cursor false true 20 7 "alerts" (demo_cursor "t2") 3 None None false s0).1 in
  load_cursor true 7 "alerts" s0 = Ok (Some (demo_cursor "t1")) /\
  load_cursor true 7 "alerts" s1 = Ok (Some (demo_cursor "t1")) /\
  load_cursor true 7 "alerts" (CursorStore ∅ (rows s1)) = Ok (Some (demo_cursor "t2")).
Proof.
  assert (forall ts, json_safe (demo_cursor ts)) as Hj by (intros ts; split; [by destruct ts|done]).
  intros s0 s1. split_and!.
  - destruct (cursor_round_trip true true 10 7 "alerts" (demo_cursor "t1") 3 None None false (CursorStore ∅ ∅) (Hj "t1")) as (Hl & _).
    exact (Hl eq_refl).
  - destruct (cursor_round_trip false true 20 7 "alerts" (demo_cursor "t2") 3 None None false s0 (Hj "t2")) as (_ & _ & _ & Hl & _).
    apply Hl; [reflexivity|apply Hj|vm_compute; reflexivity].
  - destruct (cursor_round_trip false true 20 7 "alerts" (demo_cursor "t2") 3 None None false s0 (Hj "t2")) as (_ & _ & Hl & _).
    exact (Hl eq_refl).
Defined.

Definition demo_history : list (Z * checkpoint) :=
  [(10, Checkpoint "a" 5 None (Some 9) true); (20, Checkpoint "a" 0 (Some "HTTP 500") None false)].

Lemma checkpoint_history_witness :
  exists row, upserts (demo_history ++ [(30, Checkpoint "a" 0 (Some "timeout") None false)]) = Some row /\
    consecutive_failures row = 2 /\ watermark_at row = Some 9 /\ last_run_capped row = true.
Proof.
  destruct (checkpoint_history demo_history 30 (Checkpoint "a" 0 (Some "timeout") None false))
    as (row & Hr & _ & _ & Hf & _ & _ & _ & Hw & Hc).
  - repeat (apply Forall_cons_2 || apply Forall_nil_2); done.
  - exists row. split; [exact Hr|]. rewrite Hf, Hw. split; [reflexivity|]. split; [reflexivity|]. apply Hc. reflexivity.
Defined.
End examples.
