(* ===== verification/Dispatch.v ===== *)
(** * Handing a batch to the destinations

    Models the hand-off of [collectors/pipeline.py]: the gate of the product's
    own events ([_gate_internal_producers]), the routing of a batch and the
    publication of each sub-batch ([_enqueue_dispatch], [_enqueue_routed]), and
    the load shedding of full queues ([_should_shed_dispatch],
    [load_shedder.should_shed]).  What the broker and the databases answer is an
    argument ([world]); the sub-batches are published in the order of the map.  Metrics, capture and lineage are left out, as is the
    Kafka data plane; the marking of unenriched batches is off, as the
    enrichment is. *)

From S2P Require Import Prelude PyVal Conditions Redaction Routing RoutingSafety Ocsf.

Local Open Scope string_scope.
Local Open Scope list_scope.
Local Open Scope Z_scope.

(** [envelope["_centralops"][k] = v]. *)
Definition set_label (k : string) (v : pyval) (env : envelope) : envelope :=
  dict_set "_centralops" (PDict (dict_set k v (event_labels env))) env.

(** ** The product's own events *)

Definition INTERNAL_PRODUCER_VENDOR : string := "centralops".

(** One event: kept, possibly with its mark, or discarded. *)
Definition gate_internal (registry : gmap Z ocsf_class_spec) (env : envelope) : option envelope :=
  match dget "_centralops" env with
  | PDict cc =>
      if negb (py_eq (dget "vendor" cc) (PStr INTERNAL_PRODUCER_VENDOR)) then Some env
      else
        let verdict := structural_gate registry (dict_items (py_or (dget "normalized" env) (PDict []))) in
        if gate_valid verdict then Some (set_label "ocsf_valid" (PBool true) env)
        else if negb (gate_in_scope verdict) then Some (set_label "ocsf_valid" (PBool false) env)
        else None
  | _ => Some env
  end.
Definition gate_internal_producers (registry : gmap Z ocsf_class_spec) (batch : list envelope) : list envelope :=
  omap (gate_internal registry) batch.

(** ** Load shedding *)

(** [load_shedder.should_shed], given the depth read from the broker. *)
Definition should_shed (depth : option Z) (ceiling : Z) : bool :=
  if ceiling <=? 0 then false else match depth with Some d => ceiling <=? d | None => false end.

Record plan_item := PlanItem { backpressure : string; queue_ceiling : Z }.

Record dispatch_config := DispatchConfig {
  e6_enabled : bool;
  dispatch_queue_ceiling : Z;
  dispatch_plan : gmap string plan_item;
  internal_registry : option (gmap Z ocsf_class_spec);
}.

Definition should_shed_dispatch (cfg : dispatch_config) (item : plan_item) (depth : option Z) : bool :=
  if negb (e6_enabled cfg) then false
  else if negb (String.eqb (backpressure item) "drop_newest") then false
  else
    let ceiling := if queue_ceiling item =? 0 then dispatch_queue_ceiling cfg else queue_ceiling item in
    if ceiling <=? 0 then false else should_shed depth ceiling.

(** ** The hand-off *)

(** What the servers answer: is a message for a destination accepted, the depth
    of its queue, does the dead-letter table accept a write. *)
Record world := World {
  broker_up : string -> bool;
  queue_depth : string -> option Z;
  dlq_up : bool;
}.

(** What a hand-off did. *)
Record hand_off := HandOff {
  ho_sent : list (string * list envelope);
  ho_shed : list (string * list envelope);
  ho_dead : list envelope;
}.
Definition no_hand_off : hand_off := HandOff [] [] [].

(** The loop over the sub-batches; publishing may raise. *)
Fixpoint publish (cfg : dispatch_config) (w : world) (subs : list (string * list envelope)) (h : hand_off)
  : hand_off * result unit :=
  match subs with
  | [] => (h, Ok tt)
  | (dest, events) :: rest =>
      match events with
      | [] => publish cfg w rest h
      | _ =>
          let shed := match (if e6_enabled cfg then dispatch_plan cfg !! dest else None) with
                      | Some item => should_shed_dispatch cfg item (queue_depth w dest)
                      | None => false
                      end in
          if shed : bool then publish cfg w rest (HandOff (ho_sent h) (ho_shed h ++ [(dest, events)]) (ho_dead h))
          else if broker_up w dest then publish cfg w rest (HandOff (ho_sent h ++ [(dest, events)]) (ho_shed h) (ho_dead h))
          else (h, Raise EOther)
      end
  end.

Section dispatch.
Context `{FloatRepr} `{Sha256} `{Sha1} `{EnvelopeBytes}.

(** [_enqueue_routed]: the result of writing the dead letters is not looked at. *)
Definition enqueue_routed (cfg : dispatch_config) (opts : routing_options) (routes : list compiled_route) (w : world)
    (batch : list envelope) : hand_off * result unit :=
  match route_batch opts batch routes with
  | Raise e => (no_hand_off, Raise e)
  | Ok r =>
      let dead := if dlq_up w then unrouted_events r else [] in
      publish cfg w (map_to_list (sub_batches r)) (HandOff [] [] dead)
  end.

Definition enqueue_dispatch (cfg : dispatch_config) (opts : routing_options) (routes : list compiled_route) (w : world)
    (batch : list envelope) : hand_off * result unit :=
  match internal_registry cfg with
  | None => enqueue_routed cfg opts routes w batch
  | Some registry =>
      match gate_internal_producers registry batch with
      | [] => (no_hand_off, Ok tt)
      | batch => enqueue_routed cfg opts routes w batch
      end
  end.
End dispatch.

(** ** What a completed hand-off has done *)

Lemma publish_ok cfg w subs h h' :
  publish cfg w subs h = (h', Ok tt) ->
  ho_dead h' = ho_dead h /\ ho_sent h `prefix_of` ho_sent h' /\ ho_shed h `prefix_of` ho_shed h' /\
  forall dest events, (dest, events) ∈ subs -> events <> [] ->
    (dest, events) ∈ ho_sent h' \/
    ((dest, events) ∈ ho_shed h' /\ e6_enabled cfg = true /\
     exists item depth, dispatch_plan cfg !! dest = Some item /\ backpressure item = "drop_newest" /\
       queue_depth w dest = Some depth /\ 0 < depth /\
       (if queue_ceiling item =? 0 then dispatch_queue_ceiling cfg else queue_ceiling item) <= depth).
Proof.
  revert h. induction subs as [|[dest events] subs IH]; intros h; cbn [publish].
  { intros [= ->]. split_and!; try done. by intros d e Hn%elem_of_nil. }
  destruct events as [|e es].
  { intros Hp. destruct (IH h Hp) as (H1 & H2 & H3 & H4). split_and!; try done.
    intros d evs [[= -> ->]|Hin]%elem_of_cons Hne; [done|by apply H4]. }
  set (shed := match _ with Some item => _ | None => false end). destruct shed eqn:Hs.
  - intros Hp. destruct (IH _ Hp) as (H1 & H2 & H3 & H4). cbn in *. split_and!; try done; [by eapply prefix_app_l|].
    intros d evs [[= -> ->]|Hin]%elem_of_cons Hne; [|by apply H4]. right.
    split; [eapply elem_of_prefix; [|exact H3]; apply elem_of_app; right; by left|].
    unfold shed in Hs. destruct (e6_enabled cfg) eqn:He; [|done]. split; [done|].
    destruct (dispatch_plan cfg !! dest) as [item|]; [|done]. unfold should_shed_dispatch in Hs. rewrite He in Hs. cbn in Hs.
    destruct (String.eqb_spec (backpressure item) "drop_newest") as [Hbp|]; [|done]. cbn in Hs.
    set (ceiling := if queue_ceiling item =? 0 then _ else _) in *. destruct (Z.leb_spec ceiling 0) as [|Hc]; [done|].
    unfold should_shed in Hs. destruct (ceiling <=? 0); [done|]. destruct (queue_depth w dest) as [d|] eqn:Hd; [|done].
    apply Z.leb_le in Hs. exists item, d. split_and!; try done. lia.
  - destruct (broker_up w dest); [|done]. intros Hp. destruct (IH _ Hp) as (H1 & H2 & H3 & H4). cbn in *.
    split_and!; try done; [by eapply prefix_app_l|]. intros d evs [[= -> ->]|Hin]%elem_of_cons Hne; [|by apply H4].
    left. eapply elem_of_prefix; [|exact H2]. apply elem_of_app. right. by left.
Qed.

Section theorems.
Context `{FloatRepr} `{Sha256} `{Sha1} `{EnvelopeBytes}.

(** [hand_off_complete] (nothing is dropped on the way to the queues).  When
    the hand-off of a batch returns, the batch was routed, and every non-empty
    sub-batch was published to its destination, unless load shedding is on, the
    destination's policy is to drop new batches and its queue was observed at or
    above its ceiling; the events without a route are in the dead-letter table
    if it accepted the write. *)
Theorem hand_off_complete cfg opts routes w batch h :
  internal_registry cfg = None ->
  enqueue_dispatch cfg opts routes w batch = (h, Ok tt) ->
  exists r, route_batch opts batch routes = Ok r /\
    (forall dest events, sub_batches r !! dest = Some events -> events <> [] ->
       (dest, events) ∈ ho_sent h \/
       ((dest, events) ∈ ho_shed h /\ e6_enabled cfg = true /\
        exists item depth, dispatch_plan cfg !! dest = Some item /\ backpressure item = "drop_newest" /\
          queue_depth w dest = Some depth /\ 0 < depth /\
          (if queue_ceiling item =? 0 then dispatch_queue_ceiling cfg else queue_ceiling item) <= depth)) /\
    (dlq_up w = true -> ho_dead h = unrouted_events r).
Proof.
  intros Hreg. unfold enqueue_dispatch. rewrite Hreg. unfold enqueue_routed.
  destruct (route_batch opts batch routes) as [r|]; [|done]. intros Hp. exists r. split; [done|].
  destruct (publish_ok _ _ _ _ _ Hp) as (Hdead & _ & _ & Hsub). split.
  - intros dest events Hd. apply Hsub. by apply elem_of_map_to_list.
  - intros Hup. rewrite Hdead, Hup. done.
Qed.

(** The gate touches only the product's own events. *)
Lemma gate_other_vendor registry batch :
  Forall (fun env => py_eq (dget "vendor" (event_labels env)) (PStr INTERNAL_PRODUCER_VENDOR) = false) batch ->
  gate_internal_producers registry batch = batch.
Proof.
  unfold gate_internal_producers. induction 1 as [|env batch Hv _ IH]; [done|]. cbn. unfold gate_internal, event_labels in *.
  destruct (dget "_centralops" env) as [| | | | |l|d]; try by rewrite IH. change (dict_items (PDict d)) with d in Hv.
  rewrite Hv. cbn [negb]. by rewrite IH.
Qed.
End theorems.

(** ** Examples *)

Section examples.
#[local] Existing Instances demo_float_repr demo_sha256 demo_sha1 demo_bytes.

(** The lake sheds its new batches when its queue is full; here it is. *)
Definition shedding : dispatch_config :=
  DispatchConfig true 100 {[ "lake" := PlanItem "drop_newest" 0 ]} None.
Definition full_lake : world := World (fun _ => true) (fun d => if String.eqb d "lake" then Some 100 else Some 1) true.
Definition handed : hand_off := (enqueue_dispatch shedding ex_opts ex_routes full_lake ex_batch).1.

Lemma hand_off_complete_witness :
  (ho_sent handed).*1 = ["siem"] /\ (ho_shed handed).*1 = ["lake"] /\ ho_dead handed = unrouted_events (run ex_batch).
Proof.
  destruct (hand_off_complete shedding ex_opts ex_routes full_lake ex_batch handed) as (r & Hr & _ & Hd).
  - reflexivity.
  - vm_compute. reflexivity.
  - assert (forall x y : batch_routing, Ok x = Ok y -> x = y) as Hinj by (intros x y [=]; assumption).
    rewrite (Hinj _ _ (eq_trans (eq_sym Hr) run_ok)) in Hd.
    split; [vm_compute; reflexivity|]. split; [vm_compute; reflexivity|]. apply Hd. reflexivity.
Defined.

(** The result of the dead-letter write is not looked at: when the table refuses
    it, the hand-off of an event without a route still returns, and the event is
    neither published nor stored. *)
Lemma lost_dead_letter :
  let opts := RoutingOptions None [] ∅ None false in
  let env := ex_event "e1" "sophos" "eu" in
  let broken := World (fun _ => true) (fun _ => None) false in
  unrouted_events (default empty_batch (match route_batch opts [env] [] with Ok b => Some b | _ => None end)) = [env] /\
  enqueue_dispatch (DispatchConfig false 0 ∅ None) opts [] broken [env] = (no_hand_off, Ok tt).
Proof. vm_compute. split; reflexivity. Qed.
End examples.
