(* ===== verification/Pipeline.v ===== *)
(** * The collection cycle

    Models [_run_collection_once] of [collectors/pipeline.py] over the components
    it composes: for each event that the collector yields, the claim of its
    message id, the mapping, the envelope, OCSF validation, the tenant check,
    suppression, in-flight detection, and the batch; the hand-off of full batches
    and of the last one; then the cursor, the compensation of unsettled claims,
    and the error path.

    A cycle is a fold over the arrivals, each of which carries the event and what
    the servers answer while it is processed.  The state survives an exception,
    because the [finally] clause reads it.  Left out: metrics, logging, tracing,
    capture, drift sampling, the sample reservoir, the acknowledgement hooks of
    queue sources, and the enrichment, which is off. *)

From S2P Require Import Prelude PyVal Conditions Redaction Routing RoutingSafety Predicates Operators Engine.
From S2P Require Import Store Dedupe Inflight Detection Ocsf Envelope Cursor Dispatch.

Local Open Scope string_scope.
Local Open Scope list_scope.
Local Open Scope Z_scope.

Record cycle_config := CycleConfig {
  cfg_integration_id : Z;
  cfg_platform : string;
  cfg_organization_id : option Z;
  cfg_organization_name : option string;
  cfg_organization_slug : option string;
  cfg_data_geography : option string;
  cfg_stream : string;
  cfg_event_type : string;
  cfg_collector_host : string;
  cfg_ocsf_version : string;
  cfg_schema_version : string;
  cfg_mapping : option (string * pyval * Z);
  cfg_max_cache : Z;
  cfg_ocsf : option (gmap Z ocsf_class_spec * string);
  cfg_routes : list compiled_route;
  cfg_routing : routing_options;
  cfg_dispatch : dispatch_config;
  cfg_suppression : bool;
  cfg_rules : compiled_rule_set;
  cfg_inflight : inflight_settings;
  cfg_batch_size : nat;
  cfg_flush_seconds : Z;
  cfg_dedupe_ttl : Z;
  cfg_quarantine_cap : Z;
  cfg_ocsf_quarantine_cap : Z;
}.

(** An event, the id the collector extracts from it, and the answers of the
    clock and of the servers while it is processed. *)
Record arrival := Arrival {
  raw_event : list (string * pyval);
  native_id : string;
  claim_up : bool;
  suppress_up1 : bool;
  suppress_up2 : bool;
  clock_ms : Z;
  clock_iso : string;
  monotonic : Z;
  hand_off_world : world;
}.

(** What happened to a message. *)
Inductive disposition :=
| Deduped
| Quarantined (kind : string) (written : bool)
| OcsfDropped
| Suppressed (route : string)
| Batched.

(** ** The quarantine budget: [_make_quarantine_budget] *)

Definition quarantine_ok (kind : string) (cap : Z) (writes : gmap string Z) : gmap string Z * bool :=
  let n := default 0 (writes !! kind) in
  if cap <=? n then (if n =? cap then <[kind := n + 1]> writes else writes, false)
  else (<[kind := n + 1]> writes, true).

(** What the normalisation of an event yields. *)
Inductive normalised :=
| NEnvelope (env : envelope)
| NQuarantine (kind : string) (cap : Z)
| NDrop.

Section cycle.
Context {St : Type} `{Redis St}.
Context `{JmesPath} `{FastPath} `{FloatRepr} `{FloatParse} `{IsoParse} `{JsonLoads} `{JsonLimit}.
Context `{Sha256} `{Sha1} `{EnvelopeBytes} `{JsonDumps} `{Blake2s} `{Ellipsis}.
Context (cfg : cycle_config).

Definition message_id (a : arrival) : string :=
  if String.eqb (native_id a) "" then compute_message_id (raw_event a) [] else native_id a.

(** ** One event *)

Definition context_of (mapping_version_id : string) : envelope_context :=
  EnvelopeContext (cfg_platform cfg) (Some (cfg_integration_id cfg)) (cfg_organization_id cfg) (cfg_stream cfg)
    (cfg_event_type cfg) (Some mapping_version_id) (cfg_organization_name cfg) (cfg_collector_host cfg) None
    (cfg_organization_id cfg) (cfg_organization_slug cfg) (cfg_data_geography cfg).

Definition reason_text (r : ocsf_reason) : string :=
  match r with
  | ROk => "ok" | ROutOfScope => "out_of_scope" | RUnknownClass => "unknown_class"
  | RCategoryMismatch => "category_mismatch" | RBadSeverity => "bad_severity_id"
  | RBadActivity => "bad_activity_id" | RTypeUidMismatch => "type_uid_mismatch" | RBadStatus => "bad_status_id"
  end.

(** The OCSF stage, when validation is on. *)
Definition ocsf_stage (env : envelope) : normalised :=
  match cfg_ocsf cfg with
  | None => NEnvelope env
  | Some (registry, mode) =>
      let verdict := structural_gate registry (dict_items (dget "normalized" env)) in
      if gate_valid verdict then NEnvelope (set_label "ocsf_valid" (PBool true) env)
      else
        match decide_action (gate_valid verdict) (gate_in_scope verdict) mode with
        | ActionQuarantine => NQuarantine "validate" (cfg_ocsf_quarantine_cap cfg)
        | ActionDrop => NDrop
        | ActionPass =>
            NEnvelope (set_label "ocsf_reason" (PStr (reason_text (gate_reason verdict)))
              (set_label "ocsf_valid" (if gate_in_scope verdict then PBool false else PNone) env))
        end
  end.

Definition tenant_stage (n : normalised) : normalised :=
  match n with
  | NEnvelope env => if has_customer_id env then n else NQuarantine "missing_customer_id" (cfg_quarantine_cap cfg)
  | _ => n
  end.

(** [applied.reduced_raw or raw_event]. *)
Definition dispatched_raw (r : apply_result) (raw : list (string * pyval)) : list (string * pyval) :=
  match res_reduced_raw r with Some (kv :: d) => kv :: d | _ => raw end.

Definition envelope_of (a : arrival) (msg_id mapping_version_id : string) (r : apply_result) : envelope :=
  let output := (fun kv : string * otree => (kv.1, erase kv.2)) <$> res_output r in
  let env := build_envelope (cfg_ocsf_version cfg) (cfg_schema_version cfg) (clock_iso a)
               (dispatched_raw r (raw_event a)) output (context_of mapping_version_id) msg_id in
  match res_ingest_fallback r with
  | [] => env
  | targets => set_label "degraded_fields" (PList (PStr <$> targets)) env
  end.

(** From the raw event to the envelope; the exceptions other than [MappingError]
    leave the cycle. *)
Definition normalise (a : arrival) (msg_id : string) (c : cache) : result normalised * cache :=
  match cfg_mapping cfg with
  | None => (Ok (NQuarantine "missing_mapping" (cfg_quarantine_cap cfg)), c)
  | Some (version, rules, dsl_version) =>
      match engine_apply (cfg_max_cache cfg) version rules (raw_event a) dsl_version (Some (clock_ms a)) c with
      | (Raise e, c) =>
          (if is_mapping_error e then Ok (NQuarantine "map" (cfg_quarantine_cap cfg)) else Raise e, c)
      | (Ok r, c) => (Ok (tenant_stage (ocsf_stage (envelope_of a msg_id version r))), c)
      end
  end.

(** [_maybe_suppress]: the first suppressing route that matches decides. *)
Definition suppress_routes : list compiled_route :=
  if cfg_suppression cfg
  then filter (fun r => negb (match suppress_key r with Some k => String.eqb k "" | None => true end) &&
                        (0 <? suppress_allow r) && negb (protect_detection r) = true) (cfg_routes cfg)
  else [].

Fixpoint maybe_suppress (a : arrival) (routes : list compiled_route) (env : envelope) (s : St)
  : St * option string * envelope :=
  match routes with
  | [] => (s, None, env)
  | r :: rest =>
      if negb (matches (route_condition r) (event_labels env)) then maybe_suppress a rest env s
      else
        match suppress_signature (event_labels env) (default "" (suppress_key r)) with
        | None => (s, None, env)
        | Some signature =>
            match claim_suppress (suppress_up1 a) (suppress_up2 a) (route_id r) signature (suppress_allow r)
                    (suppress_window_s r) s with
            | (s, Raise _) => (s, None, env)
            | (s, Ok (keep, count)) =>
                if keep : bool then (s, None, set_label "suppress_count" (PInt count) env)
                else (s, Some (route_id r), env)
            end
        end
  end.

(** The detection stage: an observer, it never stops the event. *)
Definition detect (env : envelope) (acc : option accumulator) : option accumulator * envelope :=
  match acc with
  | None => (None, env)
  | Some acc =>
      match evaluate_ruleset (PDict env) (cfg_rules cfg) with
      | Raise _ =>
          (Some (Accumulator (pending acc) (matched acc) (errors acc) (Detection.bump "matcher" 1 (flat_errors acc))
                   (overflow acc) (keys_per_rule acc) (absence_rules acc)), env)
      | Ok [] => (Some acc, env)
      | Ok rules =>
          let env := set_label DETECTION_MATCHED_FIELD (PBool true) env in
          (Some (foldl (fun acc r => add (cfg_inflight cfg) r (PDict env) (default 0 (cfg_organization_id cfg))
                                       (Some (cfg_integration_id cfg)) acc) acc rules), env)
      end
  end.

(** ** The state of a cycle *)

(** [settled], [sent] and [log] record what happened; the code does not keep
    them. *)
Record cycle := Cycle {
  cy_store : St;
  cy_cache : cache;
  cy_acc : option accumulator;
  cy_budget : gmap string Z;
  unsettled : gset string;
  batch : list envelope;
  batch_msg_ids : list string;
  last_flush : Z;
  events_count : Z;
  settled : gset string;
  sent : list (list envelope * hand_off);
  cycle_log : list (string * disposition);
}.

(** [_enqueue_dispatch] and, only after it returned, the settlement. *)
Definition flush_batch (w : world) (now : Z) (st : cycle) : cycle * result unit :=
  let '(h, r) := enqueue_dispatch (cfg_dispatch cfg) (cfg_routing cfg) (cfg_routes cfg) w (batch st) in
  match r with
  | Raise e => (st, Raise e)
  | Ok _ =>
      let ids : gset string := list_to_set (batch_msg_ids st) in
      (Cycle (cy_store st) (cy_cache st) (cy_acc st) (cy_budget st) (unsettled st ∖ ids) [] [] now
         (events_count st) (settled st ∪ ids) (sent st ++ [(batch st, h)]) (cycle_log st), Ok tt)
  end.

Definition flush_due (a : arrival) (st : cycle) : bool :=
  (cfg_batch_size cfg <=? length (batch st))%nat || (cfg_flush_seconds cfg <=? monotonic a - last_flush st).

(** The event joins the batch. *)
Definition push_batch (msg_id : string) (env : envelope) (s : St) (acc : option accumulator) (st : cycle) : cycle :=
  Cycle s (cy_cache st) acc (cy_budget st) (unsettled st) (batch st ++ [env]) (batch_msg_ids st ++ [msg_id])
    (last_flush st) (events_count st + 1) (settled st) (sent st) (cycle_log st ++ [(msg_id, Batched)]).

(** [continue] with a disposition. *)
Definition skip_event (msg_id : string) (d : disposition) (s : St) (budget : gmap string Z) (st : cycle) : cycle :=
  Cycle s (cy_cache st) (cy_acc st) budget (unsettled st) (batch st) (batch_msg_ids st) (last_flush st)
    (events_count st) (settled st) (sent st) (cycle_log st ++ [(msg_id, d)]).

(** [unsettled_claims.add(msg_id)], and the cache after the mapping. *)
Definition take_claim (msg_id : string) (s : St) (c : cache) (st : cycle) : cycle :=
  Cycle s c (cy_acc st) (cy_budget st) ({[msg_id]} ∪ unsettled st) (batch st) (batch_msg_ids st) (last_flush st)
    (events_count st) (settled st) (sent st) (cycle_log st).

Definition process_event (a : arrival) (st : cycle) : cycle * result unit :=
  let msg_id := message_id a in
  if negb (claim_up a) then (st, Raise EOther)
  else
    match claim (cfg_integration_id cfg) msg_id None (Some (cfg_dedupe_ttl cfg)) (cy_store st) with
    | (s, false) => (skip_event msg_id Deduped s (cy_budget st) st, Ok tt)
    | (s, true) =>
        let '(r, c) := normalise a msg_id (cy_cache st) in
        let st := take_claim msg_id s c st in
        match r with
        | Raise e => (st, Raise e)
        | Ok (NQuarantine kind cap) =>
            let '(budget, written) := quarantine_ok kind cap (cy_budget st) in
            (skip_event msg_id (Quarantined kind written) s budget st, Ok tt)
        | Ok NDrop => (skip_event msg_id OcsfDropped s (cy_budget st) st, Ok tt)
        | Ok (NEnvelope env) =>
            match maybe_suppress a suppress_routes env s with
            | (s, Some route, _) => (skip_event msg_id (Suppressed route) s (cy_budget st) st, Ok tt)
            | (s, None, env) =>
                let '(acc, env) := detect env (cy_acc st) in
                let st := push_batch msg_id env s acc st in
                if flush_due a st then flush_batch (hand_off_world a) (monotonic a) st else (st, Ok tt)
            end
        end
    end.

(** [async for raw_event in collector.collect()]. *)
Fixpoint collect_loop (arrivals : list arrival) (st : cycle) : cycle * result unit :=
  match arrivals with
  | [] => (st, Ok tt)
  | a :: rest =>
      match process_event a st with
      | (st, Ok _) => collect_loop rest st
      | (st, Raise e) => (st, Raise e)
      end
  end.

(** The terminal flush. *)
Definition last_batch (w : world) (now : Z) (st : cycle) : cycle * result unit :=
  match batch st with [] => (st, Ok tt) | _ => flush_batch w now st end.

Definition start_cycle (s : St) (c : cache) (now : Z) : cycle :=
  let acc := match ruleset_rules (cfg_rules cfg) with
             | [] => None
             | rules => Some (note_rules rules new_accumulator)
             end in
  Cycle s c acc ∅ ∅ [] [] now 0 ∅ [] [].

(** ** The whole cycle *)

(** An exception before the cursor is read (loading the configuration, the
    token), what the collector does (the arrivals, the exception that ends them,
    the cursor it leaves), and what the servers answer at the start and at the
    end of the cycle. *)
Record cycle_run := CycleRun {
  run_setup : option exn;
  load_up : bool;
  run_arrivals : list arrival;
  run_raises : option exn;
  run_cursor : pyval;
  run_watermark : option Z;
  run_capped : bool;
  run_world : world;
  run_now : Z;
  run_started : Z;
  cursor_redis_up : bool;
  cursor_db_up : bool;
  error_redis_up : bool;
  error_db_up : bool;
  release_up : bool;
}.

Context `{CursorJson}.
(** [str(exc)[:1000]]. *)
Context (exn_text : exn -> string).

Definition collect (run : cycle_run) (st : cycle) : cycle * result unit :=
  match collect_loop (run_arrivals run) st with
  | (st, Raise e) => (st, Raise e)
  | (st, Ok _) =>
      match run_raises run with
      | Some e => (st, Raise e)
      | None => last_batch (run_world run) (run_now run) st
      end
  end.

(** Up to the cursor of the store: the cursor read, if it was, the state, the
    result. *)
Definition collect_and_save (run : cycle_run) (s : St) (cs : cursor_store) (c : cache)
  : option pyval * cycle * cursor_store * result unit :=
  let st := start_cycle s c (run_started run) in
  match run_setup run with
  | Some e => (None, st, cs, Raise e)
  | None =>
      match load_cursor (load_up run) (cfg_integration_id cfg) (cfg_stream cfg) cs with
      | Raise e => (None, st, cs, Raise e)
      | Ok before =>
          match collect run st with
          | (st, Raise e) => (before, st, cs, Raise e)
          | (st, Ok _) =>
              let '(cs, r) :=
                save_cursor (cursor_redis_up run) (cursor_db_up run) (run_now run) (cfg_integration_id cfg)
                  (cfg_stream cfg) (py_or (run_cursor run) (PDict [])) (events_count st) None (run_watermark run)
                  (run_capped run) cs in
              (before, st, cs, r)
          end
      end
  end.

(** The [except] and [finally] clauses.  The stores, the final state and how the
    cycle ended. *)
Definition run_collection (run : cycle_run) (s : St) (cs : cursor_store) (c : cache)
  : St * cursor_store * cycle * result unit :=
  let i := cfg_integration_id cfg in
  let '(before, st, cs, r) := collect_and_save run s cs c in
  let cs :=
    match r with
    | Ok _ => cs
    | Raise e =>
        (save_cursor (error_redis_up run) (error_db_up run) (run_now run) i (cfg_stream cfg)
           (py_or (of_option before) (PDict [])) 0 (Some (exn_text e)) None false cs).1
    end in
  let s := if release_up run then (release_many i (elements (unsettled st)) (cy_store st)).1 else cy_store st in
  (s, cs, st, r).
End cycle.
