(* ===== verification/PipelineProps.v ===== *)
(** * What a collection cycle guarantees

    The invariant of a cycle over the claims, the batch and what was handed off,
    its preservation by each step (the raise included), and from it the theorems
    on one cycle, on many cycles, and on the position. *)

From S2P Require Import Prelude PyVal Conditions Redaction Routing RoutingSafety Predicates Operators Engine EngineProps.
From S2P Require Import Store Dedupe Inflight Detection Ocsf Envelope Cursor Dispatch Pipeline.

Local Open Scope string_scope.
Local Open Scope list_scope.
Local Open Scope Z_scope.

(** ** Claims during a cycle *)

Section theorems.
Context {St : Type} `{RedisLaws St}.
Context `{JmesPath} `{FastPath} `{FloatRepr} `{FloatParse} `{IsoParse} `{JsonLoads} `{JsonLimit}.
Context `{Sha256} `{Sha1} `{EnvelopeBytes} `{JsonDumps} `{Blake2s} `{Ellipsis}.
Context (cfg : cycle_config).

Definition held (s : St) (m : string) : Prop := is_Some (r_entry s (dedupe_key (cfg_integration_id cfg) m)).

Lemma claim_held m ttl s s' b :
  claim (cfg_integration_id cfg) m None (Some ttl) s = (s', b) ->
  (b = true -> ~ held s m) /\ (b = false -> held s m) /\ forall m', held s' m' <-> held s m' \/ (b = true /\ m' = m).
Proof.
  unfold claim, held. rewrite r_set_nx_spec. pose proof (clamp_int_bounds ttl) as Hb. unfold MIN_TTL_SECONDS in Hb.
  destruct (r_entry s (dedupe_key (cfg_integration_id cfg) m)) as [e|] eqn:E; intros [= <- <-].
  - split; [done|]. split; [by intros _; exists e|]. intros m'. naive_solver.
  - split; [intros _ [? Hx]; congruence|]. split; [done|]. intros m'. rewrite r_set_ex_entry by lia.
    destruct (String.eqb_spec (dedupe_key (cfg_integration_id cfg) m') (dedupe_key (cfg_integration_id cfg) m)) as [Heq|Hne].
    + apply dedupe_key_inj in Heq as [_ ->]. naive_solver.
    + assert (m' <> m) by (intros ->; done). naive_solver.
Qed.

Lemma suppress_held up1 up2 route sg allow w (s : St) :
  forall m, held (claim_suppress up1 up2 route sg allow w s).1 m <-> held s m.
Proof.
  intros m. unfold held. set (k := dedupe_key _ _). set (k' := suppress_redis_key route sg).
  assert (k <> k') as Hk by apply dedupe_key_not_suppress.
  assert (r_entry (claim_suppress up1 up2 route sg allow w s).1 k = r_entry s k) as ->; [|done].
  unfold claim_suppress. case_match; [done|]. case_match; [done|]. fold k'.
  destruct (r_incr k' s) as [s' n] eqn:E. assert (r_entry s' k = r_entry s k) as Hs by (change s' with (s', n).1; rewrite <- E; by apply r_incr_ne).
  repeat case_match; cbn; try done. rewrite r_expire_ne; [done|lia|done].
Qed.

Lemma maybe_suppress_held a routes env (s : St) :
  forall m, held (maybe_suppress a routes env s).1.1 m <-> held s m.
Proof.
  induction routes as [|r routes IH]; intros m; [done|]. cbn [maybe_suppress]. case_match; [apply IH|].
  destruct (suppress_signature _ _) as [sg|]; [|done].
  pose proof (suppress_held (suppress_up1 a) (suppress_up2 a) (route_id r) sg (suppress_allow r) (suppress_window_s r) s m) as Hs.
  destruct (claim_suppress _ _ _ _ _ _ s) as [s' [[keep n]|e]]; cbn in *; [destruct keep; done|done].
Qed.

Lemma release_held ms (s : St) :
  forall m, held (release_many (cfg_integration_id cfg) ms s).1 m <-> held s m /\ ~ (m <> "" /\ m ∈ ms).
Proof.
  intros m. unfold held, release_many. cbn [fst].
  set (ids := filter (fun m => String.eqb m "" = false) ms).
  assert (m ∈ ids <-> m <> "" /\ m ∈ ms) as <-.
  { unfold ids. rewrite list_elem_of_filter, String.eqb_neq. done. }
  clearbody ids. revert s. induction ids as [|x ids IH]; intros s; cbn.
  - rewrite elem_of_nil. naive_solver.
  - rewrite IH, r_del_entry, elem_of_cons.
    destruct (String.eqb_spec (dedupe_key (cfg_integration_id cfg) m) (dedupe_key (cfg_integration_id cfg) x)) as [Heq|Hne].
    + apply dedupe_key_inj in Heq as [_ ->]. split; [intros [[? [=]] _]|naive_solver].
    + assert (m <> x) by (intros ->; done). naive_solver.
Qed.

(** ** The id label of an envelope *)

Definition labelled (m : string) (env : envelope) : Prop := dget "event_id" (event_labels env) = PStr m.

Lemma set_label_labels k v env : event_labels (set_label k v env) = dict_set k v (event_labels env).
Proof. unfold event_labels at 1, set_label, dget. by rewrite dict_get_set_eq. Qed.
Lemma set_label_labelled k v env m : k <> "event_id" -> labelled m env -> labelled m (set_label k v env).
Proof. intros Hk. unfold labelled. rewrite set_label_labels. unfold dget. by rewrite dict_get_set_ne. Qed.

Lemma envelope_labelled a m version r : m <> "" -> labelled m (envelope_of cfg a m version r).
Proof.
  intros Hm. assert (labelled m (build_envelope (cfg_ocsf_version cfg) (cfg_schema_version cfg) (clock_iso a)
    (dispatched_raw r (raw_event a)) ((fun kv : string * otree => (kv.1, erase kv.2)) <$> res_output r) (context_of cfg version) m)).
  { unfold labelled. cbn. unfold compute_event_id. by apply String.eqb_neq in Hm as ->. }
  unfold envelope_of. destruct (res_ingest_fallback r); [done|]. by apply set_label_labelled.
Qed.

Lemma normalise_labelled a m c env c' : m <> "" -> normalise cfg a m c = (Ok (NEnvelope env), c') -> labelled m env.
Proof.
  intros Hm. unfold normalise. destruct (cfg_mapping cfg) as [[[version rules] dsl]|]; [|done].
  destruct (engine_apply _ _ _ _ _ _ _) as [[r|e] c1]; [|by case_match].
  pose proof (envelope_labelled a m version r Hm) as Hl. set (env0 := envelope_of cfg a m version r) in *.
  assert (forall env', ocsf_stage cfg env0 = NEnvelope env' -> labelled m env') as Ho.
  { intros env'. unfold ocsf_stage. destruct (cfg_ocsf cfg) as [[reg mode]|]; [|by intros [= <-]].
    case_match; [intros [= <-]; by apply set_label_labelled|]. case_match; try done. intros [= <-]. by repeat apply set_label_labelled. }
  unfold tenant_stage. destruct (ocsf_stage cfg env0) as [env'| |]; try done. case_match; [|done]. intros [= <- _]. by apply Ho.
Qed.

Lemma maybe_suppress_labelled a routes env s m : labelled m env -> labelled m (maybe_suppress a routes env s).2.
Proof.
  intros Hl. induction routes as [|r routes IH]; [done|]. cbn [maybe_suppress]. case_match; [done|].
  destruct (suppress_signature _ _); [|done]. destruct (claim_suppress _ _ _ _ _ _ s) as [s' [[keep n]|e]]; [destruct keep; [|done]|done].
  by apply set_label_labelled.
Qed.

Lemma detect_labelled env acc m : labelled m env -> labelled m (detect cfg env acc).2.
Proof.
  intros Hl. unfold detect. destruct acc; [|done]. destruct (evaluate_ruleset _ _) as [[|r rs]|]; try done. by apply set_label_labelled.
Qed.

(** ** The invariant of a cycle *)

(** The dispositions that end an event before the batch. *)
Definition set_aside (d : disposition) : Prop :=
  match d with Quarantined _ _ | OcsfDropped | Suppressed _ => True | _ => False end.

Definition handed_off (st : cycle (St := St)) (m : string) : Prop :=
  exists b h w env, (b, h) ∈ sent st /\ enqueue_dispatch (cfg_dispatch cfg) (cfg_routing cfg) (cfg_routes cfg) w b = (h, Ok tt) /\
    env ∈ b /\ labelled m env.

Record cycle_inv (s0 : St) (st : cycle) : Prop := CycleInv {
  inv_held m : held (cy_store st) m <-> held s0 m \/ m ∈ unsettled st \/ m ∈ settled st;
  inv_fresh m : m ∈ unsettled st \/ m ∈ settled st -> ~ held s0 m;
  inv_disjoint m : m ∈ unsettled st -> m ∉ settled st;
  inv_nonempty m : m ∈ unsettled st -> m <> "";
  inv_batch m : m ∈ batch_msg_ids st -> m ∈ unsettled st;
  inv_labels : Forall2 labelled (batch_msg_ids st) (batch st);
  inv_settled m : m ∈ settled st -> handed_off st m;
}.

(** What a message that has been looked at can be. *)
Definition dealt (s0 : St) (st : cycle (St := St)) (m : string) : Prop :=
  held s0 m \/ m ∈ settled st \/ m ∈ batch_msg_ids st \/ exists d, (m, d) ∈ cycle_log st /\ set_aside d.
Definition all_dealt (s0 : St) (st : cycle (St := St)) : Prop := forall m, m ∈ unsettled st -> dealt s0 st m.

Lemma flush_inv s0 w now st :
  cycle_inv s0 st -> all_dealt s0 st ->
  cycle_inv s0 (flush_batch cfg w now st).1 /\ all_dealt s0 (flush_batch cfg w now st).1 /\
  (forall m, dealt s0 st m -> dealt s0 (flush_batch cfg w now st).1 m) /\
  ((flush_batch cfg w now st).2 = Ok tt -> batch_msg_ids (flush_batch cfg w now st).1 = []).
Proof.
  intros [I1 I2 I3 I4 I5 I6 I7] Hd. unfold flush_batch.
  destruct (enqueue_dispatch _ _ _ w (batch st)) as [h [[]|e]] eqn:Hen; cbn [fst snd]; [|by split_and!].
  set (ids := list_to_set (batch_msg_ids st) : gset string).
  assert (forall m, m ∈ ids <-> m ∈ batch_msg_ids st) as Hids by (intros m; apply elem_of_list_to_set).
  split; [split|split; [|split]]; cbn [cy_store unsettled settled batch batch_msg_ids sent cycle_log].
  - intros m. rewrite I1. specialize (I5 m). specialize (Hids m). destruct (decide (m ∈ ids)); set_solver.
  - intros m Hm. apply I2. specialize (I5 m). specialize (Hids m). set_solver.
  - intros m. specialize (I3 m). specialize (I5 m). specialize (Hids m). set_solver.
  - intros m Hm. apply I4. set_solver.
  - by intros m Hn%elem_of_nil.
  - apply Forall2_nil_2.
  - intros m [Hm|Hm]%elem_of_union.
    + destruct (I7 m Hm) as (b & h' & w' & env & Hb & He). exists b, h', w', env. split; [|done].
      cbn. apply elem_of_app. by left.
    + apply Hids, list_elem_of_lookup_1 in Hm as [i Hi]. destruct (Forall2_lookup_l _ _ _ _ _ I6 Hi) as (env & He & Hl).
      exists (batch st), h, w, env. split_and!; [cbn; apply elem_of_app; right; by left|done|by eapply list_elem_of_lookup_2|done].
  - intros m Hm. assert (m ∈ unsettled st) as Hu by set_solver. destruct (Hd m Hu) as [?|[?|[Hb|(d & ? & ?)]]].
    + by left.
    + right; left. set_solver.
    + apply Hids in Hb. set_solver.
    + right; right; right. by exists d.
  - intros m [?|[?|[Hb|(d & ? & ?)]]]; [by left| | |].
    + right; left. cbn. set_solver.
    + right; left. cbn. apply Hids in Hb. set_solver.
    + right; right; right. by exists d.
  - done.
Qed.

(** A step of the cycle: the invariant, and what it adds to the messages dealt
    with. *)
Record step_ok (s0 : St) (m : string) (st st' : cycle (St := St)) : Prop := StepOk {
  step_inv : cycle_inv s0 st';
  step_all : all_dealt s0 st';
  step_dealt m' : dealt s0 st m' -> dealt s0 st' m';
  step_this : dealt s0 st' m;
}.

Lemma skip_ok s0 m d s budget st st0 :
  cycle_inv s0 st -> (forall m', held s m' <-> held (cy_store st) m') ->
  (forall m', m' ∈ unsettled st -> m' = m \/ dealt s0 st m') ->
  (forall m', dealt s0 st0 m' -> dealt s0 st m') ->
  set_aside d \/ dealt s0 st m ->
  step_ok s0 m st0 (skip_event m d s budget st).
Proof.
  intros [I1 I2 I3 I4 I5 I6 I7] Hs Hall Hmono Hm.
  assert (forall m', dealt s0 st m' -> dealt s0 (skip_event m d s budget st) m') as Hk.
  { intros m' [?|[?|[?|(d' & ? & ?)]]]; [by left|by right; left|by right; right; left|]. right; right; right. exists d'. split; [|done].
    cbn. apply elem_of_app. by left. }
  assert (dealt s0 (skip_event m d s budget st) m) as Hthis.
  { destruct Hm as [Hd|Hd]; [|by apply Hk]. right; right; right. exists d. split; [|done]. cbn. apply elem_of_app. right. by left. }
  split; [split; try done| | |done].
  - intros m'. cbn. by rewrite Hs, I1.
  - intros m' Hu. destruct (Hall m' Hu) as [->|?]; [done|by apply Hk].
  - auto.
Qed.

(** The claim has been taken; the event is in no list yet. *)
Lemma take_claim_inv s0 m s c st :
  cycle_inv s0 st -> m <> "" -> (~ held (cy_store st) m) -> (forall m', held s m' <-> held (cy_store st) m' \/ m' = m) ->
  cycle_inv s0 (take_claim m s c st) /\
  forall m', dealt s0 st m' -> dealt s0 (take_claim m s c st) m'.
Proof.
  intros [I1 I2 I3 I4 I5 I6 I7] Hm Hnew Hs. rewrite I1 in Hnew.
  split; [split; cbn|done].
  - intros m'. rewrite Hs, I1. set_solver.
  - intros m'. rewrite elem_of_union, elem_of_singleton. intros [[->|?]|?]; [tauto|apply I2; by left|apply I2; by right].
  - intros m'. rewrite elem_of_union, elem_of_singleton. intros [->|?]; [tauto|by apply I3].
  - intros m'. rewrite elem_of_union, elem_of_singleton. intros [->|?]; [done|by apply I4].
  - intros m' Hb. apply elem_of_union_r. by apply I5.
  - done.
  - intros m' Hs'. destruct (I7 m' Hs') as (b & h & w & env & ?). by exists b, h, w, env.
Qed.

(** The event joins the batch. *)
Lemma push_ok s0 m env s acc st st0 :
  cycle_inv s0 st -> m ∈ unsettled st -> labelled m env -> (forall m', held s m' <-> held (cy_store st) m') ->
  (forall m', m' ∈ unsettled st -> m' = m \/ dealt s0 st m') ->
  (forall m', dealt s0 st0 m' -> dealt s0 st m') ->
  step_ok s0 m st0 (push_batch m env s acc st).
Proof.
  intros [I1 I2 I3 I4 I5 I6 I7] Hm Hl Hs Hall Hmono.
  assert (forall m', dealt s0 st m' -> dealt s0 (push_batch m env s acc st) m') as Hk.
  { intros m' [?|[?|[?|(d' & ? & ?)]]]; [by left|by right; left| |].
    - right; right; left. cbn. apply elem_of_app. by left.
    - right; right; right. exists d'. split; [|done]. cbn. apply elem_of_app. by left. }
  assert (dealt s0 (push_batch m env s acc st) m) as Hthis.
  { right; right; left. cbn. apply elem_of_app. right. by left. }
  split; [split; try done; cbn| | |done].
  - intros m'. by rewrite Hs, I1.
  - intros m' [?| ->%list_elem_of_singleton]%elem_of_app; [by apply I5|done].
  - by apply Forall2_app; [|constructor].
  - intros m' Hu. destruct (Hall m' Hu) as [->|?]; [done|by apply Hk].
  - auto.
Qed.

(** Processing an event: the invariant holds after an exception too. *)
Lemma process_inv s0 a st :
  message_id a <> "" -> cycle_inv s0 st -> all_dealt s0 st ->
  cycle_inv s0 (process_event cfg a st).1 /\
  ((process_event cfg a st).2 = Ok tt -> step_ok s0 (message_id a) st (process_event cfg a st).1).
Proof.
  intros Hm HI Hall. unfold process_event. set (m := message_id a) in *. destruct (claim_up a); cbn [negb]; [|by split].
  destruct (claim _ m _ _ _) as [s b] eqn:Hc. apply claim_held in Hc as (Hnew & Hold & Hs). destruct b.
  2: { assert (step_ok s0 m st (skip_event m Deduped s (cy_budget st) st)) as Hok; [|by split; [apply Hok|]].
       assert (forall m', held s m' <-> held (cy_store st) m') as Hs' by naive_solver.
       apply skip_ok; auto. right.
       specialize (Hold eq_refl). apply (inv_held _ _ HI) in Hold as [?|[?|?]]; [by left|by apply Hall|by right; left]. }
  destruct (normalise cfg a m (cy_cache st)) as [r c] eqn:Hnorm.
  destruct (take_claim_inv s0 m s c st HI Hm (Hnew eq_refl)) as [HI1 Hmono]; [naive_solver|].
  set (st1 := take_claim m s c st) in *.
  assert (forall m', m' ∈ unsettled st1 -> m' = m \/ dealt s0 st1 m') as Hall1.
  { intros m' Hu. unfold st1 in Hu. cbn in Hu. apply elem_of_union in Hu as [->%elem_of_singleton|Hu]; [by left|right]. by apply Hmono, Hall. }
  assert (forall d s' budget, set_aside d -> (forall m', held s' m' <-> held s m') ->
    cycle_inv s0 (skip_event m d s' budget st1) /\ (Ok tt = Ok tt -> step_ok s0 m st (skip_event m d s' budget st1))) as Hskip.
  { intros d s' budget Hd Hs'. assert (step_ok s0 m st (skip_event m d s' budget st1)) as Hok; [|by split; [apply Hok|]].
    apply skip_ok; auto. }
  destruct r as [[env|kind cap|]|e]; cbn [fst snd]; [| | |by split].
  2: { destruct (quarantine_ok kind cap _) as [budget written]. by apply Hskip. }
  2: by apply Hskip.
  pose proof (maybe_suppress_held a (suppress_routes cfg) env s) as Hsup.
  pose proof (maybe_suppress_labelled a (suppress_routes cfg) env s m (normalise_labelled _ _ _ _ _ Hm Hnorm)) as Hlab.
  destruct (maybe_suppress a (suppress_routes cfg) env s) as [[s2 [route|]] env2]; cbn [fst snd] in *; [by apply Hskip|].
  pose proof (detect_labelled env2 (cy_acc st1) m Hlab) as Hlab3. destruct (detect cfg env2 (cy_acc st1)) as [acc env3]. cbn [snd] in Hlab3.
  assert (step_ok s0 m st (push_batch m env3 s2 acc st1)) as Hpush.
  { apply push_ok; try assumption.
    apply elem_of_union_l. by apply elem_of_singleton. }
  case_match; [|split; [apply Hpush|done]].
  destruct (flush_inv s0 (hand_off_world a) (monotonic a) (push_batch m env3 s2 acc st1)) as (F1 & F2 & F3 & _);
    [exact (step_inv _ _ _ _ Hpush)|exact (step_all _ _ _ _ Hpush)|].
  split; [done|]. intros _. split; [done|done| |apply F3; by destruct Hpush]. intros m' Hd. apply F3. destruct Hpush. auto.
Qed.

Definition named (arrivals : list arrival) : Prop := Forall (fun a => message_id a <> "") arrivals.

Lemma loop_inv s0 arrivals st :
  named arrivals -> cycle_inv s0 st -> all_dealt s0 st ->
  cycle_inv s0 (collect_loop cfg arrivals st).1 /\
  ((collect_loop cfg arrivals st).2 = Ok tt ->
     all_dealt s0 (collect_loop cfg arrivals st).1 /\
     (forall m, dealt s0 st m -> dealt s0 (collect_loop cfg arrivals st).1 m) /\
     forall a, a ∈ arrivals -> dealt s0 (collect_loop cfg arrivals st).1 (message_id a)).
Proof.
  intros Hn. revert st. induction Hn as [|a arrivals Ha _ IH]; intros st HI Hall; cbn [collect_loop].
  { split; [done|]. intros _. split_and!; try done. by intros a Hn%elem_of_nil. }
  destruct (process_inv s0 a st Ha HI Hall) as [Hi Hok]. destruct (process_event cfg a st) as [st1 [[]|e]]; cbn [fst snd] in *; [|done].
  destruct (Hok eq_refl) as [_ Hall1 Hmono Hthis]. destruct (IH st1 Hi Hall1) as [Hi2 Hok2]. split; [done|]. intros Hr.
  destruct (Hok2 Hr) as (Hall2 & Hmono2 & Hrest). split_and!; [done|auto|]. intros a' [->|Hin]%elem_of_cons; auto.
Qed.

Lemma start_inv s c now : cycle_inv s (start_cycle cfg s c now) /\ all_dealt s (start_cycle cfg s c now).
Proof. split; [split; cbn|]; set_solver. Qed.

Context `{CursorJson}.
Context (exn_text : exn -> string).

(** What a cycle establishes, however it ends. *)
Record cycle_post (s0 : St) (run : cycle_run) (st : cycle (St := St)) (r : result unit) : Prop := CyclePost {
  post_inv : cycle_inv s0 st;
  post_ok a : r = Ok tt -> a ∈ run_arrivals run ->
    held s0 (message_id a) \/ message_id a ∈ settled st \/ exists d, (message_id a, d) ∈ cycle_log st /\ set_aside d;
}.

Lemma collect_post s c run :
  named (run_arrivals run) ->
  cycle_post s run (collect cfg run (start_cycle cfg s c (run_started run))).1
    (collect cfg run (start_cycle cfg s c (run_started run))).2.
Proof.
  intros Hn. destruct (start_inv s c (run_started run)) as [HI Hall].
  destruct (loop_inv s (run_arrivals run) _ Hn HI Hall) as [Hi Hok]. unfold collect.
  destruct (collect_loop cfg (run_arrivals run) _) as [st [[]|e]]; cbn [fst snd] in *; [|by split].
  destruct (Hok eq_refl) as (Hall2 & _ & Hd). destruct (run_raises run); [by split|]. unfold last_batch.
  destruct (batch st) eqn:Hb.
  - split; [done|]. intros a _ Ha. destruct (Hd a Ha) as [?|[?|[Hin|?]]]; [by left|by right; left| |by right; right].
    pose proof (inv_labels _ _ Hi) as Hl. rewrite Hb in Hl. apply Forall2_nil_inv_r in Hl. rewrite Hl in Hin. by apply elem_of_nil in Hin.
  - destruct (flush_inv s (run_world run) (run_now run) st Hi Hall2) as (F1 & _ & F3 & F4). split; [done|].
    intros a Hr Ha. destruct (F3 _ (Hd a Ha)) as [?|[?|[Hin|?]]]; [by left|by right; left| |by right; right].
    rewrite (F4 Hr) in Hin. by apply elem_of_nil in Hin.
Qed.

Lemma run_post run s cs c s' cs' st r :
  named (run_arrivals run) -> run_collection cfg exn_text run s cs c = (s', cs', st, r) -> cycle_post s run st r.
Proof.
  intros Hn. unfold run_collection, collect_and_save. destruct (start_inv s c (run_started run)) as [HI _].
  destruct (run_setup run) as [e|]; [intros [= _ _ <- <-]; by split|].
  destruct (load_cursor _ _ _ _) as [before|e]; [|intros [= _ _ <- <-]; by split].
  pose proof (collect_post s c run Hn) as Hp. destruct (collect cfg run _) as [st1 [[]|e]]; cbn [fst snd] in *.
  - destruct (save_cursor _ _ _ _ _ _ _ _ _ _ cs) as [cs1 r1]. intros [= _ _ <- <-]. destruct Hp as [Hi Hd]. split; [done|].
    intros a _. by apply Hd.
  - intros [= _ _ <- <-]. done.
Qed.

(** What the [finally] clause leaves of the claims. *)
Lemma run_claims run s cs c s' cs' st r :
  named (run_arrivals run) -> run_collection cfg exn_text run s cs c = (s', cs', st, r) ->
  forall m, held s' m <-> held s m \/ m ∈ settled st \/ (release_up run = false /\ m ∈ unsettled st).
Proof.
  intros Hn Hr m. destruct (run_post run s cs c s' cs' st r Hn Hr) as [[I1 I2 I3 I4 _ _ _] _].
  unfold run_collection in Hr. destruct (collect_and_save _ _ _ _ _) as [[[before st1] cs1] r1]. 
  assert (s' = if release_up run then (release_many (cfg_integration_id cfg) (elements (unsettled st)) (cy_store st)).1 else cy_store st)
    as -> by (injection Hr as <- _ -> _; done).
  destruct (release_up run); [|rewrite I1; naive_solver].
  rewrite release_held, I1, elem_of_elements. specialize (I2 m). specialize (I3 m). specialize (I4 m). naive_solver.
Qed.

(** C8 [claims_after_cycle] (no claim outlives an event that was not handed
    off).  However a cycle ends, an id it settled was free before it and its event
    was in a batch whose hand-off returned; and, when the compensation reached
    Redis, the ids held after the cycle are those held before and those it
    settled: the rest are released, and a later cycle may collect them again. *)
Theorem claims_after_cycle run s cs c s' cs' st r :
  named (run_arrivals run) -> run_collection cfg exn_text run s cs c = (s', cs', st, r) ->
  (forall m, m ∈ settled st -> ~ held s m /\ handed_off st m) /\
  (release_up run = true -> forall m, held s' m <-> held s m \/ m ∈ settled st) /\
  (release_up run = false -> forall m, held s' m <-> held s m \/ m ∈ settled st \/ m ∈ unsettled st).
Proof.
  intros Hn Hr. pose proof (run_claims run s cs c s' cs' st r Hn Hr) as Hc.
  destruct (run_post run s cs c s' cs' st r Hn Hr) as [[_ I2 _ _ _ _ I7] _].
  split_and!; [intros m Hm; split; [apply I2; by right|by apply I7]|..]; intros Hup m; rewrite Hc, Hup; naive_solver.
Qed.

(** ** Many cycles *)

(** Cycles of the same stream one after the other, with the time that passes
    before each. *)
Fixpoint cycles (runs : list (Z * cycle_run)) (s : St) (cs : cursor_store) (c : cache)
  : list (cycle (St := St) * result unit) :=
  match runs with
  | [] => []
  | (wait, run) :: rest =>
      let '(s', cs', st, r) := run_collection cfg exn_text run (r_tick wait s) cs c in
      (st, r) :: cycles rest s' cs' (cy_cache st)
  end.

Definition good_run (x : Z * cycle_run) : Prop := 0 <= x.1 /\ named (run_arrivals x.2) /\ release_up x.2 = true.

Lemma held_tick d s m : 0 <= d -> held (r_tick d s) m -> held s m.
Proof.
  intros Hd. unfold held. rewrite r_tick_entry by done. unfold still_live. destruct (r_entry s _); [done|]. by intros [? [=]].
Qed.

Lemma cycles_account (P : string -> Prop) runs : forall s cs c,
  Forall good_run runs -> (forall m, held s m -> P m) ->
  forall i run st a, runs !! i = Some run -> cycles runs s cs c !! i = Some (st, Ok tt) -> a ∈ run_arrivals run.2 ->
  P (message_id a) \/
  (exists j stj rj, (j <= i)%nat /\ cycles runs s cs c !! j = Some (stj, rj) /\ handed_off stj (message_id a)) \/
  exists d, (message_id a, d) ∈ cycle_log st /\ set_aside d.
Proof.
  revert P. induction runs as [|[wait run0] runs IH]; intros P s cs c Hg Hp i run st a Hrun Hst Ha; [done|].
  apply Forall_cons in Hg as [(Hw & Hn & Hup) Hg]. cbn [fst snd] in *. cbn [cycles] in *.
  destruct (run_collection cfg exn_text run0 (r_tick wait s) cs c) as [[[s' cs'] st0] r0] eqn:Hr.
  pose proof (run_claims run0 (r_tick wait s) cs c s' cs' st0 r0 Hn Hr) as Hc.
  destruct (run_post run0 (r_tick wait s) cs c s' cs' st0 r0 Hn Hr) as [HI Hok].
  assert (forall m, m ∈ settled st0 -> handed_off st0 m) as Hset by apply HI.
  destruct i as [|i]; cbn in Hrun, Hst.
  - injection Hrun as <-. injection Hst as -> ->. destruct (Hok a eq_refl Ha) as [Hh|[Hs|Hd]].
    + left. apply Hp. by apply held_tick in Hh.
    + right; left. exists 0%nat, st, (Ok tt). split_and!; [lia|done|by apply Hset].
    + by right; right.
  - destruct (IH (fun m => P m \/ handed_off st0 m) s' cs' (cy_cache st0) Hg) with (i := i) (run := run) (st := st) (a := a)
      as [[Hpm|Hho]|[(j & stj & rj & Hj & Hl & Hho)|Hd]]; try done.
    + intros m. rewrite Hc, Hup. intros [Hh|[Hs|[? ?]]]; [left; apply Hp; by apply held_tick in Hh|right; by apply Hset|done].
    + by left.
    + right; left. exists 0%nat, st0, r0. split_and!; [lia|done|done].
    + right; left. exists (S j), stj, rj. split_and!; [lia|done|done].
    + by right; right.
Qed.

(** C1 [at_least_once] (nothing is lost between cycles).  Start with no claim of
    the stream; run any number of cycles, which may fail anywhere, with any delays
    between them, the compensation reaching Redis.  Every event that a successful
    cycle collected was in a batch whose hand-off returned, in that cycle or an
    earlier one, or that cycle set it aside: quarantined, dropped by the OCSF
    policy or suppressed. *)
Theorem at_least_once runs s cs c i run st a :
  Forall good_run runs -> (forall m, ~ held s m) ->
  runs !! i = Some run -> cycles runs s cs c !! i = Some (st, Ok tt) -> a ∈ run_arrivals run.2 ->
  (exists j stj rj, (j <= i)%nat /\ cycles runs s cs c !! j = Some (stj, rj) /\ handed_off stj (message_id a)) \/
  exists d, (message_id a, d) ∈ cycle_log st /\ set_aside d.
Proof.
  intros Hg Hs Hrun Hst Ha. destruct (cycles_account (fun _ => False) runs s cs c Hg Hs i run st a Hrun Hst Ha) as [[]|?]. done.
Qed.

(** ** The position *)

(** The cursor that the next cycle reads, Redis answering. *)
Definition next_position (cs : cursor_store) : result (option pyval) :=
  load_cursor true (cfg_integration_id cfg) (cfg_stream cfg) cs.

Lemma save_load up_redis up_db now i stream v n error w capped cs :
  json_safe v -> up_redis = true ->
  load_cursor true i stream (save_cursor up_redis up_db now i stream v n error w capped cs).1 = Ok (Some v).
Proof. intros Hv Hup. by destruct (cursor_round_trip up_redis up_db now i stream v n error w capped cs Hv) as [Hl _]; auto. Qed.

(** [position_follows_success] (the position moves only when the cycle
    completed).  A cycle that read its cursor and succeeds leaves the
    collector's cursor for the next one; if it fails anywhere after the read,
    while collecting, while handing off or while saving, the next cycle starts
    from the cursor this one read. *)
Theorem position_follows_success run s cs c s' cs' st r before :
  run_setup run = None ->
  load_cursor (load_up run) (cfg_integration_id cfg) (cfg_stream cfg) cs = Ok before ->
  json_safe (py_or (of_option before) (PDict [])) -> json_safe (py_or (run_cursor run) (PDict [])) ->
  run_collection cfg exn_text run s cs c = (s', cs', st, r) ->
  (r = Ok tt -> cursor_redis_up run = true ->
     next_position cs' = Ok (Some (py_or (run_cursor run) (PDict [])))) /\
  (r <> Ok tt -> error_redis_up run = true ->
     next_position cs' = Ok (Some (py_or (of_option before) (PDict [])))).
Proof.
  intros Hsetup Hload Hb Ha. unfold run_collection, collect_and_save. rewrite Hsetup, Hload.
  destruct (collect cfg run _) as [st1 [[]|e]]; [|intros [= <- <- <- <-]; split; [done|]; intros _; by apply save_load].
  pose proof (save_load (cursor_redis_up run) (cursor_db_up run) (run_now run) (cfg_integration_id cfg) (cfg_stream cfg)
    _ (events_count st1) None (run_watermark run) (run_capped run) cs Ha) as Hs.
  destruct (save_cursor _ _ _ _ _ _ _ _ _ _ cs) as [cs1 [[]|e]]; intros [= <- <- <- <-]; split; try done.
  intros _. by apply save_load.
Qed.

(** A failure before the cursor is read (the token, the configuration, Redis)
    writes the empty cursor over the stored one. *)
Lemma early_failure_erases_position run s cs c e :
  run_setup run = Some e -> json_safe (PDict []) -> error_redis_up run = true ->
  next_position (run_collection cfg exn_text run s cs c).1.1.2
  = Ok (Some (PDict [])).
Proof. intros Hs Hj Hup. unfold run_collection, collect_and_save. rewrite Hs. by apply save_load. Qed.
End theorems.

(** ** Examples *)

Section examples.
#[local] Existing Instances demo_jmes demo_float_repr demo_float_parse demo_iso demo_json demo_limit demo_fast_path
  demo_sha256 demo_sha1 demo_bytes demo_dumps demo_cursor_dumps.
#[local] Instance demo_blake : Blake2s := fun _ => "0123456789abcdef".
#[local] Instance demo_ellipsis : Ellipsis := "."%char.

Definition demo_cfg : cycle_config :=
  CycleConfig 7 "sophos" (Some 3) (Some "Acme") (Some "acme") None "alerts" "alert" "worker-1" "1.3.0" "2"
    (Some ("v1", PList [PDict [("target", PStr "normalized.kind"); ("const", PStr "alert")]], 1)) 64
    None ex_routes ex_opts (DispatchConfig false 0 ∅ None) false (CompiledRuleSet [] false)
    (InflightSettings 256 1000 50) 2 30 3600 10 10.

Definition demo_world (up : bool) : world := World (fun _ => up) (fun _ => None) true.
Definition demo_arrival (id : string) (claim_ok broker : bool) : arrival :=
  Arrival [("id", PStr id)] id claim_ok true true 1000 "2026-01-01T00:00:00Z" 5 (demo_world broker).
Definition demo_run (arrivals : list arrival) (raises : option exn) (cursor : string) : cycle_run :=
  CycleRun None true arrivals raises (PDict [("from_ts", PStr cursor)]) None false (demo_world true) 6 5 true true true true true.

(** The first cycle hands two events off, then the vendor fails while a third is
    waiting in the batch; the second cycle collects all three. *)
Definition first_run : cycle_run :=
  demo_run [demo_arrival "e1" true true; demo_arrival "e2" true true; demo_arrival "e3" true true] (Some EOther) "t2".
Definition second_run : cycle_run :=
  demo_run [demo_arrival "e2" true true; demo_arrival "e3" true true] None "t2".
Definition demo_runs : list (Z * cycle_run) := [(0, first_run); (60, second_run)].

#[local] Instance demo_cursor_parse : JsonLoads := fun s =>
  if String.eqb s "{}" then Ok (PDict [])
  else if str_prefix "ts:" s then Ok (PDict [("from_ts", PStr (str_drop 3 s))])
  else Raise EJsonDecode.
Definition demo_text (e : exn) : string := "boom".

Definition demo_cycles := cycles demo_cfg demo_text demo_runs mem_empty (CursorStore ∅ ∅) [].
Definition demo_cycle (i : nat) : cycle (St := mem_store) :=
  match demo_cycles !! i with Some (st, _) => st | None => start_cycle demo_cfg mem_empty [] 0 end.
Definition settled_in (i : nat) : list string := elements (settled (demo_cycle i)).

(** The two cycles after their stores. *)
Definition after_first := run_collection demo_cfg demo_text first_run (r_tick 0 mem_empty) (CursorStore ∅ ∅) [].
Definition after_second := run_collection demo_cfg demo_text second_run (r_tick 60 after_first.1.1.1) after_first.1.1.2 [].

Lemma quadruple {A B C D} (x : A * B * C * D) : x = (x.1.1.1, x.1.1.2, x.1.2, x.2).
Proof. by destruct x as [[[? ?] ?] ?]. Qed.
Lemma demo_named r : r ∈ [first_run; second_run] -> named (run_arrivals r).
Proof. intros [-> |[-> |[]%elem_of_nil]%elem_of_cons]%elem_of_cons; repeat (apply Forall_cons_2 || apply Forall_nil_2); done. Qed.

(** The third event of the failed cycle is free again, the first two are not. *)
Lemma claims_after_cycle_witness :
  settled after_first.1.2 = {["e1"; "e2"]} /\ held demo_cfg after_first.1.1.1 "e1" /\ ~ held demo_cfg after_first.1.1.1 "e3".
Proof.
  destruct (claims_after_cycle demo_cfg demo_text first_run (r_tick 0 mem_empty) (CursorStore ∅ ∅) []
    after_first.1.1.1 after_first.1.1.2 after_first.1.2 after_first.2) as (_ & Hrel & _).
  - apply demo_named. left.
  - apply quadruple.
  - specialize (Hrel eq_refl). assert (forall m, ~ held demo_cfg (r_tick 0 mem_empty) m) as H0.
    { intros m [e [=]]. }
    split_and!; [vm_compute; reflexivity| |].
    + apply Hrel. right. vm_compute. reflexivity.
    + intros [He|He]%Hrel; [by apply H0 in He|]. revert He. vm_compute. done.
Defined.

Lemma at_least_once_witness :
  exists j stj rj, (j <= 1)%nat /\ demo_cycles !! j = Some (stj, rj) /\ handed_off demo_cfg stj "e2".
Proof.
  destruct (at_least_once demo_cfg demo_text demo_runs mem_empty (CursorStore ∅ ∅) [] 1 (60, second_run) (demo_cycle 1)
    (demo_arrival "e2" true true)) as [Hj|(d & Hd & Hs)].
  - repeat (apply Forall_cons_2 || apply Forall_nil_2); (split; [done|split; [apply demo_named|reflexivity]]); [left|right; left].
  - intros m [e [=]].
  - reflexivity.
  - vm_compute. reflexivity.
  - left.
  - exact Hj.
  - assert (Hin : d = Deduped); [|by subst d].
    assert (cycle_log (demo_cycle 1) = [("e2", Deduped); ("e3", Batched)]) as Hl by (vm_compute; reflexivity).
    rewrite Hl in Hd. apply elem_of_cons in Hd as [[= ->]|[[=]|[]%elem_of_nil]%elem_of_cons]. done.
Defined.

Lemma position_follows_success_witness :
  load_cursor true 7 "alerts" after_first.1.1.2 = Ok (Some (PDict [])) /\
  load_cursor true 7 "alerts" after_second.1.1.2 = Ok (Some (PDict [("from_ts", PStr "t2")])).
Proof.
  assert (json_safe (PDict [])) as Hj by (split; reflexivity || discriminate).
  assert (json_safe (PDict [("from_ts", PStr "t2")])) as Hj2 by (split; reflexivity || discriminate).
  split.
  - destruct (position_follows_success demo_cfg demo_text first_run (r_tick 0 mem_empty) (CursorStore ∅ ∅) []
      after_first.1.1.1 after_first.1.1.2 after_first.1.2 after_first.2 None) as [_ Hf];
      [reflexivity|reflexivity|exact Hj|exact Hj2|apply quadruple|].
    apply Hf; [|reflexivity]. vm_compute. discriminate.
  - destruct (position_follows_success demo_cfg demo_text second_run (r_tick 60 after_first.1.1.1) after_first.1.1.2 []
      after_second.1.1.1 after_second.1.1.2 after_second.1.2 after_second.2 (Some (PDict []))) as [Hs _];
      [reflexivity|vm_compute; reflexivity|exact Hj|exact Hj2|apply quadruple|].
    apply Hs; [|reflexivity]. vm_compute. reflexivity.
Defined.

(** A cycle that succeeds may still release claims: an event that was quarantined
    (here for want of a mapping) leaves the batch with its claim unsettled. *)
Definition no_mapping : cycle_config :=
  CycleConfig 7 "sophos" (Some 3) (Some "Acme") (Some "acme") None "alerts" "alert" "worker-1" "1.3.0" "2"
    None 64 None ex_routes ex_opts (DispatchConfig false 0 ∅ None) false (CompiledRuleSet [] false)
    (InflightSettings 256 1000 50) 2 30 3600 10 10.
Lemma quarantined_claim_released :
  let after := run_collection no_mapping demo_text second_run mem_empty (CursorStore ∅ ∅) [] in
  after.2 = Ok tt /\ elements (unsettled after.1.2) = ["e3"; "e2"] /\
  cycle_log after.1.2 = [("e2", Quarantined "missing_mapping" true); ("e3", Quarantined "missing_mapping" true)] /\
  r_entry after.1.1.1 (dedupe_key 7 "e2") = None.
Proof. vm_compute. split_and!; reflexivity. Qed.
End examples.
