(* ===== verification/Aggregate.v ===== *)
(** * Aggregation of a batch by destination

    Models [reduction/aggregate.py]: [coalesce] collapses the events of a batch
    that agree on some labels into the first of them, decorated with their
    number, unless there are more groups than the cap.  The serialiser that
    measures the bytes is a parameter ([EnvelopeBytes]). *)

From S2P Require Import Prelude PyVal Conditions Redaction Routing RoutingSafety.

Local Open Scope string_scope.
Local Open Scope list_scope.
Local Open Scope Z_scope.

Section aggregate.
Context `{FloatRepr} `{EnvelopeBytes}.
Context (group_by : list string).

(** [tuple(str(labels.get(k, "")) for k in group_by)]. *)
Definition group_values (env : envelope) : list string :=
  (fun k => py_str (default (PStr "") (dict_get k (event_labels env)))) <$> group_by.

(** The dict of groups, in order of creation. *)
Definition event_groups := list (list string * list envelope).

Fixpoint find_group (key : list string) (groups : event_groups) : option (list envelope) :=
  match groups with
  | [] => None
  | (k, evs) :: rest => if decide (k = key) then Some evs else find_group key rest
  end.
Fixpoint append_group (key : list string) (env : envelope) (groups : event_groups) : event_groups :=
  match groups with
  | [] => []
  | (k, evs) :: rest => if decide (k = key) then (k, evs ++ [env]) :: rest else (k, evs) :: append_group key env rest
  end.

(** [None] once a new group would exceed the cap. *)
Fixpoint group_batch (max_groups : Z) (batch : list envelope) (groups : event_groups) : option event_groups :=
  match batch with
  | [] => Some groups
  | env :: rest =>
      let key := group_values env in
      match find_group key groups with
      | None =>
          if max_groups <=? Z.of_nat (length groups) then None
          else group_batch max_groups rest (groups ++ [(key, [env])])
      | Some _ => group_batch max_groups rest (append_group key env groups)
      end
  end.

(** The event that stands for a group. *)
Definition decorate (key : list string) (count : nat) (first : envelope) : envelope :=
  dict_set "_aggregate"
    (PDict [("count", PInt (Z.of_nat count));
            ("group", PDict (foldl (fun d kv => dict_set kv.1 (PStr kv.2) d) [] (zip group_by key)))])
    (dict_set "_centralops" (PDict (event_labels first)) first).
Definition representative (g : list string * list envelope) : list envelope :=
  match g.2 with
  | [] => []
  | [e] => [e]
  | first :: _ => [decorate g.1 (length g.2) first]
  end.

Definition coalesce (max_groups : Z) (batch : list envelope) : list envelope * Z * Z :=
  match group_by, batch with
  | [], _ | _, [] => (batch, 0, 0)
  | _, _ =>
      match group_batch max_groups batch [] with
      | None => (batch, 0, 0)
      | Some groups =>
          let out := concat (representative <$> groups) in
          let gone := concat ((fun g : list string * list envelope => tail g.2) <$> groups) in
          (out, foldr Z.add 0 (envelope_bytes <$> gone), Z.of_nat (length gone))
      end
  end.
End aggregate.

(** ** Reference: group the whole batch by key *)

Section theorems.
Context `{FloatRepr} `{EnvelopeBytes}.
Context (group_by : list string).
#[local] Abbreviation key_of := (group_values group_by).

(** The distinct keys, in order of first appearance. *)
Fixpoint distinct_keys (seen : list (list string)) (batch : list envelope) : list (list string) :=
  match batch with
  | [] => seen
  | env :: rest => distinct_keys (if decide (key_of env ∈ seen) then seen else seen ++ [key_of env]) rest
  end.
Definition with_key (key : list string) (batch : list envelope) : list envelope :=
  filter (fun env => key_of env = key) batch.
(** Each key stands for its events. *)
Definition groups_spec (batch : list envelope) : event_groups :=
  (fun key => (key, with_key key batch)) <$> distinct_keys [] batch.

Lemma distinct_keys_app seen b1 b2 : distinct_keys seen (b1 ++ b2) = distinct_keys (distinct_keys seen b1) b2.
Proof. revert seen. induction b1 as [|e b1 IH]; intros seen; [done|]. cbn. apply IH. Qed.
Lemma distinct_keys_elem seen b k : k ∈ distinct_keys seen b <-> k ∈ seen \/ k ∈ key_of <$> b.
Proof.
  revert seen. induction b as [|e b IH]; intros seen; cbn [distinct_keys fmap list_fmap].
  { rewrite elem_of_nil. tauto. }
  rewrite IH, elem_of_cons. case_decide as Hd; [|rewrite elem_of_app, list_elem_of_singleton]; naive_solver.
Qed.
Lemma distinct_keys_NoDup seen b : NoDup seen -> NoDup (distinct_keys seen b).
Proof.
  revert seen. induction b as [|e b IH]; intros seen Hn; [done|]. cbn. apply IH. case_decide as Hd; [done|].
  apply NoDup_app. split_and!; [done| |apply NoDup_singleton]. intros k Hk ->%list_elem_of_singleton. done.
Qed.
Lemma distinct_keys_length seen b : (length seen <= length (distinct_keys seen b))%nat.
Proof.
  revert seen. induction b as [|e b IH]; intros seen; [done|]. cbn. case_decide; [apply IH|].
  specialize (IH (seen ++ [key_of e])). rewrite length_app in IH. cbn in IH. lia.
Qed.

Lemma find_group_fmap key f ks :
  find_group key ((fun k => (k, f k)) <$> ks) = if decide (key ∈ ks) then Some (f key) else None.
Proof.
  induction ks as [|k ks IH]; cbn [find_group fmap list_fmap]; [done|]. rewrite IH.
  destruct (decide (k = key)) as [->|Hne]; [by rewrite decide_True by (by left)|].
  destruct (decide (key ∈ ks)); [by rewrite decide_True by (by right)|]. rewrite decide_False; [done|]. by intros [?|?]%elem_of_cons.
Qed.
Lemma append_group_fmap key env f ks :
  NoDup ks -> append_group key env ((fun k => (k, f k)) <$> ks) =
    (fun k => (k, if decide (k = key) then f k ++ [env] else f k)) <$> ks.
Proof.
  intros Hn. induction Hn as [|k ks Hk Hn IH]; cbn [append_group fmap list_fmap]; [done|].
  destruct (decide (k = key)) as [->|Hne]; [|by rewrite IH].
  f_equal. apply list_fmap_ext. intros i k Hi%list_elem_of_lookup_2. rewrite decide_False; [done|]. by intros ->.
Qed.

Lemma with_key_app key b1 b2 : with_key key (b1 ++ b2) = with_key key b1 ++ with_key key b2.
Proof. apply filter_app. Qed.

Lemma with_key_one key env : with_key key [env] = if decide (key_of env = key) then [env] else [].
Proof. unfold with_key. by rewrite filter_cons, filter_nil. Qed.

(** The loop computes the specification, or stops when the cap is exceeded. *)
Lemma group_batch_spec max_groups rest pre :
  Z.of_nat (length (distinct_keys [] pre)) <= Z.max 0 max_groups ->
  group_batch group_by max_groups rest (groups_spec pre) =
    if Z.of_nat (length (distinct_keys [] (pre ++ rest))) <=? Z.max 0 max_groups then Some (groups_spec (pre ++ rest)) else None.
Proof.
  revert pre. induction rest as [|env rest IH]; intros pre Hc; cbn [group_batch].
  { rewrite app_nil_r. by rewrite (proj2 (Z.leb_le _ _) Hc). }
  unfold groups_spec at 1. rewrite find_group_fmap.
  assert (distinct_keys [] (pre ++ [env]) = if decide (key_of env ∈ distinct_keys [] pre) then distinct_keys [] pre else distinct_keys [] pre ++ [key_of env]) as Hdk.
  { by rewrite distinct_keys_app. }
  assert (pre ++ env :: rest = (pre ++ [env]) ++ rest) as Heq by (by rewrite <- app_assoc).
  destruct (decide (key_of env ∈ distinct_keys [] pre)) as [Hin|Hin].
  - assert (append_group (key_of env) env (groups_spec pre) = groups_spec (pre ++ [env])) as ->.
    { unfold groups_spec. rewrite append_group_fmap by apply distinct_keys_NoDup, NoDup_nil_2. rewrite Hdk.
      apply list_fmap_ext. intros i k _. f_equal. rewrite with_key_app, with_key_one.
      destruct (decide (k = key_of env)) as [->|Hk]; [by rewrite decide_True|]. rewrite decide_False by congruence. by rewrite app_nil_r. }
    rewrite Heq. apply IH. by rewrite Hdk.
  - unfold groups_spec at 1. rewrite length_fmap. pose proof (distinct_keys_length (distinct_keys [] (pre ++ [env])) rest) as Hl.
    rewrite <- distinct_keys_app in Hl. rewrite Hdk, length_app in Hl. cbn [length] in Hl. rewrite Heq.
    destruct (Z.leb_spec max_groups (Z.of_nat (length (distinct_keys [] pre)))) as [Hm|Hm].
    { destruct (Z.leb_spec (Z.of_nat (length (distinct_keys [] ((pre ++ [env]) ++ rest)))) (Z.max 0 max_groups)); [lia|done]. }
    assert (groups_spec pre ++ [(key_of env, [env])] = groups_spec (pre ++ [env])) as ->; [|apply IH; rewrite Hdk, length_app; cbn; lia].
    unfold groups_spec. rewrite Hdk, fmap_app. f_equal.
    + apply list_fmap_ext. intros i k Hk%list_elem_of_lookup_2. f_equal. rewrite with_key_app, with_key_one.
      rewrite decide_False by (intros <-; done). by rewrite app_nil_r.
    + cbn. do 2 f_equal. rewrite with_key_app, with_key_one, decide_True by done.
      assert (with_key (key_of env) pre = []) as ->; [|done].
      destruct (with_key (key_of env) pre) as [|e l] eqn:E; [done|]. exfalso.
      assert (e ∈ with_key (key_of env) pre) as [Hk He]%list_elem_of_filter by (rewrite E; left).
      apply Hin, distinct_keys_elem. right. rewrite <- Hk. by apply list_elem_of_fmap_2.
Qed.

(** Every event is in exactly one group. *)
Lemma with_key_cons key e b : with_key key (e :: b) = (if decide (key_of e = key) then [e] else []) ++ with_key key b.
Proof. unfold with_key. rewrite filter_cons. by case_decide. Qed.
Lemma concat_one_key e (f : list string -> list envelope) ks :
  NoDup ks -> key_of e ∈ ks ->
  concat ((fun k => (if decide (key_of e = k) then [e] else []) ++ f k) <$> ks) ≡ₚ e :: concat (f <$> ks).
Proof.
  intros Hn. induction Hn as [|k ks Hk Hn IH]; [by intros ?%elem_of_nil|]. intros He. cbn [fmap list_fmap concat].
  apply elem_of_cons in He as [<-|He].
  - rewrite decide_True by done. cbn. do 2 f_equiv.
    assert ((fun k => (if decide (key_of e = k) then [e] else []) ++ f k) <$> ks = f <$> ks) as ->; [|done].
    apply list_fmap_ext. intros i k' Hk'%list_elem_of_lookup_2. rewrite decide_False; [done|]. by intros <-.
  - rewrite decide_False by (intros <-; done). cbn. rewrite (IH He). by rewrite Permutation_middle.
Qed.
Lemma groups_partition batch : concat (snd <$> groups_spec batch) ≡ₚ batch.
Proof.
  unfold groups_spec. rewrite <- list_fmap_compose.
  assert (forall b ks, NoDup ks -> (forall e, e ∈ b -> key_of e ∈ ks) -> concat ((fun k => with_key k b) <$> ks) ≡ₚ b) as Hgen.
  { induction b as [|e b IH]; intros ks Hn Hin.
    - clear. induction ks as [|k ks IH]; [done|]. exact IH.
    - transitivity (e :: concat ((fun k => with_key k b) <$> ks)); [|f_equiv; apply IH; [done|]; intros e' He'; apply Hin; by right].
      rewrite <- concat_one_key by (done || (apply Hin; by left)). f_equiv. apply reflexive_eq, list_fmap_ext.
      intros i k _. apply with_key_cons. }
  apply Hgen; [apply distinct_keys_NoDup, NoDup_nil_2|]. intros e He. apply distinct_keys_elem. right. by apply list_elem_of_fmap_2.
Qed.

Lemma group_nonempty batch g : g ∈ groups_spec batch -> g.2 <> [].
Proof.
  intros (k & -> & Hk)%list_elem_of_fmap. apply distinct_keys_elem in Hk as [Hk|Hk]; [by apply elem_of_nil in Hk|].
  apply list_elem_of_fmap in Hk as (e & -> & He). cbn. intros Hn.
  assert (e ∈ with_key (key_of e) batch) as Hw by (by apply list_elem_of_filter). rewrite Hn in Hw. by apply elem_of_nil in Hw.
Qed.

(** What one group becomes. *)
Definition stands_for (batch : list envelope) (key : list string) (out : envelope) : Prop :=
  exists first rest, with_key key batch = first :: rest /\
    out = match rest with [] => first | _ => decorate group_by key (S (length rest)) first end.

Definition total_bytes (evs : list envelope) : Z := foldr Z.add 0 (envelope_bytes <$> evs).

Lemma total_bytes_app a b : total_bytes (a ++ b) = total_bytes a + total_bytes b.
Proof. unfold total_bytes. induction a as [|e a IH]; cbn; [done|]. rewrite IH. lia. Qed.
Lemma total_bytes_perm a b : a ≡ₚ b -> total_bytes a = total_bytes b.
Proof. unfold total_bytes. induction 1; cbn in *; lia. Qed.

Definition firsts (groups : event_groups) : list envelope := concat ((fun g : list string * list envelope => take 1 g.2) <$> groups).

Lemma firsts_gone groups :
  concat (snd <$> groups) ≡ₚ firsts groups ++ concat ((fun g : list string * list envelope => tail g.2) <$> groups).
Proof.
  unfold firsts. induction groups as [|[k evs] groups IH]; [done|]. cbn [fmap list_fmap concat snd]. rewrite IH.
  destruct evs as [|e evs]; [done|]. cbn. f_equiv. rewrite !app_assoc. f_equiv. by rewrite Permutation_app_comm.
Qed.

(** C37 [coalesce_exact] (aggregation loses only what it counts).  A batch with
    more groups than the cap passes unchanged.  Otherwise there is one event per
    group, in order of first appearance: the only event of the group as it is, or
    the first one with the number of events it stands for; the events and the
    bytes reported as avoided are exactly those of the events that are gone. *)
Theorem coalesce_exact max_groups batch :
  group_by <> [] ->
  let keys := distinct_keys [] batch in
  let '(out, bytes, events) := coalesce group_by max_groups batch in
  (Z.max 0 max_groups < Z.of_nat (length keys) -> out = batch /\ bytes = 0 /\ events = 0) /\
  (Z.of_nat (length keys) <= Z.max 0 max_groups ->
     Forall2 (stands_for batch) keys out /\
     Z.of_nat (length out) + events = Z.of_nat (length batch) /\
     total_bytes (firsts (groups_spec batch)) + bytes = total_bytes batch).
Proof.
  cbv zeta. intros Hne. unfold coalesce. destruct group_by as [|f fs] eqn:Hg; [done|]. rewrite <- Hg in *. destruct batch as [|e b] eqn:Hb.
  { split; [done|]. intros _. split; [constructor|done]. }
  rewrite <- Hb in *. change (@nil (list string * list envelope)) with (groups_spec []).
  rewrite group_batch_spec by (cbn; lia). cbn [app]. set (keys := distinct_keys [] batch).
  destruct (Z.leb_spec (Z.of_nat (length keys)) (Z.max 0 max_groups)) as [Hc|Hc]; [|by split; [|intros; lia]].
  split; [intros; lia|]. intros _. pose proof (firsts_gone (groups_spec batch)) as Hp. rewrite groups_partition in Hp.
  assert (Forall2 (stands_for batch) keys (concat (representative group_by <$> groups_spec batch)) /\
    length (concat (representative group_by <$> groups_spec batch)) = length (firsts (groups_spec batch))) as [Hf Hl].
  { assert (Forall (fun k => with_key k batch <> []) keys) as Hn.
    { apply Forall_forall. intros k Hk. apply (group_nonempty batch (k, with_key k batch)).
      by apply (list_elem_of_fmap_2 (fun key => (key, with_key key batch))). }
    unfold groups_spec, firsts. fold keys. clear -Hn. induction Hn as [|k ks Hk _ [IH1 IH2]]; [by split|].
    cbn [fmap list_fmap concat]. destruct (with_key k batch) as [|first rest] eqn:Hw; [done|]. unfold representative at 1 3. cbn [snd fst].
    split; [|rewrite !length_app, IH2; by destruct rest].
    assert (stands_for batch k (match rest with [] => first | _ => decorate group_by k (S (length rest)) first end)) as Hs by (by exists first, rest).
    destruct rest; cbn; by constructor. }
  split; [done|]. split.
  - apply Permutation_length in Hp. rewrite length_app in Hp. rewrite Hl, <- Nat2Z.inj_add. f_equal. symmetry. exact Hp.
  - apply total_bytes_perm in Hp. rewrite total_bytes_app in Hp. symmetry. exact Hp.
Qed.
End theorems.

(** ** Example *)

Section examples.
#[local] Existing Instances demo_float_repr demo_bytes.

Definition demo_stream : list envelope :=
  [ex_event "e1" "sophos" "eu"; ex_event "e2" "okta" "us"; ex_event "e3" "sophos" "eu"; ex_event "e4" "sophos" "us"].

(** Two vendors: three events become one; with a cap of one group nothing is
    done. *)
Lemma coalesce_exact_witness :
  (coalesce ["vendor"] 1 demo_stream).1.1 = demo_stream /\
  length (coalesce ["vendor"] 10 demo_stream).1.1 = 2%nat /\
  Z.of_nat (length (coalesce ["vendor"] 10 demo_stream).1.1) + (coalesce ["vendor"] 10 demo_stream).2 = 4.
Proof.
  assert (["vendor"] <> []) as Hne by discriminate.
  pose proof (coalesce_exact ["vendor"] 1 demo_stream Hne) as H1. pose proof (coalesce_exact ["vendor"] 10 demo_stream Hne) as H2.
  destruct (coalesce ["vendor"] 1 demo_stream) as [[out1 b1] n1].
  destruct (coalesce ["vendor"] 10 demo_stream) as [[out2 b2] n2] eqn:E. destruct H1 as [H1 _]. destruct H2 as [_ H2].
  destruct H1 as [H1 _]; [vm_compute; reflexivity|]. destruct H2 as (_ & H2 & _); [vm_compute; discriminate|].
  split; [exact H1|]. split; [|exact H2].
  assert (out2 = (coalesce ["vendor"] 10 demo_stream).1.1) as -> by (rewrite E; reflexivity). vm_compute. reflexivity.
Defined.
End examples.
