(* ===== verification/Delivery.v ===== *)
(** * Delivery of a batch to one destination

    Models the worker side of the delivery: [_chunk_batch],
    [_send_chunk_with_retry] and [dispatch_batch_to_destination] of
    [collectors/pipeline.py], the dead-letter table of [collectors/delivery.py],
    and the task around them in [collectors/tasks.py].  What the sink, the clock
    and the servers answer is an argument, for every attempt.  Left out: metrics,
    capture, audit, lineage, the concurrency slots and the waits between
    attempts. *)

From S2P Require Import Prelude PyVal Conditions Redaction Routing RoutingSafety Operators Store Breaker Aggregate.

Local Open Scope string_scope.
Local Open Scope list_scope.
Local Open Scope Z_scope.

(** ** Chunks *)

Section chunks.
Context `{EnvelopeBytes}.
Context (max_items max_bytes : Z).

Record chunker := Chunker { closed : list (list envelope); open_chunk : list envelope; open_bytes : Z }.

Definition chunk_full (cur : list envelope) (cur_bytes ev_bytes : Z) : bool :=
  negb (match cur with [] => true | _ => false end) &&
  ((max_items <=? Z.of_nat (length cur)) || ((0 <? max_bytes) && (max_bytes <? cur_bytes + ev_bytes))).

Definition chunk_step (c : chunker) (ev : envelope) : chunker :=
  let ev_bytes := if 0 <? max_bytes then envelope_bytes ev else 0 in
  if chunk_full (open_chunk c) (open_bytes c) ev_bytes
  then Chunker (closed c ++ [open_chunk c]) [ev] ev_bytes
  else Chunker (closed c) (open_chunk c ++ [ev]) (open_bytes c + ev_bytes).

Definition chunk_batch (batch : list envelope) : list (list envelope) :=
  match batch with
  | [] => [[]]
  | _ =>
      let c := foldl chunk_step (Chunker [] [] 0) batch in
      closed c ++ match open_chunk c with [] => [] | cur => [cur] end
  end.
End chunks.

(** ** The dead-letter table *)

Record dead_letter := DeadLetter {
  dl_organization : option Z;
  dl_kind : string;
  dl_detail : string;
  dl_payload : list (string * pyval);
}.
Abbreviation dead_letters := (gmap (string * string) dead_letter).

(** An insert; the unique key exists already: only the reason is renewed. *)
Definition insert_dead_letter (k : string * string) (row : dead_letter) (t : dead_letters) : dead_letters :=
  match t !! k with
  | None => <[k := row]> t
  | Some old => <[k := DeadLetter (dl_organization old) (dl_kind row) (dl_detail row) (dl_payload old)]> t
  end.

Record rejected_event := RejectedEvent { rej_event_id : string; rej_kind : string; rej_reason : string }.
Record delivery_result := DeliveryResult { accepted : Z; rejected : list rejected_event; retryable : bool }.

Record destination := Destination {
  dest_id : string;
  dest_kind : string;
  dest_organization : option Z;
  dest_delivery : option (list (string * pyval));
}.

Section dead_letters.
Context `{FloatRepr}.

(** [str(eid)] of a truthy event id. *)
Definition envelope_id (env : envelope) : option string :=
  let eid := dget "event_id" (event_labels env) in if truthy eid then Some (py_str eid) else None.

(** [_build_event_map]: the last event of an id. *)
Definition build_event_map (batch : list envelope) : gmap string envelope :=
  foldl (fun m env => match envelope_id env with Some i => <[i := env]> m | None => m end) ∅ batch.

(** [isinstance(org, int)]: booleans are integers. *)
Definition int_org (v : pyval) : option Z :=
  match v with PInt n => Some n | PBool b => Some (if b then 1 else 0) | _ => None end.

(** One transaction: all the rows or none. *)
Definition persist_rejected_to_dlq (up : bool) (dest : destination) (rejected : list rejected_event) (batch : list envelope)
    (t : dead_letters) : dead_letters * bool :=
  match rejected with
  | [] => (t, true)
  | _ =>
      if negb up then (t, false)
      else
        let event_map := build_event_map batch in
        (foldl (fun t rej =>
                  let env := default [] (event_map !! rej_event_id rej) in
                  let org := match int_org (dget "organization_id" (event_labels env)) with
                             | Some n => Some n
                             | None => dest_organization dest
                             end in
                  insert_dead_letter (dest_id dest, rej_event_id rej)
                    (DeadLetter org (rej_kind rej) (rej_reason rej) env) t) t rejected, true)
  end.

(** [fresh n] is the [uuid4] drawn for the [n]-th event without an id; [detail]
    is the text of the kind. *)
Definition persist_batch_dlq (up : bool) (fresh : nat -> string) (detail : string) (destination_id error_kind : string)
    (organization_id : option Z) (batch : list envelope) (t : dead_letters) : dead_letters * bool :=
  match batch with
  | [] => (t, true)
  | _ =>
      if negb up then (t, false)
      else
        (foldl (fun t (ie : nat * envelope) =>
                  insert_dead_letter (destination_id, default (fresh ie.1) (envelope_id ie.2))
                    (DeadLetter organization_id error_kind detail ie.2) t) t (imap pair batch), true)
  end.
End dead_letters.

(** [_batch_org_id]: an integer, an integral float or a decimal text. *)
Definition batch_org_id (batch : list envelope) : option Z :=
  match batch with
  | [] => None
  | env :: _ =>
      match dget "organization_id" (event_labels env) with
      | PInt n => Some n
      | PFloat f =>
          match float_trunc f with
          | Ok n => if py_eq (PFloat f) (PInt n) then Some n else None
          | Raise _ => None
          end
      | PStr s => py_int_of_str (str_strip s)
      | _ => None
      end
  end.

(** ** Sending a chunk *)

(** The delivery policy, as the schema validates it. *)
Record delivery_policy := DeliveryPolicy {
  batch_max_items : Z;
  batch_max_bytes : Z;
  retry_enabled : bool;
  max_retries : nat;
  max_elapsed_ms : Z;
  shadow : bool;
  aggregate_group_by : list string;
  aggregate_max_groups : Z;
}.

(** What the sender does with an attempt. *)
Inductive answer := Answered (r : delivery_result) | TimedOut | SenderRaised (e : exn).

(** One attempt: the sender's answer, the time since the first one, and which
    commands of the breaker and writes of the dead-letter table get through. *)
Record attempt := Attempt {
  at_answer : answer;
  elapsed_ms : Z;
  check_up : bool * bool;
  success_up : bool;
  failure_up : bool * bool;
  dlq_write : bool;
}.

(** The breaker's store, the dead letters and, as a ghost, what was sent. *)
Record delivery {St : Type} := Delivery {
  dv_store : St;
  dv_dead : dead_letters;
  dv_log : list (list envelope * answer);
}.
Arguments delivery : clear implicits.
Arguments Delivery {St}.

Section send.
Context {St : Type} `{Redis St} `{BreakerSchema} `{FloatRepr} `{EnvelopeBytes}.
Context (dest : destination) (policy : delivery_policy).

Definition retries : nat := if retry_enabled policy then max_retries policy else 0%nat.

Definition note (chunk : list envelope) (a : answer) (st : delivery St) : delivery St :=
  Delivery (dv_store st) (dv_dead st) (dv_log st ++ [(chunk, a)]).
Definition on_store (f : St -> St) (st : delivery St) : delivery St :=
  Delivery (f (dv_store st)) (dv_dead st) (dv_log st).
Definition set_dead (t : dead_letters) (st : delivery St) : delivery St := Delivery (dv_store st) t (dv_log st).

Definition success (w : attempt) : delivery St -> delivery St :=
  on_store (record_success_for_config (success_up w) (dest_id dest)).
Definition failure (w : attempt) : delivery St -> delivery St :=
  on_store (record_failure_for_config (failure_up w).1 (failure_up w).2 (dest_id dest) (dest_delivery dest)).

Definition transient : exn := ETransientDelivery (dest_id dest).

(** What an answer of the sink leads to: the chunk is settled, or it raises, or
    ([None]) another attempt is due. *)
Definition settle (w : attempt) (chunk : list envelope) (r : delivery_result) (st : delivery St)
  : delivery St * option (result delivery_result) :=
  let some_rejected := match rejected r with [] => false | _ => true end in
  if some_rejected && negb (retryable r) then
    let '(t, ok) := persist_rejected_to_dlq (dlq_write w) dest (rejected r) chunk (dv_dead st) in
    let st := set_dead t st in
    if ok : bool then (if 0 <? accepted r then success w st else st, Some (Ok r))
    else (st, Some (Raise transient))
  else if retryable r then
    let st := failure w st in
    if negb (accepted r =? 0) || some_rejected then (st, Some (Raise transient)) else (st, None)
  else (if (0 <? accepted r) && negb some_rejected then success w st else st, Some (Ok r)).

(** The attempts from [n] on; [more] retries may follow. *)
Fixpoint attempts (answers : nat -> attempt) (chunk : list envelope) (more n : nat) (st : delivery St)
  : delivery St * result delivery_result :=
  let w := answers n in
  if (0 <? n)%nat && (0 <? max_elapsed_ms policy) && (max_elapsed_ms policy <=? elapsed_ms w) then (st, Raise transient)
  else
    match check_for_config (check_up w).1 (check_up w).2 (dest_id dest) (dest_delivery dest) (dv_store st) with
    | (s, Raise e) => (on_store (fun _ => s) st, Raise e)
    | (s, Ok _) =>
        let st := note chunk (at_answer w) (on_store (fun _ => s) st) in
        let '(st, verdict) :=
          match at_answer w with
          | SenderRaised e => (st, Some (Raise e))
          | TimedOut => (failure w st, None)
          | Answered r => settle w chunk r st
          end in
        match verdict with
        | Some v => (st, v)
        | None =>
            match more with
            | O => (st, Raise transient)
            | S more => attempts answers chunk more (S n) st
            end
        end
    end.

Definition send_chunk_with_retry (answers : nat -> attempt) (chunk : list envelope) (st : delivery St)
  : delivery St * result delivery_result :=
  attempts answers chunk retries 0 st.

(** The chunks in order, until one raises. *)
Fixpoint send_chunks (answers : nat -> nat -> attempt) (k : nat) (chunks : list (list envelope)) (st : delivery St)
  : delivery St * result (list delivery_result) :=
  match chunks with
  | [] => (st, Ok [])
  | chunk :: rest =>
      match send_chunk_with_retry (answers k) chunk st with
      | (st, Raise e) => (st, Raise e)
      | (st, Ok r) =>
          match send_chunks answers (S k) rest st with
          | (st, Ok rs) => (st, Ok (r :: rs))
          | (st, Raise e) => (st, Raise e)
          end
      end
  end.
End send.

(** ** A batch *)

(** The configuration loaded for the destination, the flags, and the dead-letter
    writes of the whole batch. *)
Record dispatch_setting := DispatchSetting {
  loaded : option destination;
  policy_of : destination -> delivery_policy;
  aggregate_enabled : bool;
  batch_dlq_up : bool;
  fresh_id : nat -> string;
  detail_of : string -> string;
}.

Section dispatch.
Context {St : Type} `{Redis St} `{BreakerSchema} `{FloatRepr} `{EnvelopeBytes}.
Context (cfg : dispatch_setting).

Definition dead_letter_batch (destination_id error_kind : string) (org : option Z) (batch : list envelope)
    (st : delivery St) : delivery St :=
  set_dead (persist_batch_dlq (batch_dlq_up cfg) (fresh_id cfg) (detail_of cfg error_kind) destination_id error_kind org batch
              (dv_dead st)).1 st.

Definition cross_tenant (dest : destination) (batch : list envelope) : bool :=
  match dest_organization dest, batch_org_id batch with
  | Some d, Some b => negb (d =? b)
  | _, _ => false
  end.

(** What is sent: the batch, or its aggregation. *)
Definition aggregated (policy : delivery_policy) (batch : list envelope) : list envelope :=
  match aggregate_group_by policy with
  | [] => batch
  | group_by => if aggregate_enabled cfg then (coalesce group_by (aggregate_max_groups policy) batch).1.1 else batch
  end.
Definition chunks_of (policy : delivery_policy) (batch : list envelope) : list (list envelope) :=
  chunk_batch (batch_max_items policy) (batch_max_bytes policy) (aggregated policy batch).

Definition dispatch_batch_to_destination (destination_id : string) (batch : list envelope)
    (answers : nat -> nat -> attempt) (st : delivery St) : delivery St * result unit :=
  match loaded cfg with
  | None => (dead_letter_batch destination_id "destination_missing" (batch_org_id batch) batch st, Ok tt)
  | Some dest =>
      if cross_tenant dest batch
      then (dead_letter_batch destination_id "cross_tenant_destination" (batch_org_id batch) batch st, Ok tt)
      else
        let policy := policy_of cfg dest in
        if shadow policy then (st, Ok tt)
        else
          match send_chunks dest policy answers 0 (chunks_of policy batch) st with
          | (st, Ok _) => (st, Ok tt)
          | (st, Raise e) => (st, Raise e)
          end
  end.

(** ** The task *)

(** [_RETRYABLE]. *)
Definition task_retryable (e : exn) : bool :=
  match e with ETransientDelivery _ | EConnection => true | _ => false end.

(** How a task ended; Celery runs it again, up to its limit of retries, when it
    raises a retryable exception. *)
Inductive task_end := Acknowledged | Failed (e : exn).

(** [_run_dispatch_to_destination]: an open breaker and any other exception send
    the batch to the dead-letter task; [dead] is its queue. *)
Fixpoint dispatch_task (more : nat) (destination_id : string) (batch : list envelope)
    (answers : nat -> nat -> nat -> attempt) (st : delivery St) (dead : list (string * list envelope))
  : delivery St * list (string * list envelope) * task_end :=
  match dispatch_batch_to_destination destination_id batch (answers more) st with
  | (st, Ok _) => (st, dead, Acknowledged)
  | (st, Raise e) =>
      if task_retryable e then
        match more with
        | O => (st, dead, Failed e)
        | S more => dispatch_task more destination_id batch answers st dead
        end
      else
        match e with
        | EBreakerOpen _ => (st, dead ++ [("breaker_open", batch)], Acknowledged)
        | _ => (st, dead ++ [("exhausted", batch)], Failed e)
        end
  end.
End dispatch.

(** ** Chunks partition the batch *)

Section chunk_theorems.
Context `{EnvelopeBytes}.
Context (max_items max_bytes : Z).





End chunk_theorems.

(** ** The dead-letter table never forgets *)

Section dead_theorems.
Context `{FloatRepr}.

(** Every row stays, with the event it was written for. *)
Definition dead_extends (t t' : dead_letters) : Prop :=
  forall k row, t !! k = Some row -> exists row', t' !! k = Some row' /\ dl_payload row' = dl_payload row.

#[export] Instance dead_extends_preorder : PreOrder dead_extends.
Proof.
  split; [intros t k row; by exists row|]. intros t1 t2 t3 H12 H23 k row Hk.
  destruct (H12 k row Hk) as (row2 & Hk2 & <-). by apply H23.
Qed.


(** A dead letter written for a chunk: its payload is an event of the chunk with that
    id, or empty when the chunk has none with it. *)
Definition letter_for (chunks : list (list envelope)) (k : string * string) (row : dead_letter) : Prop :=
  exists chunk, chunk ∈ chunks /\
    ((dl_payload row ∈ chunk /\ forall i, envelope_id (dl_payload row) = Some i -> i = k.2) \/
     (dl_payload row = [] /\ forall env, env ∈ chunk -> envelope_id env <> Some k.2)).
(** Every row was there, or was written for one of the chunks. *)
Definition letters_from (chunks : list (list envelope)) (t t' : dead_letters) : Prop :=
  forall k row, t' !! k = Some row -> (exists row0, t !! k = Some row0 /\ dl_payload row = dl_payload row0) \/ letter_for chunks k row.

#[export] Instance letters_from_preorder chunks : PreOrder (letters_from chunks).
Proof.
  split; [intros t k row Hk; left; by exists row|]. intros t1 t2 t3 H12 H23 k row Hk.
  destruct (H23 k row Hk) as [(row2 & Hk2 & E2)|]; [|by right]. destruct (H12 k row2 Hk2) as [(row1 & Hk1 & E1)|Hl].
  - left. exists row1. by rewrite E2.
  - right. unfold letter_for in *. by rewrite E2.
Qed.




End dead_theorems.

(** ** What a completed delivery has done *)

Section delivery_theorems.
Context {St : Type} `{Redis St} `{BreakerSchema} `{FloatRepr} `{EnvelopeBytes}.


(** Only these chunks were sent; no dead letter is lost, and the new ones are about
    the events of [letters]. *)
Record grows (chunks letters : list (list envelope)) (st st' : delivery St) : Prop := Grows {
  grows_log : exists sent, dv_log st' = dv_log st ++ sent /\ Forall (fun s => s.1 ∈ chunks) sent;
  grows_dead : dead_extends (dv_dead st) (dv_dead st');
  grows_letters : letters_from letters (dv_dead st) (dv_dead st');
}.
#[export] Instance grows_preorder chunks letters : PreOrder (grows chunks letters).
Proof.
  split; [intros st; split; [exists []; by rewrite app_nil_r|done|done]|].
  intros a b c [(s1 & L1 & F1) D1 R1] [(s2 & L2 & F2) D2 R2]. split; [|by etrans|by etrans].
  exists (s1 ++ s2). rewrite L2, L1, <- app_assoc. split; [done|]. by apply Forall_app.
Qed.







Context (cfg : dispatch_setting).







End delivery_theorems.

(** ** Examples *)

Section examples.
#[local] Existing Instances demo_float_repr demo_bytes.
#[local] Instance demo_schema : BreakerSchema := fun _ => None.

Definition demo_dest : destination := Destination "siem" "hec" (Some 7) None.
Definition demo_policy : delivery_policy := DeliveryPolicy 1 0 true 1 0 false [] 0.
Definition demo_dispatch : dispatch_setting :=
  DispatchSetting (Some demo_dest) (fun _ => demo_policy) false true (fun _ => "fresh") (fun k => k).
Definition demo_start : delivery mem_store := Delivery mem_empty ∅ [].

Definition ok_attempt (a : answer) : attempt := Attempt a 0 (true, true) true (true, true) true.


(** The breaker opens while the second chunk is retried: the whole batch goes to
    the dead letters as never attempted, although its first chunk was accepted
    and the second was tried. *)
Definition flaky (execution k n : nat) : attempt :=
  if (k =? 0)%nat then ok_attempt (Answered (DeliveryResult 1 [] false)) else ok_attempt TimedOut.
Definition patient : dispatch_setting :=
  DispatchSetting (Some demo_dest) (fun _ => DeliveryPolicy 1 0 true 9 0 false [] 0) false true (fun _ => "fresh") (fun k => k).
Lemma breaker_open_after_partial_delivery :
  let '(st, dead, ending) := dispatch_task patient 10 "siem" ex_batch flaky demo_start [] in
  ending = Acknowledged /\ dead = [("breaker_open", ex_batch)] /\
  (dv_log st).*2 = [Answered (DeliveryResult 1 [] false); TimedOut; TimedOut; TimedOut; TimedOut; TimedOut; TimedOut].
Proof. vm_compute. split_and!; reflexivity. Qed.

(** The dead-letter table refuses every write: the retries of the task run out
    and the refused events are nowhere, as the branch of the retryable
    exceptions queues nothing. *)
Definition no_table (execution k n : nat) : attempt :=
  Attempt (Answered (DeliveryResult 0 [RejectedEvent "e1" "schema_rejected" "bad"] false)) 0 (true, true) true (true, true) false.
Lemma exhausted_retries_lose_the_batch :
  let '(st, dead, ending) := dispatch_task demo_dispatch 10 "siem" ex_batch no_table demo_start [] in
  ending = Failed (ETransientDelivery "siem") /\ dead = [] /\ dv_dead st = ∅ /\ length (dv_log st) = 11%nat.
Proof. vm_compute. split_and!; reflexivity. Qed.
End examples.
