(* ===== verification/HashStore.v ===== *)
(** * Hashes in the shared store

    The in-flight sequences and the absence rules keep their state in Redis
    hashes.  [RedisHash] is the interface the code uses of them, in the style of
    [Store]: the commands, the clock and the documented effect of each command on
    the live entry of a key, its fields with an optional deadline.  An empty hash
    does not exist.  [mem_hashes] is an implementation. *)

From S2P Require Import Prelude.

Local Open Scope Z_scope.

Section interface.
Context (V : Type).

Definition hash_entry : Type := gmap string V * option Z.

Class RedisHash (S : Type) := {
  h_now : S -> Z;
  h_entry : S -> string -> option hash_entry;
  h_set : string -> string -> V -> S -> S;           (* HSET k f v *)
  h_del_fields : string -> list string -> S -> S;    (* HDEL k f... *)
  h_expire : string -> Z -> S -> S;                  (* EXPIRE k ttl *)
  h_drop : string -> S -> S;                         (* DEL k *)
  h_tick : Z -> S -> S;                              (* time passes *)
}.

Definition hash_live (now : Z) (e : hash_entry) : bool :=
  match e.2 with Some deadline => now <? deadline | None => true end.
Definition still_there (now : Z) (e : option hash_entry) : option hash_entry :=
  match e with Some e => if hash_live now e then Some e else None | None => None end.

Definition h_get {S} `{RedisHash S} (s : S) (k : string) : gmap string V := default ∅ (fst <$> h_entry s k).
Definition without (fs : list string) (e : hash_entry) : option hash_entry :=
  let m := foldr delete e.1 fs in if decide (m = ∅) then None else Some (m, e.2).

Class RedisHashLaws (S : Type) `{RedisHash S} := {
  h_set_now k f v s : h_now (h_set k f v s) = h_now s;
  h_set_entry k f v s k' :
    h_entry (h_set k f v s) k' =
    if String.eqb k' k then Some (<[f := v]> (h_get s k), h_entry s k ≫= snd) else h_entry s k';
  h_del_now k fs s : h_now (h_del_fields k fs s) = h_now s;
  h_del_entry k fs s k' :
    h_entry (h_del_fields k fs s) k' = if String.eqb k' k then h_entry s k ≫= without fs else h_entry s k';
  h_expire_now k ttl s : h_now (h_expire k ttl s) = h_now s;
  h_expire_entry k ttl s k' : 0 < ttl ->
    h_entry (h_expire k ttl s) k' =
    if String.eqb k' k then (fun e : hash_entry => (e.1, Some (h_now s + ttl))) <$> h_entry s k else h_entry s k';
  h_drop_now k s : h_now (h_drop k s) = h_now s;
  h_drop_entry k s k' : h_entry (h_drop k s) k' = if String.eqb k' k then None else h_entry s k';
  h_tick_now d s : h_now (h_tick d s) = h_now s + d;
  h_tick_entry d s k : 0 <= d -> h_entry (h_tick d s) k = still_there (h_now s + d) (h_entry s k);
  h_entry_live s k e : h_entry s k = Some e -> hash_live (h_now s) e = true;
}.
End interface.

Arguments h_now {V S _}.
Arguments h_entry {V S _}.
Arguments h_set {V S _}.
Arguments h_del_fields {V S _}.
Arguments h_expire {V S _}.
Arguments h_drop {V S _}.
Arguments h_tick {V S _}.
Arguments h_get {V S _}.
Arguments h_set_now {V S _ _}.
Arguments h_set_entry {V S _ _}.
Arguments h_del_now {V S _ _}.
Arguments h_del_entry {V S _ _}.
Arguments h_expire_now {V S _ _}.
Arguments h_expire_entry {V S _ _}.
Arguments h_drop_now {V S _ _}.
Arguments h_drop_entry {V S _ _}.
Arguments h_tick_now {V S _ _}.
Arguments h_tick_entry {V S _ _}.
Arguments h_entry_live {V S _ _}.
Arguments still_there {V}.
Arguments hash_live {V}.
Arguments without {V}.

(** ** An in-memory implementation *)

Section mem.
Context {V : Type}.

Record mem_hash_store := MemHashes { mh_now : Z; mh_map : gmap string (hash_entry V) }.

Definition mh_entry (s : mem_hash_store) (k : string) : option (hash_entry V) := still_there (mh_now s) (mh_map s !! k).
Definition mh_put (k : string) (e : option (hash_entry V)) (s : mem_hash_store) : mem_hash_store :=
  MemHashes (mh_now s) (match e with Some e => <[k := e]> (mh_map s) | None => delete k (mh_map s) end).

#[export] Instance mem_hashes : RedisHash V mem_hash_store := {
  h_now := mh_now;
  h_entry := mh_entry;
  h_set k f v s := mh_put k (Some (<[f := v]> (default ∅ (fst <$> mh_entry s k)), mh_entry s k ≫= snd)) s;
  h_del_fields k fs s := mh_put k (mh_entry s k ≫= without fs) s;
  h_expire k ttl s :=
    match mh_entry s k with Some e => mh_put k (Some (e.1, Some (mh_now s + ttl))) s | None => s end;
  h_drop k s := mh_put k None s;
  h_tick d s := MemHashes (mh_now s + d) (mh_map s);
}.

Definition mem_no_hashes : mem_hash_store := MemHashes 0 ∅.

Lemma still_there_live now (e : option (hash_entry V)) e' : still_there now e = Some e' -> hash_live now e' = true.
Proof. destruct e; cbn; [|done]. case_match; [by intros [= <-]|done]. Qed.
Lemma mh_put_entry k e s k' :
  (forall e', e = Some e' -> hash_live (mh_now s) e' = true) ->
  mh_entry (mh_put k e s) k' = if String.eqb k' k then e else mh_entry s k'.
Proof.
  intros Hl. unfold mh_entry, mh_put. cbn [mh_now mh_map]. destruct (String.eqb_spec k' k) as [->|Hne].
  - destruct e as [e|]; [|by rewrite lookup_delete_eq]. rewrite lookup_insert_eq. cbn. by rewrite Hl.
  - destruct e; [by rewrite lookup_insert_ne|by rewrite lookup_delete_ne].
Qed.
Lemma mh_entry_live s k e : mh_entry s k = Some e -> hash_live (mh_now s) e = true.
Proof. apply still_there_live. Qed.
End mem.

#[export] Instance mem_hashes_laws {V} : RedisHashLaws V mem_hash_store.
Proof.
  split; try done; cbn.
  - intros k f v s k'. rewrite mh_put_entry; [done|]. intros e [= <-]. unfold hash_live. cbn.
    destruct (mh_entry s k) as [[m [dl|]]|] eqn:E; cbn; try done. by apply mh_entry_live in E.
  - intros k fs s k'. apply mh_put_entry. intros e' He. destruct (mh_entry s k) as [e|] eqn:E; [|done]. cbn in He.
    unfold without in He. case_decide; [done|]. injection He as <-. by apply mh_entry_live in E.
  - intros k ttl s. by destruct (mh_entry s k).
  - intros k ttl s k' Ht. destruct (mh_entry s k) as [e|] eqn:E; cbn.
    + apply mh_put_entry. intros e' [= <-]. unfold hash_live. cbn. lia.
    + destruct (String.eqb_spec k' k) as [->|]; done.
  - intros k s k'. by apply mh_put_entry.
  - intros d s k Hd. unfold mh_entry. cbn [mh_now mh_map].
    destruct (mh_map s !! k) as [[m [dl|]]|]; cbn; try done. unfold hash_live. cbn.
    destruct (Z.ltb_spec (mh_now s) dl); cbn; unfold hash_live; cbn; [done|]. destruct (Z.ltb_spec (mh_now s + d) dl); [lia|done].
  - intros s k e. apply mh_entry_live.
Qed.
