(* ===== verification/RuleCompile.v ===== *)
(** * Compiling detection rules

    Models the compilers of [inflight/runtime.py] over [compile_clauses] of
    [Inflight]: the validation of the stored JSON, classic rules, sequences (one
    compiled rule per leg) and absence rules, with [forget_seconds_for] of
    [inflight/absence.py].  A row of the database is a record of its columns;
    [json.loads] is a parameter ([JsonLoads]). *)

From S2P Require Import Prelude PyVal Conditions Redaction Routing Predicates Operators Envelope Inflight.

Local Open Scope string_scope.
Local Open Scope list_scope.
Local Open Scope Z_scope.

Record rule_limits := RuleLimits {
  INFLIGHT_MAX_WHERE_CLAUSES : nat;
  INFLIGHT_MAX_LEGS : nat;
  INFLIGHT_MAX_WINDOW_SECONDS : Z;
  INFLIGHT_MAX_WINDOW_COUNT : Z;
  ABSENCE_MAX_WINDOW_SECONDS : Z;
  ABSENCE_MAX_FORGET_SECONDS : Z;
}.

(** The columns of [CorrelationRule] the compilers read. *)
Record rule_row := RuleRow {
  row_id : Z;
  row_name : string;
  row_type : option string;
  where_json : option string;
  legs_json : option string;
  row_severity : option Z;
  row_suppression : option Z;
  row_group_by : option string;
  row_emit_event : bool;
  row_max_dedup_keys : option Z;
  row_min_count : option Z;
  row_window : option Z;
  row_forget : option Z;
}.

Definition SEQUENCE_RULE_TYPE : string := "sequence".
Definition ABSENCE_RULE_TYPE : string := "absence".
Definition ABSENCE_MIN_WINDOW_SECONDS : Z := 60.

(** The closed set of reasons of the loading metric. *)
Definition REJECT_REASONS : list string :=
  ["bad_json"; "empty_where"; "unknown_op"; "over_cap"; "truncated"; "load_failed"; "group_by_root";
   "window_over_cap"; "window_count_over_cap"; "bad_legs"; "legs_over_cap"; "join_root"; "bad_absence";
   "absence_window_over_cap"].

(** [int(x or d)] of an integer column, and [int(x)] of a truthy one. *)
Definition int_or (d : Z) (x : option Z) : Z := match x with Some n => if n =? 0 then d else n | None => d end.
Definition truthy_int (x : option Z) : option Z := match x with Some n => if n =? 0 then None else Some n | None => None end.

Definition dicts_of (l : list pyval) : list (list (string * pyval)) :=
  omap (fun v => match v with PDict d => Some d | _ => None end) l.

Section compile.
Context `{FloatRepr} `{FloatParse} `{JsonLoads}.
Context (limits : rule_limits).

(** [json.loads(raw or "[]")] as a list, or the reason. *)
Definition load_list (reason : string) (raw : option string) : result (list pyval + string) :=
  let text := match raw with Some s => if String.eqb s "" then "[]" else s | None => "[]" end in
  v ← try_except (v ← json_loads text; Ok (Some v))
        (fun e => is_value_error e || match e with EType => true | _ => false end) (fun _ => Ok None);
  Ok (match v with Some (PList l) => inl l | _ => inr reason end).

Definition validate_where_json (raw : option string) : result (list (list (string * pyval)) + string) :=
  l ← load_list "bad_json" raw;
  Ok (match l with
      | inr reason => inr reason
      | inl l => match dicts_of l with [] => inr "empty_where" | clauses => inl clauses end
      end).

Definition leg_where (leg : list (string * pyval)) : list (list (string * pyval)) :=
  match dget "where" leg with PList l => dicts_of l | _ => [] end.
Definition leg_ok (leg : list (string * pyval)) : bool :=
  negb (match leg_where leg with [] => true | _ => false end) &&
  match dget "join_path" leg with PStr s => negb (String.eqb s "") | _ => false end &&
  match dget "stream" leg with PNone => true | PStr s => negb (str_blank s) | _ => false end.

Definition validate_legs_json (raw : option string) : result (list (list (string * pyval)) + string) :=
  l ← load_list "bad_legs" raw;
  Ok (match l with
      | inr reason => inr reason
      | inl l =>
          let legs := dicts_of l in
          if (length legs <? 2)%nat || negb (length legs =? length l)%nat then inr "bad_legs"
          else if (INFLIGHT_MAX_LEGS limits <? length legs)%nat then inr "legs_over_cap"
          else if forallb leg_ok legs then inl legs else inr "bad_legs"
      end).

Definition suppression_of (row : rule_row) : Z := default 3600 (row_suppression row).
Definition str_of_nat_leg (index : nat) : string := ("leg" +:+ str_of_nat index)%string.

(** One leg: a rule that matches its clauses on its stream, grouped by its own
    join path. *)
Definition compile_leg (row : rule_row) (window : Z) (total : nat) (index : nat) (leg : list (string * pyval))
  : result (compiled_inflight_rule + string) :=
  cs ← compile_clauses (INFLIGHT_MAX_WHERE_CLAUSES limits) (leg_where leg);
  Ok (match cs with
      | inr reason => inr reason
      | inl cs =>
          let stream := match dget "stream" leg with
                        | PStr s => if String.eqb s "" then [] else
                            [CompiledClause ["_centralops"; "stream"] "eq" (CValue (PStr (str_strip s))) false]
                        | _ => []
                        end in
          let join_path := str_split "." (match dget "join_path" leg with PStr s => s | _ => "" end) in
          if negb (mem (hd "" join_path) ENVELOPE_ROOTS) then inr "join_root"
          else inl (CompiledInflightRule (row_id row) (row_name row) (int_or 4 (row_severity row)) (suppression_of row)
                 (Some join_path) (cs ++ stream) (row_emit_event row) (truthy_int (row_max_dedup_keys row)) 1 window
                 (Some (Z.of_nat index)) (Z.of_nat total)
                 (py_str (py_or (dget "label" leg) (PStr (str_of_nat_leg index)))) false 0)
      end).

(** The loop stops at the first rejected leg. *)
Fixpoint compile_legs (row : rule_row) (window : Z) (total index : nat) (legs : list (list (string * pyval)))
  : result (list compiled_inflight_rule + string) :=
  match legs with
  | [] => Ok (inl [])
  | leg :: rest =>
      r ← compile_leg row window total index leg;
      match r with
      | inr reason => Ok (inr reason)
      | inl r =>
          rs ← compile_legs row window total (S index) rest;
          Ok (match rs with inl rs => inl (r :: rs) | inr reason => inr reason end)
      end
  end.

Definition compile_sequence (row : rule_row) : result (list compiled_inflight_rule + string) :=
  legs ← validate_legs_json (legs_json row);
  match legs with
  | inr reason => Ok (inr reason)
  | inl legs =>
      let window := int_or 0 (row_window row) in
      if window <=? 0 then Ok (inr "bad_legs")
      else if INFLIGHT_MAX_WINDOW_SECONDS limits <? window then Ok (inr "window_over_cap")
      else compile_legs row window (length legs) 0 legs
  end.

Definition forget_seconds_for (row : rule_row) (window : Z) : Z :=
  match row_forget row with Some n => if n <=? 0 then 3 * window else n | None => 3 * window end.

Definition root_of (group_by : string) : string := hd "" (str_split "." group_by).

Definition compile_absence (row : rule_row) : result (compiled_inflight_rule + string) :=
  clauses_raw ← validate_where_json (where_json row);
  match clauses_raw with
  | inr reason => Ok (inr reason)
  | inl clauses_raw =>
      cs ← compile_clauses (INFLIGHT_MAX_WHERE_CLAUSES limits) clauses_raw;
      Ok (match cs with
          | inr reason => inr reason
          | inl cs =>
              let group_by := default "" (row_group_by row) in
              let window := int_or 0 (row_window row) in
              let forget := forget_seconds_for row window in
              if str_blank group_by then inr "bad_absence"
              else if negb (mem (root_of group_by) ENVELOPE_ROOTS) then inr "group_by_root"
              else if window <? ABSENCE_MIN_WINDOW_SECONDS then inr "bad_absence"
              else if ABSENCE_MAX_WINDOW_SECONDS limits <? window then inr "absence_window_over_cap"
              else if (forget <? window) || (ABSENCE_MAX_FORGET_SECONDS limits <? forget) then inr "bad_absence"
              else inl (CompiledInflightRule (row_id row) (row_name row) (int_or 4 (row_severity row)) (suppression_of row)
                     (Some (str_split "." group_by)) cs (row_emit_event row) (truthy_int (row_max_dedup_keys row)) 1
                     window None 0 "" true forget)
          end)
  end.

Definition is_type (row : rule_row) (t : string) : bool := String.eqb (default "" (row_type row)) t.

Definition compile_classic (row : rule_row) : result (compiled_inflight_rule + string) :=
  clauses_raw ← validate_where_json (where_json row);
  match clauses_raw with
  | inr reason => Ok (inr reason)
  | inl clauses_raw =>
      cs ← compile_clauses (INFLIGHT_MAX_WHERE_CLAUSES limits) clauses_raw;
      Ok (match cs with
          | inr reason => inr reason
          | inl cs =>
              let group_by := default "" (row_group_by row) in
              let min_count := int_or 1 (row_min_count row) in
              let window := int_or 0 (row_window row) in
              let sliding := (1 <? min_count) && (0 <? window) in
              if negb (String.eqb group_by "") && negb (mem (root_of group_by) ENVELOPE_ROOTS) then inr "group_by_root"
              else if sliding && (INFLIGHT_MAX_WINDOW_SECONDS limits <? window) then inr "window_over_cap"
              else if sliding && (INFLIGHT_MAX_WINDOW_COUNT limits <? min_count) then inr "window_count_over_cap"
              else inl (CompiledInflightRule (row_id row) (row_name row) (int_or 4 (row_severity row)) (suppression_of row)
                     (if String.eqb group_by "" then None else Some (str_split "." group_by)) cs (row_emit_event row)
                     (truthy_int (row_max_dedup_keys row)) (if sliding then min_count else 1) (if sliding then window else 0)
                     None 0 "" false 0)
          end)
  end.

(** [compile_rule]: for a sequence, its first leg. *)
Definition compile_rule (row : rule_row) : result (compiled_inflight_rule + string) :=
  if is_type row SEQUENCE_RULE_TYPE then
    rs ← compile_sequence row;
    Ok (match rs with inl (r :: _) => inl r | inl [] => inr "" | inr reason => inr reason end)
  else if is_type row ABSENCE_RULE_TYPE then compile_absence row
  else compile_classic row.

(** [compile_row]: every rule the row stands for. *)
Definition compile_row (row : rule_row) : result (list compiled_inflight_rule + string) :=
  if is_type row SEQUENCE_RULE_TYPE then compile_sequence row
  else
    r ← compile_rule row;
    Ok (match r with inl r => inl [r] | inr reason => inr reason end).
End compile.

(** ** The type of compiled rules *)

Section theorems.
Context `{FloatRepr} `{FloatParse} `{JsonLoads}.
Context (limits : rule_limits).

(** A clause carries the kind of value its operator compares with. *)
Definition clause_wf (k : compiled_clause) : Prop :=
  clause_path k <> [] /\ mem (clause_op k) INFLIGHT_ALLOWED_OPS = true /\
  clause_numeric k = mem (clause_op k) NUMERIC_OPS /\
  (clause_numeric k = true -> exists f, clause_val k = CValue (PFloat f)) /\
  (mem (clause_op k) ["in"; "nin"] = true -> exists l, clause_val k = CSet l \/ clause_val k = CValue (PList l)) /\
  (clause_op k = "exists" -> exists b, clause_val k = CValue (PBool b)).

Inductive rule_shape (r : compiled_inflight_rule) : Prop :=
| ShapeClassic :
    absence r = false -> leg_index r = None ->
    (min_count r = 1 /\ window_seconds r = 0) \/
    (1 < min_count r <= INFLIGHT_MAX_WINDOW_COUNT limits /\ 0 < window_seconds r <= INFLIGHT_MAX_WINDOW_SECONDS limits) ->
    rule_shape r
| ShapeLeg i :
    absence r = false -> leg_index r = Some i -> 0 <= i < legs_total r ->
    2 <= legs_total r <= Z.of_nat (INFLIGHT_MAX_LEGS limits) -> min_count r = 1 ->
    0 < window_seconds r <= INFLIGHT_MAX_WINDOW_SECONDS limits -> is_Some (group_by_path r) -> rule_shape r
| ShapeAbsence :
    absence r = true -> leg_index r = None -> min_count r = 1 ->
    ABSENCE_MIN_WINDOW_SECONDS <= window_seconds r <= ABSENCE_MAX_WINDOW_SECONDS limits ->
    window_seconds r <= forget_seconds r <= ABSENCE_MAX_FORGET_SECONDS limits -> is_Some (group_by_path r) -> rule_shape r.

Definition rule_wf (row : rule_row) (r : compiled_inflight_rule) : Prop :=
  rule_id r = row_id row /\ clauses r <> [] /\ Forall clause_wf (clauses r) /\ max_dedup_keys r <> Some 0 /\
  (forall p, group_by_path r = Some p -> mem (hd "" p) ENVELOPE_ROOTS = true) /\ rule_shape r.

Lemma compile_clause_wf c k : compile_clause c = Ok (inl k) -> clause_wf k.
Proof.
  unfold compile_clause. generalize (py_str (py_or (dget "op" c) (PStr "eq"))) as op. intros op. destruct (mem op INFLIGHT_ALLOWED_OPS) eqn:Hop; cbn [negb]; [|done].
  destruct (dget "field" c) as [| | | |field| |]; try done. destruct (String.eqb field ""); [done|].
  pose proof (str_split_nonempty "." field) as Hp.
  destruct (mem op ["in"; "nin"]) eqn:Hin.
  { destruct (dget "value" c) as [| | | | |l|]; try done. intros [= <-]. unfold clause_wf. cbn -[mem]. rewrite Hin.
    assert (mem op NUMERIC_OPS = false /\ op <> "exists") as [-> He].
    { cbn in Hin. repeat (apply orb_true_iff in Hin as [Hin|Hin]); try done; apply String.eqb_eq in Hin; subst op; split; done. }
    split_and!; try done. intros _. exists l. destruct (forallb hashable l); auto. }
  destruct (String.eqb_spec op "exists") as [He|He].
  { intros [= <-]. unfold clause_wf. cbn -[mem]. rewrite Hin, He. split_and!; try done. by eexists. }
  destruct (mem op NUMERIC_OPS) eqn:Hn.
  - destruct (as_float _) as [[f|]|]; cbn; try done. intros [= <-]. unfold clause_wf. cbn -[mem]. rewrite Hin, Hn.
    split_and!; try done. by eexists.
  - intros [= <-]. unfold clause_wf. cbn -[mem]. rewrite Hin, Hn. by split_and!.
Qed.

Lemma compile_clause_reason c reason : compile_clause c = Ok (inr reason) -> mem reason REJECT_REASONS = true.
Proof.
  unfold compile_clause. generalize (py_str (py_or (dget "op" c) (PStr "eq"))) as op. intros op. destruct (mem op INFLIGHT_ALLOWED_OPS); cbn [negb]; [|by intros [= <-]].
  destruct (dget "field" c) as [| | | |field| |]; try (by intros [= <-]). destruct (String.eqb field ""); [by intros [= <-]|].
  destruct (mem op ["in"; "nin"]); [by destruct (dget "value" c); intros [= <-]|]. destruct (String.eqb op "exists"); [done|].
  destruct (mem op NUMERIC_OPS); [destruct (as_float _) as [[f|]|]; cbn; try done; by intros [= <-]|done].
Qed.

Lemma compile_each_wf raw :
  match compile_each raw with
  | Ok (inl ks) => Forall clause_wf ks /\ length ks = length raw
  | Ok (inr reason) => mem reason REJECT_REASONS = true
  | Raise _ => True
  end.
Proof.
  induction raw as [|r raw IH]; cbn [compile_each]; [by split|]. destruct (compile_clause r) as [[k|reason]|e] eqn:Hc; cbn.
  - destruct (compile_each raw) as [[ks|reason]|e]; cbn; [|done|done]. destruct IH as [Hf Hl]. split; [|cbn; by rewrite Hl].
    apply Forall_cons_2; [by eapply compile_clause_wf|done].
  - by eapply compile_clause_reason.
  - done.
Qed.

Lemma exists_clause_wf p : p <> [] -> clause_wf (exists_clause p).
Proof. intros Hp. unfold clause_wf. split_and!; try done. by eexists. Qed.

Lemma compile_clauses_wf cap raw :
  match compile_clauses cap raw with
  | Ok (inl ks) => Forall clause_wf ks /\ (raw <> [] -> ks <> [])
  | Ok (inr reason) => mem reason REJECT_REASONS = true
  | Raise _ => True
  end.
Proof.
  unfold compile_clauses. destruct (cap <? length raw)%nat; [done|]. pose proof (compile_each_wf raw) as Hw.
  destruct (compile_each raw) as [[ks|reason]|e]; cbn; [|done|done]. destruct Hw as [Hf Hl]. split.
  - apply Forall_app. split; [done|]. apply Forall_fmap, Forall_forall. intros p Hp%sorted_paths_elem.
    apply elem_of_difference in Hp as [Hp _]. apply paths_with_elem in Hp as (c & Hc & _ & <-). cbn.
    apply exists_clause_wf. rewrite Forall_forall in Hf. by apply Hf.
  - intros Hraw. destruct ks; [|done]. by destruct raw.
Qed.

(** What a compiler returns: a rule that has its type, or a known reason. *)
Definition outcome_ok {A} (P : A -> Prop) (o : result (A + string)) : Prop :=
  match o with Ok (inl a) => P a | Ok (inr reason) => mem reason REJECT_REASONS = true | Raise _ => True end.

Lemma truthy_int_nonzero x : truthy_int x <> Some 0.
Proof. unfold truthy_int. destruct x as [n|]; [|done]. destruct (Z.eqb_spec n 0); [done|]. by intros [= ->]. Qed.

Lemma load_list_ok reason raw (P : list pyval -> Prop) :
  mem reason REJECT_REASONS = true -> (forall l, P l) -> outcome_ok P (load_list reason raw).
Proof.
  intros Hr HP. unfold load_list. destruct (try_except _ _ _) as [v|e]; cbn; [|done].
  destruct v as [[| | | | |l|]|]; try done; apply HP.
Qed.
Lemma validate_where_ok raw : outcome_ok (fun cs => cs <> []) (validate_where_json raw).
Proof.
  unfold validate_where_json. pose proof (load_list_ok "bad_json" raw (fun _ => True) eq_refl (fun _ => I)) as Hl.
  destruct (load_list "bad_json" raw) as [[l|reason]|e]; cbn in *; [|done|done]. by destruct (dicts_of l).
Qed.
Lemma validate_legs_ok raw :
  outcome_ok (fun legs => (2 <= length legs <= INFLIGHT_MAX_LEGS limits)%nat /\ Forall (fun leg => leg_ok leg = true) legs)
    (validate_legs_json limits raw).
Proof.
  unfold validate_legs_json. pose proof (load_list_ok "bad_legs" raw (fun _ => True) eq_refl (fun _ => I)) as Hl.
  destruct (load_list "bad_legs" raw) as [[l|reason]|e]; cbn -[Nat.ltb Nat.eqb mem] in *; [|done|done].
  destruct (Nat.ltb_spec (length (dicts_of l)) 2); cbn [orb]; [done|]. destruct (negb _); [done|].
  destruct (Nat.ltb_spec (INFLIGHT_MAX_LEGS limits) (length (dicts_of l))); [done|].
  destruct (forallb leg_ok (dicts_of l)) eqn:Hf; [|done]. split; [lia|]. apply Forall_forall. intros leg Hin.
  rewrite forallb_forall in Hf. apply Hf. by apply list_elem_of_In.
Qed.

Lemma compile_leg_ok row window total index leg :
  leg_ok leg = true -> (index < total)%nat -> (2 <= total <= INFLIGHT_MAX_LEGS limits)%nat ->
  0 < window <= INFLIGHT_MAX_WINDOW_SECONDS limits ->
  outcome_ok (fun r => rule_wf row r /\ leg_index r = Some (Z.of_nat index) /\ legs_total r = Z.of_nat total)
    (compile_leg limits row window total index leg).
Proof.
  intros Hleg Hi Ht Hw. unfold compile_leg. pose proof (compile_clauses_wf (INFLIGHT_MAX_WHERE_CLAUSES limits) (leg_where leg)) as Hc.
  destruct (compile_clauses _ _) as [[cs|reason]|e]; cbn -[mem]; [|done|done]. destruct Hc as [Hf Hne].
  destruct (mem _ ENVELOPE_ROOTS) eqn:Hroot; cbn [negb]; [|done]. cbn -[mem]. split_and!; [|done|done].
  unfold rule_wf. cbn -[mem]. split_and!; try done.
  - intros He%app_nil. destruct He as [He _]. revert He. apply Hne. unfold leg_ok in Hleg. by destruct (leg_where leg).
  - apply Forall_app. split; [done|]. destruct (dget "stream" leg) as [| | | |s| |]; try apply Forall_nil_2.
    destruct (String.eqb s ""); [apply Forall_nil_2|]. apply Forall_cons_2; [|apply Forall_nil_2].
    unfold clause_wf. by split_and!.
  - apply truthy_int_nonzero.
  - by intros p [= <-].
  - eapply (ShapeLeg _ (Z.of_nat index)); cbn; try done; lia.
Qed.

Lemma compile_legs_ok row window total legs : forall index,
  Forall (fun leg => leg_ok leg = true) legs -> (index + length legs = total)%nat ->
  (2 <= total <= INFLIGHT_MAX_LEGS limits)%nat -> 0 < window <= INFLIGHT_MAX_WINDOW_SECONDS limits ->
  outcome_ok (fun rs => Forall (rule_wf row) rs /\ leg_index <$> rs = (fun i => Some (Z.of_nat i)) <$> seq index (length legs) /\
                Forall (fun r => legs_total r = Z.of_nat total) rs)
    (compile_legs limits row window total index legs).
Proof.
  induction legs as [|leg legs IH]; intros index Hl Ht Hn Hw; cbn [compile_legs].
  { cbn. split_and!; try apply Forall_nil_2. done. }
  apply Forall_cons in Hl as [Hleg Hl]. cbn in Ht.
  pose proof (compile_leg_ok row window total index leg Hleg ltac:(lia) Hn Hw) as HC1.
  destruct (compile_leg _ _ _ _ _ _) as [[r|reason]|e]; cbn -[seq] in *; [|done|done].
  pose proof (IH (S index) Hl ltac:(lia) Hn Hw) as HC2.
  destruct (compile_legs _ _ _ _ _ _) as [[rs|reason]|e]; cbn -[seq] in *; [|done|done].
  destruct HC1 as (Hr & Hi & Htot). destruct HC2 as (Hrs & His & Htots). split_and!; [by apply Forall_cons_2| |by apply Forall_cons_2].
  cbn. by rewrite Hi, His.
Qed.

Lemma compile_sequence_ok row :
  outcome_ok (fun rs => Forall (rule_wf row) rs /\ leg_index <$> rs = (fun i => Some (Z.of_nat i)) <$> seq 0 (length rs) /\
                Forall (fun r => legs_total r = Z.of_nat (length rs)) rs /\ (2 <= length rs)%nat)
    (compile_sequence limits row).
Proof.
  unfold compile_sequence. pose proof (validate_legs_ok (legs_json row)) as Hv.
  destruct (validate_legs_json _ _) as [[legs|reason]|e]; cbn in *; [|done|done]. destruct Hv as [Hn Hl].
  destruct (Z.leb_spec (int_or 0 (row_window row)) 0); [done|].
  destruct (Z.ltb_spec (INFLIGHT_MAX_WINDOW_SECONDS limits) (int_or 0 (row_window row))); [done|].
  pose proof (compile_legs_ok row (int_or 0 (row_window row)) (length legs) legs 0 Hl eq_refl Hn ltac:(lia)) as Hc.
  destruct (compile_legs _ _ _ _ _ _) as [[rs|reason]|e]; cbn -[seq] in *; [|done|done]. destruct Hc as (Hw & Hi & Ht).
  assert (length rs = length legs) as Hlen by (rewrite <- (length_fmap leg_index rs), Hi, length_fmap, length_seq; done).
  rewrite Hlen. split_and!; try done. lia.
Qed.

Lemma compile_absence_ok row : outcome_ok (fun r => rule_wf row r /\ absence r = true) (compile_absence limits row).
Proof.
  unfold compile_absence. pose proof (validate_where_ok (where_json row)) as Hv.
  destruct (validate_where_json _) as [[raw|reason]|e]; cbn -[mem] in *; [|done|done].
  pose proof (compile_clauses_wf (INFLIGHT_MAX_WHERE_CLAUSES limits) raw) as Hc.
  destruct (compile_clauses _ _) as [[cs|reason]|e]; cbn -[mem]; [|done|done]. destruct Hc as [Hf Hne].
  set (g := default "" (row_group_by row)). set (w := int_or 0 (row_window row)). set (f := forget_seconds_for row w).
  destruct (str_blank g); [done|]. destruct (mem (root_of g) ENVELOPE_ROOTS) eqn:Hroot; cbn [negb]; [|done].
  destruct (Z.ltb_spec w ABSENCE_MIN_WINDOW_SECONDS); [done|]. destruct (Z.ltb_spec (ABSENCE_MAX_WINDOW_SECONDS limits) w); [done|].
  destruct (Z.ltb_spec f w); cbn [orb]; [done|]. destruct (Z.ltb_spec (ABSENCE_MAX_FORGET_SECONDS limits) f); [done|].
  cbn -[mem]. split; [|done]. unfold rule_wf. cbn -[mem]. split_and!; try done; [by apply Hne|apply truthy_int_nonzero|by intros p [= <-]|].
  by apply ShapeAbsence.
Qed.

Lemma compile_classic_ok row : outcome_ok (fun r => rule_wf row r /\ absence r = false /\ leg_index r = None) (compile_classic limits row).
Proof.
  unfold compile_classic. pose proof (validate_where_ok (where_json row)) as Hv.
  destruct (validate_where_json _) as [[raw|reason]|e]; cbn -[mem] in *; [|done|done].
  pose proof (compile_clauses_wf (INFLIGHT_MAX_WHERE_CLAUSES limits) raw) as Hc.
  destruct (compile_clauses _ _) as [[cs|reason]|e]; cbn -[mem]; [|done|done]. destruct Hc as [Hf Hne].
  set (g := default "" (row_group_by row)). set (mc := int_or 1 (row_min_count row)). set (w := int_or 0 (row_window row)).
  destruct (negb (String.eqb g "") && negb (mem (root_of g) ENVELOPE_ROOTS)) eqn:Hroot; [done|].
  destruct ((1 <? mc) && (0 <? w)) eqn:Hs; cbn [andb].
  2: { cbn -[mem]. split_and!; try done. unfold rule_wf. cbn -[mem]. split_and!; try done; [by apply Hne|apply truthy_int_nonzero| |].
       - intros p. destruct (String.eqb g ""); [done|]. intros [= <-]. cbn -[mem] in Hroot. by destruct (mem (root_of g) ENVELOPE_ROOTS) eqn:E.
       - apply ShapeClassic; try done. by left. }
  apply andb_true_iff in Hs as [Hm%Z.ltb_lt Hw%Z.ltb_lt].
  destruct (Z.ltb_spec (INFLIGHT_MAX_WINDOW_SECONDS limits) w); [done|]. destruct (Z.ltb_spec (INFLIGHT_MAX_WINDOW_COUNT limits) mc); [done|].
  cbn -[mem]. split_and!; try done. unfold rule_wf. cbn -[mem]. split_and!; try done; [by apply Hne|apply truthy_int_nonzero| |].
  - intros p. destruct (String.eqb g ""); [done|]. intros [= <-]. cbn -[mem] in Hroot. by destruct (mem (root_of g) ENVELOPE_ROOTS) eqn:E.
  - apply ShapeClassic; try done. right. cbn. lia.
Qed.

(** [compile_row_typed] (what enters the matcher has its type).  When a row
    compiles, every rule it yields has its identity, at least one clause, clauses
    whose value is of the kind their operator compares, a grouping path that
    starts at a root of the envelope, and the shape of its type with every number
    within its limit; a sequence yields one rule per leg, at least two, numbered
    in order and all with the same total, and any other row yields one rule.
    When it does not compile the reason belongs to the closed set of the metric. *)
Theorem compile_row_typed row o :
  compile_row limits row = Ok o ->
  match o with
  | inr reason => mem reason REJECT_REASONS = true
  | inl rules =>
      Forall (rule_wf row) rules /\
      if is_type row SEQUENCE_RULE_TYPE
      then (2 <= length rules)%nat /\ leg_index <$> rules = (fun i => Some (Z.of_nat i)) <$> seq 0 (length rules) /\
           Forall (fun r => legs_total r = Z.of_nat (length rules)) rules
      else exists r, rules = [r] /\ leg_index r = None /\ absence r = is_type row ABSENCE_RULE_TYPE
  end.
Proof.
  unfold compile_row, compile_rule. destruct (is_type row SEQUENCE_RULE_TYPE).
  { pose proof (compile_sequence_ok row) as Hs. intros Ho. rewrite Ho in Hs. destruct o; cbn in *; [|done]. naive_solver. }
  destruct (is_type row ABSENCE_RULE_TYPE).
  - pose proof (compile_absence_ok row) as Hs. destruct (compile_absence limits row) as [[r|reason]|e]; cbn in *; intros [= <-]; [|done].
    destruct Hs as [Hw Ha]. split; [apply Forall_cons_2; [done|apply Forall_nil_2]|]. exists r. split_and!; [done| |done].
    destruct Hw as (_ & _ & _ & _ & _ & [Hx|i Hx|]); congruence.
  - pose proof (compile_classic_ok row) as Hs. destruct (compile_classic limits row) as [[r|reason]|e]; cbn in *; intros [= <-]; [|done].
    destruct Hs as (Hw & Ha & Hl). split; [apply Forall_cons_2; [done|apply Forall_nil_2]|]. by exists r.
Qed.
End theorems.

(** ** Examples *)

Section examples.
#[local] Existing Instances demo_float_repr demo_float_parse.

Definition demo_leg (stream path : string) : pyval :=
  PDict [("stream", PStr stream); ("join_path", PStr path);
         ("where", PList [PDict [("field", PStr "normalized.class_uid"); ("value", PInt 3002)]])].
#[local] Instance demo_rule_json : JsonLoads := fun s =>
  if String.eqb s "legs" then Ok (PList [demo_leg "okta" "normalized.user.name"; demo_leg "sophos" "normalized.actor.user.name"])
  else if String.eqb s "where" then Ok (PList [PDict [("field", PStr "normalized.status"); ("op", PStr "ne"); ("value", PStr "ok")]])
  else Raise EJsonDecode.

Definition demo_limits : rule_limits := RuleLimits 10 4 3600 10000 604800 2592000.
Definition demo_row (type where_ legs : string) (window : Z) : rule_row :=
  RuleRow 7 "rule" (Some type) (Some where_) (Some legs) (Some 0) None (Some "normalized.user.name") false None None (Some window) None.

Lemma compile_row_typed_witness :
  match compile_row demo_limits (demo_row "sequence" "" "legs" 600) with
  | Ok (inl rules) => length rules = 2%nat /\ Forall (rule_wf demo_limits (demo_row "sequence" "" "legs" 600)) rules
  | _ => False
  end.
Proof.
  destruct (compile_row demo_limits (demo_row "sequence" "" "legs" 600)) as [o|e] eqn:E; [|discriminate E].
  pose proof (compile_row_typed demo_limits (demo_row "sequence" "" "legs" 600) o E) as Ht.
  destruct o as [rules|reason]; [|discriminate E]. destruct Ht as [Ht _]. split; [|exact Ht].
  assert (Ok (inl rules) = compile_row demo_limits (demo_row "sequence" "" "legs" 600)) as Hr by (symmetry; exact E).
  vm_compute in Hr. injection Hr as ->. reflexivity.
Defined.

(** A severity of 0, which OCSF defines as unknown, is read as absent: the
    rule's detections are high. *)
Lemma unknown_severity_becomes_high :
  match compile_row demo_limits (demo_row "classic" "where" "" 0) with
  | Ok (inl [r]) => rule_severity_id r = 4 /\ length (clauses r) = 2%nat
  | _ => False
  end.
Proof. vm_compute. split; reflexivity. Qed.
End examples.
