(* ===== verification/Detections.v ===== *)
(** * The table of detections

    Models [DetectionRepository.record] and [set_status] of [db/repository.py]:
    a match bumps the most recent detection of its key that is not closed when
    that one was seen within its suppression window, and opens a new detection
    otherwise.  The table is the list of rows in order of id; an id is a position.
    Instants are microseconds.  The columns no caller of the model sets (source
    query, dialect, references) and the advisory lock are left out. *)

From S2P Require Import Prelude PyVal.

Local Open Scope string_scope.
Local Open Scope list_scope.
Local Open Scope Z_scope.

Record detection := Detection {
  det_organization : Z;
  det_source : string;
  det_key : string;
  det_severity : Z;
  det_integration : option Z;
  det_rule : string;
  det_rule_name : string;
  det_window : Z;
  first_seen : Z;
  last_seen : Z;
  det_count : Z;
  det_status : string;
}.
Abbreviation detections := (list detection).

(** The arguments of [record]. *)
Record report := Report {
  rp_organization : Z;
  rp_source : string;
  rp_key : string;
  rp_severity : Z;
  rp_integration : option Z;
  rp_rule : string;
  rp_rule_name : string;
  rp_window : Z;
}.

Definition new_detection (now : Z) (r : report) : detection :=
  Detection (rp_organization r) (rp_source r) (rp_key r) (rp_severity r) (rp_integration r) (rp_rule r) (rp_rule_name r)
    (rp_window r) now now 1 "open".

Definition bump_detection (now : Z) (d : detection) : detection :=
  Detection (det_organization d) (det_source d) (det_key d) (det_severity d) (det_integration d) (det_rule d)
    (det_rule_name d) (det_window d) (first_seen d) now (det_count d + 1) (det_status d).

Definition close_detection (status : string) (d : detection) : detection :=
  Detection (det_organization d) (det_source d) (det_key d) (det_severity d) (det_integration d) (det_rule d)
    (det_rule_name d) (det_window d) (first_seen d) (last_seen d) (det_count d) status.

(** The row with the highest id among those that satisfy [p]. *)
Fixpoint last_row (p : detection -> bool) (i : nat) (t : detections) : option (nat * detection) :=
  match t with
  | [] => None
  | d :: rest =>
      match last_row p (S i) rest with
      | Some x => Some x
      | None => if p d then Some (i, d) else None
      end
  end.

Definition same_key (org : Z) (key : string) (d : detection) : bool :=
  (det_organization d =? org) && String.eqb (det_key d) key.
Definition open_row (org : Z) (key : string) (d : detection) : bool :=
  same_key org key d && negb (String.eqb (det_status d) "closed").

Definition seconds (n : Z) : Z := 1000000 * n.

(** The table and the position of the row that took the match. *)
Definition record (now : Z) (r : report) (t : detections) : detections * nat :=
  match last_row (open_row (rp_organization r) (rp_key r)) 0 t with
  | Some (i, d) =>
      if now - seconds (det_window d) <=? last_seen d then (alter (bump_detection now) i t, i)
      else (t ++ [new_detection now r], length t)
  | None => (t ++ [new_detection now r], length t)
  end.

Definition set_status (i : nat) (status : string) (t : detections) : detections := alter (close_detection status) i t.

(** ** Counting *)

Lemma last_row_spec p t : forall i,
  match last_row p i t with
  | Some (j, d) => (i <= j)%nat /\ t !! (j - i)%nat = Some d /\ p d = true /\
      forall k d', (j - i < k)%nat -> t !! k = Some d' -> p d' = false
  | None => forall k d', t !! k = Some d' -> p d' = false
  end.
Proof.
  induction t as [|d t IH]; intros i; cbn [last_row]; [by intros k d' Hk|]. specialize (IH (S i)).
  destruct (last_row p (S i) t) as [[j d']|].
  - destruct IH as (Hle & Hj & Hp & Hrest). replace (j - i)%nat with (S (j - S i)) by lia. split_and!; [lia|done|done|].
    intros [|k] x Hk; [lia|]. apply Hrest. lia.
  - destruct (p d) eqn:Hp.
    + rewrite Nat.sub_diag. split_and!; [lia|done|done|]. intros [|k] x Hk; [lia|]. apply IH.
    + intros [|k] x; [by intros [= <-]|apply IH].
Qed.

(** The matches a table holds for a key. *)
Definition matches_for (org : Z) (key : string) (t : detections) : Z :=
  foldr (fun d n => (if same_key org key d then det_count d else 0) + n) 0 t.

Lemma matches_for_app org key t1 t2 : matches_for org key (t1 ++ t2) = matches_for org key t1 + matches_for org key t2.
Proof. induction t1 as [|d t1 IH]; cbn; [done|]. fold (matches_for org key t2) (matches_for org key t1) (matches_for org key (t1 ++ t2)). lia. Qed.
Lemma matches_for_cons org key d t : matches_for org key (d :: t) = (if same_key org key d then det_count d else 0) + matches_for org key t.
Proof. done. Qed.
Lemma matches_for_alter org key f (i : nat) (t : detections) d :
  t !! i = Some d -> same_key org key (f d) = same_key org key d ->
  matches_for org key (alter f i t) = matches_for org key t + (if same_key org key d then det_count (f d) - det_count d else 0).
Proof.
  revert i. induction t as [|x t IH]; intros [|i] Hi Hk; try done.
  - injection Hi as ->. cbn [alter list_alter]. rewrite !matches_for_cons, Hk. destruct (same_key org key d); lia.
  - cbn [alter list_alter]. rewrite !matches_for_cons. change (list_alter f i t) with (alter f i t). rewrite (IH i Hi Hk). lia.
Qed.

Lemma record_matches now r t org key :
  matches_for org key (record now r t).1 =
  matches_for org key t + (if (rp_organization r =? org) && String.eqb (rp_key r) key then 1 else 0).
Proof.
  unfold record. pose proof (last_row_spec (open_row (rp_organization r) (rp_key r)) t 0) as Hl.
  assert (matches_for org key (t ++ [new_detection now r]) =
    matches_for org key t + (if (rp_organization r =? org) && String.eqb (rp_key r) key then 1 else 0)) as Hnew.
  { rewrite matches_for_app, matches_for_cons. unfold same_key. cbn. case_match; lia. }
  destruct (last_row _ 0 t) as [[i d]|]; [|exact Hnew]. destruct (now - seconds (det_window d) <=? last_seen d); [|exact Hnew].
  destruct Hl as (_ & Hi & Hp & _). rewrite Nat.sub_0_r in Hi. unfold open_row in Hp. apply andb_true_iff in Hp as [Hp _].
  cbn [fst]. rewrite (matches_for_alter _ _ _ _ _ _ Hi) by done. cbn. f_equal. unfold same_key in *.
  apply andb_true_iff in Hp as [->%Z.eqb_eq ->%String.eqb_eq]. case_match; lia.
Qed.
Lemma set_status_matches i status t org key : matches_for org key (set_status i status t) = matches_for org key t.
Proof.
  unfold set_status. destruct (t !! i) as [d|] eqn:Hi.
  - rewrite (matches_for_alter _ _ _ _ _ _ Hi) by done. cbn. case_match; lia.
  - f_equal. apply list_eq. intros j. destruct (decide (i = j)) as [<-|Hne]; [by rewrite list_lookup_alter_eq, Hi|by rewrite list_lookup_alter_ne].
Qed.

(** ** Histories *)

(** What happens to the table: a match is recorded, or the status of a row is
    changed. *)
Inductive table_op := Record_ (now : Z) (r : report) | SetStatus (i : nat) (status : string).
Definition table_step (t : detections) (o : table_op) : detections :=
  match o with Record_ now r => (record now r t).1 | SetStatus i status => set_status i status t end.
Definition recorded (org : Z) (key : string) (ops : list table_op) : Z :=
  foldr (fun o n => match o with
                    | Record_ _ r => if (rp_organization r =? org) && String.eqb (rp_key r) key then 1 else 0
                    | SetStatus _ _ => 0
                    end + n) 0 ops.

(** ** The sessions of a key *)

Record session := Session { s_first : Z; s_last : Z; s_count : Z; s_window : Z; s_status : string }.

(** A match joins the newest session that is not closed when it comes within that
    session's own window of its last match. *)
Fixpoint join_open (now : Z) (ss : list session) : option (list session) :=
  match ss with
  | [] => None
  | s :: rest =>
      if String.eqb (s_status s) "closed" then cons s <$> join_open now rest
      else if now - seconds (s_window s) <=? s_last s
      then Some (Session (s_first s) now (s_count s + 1) (s_window s) (s_status s) :: rest)
      else None
  end.

(** What happens to a key: a match, or a new status for its [n]-th newest session. *)
Inductive key_op := KeyMatch (now window : Z) | KeyStatus (n : nat) (status : string).
Definition key_step (ss : list session) (o : key_op) : list session :=
  match o with
  | KeyMatch now window => default (Session now now 1 window "open" :: ss) (join_open now ss)
  | KeyStatus n status => alter (fun s => Session (s_first s) (s_last s) (s_count s) (s_window s) status) n ss
  end.

Definition session_of (d : detection) : session := Session (first_seen d) (last_seen d) (det_count d) (det_window d) (det_status d).

Section key.
Context (org : Z) (key : string).

(** The rows of a key, newest first; how many of them follow a row. *)
Definition key_rows (t : detections) : list detection := filter (fun d => same_key org key d = true) t.
Definition rows_of (t : detections) : list detection := reverse (key_rows t).
Definition rank (t : detections) (i : nat) : nat := length (key_rows (drop (S i) t)).

(** What an operation on the table is for the key. *)
Definition for_key (t : detections) (o : table_op) : list key_op :=
  match o with
  | Record_ now r => if (rp_organization r =? org) && String.eqb (rp_key r) key then [KeyMatch now (rp_window r)] else []
  | SetStatus i status =>
      match t !! i with Some d => if same_key org key d then [KeyStatus (rank t i) status] else [] | None => [] end
  end.
Fixpoint key_history (ops : list table_op) (t : detections) : list key_op :=
  match ops with [] => [] | o :: ops => for_key t o ++ key_history ops (table_step t o) end.

Lemma key_rows_alter_other f (i : nat) (t : detections) :
  (forall d, t !! i = Some d -> same_key org key d = false /\ same_key org key (f d) = false) -> key_rows (alter f i t) = key_rows t.
Proof.
  unfold key_rows. revert i. induction t as [|x t IH]; intros [|i] Hp; try done.
  - cbn [alter list_alter]. destruct (Hp x eq_refl) as [H1 H2]. rewrite !filter_cons. by rewrite !decide_False by (rewrite ?H1, ?H2; done).
  - cbn [alter list_alter]. rewrite !filter_cons. change (list_alter f i t) with (alter f i t). rewrite IH by (intros d; apply (Hp d)). done.
Qed.

(** A row of the key, among its rows. *)
Lemma rows_of_alter (t : detections) (i : nat) d f :
  t !! i = Some d -> same_key org key d = true -> same_key org key (f d) = true ->
  let newer := reverse (key_rows (drop (S i) t)) in
  exists older, rows_of t = newer ++ d :: older /\ rows_of (alter f i t) = newer ++ f d :: older.
Proof.
  intros Hi Hd Hf newer. exists (reverse (key_rows (take i t))).
  pose proof (take_drop_middle t i d Hi) as Ht. unfold rows_of, key_rows in *. split.
  - rewrite <- Ht at 1. rewrite filter_app, filter_cons, decide_True by done. rewrite reverse_app, reverse_cons.
    by rewrite <- app_assoc.
  - assert (alter f i t = take i t ++ f d :: drop (S i) t) as ->.
    { rewrite <- Ht at 1. assert (i = length (take i t)) as Hl by (rewrite length_take; apply lookup_lt_Some in Hi; lia).
      rewrite Hl at 1. by rewrite alter_app_r_alt, Nat.sub_diag by lia. }
    rewrite filter_app, filter_cons, decide_True by done. rewrite reverse_app, reverse_cons. by rewrite <- app_assoc.
Qed.

Lemma rows_of_snoc t d : rows_of (t ++ [d]) = (if same_key org key d then [d] else []) ++ rows_of t.
Proof. unfold rows_of, key_rows. rewrite filter_app, reverse_app, filter_cons, filter_nil. by case_decide as E; destruct (same_key org key d). Qed.

Lemma join_open_closed now newer ss :
  Forall (fun d => det_status d = "closed") newer ->
  join_open now ((session_of <$> newer) ++ ss) = app (session_of <$> newer) <$> join_open now ss.
Proof.
  induction 1 as [|d newer Hd _ IH]; cbn [fmap list_fmap app]; [by destruct (join_open now ss)|].
  cbn [join_open s_status session_of]. rewrite Hd, String.eqb_refl. cbn in IH. rewrite IH. by destruct (join_open now ss).
Qed.

(** After the newest open row of the key, its rows are closed. *)
Lemma newer_closed (t : detections) (i : nat) :
  (forall k d, (i <= k)%nat -> t !! k = Some d -> open_row org key d = false) ->
  Forall (fun d => det_status d = "closed") (reverse (key_rows (drop i t))).
Proof.
  intros Ho. apply Forall_reverse, Forall_forall. intros d [Hk Hin]%list_elem_of_filter.
  apply list_elem_of_lookup in Hin as [j Hj]. rewrite lookup_drop in Hj. specialize (Ho (i + j)%nat d ltac:(lia) Hj).
  unfold open_row in Ho. rewrite Hk in Ho. cbn in Ho. by apply negb_false_iff, String.eqb_eq in Ho.
Qed.

(** Recording a match: the key takes its step, other keys nothing. *)
Lemma record_rows now r t :
  session_of <$> rows_of (record now r t).1 =
  foldl key_step (session_of <$> rows_of t) (for_key t (Record_ now r)).
Proof.
  unfold record, for_key. pose proof (last_row_spec (open_row (rp_organization r) (rp_key r)) t 0) as Hl.
  assert (same_key org key (new_detection now r) = (rp_organization r =? org) && String.eqb (rp_key r) key) as Hnk by done.
  destruct ((rp_organization r =? org) && String.eqb (rp_key r) key) eqn:Hsame.
  - apply andb_true_iff in Hsame as [Ho%Z.eqb_eq Hkk%String.eqb_eq]. rewrite Ho, Hkk in *. cbn [foldl key_step].
    destruct (last_row _ 0 t) as [[i d]|]; cbn [fst].
    + destruct Hl as (_ & Hi & Hp & Hafter). rewrite Nat.sub_0_r in Hi, Hafter. unfold open_row in Hp.
      apply andb_true_iff in Hp as [Hk Hop%negb_true_iff].
      destruct (rows_of_alter t i d (bump_detection now) Hi Hk Hk) as (older & R1 & R2).
      assert (join_open now (session_of <$> rows_of t) =
        if now - seconds (det_window d) <=? last_seen d then Some (session_of <$> rows_of (alter (bump_detection now) i t)) else None) as ->.
      { rewrite R1, R2, !fmap_app. rewrite join_open_closed by (apply newer_closed; intros k d' Hik; apply Hafter; lia).
        cbn [fmap list_fmap join_open session_of s_status s_window s_last]. rewrite Hop. by destruct (_ <=? _). }
      destruct (_ <=? _); cbn [default id fst]; [done|]. by rewrite rows_of_snoc, Hnk.
    + cbn [fst]. rewrite rows_of_snoc, Hnk. cbn [app fmap list_fmap].
      assert (join_open now (session_of <$> rows_of t) = None) as ->; [|done].
      pose proof (newer_closed t 0 ltac:(intros k d _; apply Hl)) as Hc. rewrite drop_0 in Hc. fold (rows_of t) in Hc.
      by rewrite <- (app_nil_r (session_of <$> rows_of t)), join_open_closed.
  - cbn [foldl]. destruct (last_row _ 0 t) as [[i d]|]; cbn [fst]; [|by rewrite rows_of_snoc, Hnk].
    destruct (_ <=? _); cbn [fst]; [|by rewrite rows_of_snoc, Hnk].
    destruct Hl as (_ & Hi & Hp & _). rewrite Nat.sub_0_r in Hi. unfold rows_of. rewrite key_rows_alter_other; [done|].
    intros d'. rewrite Hi. intros [= <-]. unfold open_row, same_key in *. cbn.
    apply andb_true_iff in Hp as [[->%Z.eqb_eq ->%String.eqb_eq]%andb_true_iff _]. done.
Qed.

Lemma set_status_rows i status t :
  session_of <$> rows_of (set_status i status t) =
  foldl key_step (session_of <$> rows_of t) (for_key t (SetStatus i status)).
Proof.
  unfold set_status, for_key. destruct (t !! i) as [d|] eqn:Hi.
  - destruct (same_key org key d) eqn:Hk; cbn [foldl key_step].
    + destruct (rows_of_alter t i d (close_detection status) Hi Hk Hk) as (older & -> & ->). unfold rank.
      rewrite !fmap_app. cbn [fmap list_fmap].
      rewrite alter_app_r_alt by (rewrite length_fmap, length_reverse; lia). by rewrite length_fmap, length_reverse, Nat.sub_diag.
    + unfold rows_of. rewrite key_rows_alter_other; [done|]. intros d'. rewrite Hi. by intros [= <-].
  - cbn [foldl]. unfold rows_of. rewrite key_rows_alter_other; [done|]. intros d'. by rewrite Hi.
Qed.

(** C31 [detections_are_sessions] (suppression groups, and loses nothing).  From any
    table, over any history of matches and changes of status, of this key and of any
    other, whatever their windows, the rows of a key are its sessions: a match joins
    the newest session that is not closed when it comes within that session's own
    suppression window of its last match, and opens one otherwise; a change of status
    touches one session; what is recorded for other keys changes nothing.  The counts
    of the key add up to its matches. *)
Theorem detections_are_sessions ops t :
  session_of <$> rows_of (foldl table_step t ops) = foldl key_step (session_of <$> rows_of t) (key_history ops t) /\
  matches_for org key (foldl table_step t ops) = matches_for org key t + recorded org key ops.
Proof.
  revert t. induction ops as [|o ops IH]; intros t; cbn [foldl key_history recorded foldr]; [split; [done|lia]|].
  destruct (IH (table_step t o)) as [-> ->]. rewrite foldl_app. fold (recorded org key ops). split.
  - f_equal. destruct o as [now r|i status]; [apply record_rows|apply set_status_rows].
  - destruct o as [now r|i status]; cbn [table_step]; [rewrite record_matches|rewrite set_status_matches]; lia.
Qed.
End key.

(** A rule with no suppression window and matches in different instants opens a
    detection each time, and leaves the older ones open. *)
Lemma no_window_opens_each_time :
  let r := Report 3 "inflight" "k" 4 None "7" "rule" 0 in
  det_status <$> (record 2 r (record 1 r []).1).1 = ["open"; "open"].
Proof. reflexivity. Qed.

(** A detection keeps the window it was opened with: a match of the same key whose
    rule has since been given a longer one does not join it. *)
Example row_window_decides :
  let r w := Report 3 "inflight" "k" 4 None "7" "rule" w in
  det_count <$> foldl table_step [] [Record_ 0 (r 60); Record_ (seconds 100) (r 600); Record_ (seconds 300) (r 60)] = [1; 2].
Proof. reflexivity. Qed.
