(* ===== verification/Absence.v ===== *)
(** * Absence rules

    Models [inflight/absence.py]: an absence rule watches the values of a field
    and alerts when a known value has been silent for longer than the rule's
    window.  The presence is written at the flush of a cycle
    ([apply_absence_presence]); the silence is decided by a periodic tick
    ([evaluate_absence_rule]).  Both keep their state in hashes of the shared
    store ([HashStore]); the detections are those of [Detections].

    The clock is in whole seconds.  Which commands reach Redis and SQL, whether
    the tick got the lock of the rule, and whether the source of a stream is
    lagging are arguments.  Metrics and the emission of events are left out. *)

From S2P Require Import Prelude PyVal Conditions Redaction Routing Inflight Detection HashStore Detections.

Local Open Scope string_scope.
Local Open Scope list_scope.
Local Open Scope Z_scope.

Definition STATE_TTL_SLACK : Z := 24 * 60 * 60.

Definition absence_key (organization_id rule_id : Z) (part : string) : string :=
  ("absence:" +:+ str_of_Z organization_id +:+ ":" +:+ str_of_Z rule_id +:+ ":" +:+ part)%string.
Definition seen_key (organization_id rule_id : Z) : string := absence_key organization_id rule_id "seen".
Definition meta_key (organization_id rule_id : Z) : string := absence_key organization_id rule_id "meta".
Definition alerted_key (organization_id rule_id : Z) : string := absence_key organization_id rule_id "alerted".
Definition absence_dedup_key (organization_id rule_id : Z) (token : string) : string :=
  absence_key organization_id rule_id token.

Record absence_settings := AbsenceSettings {
  ABSENCE_MAX_KEYS_PER_RULE : Z;
  ABSENCE_GRACE_SECONDS : Z;
  ABSENCE_OBSERVER_MAX_AGE_SECONDS : Z;
  ABSENCE_AUTO_CLOSE : bool;
}.

(** [float(v)] of what the hashes hold. *)
Definition instant_of (v : pyval) : option Z := match v with PInt n => Some n | _ => None end.

(** The stream that a clause pins. *)
Definition stream_pinned_by (cs : list compiled_clause) : option string :=
  head (omap (fun c => if bool_decide (clause_path c = ["_centralops"; "stream"]) && String.eqb (clause_op c) "eq"
                       then match clause_val c with
                            | CValue (PStr s) => if str_blank s then None else Some (str_strip s)
                            | _ => None
                            end
                       else None) cs).

(** ** Presence *)

Section presence.
Context {St : Type} `{RedisHash pyval St}.
Context (cfg : absence_settings) (organization_id now : Z).

Definition is_absence (kv : string * pending_item) : bool := absence (item_rule kv.2).

(** The values of each rule that the cycle saw, in order. *)
Definition tokens_of (rid : Z) (p : list (string * pending_item)) : list string :=
  (fun kv => item_token kv.2) <$> filter (fun kv => is_absence kv && (rule_id (item_rule kv.2) =? rid) = true) p.

(** [absence_rules], and the rules of the items. *)
Definition watched_rules (a : accumulator) : gmap Z compiled_inflight_rule :=
  foldl (fun m kv => if is_absence kv
                     then match m !! rule_id (item_rule kv.2) with
                          | Some _ => m
                          | None => <[rule_id (item_rule kv.2) := item_rule kv.2]> m
                          end
                     else m) (absence_rules a) (pending a).

(** Which values are written: the known ones and new ones while there is room;
    the number of values left out. *)
Fixpoint admit_tokens (seen : gmap string pyval) (budget : Z) (tokens : list string) : list string * Z :=
  match tokens with
  | [] => ([], 0)
  | t :: rest =>
      match seen !! t with
      | Some _ => let '(ts, over) := admit_tokens seen budget rest in (t :: ts, over)
      | None =>
          if 0 <? budget then let '(ts, over) := admit_tokens seen (budget - 1) rest in (t :: ts, over)
          else let '(ts, over) := admit_tokens seen budget rest in (ts, over + 1)
      end
  end.

Definition presence_of (seen : gmap string pyval) (tokens : list string) : list string * Z :=
  admit_tokens seen (Z.max 0 (ABSENCE_MAX_KEYS_PER_RULE cfg - Z.of_nat (size seen))) tokens.

(** The writes of one rule. *)
Definition write_presence (rid : Z) (rule : compiled_inflight_rule) (tokens : list string) (s : St) : St :=
  let ttl := forget_seconds rule + STATE_TTL_SLACK in
  let s := foldl (fun s t => h_set (seen_key organization_id rid) t (PInt now) s) s tokens in
  let s := h_set (meta_key organization_id rid) "last_cycle" (PInt now) s in
  h_expire (meta_key organization_id rid) ttl (h_expire (seen_key organization_id rid) ttl s).

(** [over], when not zero, is counted; the rules are visited in the order of the
    map. *)
Definition apply_absence_presence (read_up write_up : bool) (a : accumulator) (s : St) : accumulator * St * nat :=
  let p := pending a in
  let rules := watched_rules a in
  let kept := set_pending (filter (fun kv => is_absence kv = false) p) a in
  if bool_decide (rules = ∅) then (a, s, 0%nat)
  else
    let removed := length (filter (fun kv => is_absence kv = true) p) in
    let unavailable a := foldl (fun a (r : Z * compiled_inflight_rule) => count_error "absence_unavailable" r.1 1 a) a (map_to_list rules) in
    if negb read_up then (unavailable kept, s, removed)
    else
      let plan := (fun r : Z * compiled_inflight_rule => (r, presence_of (h_get s (seen_key organization_id r.1)) (tokens_of r.1 p)))
                    <$> map_to_list rules in
      let counted := foldl (fun a (x : Z * compiled_inflight_rule * (list string * Z)) =>
                              if x.2.2 =? 0 then a else count_error "absence_key_cap" x.1.1 x.2.2 a) kept plan in
      if negb write_up then (unavailable counted, s, removed)
      else (counted, foldl (fun s (x : Z * compiled_inflight_rule * (list string * Z)) =>
                              write_presence x.1.1 x.1.2 x.2.1 s) s plan, removed).
End presence.

(** ** The tick *)

Inductive tick_state := TickOk | TickUnobservable | TickLagging | TickUnavailable | TickLocked.

(** What one evaluation did: the values alerted for the first time, those whose
    detection was bumped, those forgotten, those that came back, and the number of
    detections closed. *)
Record tick_result := TickResult {
  tk_state : tick_state;
  tk_alerted : list string;
  tk_bumped : list string;
  tk_forgotten : list string;
  tk_recovered : list string;
  tk_closed : nat;
}.
Definition quiet_tick (st : tick_state) : tick_result := TickResult st [] [] [] [] 0.

(** What the servers answer; [record_up] is for the write of a value's detection. *)
Record tick_world := TickWorld {
  got_lock : bool;
  read_up : bool;
  meta_up : bool;
  forget_up : bool;
  recover_up : bool;
  alerted_up : bool;
  record_up : string -> bool;
  source_lagging : string -> bool;
}.

Section tick.
Context {St : Type} `{RedisHash pyval St}.
Context (cfg : absence_settings) (organization_id now : Z) (w : tick_world).

Definition write_state (rid ttl : Z) (st : string) (extra : list (string * nat)) (s : St) : St :=
  if meta_up w then
    h_expire (meta_key organization_id rid) ttl
      (foldl (fun s (x : string * nat) => h_set (meta_key organization_id rid) x.1 (PInt (Z.of_nat x.2)) s)
         (h_set (meta_key organization_id rid) "state" (PStr st)
            (h_set (meta_key organization_id rid) "last_tick" (PInt now) s)) extra)
  else s.

(** What the age of a value makes of it. *)
Inductive token_fate := Forget | Silent (seen_at : Z) | Recovered | Fresh.
Definition fate (window forget : Z) (alerted : gmap string pyval) (token : string) (v : pyval) : token_fate :=
  match instant_of v with
  | None => Forget
  | Some t =>
      let age := now - t in
      if forget <? age then Forget
      else if window + ABSENCE_GRACE_SECONDS cfg <? age then Silent t
      else if bool_decide (is_Some (alerted !! token)) then Recovered
      else Fresh
  end.

Definition close_absence (v : pyval) (t : detections) : detections * bool :=
  if negb (ABSENCE_AUTO_CLOSE cfg) then (t, false)
  else
    match v with
    | PInt i =>
        match t !! Z.to_nat i with
        | Some d => if String.eqb (det_status d) "closed" then (t, false) else (set_status (Z.to_nat i) "closed" t, true)
        | None => (t, false)
        end
    | _ => (t, false)
    end.
Definition close_all (alerted : gmap string pyval) (tokens : list string) (t : detections) : detections * nat :=
  foldl (fun '(t, n) token =>
           match alerted !! token with
           | Some v => let '(t, closed) := close_absence v t in (t, if closed : bool then S n else n)
           | None => (t, n)
           end) (t, 0%nat) tokens.

(** The loop over the silent values: the new detections and their rows, the
    bumped ones, the values to mark as alerted, the budget left. *)
Fixpoint alert_loop (rule : compiled_inflight_rule) (alerted : gmap string pyval) (tokens : list string) (budget : Z)
    (t : detections) : detections * list string * list string * list (string * nat) * Z :=
  match tokens with
  | [] => (t, [], [], [], budget)
  | token :: rest =>
      if budget <=? 0 then (t, [], [], [], budget)
      else if negb (record_up w token) then alert_loop rule alerted rest budget t
      else
        let '(t, i) := record (seconds now)
          (Report organization_id "inflight" (absence_dedup_key organization_id (rule_id rule) token)
             (rule_severity_id rule) None (str_of_Z (rule_id rule)) (rule_name rule) (suppression_window_seconds rule)) t in
        let is_new := match t !! i with Some d => det_count d =? 1 | None => false end in
        let '(t', news, bumps, marks, left_) := alert_loop rule alerted rest (budget - 1) t in
        if is_new : bool then (t', token :: news, bumps, (token, i) :: marks, left_)
        else (t', news, token :: bumps,
                (if bool_decide (is_Some (alerted !! token)) then marks else (token, i) :: marks), left_)
  end.

Definition evaluate_absence_rule (rule : compiled_inflight_rule) (budget : Z) (s : St) (t : detections)
  : St * detections * Z * tick_result :=
  let rid := rule_id rule in
  if negb (got_lock w) then (s, t, budget, quiet_tick TickLocked)
  else
    let window := window_seconds rule in
    let forget := if forget_seconds rule =? 0 then 3 * window else forget_seconds rule in
    let ttl := forget + STATE_TTL_SLACK in
    if negb (read_up w) then (s, t, budget, quiet_tick TickUnavailable)
    else
      let meta := h_get s (meta_key organization_id rid) in
      let seen := h_get s (seen_key organization_id rid) in
      let alerted := h_get s (alerted_key organization_id rid) in
      let looking := match (meta !! "last_cycle") ≫= instant_of with
                     | Some last_cycle => now - last_cycle <=? ABSENCE_OBSERVER_MAX_AGE_SECONDS cfg
                     | None => false
                     end in
      if negb looking then (write_state rid ttl "unobservable" [("tracked", size seen)] s, t, budget, quiet_tick TickUnobservable)
      else if match stream_pinned_by (clauses rule) with Some stream => source_lagging w stream | None => false end
      then (write_state rid ttl "lagging" [("tracked", size seen)] s, t, budget, quiet_tick TickLagging)
      else
        let fates := (fun kv : string * pyval => (kv.1, fate window forget alerted kv.1 kv.2)) <$> map_to_list seen in
        let to_forget := omap (fun x => match x.2 with Forget => Some x.1 | _ => None end) fates in
        let silent := omap (fun x => match x.2 with Silent _ => Some x.1 | _ => None end) fates in
        let recovered := omap (fun x => match x.2 with Recovered => Some x.1 | _ => None end) fates in
        let s := match to_forget with
                 | [] => s
                 | _ => if forget_up w then h_del_fields (alerted_key organization_id rid) to_forget
                                              (h_del_fields (seen_key organization_id rid) to_forget s) else s
                 end in
        let '(t, c1) := close_all alerted to_forget t in
        let '(t, c2) := close_all alerted recovered t in
        let s := match recovered with
                 | [] => s
                 | _ => if recover_up w then h_del_fields (alerted_key organization_id rid) recovered s else s
                 end in
        let '(t, news, bumps, marks, budget) := alert_loop rule alerted silent budget t in
        let s := match marks with
                 | [] => s
                 | _ => if alerted_up w
                        then h_expire (alerted_key organization_id rid) ttl
                               (foldl (fun s (m : string * nat) => h_set (alerted_key organization_id rid) m.1 (PInt (Z.of_nat m.2)) s) s marks)
                        else s
                 end in
        (write_state rid ttl "ok" [("tracked", (size seen - length to_forget)%nat); ("silent", length silent)] s,
         t, budget, TickResult TickOk news bumps to_forget recovered (c1 + c2)).
End tick.

(** ** An alert is justified *)

Section tick_theorems.
Context {St : Type} `{RedisHash pyval St}.
Context (cfg : absence_settings) (organization_id now : Z) (w : tick_world).

(** The values a tick may alert, and the conditions under which it looks. *)
Definition silent_for (rule : compiled_inflight_rule) (s : St) (token : string) : Prop :=
  exists t, h_get s (seen_key organization_id (rule_id rule)) !! token = Some (PInt t) /\
    window_seconds rule + ABSENCE_GRACE_SECONDS cfg < now - t <=
      (if forget_seconds rule =? 0 then 3 * window_seconds rule else forget_seconds rule).
Definition observed (rule : compiled_inflight_rule) (s : St) : Prop :=
  read_up w = true /\ got_lock w = true /\
  (exists t, h_get s (meta_key organization_id (rule_id rule)) !! "last_cycle" = Some (PInt t) /\
     now - t <= ABSENCE_OBSERVER_MAX_AGE_SECONDS cfg) /\
  (forall stream, stream_pinned_by (clauses rule) = Some stream -> source_lagging w stream = false).

Lemma omap_length_le {A B} (f : A -> option B) l : (length (omap f l) <= length l)%nat.
Proof. induction l as [|x l IH]; cbn; [done|]. destruct (f x); cbn; lia. Qed.

Lemma alert_loop_spec rule alerted tokens : forall budget t t' news bumps marks rest,
  alert_loop organization_id now w rule alerted tokens budget t = (t', news, bumps, marks, rest) ->
  (forall x, x ∈ news ++ bumps -> x ∈ tokens) /\
  rest = budget - Z.of_nat (length (news ++ bumps)) /\ Z.min 0 budget <= rest /\
  (Z.of_nat (length tokens) <= budget -> (forall x, x ∈ tokens -> record_up w x = true) -> forall x, x ∈ tokens -> x ∈ news ++ bumps).
Proof.
  induction tokens as [|token tokens IH]; intros budget t t' news bumps marks rest; cbn [alert_loop].
  { intros [= <- <- <- <- <-]. cbn. split_and!; [done|lia|lia|]. intros _ _ x Hx. by apply elem_of_nil in Hx. }
  destruct (Z.leb_spec budget 0) as [Hb|Hb].
  { intros [= <- <- <- <- <-]. cbn. split_and!; [by intros x ?%elem_of_nil|lia|lia|]. intros Hl. cbn in Hl. lia. }
  destruct (record_up w token) eqn:Hup; cbn [negb].
  2: { intros Hr. destruct (IH _ _ _ _ _ _ _ Hr) as (I1 & I2 & I3 & I4). split_and!; [intros x Hx; right; by apply I1|done|done|].
       intros _ Hall. specialize (Hall token (list_elem_of_here _ _)). congruence. }
  destruct (record _ _ t) as [t1 i]. destruct (alert_loop _ _ _ _ _ tokens (budget - 1) t1) as [[[[t2 news2] bumps2] marks2] rest2] eqn:Hr.
  destruct (IH _ _ _ _ _ _ _ Hr) as (I1 & I2 & I3 & I4).
  assert (forall news' bumps', news' ++ bumps' ≡ₚ token :: (news2 ++ bumps2) ->
    (forall x, x ∈ news' ++ bumps' -> x ∈ token :: tokens) /\ rest2 = budget - Z.of_nat (length (news' ++ bumps')) /\ Z.min 0 budget <= rest2 /\
    (Z.of_nat (length (token :: tokens)) <= budget -> (forall x, x ∈ token :: tokens -> record_up w x = true) ->
       forall x, x ∈ token :: tokens -> x ∈ news' ++ bumps')) as Hstep.
  { intros news' bumps' Hp. split_and!.
    - intros x. rewrite Hp. intros [->|Hx]%elem_of_cons; [left|right; by apply I1].
    - rewrite (Permutation_length Hp). cbn [length]. lia.
    - lia.
    - intros Hl Hall x Hx. rewrite Hp. apply elem_of_cons in Hx as [->|Hx]; [left|right]. cbn [length] in Hl. apply I4; [lia| |done].
      intros y Hy. apply Hall. by right. }
  destruct (match t1 !! i with Some d => det_count d =? 1 | None => false end); intros [= <- <- <- <- <-]; apply Hstep.
  - done.
  - by rewrite Permutation_middle.
Qed.

(** [absence_alert_justified] (a false absence is the worst alert).  When a
    tick alerts a value, anew or again, the value was known, it has been silent for
    longer than the window and its grace and not yet for the time to be forgotten,
    the flush of some cycle was seen recently enough, the stream the rule pins is
    not lagging, and the tick holds the lock; a tick never exceeds its budget of
    alerts, and alerts every such value when the budget and SQL allow.  In every
    other state it alerts nothing.  A rule whose time to forget ends within the
    window and its grace never alerts, although the compiler accepts a time equal
    to the window. *)
Theorem absence_alert_justified rule budget (s : St) t s' t' budget' r :
  evaluate_absence_rule cfg organization_id now w rule budget s t = (s', t', budget', r) ->
  (forall token, token ∈ tk_alerted r ++ tk_bumped r -> silent_for rule s token /\ observed rule s) /\
  (budget' = budget - Z.of_nat (length (tk_alerted r ++ tk_bumped r)) /\ Z.min 0 budget <= budget') /\
  (tk_state r = TickOk -> (forall token, record_up w token = true) ->
     Z.of_nat (size (h_get s (seen_key organization_id (rule_id rule)))) <= budget ->
     forall token, silent_for rule s token -> token ∈ tk_alerted r ++ tk_bumped r) /\
  (0 < forget_seconds rule <= window_seconds rule + ABSENCE_GRACE_SECONDS cfg -> tk_alerted r ++ tk_bumped r = []).
Proof.
  unfold evaluate_absence_rule. assert (forall st, st <> TickOk ->
    (forall token, token ∈ tk_alerted (quiet_tick st) ++ tk_bumped (quiet_tick st) -> silent_for rule s token /\ observed rule s) /\
    (budget = budget - Z.of_nat (length (tk_alerted (quiet_tick st) ++ tk_bumped (quiet_tick st))) /\ Z.min 0 budget <= budget) /\
    (tk_state (quiet_tick st) = TickOk -> (forall token, record_up w token = true) ->
       Z.of_nat (size (h_get s (seen_key organization_id (rule_id rule)))) <= budget ->
       forall token, silent_for rule s token -> token ∈ tk_alerted (quiet_tick st) ++ tk_bumped (quiet_tick st)) /\
    (0 < forget_seconds rule <= window_seconds rule + ABSENCE_GRACE_SECONDS cfg ->
       tk_alerted (quiet_tick st) ++ tk_bumped (quiet_tick st) = [])) as Hquiet.
  { intros st Hst. cbn. split_and!; [by intros token ?%elem_of_nil|lia|lia|by intros ?%Hst|done]. }
  destruct (got_lock w) eqn:Hlock; cbn [negb]; [|intros [= <- <- <- <-]; by apply Hquiet].
  destruct (read_up w) eqn:Hread; cbn [negb]; [|intros [= <- <- <- <-]; by apply Hquiet].
  set (seen := h_get s (seen_key organization_id (rule_id rule))). set (alerted := h_get s (alerted_key organization_id (rule_id rule))).
  set (forget := if forget_seconds rule =? 0 then _ else _).
  destruct (match (_ !! "last_cycle") ≫= instant_of with Some l => now - l <=? _ | None => false end) eqn:Hlook; cbn [negb];
    [|intros [= <- <- <- <-]; by apply Hquiet].
  destruct (match stream_pinned_by (clauses rule) with Some stream => source_lagging w stream | None => false end) eqn:Hlag;
    [intros [= <- <- <- <-]; by apply Hquiet|].
  assert (observed rule s) as Hobs.
  { split_and!; [done..| |].
    - destruct (h_get s (meta_key organization_id (rule_id rule)) !! "last_cycle") as [v|]; [|done]. cbn in Hlook.
      destruct v as [| |z| | | |]; try done. exists z. split; [done|]. by apply Z.leb_le.
    - intros stream Hs. by rewrite Hs in Hlag. }
  set (fates := (fun kv : string * pyval => (kv.1, fate cfg now (window_seconds rule) forget alerted kv.1 kv.2)) <$> map_to_list seen).
  set (silent := omap (fun x : string * token_fate => match x.2 with Silent _ => Some x.1 | _ => None end) fates).
  assert (forall token, token ∈ silent <-> silent_for rule s token) as Hsilent.
  { intros token. unfold silent. rewrite list_elem_of_omap. unfold fates, silent_for. fold seen forget. split.
    - intros ([k f] & Hf & Hk). apply list_elem_of_fmap in Hf as ([k' v] & [= -> ->] & Hkv%elem_of_map_to_list). cbn [fst snd] in Hk.
      unfold fate in Hk. destruct v as [| |z| | | |]; cbn [instant_of] in Hk; try done.
      destruct (Z.ltb_spec forget (now - z)); [done|].
      destruct (Z.ltb_spec (window_seconds rule + ABSENCE_GRACE_SECONDS cfg) (now - z)); [|by destruct (bool_decide _)]. injection Hk as ->.
      exists z. split; [done|lia].
    - intros (z & Hz & Hr). exists (token, Silent z). split; [|done]. apply list_elem_of_fmap. exists (token, PInt z). split; [|by apply elem_of_map_to_list].
      unfold fate. cbn [fst snd instant_of]. f_equal. destruct (Z.ltb_spec forget (now - z)); [lia|].
      destruct (Z.ltb_spec (window_seconds rule + ABSENCE_GRACE_SECONDS cfg) (now - z)); [done|lia]. }
  assert (length silent <= size seen)%nat as Hsize.
  { unfold silent. etrans; [apply omap_length_le|]. unfold fates. by rewrite length_fmap, length_map_to_list. }
  destruct (close_all cfg alerted _ t) as [t1 c1]. destruct (close_all cfg alerted _ t1) as [t2 c2].
  destruct (alert_loop organization_id now w rule alerted silent budget t2) as [[[[t3 news] bumps] marks] rest] eqn:Hloop.
  destruct (alert_loop_spec _ _ _ _ _ _ _ _ _ _ Hloop) as (L1 & L2 & L3 & L4).
  intros [= <- <- <- <-]. cbn [tk_alerted tk_bumped tk_state]. split_and!; [|done|done| |].
  - intros token Hin. split; [|done]. by apply Hsilent, L1.
  - intros _ Hall Hb token Hs. apply L4; [lia|by intros x _|by apply Hsilent].
  - intros Hf. destruct (news ++ bumps) as [|x l] eqn:El; [done|].
    destruct (proj1 (Hsilent x)) as (z & _ & Hz); [apply L1; left|]. fold forget in Hz. unfold forget in Hz.
    destruct (Z.eqb_spec (forget_seconds rule) 0); lia.
Qed.

End tick_theorems.

(** ** A value that goes silent *)

Definition demo_absence_settings : absence_settings := AbsenceSettings 2 5 900 true.
Definition demo_absence_rule : compiled_inflight_rule :=
  CompiledInflightRule 7 "beat" 4 60 (Some ["raw"; "host"]) [] false None 1 30 None 0 "" true 90.
Definition demo_world : tick_world := TickWorld true true true true true true (fun _ => true) (fun _ => false).
Definition demo_presence : accumulator :=
  Accumulator ((fun h => (h, PendingItem demo_absence_rule None [] 1 h [])) <$> ["a"; "b"; "c"]) ∅ ∅ ∅ ∅ ∅ ∅.

(** Three values, two kept at once: the third is counted.  Forty seconds later
    the two are alerted, within a budget of ten. *)
Definition demo_seen_at : mem_hash_store :=
  (apply_absence_presence demo_absence_settings 3 1000 true true demo_presence mem_no_hashes).1.2.
Example presence_capped :
  error_count (apply_absence_presence demo_absence_settings 3 1000 true true demo_presence mem_no_hashes).1.1 "absence_key_cap" 7 = 1.
Proof. vm_compute. reflexivity. Qed.

Definition demo_tick : mem_hash_store * detections * Z * tick_result :=
  evaluate_absence_rule demo_absence_settings 3 1040 demo_world demo_absence_rule 10 demo_seen_at [].

Lemma absence_alert_justified_witness :
  length (tk_alerted demo_tick.2 ++ tk_bumped demo_tick.2) = 2%nat /\
  demo_tick.1.2 = 10 - Z.of_nat (length (tk_alerted demo_tick.2 ++ tk_bumped demo_tick.2)).
Proof.
  split; [vm_compute; reflexivity|].
  refine (proj1 (proj1 (proj2 (absence_alert_justified demo_absence_settings 3 1040 demo_world demo_absence_rule 10
    demo_seen_at [] demo_tick.1.1.1 demo_tick.1.1.2 demo_tick.1.2 demo_tick.2 _)))).
  vm_compute. reflexivity.
Defined.
