(* ===== verification/Flush.v ===== *)
(** * The flush of a collection cycle

    Models the end of [collectors/inflight/runtime.py]: what the accumulator of a
    cycle ([Detection]) becomes when it is persisted.  [apply_sequences] joins the
    legs of a sequence rule across cycles, [apply_sliding_windows] counts the
    matches of a rule with a window, [apply_flush_cap] ([Detection]) shares the
    budget of the flush, [flush_sync] records the rest in the table of detections
    ([Detections]); [flush_inflight] composes them, after the presence of the
    absence rules ([Absence]) has left the accumulator.

    Which commands reach Redis and the database is an argument ([flush_world]).
    The pointers stored as JSON are flat dicts of texts, numbers and flags, which
    a round trip through JSON leaves unchanged, so the hashes hold the values.
    Metrics and logs are left out; the emission of events is in [Emission]. *)

From Stdlib Require Import DecimalString.
From stdpp Require Import sorting.
From S2P Require Import Prelude PyVal Store Conditions Redaction Routing Inflight Window Detection HashStore Detections Absence.

Local Open Scope string_scope.
Local Open Scope list_scope.
Local Open Scope Z_scope.

(** A key leaves the flush and is counted against its rule. *)
Definition drop_key (reason key : string) (it : pending_item) (a : accumulator) : accumulator :=
  set_pending (dict_pop key (pending a)) (count_error reason (rule_id (item_rule it)) 1 a).
(** A key stays, its item completed. *)
Definition keep_key (key : string) (it : pending_item) (a : accumulator) : accumulator :=
  set_pending (dict_set key it (pending a)) a.

(** The loop over the targets of a stage: the reason why a key leaves, or its
    completed item. *)
Definition settle_key (verdict : string -> pending_item -> string + pending_item)
    (a : accumulator) (kv : string * pending_item) : accumulator :=
  match verdict kv.1 kv.2 with
  | inl reason => drop_key reason kv.1 kv.2 a
  | inr it => keep_key kv.1 it a
  end.
Definition settle_keys verdict (targets : list (string * pending_item)) (a : accumulator) : accumulator :=
  foldl (settle_key verdict) a targets.
Definition stays (verdict : string -> pending_item -> string + pending_item) (kv : string * pending_item) : bool :=
  match verdict kv.1 kv.2 with inl _ => false | inr _ => true end.
(** [held]: how many of the targets left. *)
Definition held_back verdict (targets : list (string * pending_item)) : nat :=
  length (filter (fun kv => stays verdict kv = false) targets).

Definition with_source (source : list (string * pyval)) (it : pending_item) : pending_item :=
  PendingItem (item_rule it) (item_integration it) source (item_hits it) (item_token it) (item_legs it).

(** ** Sliding windows *)

Definition win_item (kv : string * pending_item) : bool :=
  windowed (min_count (item_rule kv.2)) (window_seconds (item_rule kv.2)).
Definition window_target (kv : string * pending_item) : window_item :=
  (kv.1, (item_hits kv.2, min_count (item_rule kv.2), window_seconds (item_rule kv.2))).

(** [src["window"]]. *)
Definition window_evidence (total : Z) (rule : compiled_inflight_rule) : pyval :=
  PDict [("count", PInt total); ("seconds", PInt (window_seconds rule)); ("min_count", PInt (min_count rule))].
Definition window_verdict (totals : list (string * Z)) (key : string) (it : pending_item) : string + pending_item :=
  let total := default 0 (dict_get key totals) in
  if total <? min_count (item_rule it) then inl "window_below"
  else inr (with_source (dict_set "window" (window_evidence total (item_rule it)) (item_source it)) it).

Definition apply_sliding_windows {R} `{Redis R} (up1 up2 : bool) (now : Z) (a : accumulator) (s : R) : accumulator * R * nat :=
  let targets := filter (fun kv => win_item kv = true) (pending a) in
  match targets with
  | [] => (a, s, 0%nat)
  | _ =>
      match apply_windows up1 up2 (window_target <$> targets) now s with
      | (s, Raise _) => (settle_keys (fun _ _ => inl "window_unavailable") targets a, s, length targets)
      | (s, Ok totals) =>
          (settle_keys (window_verdict totals) targets a, s, held_back (window_verdict totals) targets)
      end
  end.

(** ** Sequences across sources *)

Definition seq_state_key (key : string) : string := ("inflight:seq:" +:+ key)%string.
Definition seq_item (kv : string * pending_item) : bool := is_leg (item_rule kv.2) && (1 <? legs_total (item_rule kv.2)).

(** [int(field)] of a field that [str(int(leg_index))] wrote. *)
Definition leg_of_field (field : string) : option Z := Z.of_int <$> NilZero.int_of_string field.
Definition legs_seen_in (state : gmap string pyval) : gmap Z pyval :=
  foldr (fun (fv : string * pyval) m => match leg_of_field fv.1 with Some i => <[i := fv.2]> m | None => m end) ∅ (map_to_list state).

#[export] Instance leg_order_dec : RelDecision (fun x y : Z * pyval => x.1 <= y.1).
Proof. intros x y. apply _. Defined.
Definition sorted_legs (legs : gmap Z pyval) : list (Z * pyval) := merge_sort (fun x y => x.1 <= y.1) (map_to_list legs).

(** [src["legs"]] and [src["sequence"]]. *)
Definition sequence_evidence (rule : compiled_inflight_rule) (legs : gmap Z pyval) (source : list (string * pyval))
  : list (string * pyval) :=
  dict_set "sequence" (PDict [("legs", PInt (legs_total rule)); ("window_seconds", PInt (window_seconds rule))])
    (dict_set "legs" (PList ((fun x => PDict (dict_set "leg_index" (PInt x.1) (dict_items x.2))) <$> sorted_legs legs)) source).

Definition sequence_verdict (state : string -> gmap string pyval) (key : string) (it : pending_item) : string + pending_item :=
  let legs := legs_seen_in (state key) in
  if Z.of_nat (size legs) <? legs_total (item_rule it) then inl "sequence_below"
  else inr (with_source (sequence_evidence (item_rule it) legs (item_source it)) it).

Section sequences.
Context {S : Type} `{RedisHash pyval S}.

(** The writes of one key: its legs of the cycle, and the time to live. *)
Definition write_legs (s : S) (kv : string * pending_item) : S :=
  h_expire (seq_state_key kv.1) (window_seconds (item_rule kv.2) + 5)
    (foldl (fun s (leg : Z * list (string * pyval)) => h_set (seq_state_key kv.1) (str_of_Z leg.1) (PDict leg.2) s) s (item_legs kv.2)).

Definition apply_sequences (up_write up_read up_delete : bool) (a : accumulator) (s : S) : accumulator * S * nat :=
  let targets := filter (fun kv => seq_item kv = true) (pending a) in
  let unavailable s := (settle_keys (fun _ _ => inl "sequence_unavailable") targets a, s, length targets) in
  match targets with
  | [] => (a, s, 0%nat)
  | _ =>
      if negb up_write then unavailable s
      else
        let s := foldl write_legs s targets in
        if negb up_read then unavailable s
        else
          let state key := h_get s (seq_state_key key) in
          let verdict := sequence_verdict state in
          let closed := filter (fun kv => stays verdict kv = true) targets in
          let s := if up_delete then foldl (fun s kv => h_drop (seq_state_key kv.1) s) s closed else s in
          (settle_keys verdict targets a, s, held_back verdict targets)
  end.
End sequences.

(** ** Recording *)

(** The ticket of a detection that the flush created. *)
Record detection_emit := DetectionEmit {
  em_dedup_key : string;
  em_detection_id : option Z;
  em_rule_id : Z;
  em_rule_name : string;
  em_severity_id : Z;
  em_integration_id : option Z;
  em_source : list (string * pyval);
  em_emit_event : bool;
}.

(** What the servers answer in a flush, and the instant of each record. *)
Record flush_world := FlushWorld {
  fw_presence_read : bool;
  fw_presence_write : bool;
  fw_seq_write : bool;
  fw_seq_read : bool;
  fw_seq_delete : bool;
  fw_window_write : bool;
  fw_window_read : bool;
  fw_thread : bool;
  fw_record : string -> bool;
  fw_clock : string -> Z;
}.

Definition report_of (organization_id : Z) (key : string) (it : pending_item) : report :=
  Report organization_id "inflight" key (rule_severity_id (item_rule it)) (item_integration it)
    (str_of_Z (rule_id (item_rule it))) (rule_name (item_rule it)) (suppression_window_seconds (item_rule it)).
Definition ticket_of (key : string) (i : nat) (it : pending_item) : detection_emit :=
  DetectionEmit key (Some (Z.of_nat i)) (rule_id (item_rule it)) (rule_name (item_rule it)) (rule_severity_id (item_rule it))
    (item_integration it) (item_source it) (emit_event (item_rule it)).

(** The table, the keys committed, the tickets, and whether all was written. *)
Fixpoint flush_sync (w : flush_world) (organization_id : Z) (p : list (string * pending_item)) (t : detections)
  : detections * list string * list detection_emit * bool :=
  match p with
  | [] => (t, [], [], true)
  | (key, it) :: rest =>
      if negb (fw_record w key) then (t, [], [], false)
      else
        let '(t1, i) := record (fw_clock w key) (report_of organization_id key it) t in
        let new := match t1 !! i with Some d => det_count d =? 1 | None => false end in
        let '(t2, written, emits, ok) := flush_sync w organization_id rest t1 in
        (t2, key :: written, if new then ticket_of key i it :: emits else emits, ok)
  end.

(** The accumulator, the stores, the table; the keys written, and the tickets with
    the number of suppressed detections when they are known. *)
Record flush_state (S R : Type) := FlushState {
  fs_acc : accumulator;
  fs_hashes : S;
  fs_windows : R;
  fs_table : detections;
}.
Arguments FlushState {S R}.
Arguments fs_acc {S R}.
Arguments fs_hashes {S R}.
Arguments fs_windows {S R}.
Arguments fs_table {S R}.

Definition lose_unwritten (written : list string) (a : accumulator) : accumulator :=
  foldl (fun a (kv : string * pending_item) => count_error "flush_lost" (rule_id (item_rule kv.2)) 1 a) a
    (filter (fun kv : string * pending_item => kv.1 ∉ written) (pending a)).

Section flush.
Context {S R : Type} `{RedisHash pyval S} `{Redis R}.
Context (absence_cfg : absence_settings) (cfg : inflight_settings) (organization_id now : Z) (w : flush_world).

(** The stages before the write, in their order. *)
Definition prepare_flush (st : flush_state S R) : flush_state S R :=
  let '(a, h, _) := apply_absence_presence absence_cfg organization_id now (fw_presence_read w) (fw_presence_write w)
                      (fs_acc st) (fs_hashes st) in
  let '(a, h, _) := apply_sequences (fw_seq_write w) (fw_seq_read w) (fw_seq_delete w) a h in
  let '(a, r, _) := apply_sliding_windows (fw_window_write w) (fw_window_read w) now a (fs_windows st) in
  FlushState (apply_flush_cap cfg a).1 h r (fs_table st).

Definition write_matches (st : flush_state S R)
  : flush_state S R * list string * option (list detection_emit * nat) :=
  let st := prepare_flush st in
  let a := fs_acc st in
  match pending a with
  | [] => (st, [], None)
  | _ =>
      if negb (fw_thread w) then
        (FlushState (lose_unwritten [] a) (fs_hashes st) (fs_windows st) (fs_table st), [], None)
      else
        let '(t, written, emits, ok) := flush_sync w organization_id (pending a) (fs_table st) in
        if ok : bool then
          (FlushState a (fs_hashes st) (fs_windows st) t, written, Some (emits, (length (pending a) - length emits)%nat))
        else
          (FlushState (lose_unwritten written a) (fs_hashes st) (fs_windows st) t, written,
           Some (emits, (length written - length emits)%nat))
  end.
End flush.

(** ** The balance of a flush *)

Definition FLUSH_LOSSES : list string :=
  ["sequence_unavailable"; "sequence_below"; "window_unavailable"; "window_below"; "flush_cap"; "flush_lost"].
Definition losses (a : accumulator) (r : Z) : Z := foldr Z.add 0 ((fun reason => error_count a reason r) <$> FLUSH_LOSSES).
(** The keys of a rule still to write, and those given up. *)
Definition balance (a : accumulator) (r : Z) : Z := Z.of_nat (length (keys_of r (pending a))) + losses a r.

Lemma count_error_other reason reason' rid n a r :
  reason' <> reason -> error_count (count_error reason rid n a) reason' r = error_count a reason' r.
Proof. intros Hne. unfold error_count. cbn [errors count_error]. rewrite bump_error, decide_False by congruence. lia. Qed.
Lemma count_error_same reason rid n a r :
  error_count (count_error reason rid n a) reason r = error_count a reason r + (if decide (rid = r) then n else 0).
Proof. unfold error_count. cbn [errors count_error]. rewrite bump_error. repeat case_decide; simplify_eq; done. Qed.

Lemma losses_counted reason rid n a r :
  losses (count_error reason rid n a) r =
  losses a r + (if bool_decide (reason ∈ FLUSH_LOSSES) then (if decide (rid = r) then n else 0) else 0).
Proof.
  unfold losses. assert (NoDup FLUSH_LOSSES) as Hd by (apply (bool_decide_unpack _); vm_compute; exact I).
  revert Hd. generalize FLUSH_LOSSES. intros l. induction l as [|x l IH]; intros Hd; [done|]. apply NoDup_cons in Hd as [Hx Hd]. cbn [fmap list_fmap foldr].
  specialize (IH Hd). cbn [fmap] in IH. rewrite IH. destruct (decide (x = reason)) as [->|Hne].
  - rewrite count_error_same. rewrite (bool_decide_eq_true_2 (reason ∈ reason :: l)) by left.
    rewrite bool_decide_eq_false_2 by done. lia.
  - rewrite count_error_other by done. replace (bool_decide (reason ∈ x :: l)) with (bool_decide (reason ∈ l)); [lia|].
    apply bool_decide_ext. rewrite elem_of_cons. naive_solver.
Qed.

Lemma keys_of_pop r key it p :
  dict_wf p -> dict_get key p = Some it ->
  length (keys_of r p) = (length (keys_of r (dict_pop key p)) + (if decide (rule_id (item_rule it) = r) then 1 else 0))%nat.
Proof.
  unfold dict_wf, dict_keys. intros Hwf Hg. induction p as [|[k v] p IH]; [done|]. cbn in Hwf, Hg. apply NoDup_cons in Hwf as [Hn Hwf].
  unfold dict_pop. rewrite filter_cons. cbn [fst]. destruct (String.eqb_spec key k) as [->|Hne].
  - injection Hg as ->. rewrite decide_False by done. rewrite keys_of_cons.
    replace (filter _ p) with p; [repeat case_decide; try contradiction; cbn [length]; lia|]. clear IH Hwf. induction p as [|[k' v'] p IH]; [done|].
    cbn in Hn. apply not_elem_of_cons in Hn as [Hk Hn]. rewrite filter_cons. cbn [fst]. apply String.eqb_neq in Hk as Hk'.
    rewrite decide_True by done. by rewrite <- IH.
  - rewrite decide_True by done. rewrite !keys_of_cons. fold (dict_pop key p). specialize (IH Hwf Hg). destruct (decide (of_rule r (k, v))); cbn [length]; lia.
Qed.
Lemma keys_of_set r key it it' p :
  dict_get key p = Some it -> item_rule it' = item_rule it -> keys_of r (dict_set key it' p) = keys_of r p.
Proof.
  intros Hg Hr. induction p as [|[k v] p IH]; [done|]. cbn [dict_set dict_get] in *. destruct (String.eqb key k).
  - injection Hg as ->. rewrite !keys_of_cons. repeat case_decide; unfold of_rule in *; cbn [snd fst] in *; congruence.
  - rewrite !keys_of_cons. by rewrite IH.
Qed.

Lemma drop_key_balance reason key it a r :
  dict_wf (pending a) -> dict_get key (pending a) = Some it -> reason ∈ FLUSH_LOSSES ->
  balance (drop_key reason key it a) r = balance a r.
Proof.
  intros Hwf Hg Hr. unfold balance, drop_key. cbn [pending set_pending].
  change (losses (set_pending ?p ?b) r) with (losses b r). rewrite losses_counted, bool_decide_eq_true_2 by done.
  rewrite (keys_of_pop r key it (pending a)) by done. case_decide; lia.
Qed.
Lemma keep_key_balance key it it' a r :
  dict_get key (pending a) = Some it -> item_rule it' = item_rule it -> balance (keep_key key it' a) r = balance a r.
Proof.
  intros Hg Hr. unfold balance, keep_key. cbn [pending set_pending].
  change (losses (set_pending ?p ?b) r) with (losses b r). by rewrite (keys_of_set r key it).
Qed.

(** A verdict names a reason of the list and never changes the rule. *)
Definition fair_verdict (verdict : string -> pending_item -> string + pending_item) : Prop :=
  forall key it, match verdict key it with
                 | inl reason => reason ∈ FLUSH_LOSSES
                 | inr it' => item_rule it' = item_rule it
                 end.

Lemma settle_keys_balance verdict targets : forall a,
  fair_verdict verdict -> NoDup targets.*1 -> Forall (fun kv => dict_get kv.1 (pending a) = Some kv.2) targets ->
  dict_wf (pending a) ->
  dict_wf (pending (settle_keys verdict targets a)) /\ matched (settle_keys verdict targets a) = matched a /\
  forall r, balance (settle_keys verdict targets a) r = balance a r.
Proof.
  induction targets as [|[key it] targets IH]; intros a Hv Hd Hg Hwf; [done|]. unfold settle_keys. cbn [foldl].
  fold (settle_keys verdict targets (settle_key verdict a (key, it))). cbn in Hd. apply NoDup_cons in Hd as [Hn Hd].
  apply Forall_cons in Hg as [Hk Hg]. cbn in Hk. specialize (Hv key it) as Hvk.
  assert (forall k v, (k, v) ∈ targets -> k <> key) as Hother.
  { intros k v Hin ->. apply Hn. by apply (list_elem_of_fmap_2 fst) in Hin. }
  rewrite Forall_forall in Hg. unfold settle_key at 1 2 3. cbn [fst snd]. destruct (verdict key it) as [reason|it'].
  - destruct (IH (drop_key reason key it a) Hv Hd) as (I1 & I2 & I3).
    + apply Forall_forall. intros [k v] Hin. cbn [fst snd drop_key pending set_pending]. rewrite dict_get_pop_ne by (by eapply Hother).
      exact (Hg _ Hin).
    + cbn [drop_key pending set_pending]. by apply dict_pop_wf.
    + split_and!; [done|done|]. intros r. by rewrite I3, drop_key_balance.
  - destruct (IH (keep_key key it' a) Hv Hd) as (I1 & I2 & I3).
    + apply Forall_forall. intros [k v] Hin. cbn [fst snd keep_key pending set_pending]. rewrite dict_get_set_ne by (by eapply Hother).
      exact (Hg _ Hin).
    + cbn [keep_key pending set_pending]. by apply dict_set_wf.
    + split_and!; [done|done|]. intros r. by rewrite I3, (keep_key_balance key it).
Qed.

(** A stage loses no key without counting it. *)
Definition steady (a a' : accumulator) : Prop :=
  dict_wf (pending a) -> dict_wf (pending a') /\ matched a' = matched a /\ forall r, balance a' r = balance a r.
#[export] Instance steady_preorder : PreOrder steady.
Proof.
  split; [by intros a|]. intros a b c Hab Hbc Hwf. destruct (Hab Hwf) as (Hb & Mb & Bb). destruct (Hbc Hb) as (Hc & Mc & Bc).
  split_and!; [done|congruence|]. intros r. by rewrite Bc, Bb.
Qed.

Lemma settle_targets_steady verdict (P : string * pending_item -> Prop) `{!forall kv, Decision (P kv)} a :
  fair_verdict verdict -> steady a (settle_keys verdict (filter P (pending a)) a).
Proof.
  intros Hv Hwf. apply settle_keys_balance; [done| | |done].
  - eapply (sublist_NoDup _ _ Hwf), fmap_sublist, sublist_filter.
  - apply Forall_forall. intros [k v] [_ Hin]%list_elem_of_filter. by apply dict_elem_get.
Qed.

Lemma losses_counted_all reason l a r :
  reason ∈ FLUSH_LOSSES ->
  losses (foldl (fun a (kv : string * pending_item) => count_error reason (rule_id (item_rule kv.2)) 1 a) a l) r =
  losses a r + Z.of_nat (length (keys_of r l)).
Proof.
  intros Hr. revert a. induction l as [|kv l IH]; intros a; [cbn; lia|]. cbn [foldl].
  rewrite IH, keys_of_cons, losses_counted, bool_decide_eq_true_2 by done.
  repeat case_decide; unfold of_rule in *; try contradiction; cbn [length]; lia.
Qed.

Lemma flush_cap_steady cfg a : steady a (apply_flush_cap cfg a).1.
Proof.
  unfold apply_flush_cap. case_match; [done|]. intros Hwf. cbn [fst].
  set (kept := default [] _). set (gone := filter (fun kv => kv.1 ∉ kept) (pending a)).
  destruct (count_errors_pending "flush_cap" gone (set_pending (filter (fun kv => kv.1 ∈ kept) (pending a)) a)) as [Hp Hm].
  split_and!.
  - rewrite Hp. cbn [pending set_pending]. eapply (sublist_NoDup _ _ Hwf), fmap_sublist, sublist_filter.
  - by rewrite Hm.
  - intros r. unfold balance. rewrite Hp, losses_counted_all by (apply (bool_decide_unpack _); vm_compute; exact I).
    cbn [pending set_pending]. change (losses (set_pending ?p ?b) r) with (losses b r).
    rewrite (keys_of_split r (fun kv => kv.1 ∈ kept) (pending a)). fold gone. lia.
Qed.

Lemma in_losses reason : bool_decide (reason ∈ FLUSH_LOSSES) = true -> reason ∈ FLUSH_LOSSES.
Proof. apply bool_decide_eq_true_1. Qed.

Lemma sliding_windows_steady {R} `{Redis R} up1 up2 now a (s : R) : steady a (apply_sliding_windows up1 up2 now a s).1.1.
Proof.
  unfold apply_sliding_windows. destruct (filter _ (pending a)) as [|x l] eqn:E; [done|].
  destruct (apply_windows _ _ _ _ _) as [s' [totals|e]]; cbn [fst]; rewrite <- E; apply settle_targets_steady; intros key it.
  - unfold window_verdict. destruct (_ <? _); [by apply in_losses|done].
  - by apply in_losses.
Qed.

Lemma sequences_steady {S} `{RedisHash pyval S} uw ur ud a (s : S) : steady a (apply_sequences uw ur ud a s).1.1.
Proof.
  unfold apply_sequences. destruct (filter _ (pending a)) as [|x l] eqn:E; [done|]. rewrite <- E.
  destruct uw, ur; cbn [negb fst]; apply settle_targets_steady; intros key it; try by apply in_losses.
  unfold sequence_verdict. destruct (_ <? _); [by apply in_losses|done].
Qed.

(** The errors that a stage counts without giving up a key. *)
Lemma fold_unchanged {A} (f : accumulator -> A -> accumulator) l a r :
  (forall a x, pending (f a x) = pending a /\ matched (f a x) = matched a /\ losses (f a x) r = losses a r) ->
  pending (foldl f a l) = pending a /\ matched (foldl f a l) = matched a /\ losses (foldl f a l) r = losses a r.
Proof.
  intros Hf. revert a. induction l as [|x l IH]; intros a; [done|]. cbn [foldl]. destruct (IH (f a x)) as (-> & -> & ->). apply Hf.
Qed.

(** The keys that wait for matches: those of the rules that watch no absence. *)
Definition matching (p : list (string * pending_item)) : list (string * pending_item) := filter (fun kv => is_absence kv = false) p.

Lemma watched_none a : watched_rules a = ∅ -> matching (pending a) = pending a.
Proof.
  unfold watched_rules, matching. generalize (absence_rules a) as m. induction (pending a) as [|kv p IH]; intros m; [done|].
  cbn [foldl]. intros Hm. rewrite filter_cons. destruct (is_absence kv) eqn:Ha.
  - exfalso. assert (forall m : gmap Z compiled_inflight_rule, m <> ∅ -> foldl (fun m kv => if is_absence kv
        then match m !! rule_id (item_rule kv.2) with Some _ => m | None => <[rule_id (item_rule kv.2) := item_rule kv.2]> m end
        else m) m p <> ∅) as Hgrow.
    { clear. induction p as [|x p IH]; intros m Hm; [done|]. cbn [foldl]. apply IH. destruct (is_absence x); [|done].
      destruct (m !! _); [done|]. apply insert_non_empty. }
    revert Hm. apply Hgrow. destruct (m !! _) as [x|] eqn:Hx; [by intros ->|apply insert_non_empty].
  - rewrite decide_True by done. by rewrite (IH m Hm).
Qed.

Lemma presence_leaves {S} `{RedisHash pyval S} cfg org now ru wu a (s : S) r :
  let a' := (apply_absence_presence cfg org now ru wu a s).1.1 in
  pending a' = matching (pending a) /\ matched a' = matched a /\ losses a' r = losses a r.
Proof.
  unfold apply_absence_presence. case_bool_decide as Hrules; [cbn [fst]; by rewrite watched_none|].
  set (kept := set_pending _ a).
  change (matching (pending a)) with (pending kept). change (matched a) with (matched kept). change (losses a r) with (losses kept r).
  assert (forall reason rid n b, reason ∉ FLUSH_LOSSES ->
    pending (count_error reason rid n b) = pending b /\ matched (count_error reason rid n b) = matched b /\
    losses (count_error reason rid n b) r = losses b r) as Hc.
  { intros reason rid n b Hn. split_and!; [done..|]. rewrite losses_counted, bool_decide_eq_false_2 by done. lia. }
  assert (forall reason, bool_decide (reason ∈ FLUSH_LOSSES) = false -> reason ∉ FLUSH_LOSSES) as Hn.
  { intros reason. apply bool_decide_eq_false_1. }
  assert (forall l b, pending b = pending kept /\ matched b = matched kept /\ losses b r = losses kept r ->
    let b' := foldl (fun a (x : Z * compiled_inflight_rule) => count_error "absence_unavailable" x.1 1 a) b l in
    pending b' = pending kept /\ matched b' = matched kept /\ losses b' r = losses kept r) as Hu.
  { intros l b (E1 & E2 & E3) b'. unfold b'. edestruct (fold_unchanged (A := Z * compiled_inflight_rule)) as (-> & -> & ->); [|done].
    intros a' x. apply Hc. by apply Hn. }
  destruct ru; cbn [negb fst]; [|by apply Hu]. set (counted := foldl _ kept _).
  assert (pending counted = pending kept /\ matched counted = matched kept /\ losses counted r = losses kept r) as Hcounted.
  { unfold counted. apply fold_unchanged. intros a' x. case_match; [done|]. apply Hc. by apply Hn. }
  destruct wu; cbn [negb fst]; [done|by apply Hu].
Qed.

Definition counted_rows (t : detections) : Prop := Forall (fun d : detection => (1 <= det_count d)%Z) t.

(** A record opens a row, with a count of one, or bumps one of its key. *)
Lemma record_row now r t t' i :
  counted_rows t -> record now r t = (t', i) ->
  counted_rows t' /\
  if (match t' !! i with Some d => (det_count d =? 1)%Z | None => false end) then i = length t /\ t' = t ++ [new_detection now r]
  else t' = alter (bump_detection now) i t /\ exists d, t !! i = Some d /\ same_key (rp_organization r) (rp_key r) d = true.
Proof.
  unfold record. pose proof (last_row_spec (open_row (rp_organization r) (rp_key r)) t 0) as Hl. intros Ht.
  assert (counted_rows (t ++ [new_detection now r]) /\ (t ++ [new_detection now r]) !! length t = Some (new_detection now r)) as [H1 H2].
  { split; [|by rewrite lookup_app_r, Nat.sub_diag by lia]. apply Forall_app. split; [done|].
    apply Forall_singleton. done. }
  destruct (last_row _ 0 t) as [[j d]|]; [|intros [= <- <-]; by rewrite H2].
  destruct (now - seconds (det_window d) <=? last_seen d); intros [= <- <-]; [|by rewrite H2].
  destruct Hl as (_ & Hi & Hk & _). rewrite Nat.sub_0_r in Hi. rewrite list_lookup_alter_eq, Hi. cbn [fmap option_fmap option_map].
  pose proof Ht as Hd. unfold counted_rows in Hd. rewrite Forall_forall in Hd. specialize (Hd d (list_elem_of_lookup_2 _ _ _ Hi)).
  cbn [det_count bump_detection]. destruct (Z.eqb_spec (det_count d + 1) 1); [lia|]. split_and!.
  - apply Forall_alter; [done|]. intros x Hx _. rewrite Hi in Hx. injection Hx as <-. cbn. lia.
  - done.
  - exists d. split; [done|]. unfold open_row in Hk. by apply andb_true_iff in Hk as [Hk _].
Qed.

Lemma flush_sync_spec w org p : forall t t' written emits ok,
  NoDup p.*1 -> counted_rows t -> flush_sync w org p t = (t', written, emits, ok) ->
  (exists rest, p.*1 = written ++ rest /\ (ok = true -> rest = [])) /\
  (forall k, matches_for org k t' = matches_for org k t + (if bool_decide (k ∈ written) then 1 else 0)) /\
  sublist (em_dedup_key <$> emits) written /\ length t' = (length t + length emits)%nat.
Proof.
  induction p as [|[key it] p IH]; intros t t' written emits ok Hd Ht; cbn [flush_sync].
  { intros [= <- <- <- <-]. split_and!; [by exists []|intros k; rewrite bool_decide_eq_false_2 by apply not_elem_of_nil; lia|done|cbn; lia]. }
  cbn in Hd. apply NoDup_cons in Hd as [Hn Hd]. destruct (fw_record w key); cbn [negb].
  2: { intros [= <- <- <- <-]. split_and!; [by exists (key :: p.*1)|intros k; rewrite bool_decide_eq_false_2 by apply not_elem_of_nil; lia|done|cbn; lia]. }
  pose proof (record_matches (fw_clock w key) (report_of org key it) t) as Hm.
  destruct (record _ _ t) as [t1 i] eqn:Hr. destruct (record_row _ _ _ _ _ Ht Hr) as [Ht1 Hl1].
  destruct (flush_sync w org p t1) as [[[t2 written2] emits2] ok2] eqn:Hs.
  destruct (IH _ _ _ _ _ Hd Ht1 Hs) as ((rest & Hw & Hok) & Hk & Hsub & Hlen).
  intros [= <- <- <- <-]. split_and!.
  - exists rest. cbn. by rewrite Hw.
  - intros k. rewrite Hk, Hm. cbn [rp_organization rp_key report_of]. rewrite Z.eqb_refl. cbn [andb].
    destruct (String.eqb_spec key k) as [<-|Hne].
    + rewrite bool_decide_eq_false_2; [rewrite bool_decide_eq_true_2 by left; lia|]. intros Hin. apply Hn. rewrite Hw. apply elem_of_app. by left.
    + replace (bool_decide (k ∈ key :: written2)) with (bool_decide (k ∈ written2)); [lia|]. apply bool_decide_ext.
      rewrite elem_of_cons. naive_solver.
  - case_match; [by apply sublist_skip|by apply sublist_cons].
  - rewrite Hlen. revert Hl1. case_match; [intros [_ ->]; rewrite length_app; cbn [length]; lia|intros [-> _]; by rewrite length_alter].
Qed.

Lemma flush_sync_other w org p : forall t t' written emits ok j d,
  counted_rows t -> flush_sync w org p t = (t', written, emits, ok) -> t !! j = Some d ->
  Forall (fun k => same_key org k d = false) p.*1 -> t' !! j = Some d.
Proof.
  induction p as [|[key it] p IH]; intros t t' written emits ok j d Ht; cbn [flush_sync]; [by intros [= <- _ _ _]|].
  destruct (fw_record w key); cbn [negb]; [|by intros [= <- _ _ _]].
  destruct (record _ _ t) as [t1 i] eqn:Hr. destruct (record_row _ _ _ _ _ Ht Hr) as [Ht1 Hl1].
  destruct (flush_sync w org p t1) as [[[t2 written2] emits2] ok2] eqn:Hs.
  intros [= <- _ _ _] Hj Hk. cbn in Hk. apply Forall_cons in Hk as [Hkey Hk]. apply (IH _ _ _ _ _ _ _ Ht1 Hs); [|done].
  revert Hl1. case_match; [intros [_ ->]; by apply lookup_app_l_Some|]. intros (-> & x & Hi & Hx). destruct (decide (i = j)) as [->|Hne].
  - rewrite Hj in Hi. injection Hi as <-. cbn in Hx. congruence.
  - by rewrite list_lookup_alter_ne.
Qed.

(** The ticket of a row: the row is the one its key opened, as its item says. *)
Definition ticket_row (w : flush_world) (org : Z) (p : list (string * pending_item)) (t : detections) (i : nat) (e : detection_emit) : Prop :=
  exists key it, (key, it) ∈ p /\
    e = DetectionEmit key (Some (Z.of_nat i)) (rule_id (item_rule it)) (rule_name (item_rule it)) (rule_severity_id (item_rule it))
          (item_integration it) (item_source it) (emit_event (item_rule it)) /\
    t !! i = Some (Detection org "inflight" key (rule_severity_id (item_rule it)) (item_integration it)
                     (str_of_Z (rule_id (item_rule it))) (rule_name (item_rule it)) (suppression_window_seconds (item_rule it))
                     (fw_clock w key) (fw_clock w key) 1 "open").

(** The tickets are the new rows, in order. *)
Lemma flush_sync_tickets w org p : forall t t' written emits ok,
  NoDup p.*1 -> counted_rows t -> flush_sync w org p t = (t', written, emits, ok) ->
  Forall2 (ticket_row w org p t') (seq (length t) (length emits)) emits.
Proof.
  induction p as [|[key it] p IH]; intros t t' written emits ok Hd Ht; cbn [flush_sync]; [by intros [= _ _ <- _]|].
  cbn in Hd. apply NoDup_cons in Hd as [Hn Hd]. destruct (fw_record w key); cbn [negb]; [|by intros [= _ _ <- _]].
  destruct (record _ _ t) as [t1 i] eqn:Hr. destruct (record_row _ _ _ _ _ Ht Hr) as [Ht1 Hl1].
  destruct (flush_sync w org p t1) as [[[t2 written2] emits2] ok2] eqn:Hs. specialize (IH _ _ _ _ _ Hd Ht1 Hs).
  assert (forall l1 l2, Forall2 (ticket_row w org p t2) l1 l2 -> Forall2 (ticket_row w org ((key, it) :: p) t2) l1 l2) as Hmore.
  { intros l1 l2 HF. eapply Forall2_impl; [exact HF|]. intros i' e (k & it' & Hin & Hrow). exists k, it'. split; [by right|done]. }
  intros [= <- _ <- _]. revert Hl1. case_match.
  - intros [-> ->]. cbn [length seq]. apply Forall2_cons. split.
    + exists key, it. split_and!; [by left|done|]. apply (flush_sync_other w org p _ _ _ _ _ _ _ Ht1 Hs).
      * by rewrite lookup_app_r, Nat.sub_diag by lia.
      * apply Forall_forall. intros k Hk. unfold same_key. cbn. rewrite Z.eqb_refl. cbn. apply String.eqb_neq. by intros ->.
    + apply Hmore. rewrite length_app, Nat.add_1_r in IH. exact IH.
  - intros [-> _]. apply Hmore. by rewrite length_alter in IH.
Qed.

(** ** A sequence across cycles *)

Abbreviation seq_spec_state := (option (gmap Z pyval * Z)).

(** The legs that a join holds after those of a cycle, unless its time is over. *)
Definition legs_after (now : Z) (st : seq_spec_state) (legs : list (Z * list (string * pyval))) : gmap Z pyval :=
  foldl (fun m (leg : Z * list (string * pyval)) => <[leg.1 := PDict leg.2]> m)
    (match st with Some (m, deadline) => if now <? deadline then m else ∅ | None => ∅ end) legs.

(** One flush of a join, and the legs of the sequence when it closes. *)
Definition seq_spec (up_write up_read up_delete : bool) (now : Z) (it : pending_item) (st : seq_spec_state)
  : seq_spec_state * option (gmap Z pyval) :=
  let legs := legs_after now st (item_legs it) in
  let kept := Some (legs, now + (window_seconds (item_rule it) + 5)) in
  if negb up_write then (st, None)
  else if negb up_read then (kept, None)
  else if Z.of_nat (size legs) <? legs_total (item_rule it) then (kept, None)
  else (if up_delete then None else kept, Some legs).

#[export] Instance str_of_Z_injective : Inj (=) (=) str_of_Z.
Proof. intros x y. apply str_of_Z_inj. Qed.

(** The fields of a hash of legs. *)
Definition fields_of (legs : gmap Z pyval) : gmap string pyval := kmap str_of_Z legs.

Lemma fields_of_empty : fields_of ∅ = ∅.
Proof. done. Qed.
Lemma fields_of_insert i v legs : fields_of (<[i := v]> legs) = <[str_of_Z i := v]> (fields_of legs).
Proof. unfold fields_of. apply (kmap_insert _ _ _ _). Qed.

Lemma leg_of_field_str z : leg_of_field (str_of_Z z) = Some z.
Proof.
  unfold leg_of_field, str_of_Z. rewrite NilZero.isi.
  - cbn. by rewrite DecimalZ.of_to.
  - destruct z as [|p|p]; cbn; try done. intros [= E]. by apply (DecimalPos.Unsigned.to_uint_nonnil p).
  - destruct z as [|p|p]; cbn; try done. intros [= E]. by apply (DecimalPos.Unsigned.to_uint_nonnil p).
Qed.

Lemma legs_seen_in_kmap (legs : gmap Z pyval) : legs_seen_in (fields_of legs) = legs.
Proof.
  unfold legs_seen_in, fields_of.
  assert (forall l : list (string * pyval),
    foldr (fun (fv : string * pyval) (m : gmap Z pyval) => match leg_of_field fv.1 with Some i => <[i := fv.2]> m | None => m end) ∅ l =
    list_to_map (omap (fun fv : string * pyval => (fun i => (i, fv.2)) <$> leg_of_field fv.1) l)) as Hf.
  { intros l. induction l as [|[f v] l IH]; [done|]. cbn [foldr fst snd omap list_omap]. rewrite IH. by destruct (leg_of_field f). }
  rewrite Hf. clear Hf.
  assert (omap (fun fv : string * pyval => (fun i => (i, fv.2)) <$> leg_of_field fv.1) (map_to_list (kmap str_of_Z legs : gmap string pyval))
            ≡ₚ map_to_list legs) as Hp.
  { etrans; [apply omap_Permutation, map_to_list_kmap; apply _|]. induction (map_to_list legs) as [|[i v] l IH]; [done|]. cbn [fmap list_fmap omap list_omap prod_map fst snd].
    rewrite leg_of_field_str. cbn. by rewrite IH. }
  rewrite <- (list_to_map_to_list legs) at 2. apply list_to_map_proper; [|done]. rewrite Hp. apply NoDup_fst_map_to_list.
Qed.

Section sequence_refinement.
Context {S : Type} `{RedisHashLaws pyval S}.

Lemma seq_state_key_inj k1 k2 : seq_state_key k1 = seq_state_key k2 -> k1 = k2.
Proof. unfold seq_state_key. intros He. by apply (inj (String.append "inflight:seq:")) in He. Qed.
Lemma seq_state_key_eqb k1 k2 : String.eqb (seq_state_key k1) (seq_state_key k2) = String.eqb k1 k2.
Proof.
  destruct (String.eqb_spec k1 k2) as [->|Hne]; [apply String.eqb_refl|]. apply String.eqb_neq. by intros ?%seq_state_key_inj.
Qed.

(** The hash of a join holds the legs of the specification, until its deadline. *)
Definition holds (k : string) (s : S) (st : seq_spec_state) : Prop :=
  h_entry s (seq_state_key k) = still_there (h_now s) ((fun x : gmap Z pyval * Z => (fields_of x.1, Some x.2)) <$> st).

Lemma holds_get k s st : holds k s st ->
  h_get s (seq_state_key k) = fields_of (match st with Some (m, dl) => if h_now s <? dl then m else ∅ | None => ∅ end).
Proof.
  unfold holds, h_get. intros ->. destruct st as [[m dl]|]; cbn; [|by rewrite fields_of_empty].
  unfold hash_live. cbn. destruct (h_now s <? dl); [done|]. by rewrite fields_of_empty.
Qed.
Lemma holds_tick k s st d : 0 <= d -> holds k s st -> holds k (h_tick d s) st.
Proof.
  unfold holds. intros Hd He. rewrite h_tick_entry, h_tick_now, He by done. destruct st as [[m dl]|]; [|done]. cbn.
  unfold hash_live. cbn. destruct (Z.ltb_spec (h_now s) dl); [done|]. cbn. destruct (Z.ltb_spec (h_now s + d) dl); [lia|done].
Qed.

Lemma set_fields key legs : forall s,
  let s' := foldl (fun s (leg : Z * list (string * pyval)) => h_set key (str_of_Z leg.1) (PDict leg.2) s) s legs in
  h_now s' = h_now s /\ (forall k, k <> key -> h_entry s' k = h_entry s k) /\
  h_get s' key = foldl (fun m (leg : Z * list (string * pyval)) => <[str_of_Z leg.1 := PDict leg.2]> m) (h_get s key) legs /\
  (legs <> [] -> is_Some (h_entry s' key)).
Proof.
  induction legs as [|[i p] legs IH]; intros s; [done|]. cbn [foldl fst snd].
  destruct (IH (h_set key (str_of_Z i) (PDict p) s)) as (I1 & I2 & I3 & I4). cbv zeta. split_and!.
  - by rewrite I1, h_set_now.
  - intros k Hk. rewrite I2 by done. rewrite h_set_entry by done. apply String.eqb_neq in Hk. by rewrite Hk.
  - rewrite I3. f_equal. unfold h_get at 1. by rewrite h_set_entry, String.eqb_refl.
  - intros _. destruct legs as [|leg legs]; [|by apply I4]. cbn. rewrite h_set_entry, String.eqb_refl by done. by eexists.
Qed.

Definition seq_ok (kv : string * pending_item) : Prop := 0 < window_seconds (item_rule kv.2) + 5 /\ item_legs kv.2 <> [].

Lemma write_legs_entry kv s k :
  seq_ok kv ->
  h_now (write_legs s kv) = h_now s /\
  h_entry (write_legs s kv) (seq_state_key k) =
    if String.eqb k kv.1
    then Some (foldl (fun m (leg : Z * list (string * pyval)) => <[str_of_Z leg.1 := PDict leg.2]> m)
                 (h_get s (seq_state_key k)) (item_legs kv.2), Some (h_now s + (window_seconds (item_rule kv.2) + 5)))
    else h_entry s (seq_state_key k).
Proof.
  intros [Hw Hl]. unfold write_legs. destruct (set_fields (seq_state_key kv.1) (item_legs kv.2) s) as (F1 & F2 & F3 & F4).
  set (s' := foldl _ s (item_legs kv.2)) in *. rewrite h_expire_now, h_expire_entry by lia. split; [done|].
  rewrite seq_state_key_eqb. destruct (String.eqb_spec k kv.1) as [->|Hne].
  - unfold h_get in F3 at 1. destruct (F4 Hl) as [[m dl] Hs]. rewrite Hs in F3 |- *. cbn in F3 |- *. by rewrite F1, F3.
  - apply F2. by intros ?%seq_state_key_inj.
Qed.

Lemma write_targets targets : forall s, NoDup targets.*1 -> Forall seq_ok targets -> forall k,
  h_now (foldl write_legs s targets) = h_now s /\
  h_entry (foldl write_legs s targets) (seq_state_key k) =
    match dict_get k targets with
    | Some it => Some (foldl (fun m (leg : Z * list (string * pyval)) => <[str_of_Z leg.1 := PDict leg.2]> m)
                   (h_get s (seq_state_key k)) (item_legs it), Some (h_now s + (window_seconds (item_rule it) + 5)))
    | None => h_entry s (seq_state_key k)
    end.
Proof.
  induction targets as [|kv targets IH]; intros s Hd Hok k; [done|]. cbn [foldl]. cbn in Hd.
  apply NoDup_cons in Hd as [Hn Hd]. apply Forall_cons in Hok as [Hkv Hok].
  destruct (IH (write_legs s kv) Hd Hok k) as [I1 I2]. destruct (write_legs_entry kv s k Hkv) as [W1 W2].
  rewrite I1, I2, W1. split; [done|]. destruct kv as [key it]. cbn [dict_get fst snd] in *. destruct (String.eqb_spec k key) as [->|Hne].
  - destruct (dict_get key targets) eqn:E; [|done]. exfalso. apply Hn.
    apply dict_get_elem in E. by apply (list_elem_of_fmap_2 fst) in E.
  - unfold h_get. by rewrite W2.
Qed.

Lemma drop_targets (l : list (string * pending_item)) : forall s k,
  h_now (foldl (fun s (kv : string * pending_item) => h_drop (seq_state_key kv.1) s) s l) = h_now s /\
  h_entry (foldl (fun s (kv : string * pending_item) => h_drop (seq_state_key kv.1) s) s l) (seq_state_key k) =
    if bool_decide (k ∈ l.*1) then None else h_entry s (seq_state_key k).
Proof.
  induction l as [|kv l IH]; intros s k; [done|]. cbn [foldl]. destruct (IH (h_drop (seq_state_key kv.1) s) k) as [-> ->].
  rewrite h_drop_now, h_drop_entry, seq_state_key_eqb. split; [done|]. cbn [fmap list_fmap].
  destruct (String.eqb_spec k kv.1) as [->|Hne].
  - rewrite (bool_decide_eq_true_2 (kv.1 ∈ kv.1 :: _)) by left. by case_bool_decide.
  - replace (bool_decide (k ∈ kv.1 :: l.*1)) with (bool_decide (k ∈ l.*1)); [done|]. apply bool_decide_ext.
    rewrite elem_of_cons. naive_solver.
Qed.

Lemma settle_get verdict targets : forall a k,
  NoDup targets.*1 -> Forall (fun kv => dict_get kv.1 (pending a) = Some kv.2) targets ->
  dict_get k (pending (settle_keys verdict targets a)) =
  match dict_get k targets with
  | Some it => match verdict k it with inl _ => None | inr it' => Some it' end
  | None => dict_get k (pending a)
  end.
Proof.
  induction targets as [|[key it] targets IH]; intros a k Hd Hg; [done|]. unfold settle_keys. cbn [foldl].
  fold (settle_keys verdict targets (settle_key verdict a (key, it))). cbn in Hd. apply NoDup_cons in Hd as [Hn Hd].
  apply Forall_cons in Hg as [Hk Hg]. cbn in Hk. rewrite Forall_forall in Hg.
  assert (forall k' v, (k', v) ∈ targets -> k' <> key) as Hother.
  { intros k' v Hin ->. apply Hn. by apply (list_elem_of_fmap_2 fst) in Hin. }
  assert (forall k', k' <> key -> dict_get k' (pending (settle_key verdict a (key, it))) = dict_get k' (pending a)) as Hne.
  { intros k' Hne. unfold settle_key. cbn [fst snd]. destruct (verdict key it); cbn; [by apply dict_get_pop_ne|by apply dict_get_set_ne]. }
  rewrite IH; [|done|].
  - cbn [dict_get]. destruct (String.eqb_spec k key) as [->|Hk']; [|by rewrite Hne].
    rewrite (proj2 (dict_get_None key targets)) by done. unfold settle_key. cbn [fst snd].
    destruct (verdict key it); cbn; [apply dict_get_pop_eq|apply dict_get_set_eq].
  - apply Forall_forall. intros [k' v] Hin. cbn [fst snd]. rewrite Hne by (by eapply Hother). exact (Hg _ Hin).
Qed.

Lemma dict_get_filter {A} (P : string * A -> Prop) `{!forall kv, Decision (P kv)} k d :
  dict_wf d -> dict_get k (filter P d) = (dict_get k d ≫= fun v => if decide (P (k, v)) then Some v else None).
Proof.
  unfold dict_wf, dict_keys. induction d as [|[k' v] d IH]; cbn [dict_get fmap list_fmap]; [done|]. intros [Hn Hd]%NoDup_cons.
  rewrite filter_cons. destruct (String.eqb_spec k k') as [->|Hne]; cbn [mbind option_bind].
  - case_decide; cbn [dict_get]; [by rewrite String.eqb_refl|]. apply dict_get_None. intros Hin. apply Hn.
    apply list_elem_of_fmap in Hin as ([k x] & Hk & [_ Hx]%list_elem_of_filter). cbn in Hk. subst k. by apply (list_elem_of_fmap_2 fst) in Hx.
  - case_decide; cbn [dict_get]; [|by auto]. apply String.eqb_neq in Hne. rewrite Hne. by auto.
Qed.

Lemma seq_legs_fields legs m :
  foldl (fun m (leg : Z * list (string * pyval)) => <[str_of_Z leg.1 := PDict leg.2]> m) (fields_of m) legs =
  fields_of (foldl (fun m (leg : Z * list (string * pyval)) => <[leg.1 := PDict leg.2]> m) m legs).
Proof. revert m. induction legs as [|leg legs IH]; intros m; [done|]. cbn [foldl]. by rewrite <- fields_of_insert, IH. Qed.

Definition closed_item (it : pending_item) (legs : gmap Z pyval) : pending_item :=
  with_source (sequence_evidence (item_rule it) legs (item_source it)) it.

(** One flush, for a join [k]. *)
Lemma sequence_step uw ur ud a s k st :
  dict_wf (pending a) -> Forall seq_ok (filter (fun kv => seq_item kv = true) (pending a)) -> holds k s st ->
  (forall it, dict_get k (pending a) = Some it -> seq_item (k, it) = true) ->
  let '(a', s', _) := apply_sequences uw ur ud a s in
  let '(st', out) := match dict_get k (pending a) with
                     | Some it => let '(st', closed) := seq_spec uw ur ud (h_now s) it st in (st', closed_item it <$> closed)
                     | None => (st, None)
                     end in
  h_now s' = h_now s /\ holds k s' st' /\ dict_get k (pending a') = out.
Proof.
  intros Hwf Hok Hh Hseq. unfold apply_sequences.
  set (targets := filter (fun kv => seq_item kv = true) (pending a)) in *.
  assert (dict_get k targets = dict_get k (pending a)) as Htk.
  { unfold targets. rewrite dict_get_filter by done. destruct (dict_get k (pending a)) as [it|]; [|done]. cbn.
    by rewrite decide_True by auto. }
  assert (NoDup targets.*1) as Hd by (eapply (sublist_NoDup _ _ Hwf), fmap_sublist, sublist_filter).
  assert (Forall (fun kv => dict_get kv.1 (pending a) = Some kv.2) targets) as Hg.
  { apply Forall_forall. intros [k' v] [_ Hin]%list_elem_of_filter. by apply dict_elem_get. }
  pose proof (fun v => settle_get v targets a k Hd Hg) as Hset. pose proof (write_targets targets s Hd Hok k) as [Wn We].
  rewrite Htk in Hset, We. clearbody targets. destruct targets as [|x l].
  { rewrite <- Htk. done. }
  set (targets := x :: l) in *. destruct (dict_get k (pending a)) as [it|] eqn:Hit.
  2: { assert (holds k (foldl write_legs s targets) st) as Hw by (unfold holds; by rewrite We, Wn).
       destruct uw; cbn [negb]; [|by rewrite Hset]. destruct ur; cbn [negb]; [|by rewrite Hset].
       rewrite Hset. destruct ud; [|done]. set (closed := filter _ targets).
       destruct (drop_targets closed (foldl write_legs s targets) k) as [D1 D2].
       rewrite D1, Wn. split_and!; [done| |done]. unfold holds. rewrite D1, D2, bool_decide_eq_false_2; [exact Hw|].
       intros ([k' v] & Hk' & [_ Hin]%list_elem_of_filter)%list_elem_of_fmap. cbn in Hk'. subst k'.
       apply dict_get_None in Htk. apply Htk. by apply (list_elem_of_fmap_2 fst) in Hin. }
  unfold seq_spec. set (legs := legs_after (h_now s) st (item_legs it)).
  destruct uw; cbn [negb]; [|by rewrite Hset].
  rewrite (holds_get _ _ _ Hh), seq_legs_fields in We. fold legs in We. change (foldl _ _ (item_legs it)) with legs in We.
  assert (seq_ok (k, it)) as [Hpos _] by (rewrite Forall_forall in Hok; apply Hok, dict_get_elem, Htk). cbn [snd] in Hpos.
  set (s1 := foldl write_legs s targets) in *. set (kept := Some (legs, h_now s + (window_seconds (item_rule it) + 5))).
  assert (holds k s1 kept) as Hkept.
  { unfold holds, kept. rewrite We, Wn. cbn. unfold hash_live. cbn. by destruct (Z.ltb_spec (h_now s) (h_now s + (window_seconds (item_rule it) + 5))); [|lia]. }
  destruct ur; cbn [negb]; [|by rewrite Hset].
  set (verdict := sequence_verdict _). assert (verdict k it =
    if Z.of_nat (size legs) <? legs_total (item_rule it) then inl "sequence_below" else inr (closed_item it legs)) as Hv.
  { unfold verdict, sequence_verdict. unfold h_get. rewrite We. cbn. by rewrite legs_seen_in_kmap. }
  set (closed := filter _ targets). destruct (drop_targets closed s1 k) as [D1 D2].
  assert (k ∈ closed.*1 <-> (Z.of_nat (size legs) <? legs_total (item_rule it)) = false) as Hin.
  { unfold closed. rewrite list_elem_of_fmap. split.
    - intros ([k' v] & Hk' & [Hst Hin]%list_elem_of_filter). cbn in Hk'. subst k'. apply (dict_elem_get k v targets) in Hin; [|done].
      rewrite Htk in Hin. injection Hin as <-. unfold stays in Hst. cbn [fst snd] in Hst. rewrite Hv in Hst. by destruct (_ <? _).
    - intros Hlt. exists (k, it). split; [done|]. apply list_elem_of_filter. split; [|by apply dict_get_elem].
      unfold stays. cbn [fst snd]. by rewrite Hv, Hlt. }
  rewrite Hset, Hv. destruct (Z.of_nat (size legs) <? legs_total (item_rule it)).
  - destruct ud; [|done]. rewrite D1, Wn. split_and!; [done| |done]. unfold holds. rewrite D1, D2, bool_decide_eq_false_2 by (by rewrite Hin).
    exact Hkept.
  - destruct ud; [|done]. rewrite D1, Wn. split_and!; [done| |done]. unfold holds. by rewrite D1, D2, bool_decide_eq_true_2 by (by rewrite Hin).
Qed.

(** A flush of a history: the time since the previous one, which commands of the
    stage reach Redis, and the keys it brings. *)
Record seq_flush := SeqFlush {
  sf_gap : Z;
  sf_write : bool;
  sf_read : bool;
  sf_delete : bool;
  sf_pending : list (string * pending_item);
}.

(** What becomes of the join [k] at each flush: nothing, or a detection. *)
Fixpoint run_sequences (k : string) (fs : list seq_flush) (s : S) : list (option pending_item) :=
  match fs with
  | [] => []
  | f :: rest =>
      let s := h_tick (sf_gap f) s in
      let '(a, s, _) := apply_sequences (sf_write f) (sf_read f) (sf_delete f) (set_pending (sf_pending f) new_accumulator) s in
      dict_get k (pending a) :: run_sequences k rest s
  end.
Fixpoint spec_sequences (k : string) (fs : list seq_flush) (now : Z) (st : seq_spec_state) : list (option pending_item) :=
  match fs with
  | [] => []
  | f :: rest =>
      let now := now + sf_gap f in
      match dict_get k (sf_pending f) with
      | None => None :: spec_sequences k rest now st
      | Some it =>
          let '(st, closed) := seq_spec (sf_write f) (sf_read f) (sf_delete f) now it st in
          (closed_item it <$> closed) :: spec_sequences k rest now st
      end
  end.

(** Time does not run backwards, a dict has each key once, the keys of a sequence
    bring a leg and have a window, and [k] is always one of them. *)
Definition seq_flush_ok (k : string) (f : seq_flush) : Prop :=
  0 <= sf_gap f /\ dict_wf (sf_pending f) /\ Forall seq_ok (filter (fun kv => seq_item kv = true) (sf_pending f)) /\
  forall it, dict_get k (sf_pending f) = Some it -> seq_item (k, it) = true.

(** What the documentation asks for: every leg seen within one window.  [sightings]:
    when each leg was last written since the last detection.  Whenever Redis answers
    and all the legs were written in the last [window] seconds, there is a
    detection. *)
Fixpoint none_missed (window : Z) (k : string) (fs : list seq_flush) (outs : list (option pending_item)) (now : Z) (sightings : gmap Z Z) : Prop :=
  match fs, outs with
  | f :: fs, out :: outs =>
      let now := now + sf_gap f in
      match dict_get k (sf_pending f) with
      | None => out = None /\ none_missed window k fs outs now sightings
      | Some it =>
          let sightings := if sf_write f then foldl (fun m (leg : Z * list (string * pyval)) => <[leg.1 := now]> m) sightings (item_legs it)
                           else sightings in
          (sf_write f = true -> sf_read f = true ->
           legs_total (item_rule it) <= Z.of_nat (size (filter (fun x : Z * Z => now - window <= x.2) sightings)) -> is_Some out) /\
          none_missed window k fs outs now (if out is Some _ then ∅ else sightings)
      end
  | _, _ => True
  end.

(** A sighting is in the hash until it is older than the window. *)
Definition sighted (window now : Z) (st : seq_spec_state) (sightings : gmap Z Z) : Prop :=
  forall i t, sightings !! i = Some t -> t <= now /\
    (t + (window + 5) <= now \/ exists m dl, st = Some (m, dl) /\ is_Some (m !! i) /\ t + (window + 5) <= dl).

Lemma foldl_insert_legs {A} (v : Z * list (string * pyval) -> A) (legs : list (Z * list (string * pyval))) : forall (m : gmap Z A) i,
  foldl (fun m leg => <[leg.1 := v leg]> m) m legs !! i = m !! i \/
  exists leg, leg ∈ legs /\ leg.1 = i /\ foldl (fun m leg => <[leg.1 := v leg]> m) m legs !! i = Some (v leg).
Proof.
  induction legs as [|leg legs IH]; intros m i; cbn [foldl]; [by left|].
  destruct (IH (<[leg.1 := v leg]> m) i) as [->|(x & Hx & Hi & ->)].
  - destruct (decide (leg.1 = i)) as [<-|Hne]; [|left; by rewrite lookup_insert_ne].
    right. exists leg. rewrite lookup_insert_eq. split_and!; [by left|done|done].
  - right. exists x. split_and!; [by right|done|done].
Qed.
Lemma foldl_insert_some {A} (v : Z * list (string * pyval) -> A) (legs : list (Z * list (string * pyval))) : forall (m : gmap Z A) i,
  is_Some (m !! i) \/ i ∈ legs.*1 -> is_Some (foldl (fun m leg => <[leg.1 := v leg]> m) m legs !! i).
Proof.
  induction legs as [|leg legs IH]; intros m i; cbn [foldl]; [by intros [?|?%elem_of_nil]|]. intros Hi. apply IH.
  destruct (decide (leg.1 = i)) as [<-|Hne]; [left; rewrite lookup_insert_eq; by eexists|]. rewrite lookup_insert_ne by done.
  destruct Hi as [Hi|[->|Hi]%elem_of_cons]; [by left|done|by right].
Qed.

(** A flush that writes keeps the sightings in the hash, the new ones included. *)
Lemma sighted_write window now0 now st sightings legs : now0 <= now -> 0 <= window + 5 -> sighted window now0 st sightings ->
  sighted window now (Some (legs_after now st legs, now + (window + 5)))
    (foldl (fun m (leg : Z * list (string * pyval)) => <[leg.1 := now]> m) sightings legs).
Proof.
  intros Hnow Hw Hs i t Hi.
  destruct (foldl_insert_legs (fun _ => now) legs sightings i) as [E|(leg & Hleg & <- & E)]; rewrite E in Hi.
  - destruct (Hs i t Hi) as [Ht [Hold|(m & dl & -> & Hm & Hdl)]]; (split; [lia|]); [left; lia|]. destruct (Z.leb_spec (t + (window + 5)) now); [by left|right].
    eexists _, _. split; [done|]. split; [|lia]. unfold legs_after. rewrite (proj2 (Z.ltb_lt now dl)) by lia.
    apply (foldl_insert_some (fun leg => PDict leg.2)). by left.
  - injection Hi as <-. split; [done|]. right. eexists _, _. split; [done|]. split; [|lia].
    apply (foldl_insert_some (fun leg => PDict leg.2)). right. by apply (list_elem_of_fmap_2 fst).
Qed.

Lemma sighted_size window now m sightings : 0 <= window + 5 -> sighted window now (Some (m, now + (window + 5))) sightings ->
  (size (filter (fun x : Z * Z => (now - window <= x.2)%Z) sightings) <= size m)%nat.
Proof.
  intros Hw Hs. rewrite <- !(size_dom (D := gset Z)). apply subseteq_size. intros i Hi%elem_of_dom.
  destruct Hi as [t [Ht Hle]%map_lookup_filter_Some]. cbn in Hle. apply elem_of_dom.
  destruct (Hs i t Ht) as [_ [?|(m' & dl & [= <- <-] & Hm & _)]]; [lia|done].
Qed.

Lemma spec_misses_none window k fs : forall now st sightings,
  Forall (seq_flush_ok k) fs ->
  Forall (fun f => forall it, dict_get k (sf_pending f) = Some it -> window_seconds (item_rule it) = window) fs ->
  sighted window now st sightings ->
  none_missed window k fs (spec_sequences k fs now st) now sightings.
Proof.
  induction fs as [|f fs IH]; intros now st sightings Hok Hwin Hs; [done|].
  apply Forall_cons in Hok as [(Hgap & Hwf & Hseq & Hk) Hok]. apply Forall_cons in Hwin as [Hw Hwin].
  assert (sighted window (now + sf_gap f) st sightings) as Hlater.
  { intros i t Hi. destruct (Hs i t Hi) as [? [?|?]]; (split; [lia|]); [left; lia|by right]. }
  cbn [spec_sequences none_missed]. destruct (dict_get k (sf_pending f)) as [it|] eqn:Hit.
  2: { split; [done|]. by apply IH. }
  specialize (Hw it eq_refl). assert (0 <= window + 5) as Hpos.
  { rewrite Forall_forall in Hseq. destruct (Hseq (k, it)) as [Hp _]; [|cbn in Hp; lia].
    apply list_elem_of_filter. split; [by apply Hk|by apply dict_get_elem]. }
  unfold seq_spec. rewrite Hw. destruct (sf_write f); cbn [negb fmap option_fmap option_map]; [|split; [done|by apply IH]].
  pose proof (sighted_write window now (now + sf_gap f) st sightings (item_legs it) ltac:(lia) Hpos Hs) as Hs'.
  pose proof (sighted_size _ _ _ _ Hpos Hs') as Hsize.
  destruct (sf_read f); cbn [negb fmap option_fmap option_map]; [|split; [done|by apply IH]].
  destruct (Z.ltb_spec (Z.of_nat (size (legs_after (now + sf_gap f) st (item_legs it)))) (legs_total (item_rule it)));
    cbn [fmap option_fmap option_map]; (split; [intros _ _ Hle; try lia; done|]).
  - by apply IH.
  - apply IH; [done|done|]. intros i t Hi. by rewrite lookup_empty in Hi.
Qed.

(** C29 [sequence_refines] (a sequence closes when its legs are there).  Over any
    history of flushes, whatever commands are lost, the join of a sequence gives
    a detection at exactly the flushes where the specification of the code closes it:
    a set of legs that grows with those of each flush, starts over once [window + 5]
    seconds have passed since the last flush that brought one, and closes when it
    holds every leg; the evidence lists the legs in order, those of earlier cycles
    included.  A flush without Redis gives none, and other joins never interfere.
    For the documented condition this means: when every leg was written within one
    window since the last detection, as long as the rule keeps its window, the
    detection is there; the converse, that every detection has its legs within one
    window, is documented and does not hold, since each leg renews the time
    ([sequence_longer_than_window]). *)
Theorem sequence_refines k fs s st window :
  holds k s st -> Forall (seq_flush_ok k) fs ->
  run_sequences k fs s = spec_sequences k fs (h_now s) st /\
  (Forall (fun f => forall it, dict_get k (sf_pending f) = Some it -> window_seconds (item_rule it) = window) fs ->
   none_missed window k fs (run_sequences k fs s) (h_now s) ∅).
Proof.
  intros Hh Hok. enough (run_sequences k fs s = spec_sequences k fs (h_now s) st) as Hrun.
  { split; [done|]. intros Hw. rewrite Hrun. apply spec_misses_none; [done|done|]. intros i t Hi. by rewrite lookup_empty in Hi. }
  revert s st Hh Hok. induction fs as [|f fs IH]; intros s st Hh Hok; [done|].
  apply Forall_cons in Hok as [(Hgap & Hwf & Hseq & Hk) Hok]. cbn [run_sequences spec_sequences].
  pose proof (sequence_step (sf_write f) (sf_read f) (sf_delete f) (set_pending (sf_pending f) new_accumulator)
    (h_tick (sf_gap f) s) k st Hwf Hseq (holds_tick _ _ _ _ Hgap Hh) Hk) as Hstep. cbn [pending set_pending] in Hstep.
  rewrite h_tick_now in Hstep. destruct (apply_sequences _ _ _ _ _) as [[a s'] n].
  destruct (dict_get k (sf_pending f)) as [it|].
  - destruct (seq_spec _ _ _ _ it st) as [st' closed]. destruct Hstep as (Hn & Hh' & Ho). by rewrite Ho, (IH s' st'), Hn.
  - destruct Hstep as (Hn & Hh' & Ho). by rewrite Ho, (IH s' st), Hn.
Qed.
End sequence_refinement.

(** ** No detection disappears *)

Section flush_accounting.
Context {S R : Type} `{RedisHash pyval S} `{Redis R}.
Context (absence_cfg : absence_settings) (cfg : inflight_settings) (organization_id now : Z) (w : flush_world).

Lemma prepare_balance (st : flush_state S R) :
  dict_wf (pending (fs_acc st)) ->
  let st' := prepare_flush absence_cfg cfg organization_id now w st in
  dict_wf (pending (fs_acc st')) /\ matched (fs_acc st') = matched (fs_acc st) /\ fs_table st' = fs_table st /\
  forall r, balance (fs_acc st') r = Z.of_nat (length (keys_of r (matching (pending (fs_acc st))))) + losses (fs_acc st) r.
Proof.
  intros Hwf. unfold prepare_flush.
  pose proof (fun r => presence_leaves absence_cfg organization_id now (fw_presence_read w) (fw_presence_write w) (fs_acc st) (fs_hashes st) r)
    as Hleaves.
  destruct (apply_absence_presence _ _ _ _ _ _ _) as [[a1 h1] n1]. cbn [fst] in *. destruct (Hleaves 0) as (P1 & P2 & _).
  pose proof (sequences_steady (fw_seq_write w) (fw_seq_read w) (fw_seq_delete w) a1 h1) as H2.
  destruct (apply_sequences _ _ _ a1 h1) as [[a2 h2] n2]. cbn [fst] in H2.
  pose proof (sliding_windows_steady (fw_window_write w) (fw_window_read w) now a2 (fs_windows st)) as H3.
  destruct (apply_sliding_windows _ _ now a2 (fs_windows st)) as [[a3 r3] n3]. cbn [fst] in H3. cbn [fs_acc fs_table].
  assert (dict_wf (pending a1)) as W1 by (rewrite P1; eapply (sublist_NoDup _ _ Hwf), fmap_sublist, sublist_filter).
  destruct (PreOrder_Transitive _ _ _ H2 (PreOrder_Transitive _ _ _ H3 (flush_cap_steady cfg a3)) W1) as (Q1 & Q2 & Q3).
  split_and!; [done|congruence|done|]. intros r. rewrite Q3. unfold balance. destruct (Hleaves r) as (_ & _ & ->). by rewrite P1.
Qed.

(** The keys of a rule that the flush committed. *)
Definition committed (r : Z) (written : list string) (a : accumulator) : list string :=
  filter (fun k => k ∈ written) (keys_of r (pending a)).

Lemma lose_unwritten_losses written a r :
  losses (lose_unwritten written a) r + Z.of_nat (length (committed r written a)) = balance a r /\
  pending (lose_unwritten written a) = pending a /\ matched (lose_unwritten written a) = matched a.
Proof.
  unfold lose_unwritten. rewrite losses_counted_all by (by apply in_losses). split.
  - unfold balance, committed. rewrite (keys_of_split r (fun kv => kv.1 ∈ written) (pending a)).
    enough (length (filter (fun k => k ∈ written) (keys_of r (pending a))) =
            length (keys_of r (filter (fun kv : string * pending_item => kv.1 ∈ written) (pending a)))) by lia.
    induction (pending a) as [|kv p IH]; [done|]. rewrite filter_cons, keys_of_cons.
    destruct (decide (of_rule r kv)), (decide (kv.1 ∈ written)); rewrite ?filter_cons, ?keys_of_cons;
      repeat case_decide; try contradiction; cbn [length]; lia.
  - apply count_errors_pending.
Qed.

(** C10 [flush_accounts] (a detection is written or its loss is counted).  Whatever
    fails during the flush of a cycle, every pending key of a rule that waits for
    matches (those of the rules that watch an absence only record that the value was
    seen) is either committed to the table of detections, once, or counted under
    exactly one of the reasons of loss, against its rule; the matches of the cycle
    are untouched.  The table gains one match for each committed key and for no
    other.  When the flush knows its tickets, they are, in order, the rows that it
    opened, each with the position, the rule, the severity and the evidence of its
    key, and the other committed keys are the suppressed ones. *)
Theorem flush_accounts (st : flush_state S R) st' written out :
  dict_wf (pending (fs_acc st)) -> counted_rows (fs_table st) ->
  write_matches absence_cfg cfg organization_id now w st = (st', written, out) ->
  (forall r, Z.of_nat (length (keys_of r (matching (pending (fs_acc st))))) + losses (fs_acc st) r =
     Z.of_nat (length (committed r written (fs_acc st'))) + losses (fs_acc st') r) /\
  matched (fs_acc st') = matched (fs_acc st) /\
  NoDup written /\
  (forall k, matches_for organization_id k (fs_table st') =
     matches_for organization_id k (fs_table st) + (if bool_decide (k ∈ written) then 1 else 0)) /\
  match out with
  | Some (emits, suppressed) =>
      (em_dedup_key <$> emits) `sublist_of` written /\
      length written = (length emits + suppressed)%nat /\
      length (fs_table st') = (length (fs_table st) + length emits)%nat /\
      Forall2 (ticket_row w organization_id (pending (fs_acc st')) (fs_table st')) (seq (length (fs_table st)) (length emits)) emits
  | None => written = [] /\ fs_table st' = fs_table st
  end.
Proof.
  intros Hwf Ht. unfold write_matches. destruct (prepare_balance st Hwf) as (Hnd & Hmat & Htab & Hbal). set (p := prepare_flush _ _ _ _ _ st) in *.
  assert (forall written, matched (lose_unwritten written (fs_acc p)) = matched (fs_acc st) /\ forall r,
     Z.of_nat (length (keys_of r (matching (pending (fs_acc st))))) + losses (fs_acc st) r =
     Z.of_nat (length (committed r written (lose_unwritten written (fs_acc p)))) + losses (lose_unwritten written (fs_acc p)) r) as Hlost.
  { intros written'. split; [by destruct (lose_unwritten_losses written' (fs_acc p) 0) as (_ & _ & ->)|].
    intros r. rewrite <- Hbal. destruct (lose_unwritten_losses written' (fs_acc p) r) as (<- & L2 & _). unfold committed. rewrite L2. lia. }
  assert (forall k, matches_for organization_id k (fs_table st) =
     matches_for organization_id k (fs_table st) + (if bool_decide (k ∈ []) then 1 else 0)) as Hnone.
  { intros k. rewrite bool_decide_eq_false_2 by apply not_elem_of_nil. lia. }
  destruct (pending (fs_acc p)) as [|x l] eqn:Hp.
  { intros [= <- <- <-]. rewrite Htab. split_and!; [|done|apply NoDup_nil_2|done|done|done].
    intros r. rewrite <- Hbal. unfold balance, committed. rewrite Hp. done. }
  destruct (fw_thread w); cbn [negb].
  2: { intros [= <- <- <-]. cbn [fs_acc fs_table]. rewrite Htab. destruct (Hlost []). split_and!; try done. apply NoDup_nil_2. }
  rewrite <- Hp in Hnd |- *. rewrite Htab. destruct (flush_sync w organization_id (pending (fs_acc p)) (fs_table st)) as [[[t' wr] emits] ok] eqn:Hs.
  destruct (flush_sync_spec _ _ _ _ _ _ _ _ Hnd Ht Hs) as ((rest & Hw & Hok) & Hk & Hsub & Hlen).
  pose proof (flush_sync_tickets _ _ _ _ _ _ _ _ Hnd Ht Hs) as Htick.
  assert (NoDup wr) as Hnw by (unfold dict_wf, dict_keys in Hnd; rewrite Hw in Hnd; by apply NoDup_app in Hnd as (? & _)).
  pose proof (sublist_length _ _ Hsub) as Hle. rewrite length_fmap in Hle.
  destruct ok; intros [= <- <- <-]; cbn [fs_acc fs_table].
  - rewrite (Hok eq_refl), app_nil_r in Hw.
    split_and!; [|done|done|done|done| |done|done].
    + intros r. rewrite <- Hbal. unfold balance, committed. do 2 f_equal. symmetry. f_equal. apply list_filter_all. rewrite <- Hw.
      apply Forall_forall. intros k Hin. unfold keys_of in Hin. eapply elem_of_sublist; [exact Hin|apply fmap_sublist, sublist_filter].
    + assert (length wr = length (pending (fs_acc p))) as <- by (by rewrite <- Hw, length_fmap). lia.
  - destruct (Hlost wr) as [L1 L2]. destruct (lose_unwritten_losses wr (fs_acc p) 0) as (_ & Lp & _). rewrite Lp.
    split_and!; try done. lia.
Qed.
End flush_accounting.

(** ** Examples *)

Definition demo_leg (i : Z) : compiled_inflight_rule :=
  CompiledInflightRule 9 "chain" 4 60 (Some ["raw"; "user"]) [] false None 1 60 (Some i) 3 "leg" false 0.
Definition demo_leg_item (i : Z) : pending_item :=
  let p := [("event_id", PInt i)] in PendingItem (demo_leg i) None p 1 "ana" [(i, p)].
Definition demo_legs : list seq_flush :=
  (fun i => SeqFlush 60 true true true [("k", demo_leg_item i)]) <$> [0; 1; 2].

(** Each leg renews the time of the join: three legs sixty seconds apart close a
    sequence whose window is sixty seconds. *)
Lemma sequence_longer_than_window :
  ((fun o : option pending_item => option_map item_hits o) <$> run_sequences "k" demo_legs mem_no_hashes) = [None; None; Some 1].
Proof. vm_compute. reflexivity. Qed.

(** The same legs twenty seconds apart: the documented condition holds at the third. *)
Definition demo_quick : list seq_flush :=
  (fun i => SeqFlush 20 true true true [("k", demo_leg_item i)]) <$> [0; 1; 2].
Lemma sequence_refines_witness :
  run_sequences "k" demo_quick mem_no_hashes = spec_sequences "k" demo_quick 0 None /\
  none_missed 60 "k" demo_quick (run_sequences "k" demo_quick mem_no_hashes) 0 ∅.
Proof.
  assert (Forall (fun f => forall it, dict_get "k" (sf_pending f) = Some it -> window_seconds (item_rule it) = 60) demo_quick) as Hw.
  { unfold demo_quick. repeat apply Forall_cons_2; [..|apply Forall_nil_2]; intros it Hit; cbn in Hit; injection Hit as <-; reflexivity. }
  enough (Forall (seq_flush_ok "k") demo_quick) as Hok.
  { destruct (sequence_refines "k" demo_quick mem_no_hashes None 60) as [Hr Hm]; [vm_compute; reflexivity|exact Hok|].
    split; [exact Hr|exact (Hm Hw)]. }
  unfold demo_quick. repeat apply Forall_cons_2; [..|apply Forall_nil_2];
    (split; [cbn; lia|split; [|split]]);
    [apply (bool_decide_unpack _); vm_compute; exact I| |intros it Hit; cbn in Hit; injection Hit as <-; reflexivity
    |apply (bool_decide_unpack _); vm_compute; exact I| |intros it Hit; cbn in Hit; injection Hit as <-; reflexivity
    |apply (bool_decide_unpack _); vm_compute; exact I| |intros it Hit; cbn in Hit; injection Hit as <-; reflexivity];
    vm_compute; repeat constructor; discriminate.
Defined.

Definition demo_counted (id mc win : Z) : compiled_inflight_rule :=
  CompiledInflightRule id "rule" 4 60 None [] true None mc win None 0 "" false 0.
Definition demo_flush_world : flush_world :=
  FlushWorld true true true true true true true true (fun k => negb (String.eqb k "c")) (fun _ => 1000).
Definition demo_cycle : accumulator :=
  set_pending [("w", PendingItem (demo_counted 1 3 60) None [] 2 "*" []);
               ("k", demo_leg_item 0);
               ("a", PendingItem (demo_counted 2 1 0) None [] 5 "*" []);
               ("b", PendingItem (demo_counted 3 1 0) None [] 1 "*" []);
               ("c", PendingItem (demo_counted 4 1 0) None [] 1 "*" [])] new_accumulator.
Definition demo_flush_state : flush_state (@mem_hash_store pyval) mem_store := FlushState demo_cycle mem_no_hashes mem_empty [].

(** Below the threshold, a leg short, committed twice, and one the database
    refused: every key is accounted for. *)
Definition demo_flush := write_matches demo_absence_settings (InflightSettings 8 3 9) 3 1000 demo_flush_world demo_flush_state.
Example demo_flush_losses :
  (fun r => losses (fs_acc demo_flush.1.1) r) <$> [1; 9; 2; 3; 4] = [1; 1; 0; 0; 1].
Proof. vm_compute. reflexivity. Qed.

Lemma flush_accounts_witness :
  demo_flush.1.2 = ["a"; "b"] /\
  (forall r, Z.of_nat (length (keys_of r (matching (pending demo_cycle)))) + losses demo_cycle r =
     Z.of_nat (length (committed r demo_flush.1.2 (fs_acc demo_flush.1.1))) + losses (fs_acc demo_flush.1.1) r) /\
  exists emits, demo_flush.2 = Some (emits, 0%nat) /\
    Forall2 (ticket_row demo_flush_world 3 (pending (fs_acc demo_flush.1.1)) (fs_table demo_flush.1.1)) [0; 1]%nat emits.
Proof.
  split; [vm_compute; reflexivity|].
  destruct (flush_accounts demo_absence_settings (InflightSettings 8 3 9) 3 1000 demo_flush_world demo_flush_state
    demo_flush.1.1 demo_flush.1.2 demo_flush.2) as (Hb & _ & _ & _ & Ho).
  - apply (bool_decide_unpack _). vm_compute. exact I.
  - apply Forall_nil_2.
  - reflexivity.
  - split; [exact Hb|]. eexists. split; [vm_compute; reflexivity|exact (proj2 (proj2 (proj2 Ho)))].
Defined.
