(* ===== verification/Emission.v ===== *)
(** * Detections as events

    Models the emission at the end of a flush ([inflight/runtime.py]): each
    detection that the flush created may leave as an OCSF event of class 2004,
    built by [build_detection_event] and handed to the routing ([Dispatch]).
    [flush_inflight] composes it after the writes of [Flush].

    The texts of the pointer are texts or null ([Detection]), the numbers of the
    evidence are integers, and building an event never fails.  The em dash of a
    message is outside the 8-bit text of the model, hence [EmDash]; accented
    letters are those of Latin-1. *)

From S2P Require Import Prelude PyVal Store Conditions Redaction Routing Dedupe Inflight Window Detection HashStore Detections Absence Flush Ocsf Envelope Dispatch.

Local Open Scope string_scope.
Local Open Scope list_scope.
Local Open Scope Z_scope.

Class EmDash := em_dash : ascii.

Definition DETECTION_EVENT_VENDOR : string := "centralops".
Definition DETECTION_EVENT_STREAM : string := "inflight_detection".
Definition CLASS_UID_DETECTION_FINDING : Z := 2004.
Definition CATEGORY_UID_FINDINGS : Z := 2.
Definition ACTIVITY_CREATE : Z := 1.
Definition STATUS_NEW : Z := 1.
Definition SEVERITY_HIGH : Z := 4.

Definition latin (n : nat) : string := String (ascii_of_nat n) "".
Definition e_circumflex : string := latin 234.
Definition a_acute : string := latin 225.

(** The versions and the host of an envelope, and the switches of the emission. *)
Record emission_config := EmissionConfig {
  OCSF_VERSION : string;
  ENVELOPE_SCHEMA_VERSION : string;
  collector_host : string;
  INFLIGHT_EMIT_OCSF_EVENT : bool;
  INFLIGHT_EMIT_MAX_EVENTS_PER_CYCLE : Z;
}.

Section emission.
Context `{FloatRepr} `{Ellipsis} `{EmDash} `{Blake2s} `{Sha256} `{JsonDumps} `{Sha1} `{EnvelopeBytes}.
Context (ec : emission_config) (organization_id now_ms : Z) (collected_at : string).

Definition text_field (k : string) (src : list (string * pyval)) : option string :=
  match dget k src with PStr s => Some s | _ => None end.
(** [int(d.get(k) or 0)]. *)
Definition int_field (k : string) (d : list (string * pyval)) : string :=
  match dget k d with PInt n => str_of_Z n | _ => "0" end.
(** [src.get(k) or default], in a text. *)
Definition shown (k other : string) (src : list (string * pyval)) : string := py_str (py_or (dget k src) (PStr other)).
(** A mapping of the source, when there is one and it is not empty. *)
Definition evidence (k : string) (src : list (string * pyval)) : option (list (string * pyval)) :=
  match dget k src with PDict (x :: d) => Some (x :: d) | _ => None end.

Definition detection_message (e : detection_emit) : string :=
  let src := em_source e in
  let rule := py_str (evidence_text (PStr (em_rule_name e))) in
  match evidence "absence" src with
  | Some a =>
      "Aus" +:+ e_circumflex +:+ "ncia: regra '" +:+ rule +:+ "' " +:+ String em_dash " " +:+
      shown "group_field" "chave" src +:+ "=" +:+ shown "group_value" "*" src +:+ " sem o evento esperado h" +:+ a_acute +:+ " " +:+
      int_field "silent_for_seconds" a +:+ " s (esperado a cada " +:+ int_field "expected_within_seconds" a +:+ " s)"
  | None =>
      match evidence "sequence" src with
      | Some s =>
          "Sequ" +:+ e_circumflex +:+ "ncia em voo '" +:+ rule +:+ "' fechou " +:+ int_field "legs" s +:+ " perna(s) em " +:+
          int_field "window_seconds" s +:+ " s (" +:+ shown "group_field" "join" src +:+ "=" +:+ shown "group_value" "*" src +:+ ")"
      | None =>
          "Regra em voo '" +:+ rule +:+ "' casou (" +:+ shown "group_field" "sem group_by" src +:+ "=" +:+
          shown "group_value" "*" src +:+ ")"
      end
  end%string.

Definition emitted_severity (e : detection_emit) : Z :=
  if bool_decide (em_severity_id e ∈ SEVERITY_IDS) then em_severity_id e else SEVERITY_HIGH.

Definition detection_context (e : detection_emit) : envelope_context :=
  let src := em_source e in
  EnvelopeContext DETECTION_EVENT_VENDOR (em_integration_id e) (Some organization_id) DETECTION_EVENT_STREAM DETECTION_EVENT_TYPE
    None (text_field "customer_name" src) (collector_host ec)
    (match text_field "platform" src with
     | Some s => if String.eqb s "" then Some DETECTION_EVENT_VENDOR else Some s
     | None => Some DETECTION_EVENT_VENDOR
     end)
    (Some organization_id) (text_field "organization_slug" src) (text_field "data_geography" src).

Definition leg_pointer (leg : list (string * pyval)) : pyval :=
  PDict ((fun k => (k, dget k leg)) <$>
         ["leg_index"; "event_id"; "stream"; "event_type"; "platform"; "event_time"; "group_field"]).

Definition detection_unmapped (e : detection_emit) : list (string * pyval) :=
  let src := em_source e in
  [("centralops_detection", PBool true); ("detection_id", opt_int (em_detection_id e)); ("dedup_key", PStr (em_dedup_key e));
   ("rule_id", PInt (em_rule_id e)); ("rule_name", evidence_text (PStr (em_rule_name e))); ("source", PStr "inflight");
   ("organization_id", PInt organization_id); ("integration_id", opt_int (em_integration_id e));
   ("source_event_id", dget "event_id" src); ("source_vendor", dget "vendor" src); ("source_platform", dget "platform" src);
   ("source_stream", dget "stream" src); ("source_event_type", dget "event_type" src); ("source_event_time", dget "event_time" src);
   ("source_class_uid", dget "event_class_uid" src); ("group_field", dget "group_field" src); ("group_value", dget "group_value" src)] ++
  (match evidence "absence" src with Some a => [("absence", PDict a)] | None => [] end) ++
  (match evidence "sequence" src with
   | Some s => [("sequence", PDict s);
                ("legs", PList (omap (fun v => match v with PDict leg => Some (leg_pointer leg) | _ => None end)
                   (match dget "legs" src with PList l => l | _ => [] end)))]
   | None => []
   end).

Definition detection_normalized (e : detection_emit) : list (string * pyval) :=
  let message := PStr (detection_message e) in
  [("class_uid", PInt CLASS_UID_DETECTION_FINDING); ("category_uid", PInt CATEGORY_UID_FINDINGS); ("activity_id", PInt ACTIVITY_CREATE);
   ("type_uid", PInt (CLASS_UID_DETECTION_FINDING * 100 + ACTIVITY_CREATE)); ("time", PInt now_ms);
   ("severity_id", PInt (emitted_severity e)); ("status_id", PInt STATUS_NEW);
   ("metadata", PDict [("version", PStr (OCSF_VERSION ec));
                       ("product", PDict [("name", PStr "CentralOps"); ("vendor_name", PStr "CentralOps")]);
                       ("logged_time", PInt now_ms)]);
   ("finding_info", PDict [("uid", PStr (em_dedup_key e)); ("title", evidence_text (PStr (em_rule_name e))); ("desc", message);
                           ("created_time", PInt now_ms);
                           ("types", PList (match evidence "absence" (em_source e) with
                                            | Some _ => [PStr "inflight"; PStr "absence"]
                                            | None => [PStr "inflight"]
                                            end))]);
   ("message", message); ("unmapped", PDict (detection_unmapped e))].

Definition detection_uid (e : detection_emit) : string :=
  match em_detection_id e with Some i => str_of_Z i | None => blake2s_hex (em_dedup_key e) end.

Definition build_detection_event (e : detection_emit) : envelope :=
  build_envelope (OCSF_VERSION ec) (ENVELOPE_SCHEMA_VERSION ec) collected_at [] (detection_normalized e) (detection_context e)
    ("inflight-det-" +:+ detection_uid e)%string.

(** ** The batch of a cycle *)

Record emission := Emission {
  em_batch : list (detection_emit * envelope);
  em_rule_opt_out : nat;
  em_loop_guard : nat;
  em_cycle_cap : nat;
}.

(** The loop; [n] is the size of the batch so far. *)
Fixpoint collect_events (n : nat) (emits : list detection_emit) : emission :=
  match emits with
  | [] => Emission [] 0 0 0
  | e :: rest =>
      if negb (INFLIGHT_EMIT_OCSF_EVENT ec) && negb (em_emit_event e) then
        let r := collect_events n rest in Emission (em_batch r) (S (em_rule_opt_out r)) (em_loop_guard r) (em_cycle_cap r)
      else if truthy (dget "self_emitted" (em_source e)) then
        let r := collect_events n rest in Emission (em_batch r) (em_rule_opt_out r) (S (em_loop_guard r)) (em_cycle_cap r)
      else if INFLIGHT_EMIT_MAX_EVENTS_PER_CYCLE ec <=? Z.of_nat n then
        let r := collect_events n rest in Emission (em_batch r) (em_rule_opt_out r) (em_loop_guard r) (S (em_cycle_cap r))
      else
        let r := collect_events (S n) rest in
        Emission ((e, build_detection_event e) :: em_batch r) (em_rule_opt_out r) (em_loop_guard r) (em_cycle_cap r)
  end.

(** The hand-off of the batch; when it raises, every event of it is counted. *)
Definition emit_detection_events (dc : dispatch_config) (opts : routing_options) (routes : list compiled_route) (dw : world)
    (emits : list detection_emit) (a : accumulator) : accumulator * emission * hand_off :=
  let r := collect_events 0 emits in
  match em_batch r with
  | [] => (a, r, no_hand_off)
  | batch =>
      match enqueue_dispatch dc opts routes dw (snd <$> batch) with
      | (h, Ok _) => (a, r, h)
      | (h, Raise _) =>
          (foldl (fun a (x : detection_emit * envelope) => count_error "emit_failed" (em_rule_id x.1) 1 a) a batch, r, h)
      end
  end.

(** ** The whole flush *)

Definition flush_inflight {S R : Type} `{RedisHash pyval S} `{Redis R} (absence_cfg : absence_settings) (cfg : inflight_settings)
    (now : Z) (w : flush_world) (dc : dispatch_config) (opts : routing_options) (routes : list compiled_route) (dw : world)
    (st : flush_state S R) : flush_state S R * hand_off :=
  let '(st, _, out) := write_matches absence_cfg cfg organization_id now w st in
  match out with
  | Some (emits, _) =>
      if INFLIGHT_EMIT_OCSF_EVENT ec || existsb em_emit_event emits then
        let '(a, _, h) := emit_detection_events dc opts routes dw emits (fs_acc st) in
        (FlushState a (fs_hashes st) (fs_windows st) (fs_table st), h)
      else (st, no_hand_off)
  | None => (st, no_hand_off)
  end.
End emission.

(** ** What leaves *)

(** The manifest's class of detection findings, as the OCSF schema has it. *)
Definition finding_class (registry : gmap Z ocsf_class_spec) : Prop :=
  forall spec, registry !! CLASS_UID_DETECTION_FINDING = Some spec ->
    spec_category_uid spec = CATEGORY_UID_FINDINGS /\ ACTIVITY_CREATE ∈ spec_activity_ids spec /\ STATUS_NEW ∈ spec_status_ids spec.

Section emission_theorems.
Context `{FloatRepr} `{Ellipsis} `{EmDash} `{Blake2s} `{Sha256} `{JsonDumps} `{Sha1} `{EnvelopeBytes}.
Context (ec : emission_config) (organization_id now_ms : Z) (collected_at : string).
Abbreviation build := (build_detection_event ec organization_id now_ms collected_at).
Abbreviation collect := (collect_events ec organization_id now_ms collected_at).

Lemma emitted_severity_valid e : emitted_severity e ∈ SEVERITY_IDS.
Proof.
  unfold emitted_severity. case_bool_decide; [done|]. apply (bool_decide_unpack _). vm_compute. exact I.
Qed.

Lemma build_passes_gate registry e :
  finding_class registry ->
  exists valid, gate_internal registry (build e) = Some (set_label "ocsf_valid" (PBool valid) (build e)).
Proof.
  intros Hf. set (n := detection_normalized ec organization_id now_ms e).
  assert (dget "_centralops" (build e) = PDict (event_labels (build e))) as Hcc by done.
  assert (dict_items (py_or (dget "normalized" (build e)) (PDict [])) = n) as Hn by done.
  assert (py_eq (dget "vendor" (event_labels (build e))) (PStr INTERNAL_PRODUCER_VENDOR) = true) as Hv by done.
  unfold gate_internal. rewrite Hcc, Hv, Hn. cbn [negb].
  unfold structural_gate.
  change (dget "class_uid" n) with (PInt CLASS_UID_DETECTION_FINDING). change (dget "category_uid" n) with (PInt CATEGORY_UID_FINDINGS).
  change (dget "severity_id" n) with (PInt (emitted_severity e)). change (dget "activity_id" n) with (PInt ACTIVITY_CREATE).
  change (dget "type_uid" n) with (PInt (derive_type_uid CLASS_UID_DETECTION_FINDING ACTIVITY_CREATE)). change (dget "status_id" n) with (PInt STATUS_NEW).
  cbn [ocsf_int]. change (CLASS_UID_DETECTION_FINDING <? 0) with false. cbn [negb].
  destruct (registry !! CLASS_UID_DETECTION_FINDING) as [spec|] eqn:Er; [|by exists false].
  destruct (Hf spec Er) as (Hc & Ha & Hs). rewrite Hc. cbn [enum_member ocsf_int].
  rewrite (bool_decide_eq_true_2 _ (emitted_severity_valid e)), (bool_decide_eq_true_2 _ Ha), (bool_decide_eq_true_2 _ Hs). by exists true.
Qed.

Lemma collect_spec emits : forall n,
  let r := collect n emits in
  length emits = (length (em_batch r) + em_rule_opt_out r + em_loop_guard r + em_cycle_cap r)%nat /\
  (Z.of_nat n + Z.of_nat (length (em_batch r)) <= Z.max (Z.of_nat n) (INFLIGHT_EMIT_MAX_EVENTS_PER_CYCLE ec)) /\
  sublist (fst <$> em_batch r) emits /\
  Forall (fun x => x.2 = build x.1 /\ truthy (dget "self_emitted" (em_source x.1)) = false /\
                   (INFLIGHT_EMIT_OCSF_EVENT ec = true \/ em_emit_event x.1 = true)) (em_batch r).
Proof.
  induction emits as [|e emits IH]; intros n; cbn [collect_events]; [split_and!; try done; cbn; lia|].
  destruct (IH n) as (I1 & I2 & I3 & I4). cbv zeta in *.
  destruct (negb (INFLIGHT_EMIT_OCSF_EVENT ec) && negb (em_emit_event e)) eqn:Hopt.
  { cbn [em_batch em_rule_opt_out em_loop_guard em_cycle_cap length]. split_and!; [lia|done|by apply sublist_cons|done]. }
  destruct (truthy (dget "self_emitted" (em_source e))) eqn:Hself.
  { cbn [em_batch em_rule_opt_out em_loop_guard em_cycle_cap length]. split_and!; [lia|done|by apply sublist_cons|done]. }
  destruct (Z.leb_spec (INFLIGHT_EMIT_MAX_EVENTS_PER_CYCLE ec) (Z.of_nat n)).
  { cbn [em_batch em_rule_opt_out em_loop_guard em_cycle_cap length]. split_and!; [lia|done|by apply sublist_cons|done]. }
  destruct (IH (S n)) as (J1 & J2 & J3 & J4).
  cbn [em_batch em_rule_opt_out em_loop_guard em_cycle_cap length fmap list_fmap fst]. split_and!; [lia|lia|by apply sublist_skip|].
  apply Forall_cons. split; [|done]. cbn. split_and!; [done|done|]. apply andb_false_iff in Hopt as [Ho|Ho]; apply negb_false_iff in Ho; auto.
Qed.

(** [emission_contract] (what leaves as an alert).  Of the detections that a
    flush created, each one either leaves as one event, or is counted as opted out,
    cut by the loop guard, or over the cap of the cycle, and the cap is never
    exceeded.  An event that leaves belongs to a rule that asked for it, or the
    global switch is on; it carries the tenant of the detection and none of the
    payload that matched; and the gate for the product's own events accepts it,
    whatever severity the rule was given. *)
Theorem emission_contract emits :
  let r := collect 0 emits in
  length emits = (length (em_batch r) + em_rule_opt_out r + em_loop_guard r + em_cycle_cap r)%nat /\
  Z.of_nat (length (em_batch r)) <= Z.max 0 (INFLIGHT_EMIT_MAX_EVENTS_PER_CYCLE ec) /\
  (forall e env, (e, env) ∈ em_batch r ->
     e ∈ emits /\ (INFLIGHT_EMIT_OCSF_EVENT ec = true \/ em_emit_event e = true) /\
     dget "raw" env = PDict [] /\ has_customer_id env = true /\
     dget "organization_id" (event_labels env) = PInt organization_id /\
     mapping_get "uid" (mapping_get "finding_info" (dget "normalized" env)) = PStr (em_dedup_key e) /\
     forall registry, finding_class registry -> is_Some (gate_internal registry env)).
Proof.
  intros r. destruct (collect_spec emits 0) as (C1 & C2 & C3 & C4). fold r in C1, C2, C3, C4. split_and!; [done|lia|].
  intros e env Hin. rewrite Forall_forall in C4. destruct (C4 _ Hin) as (Henv & _ & Hon). cbn [fst snd] in Henv, Hon. subst env.
  split_and!; [|done|done|done|done|done|].
  - eapply elem_of_sublist; [|exact C3]. by apply (list_elem_of_fmap_2 fst) in Hin.
  - intros registry Hf. destruct (build_passes_gate registry e Hf) as [v ->]. done.
Qed.

(** [emission_no_loop] (an alert never feeds itself).  When an event that the
    product emitted comes back, as it left, as the payload of another event, or
    with its normalized block as that payload, a rule that matches it points at an
    event of the product, and the detection it creates is never emitted. *)
Theorem emission_no_loop emits e back gp gv e' env' :
  back = PDict (build e) \/ mapping_get "raw" back = PDict (build e) \/
    mapping_get "raw" back = PDict (detection_normalized ec organization_id now_ms e) ->
  dget "self_emitted" (em_source e') = dget "self_emitted" (event_source_pointer back gp gv) ->
  (e', env') ∉ em_batch (collect 0 emits).
Proof.
  intros Hback Hself Hin. destruct (collect_spec emits 0) as (_ & _ & _ & C4). rewrite Forall_forall in C4.
  destruct (C4 _ Hin) as (_ & Hno & _). cbn [fst] in Hno. rewrite Hself in Hno.
  change (dget "self_emitted" (event_source_pointer back gp gv)) with (PBool (is_self_emitted back)) in Hno. cbn [truthy] in Hno.
  unfold is_self_emitted in Hno. destruct Hback as [->|[Hr|Hr]].
  - done.
  - rewrite Hr in Hno. apply orb_false_iff in Hno as [_ Hno]. done.
  - rewrite Hr in Hno. apply orb_false_iff in Hno as [_ Hno]. apply orb_false_iff in Hno as [_ Hno]. done.
Qed.
End emission_theorems.

(** ** Examples *)

Section examples.
#[local] Existing Instances demo_float_repr.
#[local] Instance demo_ellipsis_emit : Ellipsis := "."%char.
#[local] Instance demo_dash : EmDash := "-"%char.
#[local] Instance demo_blake_emit : Blake2s := fun _ => "0123456789abcdef".
#[local] Instance demo_sha_emit : Sha256 := fun s => s.
#[local] Instance demo_dumps_emit : JsonDumps := fun _ => "{}".
#[local] Instance demo_sha1_emit : Sha1 := fun _ => "0000002a".
#[local] Instance demo_bytes_emit : EnvelopeBytes := fun _ => 0.

Definition demo_emission : emission_config := EmissionConfig "1.8.0" "1" "host" false 1.
(** A rule with an invalid severity, one that did not ask, one whose event is the
    product's own, and one over the cap. *)
Definition demo_ticket (id : Z) (asked self : bool) : detection_emit :=
  DetectionEmit ("key" +:+ str_of_Z id)%string (Some id) id "rule" 42 None [("self_emitted", PBool self)] asked.
Definition demo_tickets : list detection_emit :=
  [demo_ticket 1 true false; demo_ticket 2 false false; demo_ticket 3 true true; demo_ticket 4 true false].
Definition demo_registry : gmap Z ocsf_class_spec := {[ 2004 := OcsfClassSpec "Detection Finding" 2 [0; 1; 2; 3; 99] [0; 1] [] ]}.
Definition demo_batch : emission := collect_events demo_emission 3 1000 "2026" 0 demo_tickets.

Lemma emission_contract_witness :
  finding_class demo_registry /\
  (fst <$> em_batch demo_batch) = [demo_ticket 1 true false] /\
  forall e env, (e, env) ∈ em_batch demo_batch -> is_Some (gate_internal demo_registry env).
Proof.
  assert (finding_class demo_registry) as Hf.
  { intros spec Hs. vm_compute in Hs. injection Hs as <-.
    split_and!; [reflexivity|apply (bool_decide_unpack _); vm_compute; exact I..]. }
  split; [exact Hf|]. split; [reflexivity|]. intros e env Hin.
  destruct (proj2 (proj2 (emission_contract demo_emission 3 1000 "2026" demo_tickets)) e env Hin) as (_ & _ & _ & _ & _ & _ & Hg).
  by apply Hg.
Defined.

(** The first event of the batch, ingested again as the payload of another. *)
Definition demo_returned : pyval := PDict [("raw", PDict (build_detection_event demo_emission 3 1000 "2026" (demo_ticket 1 true false)))].
Definition demo_echo : detection_emit := DetectionEmit "again" (Some 9) 1 "rule" 4 None (event_source_pointer demo_returned None None) true.
Lemma emission_no_loop_witness : (demo_echo, []) ∉ em_batch (collect_events demo_emission 3 1000 "2026" 0 [demo_echo]).
Proof.
  apply (emission_no_loop demo_emission 3 1000 "2026" [demo_echo] (demo_ticket 1 true false) demo_returned None None demo_echo []).
  - right. left. reflexivity.
  - reflexivity.
Defined.
End examples.
