(* ===== verification/EnrichDsl.v ===== *)
(** * The enrichment language

    Models [enrich/dsl.py], the compiler of an enrichment policy, with the
    registry of enrichers it consults ([enrich/registry.py], [enrich/contract.py]).
    A policy is a list of rules: a gate, the path of a key, the enricher that
    resolves it, and where the fields of its answer are written.  The compiler
    refuses what it does not know: its error is [EnrichmentConfigError]. *)

From S2P Require Import Prelude PyVal Conditions Predicates Operators Dedupe.

Local Open Scope string_scope.
Local Open Scope list_scope.
Local Open Scope Z_scope.

(** ** Enrichers *)

Definition KEY_KINDS : list string := ["ip"; "domain"; "url"; "file_hash"; "cve"; "mac"; "user"; "container_id"].
Definition ENRICHER_MODES : list string := ["local"; "remote"].
Definition EGRESS_KINDS : list string := ["none"; "internal"; "third_party"].

Record enricher_capabilities := EnricherCapabilities {
  cap_key_kinds : list string;
  cap_mode : string;
  cap_emits_pii : bool;
  cap_redistributable : bool;
  cap_egress : string;
}.
(** [__post_init__]. *)
Definition valid_capabilities (c : enricher_capabilities) : bool :=
  mem (cap_mode c) ENRICHER_MODES && mem (cap_egress c) EGRESS_KINDS &&
  forallb (fun k => mem k KEY_KINDS) (cap_key_kinds c) && negb (bool_decide (cap_key_kinds c = [])).

Record enricher_registration := EnricherRegistration {
  reg_name : string;
  reg_caps : enricher_capabilities;
  reg_required_secrets : list string;
  reg_output_fields : list string;
}.
Abbreviation enricher_registry := (gmap string enricher_registration).

(** [register]; the capabilities were checked when they were built. *)
Definition register (reg : enricher_registration) (embedded_dataset : bool) (r : enricher_registry) : result enricher_registry :=
  if negb (valid_capabilities (reg_caps reg)) then Raise EEnrichmentConfig
  else if str_blank (reg_name reg) then Raise EEnrichmentConfig
  else if cap_emits_pii (reg_caps reg) then Raise EPiiEnricherRefused
  else if embedded_dataset && negb (cap_redistributable (reg_caps reg)) then Raise EEnrichmentConfig
  else Ok (<[reg_name reg := reg]> r).

Definition require (r : enricher_registry) (name : string) : result enricher_registration :=
  match r !! name with Some reg => Ok reg | None => Raise EEnrichmentConfig end.

(** ** The vocabulary *)

Definition TARGET_ROOT : string := "_centralops.enrichment.".
Definition TAGS_PATH : list string := ["_centralops"; "enrichment_tags"].
Definition SOURCES_PATH : list string := ["_centralops"; "enrichment"; "_sources"].
Definition INERT_RULE_KEYS : list string := ["entry_ttl_s"].
Definition RULE_KEYS : list string :=
  ["id"; "enricher"; "table"; "source"; "key"; "when"; "outputs"; "tags"; "on_miss"; "on_multi"; "on_error"; "overwrite";
   "mode"; "ttl_s"; "negative_ttl_s"].
Definition KEY_KEYS : list string := ["source"; "kind"; "normalize"].
Definition OUTPUT_KEYS : list string := ["from"; "target"; "default"].
Definition ON_MISS : list string := ["skip"; "default"; "tag"].
Definition ON_MULTI : list string := ["first"; "error"; "array"].
Definition ON_ERROR : list string := ["skip"; "tag"].
Definition KEY_NORMALIZERS : list string := ["lower"; "upper"; "strip"; "defang"; "strip_port"].
Definition WHEN_KEYS : list string := ["exists"; "equals"; "in"; "not"; "has_tag"; "lacks_tag"].
Definition MAX_RULES : nat := 64.

Section enrich_dsl.
Context `{JmesPath} `{FastPath} `{FloatRepr}.

(** The gate of a rule: a predicate of the mapping language, or tags. *)
Inductive compiled_when :=
| WhenPredicate (predicate : compiled_predicate)
| WhenHasTags (tags : list string)
| WhenLacksTags (tags : list string).

Record compiled_output := CompiledOutput {
  from_field : string;
  out_target_path : list string;
  out_default : pyval;
  out_has_default : bool;
}.

Record compiled_enrich_rule := CompiledEnrichRule {
  er_rule_id : string;
  er_enricher : string;
  er_table : option string;
  er_source : option string;
  er_key_source : resolver;
  er_key_source_str : string;
  er_key_kind : string;
  er_key_normalizers : list string;
  er_when : option compiled_when;
  er_outputs : list compiled_output;
  er_tags : list string;
  er_on_miss : string;
  er_on_multi : string;
  er_on_error : string;
  er_overwrite : bool;
  er_mode : string;
  er_ttl_s : option Z;
  er_negative_ttl_s : option Z;
}.

Record compiled_policy := CompiledPolicy { policy_rules : list compiled_enrich_rule; policy_version : Z }.

Definition has_remote (p : compiled_policy) : bool := existsb (fun r => String.eqb (er_mode r) "remote") (policy_rules p).
Definition has_local (p : compiled_policy) : bool := existsb (fun r => String.eqb (er_mode r) "local") (policy_rules p).
Definition local_rules (p : compiled_policy) : list compiled_enrich_rule :=
  filter (fun r => String.eqb (er_mode r) "local" = true) (policy_rules p).
Definition remote_rules (p : compiled_policy) : list compiled_enrich_rule :=
  filter (fun r => String.eqb (er_mode r) "remote" = true) (policy_rules p).

(** ** The compiler *)

Definition config_error_if (b : bool) : result unit := raise_if b EEnrichmentConfig.

Definition reject_unknown (got : list (string * pyval)) (allowed : list string) : result unit :=
  config_error_if (negb (forallb (fun k => mem k allowed) (dict_keys got))).
Definition reject_inert (got : list (string * pyval)) : result unit :=
  config_error_if (existsb (fun k => dict_has k got) INERT_RULE_KEYS).

(** [isinstance(v, str) and v.strip()], stripped. *)
Definition required_text (v : pyval) : result string :=
  match v with PStr s => if str_blank s then Raise EEnrichmentConfig else Ok (str_strip s) | _ => Raise EEnrichmentConfig end.
(** A text that may be absent. *)
Definition optional_text (v : pyval) : result (option string) :=
  match v with PNone => Ok None | _ => s ← required_text v; Ok (Some s) end.
(** The stripped texts of a list that are not empty. *)
Definition stripped_texts (l : list pyval) : list string :=
  filter (fun s => s <> "") ((fun v => str_strip (py_str v)) <$> l).

Definition as_tag_tuple (raw : pyval) : result (list string) :=
  match raw with
  | PStr _ | PList (_ :: _) =>
      match stripped_texts (match raw with PList l => l | _ => [raw] end) with
      | [] => Raise EEnrichmentConfig
      | tags => Ok tags
      end
  | _ => Raise EEnrichmentConfig
  end.

Definition compile_when (raw : pyval) : result (option compiled_when) :=
  match raw with
  | PNone => Ok None
  | PDict d =>
      _ ← reject_unknown d WHEN_KEYS;
      match filter (fun k => dict_has k d = true) WHEN_KEYS with
      | [kind] =>
          if String.eqb kind "has_tag" then tags ← as_tag_tuple (dget "has_tag" d); Ok (Some (WhenHasTags tags))
          else if String.eqb kind "lacks_tag" then tags ← as_tag_tuple (dget "lacks_tag" d); Ok (Some (WhenLacksTags tags))
          else
            try_except (p ← compile_predicate raw; Ok (Some (WhenPredicate p))) (fun _ => true) (fun _ => Raise EEnrichmentConfig)
      | _ => Raise EEnrichmentConfig
      end
  | _ => Raise EEnrichmentConfig
  end.

Definition compile_target (raw : pyval) : result (list string) :=
  target ← required_text raw;
  _ ← config_error_if (negb (str_prefix TARGET_ROOT target));
  let parts := filter (fun p => p <> "") (str_split "." target) in
  match parts with
  | _ :: _ :: p :: _ =>
      if bool_decide (take 2 parts = take 2 SOURCES_PATH) && str_prefix "_" p then Raise EEnrichmentConfig else Ok parts
  | _ => Raise EEnrichmentConfig
  end.

Definition compile_key (registry : enricher_registry) (raw : pyval) (enricher_name : string)
  : result (resolver * string * string * list string) :=
  match raw with
  | PDict d =>
      _ ← reject_unknown d KEY_KEYS;
      source ← required_text (dget "source" d);
      resolver ← try_except (compile_source source) (fun _ => true) (fun _ => Raise EEnrichmentConfig);
      _ ← raise_if (negb (hashable (dget "kind" d))) EType;
      match dget "kind" d with
      | PStr kind =>
          _ ← config_error_if (negb (mem kind KEY_KINDS));
          reg ← require registry enricher_name;
          _ ← config_error_if (negb (mem kind (cap_key_kinds (reg_caps reg))));
          norms ← match py_or (dget "normalize" d) (PList []) with
                  | PStr s => Ok [s]
                  | PList l => Ok (py_str <$> l)
                  | _ => Raise EEnrichmentConfig
                  end;
          _ ← config_error_if (negb (forallb (fun n => mem n KEY_NORMALIZERS) norms));
          Ok (resolver, source, kind, norms)
      | _ => Raise EEnrichmentConfig
      end
  | _ => Raise EEnrichmentConfig
  end.

(** The loop over the outputs; [seen] holds the targets so far. *)
Fixpoint compile_outputs (reg : enricher_registration) (seen : list (list string)) (outs : list pyval)
  : result (list compiled_output) :=
  match outs with
  | [] => Ok []
  | PDict d :: rest =>
      _ ← reject_unknown d OUTPUT_KEYS;
      from ← required_text (dget "from" d);
      _ ← config_error_if (negb (bool_decide (reg_output_fields reg = [])) && negb (mem from (reg_output_fields reg)));
      target ← compile_target (dget "target" d);
      _ ← config_error_if (bool_decide (target ∈ seen));
      outs ← compile_outputs reg (target :: seen) rest;
      Ok (CompiledOutput from target (dget "default" d) (dict_has "default" d) :: outs)
  | _ :: _ => Raise EEnrichmentConfig
  end.

(** [_opt_int]. *)
Definition optional_int (v : pyval) : result (option Z) :=
  match v with
  | PNone => Ok None
  | _ =>
      n ← try_except (py_int v) (fun e => bool_decide (e = EType) || is_value_error e) (fun _ => Raise EEnrichmentConfig);
      _ ← config_error_if (n <? 0);
      Ok (Some n)
  end.

(** [str(raw.get(k, d))]. *)
Definition text_or (k d : string) (raw : list (string * pyval)) : string :=
  match dict_get k raw with Some v => py_str v | None => d end.

Definition compile_rule_tags (raw : pyval) : result (list string) :=
  match py_or raw (PList []) with
  | PStr s => Ok (stripped_texts [PStr s])
  | PList l => Ok (stripped_texts l)
  | _ => Raise EEnrichmentConfig
  end.

(** One rule; the identifiers seen so far are threaded through. *)
Definition compile_enrich_rule (registry : enricher_registry) (seen_ids : list string) (raw : pyval)
  : result compiled_enrich_rule :=
  match raw with
  | PDict d =>
      _ ← reject_inert d;
      _ ← reject_unknown d RULE_KEYS;
      rule_id ← required_text (dget "id" d);
      _ ← config_error_if (mem rule_id seen_ids);
      enricher ← required_text (dget "enricher" d);
      reg ← require registry enricher;
      key ← compile_key registry (dget "key" d) enricher;
      when ← compile_when (dget "when" d);
      outputs_raw ← match dget "outputs" d with PList (o :: l) => Ok (o :: l) | _ => Raise EEnrichmentConfig end;
      outputs ← compile_outputs reg [] outputs_raw;
      tags ← compile_rule_tags (dget "tags" d);
      let on_miss := text_or "on_miss" "skip" d in
      _ ← config_error_if (negb (mem on_miss ON_MISS));
      _ ← config_error_if (String.eqb on_miss "default" && negb (existsb out_has_default outputs));
      let on_multi := text_or "on_multi" "first" d in
      _ ← config_error_if (negb (mem on_multi ON_MULTI));
      let on_error := text_or "on_error" "skip" d in
      _ ← config_error_if (negb (mem on_error ON_ERROR));
      let mode := py_str (py_or (dget "mode" d) (PStr (cap_mode (reg_caps reg)))) in
      _ ← config_error_if (negb (mem mode ENRICHER_MODES));
      _ ← config_error_if (String.eqb mode "local" && String.eqb (cap_mode (reg_caps reg)) "remote");
      table ← optional_text (dget "table" d);
      source ← optional_text (dget "source" d);
      _ ← config_error_if (negb (bool_decide (reg_required_secrets reg = [])) && bool_decide (source = None));
      ttl ← optional_int (dget "ttl_s" d);
      negative_ttl ← optional_int (dget "negative_ttl_s" d);
      Ok (CompiledEnrichRule rule_id enricher table source key.1.1.1 key.1.1.2 key.1.2 key.2 when outputs tags on_miss on_multi
            on_error (truthy (dget "overwrite" d)) mode ttl negative_ttl)
  | _ => Raise EEnrichmentConfig
  end.

Fixpoint compile_enrich_rules (registry : enricher_registry) (seen_ids : list string) (raws : list pyval)
  : result (list compiled_enrich_rule) :=
  match raws with
  | [] => Ok []
  | raw :: rest =>
      r ← compile_enrich_rule registry seen_ids raw;
      rs ← compile_enrich_rules registry (er_rule_id r :: seen_ids) rest;
      Ok (r :: rs)
  end.

Definition compile_policy (registry : enricher_registry) (raw : pyval) : result compiled_policy :=
  parts ← match raw with
          | PList l => Ok (l, 1)
          | PDict d =>
              _ ← reject_unknown d ["version"; "enrichment"];
              rules ← match py_or (dget "enrichment" d) (PList []) with PList l => Ok l | _ => Raise EEnrichmentConfig end;
              version ← try_except (py_int (default (PInt 1) (dict_get "version" d)))
                          (fun e => bool_decide (e = EType) || is_value_error e) (fun _ => Raise EEnrichmentConfig);
              Ok (rules, version)
          | _ => Raise EEnrichmentConfig
          end;
  _ ← config_error_if (MAX_RULES <? length parts.1)%nat;
  rules ← compile_enrich_rules registry [] parts.1;
  Ok (CompiledPolicy rules parts.2).

Lemma str_prefix_split p s : str_prefix p s = true -> exists t, s = (p +:+ t)%string.
Proof.
  revert s; induction p as [|a p IH]; intros s Hs; [by exists s|].
  destruct s as [|b s]; [done|]. cbn in Hs. apply andb_true_iff in Hs as [->%Ascii.eqb_eq Hs].
  destruct (IH s Hs) as (t & ->). by exists t.
Qed.

(** ** What a compiled rule is *)

(** A target the applier may write: under [_centralops.enrichment], in a field
    that is not one of the runtime's own. *)
Definition target_ok (path : list string) : Prop :=
  exists f rest, path = "_centralops" :: "enrichment" :: f :: rest /\ str_prefix "_" f = false.

Definition output_ok (reg : enricher_registration) (o : compiled_output) : Prop :=
  target_ok (out_target_path o) /\ (reg_output_fields reg = [] \/ from_field o ∈ reg_output_fields reg).

Record rule_ok (ok_reg : enricher_registration) (r : compiled_enrich_rule) : Prop := RuleOk {
  ok_kind : er_key_kind r ∈ KEY_KINDS /\ er_key_kind r ∈ cap_key_kinds (reg_caps ok_reg);
  ok_normalizers : Forall (fun n => n ∈ KEY_NORMALIZERS) (er_key_normalizers r);
  ok_outputs : er_outputs r <> [] /\ Forall (output_ok ok_reg) (er_outputs r);
  ok_targets : NoDup (out_target_path <$> er_outputs r);
  ok_choices : er_on_miss r ∈ ON_MISS /\ er_on_multi r ∈ ON_MULTI /\ er_on_error r ∈ ON_ERROR /\ er_mode r ∈ ENRICHER_MODES;
  ok_default : er_on_miss r = "default" -> Exists (fun o => out_has_default o = true) (er_outputs r);
  ok_mode : er_mode r = "local" -> cap_mode (reg_caps ok_reg) <> "remote";
  ok_secrets : reg_required_secrets ok_reg <> [] -> er_source r <> None;
  ok_ttls : Forall (fun t => 0 <= t) (option_list (er_ttl_s r) ++ option_list (er_negative_ttl_s r));
}.
Definition rule_registered (registry : enricher_registry) (r : compiled_enrich_rule) : Prop :=
  exists reg, registry !! er_enricher r = Some reg /\ rule_ok reg r.

Lemma mem_elem k l : mem k l = true <-> k ∈ l.
Proof.
  unfold mem. rewrite existsb_exists, list_elem_of_In. split; [|intros Hk; exists k; by rewrite String.eqb_refl].
  by intros (x & Hx & ->%String.eqb_eq).
Qed.
Lemma config_error_if_ok b u : config_error_if b = Ok u -> b = false.
Proof. apply raise_if_ok. Qed.

Lemma stripped_texts_nonempty l : Forall (fun s => s <> "") (stripped_texts l).
Proof. apply Forall_forall. intros s Hs. by apply list_elem_of_filter in Hs as [? _]. Qed.

Lemma compile_target_ok raw path : compile_target raw = Ok path -> target_ok path.
Proof.
  unfold compile_target. intros H'. peel_bind H' as target Ht. peel_bind H' as u Hp.
  apply config_error_if_ok, negb_false_iff, str_prefix_split in Hp as (t & ->).
  change (str_split "." (TARGET_ROOT +:+ t)) with ("_centralops" :: "enrichment" :: str_split "." t) in H'.
  rewrite !filter_cons_True in H' by done. cbn zeta in H'.
  destruct (filter _ (str_split "." t)) as [|f rest] eqn:Ef; [done|].
  destruct (str_prefix "_" f) eqn:Hf; [by rewrite andb_true_r, bool_decide_eq_true_2 in H'|].
  rewrite andb_false_r in H'. injection H' as <-. by exists f, rest.
Qed.

Lemma compile_outputs_ok reg outs : forall seen os,
  compile_outputs reg seen outs = Ok os ->
  length os = length outs /\ Forall (output_ok reg) os /\ NoDup (out_target_path <$> os) /\
  Forall (fun o => out_target_path o ∉ seen) os.
Proof.
  induction outs as [|raw outs IH]; intros seen os; cbn [compile_outputs].
  { intros [= <-]. split_and!; [done|apply Forall_nil_2|apply NoDup_nil_2|apply Forall_nil_2]. }
  destruct raw as [| | | | | |d]; try done. intros H'.
  skip_bind H'. peel_bind H' as from Hfrom. peel_bind H' as u Hknown. peel_bind H' as target Ht. peel_bind H' as u' Hseen.
  peel_bind H' as os' Hos. injection H' as <-. apply IH in Hos as (Hl & Hok & Hnd & Hs).
  apply config_error_if_ok, bool_decide_eq_false in Hseen. apply config_error_if_ok, andb_false_iff in Hknown.
  split_and!; [cbn; congruence| | |].
  - apply Forall_cons_2; [|done]. split; [by eapply compile_target_ok|]. cbn.
    destruct Hknown as [Hk|Hk]; apply negb_false_iff in Hk; [left; by apply bool_decide_eq_true in Hk|right; by apply mem_elem].
  - cbn. apply NoDup_cons_2; [|done]. intros (o & Heq & Ho)%list_elem_of_fmap.
    rewrite Forall_forall in Hs. apply (Hs o Ho). rewrite <- Heq. left.
  - apply Forall_cons_2; [done|]. eapply Forall_impl; [exact Hs|]. cbn. intros o Hn Hin. apply Hn. by right.
Qed.

Lemma compile_key_ok registry raw name key :
  compile_key registry raw name = Ok key ->
  key.1.2 ∈ KEY_KINDS /\ Forall (fun n => n ∈ KEY_NORMALIZERS) key.2 /\
  (forall reg, registry !! name = Some reg -> key.1.2 ∈ cap_key_kinds (reg_caps reg)).
Proof.
  unfold compile_key, require. intros H'. destruct raw as [| | | | | |d]; try done.
  skip_bind H'. peel_bind H' as src Hsrc. peel_bind H' as r Hr. skip_bind H'.
  destruct (dget "kind" d) as [| | | |kind| |]; try done. peel_bind H' as u Hk. peel_bind H' as reg Hreg. peel_bind H' as u' Hkc.
  peel_bind H' as norms Hn. peel_bind H' as u2 Hnorms. injection H' as <-. cbn [fst snd].
  apply config_error_if_ok, negb_false_iff, mem_elem in Hk, Hkc. apply config_error_if_ok, negb_false_iff in Hnorms.
  split_and!; [done| |].
  - apply Forall_forall. intros n Hin. apply mem_elem. rewrite forallb_forall in Hnorms. apply Hnorms. by apply list_elem_of_In.
  - intros reg' Hreg'. rewrite Hreg' in Hreg. by injection Hreg as <-.
Qed.

Lemma optional_int_ok v o : optional_int v = Ok o -> Forall (fun t => 0 <= t) (option_list o).
Proof.
  unfold optional_int. intros H'. destruct v; [injection H' as <-; apply Forall_nil_2|..];
    peel_bind H' as n Hn; peel_bind H' as u Hu; injection H' as <-; apply config_error_if_ok, Z.ltb_ge in Hu;
    (apply Forall_cons_2; [done|apply Forall_nil_2]).
Qed.

Lemma compile_enrich_rule_ok registry seen raw r :
  compile_enrich_rule registry seen raw = Ok r -> rule_registered registry r /\ er_rule_id r ∉ seen.
Proof.
  unfold compile_enrich_rule. intros H'. destruct raw as [| | | | | |d]; try done.
  do 2 skip_bind H'. peel_bind H' as rule_id Hid. peel_bind H' as u1 Hseen. peel_bind H' as enricher He. peel_bind H' as reg Hreg.
  peel_bind H' as key Hkey. peel_bind H' as when_ Hw. peel_bind H' as outs Houts. peel_bind H' as outputs Ho. peel_bind H' as tags Htags.
  cbn zeta in H'. peel_bind H' as u2 Hmiss. peel_bind H' as u3 Hdef. peel_bind H' as u4 Hmulti. peel_bind H' as u5 Herr.
  peel_bind H' as u6 Hmode. peel_bind H' as u7 Hlocal. peel_bind H' as table Htable. peel_bind H' as source Hsource.
  peel_bind H' as u8 Hsec. peel_bind H' as ttl Httl. peel_bind H' as nttl Hnttl. injection H' as <-.
  apply compile_key_ok in Hkey as (Hk & Hn & Hc). apply compile_outputs_ok in Ho as (Hl & Hok & Hnd & _).
  apply optional_int_ok in Httl, Hnttl. unfold require in Hreg. destruct (registry !! enricher) as [reg'|] eqn:Er; [|done]. injection Hreg as <-.
  apply config_error_if_ok in Hseen, Hmiss, Hdef, Hmulti, Herr, Hmode, Hlocal, Hsec.
  apply negb_false_iff, mem_elem in Hmiss, Hmulti, Herr, Hmode. split.
  2: { cbn. intros Hin%mem_elem. congruence. }
  exists reg'. split; [done|].
  split; cbn [er_enricher er_key_kind er_key_normalizers er_outputs er_on_miss er_on_multi er_on_error er_mode er_source er_ttl_s er_negative_ttl_s];
    try done.
  - split; [done|]. by apply Hc.
  - split; [|done]. intros ->. destruct (dget "outputs" d) as [| | | | |[|o l]|]; try done. injection Houts as <-. done.
  - intros Hd. rewrite Hd, String.eqb_refl in Hdef. cbn [andb] in Hdef. apply negb_false_iff, existsb_exists in Hdef as (o & Hin & Hdo).
    apply Exists_exists. exists o. split; [by apply list_elem_of_In|done].
  - intros Hm. rewrite Hm, String.eqb_refl in Hlocal. cbn [andb] in Hlocal. by apply String.eqb_neq.
  - intros Hs ->. rewrite (bool_decide_eq_true_2 (None = None)) in Hsec by done. rewrite andb_true_r in Hsec.
    by apply negb_false_iff, bool_decide_eq_true in Hsec.
  - by apply Forall_app.
Qed.

Lemma compile_enrich_rules_ok registry raws : forall seen rs,
  compile_enrich_rules registry seen raws = Ok rs ->
  length rs = length raws /\ Forall (rule_registered registry) rs /\ NoDup (er_rule_id <$> rs) /\
  Forall (fun r => er_rule_id r ∉ seen) rs.
Proof.
  induction raws as [|raw raws IH]; intros seen rs; cbn [compile_enrich_rules].
  { intros [= <-]. split_and!; [done|apply Forall_nil_2|apply NoDup_nil_2|apply Forall_nil_2]. }
  intros H'. peel_bind H' as r Hr. peel_bind H' as rs' Hrs. injection H' as <-.
  apply compile_enrich_rule_ok in Hr as [Hok Hnin]. apply IH in Hrs as (Hl & Hoks & Hnd & Hs).
  split_and!; [cbn; congruence|by apply Forall_cons_2| |].
  - cbn. apply NoDup_cons_2; [|done]. intros (r' & Heq & Hr')%list_elem_of_fmap.
    rewrite Forall_forall in Hs. apply (Hs r' Hr'). rewrite <- Heq. left.
  - apply Forall_cons_2; [done|]. eapply Forall_impl; [exact Hs|]. cbn. intros r' Hn Hin. apply Hn. by right.
Qed.

Lemma local_remote_split p :
  Forall (fun r => er_mode r ∈ ENRICHER_MODES) (policy_rules p) -> local_rules p ++ remote_rules p ≡ₚ policy_rules p.
Proof.
  destruct p as [rs v]. unfold local_rules, remote_rules. cbn. induction 1 as [|r rs Hr Hrs IH]; [done|].
  unfold ENRICHER_MODES in Hr. apply elem_of_cons in Hr as [Hr|Hr%list_elem_of_singleton].
  - rewrite filter_cons_True, filter_cons_False by (by rewrite Hr). cbn. by rewrite IH.
  - rewrite filter_cons_False, filter_cons_True by (by rewrite Hr). by rewrite <- Permutation_middle, IH.
Qed.

Lemma compile_policy_rules registry raw p :
  compile_policy registry raw = Ok p ->
  Forall (rule_registered registry) (policy_rules p) /\ NoDup (er_rule_id <$> policy_rules p) /\
  (length (policy_rules p) <= MAX_RULES)%nat.
Proof.
  unfold compile_policy. intros H'. peel_bind H' as parts Hparts. peel_bind H' as u Hmax. peel_bind H' as rs Hrs. injection H' as <-.
  apply config_error_if_ok, Nat.ltb_ge in Hmax. apply compile_enrich_rules_ok in Hrs as (Hl & Hok & Hnd & _).
  split_and!; [done|done|cbn; lia].
Qed.

(** [compile_policy_typed] (what the appliers get has its type).  Every rule
    of a policy that compiles names a registered enricher and a kind of key that
    enricher resolves, normalizes its key with the known normalizers, writes at
    least one field, only fields the enricher says it returns, each under
    [_centralops.enrichment], outside the names the runtime reserves, and no two
    in the same place; takes its reactions from the closed sets, with a default
    to write when a miss is to write defaults; never runs an enricher that does
    I/O inside the pure applier; has a source when the enricher needs a secret;
    and has no negative time to live.  The rules' identifiers are distinct and
    there are at most 64 of them. *)
Theorem compile_policy_typed registry raw p :
  compile_policy registry raw = Ok p ->
  Forall (rule_registered registry) (policy_rules p) /\ NoDup (er_rule_id <$> policy_rules p) /\
  (length (policy_rules p) <= MAX_RULES)%nat /\
  local_rules p ++ remote_rules p ≡ₚ policy_rules p.
Proof.
  intros (Hok & Hnd & Hl)%compile_policy_rules. split_and!; [done..|]. apply local_remote_split.
  eapply Forall_impl; [exact Hok|]. intros r (reg & _ & Hr). apply (ok_choices _ _ Hr).
Qed.

(** ** What the compiler raises *)

(** The exceptions of a computation, bounded by a predicate. *)
Definition raises {A} (P : exn -> Prop) (m : result A) : Prop := forall e, m = Raise e -> P e.

Lemma raises_bind {A B} P (m : result A) (f : A -> result B) :
  raises P m -> (forall a, m = Ok a -> raises P (f a)) -> raises P (m ≫= f).
Proof. intros Hm Hf e [He|(a & Ha & He)]%result_bind_raise; [by apply Hm|by apply (Hf a)]. Qed.
Lemma raises_ok {A} P (a : A) : raises P (Ok a).
Proof. by intros e. Qed.
Lemma raises_raise {A} (P : exn -> Prop) e : P e -> raises P (Raise e : result A).
Proof. by intros He e' [= <-]. Qed.
Lemma raises_if (P : exn -> Prop) b e : (b = true -> P e) -> raises P (raise_if b e).
Proof. intros He e' [Hb <-]%raise_if_raise. by apply He. Qed.
Lemma raises_except {A} (P : exn -> Prop) (m : result A) (c : exn -> bool) (h : exn -> result A) :
  (forall e, m = Raise e -> if c e then raises P (h e) else P e) -> raises P (try_except m c h).
Proof.
  intros Hm e. unfold try_except. destruct m as [a|e0]; [done|]. specialize (Hm e0 eq_refl).
  destruct (c e0); [apply Hm|by intros [= <-]].
Qed.

Definition finite (v : pyval) : bool := match v with PFloat (S754_infinity _) => false | _ => true end.
Definition rules_of (raw : pyval) : list pyval :=
  match raw with
  | PList l => l
  | PDict d => match py_or (dget "enrichment" d) (PList []) with PList l => l | _ => [] end
  | _ => []
  end.
Definition kind_of (d : list (string * pyval)) : pyval := dget "kind" (dict_items (dget "key" d)).
(** The values no check of the compiler looks at before they are used: the kind
    of a key is hashed, a number is truncated. *)
Definition plain_rule (raw : pyval) : bool :=
  let d := dict_items raw in hashable (kind_of d) && finite (dget "ttl_s" d) && finite (dget "negative_ttl_s" d).
Definition plain_policy (raw : pyval) : bool :=
  forallb plain_rule (rules_of raw) && finite (default (PInt 1) (dict_get "version" (dict_items raw))).

Definition config_or (b : bool) (e : exn) : Prop := e = EEnrichmentConfig \/ b = false /\ (e = EType \/ e = EOverflow).
Lemma config_or_config b : config_or b EEnrichmentConfig.
Proof. by left. Qed.
Lemma config_or_weaken {A} b b' (m : result A) : (b = true -> b' = true) -> raises (config_or b') m -> raises (config_or b) m.
Proof.
  intros Hb Hm e He. destruct (Hm e He) as [->|[Hf Ho]]; [by left|right]. split; [|done]. destruct b; [|done]. by rewrite Hb in Hf.
Qed.
#[local] Hint Resolve raises_ok config_or_config : core.

Lemma config_if_raises b c : raises (config_or b) (config_error_if c).
Proof. by apply raises_if. Qed.
#[local] Hint Resolve config_if_raises : core.

(** Step through a computation: the checks raise the configuration error. *)
Ltac step_raises :=
  repeat first
    [ apply raises_bind; [solve [auto]|intros ? _]
    | apply raises_ok | apply config_if_raises | apply raises_raise, config_or_config ].

Lemma required_text_raises b v : raises (config_or b) (required_text v).
Proof. unfold required_text. destruct v; step_raises. destruct (str_blank _); step_raises. Qed.
Lemma optional_text_raises b v : raises (config_or b) (optional_text v).
Proof.
  destruct v; cbn [optional_text]; [step_raises|..]; (apply raises_bind; [apply required_text_raises|intros; step_raises]).
Qed.
Lemma as_tag_tuple_raises b v : raises (config_or b) (as_tag_tuple v).
Proof. unfold as_tag_tuple. destruct v as [| | | | |[|o l]|]; step_raises; destruct (stripped_texts _); step_raises. Qed.
Lemma require_raises b registry name : raises (config_or b) (require registry name).
Proof. unfold require. destruct (registry !! name); step_raises. Qed.
Lemma py_int_raises v :
  raises (config_or (finite v)) (try_except (py_int v) (fun e => bool_decide (e = EType) || is_value_error e) (fun _ => Raise EEnrichmentConfig)).
Proof.
  apply raises_except. intros e He. unfold py_int in He. destruct v as [| | |f|s| |]; try done; try (injection He as <-; cbn; step_raises).
  - destruct f as [|[]| |]; try done; injection He as <-; cbn; [right; auto|right; auto|step_raises].
  - destruct (py_int_of_str s); [done|]. injection He as <-. cbn. step_raises.
Qed.
Lemma optional_int_raises v : raises (config_or (finite v)) (optional_int v).
Proof.
  destruct v; cbn [optional_int]; [step_raises|..];
    (apply raises_bind; [apply py_int_raises|intros; step_raises]).
Qed.
#[local] Hint Resolve required_text_raises optional_text_raises as_tag_tuple_raises require_raises : core.

Lemma compile_when_raises b v : raises (config_or b) (compile_when v).
Proof.
  unfold compile_when, reject_unknown. destruct v as [| | | | | |d]; step_raises.
  destruct (filter _ WHEN_KEYS) as [|kind [|]]; step_raises.
  destruct (String.eqb kind "has_tag"); [step_raises|]. destruct (String.eqb kind "lacks_tag"); [step_raises|].
  apply raises_except. intros e _. step_raises.
Qed.
Lemma compile_target_raises b v : raises (config_or b) (compile_target v).
Proof.
  unfold compile_target. step_raises. cbn zeta. destruct (filter _ _) as [|? [|? [|? ?]]]; step_raises.
  destruct (_ && _); step_raises.
Qed.
#[local] Hint Resolve compile_when_raises compile_target_raises : core.

Lemma compile_outputs_raises b reg outs : forall seen, raises (config_or b) (compile_outputs reg seen outs).
Proof.
  induction outs as [|raw outs IH]; intros seen; cbn [compile_outputs]; [step_raises|].
  unfold reject_unknown. destruct raw; step_raises.
Qed.
Lemma compile_key_raises registry v name : raises (config_or (hashable (dget "kind" (dict_items v)))) (compile_key registry v name).
Proof.
  unfold compile_key, reject_unknown. destruct v as [| | | | | |d]; step_raises. cbn [dict_items].
  apply raises_bind; [apply raises_except; intros e _; step_raises|intros r _].
  apply raises_bind; [apply raises_if; intros Hh; right; split; [by apply negb_true_iff|by left]|intros u _].
  destruct (dget "kind" d); step_raises.
  destruct (py_or _ _); step_raises.
Qed.

Lemma compile_enrich_rule_raises registry seen raw : raises (config_or (plain_rule raw)) (compile_enrich_rule registry seen raw).
Proof.
  unfold compile_enrich_rule, reject_inert, reject_unknown. destruct raw as [| | | | | |d]; step_raises.
  assert (forall v b, (plain_rule (PDict d) = true -> b = true) -> raises (config_or b) (v : result (option Z)) ->
    raises (config_or (plain_rule (PDict d))) v) as Hw by (intros; by eapply config_or_weaken).
  apply raises_bind; [eapply config_or_weaken; [|apply compile_key_raises]; unfold plain_rule; cbn; intros Hp; by bool_simpl|intros key _].
  step_raises. apply raises_bind; [destruct (dget "outputs" d) as [| | | | |[]|]; step_raises|intros outs _].
  apply raises_bind; [apply compile_outputs_raises|intros os _].
  apply raises_bind; [unfold compile_rule_tags; destruct (py_or _ _); step_raises|intros tags _].
  cbn zeta. step_raises.
  apply raises_bind; [apply (Hw _ (finite (dget "ttl_s" d)));
    [unfold plain_rule; cbn; intros Hp; by bool_simpl|apply optional_int_raises]|intros ttl _].
  apply raises_bind; [apply (Hw _ (finite (dget "negative_ttl_s" d)));
    [unfold plain_rule; cbn; intros Hp; by bool_simpl|apply optional_int_raises]|intros nttl _].
  step_raises.
Qed.

Lemma compile_enrich_rules_raises registry raws : forall seen,
  raises (config_or (forallb plain_rule raws)) (compile_enrich_rules registry seen raws).
Proof.
  induction raws as [|raw raws IH]; intros seen; cbn [compile_enrich_rules forallb]; [step_raises|].
  apply raises_bind; [eapply config_or_weaken; [|apply compile_enrich_rule_raises]; intros Hp; by bool_simpl|intros r _].
  apply raises_bind; [eapply config_or_weaken; [|apply IH]; intros Hp; by bool_simpl|intros rs _]. step_raises.
Qed.

(** [compile_policy_errors] (a bad policy is refused with the compiler's own
    error).  Whatever document is compiled against whatever registry, the failure
    is [EnrichmentConfigError], the error the API answers 422 to, unless a rule's
    kind of key is not hashable or a number of the document is infinite: those
    values are used before they are checked, and raise [TypeError] and
    [OverflowError]. *)
Theorem compile_policy_errors registry raw e :
  compile_policy registry raw = Raise e ->
  e = EEnrichmentConfig \/ plain_policy raw = false /\ (e = EType \/ e = EOverflow).
Proof.
  assert (raises (config_or (plain_policy raw)) (compile_policy registry raw)) as Hr; [|apply Hr].
  assert (forall rules version,
    raises (config_or (forallb plain_rule rules))
      (_ ← config_error_if (MAX_RULES <? length rules)%nat;
       rs ← compile_enrich_rules registry [] rules; Ok (CompiledPolicy rs version))) as Hrules.
  { intros rules version. step_raises. apply raises_bind; [apply compile_enrich_rules_raises|intros; step_raises]. }
  unfold compile_policy, reject_unknown, plain_policy. destruct raw as [| | | | |l|d]; try (intros e0 [= <-]; apply config_or_config).
  - cbn [rules_of]. eapply config_or_weaken; [|apply (Hrules l 1)]. intros Hp. by bool_simpl.
  - cbn [rules_of dict_items].
    apply raises_bind.
    + step_raises. apply raises_bind; [destruct (py_or _ _); step_raises|intros rules _].
      apply raises_bind; [|intros; step_raises]. eapply config_or_weaken; [|apply py_int_raises]. intros Hp. by bool_simpl.
    + intros [rules version] Ha. skip_bind Ha. peel_bind Ha as l Hl. peel_bind Ha as v Hv. injection Ha as <- <-.
      destruct (py_or _ _); try done. injection Hl as ->.
      eapply config_or_weaken; [|apply (Hrules l v)]. intros Hp. by bool_simpl.
Qed.
End enrich_dsl.

(** ** Examples *)

Section examples.
#[local] Existing Instances demo_jmes demo_float_repr.
#[local] Instance demo_enrich_fast : FastPath := true.

Definition demo_registry : enricher_registry :=
  {[ "table" := EnricherRegistration "table" (EnricherCapabilities ["ip"; "domain"] "local" false true "none") [] [];
     "reputation" := EnricherRegistration "reputation" (EnricherCapabilities ["ip"; "file_hash"] "remote" false false "third_party")
                       ["api_key"] ["score"; "verdict"] ]}.
Definition demo_local_rule : pyval :=
  PDict [("id", PStr "site"); ("enricher", PStr "table"); ("table", PStr "sites");
         ("key", PDict [("source", PStr "normalized.src_ip"); ("kind", PStr "ip"); ("normalize", PStr "strip_port")]);
         ("outputs", PList [PDict [("from", PStr "site"); ("target", PStr "_centralops.enrichment.site")]]);
         ("tags", PList [PStr "known"])].
Definition demo_remote_rule (source kind ttl : pyval) : pyval :=
  PDict [("id", PStr "reputation"); ("enricher", PStr "reputation"); ("source", source);
         ("key", PDict [("source", PStr "normalized.src_ip"); ("kind", kind)]);
         ("when", PDict [("has_tag", PStr "known")]);
         ("outputs", PList [PDict [("from", PStr "score"); ("target", PStr "_centralops.enrichment.ti.score"); ("default", PInt 0)]]);
         ("on_miss", PStr "default"); ("ttl_s", ttl)].
Definition demo_document (source kind ttl : pyval) : pyval :=
  PDict [("enrichment", PList [demo_local_rule; demo_remote_rule source kind ttl])].

Definition demo_compiled : compiled_policy :=
  match compile_policy demo_registry (demo_document (PStr "vt") (PStr "ip") (PInt 60)) with Ok p => p | Raise _ => CompiledPolicy [] 0 end.
Lemma demo_compiles : compile_policy demo_registry (demo_document (PStr "vt") (PStr "ip") (PInt 60)) = Ok demo_compiled.
Proof. vm_compute. reflexivity. Qed.

Lemma compile_policy_typed_witness :
  er_rule_id <$> policy_rules demo_compiled = ["site"; "reputation"] /\ er_rule_id <$> remote_rules demo_compiled = ["reputation"] /\
  Forall (rule_registered demo_registry) (policy_rules demo_compiled).
Proof.
  destruct (compile_policy_typed demo_registry _ _ demo_compiles) as (Ht & _).
  split; [vm_compute; reflexivity|]. split; [vm_compute; reflexivity|exact Ht].
Defined.

(** The secret needs a source; a list for a kind escapes the compiler's error. *)
Lemma compile_policy_errors_witness :
  compile_policy demo_registry (demo_document PNone (PStr "ip") PNone) = Raise EEnrichmentConfig /\
  plain_policy (demo_document (PStr "vt") (PList []) PNone) = false /\
  compile_policy demo_registry (demo_document (PStr "vt") (PList []) PNone) = Raise EType.
Proof.
  assert (compile_policy demo_registry (demo_document (PStr "vt") (PList []) PNone) = Raise EType) as E by (vm_compute; reflexivity).
  split; [vm_compute; reflexivity|]. split; [|exact E].
  destruct (compile_policy_errors demo_registry _ EType E) as [He|[Hp _]]; [discriminate He|exact Hp].
Defined.

(** An infinite time to live raises [OverflowError], which nothing catches. *)
Lemma infinite_ttl_escapes :
  compile_policy demo_registry (demo_document (PStr "vt") (PStr "ip") (PFloat (S754_infinity false))) = Raise EOverflow.
Proof. reflexivity. Qed.
End examples.
