(* ===== verification/EnrichApply.v ===== *)
(** * The enrichment applier

    Models [enrich/applier.py]: the only code of the feature that runs on every
    event.  A rule whose gate passes takes its key from the envelope, asks a
    resolution for the key's value, and writes the fields it was told to under
    [_centralops.enrichment], with the rule that wrote them.  The module raises
    nothing: what the resolution raises is counted.

    An envelope is the entries of its dictionary.  The values the resolution
    gives are shared between events; the applier copies the lists and dictionaries
    it writes, so nothing here is written through a shared value and the functions
    below thread the envelope alone. *)

From S2P Require Import Prelude PyVal Conditions Predicates Operators Dedupe EnrichDsl.

Local Open Scope string_scope.
Local Open Scope list_scope.
Local Open Scope Z_scope.

(** ** Text *)

(** [s.replace(old, new)] for a text [old] that is not empty; [skip] characters
    belong to the occurrence just replaced. *)
Fixpoint replace_text (old new : string) (skip : nat) (s : string) : string :=
  match s with
  | EmptyString => EmptyString
  | String a s' =>
      match skip with
      | S n => replace_text old new n s'
      | O => if str_prefix old s then (new +:+ replace_text old new (String.length old - 1) s')%string
             else String a (replace_text old new 0 s')
      end
  end.
(** [s.find(c)]. *)
Fixpoint find_char (c : ascii) (s : string) : option nat :=
  match s with
  | EmptyString => None
  | String a s' => if Ascii.eqb a c then Some 0%nat else S <$> find_char c s'
  end.
(** [s.count(c)]. *)
Fixpoint count_char (c : ascii) (s : string) : nat :=
  match s with
  | EmptyString => 0
  | String a s' => (if Ascii.eqb a c then 1 else 0) + count_char c s'
  end%nat.

Definition defang_pairs : list (string * string) :=
  [("[.]", "."); ("(.)", "."); ("[:]", ":"); ("hxxp://", "http://"); ("hxxps://", "https://")].

Definition strip_port (s : string) : string :=
  if str_prefix "[" s then
    match find_char "]" s with
    | Some (S close) => str_take close (str_drop 1 s)
    | _ => s
    end
  else if (count_char ":" s =? 1)%nat then str_take (default 0%nat (find_char ":" s)) s
  else s.

Definition normalize_one (norm : string) (out : string) : string :=
  if String.eqb norm "lower" then str_lower out
  else if String.eqb norm "upper" then str_upper out
  else if String.eqb norm "strip" then str_strip out
  else if String.eqb norm "defang" then foldl (fun s p => replace_text p.1 p.2 0 s) out defang_pairs
  else if String.eqb norm "strip_port" then strip_port out
  else out.
Definition normalize_key (value : string) (normalizers : list string) : string :=
  foldl (fun out norm => normalize_one norm out) value normalizers.

(** ** Paths *)

Abbreviation envelope := (list (string * pyval)).

(** [_get_path]. *)
Fixpoint get_in (cur : pyval) (path : list string) : pyval :=
  match path with
  | [] => cur
  | part :: rest =>
      match cur with
      | PDict d => match dget part d with PNone => PNone | v => get_in v rest end
      | _ => PNone
      end
  end.

(** [_set_path]; [None] is its [False].  Every path it is called on has a field. *)
Fixpoint set_in (d : envelope) (path : list string) (value : pyval) : option envelope :=
  match path with
  | [] => None
  | part :: rest =>
      match rest with
      | [] => Some (dict_set part value d)
      | _ :: _ =>
          match match dget part d with PNone => Some [] | PDict c => Some c | _ => None end with
          | Some child => (fun child' => dict_set part (PDict child') d) <$> set_in child rest value
          | None => None
          end
      end
  end.

(** A value, or [None] when the key has none; [false] first when this resolution
    does not answer for the rule. *)
Abbreviation resolution := (string -> string -> result (bool * pyval)).

Section applier.
Context `{JmesPath} `{FastPath} `{FloatRepr}.

Record apply_stats := ApplyStats {
  events_touched : Z;
  st_hits : gmap string Z;
  st_misses : gmap string Z;
  st_skipped : gmap string Z;
  st_errors : gmap string Z;
}.
Definition no_stats : apply_stats := ApplyStats 0 ∅ ∅ ∅ ∅.
Definition bump (rule_id : string) (bucket : gmap string Z) : gmap string Z :=
  <[rule_id := default 0 (bucket !! rule_id) + 1]> bucket.
Definition bump_hit (id : string) (s : apply_stats) : apply_stats :=
  ApplyStats (events_touched s) (bump id (st_hits s)) (st_misses s) (st_skipped s) (st_errors s).
Definition bump_miss (id : string) (s : apply_stats) : apply_stats :=
  ApplyStats (events_touched s) (st_hits s) (bump id (st_misses s)) (st_skipped s) (st_errors s).
Definition bump_skipped (id : string) (s : apply_stats) : apply_stats :=
  ApplyStats (events_touched s) (st_hits s) (st_misses s) (bump id (st_skipped s)) (st_errors s).
Definition bump_error (id : string) (s : apply_stats) : apply_stats :=
  ApplyStats (events_touched s) (st_hits s) (st_misses s) (st_skipped s) (bump id (st_errors s)).

(** ** The key and the gate *)

Definition extract_key (env : envelope) (rule : compiled_enrich_rule) : option string :=
  match search (er_key_source rule) (PDict env) with
  | Raise _ | Ok (PNone | PBool _ | PList _ | PDict _) => None
  | Ok raw =>
      let key := str_strip (normalize_key (match raw with PStr s => s | _ => py_str raw end) (er_key_normalizers rule)) in
      if String.eqb key "" then None else Some key
  end.

Definition current_tags (env : envelope) : list string :=
  match get_in (PDict env) TAGS_PATH with
  | PList l => omap (fun t => match t with PStr s => Some s | _ => None end) l
  | _ => []
  end.

Definition evaluate_when (when_ : compiled_when) (env : envelope) : bool :=
  match when_ with
  | WhenHasTags tags => forallb (fun t => mem t (current_tags env)) tags
  | WhenLacksTags tags => negb (existsb (fun t => mem t (current_tags env)) tags)
  | WhenPredicate p => evaluate_predicate p (PDict env)
  end.
Definition gate (rule : compiled_enrich_rule) (env : envelope) : bool :=
  match er_when rule with Some w => evaluate_when w env | None => true end.

(** ** Writing *)

Definition list_at (path : list string) (env : envelope) : list pyval :=
  match get_in (PDict env) path with PList l => l | _ => [] end.

Definition add_tag (cur : list pyval) (tag : string) : list pyval :=
  if existsb (py_eq (PStr tag)) cur then cur else cur ++ [PStr tag].
Definition add_tags (env : envelope) (tags : list string) : envelope :=
  match tags with
  | [] => env
  | _ :: _ => default env (set_in env TAGS_PATH (PList (foldl add_tag (list_at TAGS_PATH env) tags)))
  end.

Definition source_entry (rule : compiled_enrich_rule) : pyval :=
  PDict ([("rule", PStr (er_rule_id rule)); ("enricher", PStr (er_enricher rule))] ++
         match er_table rule with
         | Some t => if String.eqb t "" then [] else [("table", PStr t)]
         | None => []
         end).
Definition add_source (env : envelope) (rule : compiled_enrich_rule) : envelope :=
  default env (set_in env SOURCES_PATH (PList (list_at SOURCES_PATH env ++ [source_entry rule]))).

(** The value an output writes: the answer's field, or the default on a miss. *)
Definition output_payload (out : compiled_output) (value : option envelope) (use_defaults : bool) : pyval :=
  match value ≫= dict_get (from_field out) with
  | Some payload => payload
  | None => if use_defaults && out_has_default out then out_default out else PNone
  end.
Definition write_output (rule : compiled_enrich_rule) (value : option envelope) (use_defaults : bool)
    (acc : envelope * bool) (out : compiled_output) : envelope * bool :=
  let payload := output_payload out value use_defaults in
  if is_none payload then acc
  else if negb (er_overwrite rule) && negb (is_none (get_in (PDict acc.1) (out_target_path out))) then acc
  else match set_in acc.1 (out_target_path out) payload with
       | Some env => (env, true)
       | None => acc
       end.
Definition write_outputs (env : envelope) (rule : compiled_enrich_rule) (value : option envelope) (use_defaults : bool)
  : envelope * bool :=
  foldl (write_output rule value use_defaults) (env, false) (er_outputs rule).

(** ** One rule, one event *)

(** One field of several rows, as a list. *)
Definition column (rows : list pyval) (out : compiled_output) : list pyval :=
  omap (fun row => match row with
                   | PDict d => let v := dget (from_field out) d in if is_none v then None else Some v
                   | _ => None
                   end) rows.
Definition merge_rows (rows : list pyval) (outs : list compiled_output) : envelope :=
  foldl (fun merged out => match column rows out with [] => merged | vals => dict_set (from_field out) (PList vals) merged end) [] outs.

(** The row to write, out of an answer that may hold several. *)
Definition answer_row (rule : compiled_enrich_rule) (value : pyval) : option envelope :=
  match value with
  | PDict d => Some d
  | PList rows =>
      if String.eqb (er_on_multi rule) "array" then
        match merge_rows rows (er_outputs rule) with [] => None | merged => Some merged end
      else head (omap (fun row => match row with PDict d => Some d | _ => None end) rows)
  | _ => None
  end.

Definition unknown_tags (rule : compiled_enrich_rule) : list string :=
  match er_tags rule with
  | [] => ["enrich_unknown"]
  | tags => (fun t => (t +:+ "_unknown")%string) <$> tags
  end.

(** What is written when something was found, or the defaults when it was not. *)
Definition commit (env : envelope) (rule : compiled_enrich_rule) (value : option envelope) (use_defaults : bool) : envelope * bool :=
  let w := write_outputs env rule value use_defaults in
  if w.2 then (add_source (if use_defaults then w.1 else add_tags w.1 (er_tags rule)) rule, true) else w.

(** [on_error = "tag"]. *)
Definition error_tag (env : envelope) (rule : compiled_enrich_rule) (tag : string) : envelope * bool :=
  if String.eqb (er_on_error rule) "tag" then (add_tags env [tag], true) else (env, false).

Definition apply_miss (env : envelope) (rule : compiled_enrich_rule) : envelope * bool :=
  if String.eqb (er_on_miss rule) "skip" then (env, false)
  else if String.eqb (er_on_miss rule) "tag" then (add_tags env (unknown_tags rule), true)
  else commit env rule None true.

(** The body of the loop: the envelope and whether it was touched, and the counters. *)
Definition apply_one_rule (resolve : resolution) (rule : compiled_enrich_rule) (env : envelope) (s : apply_stats)
  : (envelope * bool) * apply_stats :=
  let id := er_rule_id rule in
  if negb (gate rule env) then ((env, false), s)
  else match extract_key env rule with
  | None => ((env, false), s)
  | Some key =>
      match resolve id key with
      | Raise _ => (error_tag env rule "enrich_degraded", bump_error id s)
      | Ok (false, _) => ((env, false), bump_skipped id s)
      | Ok (true, PNone) => (apply_miss env rule, bump_miss id s)
      | Ok (true, value) =>
          if is_list value && String.eqb (er_on_multi rule) "error" then (error_tag env rule "enrich_ambiguous", bump_error id s)
          else match answer_row rule value with
               | None => ((env, false), bump_miss id s)
               | Some row => (commit env rule (Some row) false, bump_hit id s)
               end
      end
  end.

Definition touch (touched : bool) (s : apply_stats) : apply_stats :=
  if touched then ApplyStats (events_touched s + 1) (st_hits s) (st_misses s) (st_skipped s) (st_errors s) else s.

Fixpoint apply_rules (resolve : resolution) (rules : list compiled_enrich_rule) (env : envelope) (touched : bool) (s : apply_stats)
  : (envelope * bool) * apply_stats :=
  match rules with
  | [] => ((env, touched), s)
  | rule :: rest =>
      let r := apply_one_rule resolve rule env s in
      apply_rules resolve rest r.1.1 (touched || r.1.2) r.2
  end.
Definition apply (env : envelope) (rules : list compiled_enrich_rule) (resolve : resolution) (s : apply_stats)
  : (envelope * bool) * apply_stats :=
  let r := apply_rules resolve rules env false s in (r.1, touch r.1.2 r.2).
End applier.

(** ** Paths: what a write changes *)

Lemma get_in_none path : get_in PNone path = PNone.
Proof. by destruct path. Qed.
Lemma get_in_cons d k rest : get_in (PDict d) (k :: rest) = get_in (dget k d) rest.
Proof. cbn [get_in]. destruct (dget k d); by rewrite ?get_in_none. Qed.

Lemma get_in_app_none t q : forall v, get_in v t = PNone -> get_in v (t ++ q) = PNone.
Proof.
  induction t as [|k t IH]; intros v; cbn [get_in app]; [intros ->; apply get_in_none|].
  destruct v as [| | | | | |d]; try done. destruct (dget k d); try done; intros Hv; by apply IH.
Qed.

(** One level of a write: the entry it replaces. *)
Lemma set_in_inv d k rest v d' :
  set_in d (k :: rest) v = Some d' ->
  exists w, d' = dict_set k w d /\
    (rest = [] /\ w = v \/
     exists child child', (dget k d = PDict child \/ dget k d = PNone /\ child = []) /\
       set_in child rest v = Some child' /\ w = PDict child').
Proof.
  cbn [set_in]. destruct rest as [|k' rest]; [intros [= <-]; exists v; eauto|].
  destruct (dget k d) as [| | | | | |c] eqn:Ek; try done; intros (c' & Hc & ->)%fmap_Some;
    exists (PDict c'); (split; [done|right]); eexists _, c'; (split; [by eauto|done]).
Qed.

Lemma dget_set_eq k w (d : envelope) : dget k (dict_set k w d) = w.
Proof. unfold dget. by rewrite dict_get_set_eq. Qed.
Lemma dget_set_ne k k' w (d : envelope) : k <> k' -> dget k (dict_set k' w d) = dget k d.
Proof. intros Hk. unfold dget. by rewrite dict_get_set_ne. Qed.

Lemma set_in_get path : forall d v d', set_in d path v = Some d' -> get_in (PDict d') path = v.
Proof.
  induction path as [|k rest IH]; intros d v d'; [done|].
  intros (w & -> & [[-> ->]|(c & c' & _ & Hc & ->)])%set_in_inv; rewrite get_in_cons, dget_set_eq; [done|]. by eapply IH.
Qed.

(** A path that neither reaches the one written nor leads to it reads the same. *)
Lemma set_in_disjoint path : forall d v d' p,
  set_in d path v = Some d' -> ~ path `prefix_of` p -> ~ p `prefix_of` path -> get_in (PDict d') p = get_in (PDict d) p.
Proof.
  induction path as [|k rest IH]; intros d v d' p; [done|]. intros Hs Hp Hp'.
  apply set_in_inv in Hs as (w & -> & Hw). destruct p as [|k' p]; [by destruct Hp'; apply prefix_nil|].
  rewrite !get_in_cons. destruct (decide (k' = k)) as [->|Hk]; [|by rewrite dget_set_ne].
  rewrite dget_set_eq. destruct Hw as [[-> ->]|(c & c' & Hc & Hs & ->)]; [by destruct Hp; apply prefix_cons, prefix_nil|].
  rewrite (IH _ _ _ p Hs).
  - destruct Hc as [->|[-> ->]]; [done|]. destruct p; [by destruct Hp'; apply prefix_cons, prefix_nil|]. by rewrite get_in_cons, get_in_none.
  - intros Hx. apply Hp. by apply prefix_cons.
  - intros Hx. apply Hp'. by apply prefix_cons.
Qed.

(** A value that is there and is no dictionary stays, unless the path reaches it. *)
Lemma set_in_keeps path : forall d v d' p,
  set_in d path v = Some d' -> ~ path `prefix_of` p ->
  is_none (get_in (PDict d) p) = false -> is_mapping (get_in (PDict d) p) = false ->
  get_in (PDict d') p = get_in (PDict d) p.
Proof.
  intros d v d' p Hs Hp Hn Hm. apply (set_in_disjoint path d v); [done|done|]. intros Hpre.
  revert d v d' p Hs Hp Hn Hm Hpre. induction path as [|k rest IH]; intros d v d' p Hs Hp Hn Hm Hpre; [done|].
  destruct p as [|k' p]; [done|]. pose proof (prefix_cons_inv_1 _ _ _ _ Hpre) as ->. apply prefix_cons_inv_2 in Hpre.
  apply set_in_inv in Hs as (w & -> & [[-> ->]|(c & c' & Hc & Hs & ->)]); [by apply Hp, prefix_cons, prefix_nil|].
  rewrite get_in_cons in Hn, Hm. destruct Hc as [Hc|[Hc _]]; rewrite Hc in Hn, Hm; [|by rewrite get_in_none in Hn].
  apply (IH c v c' p Hs); [|done|done|done]. intros Hx. by apply Hp, prefix_cons.
Qed.

(** ** The writes of the applier, as steps *)

Section props.
Context `{JmesPath} `{FastPath} `{FloatRepr}.

(** What one write may be.  Tags and sources are only ever extended; an output
    is written where there is nothing, unless its rule overwrites. *)
Inductive write_step (rules : list compiled_enrich_rule) : envelope -> envelope -> Prop :=
| write_tags env env' tags :
    set_in env TAGS_PATH (PList (list_at TAGS_PATH env ++ tags)) = Some env' -> write_step rules env env'
| write_source env env' rule :
    rule ∈ rules -> set_in env SOURCES_PATH (PList (list_at SOURCES_PATH env ++ [source_entry rule])) = Some env' ->
    write_step rules env env'
| write_field env env' rule out payload :
    rule ∈ rules -> out ∈ er_outputs rule -> is_none payload = false ->
    er_overwrite rule = true \/ get_in (PDict env) (out_target_path out) = PNone ->
    set_in env (out_target_path out) payload = Some env' -> write_step rules env env'.
Abbreviation writes rules := (rtc (write_step rules)).

Lemma add_tags_step rules env tags : writes rules env (add_tags env tags).
Proof.
  unfold add_tags. destruct tags as [|t tags]; [done|].
  destruct (set_in env TAGS_PATH _) as [env'|] eqn:Hs; [|done]. apply rtc_once.
  assert (forall ts cur, exists new, foldl add_tag cur ts = cur ++ new) as Hf.
  { induction ts as [|t' ts IH]; intros cur; [exists []; by rewrite app_nil_r|]. cbn [foldl]. unfold add_tag at 2.
    destruct (existsb _ cur); [apply IH|]. destruct (IH (cur ++ [PStr t'])) as (new & ->). exists (PStr t' :: new).
    by rewrite <- app_assoc. }
  destruct (Hf (t :: tags) (list_at TAGS_PATH env)) as (new & Hn). rewrite Hn in Hs. by eapply write_tags.
Qed.
Lemma add_source_step rules rule env : rule ∈ rules -> writes rules env (add_source env rule).
Proof.
  intros Hr. unfold add_source. destruct (set_in env SOURCES_PATH _) as [env'|] eqn:Hs; [|done]. apply rtc_once. by eapply write_source.
Qed.

Lemma write_outputs_step rules rule value use_defaults env :
  rule ∈ rules -> writes rules env (write_outputs env rule value use_defaults).1.
Proof.
  intros Hr. unfold write_outputs.
  assert (forall outs env0 b, (forall o, o ∈ outs -> o ∈ er_outputs rule) ->
    writes rules env0 (foldl (write_output rule value use_defaults) (env0, b) outs).1) as Hf; [|by apply Hf].
  induction outs as [|out outs IH]; intros env0 b Hin; [done|]. cbn [foldl].
  assert (forall o, o ∈ outs -> o ∈ er_outputs rule) as Hin' by (intros; apply Hin; by right).
  unfold write_output at 2. cbn [fst]. destruct (is_none (output_payload _ _ _)) eqn:Hp; [by apply IH|].
  destruct (negb (er_overwrite rule) && _) eqn:Hw; [by apply IH|].
  destruct (set_in env0 _ _) as [env1|] eqn:Hs; [|by apply IH].
  eapply rtc_l; [|by apply IH]. eapply (write_field _ _ _ rule out); [done|apply Hin; left|exact Hp| |exact Hs].
  apply andb_false_iff in Hw as [Hw|Hw]; apply negb_false_iff in Hw; [by left|right]. by destruct (get_in _ _).
Qed.

Lemma commit_step rules rule value use_defaults env :
  rule ∈ rules -> writes rules env (commit env rule value use_defaults).1.
Proof.
  intros Hr. unfold commit. pose proof (write_outputs_step rules rule value use_defaults env Hr) as Hw.
  destruct (write_outputs _ _ _ _) as [env1 []]; cbn in *; [|done].
  etrans; [exact Hw|]. etrans; [|by apply add_source_step]. destruct use_defaults; [done|apply add_tags_step].
Qed.

Lemma error_tag_step rules env rule tag : writes rules env (error_tag env rule tag).1.
Proof. unfold error_tag. destruct (String.eqb _ _); [apply add_tags_step|done]. Qed.
#[local] Hint Resolve rtc_refl add_tags_step add_source_step commit_step error_tag_step : core.

Lemma apply_one_rule_step rules resolve rule env s :
  rule ∈ rules -> writes rules env (apply_one_rule resolve rule env s).1.1.
Proof.
  intros Hr. unfold apply_one_rule, apply_miss. destruct (gate rule env); [|done]. cbn [negb].
  destruct (extract_key env rule) as [key|]; [|done].
  destruct (resolve (er_rule_id rule) key) as [[[] value]|e]; cbn [fst]; [|done|auto].
  destruct value; cbn [fst]; repeat case_match; subst; cbn [fst]; auto.
Qed.

Lemma apply_rules_step rules resolve : forall rs env touched s,
  (forall r, r ∈ rs -> r ∈ rules) -> writes rules env (apply_rules resolve rs env touched s).1.1.
Proof.
  induction rs as [|rule rs IH]; intros env touched s Hin; [done|]. cbn [apply_rules].
  etrans; [|apply IH; intros; apply Hin; by right]. apply apply_one_rule_step, Hin. left.
Qed.
Lemma apply_steps rules resolve env s : writes rules env (apply env rules resolve s).1.1.
Proof. by apply apply_rules_step. Qed.

(** ** What a write leaves alone *)

(** The targets of the rules, wherever they come from. *)
Definition targets_ok (rules : list compiled_enrich_rule) : Prop :=
  forall rule out, rule ∈ rules -> out ∈ er_outputs rule -> target_ok (out_target_path out).

(** A path no write of the applier reaches or passes through. *)
Definition outside (p : list string) : Prop :=
  match p with
  | k :: l :: _ => k <> "_centralops" \/ (l <> "enrichment" /\ l <> "enrichment_tags")
  | [k] => k <> "_centralops"
  | [] => False
  end.

(** The shape of every path written. *)
Lemma write_step_path rules env env' :
  targets_ok rules -> write_step rules env env' ->
  exists l rest v, (l = "enrichment" /\ rest <> [] \/ l = "enrichment_tags" /\ rest = []) /\
    set_in env ("_centralops" :: l :: rest) v = Some env'.
Proof.
  intros Ht [? ? tags Hs|? ? rule Hr Hs|? ? rule out payload Hr Ho _ _ Hs].
  - exists "enrichment_tags", [], (PList (list_at TAGS_PATH env0 ++ tags)). split; [by right|exact Hs].
  - exists "enrichment", ["_sources"], (PList (list_at SOURCES_PATH env0 ++ [source_entry rule])). split; [by left|exact Hs].
  - destruct (Ht rule out Hr Ho) as (f & rest & Hp & _). rewrite Hp in Hs.
    exists "enrichment", (f :: rest), payload. split; [by left|exact Hs].
Qed.

Lemma set_in_pop d k rest v d' : set_in d (k :: rest) v = Some d' -> dict_pop k d' = dict_pop k d.
Proof.
  intros (w & -> & _)%set_in_inv. unfold dict_pop. induction d as [|[k' v'] d IH]; cbn.
  - by rewrite decide_False by (by rewrite String.eqb_refl).
  - destruct (String.eqb k k') eqn:E; cbn; rewrite ?filter_cons; cbn; rewrite ?E, ?String.eqb_refl; repeat case_decide; try done; by f_equal.
Qed.

Lemma write_step_frame rules env env' :
  targets_ok rules -> write_step rules env env' ->
  dict_pop "_centralops" env' = dict_pop "_centralops" env /\
  forall p, outside p -> get_in (PDict env') p = get_in (PDict env) p.
Proof.
  intros Ht (l & rest & v & Hl & Hs)%write_step_path; [|done]. split; [by apply set_in_pop in Hs|].
  intros p Hp. apply (set_in_disjoint _ _ _ _ p Hs).
  - intros [q ->]. cbn in Hp. naive_solver.
  - intros [q Hq]. destruct p as [|k [|l' p]]; cbn in Hp, Hq; [done|by injection Hq as <- _|].
    injection Hq as <- <- _. naive_solver.
Qed.

Lemma write_step_keeps rules env env' p :
  targets_ok rules -> Forall (fun r => er_overwrite r = false) rules -> write_step rules env env' ->
  ~ TAGS_PATH `prefix_of` p -> ~ SOURCES_PATH `prefix_of` p ->
  is_none (get_in (PDict env) p) = false -> is_mapping (get_in (PDict env) p) = false ->
  get_in (PDict env') p = get_in (PDict env) p.
Proof.
  intros Ht Ho Hw Hp1 Hp2 Hn Hm. destruct Hw as [x x' tags Hs|x x' rule Hr Hs|x x' rule out payload Hr Hout _ Hex Hs].
  1,2: by apply (set_in_keeps _ _ _ _ p Hs).
  apply (set_in_keeps _ _ _ _ p Hs); [|done|done]. intros [q ->].
  rewrite Forall_forall in Ho. rewrite (Ho rule Hr) in Hex. destruct Hex as [?|Hex]; [done|].
  by rewrite (get_in_app_none _ _ _ Hex) in Hn.
Qed.

Lemma compiled_targets_ok registry raw p rules :
  compile_policy registry raw = Ok p -> rules ⊆ policy_rules p -> targets_ok rules.
Proof.
  intros Hp Hsub rule out Hr Ho. pose proof (compile_policy_rules registry raw p Hp) as (Hok & _).
  rewrite Forall_forall in Hok. destruct (Hok rule (Hsub _ Hr)) as (reg & _ & Hrule).
  destruct (ok_outputs _ _ Hrule) as [_ Hall]. rewrite Forall_forall in Hall. apply (Hall out Ho).
Qed.

(** ** Sources and counters *)

Definition enrichment_sources (env : envelope) : list pyval := list_at SOURCES_PATH env.
(** The paths the list of tags does not touch. *)
Definition beside_tags (p : list string) : Prop := ~ TAGS_PATH `prefix_of` p /\ ~ p `prefix_of` TAGS_PATH.

Lemma add_tags_beside env tags p : beside_tags p -> get_in (PDict (add_tags env tags)) p = get_in (PDict env) p.
Proof.
  intros [Hp Hp']. unfold add_tags. destruct tags as [|t tags]; [done|]. destruct (set_in env TAGS_PATH _) eqn:Hs; [|done].
  by apply (set_in_disjoint _ _ _ _ p Hs).
Qed.
Lemma sources_beside_tags : beside_tags SOURCES_PATH.
Proof. split; apply (bool_decide_unpack _); vm_compute; exact I. Qed.
Lemma add_tags_sources env tags : enrichment_sources (add_tags env tags) = enrichment_sources env.
Proof. unfold enrichment_sources, list_at. by rewrite add_tags_beside by apply sources_beside_tags. Qed.

(** The object of the enrichment fields is there. *)
Definition has_fields (env : envelope) : Prop := exists c, get_in (PDict env) ["_centralops"; "enrichment"] = PDict c.
Lemma has_fields_set env v : has_fields env -> exists env', set_in env SOURCES_PATH v = Some env'.
Proof.
  intros (c & Hc). rewrite get_in_cons in Hc. cbn [SOURCES_PATH set_in].
  destruct (dget "_centralops" env) as [| | | | | |d]; try done. rewrite get_in_cons in Hc. cbn [get_in] in Hc.
  unfold SOURCES_PATH. cbn [set_in]. rewrite Hc. eexists. reflexivity.
Qed.

Lemma write_output_cases rule value use_defaults env b out :
  write_output rule value use_defaults (env, b) out = (env, b) \/
  exists env' payload, set_in env (out_target_path out) payload = Some env' /\ write_output rule value use_defaults (env, b) out = (env', true).
Proof.
  unfold write_output. cbn [fst]. destruct (is_none (output_payload _ _ _)); [by left|]. destruct (negb (er_overwrite rule) && _); [by left|].
  destruct (set_in env _ _) as [env'|] eqn:Hs; [right; by eauto|by left].
Qed.
Lemma write_outputs_spec rules rule value use_defaults env :
  targets_ok rules -> rule ∈ rules ->
  let w := write_outputs env rule value use_defaults in
  enrichment_sources w.1 = enrichment_sources env /\ (if w.2 then has_fields w.1 else w.1 = env).
Proof.
  intros Ht Hr. unfold write_outputs.
  assert (forall outs env0 b, (forall o, o ∈ outs -> o ∈ er_outputs rule) -> (b = true -> has_fields env0) ->
    let w := foldl (write_output rule value use_defaults) (env0, b) outs in
    enrichment_sources w.1 = enrichment_sources env0 /\ (w.2 = true -> has_fields w.1) /\ (w.2 = false -> b = false /\ w.1 = env0)) as Hf.
  2: { destruct (Hf (er_outputs rule) env false) as (Hs & Ht' & Hfalse); [done|done|]. split; [done|].
       destruct (foldl _ _ _).2; [by apply Ht'|by apply Hfalse]. }
  induction outs as [|out outs IH]; intros env0 b Hin Hb; [by cbn; auto|]. cbn [foldl].
  assert (forall o, o ∈ outs -> o ∈ er_outputs rule) as Hin' by (intros; apply Hin; by right).
  assert (target_ok (out_target_path out)) as (f & rest & Hp & Hf) by (apply (Ht rule); [done|apply Hin; left]).
  destruct (write_output_cases rule value use_defaults env0 b out) as [->|(env1 & payload & Hs & ->)]; [by apply IH|]. rewrite Hp in Hs.
  destruct (IH env1 true) as (Hsrc & Htrue & Hfalse); [done| |].
  - intros _. pose proof Hs as Hs'. apply set_in_inv in Hs' as (w & -> & [[[=] _]|(c & c' & _ & Hc & ->)]).
    apply set_in_inv in Hc as (w & -> & [[[=] _]|(c2 & c2' & _ & _ & ->)]).
    exists c2'. by rewrite get_in_cons, dget_set_eq, get_in_cons, dget_set_eq.
  - split_and!; [|done|intros Hx; by destruct (Hfalse Hx)]. rewrite Hsrc. unfold enrichment_sources, list_at.
    rewrite (set_in_disjoint _ _ _ _ SOURCES_PATH Hs); [done| |]; intros [q Hq]; injection Hq; intros; subst f; discriminate Hf.
Qed.

(** What one rule does to the list of sources. *)
Lemma apply_one_rule_sources rules resolve rule env s :
  targets_ok rules -> rule ∈ rules ->
  let env' := (apply_one_rule resolve rule env s).1.1 in
  enrichment_sources env' = enrichment_sources env ++ [source_entry rule] \/
  enrichment_sources env' = enrichment_sources env /\ forall p, beside_tags p -> get_in (PDict env') p = get_in (PDict env) p.
Proof.
  intros Ht Hr. cbn zeta.
  assert (forall value d, let env' := (commit env rule value d).1 in
    enrichment_sources env' = enrichment_sources env ++ [source_entry rule] \/ env' = env) as Hcommit.
  { intros value d. unfold commit. destruct (write_outputs_spec rules rule value d env Ht Hr) as [Hs Hw].
    destruct (write_outputs _ _ _ _) as [env1 []]; cbn [fst snd] in *; [left|by right].
    set (env2 := if d then env1 else add_tags env1 (er_tags rule)).
    assert (enrichment_sources env2 = enrichment_sources env /\ has_fields env2) as [Hs2 [c Hc]].
    { subst env2. destruct d; [done|]. rewrite add_tags_sources. split; [done|]. destruct Hw as [c Hc]. exists c.
      rewrite add_tags_beside; [done|]. split; apply (bool_decide_unpack _); vm_compute; exact I. }
    unfold add_source.
    destruct (has_fields_set env2 (PList (list_at SOURCES_PATH env2 ++ [source_entry rule]))) as [env3 He]; [by exists c|]. rewrite He. cbn [default].
    transitivity (list_at SOURCES_PATH env3); [done|]. unfold list_at at 1. by rewrite (set_in_get _ _ _ _ He), <- Hs2. }
  assert (forall tags, enrichment_sources (add_tags env tags) = enrichment_sources env /\
    forall p, beside_tags p -> get_in (PDict (add_tags env tags)) p = get_in (PDict env) p) as Htags.
  { intros tags. split; [apply add_tags_sources|]. intros p. apply add_tags_beside. }
  assert (forall value d, enrichment_sources (commit env rule value d).1 = enrichment_sources env ++ [source_entry rule] \/
    enrichment_sources (commit env rule value d).1 = enrichment_sources env /\
    forall p, beside_tags p -> get_in (PDict (commit env rule value d).1) p = get_in (PDict env) p) as Hc.
  { intros value d. destruct (Hcommit value d) as [Hc| ->]; [by left|by right]. }
  unfold apply_one_rule, apply_miss, error_tag.
  repeat first [progress cbn [fst]|case_match]; subst; auto.
Qed.

Section compiled.
Variables (registry : enricher_registry) (raw : pyval) (policy : compiled_policy) (rules : list compiled_enrich_rule).
Hypothesis compiled : compile_policy registry raw = Ok policy.
Hypothesis chosen : rules ⊆ policy_rules policy.
#[local] Abbreviation after resolve env s := (apply env rules resolve s).1.1.

(** C16 [enrich_frame] (enrichment writes where it may, and nowhere else).  Whatever
    the resolution answers or raises, applying rules of a policy that compiled
    leaves every entry of the envelope but [_centralops] as it was, in its order
    and with its value, so the raw and the normalized event keep the labels that
    describe them; and inside [_centralops] it leaves every path that does not
    start in [enrichment] or [enrichment_tags]. *)
Theorem enrich_frame resolve env s :
  dict_pop "_centralops" (after resolve env s) = dict_pop "_centralops" env /\
  forall p, outside p -> get_in (PDict (after resolve env s)) p = get_in (PDict env) p.
Proof.
  pose proof (compiled_targets_ok _ _ _ _ compiled chosen) as Ht.
  induction (apply_steps rules resolve env s) as [|x y z Hxy _ IH]; [done|].
  destruct (write_step_frame _ _ _ Ht Hxy) as [Hd Hf]. destruct IH as [IHd IHf].
  split; [by rewrite IHd|]. intros p Hp. by rewrite IHf, Hf.
Qed.

(** [vendor_wins] (what was asserted is never erased).  When no rule asks to
    overwrite, a value that was in the envelope and is no dictionary is still
    there, unchanged, after any number of rules, whatever they were answered:
    only the list of tags and the list of sources, which are the feature's own,
    may change. *)
Theorem vendor_wins resolve env s p :
  Forall (fun r => er_overwrite r = false) rules ->
  ~ TAGS_PATH `prefix_of` p -> ~ SOURCES_PATH `prefix_of` p ->
  is_none (get_in (PDict env) p) = false -> is_mapping (get_in (PDict env) p) = false ->
  get_in (PDict (after resolve env s)) p = get_in (PDict env) p.
Proof.
  intros Ho Hp1 Hp2. pose proof (compiled_targets_ok _ _ _ _ compiled chosen) as Ht.
  induction (apply_steps rules resolve env s) as [|x y z Hxy _ IH]; [done|]. intros Hn Hm.
  pose proof (write_step_keeps _ _ _ p Ht Ho Hxy Hp1 Hp2 Hn Hm) as Hk. rewrite IH; [done|by rewrite Hk|by rewrite Hk].
Qed.

(** [provenance] (every field that appears names its rule).  Applying rules
    only extends the list of sources, each new entry names one of the rules, and
    when no entry is added every path the list of tags does not touch reads as
    before: no field under [enrichment] appears or changes without its source. *)
Theorem provenance resolve env s :
  exists entries,
    enrichment_sources (after resolve env s) = enrichment_sources env ++ entries /\
    Forall (fun e => exists rule, rule ∈ rules /\ e = source_entry rule) entries /\
    (entries = [] -> forall p, beside_tags p -> get_in (PDict (after resolve env s)) p = get_in (PDict env) p).
Proof.
  pose proof (compiled_targets_ok _ _ _ _ compiled chosen) as Ht. cbn.
  assert (forall rs env0 b s0, (forall r, r ∈ rs -> r ∈ rules) -> exists entries,
    enrichment_sources (apply_rules resolve rs env0 b s0).1.1 = enrichment_sources env0 ++ entries /\
    Forall (fun e => exists rule, rule ∈ rules /\ e = source_entry rule) entries /\
    (entries = [] -> forall p, beside_tags p -> get_in (PDict (apply_rules resolve rs env0 b s0).1.1) p = get_in (PDict env0) p))
    as Hrs; [|by apply Hrs].
  induction rs as [|rule rs IH]; intros env0 b s0 Hin; cbn [apply_rules].
  { exists []. rewrite app_nil_r. split_and!; [done|apply Forall_nil_2|done]. }
  assert (rule ∈ rules) as Hr by (apply Hin; left).
  destruct (IH (apply_one_rule resolve rule env0 s0).1.1 (b || (apply_one_rule resolve rule env0 s0).1.2) (apply_one_rule resolve rule env0 s0).2)
    as (entries & Hs & Hall & Hnil); [intros; apply Hin; by right|].
  destruct (apply_one_rule_sources rules resolve rule env0 s0 Ht Hr) as [Hs1|[Hs1 Hp1]].
  - exists (source_entry rule :: entries). rewrite Hs, Hs1, <- app_assoc. split_and!; [done| |done].
    apply Forall_cons_2; [by exists rule|done].
  - exists entries. rewrite Hs, Hs1. split_and!; [done|done|]. intros He p Hp. by rewrite Hnil, Hp1.
Qed.
End compiled.

(** The counters of one rule. *)
Definition total (id : string) (s : apply_stats) : Z :=
  default 0 (st_hits s !! id) + default 0 (st_misses s !! id) + default 0 (st_skipped s !! id) + default 0 (st_errors s !! id).

Lemma lookup_bump id id' b : default 0 (bump id b !! id') = default 0 (b !! id') + (if decide (id = id') then 1 else 0).
Proof. unfold bump. case_decide as Hd; [subst; by rewrite lookup_insert_eq|]. rewrite lookup_insert_ne by done. lia. Qed.

(** A rule counts at most once, in one counter, and says whether it wrote. *)
Lemma apply_one_rule_accounting resolve rule env s :
  let r := apply_one_rule resolve rule env s in
  (exists n, 0 <= n <= 1 /\ forall id, total id r.2 = total id s + (if decide (er_rule_id rule = id) then n else 0)) /\
  events_touched r.2 = events_touched s /\ (r.1.2 = false -> r.1.1 = env).
Proof.
  cbn zeta.
  assert (exists n, 0 <= n <= 1 /\ forall id, total id s = total id s + (if decide (er_rule_id rule = id) then n else 0)) as H0'
    by (exists 0; split; [lia|]; intros id; case_decide; lia).
  assert (forall f, f = bump_hit \/ f = bump_miss \/ f = bump_skipped \/ f = bump_error ->
    exists n, 0 <= n <= 1 /\ forall id, total id (f (er_rule_id rule) s) = total id s + (if decide (er_rule_id rule = id) then n else 0)) as Hb.
  { intros f Hf. exists 1. split; [lia|]. intros id.
    destruct Hf as [-> |[-> |[-> | ->]]]; unfold total; cbn [bump_hit bump_miss bump_skipped bump_error st_hits st_misses st_skipped st_errors];
      rewrite lookup_bump; lia. }
  assert (forall value d, (commit env rule value d).2 = false -> (commit env rule value d).1 = env) as Hcommit.
  { intros value d. unfold commit.
    assert (forall outs env0 b, (foldl (write_output rule value d) (env0, b) outs).2 = false ->
      b = false /\ (foldl (write_output rule value d) (env0, b) outs).1 = env0) as Hf.
    { induction outs as [|out outs IH]; intros env0 b; [done|]. cbn [foldl].
      destruct (write_output_cases rule value d env0 b out) as [->|(env1 & payload & _ & ->)]; [apply IH|].
      intros Hx. by destruct (IH _ _ Hx). }
    destruct (write_outputs env rule value d).2 eqn:Hw; [done|]. intros _. by apply Hf. }
  unfold apply_one_rule, apply_miss, error_tag.
  repeat first [progress cbn [fst snd]|case_match]; subst; split_and!; auto; try done; apply Hb; auto.
Qed.

(** [apply_accounting] (the counters tell what happened, and [False] means
    nothing did).  In a policy, where identifiers are distinct, one event raises
    the counters of a rule by at most one between them, touches no other
    counter, is counted as touched when [apply] says so, and is returned exactly
    as it came when it says [False]. *)
Theorem apply_accounting env rules resolve s :
  NoDup (er_rule_id <$> rules) ->
  let r := apply env rules resolve s in
  (forall id, total id s <= total id r.2 <= total id s + (if decide (id ∈ er_rule_id <$> rules) then 1 else 0)) /\
  events_touched r.2 = events_touched s + (if r.1.2 then 1 else 0) /\
  (r.1.2 = false -> r.1.1 = env).
Proof.
  intros Hnd. cbn zeta. unfold apply. cbn [fst snd].
  assert (forall rs env0 b s0, NoDup (er_rule_id <$> rs) ->
    let r := apply_rules resolve rs env0 b s0 in
    (forall id, total id s0 <= total id r.2 <= total id s0 + (if decide (id ∈ er_rule_id <$> rs) then 1 else 0)) /\
    events_touched r.2 = events_touched s0 /\ (r.1.2 = false -> b = false /\ r.1.1 = env0)) as Hrs.
  { clear Hnd. induction rs as [|rule rs IH]; intros env0 b s0 Hnd; [cbn; split_and!; [intros id; case_decide; lia|done|done]|].
    cbn [apply_rules fmap list_fmap]. cbn in Hnd. apply NoDup_cons in Hnd as [Hnin Hnd].
    destruct (apply_one_rule_accounting resolve rule env0 s0) as ((n & Hn & Htot) & Hev & Hun).
    specialize (IH (apply_one_rule resolve rule env0 s0).1.1 (b || (apply_one_rule resolve rule env0 s0).1.2) (apply_one_rule resolve rule env0 s0).2 Hnd).
    destruct IH as (Hid & Hev' & Hun'). split_and!; [|by rewrite Hev'|].
    - intros id. specialize (Hid id). rewrite Htot in Hid.
      destruct (decide (er_rule_id rule = id)) as [<-|Hne].
      + rewrite decide_False in Hid by done. rewrite decide_True by left. lia.
      + destruct (decide (id ∈ er_rule_id <$> rs)); [rewrite decide_True by by right|rewrite decide_False by (rewrite elem_of_cons; naive_solver)]; lia.
    - intros Hf. destruct (Hun' Hf) as [[-> Hb]%orb_false_iff Henv]. split; [done|]. by rewrite Henv, Hun. }
  destruct (Hrs rules env false s Hnd) as (Hid & Hev & Hun). cbn zeta in *.
  destruct (apply_rules resolve rules env false s) as [[env' []] s']; cbn [fst snd touch events_touched] in *;
    (split_and!; [exact Hid|lia|]); [done|]. intros Hx. by apply Hun.
Qed.
End props.

(** ** Examples *)

Section examples.
#[local] Existing Instances demo_jmes demo_float_repr.
#[local] Instance demo_apply_fast : FastPath := true.

Definition demo_event : envelope :=
  [("normalized", PDict [("src_ip", PStr "10.0.0.7:443")]); ("raw", PDict [("id", PInt 7)]);
   ("_centralops", PDict [("org_id", PInt 3); ("enrichment", PDict [("site", PStr "given")])])].
Definition demo_answer : string -> string -> result (bool * pyval) := fun id key =>
  if String.eqb id "site" then Ok (true, PDict [("site", PStr "hq")])
  else if String.eqb key "10.0.0.7" then Ok (true, PDict [("score", PInt 90)]) else Ok (true, PNone).
Definition demo_policy_document : pyval :=
  PList [PDict [("id", PStr "site"); ("enricher", PStr "table");
                ("key", PDict [("source", PStr "normalized.src_ip"); ("kind", PStr "ip"); ("normalize", PStr "strip_port")]);
                ("outputs", PList [PDict [("from", PStr "site"); ("target", PStr "_centralops.enrichment.site")];
                                   PDict [("from", PStr "site"); ("target", PStr "_centralops.enrichment.place")]]);
                ("tags", PList [PStr "known"])];
         demo_remote_rule (PStr "vt") (PStr "ip") PNone].
Definition demo_policy : compiled_policy :=
  match compile_policy demo_registry demo_policy_document with Ok p => p | Raise _ => CompiledPolicy [] 0 end.
Lemma demo_policy_compiled : compile_policy demo_registry demo_policy_document = Ok demo_policy.
Proof. vm_compute. reflexivity. Qed.

(** The local rule finds [site] taken and fills [place]; its tag opens the gate
    of the second rule, whose key is not normalized and misses: the default is
    written. *)
Lemma demo_apply :
  (apply demo_event (policy_rules demo_policy) demo_answer no_stats).1.1 =
  [("normalized", PDict [("src_ip", PStr "10.0.0.7:443")]); ("raw", PDict [("id", PInt 7)]);
   ("_centralops",
    PDict [("org_id", PInt 3);
           ("enrichment",
            PDict [("site", PStr "given"); ("place", PStr "hq");
                   ("_sources", PList [PDict [("rule", PStr "site"); ("enricher", PStr "table")];
                                       PDict [("rule", PStr "reputation"); ("enricher", PStr "reputation")]]);
                   ("ti", PDict [("score", PInt 0)])]);
           ("enrichment_tags", PList [PStr "known"])])].
Proof. vm_compute. reflexivity. Qed.

Lemma enrich_frame_witness :
  get_in (PDict (apply demo_event (policy_rules demo_policy) demo_answer no_stats).1.1) ["_centralops"; "org_id"] = PInt 3.
Proof.
  destruct (enrich_frame demo_registry demo_policy_document demo_policy (policy_rules demo_policy) demo_policy_compiled
              (fun x Hx => Hx) demo_answer demo_event no_stats) as [_ Hf].
  rewrite (Hf ["_centralops"; "org_id"]); [reflexivity|]. right. split; discriminate.
Defined.

Lemma vendor_wins_witness :
  get_in (PDict (apply demo_event (policy_rules demo_policy) demo_answer no_stats).1.1) ["_centralops"; "enrichment"; "site"] = PStr "given".
Proof.
  rewrite (vendor_wins demo_registry demo_policy_document demo_policy (policy_rules demo_policy) demo_policy_compiled
             (fun x Hx => Hx) demo_answer demo_event no_stats ["_centralops"; "enrichment"; "site"]).
  - reflexivity.
  - apply (bool_decide_unpack _). vm_compute. exact I.
  - apply (bool_decide_unpack _). vm_compute. exact I.
  - apply (bool_decide_unpack _). vm_compute. exact I.
  - reflexivity.
  - reflexivity.
Defined.

Lemma provenance_witness :
  exists entries, enrichment_sources (apply demo_event (policy_rules demo_policy) demo_answer no_stats).1.1 = enrichment_sources demo_event ++ entries /\
    length entries = 2%nat.
Proof.
  destruct (provenance demo_registry demo_policy_document demo_policy (policy_rules demo_policy) demo_policy_compiled
              (fun x Hx => Hx) demo_answer demo_event no_stats) as (entries & Hs & _).
  exists entries. split; [exact Hs|]. apply (f_equal length) in Hs. rewrite length_app in Hs. vm_compute in Hs.
  symmetry. exact Hs.
Defined.

Lemma apply_accounting_witness :
  events_touched (apply demo_event (policy_rules demo_policy) demo_answer no_stats).2 = 1.
Proof.
  destruct (apply_accounting demo_event (policy_rules demo_policy) demo_answer no_stats) as (_ & He & _).
  - apply (bool_decide_unpack _). vm_compute. exact I.
  - rewrite He. reflexivity.
Defined.

(** A key given with a port is looked up without it; an IPv6 address keeps its colons. *)
Lemma strip_port_cases :
  normalize_key "10.0.0.7:443" ["strip_port"] = "10.0.0.7" /\ normalize_key "[::1]:443" ["strip_port"] = "::1" /\
  normalize_key "fe80::1" ["strip_port"] = "fe80::1" /\ normalize_key "hxxp://1.2.3[.]4" ["defang"] = "http://1.2.3.4".
Proof. vm_compute. auto. Qed.
End examples.
