(* ===== verification/EnrichCache.v ===== *)
(** * The cache of the remote enrichment

    Models [enrich/cache.py]: an LRU with times to live inside the process ([L1Cache])
    in front of entries shared in Redis ([EnrichCache]).  An answer has three
    states: the provider gave a value, the provider does not know the key, or
    nobody could tell; only the first two are ever stored.

    The local clock is an argument, in the unit of the times to live; the shared
    store has its own.  [up] says whether a Redis command reaches the server. *)

From S2P Require Import Prelude PyVal Operators Conditions Redaction Routing.

Local Open Scope string_scope.
Local Open Scope list_scope.
Local Open Scope Z_scope.

Inductive cache_state := HIT | MISS | UNKNOWN.
#[export] Instance cache_state_eq_dec : EqDecision cache_state.
Proof. solve_decision. Defined.

(** [cache_key]; the digest is cut to 24 digits. *)
Definition cache_key `{Sha1} (org_id : Z) (enricher version key : string) : string :=
  ("enr:" +:+ str_of_Z org_id +:+ ":" +:+ enricher +:+ ":" +:+ version +:+ ":" +:+ str_take 24 (sha1_hex key))%string.

(** ** The local cache *)

Record l1_entry := L1Entry { expires_at : Z; l1_state : cache_state; l1_value : pyval }.
(** An [OrderedDict], least recently used first. *)
Record l1_cache := L1Cache { l1_max : Z; l1_data : list (string * l1_entry); l1_hits : Z; l1_misses : Z }.

Definition l1_new (max_entries : Z) : l1_cache := L1Cache (Z.max max_entries 1) [] 0 0.

Definition move_to_end {A} (key : string) (d : list (string * A)) : list (string * A) :=
  match dict_get key d with Some e => dict_pop key d ++ [(key, e)] | None => d end.

Definition l1_get (now : Z) (key : string) (c : l1_cache) : (cache_state * pyval) * l1_cache :=
  match dict_get key (l1_data c) with
  | None => ((UNKNOWN, PNone), L1Cache (l1_max c) (l1_data c) (l1_hits c) (l1_misses c + 1))
  | Some e =>
      if expires_at e <=? now
      then ((UNKNOWN, PNone), L1Cache (l1_max c) (dict_pop key (l1_data c)) (l1_hits c) (l1_misses c + 1))
      else ((l1_state e, l1_value e), L1Cache (l1_max c) (move_to_end key (l1_data c)) (l1_hits c + 1) (l1_misses c))
  end.

(** [while len(data) > max: data.popitem(last=False)]. *)
Fixpoint evict {A} (max : Z) (d : list A) : list A :=
  match d with
  | [] => []
  | _ :: d' => if max <? Z.of_nat (length d) then evict max d' else d
  end.

Definition l1_put (now : Z) (key : string) (state : cache_state) (value : pyval) (ttl_s : Z) (c : l1_cache) : l1_cache :=
  if bool_decide (state = UNKNOWN) || (ttl_s <=? 0) then c
  else L1Cache (l1_max c) (evict (l1_max c) (move_to_end key (dict_set key (L1Entry (now + ttl_s) state value) (l1_data c))))
         (l1_hits c) (l1_misses c).

(** ** The shared store *)

(** Texts with a deadline. *)
Definition text_entry := (string * option Z)%type.
Class RedisText (S : Type) := {
  t_now : S -> Z;
  t_entry : S -> string -> option text_entry;
  t_set_ex : string -> string -> Z -> S -> S;              (* SET k v EX ttl *)
  t_set_nx_px : string -> string -> Z -> S -> S * bool;    (* SET k v NX PX ttl *)
  t_del : string -> S -> S;                                (* DEL k *)
  t_tick : Z -> S -> S;                                    (* time passes *)
}.
Definition text_live (now : Z) (e : option text_entry) : option text_entry :=
  match e with
  | Some (v, Some deadline) => if now <? deadline then e else None
  | _ => e
  end.
(** The documented effect of each command on the live entries; seconds are
    milliseconds times a thousand. *)
Class RedisTextLaws (S : Type) `{RedisText S} := {
  t_set_now k v ttl s : t_now (t_set_ex k v ttl s) = t_now s;
  t_set_entry k v ttl s k' : 0 < ttl ->
    t_entry (t_set_ex k v ttl s) k' = if String.eqb k' k then Some (v, Some (t_now s + 1000 * ttl)) else t_entry s k';
  t_nx_now k v ttl s : t_now (t_set_nx_px k v ttl s).1 = t_now s;
  t_nx_won k v ttl s : (t_set_nx_px k v ttl s).2 = bool_decide (t_entry s k = None);
  t_nx_entry k v ttl s k' : 0 < ttl ->
    t_entry (t_set_nx_px k v ttl s).1 k' =
    if String.eqb k' k && bool_decide (t_entry s k = None) then Some (v, Some (t_now s + ttl)) else t_entry s k';
  t_del_now k s : t_now (t_del k s) = t_now s;
  t_del_entry k s k' : t_entry (t_del k s) k' = if String.eqb k' k then None else t_entry s k';
  t_tick_now d s : t_now (t_tick d s) = t_now s + d;
  t_tick_entry d s k : 0 <= d -> t_entry (t_tick d s) k = text_live (t_now s + d) (t_entry s k);
}.

(** [json.dumps(value, separators=(",", ":"))]; it may raise. *)
Class CompactJson := compact_dumps : pyval -> result string.
Definition MISS_SENTINEL : string := String (ascii_of_nat 0) "miss".

Section enrich_cache.
Context {S : Type} `{RedisText S} `{CompactJson} `{JsonLoads}.

Record lookup := Lookup {
  lk_values : list (string * pyval);
  lk_states : list (string * cache_state);
  lk_missing : list string;
}.

(** The pass over the local cache: what it answers, and the keys pending. *)
Fixpoint read_l1 (now : Z) (keys : list string) (r : lookup) (c : l1_cache) : lookup * l1_cache :=
  match keys with
  | [] => (r, c)
  | k :: rest =>
      let g := l1_get now k c in
      let r' := match g.1.1 with
                | HIT => Lookup (dict_set k g.1.2 (lk_values r)) (dict_set k HIT (lk_states r)) (lk_missing r)
                | MISS => Lookup (lk_values r) (dict_set k MISS (lk_states r)) (lk_missing r)
                | UNKNOWN => Lookup (lk_values r) (lk_states r) (lk_missing r ++ [k])
                end in
      read_l1 now rest r' g.2
  end.

(** What a stored text says: a value, a miss, or nothing that can be read. *)
Definition read_blob (blob : option string) : cache_state * pyval :=
  match blob with
  | None => (UNKNOWN, PNone)
  | Some b =>
      if String.eqb b MISS_SENTINEL then (MISS, PNone)
      else match json_loads b with Ok v => (HIT, v) | Raise _ => (UNKNOWN, PNone) end
  end.

(** The pass over the texts of the pending keys. *)
Fixpoint read_l2 (blobs : list (string * option string)) (r : lookup) : lookup :=
  match blobs with
  | [] => r
  | (k, blob) :: rest =>
      read_l2 rest
        match read_blob blob with
        | (HIT, v) => Lookup (dict_set k v (lk_values r)) (dict_set k HIT (lk_states r)) (lk_missing r)
        | (MISS, _) => Lookup (lk_values r) (dict_set k MISS (lk_states r)) (lk_missing r)
        | (UNKNOWN, _) => Lookup (lk_values r) (lk_states r) (lk_missing r ++ [k])
        end
  end.
Definition text_at (s : S) (k : string) : option string := fst <$> t_entry s k.

Definition get_many (now : Z) (up : bool) (keys : list string) (c : l1_cache) (s : S) : lookup * l1_cache :=
  let p := read_l1 now keys (Lookup [] [] []) c in
  match lk_missing p.1 with
  | [] => p
  | pending =>
      if up
      then (read_l2 ((fun k => (k, text_at s k)) <$> pending) (Lookup (lk_values p.1) (lk_states p.1) []), p.2)
      else p
  end.

Definition put_l1 (now ttl negative_ttl : Z) (c : l1_cache) (kv : string * pyval) : l1_cache :=
  if is_none kv.2 then l1_put now kv.1 MISS PNone negative_ttl c else l1_put now kv.1 HIT kv.2 ttl c.
(** The text of an answer. *)
Definition blob_of (v : pyval) : result string := if is_none v then Ok MISS_SENTINEL else compact_dumps v.
Definition put_l2 (ttl negative_ttl : Z) (s : S) (kb : string * pyval * string) : S :=
  t_set_ex kb.1.1 kb.2 (Z.max (if is_none kb.1.2 then negative_ttl else ttl) 1) s.

(** [put_many]; the commands are queued before any is sent, so a value that
    cannot be written leaves the shared store as it was. *)
Definition put_many (now : Z) (up : bool) (resolved : list (string * pyval)) (ttl negative_ttl : Z) (c : l1_cache) (s : S)
  : l1_cache * S :=
  (foldl (put_l1 now ttl negative_ttl) c resolved,
   match result_map (fun kv => b ← blob_of kv.2; Ok (kv, b)) resolved with
   | Ok cmds => if up then foldl (put_l2 ttl negative_ttl) s cmds else s
   | Raise _ => s
   end).

(** ** One resolver per key *)

Definition lock_of (key : string) : string := (key +:+ ":lock")%string.
Definition acquire_single_flight (up : bool) (lock_ttl_ms : Z) (key : string) (s : S) : S * bool :=
  if up then t_set_nx_px (lock_of key) "1" (Z.max lock_ttl_ms 100) s else (s, true).
Definition release_single_flight (up : bool) (key : string) (s : S) : S :=
  if up then t_del (lock_of key) s else s.

(** [wait_for_peer]: what each read before the deadline gave; [None] is an error. *)
Fixpoint wait_for_peer (polls : list (option (option string))) : cache_state * pyval :=
  match polls with
  | [] => (UNKNOWN, PNone)
  | None :: _ => (UNKNOWN, PNone)
  | Some None :: rest => wait_for_peer rest
  | Some (Some b) :: _ => read_blob (Some b)
  end.
End enrich_cache.

(** ** What a lookup is made of *)

Section lookups.
Context {S : Type} `{RedisText S} `{CompactJson} `{JsonLoads}.

(** The states of a lookup are answers, and its missing keys were asked. *)
Definition lookup_ok (asked : list string) (r : lookup) : Prop :=
  Forall (fun cs => cs.2 <> UNKNOWN) (lk_states r) /\ forall k, k ∈ lk_missing r -> k ∈ asked.

Lemma dict_set_Forall {A} (P : string * A -> Prop) k v (d : list (string * A)) :
  P (k, v) -> Forall P d -> Forall P (dict_set k v d).
Proof.
  intros Hv. induction 1 as [|[k' v'] d Hk Hd IH]; cbn; [apply Forall_cons_2; [done|apply Forall_nil_2]|].
  destruct (String.eqb_spec k k') as [<-|]; by apply Forall_cons_2.
Qed.

Lemma read_l1_lookup_ok asked now keys : forall r c,
  (forall k, k ∈ keys -> k ∈ asked) -> lookup_ok asked r -> lookup_ok asked (read_l1 now keys r c).1.
Proof.
  induction keys as [|k keys IH]; intros r c Hk [Hs Hm]; [done|]. cbn [read_l1]. apply IH; [intros; apply Hk; by right|].
  destruct (l1_get now k c).1.1; split; cbn; try done; try (by apply dict_set_Forall).
  intros k'. rewrite elem_of_app, list_elem_of_singleton. intros [?| ->]; [by apply Hm|apply Hk; left].
Qed.
Lemma read_l2_lookup_ok asked blobs : forall r,
  (forall kb, kb ∈ blobs -> kb.1 ∈ asked) -> lookup_ok asked r -> lookup_ok asked (read_l2 blobs r).
Proof.
  induction blobs as [|[k blob] blobs IH]; intros r Hk [Hs Hm]; [done|]. cbn [read_l2]. apply IH; [intros; apply Hk; by right|].
  destruct (read_blob blob) as [[] v]; split; cbn; try done; try (by apply dict_set_Forall).
  intros k'. rewrite elem_of_app, list_elem_of_singleton. intros [?| ->]; [by apply Hm|]. apply (Hk (k, blob)). left.
Qed.
Lemma get_many_lookup_ok now up keys c s : lookup_ok keys (get_many now up keys c s).1.
Proof.
  unfold get_many. assert (lookup_ok keys (read_l1 now keys (Lookup [] [] []) c).1) as Hp.
  { apply read_l1_lookup_ok; [done|]. split; [apply Forall_nil_2|]. by intros k ?%not_elem_of_nil. }
  destruct (read_l1 _ _ _ _) as [p c']. cbn [fst snd] in *. destruct (lk_missing p) as [|k0 ks] eqn:E; [done|]. destruct up; [|done]. cbn [fst].
  destruct Hp as [Hs Hm]. rewrite E in Hm. apply read_l2_lookup_ok.
  - intros kb (k & -> & Hin)%list_elem_of_fmap. by apply Hm.
  - split; [done|]. by intros k ?%not_elem_of_nil.
Qed.
End lookups.

(** ** The local cache against its history

    What a process does to the cache, with the instants it does it at. *)

Inductive l1_op :=
| OpGet (key : string) (at_ : Z)
| OpPut (key : string) (state : cache_state) (value : pyval) (ttl : Z) (at_ : Z).
Definition op_key (o : l1_op) : string := match o with OpGet k _ => k | OpPut k _ _ _ _ => k end.
Definition op_at (o : l1_op) : Z := match o with OpGet _ t => t | OpPut _ _ _ _ t => t end.
Definition l1_do (c : l1_cache) (o : l1_op) : l1_cache :=
  match o with OpGet k t => (l1_get t k c).2 | OpPut k st v ttl t => l1_put t k st v ttl c end.
Definition l1_run (c : l1_cache) (ops : list l1_op) : l1_cache := foldl l1_do c ops.

(** The specification: the last answer stored for each key, without limit. *)
Definition stores (o : l1_op) : option (string * l1_entry) :=
  match o with
  | OpPut k st v ttl t => if bool_decide (st = UNKNOWN) || (ttl <=? 0) then None else Some (k, L1Entry (t + ttl) st v)
  | OpGet _ _ => None
  end.
Definition history (m : gmap string l1_entry) (o : l1_op) : gmap string l1_entry :=
  match stores o with Some (k, e) => <[k := e]> m | None => m end.
Definition last_stored (ops : list l1_op) : gmap string l1_entry := foldl history ∅ ops.

Lemma dict_get_app {A} k (d1 d2 : list (string * A)) :
  dict_get k (d1 ++ d2) = match dict_get k d1 with Some v => Some v | None => dict_get k d2 end.
Proof. induction d1 as [|[k' v] d1 IH]; cbn; [done|]. by destruct (String.eqb k k'). Qed.

Lemma move_to_end_get {A} key k (d : list (string * A)) : dict_get k (move_to_end key d) = dict_get k d.
Proof.
  unfold move_to_end. destruct (dict_get key d) as [e|] eqn:E; [|done]. rewrite dict_get_app.
  destruct (String.eqb_spec k key) as [->|Hk].
  - rewrite dict_get_pop_eq. cbn. by rewrite String.eqb_refl.
  - rewrite dict_get_pop_ne by done. cbn. apply String.eqb_neq in Hk. rewrite Hk. by destruct (dict_get k d).
Qed.
Lemma move_to_end_wf {A} key (d : list (string * A)) : dict_wf d -> dict_wf (move_to_end key d).
Proof.
  intros Hd. unfold move_to_end. destruct (dict_get key d) as [e|]; [|done]. unfold dict_wf, dict_keys. rewrite fmap_app. cbn.
  apply NoDup_app. split_and!; [by apply (dict_pop_wf key)| |apply NoDup_singleton].
  intros k Hk ->%list_elem_of_singleton. apply dict_get_in_keys in Hk as [v Hv]. by rewrite dict_get_pop_eq in Hv.
Qed.

Lemma evict_suffix {A} max (d : list A) :
  0 <= max -> exists dropped, d = dropped ++ evict max d /\ Z.of_nat (length (evict max d)) <= max /\
    (length dropped = length d - Z.to_nat max)%nat.
Proof.
  intros Hm. induction d as [|x d IH]; [exists []; cbn; split_and!; [done|lia|lia]|]. cbn [evict].
  destruct (Z.ltb_spec max (Z.of_nat (length (x :: d)))) as [Hl|Hl].
  - destruct IH as (dropped & Hd & Hlen & Hn). exists (x :: dropped). cbn [length app] in *. split_and!; [by rewrite Hd at 1|done|lia].
  - exists []. split_and!; [done|done|cbn in *; lia].
Qed.

(** The invariant of the cache: distinct keys, at most [l1_max] of them. *)
Definition l1_ok (c : l1_cache) : Prop :=
  1 <= l1_max c /\ dict_wf (l1_data c) /\ Z.of_nat (length (l1_data c)) <= l1_max c.

Lemma suffix_wf {A} (d1 d2 : list (string * A)) : dict_wf (d1 ++ d2) -> dict_wf d2.
Proof. unfold dict_wf, dict_keys. rewrite fmap_app. by intros (_ & _ & Hd)%NoDup_app. Qed.
Lemma suffix_get {A} (d1 d2 : list (string * A)) k v : dict_wf (d1 ++ d2) -> dict_get k d2 = Some v -> dict_get k (d1 ++ d2) = Some v.
Proof.
  intros Hd Hk. rewrite dict_get_app. destruct (dict_get k d1) as [w|] eqn:Hw; [|done]. unfold dict_wf, dict_keys in Hd. rewrite fmap_app in Hd.
  apply NoDup_app in Hd as (_ & Hx & _). destruct (Hx k); apply dict_get_in_keys; by eexists.
Qed.
Lemma length_pop_le {A} k (d : list (string * A)) : (length (dict_pop k d) <= length d)%nat.
Proof. apply length_filter. Qed.
Lemma move_to_end_length {A} key (d : list (string * A)) : dict_wf d -> length (move_to_end key d) = length d.
Proof.
  intros Hd. unfold move_to_end. destruct (dict_get key d) as [e|] eqn:E; [|done]. rewrite length_app. cbn.
  apply dict_get_elem in E. apply list_elem_of_split in E as (d1 & d2 & ->). unfold dict_pop. rewrite filter_app, filter_cons_False by (cbn; by rewrite String.eqb_refl).
  unfold dict_wf, dict_keys in Hd. rewrite fmap_app in Hd. cbn in Hd. apply NoDup_app in Hd as (_ & Hx & Hd). apply NoDup_cons in Hd as [Hn _].
  rewrite !list_filter_all; [rewrite !length_app; cbn; lia| |]; apply Forall_forall; intros [k v] Hk; cbn; apply String.eqb_neq; intros <-.
  - apply Hn. apply list_elem_of_fmap. by exists (key, v).
  - apply (Hx key); [apply list_elem_of_fmap; by exists (key, v)|left].
Qed.

(** Every step keeps the invariant and the size. *)
Lemma l1_do_ok c o : l1_ok c -> l1_ok (l1_do c o) /\ l1_max (l1_do c o) = l1_max c.
Proof.
  intros (Hm & Hwf & Hl). destruct o as [k t|k st v ttl t]; cbn [l1_do].
  - unfold l1_get. destruct (dict_get k (l1_data c)) as [e|] eqn:Ek; cbn; [|done]. destruct (_ <=? _); cbn; (split; [|done]); unfold l1_ok; cbn.
    + split_and!; [done|by apply dict_pop_wf|]. pose proof (length_pop_le k (l1_data c)). lia.
    + split_and!; [done|by apply move_to_end_wf|]. by rewrite move_to_end_length.
  - unfold l1_put. destruct (_ || _); [done|]. cbn. split; [|done]. unfold l1_ok. cbn.
    destruct (evict_suffix (l1_max c) (move_to_end k (dict_set k (L1Entry (t + ttl) st v) (l1_data c)))) as (dropped & Hd & Hlen & _); [lia|].
    split_and!; [done| |done]. eapply suffix_wf. rewrite <- Hd. by apply move_to_end_wf, dict_set_wf.
Qed.
Lemma l1_run_ok ops : forall c, l1_ok c -> l1_ok (l1_run c ops) /\ l1_max (l1_run c ops) = l1_max c.
Proof.
  induction ops as [|o ops IH]; intros c Hc; [done|]. destruct (l1_do_ok c o Hc) as [Hc' Hm].
  destruct (IH (l1_do c o) Hc') as [Hr Hr']. split; [exact Hr|]. exact (eq_trans Hr' Hm).
Qed.
Lemma l1_new_ok max : l1_ok (l1_new max).
Proof. unfold l1_ok, l1_new. cbn. split_and!; [lia|apply NoDup_nil_2|lia]. Qed.

(** The cache holds only last answers. *)
Lemma l1_do_sound c o m :
  l1_ok c -> (forall k e, dict_get k (l1_data c) = Some e -> m !! k = Some e) ->
  forall k e, dict_get k (l1_data (l1_do c o)) = Some e -> history m o !! k = Some e.
Proof.
  intros (Hm & Hwf & _) Hs k e. destruct o as [k' t|k' st v ttl t]; cbn [l1_do].
  - unfold l1_get. destruct (dict_get k' (l1_data c)) as [e'|] eqn:Ek; cbn; [|apply Hs]. destruct (_ <=? _); cbn.
    + destruct (decide (k = k')) as [->|Hk]; [by rewrite dict_get_pop_eq|rewrite dict_get_pop_ne by done; apply Hs].
    + rewrite move_to_end_get. apply Hs.
  - unfold history, stores, l1_put. destruct (_ || _); [apply Hs|]. cbn.
    set (d := move_to_end k' (dict_set k' (L1Entry (t + ttl) st v) (l1_data c))).
    destruct (evict_suffix (l1_max c) d) as (dropped & Hd & _); [lia|]. intros Hk.
    apply (suffix_get dropped) in Hk; [|rewrite <- Hd; by apply move_to_end_wf, dict_set_wf]. rewrite <- Hd in Hk.
    unfold d in Hk. rewrite move_to_end_get in Hk. destruct (decide (k = k')) as [->|Hne].
    + rewrite dict_get_set_eq in Hk. by rewrite lookup_insert_eq.
    + rewrite dict_get_set_ne in Hk by done. rewrite lookup_insert_ne by done. by apply Hs.
Qed.
Lemma l1_run_sound ops : forall c m, l1_ok c -> (forall k e, dict_get k (l1_data c) = Some e -> m !! k = Some e) ->
  forall k e, dict_get k (l1_data (l1_run c ops)) = Some e -> foldl history m ops !! k = Some e.
Proof. induction ops as [|o ops IH]; intros c m Hc Hm; [done|]. apply IH; [by apply l1_do_ok|by apply l1_do_sound]. Qed.

(** What is stored is an answer. *)
Lemma history_answers ops : forall m, (forall k e, m !! k = Some e -> l1_state e <> UNKNOWN) ->
  forall k e, foldl history m ops !! k = Some e -> l1_state e <> UNKNOWN.
Proof.
  induction ops as [|o ops IH]; intros m Hm k e; [apply Hm|]. apply IH. intros k' e'. unfold history.
  destruct (stores o) as [[k2 e2]|] eqn:E; [|apply Hm]. destruct (decide (k' = k2)) as [->|Hne]; [|rewrite lookup_insert_ne by done; apply Hm].
  rewrite lookup_insert_eq. intros [= <-]. destruct o as [|? st v ttl t]; cbn in E; [done|].
  destruct (bool_decide (st = UNKNOWN)) eqn:Eu; [done|]. cbn in E. destruct (ttl <=? 0); [done|].
  injection E as _ <-. by apply bool_decide_eq_false in Eu.
Qed.

(** [l1_refines] (the local cache never makes an answer up).  After any
    sequence of reads and writes, from an empty cache of any size, the cache
    holds at most [max_entries] entries; and an answer it gives, value or miss,
    is the last one stored for that very key, not yet expired: never an expired
    one, never another key's, never an [UNKNOWN]. *)
Theorem l1_refines max_entries ops key now :
  let c := l1_run (l1_new max_entries) ops in
  let a := (l1_get now key c).1 in
  Z.of_nat (length (l1_data c)) <= Z.max max_entries 1 /\
  (a = (UNKNOWN, PNone) \/
   exists e, last_stored ops !! key = Some e /\ now < expires_at e /\ a = (l1_state e, l1_value e) /\ l1_state e <> UNKNOWN).
Proof.
  cbn zeta. destruct (l1_run_ok ops _ (l1_new_ok max_entries)) as [(_ & _ & Hl) Hmax]. rewrite Hmax in Hl. split; [exact Hl|].
  unfold l1_get. destruct (dict_get key _) as [e|] eqn:E; [|by left].
  destruct (Z.leb_spec (expires_at e) now); [by left|]. right. exists e.
  assert (last_stored ops !! key = Some e) as He by exact (l1_run_sound ops (l1_new max_entries) ∅ (l1_new_ok _) ltac:(done) key e E).
  split_and!; [done|done|done|]. refine (history_answers ops ∅ _ key e He). by intros k x Hx%lookup_empty_Some.
Qed.

(** ** What the cache keeps *)

Lemma dict_pop_set {A} k v (d : list (string * A)) : dict_pop k (dict_set k v d) = dict_pop k d.
Proof.
  unfold dict_pop. induction d as [|[k' v'] d IH]; cbn.
  - by rewrite decide_False by (by rewrite String.eqb_refl).
  - destruct (String.eqb k k') eqn:E; cbn; rewrite ?filter_cons; cbn; rewrite ?E, ?String.eqb_refl; repeat case_decide; try done; by f_equal.
Qed.

Section retention.
Variables (key : string) (e : l1_entry) (others : gset string).

(** The entry is there, and whatever was used after it is among [others]. *)
Definition recent (d : list (string * l1_entry)) : Prop :=
  exists before after, d = before ++ (key, e) :: after /\ forall k, k ∈ dict_keys after -> k ∈ others.

Lemma recent_pop k d : k <> key -> recent d -> recent (dict_pop k d).
Proof.
  intros Hk (before & after & -> & Ha). exists (dict_pop k before), (dict_pop k after). unfold dict_pop.
  rewrite filter_app, filter_cons_True by (cbn; by apply String.eqb_neq). split; [done|].
  intros k' (kv & -> & Hin)%list_elem_of_fmap. apply list_elem_of_filter in Hin as [_ Hin]. apply Ha. apply list_elem_of_fmap. by exists kv.
Qed.
Lemma recent_snoc k v d : k ∈ others -> recent d -> recent (d ++ [(k, v)]).
Proof.
  intros Hk (before & after & -> & Ha). exists before, (after ++ [(k, v)]). split; [by rewrite <- app_assoc|].
  intros k'. unfold dict_keys. rewrite fmap_app. intros [Hin|Hin]%elem_of_app; [by apply Ha|]. by apply list_elem_of_singleton in Hin as ->.
Qed.
Lemma recent_last d : recent (d ++ [(key, e)]).
Proof. exists d, []. split; [done|]. intros k Hin. by apply not_elem_of_nil in Hin. Qed.
Lemma recent_evict max d : dict_wf d -> Z.of_nat (size others) < max -> recent d -> recent (evict max d).
Proof.
  intros Hwf Hmax (before & after & Hd & Ha). pose proof (size_nonneg := Nat.le_0_l (size others)).
  destruct (evict_suffix max d) as (dropped & Hs & _ & Hn); [lia|]. exists (drop (length dropped) before), after. split; [|done].
  assert (length after <= size others)%nat as Hl.
  { rewrite Hd in Hwf. unfold dict_wf, dict_keys in Hwf. rewrite fmap_app in Hwf. cbn in Hwf.
    apply NoDup_app in Hwf as (_ & _ & Hwf). apply NoDup_cons in Hwf as [_ Hwf].
    rewrite <- (length_fmap fst after). change (after.*1) with (dict_keys after) in *.
    rewrite <- (size_list_to_set (C := gset string) (dict_keys after)) by done. apply subseteq_size. intros k Hk%elem_of_list_to_set. by apply Ha. }
  assert (evict max d = drop (length dropped) d) as -> by (rewrite Hs at 2; by rewrite drop_app_length).
  rewrite Hd. apply drop_app_le. apply (f_equal length) in Hd. rewrite length_app in Hd. cbn in Hd. lia.
Qed.
End retention.

Lemma move_to_end_set {A} k (x : A) d : move_to_end k (dict_set k x d) = dict_pop k d ++ [(k, x)].
Proof. unfold move_to_end. by rewrite dict_get_set_eq, dict_pop_set. Qed.

Lemma recent_get key e others d : dict_wf d -> recent key e others d -> dict_get key d = Some e.
Proof. intros Hwf (before & after & -> & _). by apply dict_elem_get; [|apply elem_of_app; right; left]. Qed.

Lemma l1_do_recent key e others c o :
  l1_ok c -> Z.of_nat (size others) < l1_max c -> recent key e others (l1_data c) ->
  op_at o < expires_at e -> (forall x, stores o <> Some (key, x)) -> op_key o = key \/ op_key o ∈ others ->
  recent key e others (l1_data (l1_do c o)).
Proof.
  intros (Hm & Hwf & _) Hs Hr Ht Hno Hk. destruct o as [k t|k st v ttl t]; cbn [l1_do op_key op_at] in *.
  - unfold l1_get. destruct (decide (k = key)) as [->|Hne].
    + rewrite (recent_get key e others) by done. destruct (Z.leb_spec (expires_at e) t); [lia|]. cbn.
      unfold move_to_end. rewrite (recent_get key e others) by done. apply recent_last.
    + destruct Hk as [?|Hk]; [done|]. destruct (dict_get k (l1_data c)) as [x|] eqn:E; cbn; [|done].
      destruct (_ <=? _); cbn; [by apply recent_pop|]. unfold move_to_end. rewrite E. by apply recent_snoc, recent_pop.
  - unfold l1_put. unfold stores in Hno. destruct (_ || _); [done|]. cbn.
    assert (k <> key) as Hne by (intros ->; by eapply Hno). destruct Hk as [?|Hk]; [done|].
    apply recent_evict; [by apply move_to_end_wf, dict_set_wf|done|]. rewrite move_to_end_set. by apply recent_snoc, recent_pop.
Qed.

(** C32 [l1_retains] (the cache saves the question).  An answer stored with a
    positive time to live is given back, until it expires or is replaced, as long
    as fewer than [max_entries] other keys have been read or written since: the
    entry that makes room is always the least recently used. *)
Theorem l1_retains max_entries ops1 key st v ttl t ops2 now :
  st <> UNKNOWN -> 0 < ttl -> now < t + ttl ->
  Forall (fun o => op_at o < t + ttl /\ forall x, stores o <> Some (key, x)) ops2 ->
  Z.of_nat (size (list_to_set (op_key <$> ops2) ∖ {[key]} : gset string)) < max_entries ->
  (l1_get now key (l1_run (l1_new max_entries) (ops1 ++ OpPut key st v ttl t :: ops2))).1 = (st, v).
Proof.
  intros Hst Httl Hnow Hops Hsize. set (others := list_to_set (op_key <$> ops2) ∖ {[key]} : gset string) in *.
  set (e := L1Entry (t + ttl) st v). unfold l1_run. rewrite foldl_app. cbn [foldl]. fold (l1_run (l1_new max_entries) ops1).
  set (c1 := l1_run (l1_new max_entries) ops1).
  destruct (l1_run_ok ops1 _ (l1_new_ok max_entries)) as [Hok1 Hmax1]. fold c1 in Hok1, Hmax1. cbn [l1_new l1_max] in Hmax1.
  set (c2 := l1_do c1 (OpPut key st v ttl t)).
  destruct (l1_do_ok c1 (OpPut key st v ttl t) Hok1) as [Hok2 Hmax2]. fold c2 in Hok2, Hmax2.
  assert (recent key e others (l1_data c2)) as Hr2.
  { subst c2. cbn [l1_do]. unfold l1_put. rewrite bool_decide_eq_false_2 by done. destruct (Z.leb_spec ttl 0); [lia|]. cbn.
    destruct Hok1 as (? & ? & ?). apply recent_evict; [by apply move_to_end_wf, dict_set_wf|lia|]. rewrite move_to_end_set. apply recent_last. }
  assert (forall ops c, l1_ok c -> l1_max c = Z.max max_entries 1 -> recent key e others (l1_data c) -> (forall o, o ∈ ops -> o ∈ ops2) ->
    l1_ok (foldl l1_do c ops) /\ recent key e others (l1_data (foldl l1_do c ops))) as Hrun.
  { induction ops as [|o ops IH]; intros c Hc Hm Hr Hin; [done|]. cbn. destruct (l1_do_ok c o Hc) as [Hc' Hm'].
    rewrite Forall_forall in Hops. destruct (Hops o) as [Hat Hno]; [apply Hin; left|].
    apply IH; [done|by rewrite Hm'| |intros; apply Hin; by right]. apply (l1_do_recent key e others); [done|lia|done|exact Hat|done|].
    destruct (decide (op_key o = key)); [by left|right]. apply elem_of_difference. split; [|set_solver].
    apply elem_of_list_to_set, list_elem_of_fmap. exists o. split; [done|]. apply Hin. left. }
  destruct (Hrun ops2 c2) as [(_ & Hwf & _) Hr]; [done|by rewrite Hmax2|done|done|].
  unfold l1_get. rewrite (recent_get key e others) by done. cbn. by destruct (Z.leb_spec (t + ttl) now); [lia|].
Qed.

(** ** What another worker reads *)

Section shared.
Context {S : Type} `{RedisTextLaws S} `{CompactJson} `{JsonLoads}.

(** A value that survives the trip through its text. *)
Definition readable (v : pyval) : Prop :=
  exists b, compact_dumps v = Ok b /\ json_loads b = Ok v /\ b <> MISS_SENTINEL.

Lemma read_l1_empty now keys : forall r c, l1_data c = [] ->
  (read_l1 now keys r c).1 = Lookup (lk_values r) (lk_states r) (lk_missing r ++ keys).
Proof.
  induction keys as [|k keys IH]; intros r c Hc; cbn [read_l1]; [rewrite app_nil_r; by destruct r|].
  unfold l1_get. rewrite Hc. cbn. rewrite IH by done. cbn. by rewrite <- app_assoc.
Qed.

(** What the pass over the texts says of one key. *)
Definition says (k : string) (a : cache_state * pyval) (r : lookup) : Prop :=
  match a with
  | (HIT, v) => dict_get k (lk_states r) = Some HIT /\ dict_get k (lk_values r) = Some v /\ k ∉ lk_missing r
  | (MISS, _) => dict_get k (lk_states r) = Some MISS /\ dict_get k (lk_values r) = None /\ k ∉ lk_missing r
  | (UNKNOWN, _) => dict_get k (lk_states r) = None /\ dict_get k (lk_values r) = None /\ k ∈ lk_missing r
  end.

Lemma read_l2_other k blobs : forall r, k ∉ blobs.*1 ->
  dict_get k (lk_states (read_l2 blobs r)) = dict_get k (lk_states r) /\
  dict_get k (lk_values (read_l2 blobs r)) = dict_get k (lk_values r) /\
  (k ∈ lk_missing (read_l2 blobs r) <-> k ∈ lk_missing r).
Proof.
  induction blobs as [|[k' blob] blobs IH]; intros r Hk; [done|]. cbn in Hk. apply not_elem_of_cons in Hk as [Hne Hk]. cbn [read_l2].
  destruct (read_blob blob) as [[] v]; (edestruct (IH) as (Hs & Hv & Hm); [exact Hk|]); rewrite Hs, Hv, Hm; cbn;
    rewrite ?dict_get_set_ne by done; split_and!; try done.
  rewrite elem_of_app, list_elem_of_singleton. naive_solver.
Qed.
Lemma read_l2_at k blob blobs : forall r, NoDup blobs.*1 -> (k, blob) ∈ blobs ->
  dict_get k (lk_states r) = None -> dict_get k (lk_values r) = None -> k ∉ lk_missing r ->
  says k (read_blob blob) (read_l2 blobs r).
Proof.
  induction blobs as [|[k' blob'] blobs IH]; intros r Hnd Hin Hs Hv Hm; [by apply not_elem_of_nil in Hin|].
  cbn in Hnd. apply NoDup_cons in Hnd as [Hnin Hnd]. apply elem_of_cons in Hin as [[= <- <-]|Hin].
  - cbn [read_l2]. destruct (read_blob blob) as [[] v]; cbn [says];
      (edestruct (read_l2_other k blobs) as (Hs' & Hv' & Hm'); [exact Hnin|]); rewrite Hs', Hv', Hm'; cbn;
      rewrite ?dict_get_set_eq; split_and!; try done.
    apply elem_of_app. right. by apply list_elem_of_singleton.
  - assert (k <> k') as Hne by (intros ->; apply Hnin, list_elem_of_fmap; by exists (k', blob)). cbn [read_l2].
    apply IH; try done; destruct (read_blob blob') as [[] v]; cbn; rewrite ?dict_get_set_ne by done; try done.
    rewrite elem_of_app, list_elem_of_singleton. naive_solver.
Qed.

Lemma put_l2_entries ttl nttl cmds : forall s,
  t_now (foldl (put_l2 ttl nttl) s cmds) = t_now s /\
  (forall k, k ∉ (fst ∘ fst) <$> cmds -> t_entry (foldl (put_l2 ttl nttl) s cmds) k = t_entry s k) /\
  (NoDup ((fst ∘ fst) <$> cmds) -> forall k v b, (k, v, b) ∈ cmds ->
     t_entry (foldl (put_l2 ttl nttl) s cmds) k = Some (b, Some (t_now s + 1000 * Z.max (if is_none v then nttl else ttl) 1))).
Proof.
  induction cmds as [|[[k0 v0] b0] cmds IH]; intros s; [split_and!; [done|done|intros _ k v b Hin; by apply not_elem_of_nil in Hin]|].
  cbn [foldl]. destruct (IH (put_l2 ttl nttl s (k0, v0, b0))) as (Hn & Ho & Hi). assert (t_now (put_l2 ttl nttl s (k0, v0, b0)) = t_now s) as Hs0 by apply t_set_now. rewrite Hs0 in Hn, Hi.
  split_and!; [by rewrite Hn| |].
  - intros k Hk. cbn in Hk. apply not_elem_of_cons in Hk as [Hne Hk]. rewrite Ho by done. unfold put_l2. cbn.
    apply String.eqb_neq in Hne. by rewrite t_set_entry, Hne by lia.
  - intros Hnd k v b Hin. cbn in Hnd. apply NoDup_cons in Hnd as [Hnin Hnd]. apply elem_of_cons in Hin as [[= -> -> ->]|Hin].
    + rewrite Ho by done. unfold put_l2. cbn. by rewrite t_set_entry, String.eqb_refl by lia.
    + by apply Hi.
Qed.

(** [shared_answers] (one worker's answers serve the others, and only
    answers).  After a worker stores what the provider answered, another worker
    that asks the shared store before anything expires gets, for each key it
    asks: the value the provider gave; a miss, when the provider said it does not
    know the key; and for a key the provider did not answer (a quota, a timeout),
    exactly what was there before, so that silence is never read as a miss. *)
Theorem shared_answers resolved ttl negative_ttl keys now1 now2 c1 c2 s d :
  NoDup resolved.*1 -> Forall (fun kv => is_none kv.2 = true \/ readable kv.2) resolved ->
  NoDup keys -> l1_data c2 = [] -> 0 <= d < 1000 * Z.max (Z.min ttl negative_ttl) 1 ->
  let s' := t_tick d (put_many now1 true resolved ttl negative_ttl c1 s).2 in
  let r := (get_many now2 true keys c2 s').1 in
  forall k, k ∈ keys ->
    match dict_get k resolved with
    | Some v => says k (if is_none v then MISS else HIT, v) r
    | None => says k (read_blob (text_at (t_tick d s) k)) r
    end.
Proof.
  intros Hnd Hread Hkeys Hc Hd. cbn zeta. intros k Hk.
  assert (exists cmds, result_map (fun kv => b ← blob_of kv.2; Ok (kv, b)) resolved = Ok cmds /\ cmds.*1 = resolved /\
    Forall (fun kb => blob_of kb.1.2 = Ok kb.2) cmds) as (cmds & Hcmds & Hfst & Hblobs).
  { clear -Hread. induction Hread as [|[k v] l Hv _ IH]; [exists []; split_and!; [done|done|apply Forall_nil_2]|].
    destruct IH as (cmds & Hc & Hf & Hb). assert (exists b, blob_of v = Ok b) as [b Hb'].
    { unfold blob_of. cbn in Hv. destruct (is_none v); [by eexists|]. destruct Hv as [?|(b & Hx & _)]; [done|by exists b]. }
    exists ((k, v, b) :: cmds). cbn. rewrite Hb'. cbn. rewrite Hc. cbn. rewrite Hf. split_and!; [done|done|by apply Forall_cons_2]. }
  unfold put_many. rewrite Hcmds. cbn [snd]. set (s1 := foldl _ s cmds).
  destruct (put_l2_entries ttl negative_ttl cmds s) as (Hn1 & Ho1 & Hi1). fold s1 in Hn1, Ho1, Hi1.
  assert ((fst ∘ fst) <$> cmds = resolved.*1) as Hkk by (by rewrite <- Hfst, list_fmap_compose).
  rewrite Hkk in Ho1, Hi1.
  unfold get_many. rewrite read_l1_empty by done. cbn [lk_missing lk_values lk_states app].
  destruct keys as [|k0 keys0]; [by apply not_elem_of_nil in Hk|]. set (keys := k0 :: keys0) in *. cbn [fst].
  set (s2 := t_tick d s1). set (blobs := (fun k => (k, text_at s2 k)) <$> keys).
  assert (says k (read_blob (text_at s2 k)) (read_l2 blobs (Lookup [] [] []))) as Hsays.
  { apply (read_l2_at k (text_at s2 k)); try done.
    - subst blobs. rewrite <- list_fmap_compose. by rewrite (list_fmap_id keys : (fst ∘ (fun k => (k, text_at s2 k))) <$> keys = keys).
    - apply list_elem_of_fmap. by exists k.
    - by intros ?%not_elem_of_nil. }
  destruct (dict_get k resolved) as [v|] eqn:Ek.
  - apply dict_get_elem in Ek. rewrite <- Hfst in Ek. apply list_elem_of_fmap in Ek as ([[k' v'] b] & [= <- <-] & Hin).
    assert (text_at s2 k = Some b) as Htext.
    { unfold text_at, s2. rewrite t_tick_entry, (Hi1 Hnd k v b Hin), Hn1 by lia. cbn.
      destruct (Z.ltb_spec (t_now s + d) (t_now s + 1000 * Z.max (if is_none v then negative_ttl else ttl) 1)); [done|].
      destruct (is_none v); lia. }
    rewrite Htext in Hsays. rewrite Forall_forall in Hblobs. specialize (Hblobs _ Hin). cbn in Hblobs. unfold blob_of in Hblobs.
    destruct (is_none v) eqn:Ev; [injection Hblobs as <-; by destruct v|].
    rewrite Forall_forall in Hread. assert ((k, v) ∈ resolved) as Hkv by (rewrite <- Hfst; apply list_elem_of_fmap; by exists (k, v, b)).
    destruct (Hread _ Hkv) as [Hx|(b' & Hb' & Hl & Hne)]; [cbn in Hx; congruence|]. cbn [snd] in Hb', Hl. rewrite Hblobs in Hb'. injection Hb' as <-.
    unfold read_blob in Hsays. apply String.eqb_neq in Hne. by rewrite Hne, Hl in Hsays.
  - assert (text_at s2 k = text_at (t_tick d s) k) as Htext; [|by rewrite <- Htext].
    unfold text_at, s2. rewrite !t_tick_entry, Hn1, Ho1 by first [lia|by apply dict_get_None]. done.
Qed.
End shared.

(** ** An in-memory store *)

Record text_store := TextStore { ts_now : Z; ts_map : gmap string text_entry }.
Definition ts_entry (s : text_store) (k : string) : option text_entry := text_live (ts_now s) (ts_map s !! k).
Definition ts_put (k : string) (e : text_entry) (s : text_store) : text_store := TextStore (ts_now s) (<[k := e]> (ts_map s)).

#[export] Instance mem_texts : RedisText text_store := {
  t_now := ts_now;
  t_entry := ts_entry;
  t_set_ex k v ttl s := ts_put k (v, Some (ts_now s + 1000 * ttl)) s;
  t_set_nx_px k v ttl s :=
    if bool_decide (ts_entry s k = None) then (ts_put k (v, Some (ts_now s + ttl)) s, true) else (s, false);
  t_del k s := TextStore (ts_now s) (delete k (ts_map s));
  t_tick d s := TextStore (ts_now s + d) (ts_map s);
}.

Lemma ts_put_entry k v deadline s k' :
  ts_now s < deadline -> ts_entry (ts_put k (v, Some deadline) s) k' = if String.eqb k' k then Some (v, Some deadline) else ts_entry s k'.
Proof.
  intros Hd. unfold ts_entry, ts_put. cbn [ts_now ts_map]. destruct (String.eqb_spec k' k) as [->|Hne].
  - rewrite lookup_insert_eq. cbn. by destruct (Z.ltb_spec (ts_now s) deadline); [|lia].
  - by rewrite lookup_insert_ne.
Qed.

#[export] Instance mem_texts_laws : RedisTextLaws text_store.
Proof.
  split; try done.
  - intros k v ttl s k' Ht. cbn. apply ts_put_entry. lia.
  - intros k v ttl s. cbn. by case_bool_decide.
  - intros k v ttl s. cbn. by case_bool_decide.
  - intros k v ttl s k' Ht. cbn. case_bool_decide; cbn; [|by rewrite andb_false_r].
    rewrite andb_true_r. apply ts_put_entry. lia.
  - intros k s k'. cbn. unfold ts_entry. cbn. destruct (String.eqb_spec k' k) as [->|Hne]; [by rewrite lookup_delete_eq|by rewrite lookup_delete_ne].
  - intros d s k Hd. cbn. unfold ts_entry. cbn [ts_now ts_map]. destruct (ts_map s !! k) as [[v [dl|]]|]; cbn; try done.
    destruct (Z.ltb_spec (ts_now s) dl); cbn; [done|]. by destruct (Z.ltb_spec (ts_now s + d) dl); [lia|].
Qed.

(** ** Examples *)

Section examples.
#[local] Instance demo_compact : CompactJson := fun v => match v with PDict _ => Ok "row" | _ => Raise EType end.
#[local] Instance demo_row_loads : JsonLoads := fun s =>
  if String.eqb s "row" then Ok (PDict [("score", PInt 90)]) else Raise EJsonDecode.

Definition demo_ops : list l1_op :=
  [OpPut "a" HIT (PInt 1) 100 0; OpPut "b" MISS PNone 100 1; OpGet "a" 2; OpPut "c" HIT (PInt 3) 100 3].

(** Two entries fit: [b] was the least recently used. *)
Lemma l1_evicts_oldest :
  (l1_get 4 "a" (l1_run (l1_new 2) demo_ops)).1 = (HIT, PInt 1) /\ (l1_get 4 "b" (l1_run (l1_new 2) demo_ops)).1 = (UNKNOWN, PNone).
Proof. vm_compute. auto. Qed.

Lemma l1_retains_witness :
  (l1_get 4 "a" (l1_run (l1_new 2) ([] ++ OpPut "a" HIT (PInt 1) 100 0 :: [OpGet "a" 2; OpPut "c" HIT (PInt 3) 100 3]))).1 = (HIT, PInt 1).
Proof.
  apply l1_retains.
  - discriminate.
  - reflexivity.
  - reflexivity.
  - apply Forall_cons_2; [split; [reflexivity|discriminate]|]. apply Forall_cons_2; [|apply Forall_nil_2].
    split; [reflexivity|]. intros x Hx. discriminate Hx.
  - vm_compute. reflexivity.
Defined.

Definition demo_resolved : list (string * pyval) := [("x", PDict [("score", PInt 90)]); ("y", PNone)].
Lemma shared_answers_witness :
  let s' := t_tick 5000 (put_many 0 true demo_resolved 60 10 (l1_new 5) (TextStore 0 ∅)).2 in
  let r := (get_many 0 true ["x"; "y"; "z"] (l1_new 5) s').1 in
  says "x" (HIT, PDict [("score", PInt 90)]) r /\ says "y" (MISS, PNone) r /\ says "z" (UNKNOWN, PNone) r.
Proof.
  assert (Forall (fun kv => is_none kv.2 = true \/ readable kv.2) demo_resolved) as Hr.
  { apply Forall_cons_2; [right; exists "row"; split; [reflexivity|]; split; [reflexivity|discriminate]|].
    apply Forall_cons_2; [left; reflexivity|apply Forall_nil_2]. }
  assert (NoDup demo_resolved.*1) as Hd by ((apply (bool_decide_unpack _); vm_compute; exact I)).
  assert (NoDup ["x"; "y"; "z"]) as Hk by ((apply (bool_decide_unpack _); vm_compute; exact I)).
  assert (0 <= 5000 < 1000 * Z.max (Z.min 60 10) 1) as Ht by (split; [discriminate|reflexivity]).
  pose proof (shared_answers demo_resolved 60 10 ["x"; "y"; "z"] 0 0 (l1_new 5) (l1_new 5) (TextStore 0 ∅) 5000 Hd Hr Hk eq_refl Ht) as Hall.
  assert ("x" ∈ ["x"; "y"; "z"] /\ "y" ∈ ["x"; "y"; "z"] /\ "z" ∈ ["x"; "y"; "z"]) as (Hx & Hy & Hz)
    by (split_and!; apply (bool_decide_unpack _); vm_compute; exact I).
  split; [exact (Hall "x" Hx)|]. split; [exact (Hall "y" Hy)|exact (Hall "z" Hz)].
Defined.
End examples.
