(* ===== verification/EnrichRuntime.v ===== *)
(** * The remote enrichment of a batch

    Models [EnrichRuntime.resolve_remote] of [enrich/runtime.py] with the resolutions
    it feeds, the breaker of each source and the seam of the pipeline that applies
    the result ([_enrich_remote_batch]): the distinct keys of a batch are looked up
    in the cache, then asked to a provider within the budget of the batch, and the
    rows found are applied to every event by the same applier as the local rules.

    What happens outside is a [world] given per rule: the clock, the commands
    that reach Redis, what other workers do to the shared stores, and what the
    provider answers to the keys it is asked.  A ghost [log] records the keys
    asked and the locks, so that the theorems can speak of them.  Metrics and the
    activity ring are left out. *)

From S2P Require Import Prelude PyVal Operators Conditions Predicates Dedupe Redaction Routing Store Breaker EnrichDsl EnrichApply EnrichCache.

Local Open Scope string_scope.
Local Open Scope list_scope.
Local Open Scope Z_scope.

(** ** Resolutions *)

Definition table_resolution (tables : gmap string (string -> pyval)) : resolution :=
  fun rule_id key => match tables !! rule_id with Some lookup => Ok (true, lookup key) | None => Ok (false, PNone) end.

Abbreviation bulk_rows := (gmap (string * string) pyval).
Definition bulk_resolution (rows : bulk_rows) : resolution :=
  fun rule_id key => match rows !! (rule_id, key) with Some v => Ok (true, v) | None => Ok (false, PNone) end.

Fixpoint chain_resolution (chain : list resolution) : resolution :=
  fun rule_id key =>
    match chain with
    | [] => Ok (false, PNone)
    | r :: rest => a ← r rule_id key; if a.1 : bool then Ok (true, a.2) else chain_resolution rest rule_id key
    end.

Section keys.
Context `{JmesPath} `{FastPath} `{FloatRepr}.

(** [_distinct_keys]: in the order they are met, of the events the gate lets by. *)
Definition distinct_keys (batch : list envelope) (rule : compiled_enrich_rule) : list string :=
  foldl (fun seen env =>
           if gate rule env then
             match extract_key env rule with
             | Some key => if bool_decide (key ∈ seen) then seen else seen ++ [key]
             | None => seen
             end
           else seen) [] batch.
End keys.

(** ** The breaker of a source *)

Record breaker_settings := BreakerSettings {
  bs_threshold : Z;
  bs_window : Z;
  bs_cooldown : Z;
  bs_max_cooldown : Z;
}.
Definition trips_key (breaker_id : string) : string := (key_open breaker_id +:+ ":trips")%string.

(** Which commands of a call reach the server. *)
Record commands_up := CommandsUp {
  up_ttl : bool; up_exists : bool; up_probe : bool;
  up_trips : bool; up_was_open : bool; up_incr : bool; up_set : bool; up_is_open : bool; up_count : bool; up_expire : bool;
  up_success : bool;
}.
Definition all_up : commands_up := CommandsUp true true true true true true true true true true true.

Section breaker.
Context {S : Type} `{Redis S}.
Variable cfg : breaker_settings.

(** [TTL k]: what is left, -1 without a deadline, -2 without the key. *)
Definition redis_ttl (s : S) (k : string) : Z :=
  match r_entry s k with Some (_, Some deadline) => deadline - r_now s | Some (_, None) => -1 | None => -2 end.

(** [_breaker_is_open]: [None] when the call may be made. *)
Definition breaker_is_open (u : commands_up) (breaker_id : string) (s : S) : S * option Z :=
  let ttl := if up_ttl u then redis_ttl s (key_open breaker_id) else -1 in
  let probe_ttl := if 0 <? ttl then ttl else bs_cooldown cfg in
  match check (up_exists u) (up_probe u) breaker_id probe_ttl s with
  | (s', Ok _) => (s', None)
  | (s', Raise _) => (s', Some (Z.max ttl 0))
  end.

Definition cooldown_for (trips min_cooldown : Z) : Z :=
  Z.max (Z.min (bs_cooldown cfg * 2 ^ trips) (bs_max_cooldown cfg)) min_cooldown.

(** [_breaker_failure]; [min_cooldown] is the provider's delay, in whole seconds. *)
Definition breaker_failure (u : commands_up) (breaker_id : string) (open_now : bool) (min_cooldown : Z) (s : S) : S :=
  let trips := if up_trips u then default 0 (fst <$> r_entry s (trips_key breaker_id)) else 0 in
  let was_open := up_was_open u && is_open s breaker_id in
  let threshold := if open_now || was_open then 1 else bs_threshold cfg in
  let s1 := record_failure (up_incr u) (up_set u) breaker_id threshold (cooldown_for trips min_cooldown) (bs_window cfg) s in
  if up_is_open u && is_open s1 breaker_id && up_count u then
    let s2 := (r_incr (trips_key breaker_id) s1).1 in
    if up_expire u then r_expire (trips_key breaker_id) (bs_max_cooldown cfg * 2) s2 else s2
  else s1.

Definition breaker_success (u : commands_up) (breaker_id : string) (s : S) : S := record_success (up_success u) breaker_id s.
End breaker.

(** ** One batch *)

(** The provider's reply: the keys it answers, or its failure, with the delay of
    a 429 when there is one. *)
Inductive provider_answer :=
| Answered (rows : list (string * pyval))
| TimedOut
| Failed (retry_after : option Z).

Section resolve.
Context `{JmesPath} `{FastPath} `{FloatRepr} `{Sha1} `{CompactJson} `{JsonLoads}.
Context {T S : Type} `{RedisText T} `{Redis S}.

(** What a rule meets outside. *)
Record world := World {
  w_others : T -> T;                         (* other workers, in the cache's store *)
  w_breaker_others : S -> S;                 (* and in the breaker's *)
  w_now : Z;                                 (* the local clock, when the cache is read *)
  w_mget_up : bool;
  w_remaining : Z;                           (* what is left of the budget *)
  w_lock_up : string -> bool;
  w_polls : string -> list (option (option string));
  w_commands : commands_up;
  w_source_found : bool;                     (* _resolve_source does not raise LookupError *)
  w_factory_ok : bool;                       (* nothing else raises there, nor reg.factory(config) *)
  w_answer : list string -> provider_answer;
  w_release_up : string -> bool;
  w_put_now : Z;
  w_put_up : bool;
}.

Inductive log_entry :=
| LogCached (rule_id key : string) (answer : cache_state * pyval)
| LogPeer (rule_id key : string) (answer : cache_state * pyval)
| LogLocked (cache_key : string)
| LogUnlocked (cache_key : string)
| LogAsked (rule_id : string) (keys : list string) (answer : provider_answer).

Record state := State {
  rs_l1 : l1_cache;
  rs_l2 : T;
  rs_breaker : S;
  rs_disabled : list string;                 (* enrichers out for the cycle *)
  rs_rows : bulk_rows;
  rs_log : list log_entry;
}.

Variables (org_id lock_ttl_ms : Z) (settings : breaker_settings) (registry : enricher_registry)
  (suggested : string -> Z * Z).             (* ttl and negative ttl an enricher suggests *)

(** [rule.source] is a name. *)
Definition has_source (rule : compiled_enrich_rule) : bool :=
  match er_source rule with Some s => negb (String.eqb s "") | None => false end.
Definition breaker_id (rule : compiled_enrich_rule) : string :=
  ("enrich:" +:+ str_of_Z org_id +:+ ":" +:+
   if has_source rule then default "" (er_source rule) else er_enricher rule)%string.

Definition add_row (id key : string) (v : pyval) (rows : bulk_rows) : bulk_rows := <[(id, key) := v]> rows.
(** A stored answer as a row: a miss is a row without a value. *)
Definition answer_value (a : cache_state * pyval) : pyval := match a.1 with HIT => a.2 | _ => PNone end.

(** The answers of the cache, as rows. *)
Definition cached_rows (id : string) (inv : list (string * string)) (lk : lookup) (st : state) : state :=
  foldl (fun st (cs : string * cache_state) =>
           let key := default "" (dict_get cs.1 inv) in
           let a := (cs.2, dget cs.1 (lk_values lk)) in
           State (rs_l1 st) (rs_l2 st) (rs_breaker st) (rs_disabled st) (add_row id key (answer_value a) (rs_rows st))
             (rs_log st ++ [LogCached id key a]))
    st (lk_states lk).

(** The single flight: the keys this worker resolves itself. *)
Fixpoint single_flight (w : world) (id : string) (ck : string -> string) (keys owned : list string) (st : state) : list string * state :=
  match keys with
  | [] => (owned, st)
  | key :: rest =>
      let g := acquire_single_flight (w_lock_up w key) lock_ttl_ms (ck key) (rs_l2 st) in
      if g.2 then
        single_flight w id ck rest (owned ++ [key])
          (State (rs_l1 st) g.1 (rs_breaker st) (rs_disabled st) (rs_rows st) (rs_log st ++ [LogLocked (ck key)]))
      else
        let a := wait_for_peer (w_polls w key) in
        let st' := State (rs_l1 st) g.1 (rs_breaker st) (rs_disabled st)
                     (match a.1 with UNKNOWN => rs_rows st | _ => add_row id key (answer_value a) (rs_rows st) end)
                     (rs_log st ++ [LogPeer id key a]) in
        single_flight w id ck rest (match a.1 with UNKNOWN => owned ++ [key] | _ => owned end) st'
  end.

Definition release_all (w : world) (ck : string -> string) (owned : list string) (st : state) : state :=
  State (rs_l1 st) (foldl (fun l2 key => release_single_flight (w_release_up w key) (ck key) l2) (rs_l2 st) owned)
    (rs_breaker st) (rs_disabled st) (rs_rows st) (rs_log st ++ ((fun key => LogUnlocked (ck key)) <$> owned)).

Definition disable (enricher : string) (st : state) : state :=
  State (rs_l1 st) (rs_l2 st) (rs_breaker st) (enricher :: rs_disabled st) (rs_rows st) (rs_log st).
Definition with_breaker (b : S) (st : state) : state :=
  State (rs_l1 st) (rs_l2 st) b (rs_disabled st) (rs_rows st) (rs_log st).
Definition logged (e : log_entry) (st : state) : state :=
  State (rs_l1 st) (rs_l2 st) (rs_breaker st) (rs_disabled st) (rs_rows st) (rs_log st ++ [e]).

(** What the provider answered becomes rows and cache entries; a key it left out
    becomes nothing. *)
Definition commit_answer (w : world) (id : string) (ck : string -> string) (owned : list string) (ttl nttl : Z)
    (resolved : list (string * pyval)) (st : state) : state :=
  let answered := filter (fun key => dict_has key resolved = true) owned in
  let rows := foldl (fun rows key => add_row id key (dget key resolved) rows) (rs_rows st) answered in
  let entries := foldl (fun d key => dict_set (ck key) (dget key resolved) d) [] answered in
  let c := put_many (w_put_now w) (w_put_up w) entries ttl nttl (rs_l1 st) (rs_l2 st) in
  State c.1 c.2 (rs_breaker st) (rs_disabled st) rows (rs_log st).

(** The provider is asked. *)
Definition ask (w : world) (rule : compiled_enrich_rule) (ck : string -> string) (owned : list string) (ttl nttl : Z) (st : state) : state :=
  let id := er_rule_id rule in
  let answer := w_answer w owned in
  let st1 := logged (LogAsked id owned answer) st in
  let fail open_now delay st := with_breaker (breaker_failure settings (w_commands w) (breaker_id rule) open_now delay (rs_breaker st)) st in
  match answer with
  | TimedOut => release_all w ck owned (fail false 0 (disable (er_enricher rule) st1))
  | Failed retry =>
      release_all w ck owned (fail (bool_decide (is_Some retry)) (default 0 retry) st1)
  | Answered resolved =>
      let st2 := release_all w ck owned st1 in
      commit_answer w id ck owned ttl nttl resolved
        (with_breaker (breaker_success (w_commands w) (breaker_id rule) (rs_breaker st2)) st2)
  end.

Definition ttls_of (rule : compiled_enrich_rule) : Z * Z :=
  (default (suggested (er_enricher rule)).1 (er_ttl_s rule), default (suggested (er_enricher rule)).2 (er_negative_ttl_s rule)).

(** One rule; [true] when the loop goes on. *)
Definition resolve_rule (policy_version : Z) (batch : list envelope) (w : world) (rule : compiled_enrich_rule) (st : state)
  : result (state * bool) :=
  let id := er_rule_id rule in
  if bool_decide (er_enricher rule ∈ rs_disabled st) then Ok (st, true)
  else if bool_decide (registry !! er_enricher rule = None) then Ok (st, true)
  else
    let keys := distinct_keys batch rule in
    if bool_decide (keys = []) then Ok (st, true)
    else
      let ck := cache_key org_id (er_enricher rule) (str_of_Z policy_version) in
      let inv := foldl (fun inv key => dict_set (ck key) key inv) [] keys in
      let g := get_many (w_now w) (w_mget_up w) (ck <$> keys) (rs_l1 st) (w_others w (rs_l2 st)) in
      let st1 := cached_rows id inv g.1
                   (State g.2 (w_others w (rs_l2 st)) (w_breaker_others w (rs_breaker st)) (rs_disabled st) (rs_rows st) (rs_log st)) in
      let to_resolve := (fun c => default "" (dict_get c inv)) <$> lk_missing g.1 in
      if bool_decide (to_resolve = []) then Ok (st1, true)
      else if w_remaining w <=? 0 then Ok (st1, false)
      else
        let f := single_flight w id ck to_resolve [] st1 in
        if bool_decide (f.1 = []) then Ok (f.2, true)
        else
          let b := breaker_is_open settings (w_commands w) (breaker_id rule) (rs_breaker f.2) in
          let st2 := with_breaker b.1 f.2 in
          if bool_decide (is_Some b.2) then Ok (release_all w ck f.1 (disable (er_enricher rule) st2), true)
          else if has_source rule && negb (w_source_found w) then Ok (disable (er_enricher rule) st2, true)
          else if negb (w_factory_ok w) then Raise EOther
          else Ok (ask w rule ck f.1 (ttls_of rule).1 (ttls_of rule).2 st2, true).

(** The loop over the rules; each has its world. *)
Fixpoint resolve_rules (policy_version : Z) (batch : list envelope) (rules : list (compiled_enrich_rule * world)) (st : state) : result state :=
  match rules with
  | [] => Ok st
  | (rule, w) :: rest =>
      r ← resolve_rule policy_version batch w rule st;
      if r.2 : bool then resolve_rules policy_version batch rest r.1 else Ok r.1
  end.

(** [resolve_remote]; without the dedicated store nothing is resolved. *)
Definition resolve_remote (cache_available : bool) (policy : compiled_policy) (batch : list envelope)
    (worlds : compiled_enrich_rule -> world) (st : state) : result state :=
  let rules := remote_rules policy in
  if bool_decide (rules = []) || bool_decide (batch = []) || negb cache_available
  then Ok (State (rs_l1 st) (rs_l2 st) (rs_breaker st) (rs_disabled st) ∅ (rs_log st))
  else resolve_rules (policy_version policy) batch ((fun rule => (rule, worlds rule)) <$> rules)
         (State (rs_l1 st) (rs_l2 st) (rs_breaker st) (rs_disabled st) ∅ (rs_log st)).

(** [_enrich_remote_batch]: the events with what was resolved, or as they were. *)
Fixpoint apply_batch (rules : list compiled_enrich_rule) (resolve : resolution) (batch : list envelope) (s : apply_stats)
  : list envelope * apply_stats :=
  match batch with
  | [] => ([], s)
  | env :: rest =>
      let r := apply env rules resolve s in
      let rs := apply_batch rules resolve rest r.2 in
      (r.1.1 :: rs.1, rs.2)
  end.
Definition enrich_remote_batch (cache_available : bool) (policy : compiled_policy) (batch : list envelope)
    (worlds : compiled_enrich_rule -> world) (st : state) (s : apply_stats) : list envelope * apply_stats :=
  if bool_decide (batch = []) || negb (has_remote policy) then (batch, s)
  else match resolve_remote cache_available policy batch worlds st with
       | Raise _ => (batch, s)
       | Ok st' => apply_batch (remote_rules policy) (bulk_resolution (rs_rows st')) batch s
       end.
End resolve.

(** ** The keys of a batch *)

Section keys_lemmas.
Context `{JmesPath} `{FastPath} `{FloatRepr}.

Lemma distinct_keys_spec batch rule :
  NoDup (distinct_keys batch rule) /\
  forall k, k ∈ distinct_keys batch rule <-> exists env, env ∈ batch /\ gate rule env = true /\ extract_key env rule = Some k.
Proof.
  unfold distinct_keys. set (f := fun seen env => _).
  assert (forall batch seen, NoDup seen -> NoDup (foldl f seen batch) /\
    forall k, k ∈ foldl f seen batch <-> k ∈ seen \/ exists env, env ∈ batch /\ gate rule env = true /\ extract_key env rule = Some k) as Hf.
  { clear batch. induction batch as [|env batch IH]; intros seen Hnd.
    { cbn. split; [done|]. intros k. split; [by left|]. intros [?|(env & ?%not_elem_of_nil & _)]; done. }
    cbn [foldl]. assert (NoDup (f seen env) /\ forall k, k ∈ f seen env <-> k ∈ seen \/ (gate rule env = true /\ extract_key env rule = Some k)) as [Hnd' Hin].
    { unfold f. destruct (gate rule env); [|split; [done|naive_solver]]. destruct (extract_key env rule) as [key|]; [|split; [done|naive_solver]].
      case_bool_decide as Hk; [split; [done|naive_solver]|]. split; [apply NoDup_app; split_and!; [done|set_solver|apply NoDup_singleton]|].
      intros k. rewrite elem_of_app, list_elem_of_singleton. naive_solver. }
    destruct (IH (f seen env) Hnd') as [Hnd2 Hin2]. split; [done|]. intros k. rewrite Hin2, Hin. split.
    - intros [[?|?]|(e & He & ?)]; [by left|right; exists env; split; [left|done]|right; exists e; split; [by right|done]].
    - intros [?|(e & [->|He]%elem_of_cons & ?)]; [by do 2 left|left; by right|right; by exists e]. }
  destruct (Hf batch [] (NoDup_nil_2)) as [Hnd Hin]. split; [done|]. intros k. rewrite Hin. split; [|by right].
  by intros [?%not_elem_of_nil|].
Qed.
End keys_lemmas.

(** ** What the rows rest on *)

Section theorems.
Context `{JmesPath} `{FastPath} `{FloatRepr} `{Sha1} `{CompactJson} `{JsonLoads}.
Context {T S : Type} `{RedisText T} `{Redis S}.
Variables (org_id lock_ttl_ms : Z) (settings : breaker_settings) (registry : enricher_registry) (suggested : string -> Z * Z).
Abbreviation world := (@world T S).
Abbreviation state := (@state T S).
Implicit Types (st : state) (w : world) (log : list log_entry).

(** A row is an answer: one the cache had, one another worker left there, or one
    the provider gave to the keys it was asked. *)
Definition justified log (id key : string) (v : pyval) : Prop :=
  (exists a, LogCached id key a ∈ log /\ a.1 <> UNKNOWN /\ v = answer_value a) \/
  (exists a, LogPeer id key a ∈ log /\ a.1 <> UNKNOWN /\ v = answer_value a) \/
  (exists keys d, LogAsked id keys (Answered d) ∈ log /\ key ∈ keys /\ dict_get key d = Some v).
Definition rows_ok st : Prop := forall id key v, rs_rows st !! (id, key) = Some v -> justified (rs_log st) id key v.

(** A question is about keys that events the gate lets by have. *)
Definition asked_ok (batch : list envelope) (rules : list compiled_enrich_rule) (e : log_entry) : Prop :=
  match e with
  | LogAsked id keys _ =>
      exists rule, rule ∈ rules /\ id = er_rule_id rule /\ keys <> [] /\ forall k, k ∈ keys -> k ∈ distinct_keys batch rule
  | _ => True
  end.

(** Every lock taken is given back after it. *)
Fixpoint closed log : Prop :=
  match log with
  | [] => True
  | e :: rest => (match e with LogLocked c => LogUnlocked c ∈ rest | _ => True end) /\ closed rest
  end.

Lemma closed_app log1 log2 : closed log1 -> closed log2 -> closed (log1 ++ log2).
Proof. induction log1 as [|e log1 IH]; cbn; [done|]. intros [He Hc1] Hc2. split; [|by apply IH]. destruct e; try done. apply elem_of_app; by left. Qed.
Lemma closed_unlocked log (l : list string) (ck : string -> string) :
  (forall e, e ∈ log -> match e with LogLocked c => c ∈ ck <$> l | _ => True end) -> closed (log ++ ((fun k => LogUnlocked (ck k)) <$> l)).
Proof.
  intros Hl. induction log as [|e log IH]; cbn.
  - clear. induction l; cbn; done.
  - split; [|apply IH; intros; apply Hl; by right]. specialize (Hl e ltac:(left)). destruct e; try done.
    apply elem_of_app. right. apply list_elem_of_fmap in Hl as (k & -> & Hk). apply list_elem_of_fmap. by exists k.
Qed.

Lemma justified_mono log log' id key v : justified log id key v -> justified (log ++ log') id key v.
Proof. unfold justified. setoid_rewrite elem_of_app. naive_solver. Qed.

(** A state whose log extends another's, with rows to match. *)
Definition extends st st' (new : list log_entry) : Prop := rs_log st' = rs_log st ++ new /\ (rows_ok st -> rows_ok st').
Lemma extends_refl st : extends st st [].
Proof. split; [by rewrite app_nil_r|done]. Qed.
Lemma extends_trans st1 st2 st3 n1 n2 : extends st1 st2 n1 -> extends st2 st3 n2 -> extends st1 st3 (n1 ++ n2).
Proof. intros [L1 R1] [L2 R2]. split; [by rewrite L2, L1, <- app_assoc|auto]. Qed.

(** Adding a row with its log entry. *)
Lemma rows_ok_add st st' id key v e :
  rs_log st' = rs_log st ++ [e] -> rs_rows st' = add_row id key v (rs_rows st) -> justified [e] id key v -> extends st st' [e].
Proof.
  intros Hl Hr Hj. split; [done|]. intros Hok id' key' v'. rewrite Hr, Hl. unfold add_row.
  destruct (decide ((id, key) = (id', key'))) as [[= <- <-]|Hne].
  - rewrite lookup_insert_eq. intros [= <-]. unfold justified in *. setoid_rewrite elem_of_app. naive_solver.
  - rewrite lookup_insert_ne by done. intros Hv. by apply justified_mono, Hok.
Qed.
Lemma rows_ok_same st st' new :
  rs_log st' = rs_log st ++ new -> rs_rows st' = rs_rows st -> extends st st' new.
Proof. intros Hl Hr. split; [done|]. intros Hok id key v. rewrite Hr, Hl. intros Hv. by apply justified_mono, Hok. Qed.

Definition quiet (e : log_entry) : Prop := match e with LogCached _ _ _ | LogPeer _ _ _ => True | _ => False end.
Lemma quiet_asked batch rules log : Forall quiet log -> Forall (asked_ok batch rules) log.
Proof. intros Hq. eapply Forall_impl; [exact Hq|]. by intros []. Qed.

Lemma cached_rows_extends id inv (lk : lookup) st :
  Forall (fun cs => cs.2 <> UNKNOWN) (lk_states lk) ->
  exists new, extends st (cached_rows id inv lk st) new /\ Forall quiet new.
Proof.
  unfold cached_rows. intros Hs. revert st. induction Hs as [|[c s] l Hne _ IH]; intros st; cbn [foldl]; [exists []; split; [apply extends_refl|apply Forall_nil_2]|].
  set (st1 := State _ _ _ _ _ _). destruct (IH st1) as (new & He & Hq). exists ([LogCached id (default "" (dict_get c inv)) (s, dget c (lk_values lk))] ++ new).
  split; [|by apply Forall_cons_2]. eapply extends_trans; [|exact He]. eapply rows_ok_add; [done|done|]. left. eexists. split; [left|]. by cbn in *.
Qed.

Lemma single_flight_extends w id ck keys : forall owned st,
  let f := single_flight lock_ttl_ms w id ck keys owned st in
  (exists new, extends st f.2 new /\
    Forall (fun e => match e with LogLocked c => c ∈ ck <$> f.1 | LogPeer _ _ _ => True | _ => False end) new) /\
  (forall k, k ∈ f.1 -> k ∈ owned \/ k ∈ keys) /\ (forall k, k ∈ owned -> k ∈ f.1) /\ rs_disabled f.2 = rs_disabled st.
Proof.
  induction keys as [|key keys IH]; intros owned st; cbn [single_flight].
  { split_and!; [exists []; split; [apply extends_refl|apply Forall_nil_2]|by left|done|done]. }
  destruct (acquire_single_flight _ _ _ _) as [l2 got]. cbn [fst snd]. destruct got.
  - destruct (IH (owned ++ [key]) (State (rs_l1 st) l2 (rs_breaker st) (rs_disabled st) (rs_rows st) (rs_log st ++ [LogLocked (ck key)])))
      as ((new & He & Hq) & Hin & Hown & Hd). split_and!.
    + exists ([LogLocked (ck key)] ++ new). split; [eapply extends_trans; [|exact He]; by apply rows_ok_same|].
      apply Forall_app. split; [|done]. apply Forall_cons_2; [|apply Forall_nil_2]. apply list_elem_of_fmap. exists key. split; [done|].
      apply Hown, elem_of_app. right. by apply list_elem_of_singleton.
    + intros k [[?| ->%list_elem_of_singleton]%elem_of_app|?]%Hin; [by left|right; left|right; by right].
    + intros k Hk. apply Hown, elem_of_app. by left.
    + done.
  - set (a := wait_for_peer _). set (owned' := match a.1 with UNKNOWN => owned ++ [key] | _ => owned end).
    set (st1 := State _ _ _ _ _ _). destruct (IH owned' st1) as ((new & He & Hq) & Hin & Hown & Hd).
    assert (extends st st1 [LogPeer id key a]) as Hpeer.
    { subst st1. destruct a as [[] v]; cbn [fst]; [eapply rows_ok_add|eapply rows_ok_add|by apply rows_ok_same]; try done;
        right; left; eexists; (split; [left|done]). }
    split_and!.
    + exists ([LogPeer id key a] ++ new). split; [by eapply extends_trans|]. apply Forall_app. split; [by apply Forall_cons_2; [|apply Forall_nil_2]|done].
    + intros k Hk%Hin. subst owned'. destruct a.1; rewrite ?elem_of_app, ?list_elem_of_singleton, ?elem_of_cons in *; naive_solver.
    + intros k Hk. apply Hown. subst owned'. destruct a.1; rewrite ?elem_of_app; auto.
    + done.
Qed.

Lemma quiet_closed log : Forall quiet log -> closed log.
Proof. induction 1 as [|e log He _ IH]; cbn; [done|]. split; [by destruct e|done]. Qed.

Lemma release_all_log w ck owned st :
  rs_log (release_all w ck owned st) = rs_log st ++ ((fun k => LogUnlocked (ck k)) <$> owned) /\ rs_rows (release_all w ck owned st) = rs_rows st.
Proof. done. Qed.

Lemma ask_extends w rule ck owned ttl nttl st :
  extends st (ask org_id settings w rule ck owned ttl nttl st)
    ([LogAsked (er_rule_id rule) owned (w_answer w owned)] ++ ((fun k => LogUnlocked (ck k)) <$> owned)).
Proof.
  unfold ask. destruct (w_answer w owned) as [resolved| |retry]; cbn zeta.
  - set (st1 := with_breaker _ _).
    assert (rs_log st1 = rs_log st ++ [LogAsked (er_rule_id rule) owned (Answered resolved)] ++ ((fun k => LogUnlocked (ck k)) <$> owned)) as Hlog
      by (by rewrite app_assoc).
    split; [exact Hlog|]. intros Hok id key v. unfold commit_answer. cbn [rs_rows rs_log]. rewrite Hlog.
    assert (rs_rows st1 = rs_rows st) as -> by done.
    assert (forall ks rows, (forall k, k ∈ ks -> k ∈ owned /\ dict_has k resolved = true) ->
      foldl (fun rows k => add_row (er_rule_id rule) k (dget k resolved) rows) rows ks !! (id, key) = Some v ->
      rows !! (id, key) = Some v \/ (id = er_rule_id rule /\ key ∈ owned /\ dict_get key resolved = Some v)) as Hf.
    { induction ks as [|k ks IH]; intros rows Hks; [by left|]. cbn [foldl]. intros [Hr|Hr]%IH; [|by right|intros; apply Hks; by right].
      unfold add_row in Hr. destruct (decide ((er_rule_id rule, k) = (id, key))) as [[= <- <-]|Hne].
      - rewrite lookup_insert_eq in Hr. destruct (Hks k ltac:(left)) as [Hin Hhas]. right. split_and!; [done|done|].
        apply dict_has_true in Hhas as [x Hx]. unfold dget in Hr. rewrite Hx in Hr. cbn in Hr. congruence.
      - rewrite lookup_insert_ne in Hr by done. by left. }
    intros [Hr|(-> & Hin & Hv)]%Hf; [by apply justified_mono, Hok| |].
    + right; right. exists owned, resolved. split_and!; [|done|done]. apply elem_of_app. right. left.
    + intros k Hk. apply list_elem_of_filter in Hk as [? ?]. done.
  - apply rows_ok_same; [cbn; by rewrite <- app_assoc|done].
  - apply rows_ok_same; [cbn; by rewrite <- app_assoc|done].
Qed.

Lemma inverse_keys (ck : string -> string) keys c :
  c ∈ ck <$> keys -> exists k, k ∈ keys /\ dict_get c (foldl (fun inv key => dict_set (ck key) key inv) [] keys) = Some k.
Proof.
  assert (forall inv, (c ∈ ck <$> keys \/ (exists k, dict_get c inv = Some k)) ->
    exists k, dict_get c (foldl (fun inv key => dict_set (ck key) key inv) inv keys) = Some k /\ (k ∈ keys \/ dict_get c inv = Some k)) as Hf.
  { induction keys as [|k keys IH]; intros inv Hc; cbn.
    - destruct Hc as [Hc|[k Hk]]; [by apply not_elem_of_nil in Hc|]. exists k. split; [done|by right].
    - destruct (IH (dict_set (ck k) k inv)) as (k' & Hk' & Hin).
      + destruct Hc as [Hc|[k' Hk']]; [cbn in Hc; apply elem_of_cons in Hc as [->|Hc]; [right; exists k; by rewrite dict_get_set_eq|by left]|].
        right. destruct (decide (c = ck k)) as [->|Hne]; [exists k; by rewrite dict_get_set_eq|exists k'; by rewrite dict_get_set_ne].
      + exists k'. split; [done|]. destruct Hin as [?|Hin]; [left; by right|]. destruct (decide (c = ck k)) as [->|Hne].
        * rewrite dict_get_set_eq in Hin. injection Hin as <-. left. left.
        * rewrite dict_get_set_ne in Hin by done. by right. }
  intros Hc. destruct (Hf [] (or_introl Hc)) as (k & Hk & [Hin|Hin]); [by exists k|done].
Qed.

(** The locks of a rule are safe when its source is there. *)
Definition source_ok (rw : compiled_enrich_rule * world) : Prop := has_source rw.1 = true -> w_source_found rw.2 = true.

Lemma resolve_rule_extends version batch rules w rule st st' b :
  rule ∈ rules ->
  resolve_rule org_id lock_ttl_ms settings registry suggested version batch w rule st = Ok (st', b) ->
  exists new, extends st st' new /\ Forall (asked_ok batch rules) new /\ (source_ok (rule, w) -> closed new).
Proof.
  intros Hr. unfold resolve_rule.
  assert (exists new, extends st st new /\ Forall (asked_ok batch rules) new /\ (source_ok (rule, w) -> closed new)) as Hnil
    by (exists []; split_and!; [apply extends_refl|apply Forall_nil_2|done]).
  case_bool_decide; [by intros [= <- _]|]. case_bool_decide; [by intros [= <- _]|]. cbn zeta.
  set (keys := distinct_keys batch rule). case_bool_decide as Hkeys; [by intros [= <- _]|].
  set (ck := cache_key _ _ _). set (inv := foldl _ [] keys). set (g := get_many _ _ _ _ _).
  assert (lookup_ok (ck <$> keys) g.1) as [Hstates Hmissing] by apply get_many_lookup_ok.
  set (st0 := State g.2 _ _ _ _ _). set (st1 := cached_rows _ _ _ st0).
  assert (extends st st0 []) as He0 by (apply rows_ok_same; [cbn; by rewrite app_nil_r|done]).
  destruct (cached_rows_extends (er_rule_id rule) inv g.1 st0 Hstates) as (new1 & He1 & Hq1). fold st1 in He1.
  pose proof (extends_trans _ _ _ _ _ He0 He1) as He01. cbn [app] in He01.
  assert (Forall (asked_ok batch rules) new1) as Ha1 by by apply quiet_asked.
  set (to_resolve := _ <$> lk_missing g.1). case_bool_decide; [intros [= <- _]; exists new1; split_and!; [done|done|intros; by apply quiet_closed]|].
  destruct (w_remaining w <=? 0); [intros [= <- _]; exists new1; split_and!; [done|done|intros; by apply quiet_closed]|].
  destruct (single_flight_extends w (er_rule_id rule) ck to_resolve [] st1) as ((new2 & He2 & Hl2) & Hown & _ & _).
  set (f := single_flight _ _ _ _ _ _ st1) in *. pose proof (extends_trans _ _ _ _ _ He01 He2) as He12.
  assert (Forall (asked_ok batch rules) new2) as Ha2 by (eapply Forall_impl; [exact Hl2|]; by intros []).
  case_bool_decide as Hf; [intros [= <- _]; exists (new1 ++ new2); split_and!; [done|by apply Forall_app|]|].
  { intros _. apply closed_app; [by apply quiet_closed|]. rewrite <- (app_nil_r new2). apply (closed_unlocked new2 [] ck).
    rewrite Hf in Hl2. rewrite Forall_forall in Hl2. intros e Hin. specialize (Hl2 e Hin). by destruct e. }
  assert (forall st2 new3, extends f.2 st2 new3 -> Forall (asked_ok batch rules) new3 ->
    (source_ok (rule, w) -> closed (new1 ++ new2 ++ new3)) -> exists new, extends st st2 new /\ Forall (asked_ok batch rules) new /\ (source_ok (rule, w) -> closed new)) as Hfinish.
  { intros st2 new3 He3 Ha3 Hc. exists (new1 ++ new2 ++ new3). split_and!; [|by rewrite !Forall_app|done]. rewrite app_assoc. by eapply extends_trans. }
  assert (forall mid, (forall e, e ∈ mid -> match e with LogLocked _ => False | _ => True end) ->
    closed (new1 ++ new2 ++ mid ++ ((fun k => LogUnlocked (ck k)) <$> f.1))) as Hclosed.
  { intros mid Hmid. apply closed_app; [by apply quiet_closed|]. rewrite app_assoc. apply closed_unlocked. intros e [Hin|Hin]%elem_of_app.
    - rewrite Forall_forall in Hl2. specialize (Hl2 e Hin). by destruct e.
    - specialize (Hmid e Hin). by destruct e. }
  assert (Forall (asked_ok batch rules) ((fun k => LogUnlocked (ck k)) <$> f.1)) as Hunl
    by (apply Forall_forall; intros e (k & -> & _)%list_elem_of_fmap; done).
  set (br := breaker_is_open _ _ _ _). case_bool_decide; [intros [= <- _]|].
  { eapply (Hfinish _ ((fun k => LogUnlocked (ck k)) <$> f.1)); [by apply rows_ok_same|done|]. intros _. apply (Hclosed []). by intros e ?%not_elem_of_nil. }
  destruct (has_source rule && negb (w_source_found w)) eqn:Hs; [intros [= <- _]|].
  { apply (Hfinish _ []); [by apply rows_ok_same; [cbn; rewrite app_nil_r|]|apply Forall_nil_2|]. intros Hok.
    apply andb_true_iff in Hs as [Hs1 Hs2]. apply negb_true_iff in Hs2. specialize (Hok Hs1). cbn in Hok. congruence. }
  destruct (negb (w_factory_ok w)); [done|]. intros [= <- _].
  set (st2 := with_breaker br.1 f.2).
  eapply Hfinish; [eapply (extends_trans _ st2 _ []); [by apply rows_ok_same; [cbn; rewrite app_nil_r|]|apply ask_extends]| |].
  - cbn [app]. apply Forall_cons_2; [|exact Hunl]. exists rule. split_and!; [done|done|done|].
    intros k Hk. destruct (Hown k Hk) as [?%not_elem_of_nil|Hk2]; [done|]. apply list_elem_of_fmap in Hk2 as (c & -> & Hc).
    destruct (inverse_keys ck keys c (Hmissing c Hc)) as (k2 & Hin & Hget). subst inv. by rewrite Hget.
  - intros _. apply (Hclosed [LogAsked (er_rule_id rule) f.1 (w_answer w f.1)]). by intros e ->%list_elem_of_singleton.
Qed.

Lemma resolve_rules_extends version batch rules : forall rws st st',
  (forall rw, rw ∈ rws -> rw.1 ∈ rules) ->
  resolve_rules org_id lock_ttl_ms settings registry suggested version batch rws st = Ok st' ->
  exists new, extends st st' new /\ Forall (asked_ok batch rules) new /\ (Forall source_ok rws -> closed new).
Proof.
  induction rws as [|[rule w] rws IH]; intros st st' Hin; cbn [resolve_rules].
  { intros [= <-]. exists []. split_and!; [apply extends_refl|apply Forall_nil_2|done]. }
  intros H'. peel_bind H' as [st1 b] Hr. cbn [fst snd] in H'.
  destruct (resolve_rule_extends _ _ rules _ _ _ _ _ (Hin (rule, w) ltac:(left)) Hr) as (new1 & He1 & Ha1 & Hc1).
  destruct b.
  - destruct (IH st1 st') as (new2 & He2 & Ha2 & Hc2); [intros; apply Hin; by right|done|].
    exists (new1 ++ new2). split_and!; [by eapply extends_trans|by apply Forall_app|].
    intros [Hs Hss]%Forall_cons. apply closed_app; [by apply Hc1|by apply Hc2].
  - injection H' as <-. exists new1. split_and!; [done|done|]. intros [Hs _]%Forall_cons. by apply Hc1.
Qed.

Section batch.
Variables (cache_available : bool) (policy : compiled_policy) (batch : list envelope) (worlds : compiled_enrich_rule -> world)
  (st st' : state).
Hypothesis resolved :
  resolve_remote org_id lock_ttl_ms settings registry suggested cache_available policy batch worlds st = Ok st'.

Lemma resolve_remote_extends :
  exists new, rs_log st' = rs_log st ++ new /\ rows_ok st' /\ Forall (asked_ok batch (remote_rules policy)) new /\
    (Forall source_ok ((fun rule => (rule, worlds rule)) <$> remote_rules policy) -> closed new).
Proof.
  revert resolved. unfold resolve_remote. set (st0 := State _ _ _ _ _ _). destruct (_ || _).
  - intros [= <-]. exists []. split_and!; [cbn; by rewrite app_nil_r|done|apply Forall_nil_2|done].
  - intros Hr. edestruct (resolve_rules_extends (policy_version policy) batch (remote_rules policy)) as (new & [Hl Hrows] & Ha & Hc);
      [|exact Hr|].
    + intros rw (rule & -> & Hin)%list_elem_of_fmap. done.
    + exists new. split_and!; [done|by apply Hrows|done|done].
Qed.

(** [verdicts_justified] (no verdict is made up).  Whatever fails, every row the
    remote seam hands to the applier is an answer somebody gave to that rule's
    question: one the cache held, value or known miss, one another worker left
    while this one waited, or the provider's own for a key it was asked.  In
    particular a key the provider left out has no row. *)
Theorem verdicts_justified id key v :
  rs_rows st' !! (id, key) = Some v -> justified (rs_log st') id key v.
Proof. destruct resolve_remote_extends as (new & _ & Hok & _). apply Hok. Qed.

(** C15 [egress_gated] (what leaves the customer's network).  Every question put
    to a provider is put for a remote rule of the policy, is not empty, and asks
    only for keys that an event of the batch has and whose gate passes on that
    very event. *)
Theorem egress_gated :
  exists new, rs_log st' = rs_log st ++ new /\
    forall id keys answer, LogAsked id keys answer ∈ new ->
      exists rule, rule ∈ remote_rules policy /\ id = er_rule_id rule /\ keys <> [] /\
        forall k, k ∈ keys -> exists env, env ∈ batch /\ gate rule env = true /\ extract_key env rule = Some k.
Proof.
  destruct resolve_remote_extends as (new & Hl & _ & Ha & _). exists new. split; [done|]. intros id keys answer Hin.
  rewrite Forall_forall in Ha. destruct (Ha _ Hin) as (rule & Hr & -> & Hne & Hk). exists rule. split_and!; [done|done|done|].
  intros k Hk'. by apply distinct_keys_spec, Hk.
Qed.

(** [locks_released] (the single flight ends).  When the sources the rules name
    exist, every lock taken on a key is given back later in the same batch,
    whatever the provider, the breaker and the budget do. *)
Theorem locks_released :
  (forall rule, rule ∈ remote_rules policy -> has_source rule = true -> w_source_found (worlds rule) = true) ->
  exists new, rs_log st' = rs_log st ++ new /\
    forall before c after, new = before ++ LogLocked c :: after -> LogUnlocked c ∈ after.
Proof.
  intros Hsrc. destruct resolve_remote_extends as (new & Hl & _ & _ & Hc). exists new. split; [done|].
  assert (closed new) as Hclosed.
  { apply Hc. apply Forall_forall. intros rw (rule & -> & Hin)%list_elem_of_fmap. exact (Hsrc rule Hin). }
  clear -Hclosed. intros before. revert new Hclosed. induction before as [|e before IH]; intros new Hclosed c after ->; cbn in Hclosed; [by destruct Hclosed|].
  destruct Hclosed as [_ Hclosed]. by eapply IH.
Qed.

(** A log entry that answers a question of a rule. *)
Definition answers (id : string) (e : log_entry) : bool :=
  match e with
  | LogCached id' _ (s, _) | LogPeer id' _ (s, _) => String.eqb id' id && bool_decide (s <> UNKNOWN)
  | LogAsked id' keys (Answered d) => String.eqb id' id && existsb (fun k => dict_has k d) keys
  | _ => false
  end.

(** C14 [silence_is_not_a_miss] (an outage writes nothing).  When nobody answered a
    rule's questions in the batch, because of a quota, a timeout, an open breaker,
    an exhausted budget or a source that is not there, applying the rule leaves
    the event exactly as it is: no default, no tag, no source; and the rule counts
    no hit, no miss and no error. *)
Theorem silence_is_not_a_miss rule env s :
  (forall e, e ∈ rs_log st' -> answers (er_rule_id rule) e = false) ->
  let r := apply_one_rule (bulk_resolution (rs_rows st')) rule env s in
  r.1 = (env, false) /\ st_hits r.2 = st_hits s /\ st_misses r.2 = st_misses s /\ st_errors r.2 = st_errors s.
Proof.
  intros Hno. unfold apply_one_rule. destruct (gate rule env); [|done]. cbn [negb]. destruct (extract_key env rule) as [key|]; [|done].
  unfold bulk_resolution. destruct (rs_rows st' !! (er_rule_id rule, key)) as [v|] eqn:Hv; [|done]. exfalso.
  destruct resolve_remote_extends as (new & _ & Hok & _). destruct (Hok _ _ _ Hv) as [([a v'] & Hin & Hne & _)|[([a v'] & Hin & Hne & _)|(keys & d & Hin & Hk & Hd)]];
    specialize (Hno _ Hin); cbn in Hno; rewrite String.eqb_refl in Hno; cbn in Hno.
  1,2: by apply bool_decide_eq_false in Hno.
  assert (existsb (fun k => dict_has k d) keys = true) as He; [|congruence]. apply existsb_exists. exists key.
  split; [by apply list_elem_of_In|]. apply dict_has_true. by eexists.
Qed.
End batch.
End theorems.

(** ** The quarantine of a source *)

Section quarantine.
Context {S : Type} `{RedisLaws S}.
Variables (cfg : breaker_settings) (id : string).
Hypothesis cfg_ok : 0 < bs_cooldown cfg <= bs_max_cooldown cfg /\ 0 < bs_window cfg.

Lemma trips_key_other : trips_key id <> key_open id /\ trips_key id <> key_fail id.
Proof.
  split; unfold trips_key, key_open, key_fail; intros He; apply (f_equal String.length) in He; rewrite !str_length_app in He; cbn in He; lia.
Qed.

Lemma cooldown_bounds trips delay :
  0 <= trips -> bs_cooldown cfg <= cooldown_for cfg trips delay /\ (delay <= bs_max_cooldown cfg -> cooldown_for cfg trips delay <= bs_max_cooldown cfg).
Proof. intros Ht. unfold cooldown_for. assert (1 <= 2 ^ trips) by (pose proof (Z.pow_pos_nonneg 2 trips); lia). nia. Qed.

(** [quarantine_doubles] (how long a failing source is left alone).  A failure
    that opens the breaker, because the provider said when to come back, because
    the call was the probe of an open breaker, or because the failures of the
    window reach the threshold, closes the source for the base cooldown doubled
    once per opening so far, never beyond the maximum unless the provider itself
    asked for more, never less than the base; and it counts one more opening,
    remembered for twice the maximum.  Any other failure leaves the breaker
    closed and the count as it was. *)
Theorem quarantine_doubles (open_now : bool) delay s :
  let trips := default 0 (fst <$> r_entry s (trips_key id)) in
  let opens := open_now || is_open s id || (bs_threshold cfg <=? default 0 (fst <$> r_entry s (key_fail id)) + 1) in
  let s' := breaker_failure cfg all_up id open_now delay s in
  0 <= default 0 (fst <$> r_entry s (key_fail id)) -> 0 <= trips ->
  (if opens
   then r_entry s' (key_open id) = Some (1, Some (r_now s + cooldown_for cfg trips delay)) /\
        r_entry s' (trips_key id) = Some (trips + 1, Some (r_now s + bs_max_cooldown cfg * 2))
   else is_open s' id = false /\ r_entry s' (trips_key id) = r_entry s (trips_key id)) /\
  bs_cooldown cfg <= cooldown_for cfg trips delay /\
  (delay <= bs_max_cooldown cfg -> cooldown_for cfg trips delay <= bs_max_cooldown cfg) /\
  (delay <= bs_cooldown cfg -> cooldown_for cfg (trips + 1) delay = Z.min (2 * cooldown_for cfg trips delay) (bs_max_cooldown cfg)).
Proof.
  cbn zeta. intros Hfail Htrips. set (trips := default 0 (fst <$> r_entry s (trips_key id))) in *. destruct cfg_ok as [Hcd Hwin].
  destruct (cooldown_bounds trips delay Htrips) as [Hlo Hhi]. destruct trips_key_other as [Hto Htf].
  pose proof (key_fail_open id id) as Hfo. split; [|split_and!; [exact Hlo|exact Hhi|]].
  2: { intros Hd. unfold cooldown_for. rewrite Z.pow_add_r by lia. assert (1 <= 2 ^ trips) by (pose proof (Z.pow_pos_nonneg 2 trips); lia). nia. }
  unfold breaker_failure. cbn [all_up up_trips up_was_open up_incr up_set up_is_open up_count up_expire andb]. fold trips.
  unfold record_failure. pose proof (r_incr_value (key_fail id) s) as Hv. pose proof (r_incr_now (key_fail id) s) as Hn.
  pose proof (r_incr_entry (key_fail id) s) as He. destruct (r_incr (key_fail id) s) as [s0 count]. cbn [fst snd] in Hv, Hn, He.
  set (s1 := r_expire (key_fail id) (bs_window cfg) s0).
  assert (forall k, k <> key_fail id -> r_entry s1 k = r_entry s k) as He1.
  { intros k Hk. apply String.eqb_neq in Hk. subst s1. by rewrite r_expire_entry, Hk, He, Hk by lia. }
  assert (r_now s1 = r_now s) as Hn1 by (subst s1; by rewrite r_expire_now).
  assert (((if open_now || is_open s id then 1 else bs_threshold cfg) <=? count) =
          (open_now || is_open s id || (bs_threshold cfg <=? default 0 (fst <$> r_entry s (key_fail id)) + 1))) as ->.
  { rewrite Hv. destruct (open_now || is_open s id); [|done]. cbn. apply Z.leb_le. lia. }
  destruct (open_now || is_open s id || _) eqn:Ho; cbn [andb].
  - set (cd := cooldown_for cfg trips delay) in *. set (s2 := r_set_ex (key_open id) cd s1).
    assert (forall k, r_entry s2 k = if String.eqb k (key_open id) then Some (1, Some (r_now s + cd)) else r_entry s1 k) as He2
      by (intros k; subst s2; rewrite r_set_ex_entry, Hn1 by lia; done).
    assert (is_open s2 id = true) as -> by (unfold is_open; by rewrite He2, String.eqb_refl). cbn [andb].
    pose proof (r_incr_entry (trips_key id) s2) as He3. pose proof (r_incr_now (trips_key id) s2) as Hn3.
    set (s3 := (r_incr (trips_key id) s2).1) in *.
    assert (r_entry s2 (trips_key id) = r_entry s (trips_key id)) as Ht2.
    { rewrite He2. apply String.eqb_neq in Hto. rewrite Hto. apply He1. done. }
    split.
    + rewrite r_expire_entry by lia. rewrite (proj2 (String.eqb_neq _ _)) by congruence. rewrite He3, (proj2 (String.eqb_neq _ _)) by congruence.
      by rewrite He2, String.eqb_refl.
    + rewrite r_expire_entry, String.eqb_refl, He3, String.eqb_refl, Ht2 by lia. cbn. rewrite Hn3. subst s2. by rewrite r_set_ex_now, Hn1.
  - assert (is_open s1 id = false) as Hc.
    { unfold is_open. rewrite He1 by congruence. apply orb_false_iff in Ho as [Ho _]. apply orb_false_iff in Ho as [_ Ho]. exact Ho. }
    rewrite Hc. cbn [andb]. split; [done|]. by apply He1.
Qed.
End quarantine.

(** ** Examples *)

Section examples.
#[local] Existing Instances demo_jmes demo_float_repr.
#[local] Instance demo_runtime_fast : FastPath := true.
#[local] Instance demo_runtime_sha1 : Sha1 := fun s => s.
#[local] Instance demo_runtime_dumps : CompactJson := fun v => match v with PDict _ => Ok "row" | _ => Raise EType end.
#[local] Instance demo_runtime_loads : JsonLoads := fun s =>
  if String.eqb s "row" then Ok (PDict [("score", PInt 90)]) else Raise EJsonDecode.

(** Two rules ask the same enricher through two sources of the organization. *)
Definition demo_source_rule (id source path : string) : pyval :=
  PDict [("id", PStr id); ("enricher", PStr "reputation"); ("source", PStr source);
         ("key", PDict [("source", PStr "normalized.ip"); ("kind", PStr "ip")]);
         ("outputs", PList [PDict [("from", PStr "score"); ("target", PStr path)]])].
Definition demo_two_sources : pyval :=
  PList [demo_source_rule "first" "paid" "_centralops.enrichment.paid"; demo_source_rule "second" "free" "_centralops.enrichment.free"].
Definition demo_remote : compiled_policy :=
  match compile_policy demo_registry demo_two_sources with Ok p => p | Raise _ => CompiledPolicy [] 0 end.
Definition demo_batch : list envelope := [[("normalized", PDict [("ip", PStr "1.2.3.4")])]; [("normalized", PDict [("ip", PStr "1.2.3.4")])]].

Definition demo_settings : breaker_settings := BreakerSettings 3 600 120 1920.
Definition demo_world (remaining : Z) (found factory : bool) (answer : list string -> provider_answer) : @world text_store mem_store :=
  World (fun t => t) (fun s => s) 0 true remaining (fun _ => true) (fun _ => []) all_up found factory answer (fun _ => true) 0 true.
Definition demo_gives (keys : list string) : provider_answer := Answered ((fun k => (k, PDict [("score", PInt 90)])) <$> keys).
Definition demo_start : @state text_store mem_store := State (l1_new 100) (TextStore 0 ∅) mem_empty [] ∅ [].
Definition demo_resolve (worlds : compiled_enrich_rule -> world) : result state :=
  resolve_remote 3 5000 demo_settings demo_registry (fun _ => (3600, 300)) true demo_remote demo_batch worlds demo_start.

(** The first provider times out; the second does not know the key. *)
Definition demo_mixed (rule : compiled_enrich_rule) : @world text_store mem_store :=
  demo_world 1 true true (fun keys => if String.eqb (er_rule_id rule) "first" then TimedOut else demo_gives keys).
Definition demo_outcome (worlds : compiled_enrich_rule -> world) : @state text_store mem_store :=
  match demo_resolve worlds with Ok st => st | Raise _ => demo_start end.

Definition demo_one (rule : compiled_enrich_rule) : @world text_store mem_store := demo_world 1 true true demo_gives.
Lemma demo_one_resolved : demo_resolve demo_one = Ok (demo_outcome demo_one).
Proof. vm_compute. reflexivity. Qed.
Lemma demo_mixed_resolved : demo_resolve demo_mixed = Ok (demo_outcome demo_mixed).
Proof. vm_compute. reflexivity. Qed.

Lemma verdicts_justified_witness :
  justified (rs_log (demo_outcome demo_one)) "first" "1.2.3.4" (PDict [("score", PInt 90)]).
Proof.
  refine (verdicts_justified 3 5000 demo_settings demo_registry (fun _ => (3600, 300)) true demo_remote demo_batch demo_one
            demo_start (demo_outcome demo_one) demo_one_resolved "first" "1.2.3.4" (PDict [("score", PInt 90)]) _).
  vm_compute. reflexivity.
Defined.

Lemma egress_gated_witness :
  exists new, rs_log (demo_outcome demo_one) = rs_log demo_start ++ new /\ LogAsked "first" ["1.2.3.4"] (demo_gives ["1.2.3.4"]) ∈ new.
Proof.
  destruct (egress_gated 3 5000 demo_settings demo_registry (fun _ => (3600, 300)) true demo_remote demo_batch demo_one
              demo_start (demo_outcome demo_one) demo_one_resolved) as (new & Hl & _).
  exists new. split; [exact Hl|]. assert (new = rs_log (demo_outcome demo_one)) as -> by (symmetry; exact Hl).
  vm_compute. apply elem_of_cons. right. apply elem_of_cons. left. reflexivity.
Defined.

Lemma locks_released_witness :
  exists new, rs_log (demo_outcome demo_mixed) = rs_log demo_start ++ new /\
    forall before c after, new = before ++ LogLocked c :: after -> LogUnlocked c ∈ after.
Proof.
  refine (locks_released 3 5000 demo_settings demo_registry (fun _ => (3600, 300)) true demo_remote demo_batch demo_mixed
            demo_start (demo_outcome demo_mixed) demo_mixed_resolved _).
  intros rule _ _. reflexivity.
Defined.

Definition demo_first : compiled_enrich_rule := nth 0 (policy_rules demo_remote) (CompiledEnrichRule "" "" None None (DotPathResolver "" []) "" "" [] None [] [] "" "" "" false "" None None).
Lemma silence_is_not_a_miss_witness :
  (apply_one_rule (bulk_resolution (rs_rows (demo_outcome demo_mixed))) demo_first [("normalized", PDict [("ip", PStr "1.2.3.4")])] no_stats).1 =
  ([("normalized", PDict [("ip", PStr "1.2.3.4")])], false).
Proof.
  destruct (silence_is_not_a_miss 3 5000 demo_settings demo_registry (fun _ => (3600, 300)) true demo_remote demo_batch demo_mixed
              demo_start (demo_outcome demo_mixed) demo_mixed_resolved demo_first [("normalized", PDict [("ip", PStr "1.2.3.4")])] no_stats) as (Hr & _).
  - assert (forallb (fun e => negb (answers (er_rule_id demo_first) e)) (rs_log (demo_outcome demo_mixed)) = true) as Hf by (vm_compute; reflexivity).
    intros e Hin. rewrite forallb_forall in Hf. apply negb_true_iff, Hf, list_elem_of_In, Hin.
  - exact Hr.
Defined.

Lemma quarantine_doubles_witness :
  let s := breaker_failure demo_settings all_up "enrich:3:paid" true 0 (breaker_failure demo_settings all_up "enrich:3:paid" true 0 mem_empty) in
  r_entry s (key_open "enrich:3:paid") = Some (1, Some 240) /\ r_entry s (trips_key "enrich:3:paid") = Some (2, Some 3840).
Proof.
  destruct (quarantine_doubles demo_settings "enrich:3:paid" ltac:(cbn; lia) true 0 (breaker_failure demo_settings all_up "enrich:3:paid" true 0 mem_empty)) as (Hd & _).
  - vm_compute. discriminate.
  - vm_compute. discriminate.
  - cbn [orb] in Hd. destruct Hd as [Ho Ht]. split; [etransitivity; [exact Ho|vm_compute; reflexivity]|etransitivity; [exact Ht|vm_compute; reflexivity]].
Defined.

(** ** Divergences *)

(** The cache's key names the enricher and not the source: the second rule is
    given what the first rule's source answered, and its own is never asked. *)
Lemma cache_ignores_source :
  rs_rows (demo_outcome demo_one) !! ("second", "1.2.3.4") = Some (PDict [("score", PInt 90)]) /\
  existsb (fun e => match e with LogAsked id _ _ => String.eqb id "second" | _ => false end) (rs_log (demo_outcome demo_one)) = false.
Proof. vm_compute. auto. Qed.

(** The same rules when nothing can be cached. *)
Definition demo_uncached (worlds : compiled_enrich_rule -> world) (st : state) : result state :=
  resolve_remote 3 5000 demo_settings demo_registry (fun _ => (0, 0)) true demo_remote demo_batch
    (fun rule => let w := worlds rule in
       World (w_others w) (w_breaker_others w) (w_now w) (w_mget_up w) (w_remaining w) (w_lock_up w) (w_polls w) (w_commands w)
         (w_source_found w) (w_factory_ok w) (w_answer w) (w_release_up w) (w_put_now w) false) st.
Definition demo_worlds (on_second : @world text_store mem_store) (rule : compiled_enrich_rule) : @world text_store mem_store :=
  if String.eqb (er_rule_id rule) "second" then on_second else demo_world 1 true true demo_gives.

(** The budget runs out before the second rule: the rows of the first stay. *)
Lemma budget_keeps_prefix :
  match demo_uncached (demo_worlds (demo_world 0 true true demo_gives)) demo_start with
  | Ok st => rs_rows st = {[("first", "1.2.3.4") := PDict [("score", PInt 90)]]}
  | Raise _ => False
  end.
Proof. vm_compute. reflexivity. Qed.

(** A factory that raises for one rule takes the rows of every other with it. *)
Lemma factory_failure_loses_batch :
  demo_uncached (demo_worlds (demo_world 1 true false demo_gives)) demo_start = Raise EOther.
Proof. vm_compute. reflexivity. Qed.

(** A source that is not there leaves the lock of its keys behind. *)
Lemma missing_source_keeps_lock :
  match demo_uncached (fun _ => demo_world 1 false true demo_gives) demo_start with
  | Ok st => ts_entry (rs_l2 st) (lock_of "enr:3:reputation:1:1.2.3.4") = Some ("1", Some 5000)
  | Raise _ => False
  end.
Proof. vm_compute. reflexivity. Qed.

(** A worker that waited for another in vain deletes the other's lock. *)
Definition demo_locked : @state text_store mem_store :=
  State (l1_new 100) (t_set_nx_px (lock_of "enr:3:reputation:1:1.2.3.4") "1" 5000 (TextStore 0 ∅)).1 mem_empty [] ∅ [].
Lemma release_deletes_peer_lock :
  ts_entry (rs_l2 demo_locked) (lock_of "enr:3:reputation:1:1.2.3.4") = Some ("1", Some 5000) /\
  match demo_uncached (demo_worlds (demo_world 0 true true demo_gives)) demo_locked with
  | Ok st => ts_entry (rs_l2 st) (lock_of "enr:3:reputation:1:1.2.3.4") = None /\ existsb (fun e => match e with LogLocked _ => true | _ => false end) (rs_log st) = false
  | Raise _ => False
  end.
Proof. vm_compute. auto. Qed.

(** The slot of a probe lives as long as the cooldown the probe was made in, and a
    probe that fails makes the cooldown longer: the source, open until 250, is
    called again at 120. *)
Lemma probe_before_cooldown :
  let id := "enrich:3:paid" in
  let opened := breaker_failure demo_settings all_up id true 0 mem_empty in
  let probe := breaker_is_open demo_settings all_up id (r_tick 10 opened) in
  let reopened := breaker_failure demo_settings all_up id false 0 probe.1 in
  probe.2 = None /\ r_entry reopened (key_open id) = Some (1, Some 250) /\
  (breaker_is_open demo_settings all_up id (r_tick 109 reopened)).2 = Some 131 /\
  (breaker_is_open demo_settings all_up id (r_tick 110 reopened)).2 = None.
Proof. vm_compute. auto. Qed.
End examples.
