(* ===== verification/Tenancy.v ===== *)
(** * Roles, scopes and the reach of a user

    [core/security.py] (passwords), the roles and permissions of
    [core/auth.py], and [core/tenant.py]: which organizations a user reaches and
    what it may grant.  The Enterprise edition registers a resolver of the
    organizations of a user through [core/ee_hooks.py]; it is not in the
    repository and is a parameter here, [ScopeResolver].  The community resolver
    is [default_scope_resolver].  [hashlib.pbkdf2_hmac] is a parameter too. *)

From S2P Require Import Prelude PyVal Text Operators.

Local Open Scope Z_scope.

(** ** Passwords *)

(** [hashlib.pbkdf2_hmac("sha256", password, salt, iterations)]. *)
Class Pbkdf2 := pbkdf2 : string -> string -> Z -> string.

Definition PASSWORD_HASH_ALGORITHM : string := "pbkdf2_sha256".
Definition PASSWORD_HASH_ITERATIONS : Z := 600000.
Definition INT_MAX : Z := 2147483647.

Section passwords.
Context `{Pbkdf2}.

Definition hash_password (salt password : string) : string :=
  (PASSWORD_HASH_ALGORITHM +:+ "$" +:+ str_of_Z PASSWORD_HASH_ITERATIONS +:+ "$" +:+ to_hex salt +:+ "$"
     +:+ to_hex (pbkdf2 password salt PASSWORD_HASH_ITERATIONS))%string.

(** The call of [hashlib.pbkdf2_hmac], with the arguments it refuses. *)
Definition pbkdf2_hmac (password salt : string) (iterations : Z) : result string :=
  if iterations <? 1 then Raise EValue
  else if INT_MAX <? iterations then Raise EOverflow
  else Ok (pbkdf2 password salt iterations).

(** The column is nullable: [None] has no [split]. *)
Definition verify_password (password : string) (stored_hash : option string) : result bool :=
  match stored_hash with
  | None => Raise EAttribute
  | Some stored =>
      match str_split_max 3 "$" stored with
      | [algorithm; raw_iterations; raw_salt; raw_hash] =>
          if negb (String.eqb algorithm PASSWORD_HASH_ALGORITHM) then Ok false
          else match py_int_of_str raw_iterations, from_hex raw_salt, from_hex raw_hash with
               | Some iterations, Some salt, Some expected =>
                   computed ← pbkdf2_hmac password salt iterations; Ok (String.eqb computed expected)
               | _, _, _ => Ok false
               end
      | _ => Ok false
      end
  end.
End passwords.

(** ** Roles and permissions *)

Definition MAPPING_READ : string := "mapping.read".
Definition MAPPING_WRITE : string := "mapping.write".
Definition MAPPING_ROLLBACK : string := "mapping.rollback".
Definition INTEGRATION_READ : string := "integration.read".
Definition INTEGRATION_WRITE : string := "integration.write".
Definition INTEGRATION_PAUSE : string := "integration.pause".
Definition QUARANTINE_READ : string := "quarantine.read".
Definition QUARANTINE_DISCARD : string := "quarantine.discard".
Definition DRIFT_READ : string := "drift.read".
Definition DRIFT_IGNORE : string := "drift.ignore".
Definition DRIFT_MARK_MAPPED : string := "drift.mark_mapped".
Definition DRIFT_DELETE : string := "drift.delete".
Definition DESTINATION_READ : string := "destination.read".
Definition ROUTE_READ : string := "route.read".
Definition USER_MANAGE : string := "user.manage".
Definition SECRET_READ : string := "secret.read".
Definition AUDIT_READ : string := "audit.read".
Definition ORG_MANAGE : string := "org.manage".
Definition INTERNAL_TENANT_READ : string := "internal.tenant.read".
Definition QUERY_RUN : string := "query.run".
Definition QUERY_SAVE : string := "query.save".
Definition INTEGRATION_RESET : string := "integration.reset".
Definition CORRELATION_PREVIEW : string := "correlation.preview".
Definition MCP_USE : string := "mcp.use".

(** The members of [Permission], in order. *)
Definition PERMISSIONS : list string :=
  [MAPPING_READ; MAPPING_WRITE; MAPPING_ROLLBACK; INTEGRATION_READ; INTEGRATION_WRITE; INTEGRATION_PAUSE;
   QUARANTINE_READ; QUARANTINE_DISCARD; DRIFT_READ; DRIFT_IGNORE; DRIFT_MARK_MAPPED; DRIFT_DELETE;
   DESTINATION_READ; ROUTE_READ; USER_MANAGE; SECRET_READ; AUDIT_READ; ORG_MANAGE; INTERNAL_TENANT_READ;
   QUERY_RUN; QUERY_SAVE; INTEGRATION_RESET; CORRELATION_PREVIEW; MCP_USE].

Definition ROLE_ADMIN : string := "admin".
Definition VALID_ROLES : list string := ["viewer"; "operator"; "engineer"; "admin"].

Definition ROLE_PERMISSIONS (role : string) : option (gset string) :=
  if String.eqb role "viewer" then
    Some (list_to_set [MAPPING_READ; INTEGRATION_READ; QUARANTINE_READ; DRIFT_READ; AUDIT_READ; DESTINATION_READ; ROUTE_READ])
  else if String.eqb role "operator" then
    Some (list_to_set [MAPPING_READ; INTEGRATION_READ; INTEGRATION_PAUSE; QUARANTINE_READ; QUARANTINE_DISCARD;
      DRIFT_READ; DRIFT_IGNORE; AUDIT_READ; DESTINATION_READ; ROUTE_READ; INTERNAL_TENANT_READ; QUERY_RUN;
      INTEGRATION_RESET; MCP_USE])
  else if String.eqb role "engineer" then
    Some (list_to_set [MAPPING_READ; MAPPING_WRITE; MAPPING_ROLLBACK; INTEGRATION_READ; INTEGRATION_PAUSE;
      QUARANTINE_READ; QUARANTINE_DISCARD; DRIFT_READ; DRIFT_IGNORE; DRIFT_MARK_MAPPED; DRIFT_DELETE; AUDIT_READ;
      DESTINATION_READ; ROUTE_READ; INTERNAL_TENANT_READ; CORRELATION_PREVIEW; QUERY_RUN; QUERY_SAVE;
      INTEGRATION_RESET; MCP_USE])
  else if String.eqb role ROLE_ADMIN then Some (list_to_set PERMISSIONS)
  else None.

Definition normalized_role (role : string) : string := if String.eqb role "user" then "viewer"%string else role.

Definition role_perms (role : string) : gset string := default ∅ (ROLE_PERMISSIONS (normalized_role role)).

Definition get_user_permissions (role : string) : list string := sorted_strs (elements (role_perms role)).

(** [token_scopes]: [None] for a session, a list for a token. *)
Definition effective_scopes (role : string) (token_scopes : option (list string)) : gset string :=
  match token_scopes with
  | None | Some [] => role_perms role
  | Some scopes => role_perms role ∩ list_to_set scopes
  end.

(** The strings of a decoded list. *)
Definition str_items (l : list pyval) : list string := omap (fun v => match v with PStr s => Some s | _ => None end) l.

Definition parse_scopes `{JsonLoads} (scopes_json : option string) : result (list string) :=
  match scopes_json with
  | None | Some EmptyString => Ok []
  | Some s =>
      value ← try_except (v ← json_loads s; Ok (Some v)) (fun e => bool_decide (e = EJsonDecode) || bool_decide (e = EType)) (fun _ => Ok None);
      Ok (match value with Some (PList l) => str_items l | _ => [] end)
  end.

(** Deduplicated and sorted, or a [ValueError]. *)
Definition validate_scopes (scopes : list string) : result (list string) :=
  let requested := sorted_strs (elements (list_to_set scopes : gset string)) in
  if forallb (fun s => bool_decide (s ∈ PERMISSIONS)) requested then Ok requested else Raise EValue.

(** ** Users *)

(** The columns of [AppUser] the code below reads or writes. *)
Record app_user := AppUser {
  u_id : Z;
  u_uuid : string;
  u_username : string;
  u_email : option string;
  u_display_name : option string;
  u_auth_provider : string;
  u_external_subject : option string;
  u_password_hash : option string;
  u_organization_id : option Z;
  u_role : string;
  u_is_global : bool;
  u_is_active : bool;
}.

#[export] Instance app_user_eq_dec : EqDecision app_user.
Proof. solve_decision. Defined.

Definition is_admin (user : option app_user) : bool :=
  match user with Some u => String.eqb (u_role u) ROLE_ADMIN | None => false end.

Definition has_global_scope (user : app_user) : bool :=
  if String.eqb (u_role user) ROLE_ADMIN then u_is_global user || bool_decide (u_organization_id user = None)
  else u_is_global user.

Definition can_access_organization (user : app_user) (organization_id : Z) : bool :=
  if has_global_scope user then true else bool_decide (u_organization_id user = Some organization_id).

Definition ACCESS_DENIED : exn := EHttp 403 "You do not have access to this organization".

Definition require_organization_access (user : app_user) (organization_id : Z) : result unit :=
  raise_if (negb (can_access_organization user organization_id)) ACCESS_DENIED.

Definition filter_organizations_for_user {T} (user : app_user) (organizations : list T) (get_org_id : T -> option Z) : list T :=
  if has_global_scope user then organizations
  else match u_organization_id user with
       | None => []
       | Some o => filter (fun item => get_org_id item = Some o) organizations
       end.

(** The organization of a new resource.  [next(iter(distinct))] of a set of one. *)
Definition resolve_owner_org_id (user : app_user) (explicit_org_id : option Z) (candidate_org_ids : list (option Z)) : option Z :=
  if negb (has_global_scope user) then u_organization_id user
  else match explicit_org_id with
       | Some o => Some o
       | None =>
           match elements (list_to_set (omap id candidate_org_ids) : gset Z) with
           | [o] => Some o
           | _ => None
           end
       end.

Definition scoped_organization_ids (user : app_user) : option (list Z) :=
  if has_global_scope user then None else Some (option_list (u_organization_id user)).

Definition default_scope_resolver (user : app_user) : option (gset Z) :=
  Some (list_to_set (option_list (u_organization_id user))).

(** [ee_hooks.get_scope_resolver()] applied to a session: the resolver the
    Enterprise package registered, when it did.  The tables it reads are not
    written by the operations modelled here. *)
Class ScopeResolver := scope_resolver : option (app_user -> option (gset Z)).

Section reach.
Context `{ScopeResolver}.

Definition accessible_org_ids (user : app_user) : option (gset Z) :=
  if has_global_scope user then None else default default_scope_resolver scope_resolver user.

Definition can_access_subtree (user : app_user) (organization_id : Z) : bool :=
  if has_global_scope user then true
  else match accessible_org_ids user with
       | Some acc => bool_decide (organization_id ∈ acc)
       | None => false
       end.

Definition require_subtree_access (user : app_user) (organization_id : Z) : result unit :=
  raise_if (negb (can_access_subtree user organization_id)) ACCESS_DENIED.

Definition require_global_scope (user : app_user) : result unit :=
  raise_if (negb (has_global_scope user)) (EHttp 403 "This action requires a platform (global) administrator").

Definition enforce_admin_delegation_scope (actor : app_user) (target_org_id : option Z) (target_is_global : bool) : result unit :=
  if has_global_scope actor then Ok tt
  else if target_is_global then Raise (EHttp 403 "A scoped administrator cannot grant global scope")
  else match target_org_id with
       | None => Raise (EHttp 403 "A scoped administrator must assign the user to an organization")
       | Some o => require_subtree_access actor o
       end.
End reach.

(** ** Passwords verify *)

Section verification.
Context `{Pbkdf2}.

(** [password_verifies]: what [hash_password] stores is accepted for a
    password exactly when the two derive the same key from the salt. *)
Theorem password_verifies salt password password' :
  verify_password password' (Some (hash_password salt password)) =
  Ok (String.eqb (pbkdf2 password' salt PASSWORD_HASH_ITERATIONS) (pbkdf2 password salt PASSWORD_HASH_ITERATIONS)).
Proof.
  unfold verify_password, hash_password.
  set (key := pbkdf2 password salt _).
  assert (str_split_max 3 "$" (PASSWORD_HASH_ALGORITHM +:+ String "$" (str_of_Z PASSWORD_HASH_ITERATIONS +:+ String "$" (to_hex salt +:+ String "$" (to_hex key))))
          = [PASSWORD_HASH_ALGORITHM; str_of_Z PASSWORD_HASH_ITERATIONS; to_hex salt; to_hex key]) as Hs.
  { cbn [str_split_max]. rewrite str_cut_app by done. rewrite str_cut_app by done. rewrite str_cut_app by by apply hex_no_sep. done. }
  lazymatch type of Hs with str_split_max _ _ ?x = _ => lazymatch goal with |- context [str_split_max 3 "$" ?y] => change y with x end end.
  rewrite Hs, String.eqb_refl, !hex_round. reflexivity.
Qed.
End verification.
