(* ===== verification/Accounts.v ===== *)
(** * Accounts, sessions and tokens

    The tables behind authentication ([AppUser], [ServiceAccount], [UserSession],
    [ApiToken], [Organization]), the repositories over them ([db/repository.py],
    [services/api_tokens.py], [services/service_accounts.py]), the resolution of
    a request to its principal ([core/auth.py]) and the handlers that administer
    accounts ([routers/auth.py], [routers/service_accounts.py],
    [routers/api_tokens.py]); the bootstrap of the first administrator and the
    federated login ([routers/sso.py]), from the identity that [core/oidc.py] read.

    A table is the list of its rows.  The ids are drawn by the database: one
    counter stands for its sequences.  Instants are microseconds.  A handler
    reads, checks, and only then writes, so it is a function that gives the new
    tables or raises; [serve] adds the resolution of the principal, which may
    write before it refuses, and a login that fails after its commit keeps what it
    wrote.  Audit rows are best effort and left out. *)

From S2P Require Import Prelude PyVal Text Operators Boundary Tenancy.

Local Open Scope Z_scope.

(** ** Tables *)

Record service_account := ServiceAccount {
  a_id : Z;
  a_name : string;
  a_description : option string;
  a_role : string;
  a_organization_id : option Z;
  a_is_active : bool;
}.

Record organization := Organization { o_id : Z; o_is_active : bool }.

Record user_session := UserSession {
  s_id : Z;
  s_user_id : Z;
  s_token_hash : string;
  s_expires_at : Z;
  s_revoked_at : option Z;
}.

Record api_token := ApiToken {
  t_id : Z;
  t_user_id : option Z;
  t_service_account_id : option Z;
  t_name : string;
  t_prefix : string;
  t_hash : string;
  t_expires_at : option Z;
  t_is_eternal : bool;
  t_scopes_json : option string;
  t_revoked_at : option Z;
}.

Record db := Db {
  users : list app_user;
  accounts : list service_account;
  organizations : list organization;
  sessions : list user_session;
  tokens : list api_token;
  next_id : Z;
}.

Definition set_users f (d : db) : db := Db (f (users d)) (accounts d) (organizations d) (sessions d) (tokens d) (next_id d).
Definition set_accounts f (d : db) : db := Db (users d) (f (accounts d)) (organizations d) (sessions d) (tokens d) (next_id d).
Definition set_sessions f (d : db) : db := Db (users d) (accounts d) (organizations d) (f (sessions d)) (tokens d) (next_id d).
Definition set_tokens f (d : db) : db := Db (users d) (accounts d) (organizations d) (sessions d) (f (tokens d)) (next_id d).
Definition bump_id (d : db) : db := Db (users d) (accounts d) (organizations d) (sessions d) (tokens d) (next_id d + 1).

(** [query.filter(p).first()]. *)
Definition first {A} (p : A -> bool) (l : list A) : option A := List.find p l.
(** The rows that satisfy [p], changed by [f]. *)
Definition update_where {A} (p : A -> bool) (f : A -> A) (l : list A) : list A := (fun r => if p r then f r else r) <$> l.
Definition delete_where {A} (p : A -> bool) (l : list A) : list A := filter (fun r => p r = false) l.

(** An integrity error of the database. *)
Definition INTEGRITY_ERROR : exn := EOther.

(** ** [UserRepository] *)

Definition get_user (i : Z) (d : db) : option app_user := first (fun u => u_id u =? i) (users d).
Definition get_by_username (n : string) (d : db) : option app_user := first (fun u => String.eqb (u_username u) n) (users d).
Definition get_by_email (e : string) (d : db) : option app_user := first (fun u => bool_decide (u_email u = Some e)) (users d).
Definition get_by_external_subject (provider subject : string) (d : db) : option app_user :=
  first (fun u => String.eqb (u_auth_provider u) provider && bool_decide (u_external_subject u = Some subject)) (users d).
Definition get_by_uuid (i : string) (d : db) : option app_user := first (fun u => String.eqb (u_uuid u) i) (users d).

(** [add], under the unique constraints of the columns. *)
Definition same_subject (u v : app_user) : bool :=
  bool_decide (u_external_subject u <> None) && bool_decide (u_external_subject v = u_external_subject u)
  && String.eqb (u_auth_provider v) (u_auth_provider u).
Definition add_user (u : app_user) (d : db) : result db :=
  if existsb (fun v => String.eqb (u_username v) (u_username u) || String.eqb (u_uuid v) (u_uuid u) ||
                       (bool_decide (u_email u <> None) && bool_decide (u_email v = u_email u)) || same_subject u v) (users d)
  then Raise INTEGRITY_ERROR
  else Ok (bump_id (set_users (fun l => l ++ [u]) d)).

(** What [update] is called with: an absent field keeps the column. *)
Record user_changes := UserChanges {
  c_username : option string;
  c_display_name : option string;
  c_password_hash : option string;
  c_email : option (option string);
  c_organization_id : option (option Z);
  c_role : option string;
  c_is_global : option bool;
  c_is_active : option bool;
}.

Definition apply_changes (c : user_changes) (u : app_user) : app_user :=
  AppUser (u_id u) (u_uuid u) (default (u_username u) (c_username c)) (default (u_email u) (c_email c))
    (match c_display_name c with Some n => Some n | None => u_display_name u end)
    (u_auth_provider u) (u_external_subject u)
    (match c_password_hash c with Some h => Some h | None => u_password_hash u end)
    (default (u_organization_id u) (c_organization_id c)) (default (u_role u) (c_role c))
    (default (u_is_global u) (c_is_global c)) (default (u_is_active u) (c_is_active c)).

Definition update_user_row (i : Z) (c : user_changes) : db -> db := set_users (update_where (fun u => u_id u =? i) (apply_changes c)).

(** The sessions and tokens of the row go with it. *)
Definition delete_user_row (i : Z) (d : db) : db :=
  set_tokens (delete_where (fun t => bool_decide (t_user_id t = Some i)))
    (set_sessions (delete_where (fun s => s_user_id s =? i))
      (set_users (delete_where (fun u => u_id u =? i)) d)).

(** ** [UserSessionRepository] *)

Definition revoke_session_row (now : Z) (s : user_session) : user_session :=
  UserSession (s_id s) (s_user_id s) (s_token_hash s) (s_expires_at s) (Some now).

Definition get_active_by_token_hash (now : Z) (h : string) (d : db) : option user_session :=
  first (fun s => String.eqb (s_token_hash s) h && bool_decide (s_revoked_at s = None) && (now <? s_expires_at s)) (sessions d).

Definition revoke_session (now : Z) (s : user_session) : db -> db :=
  set_sessions (update_where (fun r => s_id r =? s_id s) (revoke_session_row now)).

Definition revoke_all_for_user_except (now i : Z) (keep : option Z) : db -> db :=
  set_sessions (update_where
    (fun r => (s_user_id r =? i) && bool_decide (s_revoked_at r = None) && negb (bool_decide (keep = Some (s_id r))))
    (revoke_session_row now)).
Definition revoke_all_for_user (now i : Z) : db -> db := revoke_all_for_user_except now i None.

Definition HOUR : Z := 3600 * 1000000.

(** Sliding expiry: extended once half the time to live has passed. *)
Definition touched (now ttl_hours : Z) (s : user_session) : user_session :=
  if s_expires_at s <=? now + Z.max (ttl_hours / 2) 1 * HOUR
  then UserSession (s_id s) (s_user_id s) (s_token_hash s) (now + ttl_hours * HOUR) (s_revoked_at s)
  else s.
Definition touch (now ttl_hours : Z) (s : user_session) : db -> db :=
  set_sessions (update_where (fun r => s_id r =? s_id s) (touched now ttl_hours)).

Definition delete_expired (now : Z) : db -> db :=
  set_sessions (delete_where (fun s => (s_expires_at s <=? now) || bool_decide (s_revoked_at s <> None))).

(** ** Tokens: [services/api_tokens.py] *)

(** Argon2, a third-party package: the hash it stores and its verification. *)
Class TokenHash := {
  hash_token : string -> string;
  verify_token_hash : string -> string -> bool;
}.

Definition TOKEN_RAW_PREFIX : string := "copsk_".
Definition TOKEN_PREFIX_LENGTH : nat := 12.
Definition extract_prefix (raw_token : string) : string := str_take TOKEN_PREFIX_LENGTH raw_token.

Definition revoke_token_row (now : Z) (t : api_token) : api_token :=
  match t_revoked_at t with
  | Some _ => t
  | None => ApiToken (t_id t) (t_user_id t) (t_service_account_id t) (t_name t) (t_prefix t) (t_hash t)
              (t_expires_at t) (t_is_eternal t) (t_scopes_json t) (Some now)
  end.

Definition get_token (i : Z) (d : db) : option api_token := first (fun t => t_id t =? i) (tokens d).
Definition get_by_prefix (p : string) (d : db) : option api_token := first (fun t => String.eqb (t_prefix t) p) (tokens d).

(** Personal tokens only, as [revoke_all_for_user] of the token repository. *)
Definition revoke_all_tokens (now i : Z) : db -> db :=
  set_tokens (update_where
    (fun t => bool_decide (t_user_id t = Some i) && bool_decide (t_service_account_id t = None) && bool_decide (t_revoked_at t = None))
    (revoke_token_row now)).

Definition revoke (now : Z) (t : api_token) : db -> db :=
  set_tokens (update_where (fun r => t_id r =? t_id t) (revoke_token_row now)).

(** [serialize_scopes]: [json.dumps] of the sorted distinct scopes. *)
Definition quoted (s : string) : string := String dquote_char (s +:+ String dquote_char "")%string.
Definition serialize_scopes (scopes : list string) : option string :=
  match sorted_strs (elements (list_to_set scopes : gset string)) with
  | [] => None
  | l => Some ("[" +:+ String.concat "," (map quoted l) +:+ "]")%string
  end.

(** Who the token is for. *)
Inductive token_owner := OwnUser (u : app_user) | OwnAccount (a : service_account).

Definition owner_user (o : token_owner) : option Z := match o with OwnUser u => Some (u_id u) | OwnAccount _ => None end.
Definition owner_account (o : token_owner) : option Z := match o with OwnUser _ => None | OwnAccount a => Some (a_id a) end.

(** Same owner and name: the unique constraints of the table. *)
Definition same_owner_name (o : token_owner) (n : string) (t : api_token) : bool :=
  match o with
  | OwnUser u => bool_decide (t_user_id t = Some (u_id u))
  | OwnAccount a => bool_decide (t_service_account_id t = Some (a_id a))
  end && String.eqb (t_name t) n.

(** [ensure_naive_utc]. *)
Definition ensure_naive_utc (dt : option (Z * option Z)) : result (option Z) :=
  match dt with
  | None => Ok None
  | Some (local, None) => Ok (Some local)
  | Some (local, Some offset) => Some <$> to_utc local offset
  end.

Record token_create := TokenCreate {
  tc_name : string;
  tc_expires_at : option (Z * option Z);
  tc_is_eternal : bool;
  tc_scopes : option (list string);
}.

Definition persistable_user_id (i : Z) : option Z := if 0 <? i then Some i else None.

Section tokens.
Context `{TokenHash}.

Definition create_token (raw : string) (now : Z) (owner : token_owner) (p : token_create) (d : db) : result db :=
  let normalized_name := str_strip (tc_name p) in
  raise_if (String.eqb normalized_name "") EValue;;
  raise_if (tc_is_eternal p && bool_decide (tc_expires_at p <> None)) EValue;;
  let is_eternal := tc_is_eternal p || bool_decide (tc_expires_at p = None) in
  expires_at ← ensure_naive_utc (tc_expires_at p);
  raise_if (match expires_at with Some e => e <=? now | None => false end) EValue;;
  validated_scopes ← match tc_scopes p with Some (s :: l) => validate_scopes (s :: l) | _ => Ok [] end;
  raise_if (existsb (fun t => same_owner_name owner normalized_name t && bool_decide (t_service_account_id t = owner_account owner)
                              && bool_decide (t_revoked_at t = None)) (tokens d)) EValue;;
  raise_if (match owner with OwnUser u => bool_decide (persistable_user_id (u_id u) = None) | OwnAccount _ => false end) EValue;;
  let t := ApiToken (next_id d) (owner_user owner) (owner_account owner) normalized_name (extract_prefix raw) (hash_token raw)
             expires_at is_eternal (serialize_scopes validated_scopes) None in
  raise_if (existsb (fun r => same_owner_name owner normalized_name r || String.eqb (t_prefix r) (t_prefix t)) (tokens d)) INTEGRITY_ERROR;;
  Ok (bump_id (set_tokens (fun l => l ++ [t]) d)).

Definition get_account (i : Z) (d : db) : option service_account := first (fun a => a_id a =? i) (accounts d).

Definition resolve_bearer (now : Z) (raw_token : string) (d : db) : option api_token :=
  if negb (str_prefix TOKEN_RAW_PREFIX raw_token) then None
  else match get_by_prefix (extract_prefix raw_token) d with
       | None => None
       | Some candidate =>
           if bool_decide (t_revoked_at candidate <> None) then None
           else if match t_expires_at candidate with Some e => e <=? now | None => false end then None
           else if match t_service_account_id candidate with
                   | None => false
                   | Some i => match get_account i d with None => true | Some a => negb (a_is_active a) end
                   end then None
           else if negb (verify_token_hash (t_hash candidate) raw_token) then None
           else Some candidate
       end.
End tokens.

(** ** The principal of a request: [core/auth.py] *)

Class SessionHash := hash_session_token : string -> string.
(** [settings.SESSION_TTL_HOURS]. *)
Class SessionTtl := SESSION_TTL_HOURS : Z.
(** [token_rate_limiter.check(token_id)] at an instant: the seconds to wait, when limited. *)
Class TokenLimiter := token_retry_after : Z -> Z -> option Z.

(** What a request carries: the headers, and the loopback scope it runs in. *)
Record credentials := Credentials {
  h_authorization : option string;
  h_cookie : option string;
  h_inprocess : option (Z * string);
}.

(** [request.state]: the user, and the session or the token it came by. *)
Record principal := Principal {
  p_user : app_user;
  p_session : option user_session;
  p_token : option api_token;
}.

Definition BEARER_SCHEME_PREFIX : string := "Bearer ".
Definition INPROCESS_NONCE_PREFIX : string := "copsin_".

(** [_build_sa_appuser_shim]. *)
Definition build_sa_appuser_shim (a : service_account) : app_user :=
  AppUser (- a_id a) ("sa:" +:+ a_name a)%string ("sa:" +:+ a_name a)%string None
    (Some (match a_description a with Some (String x s) => String x s | _ => a_name a end))
    "local" None (Some "!disabled-service-account"%string) (a_organization_id a) (a_role a) false (a_is_active a).

Definition UNAUTHORIZED (detail : string) : exn := EHttp 401 detail.

Definition user_from_api_token (d : db) (t : api_token) : result app_user :=
  match t_service_account_id t with
  | Some i =>
      match get_account i d with
      | Some a => if a_is_active a then Ok (build_sa_appuser_shim a) else Raise (UNAUTHORIZED "Service account is inactive")
      | None => Raise (UNAUTHORIZED "Service account is inactive")
      end
  | None =>
      match (i ← t_user_id t; get_user i d) with
      | Some u => if u_is_active u then Ok u else Raise (UNAUTHORIZED "User is inactive")
      | None => Raise (UNAUTHORIZED "User is inactive")
      end
  end.

Section principals.
Context `{TokenHash} `{SessionHash} `{SessionTtl} `{TokenLimiter}.

Definition resolve_inprocess_user (now token_id : Z) (d : db) : result principal :=
  match get_token token_id d with
  | Some t =>
      if bool_decide (t_revoked_at t <> None) || match t_expires_at t with Some e => e <=? now | None => false end
      then Raise (UNAUTHORIZED "Invalid or expired API token")
      else u ← user_from_api_token d t; Ok (Principal u None (Some t))
  | None => Raise (UNAUTHORIZED "Invalid or expired API token")
  end.

(** [Ok None]: no bearer token, try the cookie. *)
Definition resolve_bearer_user (now : Z) (c : credentials) (d : db) : result (option principal) :=
  match h_authorization c with
  | None => Ok None
  | Some auth_header =>
      if negb (str_prefix BEARER_SCHEME_PREFIX auth_header) then Ok None
      else
        let raw_token := str_strip (str_drop (String.length BEARER_SCHEME_PREFIX) auth_header) in
        let pat :=
          if negb (str_prefix TOKEN_RAW_PREFIX raw_token) then Ok None
          else match resolve_bearer now raw_token d with
               | None => Raise (UNAUTHORIZED "Invalid or expired API token")
               | Some t =>
                   u ← user_from_api_token d t;
                   raise_if (bool_decide (token_retry_after now (t_id t) <> None)) (EHttp 429 "Token rate limit exceeded");;
                   Ok (Some (Principal u None (Some t)))
               end in
        match h_inprocess c with
        | Some (token_id, nonce) =>
            if str_prefix INPROCESS_NONCE_PREFIX raw_token then
              if String.eqb raw_token nonce then Some <$> resolve_inprocess_user now token_id d
              else Raise (UNAUTHORIZED "Invalid in-process credential")
            else pat
        | None => pat
        end
  end.

Definition cookie_user (now : Z) (c : credentials) (d : db) : db * result principal :=
  match h_cookie c with
  | None | Some EmptyString => (d, Raise (UNAUTHORIZED "Authentication required"))
  | Some raw_token =>
      match get_active_by_token_hash now (hash_session_token raw_token) d with
      | None => (d, Raise (UNAUTHORIZED "Invalid or expired session"))
      | Some s =>
          match get_user (s_user_id s) d with
          | Some u =>
              if u_is_active u
              then (touch now SESSION_TTL_HOURS s d, Ok (Principal u (Some (touched now SESSION_TTL_HOURS s)) None))
              else (revoke_session now s d, Raise (UNAUTHORIZED "User is inactive"))
          | None => (revoke_session now s d, Raise (UNAUTHORIZED "User is inactive"))
          end
      end
  end.

Definition get_current_user (now : Z) (c : credentials) (d : db) : db * result principal :=
  match resolve_bearer_user now c d with
  | Raise e => (d, Raise e)
  | Ok (Some p) => (d, Ok p)
  | Ok None => cookie_user now c d
  end.
End principals.

Section handlers.
Context `{Pbkdf2} `{TokenHash} `{JsonLoads} `{ScopeResolver}.

Definition token_scopes (p : principal) : result (option (list string)) :=
  match p_token p with
  | None => Ok None
  | Some t => parsed ← parse_scopes (t_scopes_json t); Ok (match parsed with [] => None | l => Some l end)
  end.

(** [require_permission]; [require_admin_user] asks for [USER_MANAGE]. *)
Definition require_permission (perm : string) (p : principal) : result unit :=
  scopes ← token_scopes p;
  raise_if (negb (bool_decide (perm ∈ effective_scopes (u_role (p_user p)) scopes))) (EHttp 403 perm).

(** ** Administration of users: [routers/auth.py] *)

Definition MIN_PASSWORD_LENGTH : nat := 10.
Definition validate_password_strength (password : string) : result unit :=
  raise_if (String.length password <? MIN_PASSWORD_LENGTH)%nat (EHttp 400 "auth.weak_password").

(** [user_id.isdigit()]: the digits of [int] and the superscripts. *)
Definition is_digit_char (a : ascii) : bool :=
  in_range 48 57 a || existsb (N.eqb (N_of_ascii a)) [178; 179; 185]%N.
Fixpoint all_digits (s : string) : bool :=
  match s with EmptyString => true | String a s' => is_digit_char a && all_digits s' end.
Definition is_digit (s : string) : bool := negb (String.eqb s "") && all_digits s.

Definition get_user_by_public_id (user_id : string) (d : db) : result (option app_user) :=
  match get_by_uuid user_id d with
  | Some u => Ok (Some u)
  | None =>
      if is_digit user_id
      then match py_int_of_str user_id with Some i => Ok (get_user i d) | None => Raise EValue end
      else Ok None
  end.

Definition is_active_admin (u : app_user) : bool := String.eqb (u_role u) ROLE_ADMIN && u_is_active u.
Definition active_admin_count (d : db) : nat := length (filter (fun u => is_active_admin u = true) (users d)).

Definition find_user (user_id : string) (d : db) : result app_user :=
  found ← get_user_by_public_id user_id d;
  match found with Some u => Ok u | None => Raise (EHttp 404 "auth.user_not_found") end.

Definition org_usable (o : option Z) (d : db) : result unit :=
  match o with
  | None => Ok tt
  | Some i =>
      match first (fun r => o_id r =? i) (organizations d) with
      | None => Raise (EHttp 404 "org.not_found")
      | Some r => raise_if (negb (o_is_active r)) (EHttp 409 "org.inactive")
      end
  end.

(** The body of POST [/users], after its schema. *)
Record user_create := UserCreate {
  uc_username : string;
  uc_password : string;
  uc_email : option string;
  uc_display_name : option string;
  uc_organization_id : option Z;
  uc_role : string;
  uc_is_global : bool;
}.

(** ** The schemas of the bodies: [api/schemas.py] *)

Definition INVALID_BODY : exn := EHttp 422 "invalid body".
Definition USER_ROLES : list string := ["viewer"; "operator"; "engineer"; "admin"; "user"].

Definition required_text (v : string) : result string :=
  let value := str_strip v in raise_if (String.eqb value "") INVALID_BODY;; Ok value.
Definition text_or_none (v : option string) : option string :=
  match str_strip <$> v with Some EmptyString => None | o => o end.
Definition normalize_email (v : option string) : result (option string) :=
  match str_lower ∘ str_strip <$> v with
  | None | Some EmptyString => Ok None
  | Some value => raise_if (negb (has_char "@" value)) INVALID_BODY;; Ok (Some value)
  end.
Definition role_in (roles : list string) (r : string) : result unit := raise_if (negb (bool_decide (r ∈ roles))) INVALID_BODY.

Definition user_create_schema (c : user_create) : result user_create :=
  username ← required_text (uc_username c);
  password ← required_text (uc_password c);
  email ← normalize_email (uc_email c);
  role_in USER_ROLES (uc_role c);;
  Ok (UserCreate username password email (text_or_none (uc_display_name c)) (uc_organization_id c) (uc_role c) (uc_is_global c)).

(** The columns drawn at random: the uuid and the salt of the password. *)
Record entropy := Entropy { e_uuid : string; e_salt : string; e_token : string }.

Definition new_user (e : entropy) (i : Z) (c : user_create) : app_user :=
  AppUser i (e_uuid e) (uc_username c) (uc_email c) (uc_display_name c) "local" None
    (Some (hash_password (e_salt e) (uc_password c))) (uc_organization_id c) (uc_role c) (uc_is_global c) true.

Definition nonempty (o : option string) : bool := match o with Some (String _ _) => true | _ => false end.

Definition create_user (e : entropy) (p : principal) (c : user_create) (d : db) : result db :=
  require_permission USER_MANAGE p;;
  c ← user_create_schema c;
  validate_password_strength (uc_password c);;
  raise_if (bool_decide (get_by_username (uc_username c) d <> None)) (EHttp 409 "auth.username_exists");;
  raise_if (nonempty (uc_email c) && bool_decide ((uc_email c ≫= fun m => get_by_email m d) <> None)) (EHttp 409 "auth.email_exists");;
  org_usable (uc_organization_id c) d;;
  enforce_admin_delegation_scope (p_user p) (uc_organization_id c) (uc_is_global c);;
  add_user (new_user e (next_id d) c) d.

(** The body of PUT [/users/{user_id}], after its schema.  [uu_email] and
    [uu_organization_id] tell a field that was not sent from a [null]. *)
Record user_update := UserUpdate {
  uu_username : option string;
  uu_password : option string;
  uu_email : option (option string);
  uu_display_name : option string;
  uu_organization_id : option (option Z);
  uu_role : option string;
  uu_is_global : option bool;
  uu_is_active : option bool;
}.

Definition user_update_schema (c : user_update) : result user_update :=
  email ← match uu_email c with None => Ok None | Some m => Some <$> normalize_email m end;
  match uu_role c with None => Ok tt | Some r => role_in USER_ROLES r end;;
  Ok (UserUpdate (text_or_none (uu_username c)) (text_or_none (uu_password c)) email (text_or_none (uu_display_name c))
        (uu_organization_id c) (uu_role c) (uu_is_global c) (uu_is_active c)).

Definition taken_by_other (found : option app_user) (u : app_user) : bool :=
  match found with Some v => negb (u_id v =? u_id u) | None => false end.

Definition update_kwargs (e : entropy) (c : user_update) : user_changes :=
  UserChanges (uu_username c) (uu_display_name c)
    (match uu_password c with Some (String a s) => Some (hash_password (e_salt e) (String a s)) | _ => None end)
    (uu_email c) (uu_organization_id c) (uu_role c) (uu_is_global c) (uu_is_active c).

(** The checks of [update_user], in order, on the row [u] it found. *)
Definition check_update (p : principal) (c : user_update) (u : app_user) (d : db) : result unit :=
  raise_if (match uu_username c with
            | Some (String a n) => negb (String.eqb (String a n) (u_username u)) && taken_by_other (get_by_username (String a n) d) u
            | _ => false end) (EHttp 409 "auth.username_exists");;
  raise_if (match uu_email c with
            | Some (Some (String a m)) => negb (bool_decide (Some (String a m) = u_email u)) && taken_by_other (get_by_email (String a m) d) u
            | _ => false end) (EHttp 409 "auth.email_exists");;
  let next_role := default (u_role u) (uu_role c) in
  let next_is_active := default (u_is_active u) (uu_is_active c) in
  raise_if (String.eqb (u_role u) ROLE_ADMIN && (negb (String.eqb next_role ROLE_ADMIN) || negb next_is_active)
            && (active_admin_count d <=? 1)%nat) (EHttp 400 "auth.last_admin_required");;
  raise_if ((u_id (p_user p) =? u_id u) && negb next_is_active) (EHttp 400 "auth.cannot_deactivate_self");;
  org_usable (default None (uu_organization_id c)) d;;
  enforce_admin_delegation_scope (p_user p) (default (u_organization_id u) (uu_organization_id c))
    (default (u_is_global u) (uu_is_global c));;
  match uu_password c with Some (String a s) => validate_password_strength (String a s) | _ => Ok tt end.

Definition update_user (now : Z) (e : entropy) (p : principal) (user_id : string) (c : user_update) (d : db) : result db :=
  require_permission USER_MANAGE p;;
  c ← user_update_schema c;
  u ← find_user user_id d;
  check_update p c u d;;
  let kwargs := update_kwargs e c in
  let d := update_user_row (u_id u) kwargs d in
  let updated := apply_changes kwargs u in
  let d := if bool_decide (c_password_hash kwargs <> None) || negb (u_is_active updated)
           then revoke_all_for_user now (u_id u) d else d in
  Ok (if negb (u_is_active updated) then revoke_all_tokens now (u_id u) d else d).

Definition delete_user (p : principal) (user_id : string) (d : db) : result db :=
  require_permission USER_MANAGE p;;
  u ← find_user user_id d;
  raise_if (u_id (p_user p) =? u_id u) (EHttp 400 "auth.cannot_delete_self");;
  enforce_admin_delegation_scope (p_user p) (u_organization_id u) (u_is_global u);;
  raise_if (is_active_admin u && (active_admin_count d <=? 1)%nat) (EHttp 400 "auth.last_admin_required");;
  Ok (delete_user_row (u_id u) d).

Definition list_users (p : principal) (d : db) : result (list app_user) :=
  require_permission USER_MANAGE p;;
  Ok (match accessible_org_ids (p_user p) with
      | None => users d
      | Some org_ids =>
          filter (fun u => match u_organization_id u with Some o => bool_decide (o ∈ org_ids) | None => false end
                           && negb (u_is_global u) = true) (users d)
      end).

(** ** Organizations: [delete_organization] of [routers/organizations.py] *)

(** The foreign keys of users and service accounts are [ON DELETE SET NULL]. *)
Definition forget_org (i : Z) (o : option Z) : option Z := if bool_decide (o = Some i) then None else o.
Definition user_forget_org (i : Z) (u : app_user) : app_user :=
  AppUser (u_id u) (u_uuid u) (u_username u) (u_email u) (u_display_name u) (u_auth_provider u) (u_external_subject u)
    (u_password_hash u) (forget_org i (u_organization_id u)) (u_role u) (u_is_global u) (u_is_active u).
Definition account_forget_org (i : Z) (a : service_account) : service_account :=
  ServiceAccount (a_id a) (a_name a) (a_description a) (a_role a) (forget_org i (a_organization_id a)) (a_is_active a).

Definition delete_organization (p : principal) (i : Z) (d : db) : result db :=
  require_permission USER_MANAGE p;;
  require_global_scope (p_user p);;
  raise_if (bool_decide (first (fun o => o_id o =? i) (organizations d) = None)) (EHttp 404 "org.not_found");;
  Ok (Db (user_forget_org i <$> users d) (account_forget_org i <$> accounts d)
        (delete_where (fun o => o_id o =? i) (organizations d)) (sessions d) (tokens d) (next_id d)).

(** ** Service accounts: [routers/service_accounts.py], [services/service_accounts.py] *)

Record account_create := AccountCreate {
  ac_name : string;
  ac_description : option string;
  ac_role : string;
  ac_organization_id : option Z;
}.

(** The fields that were sent: the outer option of the nullable ones. *)
Record account_update := AccountUpdate {
  au_description : option (option string);
  au_role : option string;
  au_organization_id : option (option Z);
  au_is_active : option bool;
}.

(** [str.isalnum] of one Latin-1 character. *)
Definition is_alnum (a : ascii) : bool :=
  in_range 48 57 a || in_range 65 90 a || in_range 97 122 a || in_range 192 214 a || in_range 216 246 a || in_range 248 255 a
  || existsb (N.eqb (N_of_ascii a)) [170; 178; 179; 181; 185; 186; 188; 189; 190]%N.
Fixpoint account_name_chars (s : string) : bool :=
  match s with EmptyString => true | String a s' => (is_alnum a || has_char a "-_.") && account_name_chars s' end.

Definition account_create_schema (c : account_create) : result account_create :=
  name ← required_text (ac_name c);
  raise_if (100 <? String.length name)%nat INVALID_BODY;;
  raise_if (negb (account_name_chars name)) INVALID_BODY;;
  role_in VALID_ROLES (ac_role c);;
  Ok (AccountCreate name (ac_description c) (ac_role c) (ac_organization_id c)).

Definition account_update_schema (c : account_update) : result unit :=
  match au_role c with None => Ok tt | Some r => role_in VALID_ROLES r end.

Definition token_create_schema (c : token_create) : result token_create :=
  name ← required_text (tc_name c);
  raise_if (100 <? String.length name)%nat INVALID_BODY;;
  Ok (TokenCreate name (tc_expires_at c) (tc_is_eternal c) (tc_scopes c)).

Definition apply_account_update (c : account_update) (a : service_account) : service_account :=
  ServiceAccount (a_id a) (a_name a) (default (a_description a) (au_description c)) (default (a_role a) (au_role c))
    (default (a_organization_id a) (au_organization_id c)) (default (a_is_active a) (au_is_active c)).

Definition assert_sa_in_scope (a : service_account) (p : principal) : result unit :=
  match a_organization_id a with
  | Some o => require_subtree_access (p_user p) o
  | None => require_global_scope (p_user p)
  end.

Definition find_account (i : Z) (p : principal) (d : db) : result service_account :=
  match get_account i d with
  | None => Raise (EHttp 404 "service_account.not_found")
  | Some a => assert_sa_in_scope a p;; Ok a
  end.

(** [try: ... except ValueError as exc: raise ApiError(code, 400)]. *)
Definition bad_request {A} (code : string) (m : result A) : result A :=
  try_except m is_value_error (fun _ => Raise (EHttp 400 code)).

Definition sa_create (c : account_create) (d : db) : result db :=
  let normalized_name := str_strip (ac_name c) in
  raise_if (String.eqb normalized_name "") EValue;;
  raise_if (existsb (fun a => String.eqb (a_name a) normalized_name) (accounts d)) EValue;;
  Ok (bump_id (set_accounts (fun l => l ++ [ServiceAccount (next_id d) normalized_name (ac_description c) (ac_role c) (ac_organization_id c) true]) d)).

Definition create_service_account (p : principal) (c : account_create) (d : db) : result db :=
  require_permission USER_MANAGE p;;
  c ← account_create_schema c;
  enforce_admin_delegation_scope (p_user p) (ac_organization_id c) false;;
  bad_request "service_account.invalid" (sa_create c d).

Definition list_service_accounts (p : principal) (include_inactive : bool) (d : db) : result (list service_account) :=
  require_permission USER_MANAGE p;;
  let rows := filter (fun a => include_inactive || a_is_active a = true) (accounts d) in
  Ok (match accessible_org_ids (p_user p) with
      | None => rows
      | Some org_ids =>
          filter (fun a => match a_organization_id a with Some o => bool_decide (o ∈ org_ids) | None => false end = true) rows
      end).

Definition update_service_account (p : principal) (i : Z) (c : account_update) (d : db) : result db :=
  require_permission USER_MANAGE p;;
  account_update_schema c;;
  a ← find_account i p d;
  match au_organization_id c with
  | Some o => enforce_admin_delegation_scope (p_user p) o false
  | None => Ok tt
  end;;
  Ok (set_accounts (update_where (fun r => a_id r =? a_id a) (apply_account_update c)) d).

(** The tokens of the account go with it. *)
Definition delete_service_account (p : principal) (i : Z) (d : db) : result db :=
  require_permission USER_MANAGE p;;
  a ← find_account i p d;
  Ok (set_tokens (delete_where (fun t => bool_decide (t_service_account_id t = Some (a_id a))))
       (set_accounts (delete_where (fun r => a_id r =? a_id a)) d)).

Definition create_token_for_sa (e : entropy) (now : Z) (p : principal) (i : Z) (c : token_create) (d : db) : result db :=
  require_permission USER_MANAGE p;;
  c ← token_create_schema c;
  a ← find_account i p d;
  raise_if (negb (a_is_active a)) (EHttp 400 "service_account.inactive_token_issue");;
  bad_request "service_account.token_invalid" (create_token (e_token e) now (OwnAccount a) c d).

Definition revoke_token_for_sa (now : Z) (p : principal) (i token_id : Z) (d : db) : result db :=
  require_permission USER_MANAGE p;;
  a ← find_account i p d;
  match get_token token_id d with
  | Some t =>
      if bool_decide (t_service_account_id t = Some (a_id a)) then Ok (revoke now t d)
      else Raise (EHttp 404 "service_account.token_not_found")
  | None => Raise (EHttp 404 "service_account.token_not_found")
  end.

(** ** Personal tokens: [routers/api_tokens.py]

    Any authenticated principal, whatever the scopes of its own token. *)

Definition create_personal_token (e : entropy) (now : Z) (p : principal) (service_account_id : option Z) (c : token_create) (d : db) : result db :=
  c ← token_create_schema c;
  raise_if (bool_decide (service_account_id <> None)) (EHttp 400 "api_token.service_account_id_not_allowed");;
  bad_request "api_token.invalid_request" (create_token (e_token e) now (OwnUser (p_user p)) c d).

Definition revoke_personal_token (now : Z) (p : principal) (token_id : Z) (d : db) : result db :=
  match get_token token_id d with
  | Some t =>
      if bool_decide (t_user_id t = Some (u_id (p_user p))) && bool_decide (t_service_account_id t = None) then Ok (revoke now t d)
      else Raise (EHttp 404 "api_token.not_found")
  | None => Raise (EHttp 404 "api_token.not_found")
  end.

Context `{SessionHash} `{SessionTtl} `{TokenLimiter}.

(** ** Sessions: login, logout, the other devices *)

(** [create_user_session]; the hash of a session is unique. *)
Definition create_user_session (e : entropy) (now : Z) (u : app_user) (d : db) : result db :=
  let h := hash_session_token (e_token e) in
  raise_if (existsb (fun s => String.eqb (s_token_hash s) h) (sessions d)) INTEGRITY_ERROR;;
  Ok (bump_id (set_sessions (fun l => l ++ [UserSession (next_id d) (u_id u) h (now + SESSION_TTL_HOURS * HOUR) None]) d)).

Definition INVALID_CREDENTIALS : exn := EHttp 401 "auth.invalid_credentials".

(** The checks of [login] on the name and the password. *)
Definition authenticate (username password : string) (d : db) : result app_user :=
  raise_if (match users d with [] => true | _ => false end) (EHttp 400 "auth.setup_required");;
  match get_by_username username d with
  | None => Raise INVALID_CREDENTIALS
  | Some u =>
      valid ← verify_password password (u_password_hash u);
      raise_if (negb valid) INVALID_CREDENTIALS;;
      raise_if (negb (u_is_active u)) INVALID_CREDENTIALS;;
      Ok u
  end.

Definition login_user (e : entropy) (now : Z) (username password : string) (d : db) : result db :=
  u ← authenticate username password d;
  create_user_session e now u (delete_expired now d).

Definition current_session (now : Z) (c : credentials) (d : db) : option user_session :=
  match h_cookie c with
  | None | Some EmptyString => None
  | Some raw => get_active_by_token_hash now (hash_session_token raw) d
  end.

Definition logout (now : Z) (c : credentials) (d : db) : result db :=
  Ok (match current_session now c d with Some s => revoke_session now s d | None => d end).

Definition revoke_my_other_sessions (now : Z) (c : credentials) (p : principal) (d : db) : result db :=
  Ok (revoke_all_for_user_except now (u_id (p_user p)) (s_id <$> current_session now c d) d).

(** ** The first administrator: [bootstrap_admin] of [routers/auth.py] *)

(** The body of POST [/bootstrap]. *)
Record bootstrap_request := BootstrapRequest { br_username : string; br_password : string; br_display_name : option string }.

Definition bootstrap_schema (b : bootstrap_request) : result bootstrap_request :=
  username ← required_text (br_username b);
  password ← required_text (br_password b);
  Ok (BootstrapRequest username password (text_or_none (br_display_name b))).

Definition first_admin (e : entropy) (i : Z) (b : bootstrap_request) : app_user :=
  AppUser i (e_uuid e) (br_username b) None (br_display_name b) "local" None
    (Some (hash_password (e_salt e) (br_password b))) None ROLE_ADMIN false true.

(** A new session after the commit of the account: what the commit wrote stays. *)
Definition signed_in (e : entropy) (now : Z) (u : app_user) (d : db) : db * result unit :=
  match create_user_session e now u d with Ok d' => (d', Ok tt) | Raise x => (d, Raise x) end.

Definition bootstrap_admin (e : entropy) (now : Z) (b : bootstrap_request) (d : db) : db * result unit :=
  let admin := b ← bootstrap_schema b;
    raise_if (match users d with [] => false | _ => true end) (EHttp 409 "auth.admin_already_configured");;
    validate_password_strength (br_password b);;
    raise_if (bool_decide (get_by_username (br_username b) d <> None)) (EHttp 409 "auth.username_exists");;
    d' ← add_user (first_admin e (next_id d) b) d;
    Ok (first_admin e (next_id d) b, d') in
  match admin with Ok (u, d') => signed_in e now u d' | Raise x => (d, Raise x) end.

(** ** Federated login: [sso_callback] of [routers/sso.py]

    From the identity on that [oidc] read in a token of the provider: what refuses the
    callback before changes no account. *)

Record oidc_identity := OidcIdentity {
  oi_subject : string;
  oi_email : option string;
  oi_display_name : option string;
  oi_role : string;
  oi_is_global : bool;
}.

Definition derive_username (i : oidc_identity) (d : db) : string :=
  let base := match oi_email i with Some (String a m) => String a m | _ => ("entra-" +:+ oi_subject i)%string end in
  if bool_decide (get_by_username base d = None) then base else (base +:+ "#" +:+ str_take 8 (oi_subject i))%string.

Definition federated_user (e : entropy) (n : Z) (name : string) (i : oidc_identity) : app_user :=
  AppUser n (e_uuid e) name (oi_email i) (oi_display_name i) "entra" (Some (oi_subject i)) None None (oi_role i) (oi_is_global i) true.

(** What each login reconciles with the provider. *)
Definition reconciled (i : oidc_identity) : user_changes :=
  UserChanges None (oi_display_name i) None (Some (oi_email i)) None (Some (oi_role i)) (Some (oi_is_global i)) None.

(** [UserRepository.update] under the unique constraint of the mail. *)
Definition update_checked (i : Z) (c : user_changes) (d : db) : result db :=
  raise_if (match c_email c with
            | Some (Some m) => existsb (fun v => negb (u_id v =? i) && bool_decide (u_email v = Some m)) (users d)
            | _ => false end) INTEGRITY_ERROR;;
  Ok (update_user_row i c d).

(** [jit]: [cfg.entra_jit_provisioning]. *)
Definition sso_callback (e : entropy) (now : Z) (jit : bool) (i : oidc_identity) (d : db) : db * result unit :=
  let account := match get_by_external_subject "entra" (oi_subject i) d with
    | None =>
        raise_if (nonempty (oi_email i) && bool_decide ((oi_email i ≫= fun m => get_by_email m d) <> None)) (EHttp 303 "email_conflict");;
        raise_if (negb jit) (EHttp 303 "not_provisioned");;
        let u := federated_user e (next_id d) (derive_username i d) i in
        d' ← add_user u d; Ok (u, d')
    | Some u =>
        raise_if (negb (u_is_active u)) (EHttp 303 "user_inactive");;
        d' ← update_checked (u_id u) (reconciled i) d; Ok (apply_changes (reconciled i) u, d')
    end in
  match account with Ok (u, d') => signed_in e now u d' | Raise x => (d, Raise x) end.

(** ** Requests *)

Inductive request :=
| RCreateUser (e : entropy) (c : user_create)
| RUpdateUser (e : entropy) (user_id : string) (c : user_update)
| RDeleteUser (user_id : string)
| RDeleteOrganization (i : Z)
| RCreateAccount (c : account_create)
| RUpdateAccount (i : Z) (c : account_update)
| RDeleteAccount (i : Z)
| RIssueAccountToken (e : entropy) (i : Z) (c : token_create)
| RRevokeAccountToken (i token_id : Z)
| RIssueToken (e : entropy) (service_account_id : option Z) (c : token_create)
| RRevokeToken (token_id : Z)
| RLogout
| RRevokeOthers.

Definition handle (now : Z) (k : credentials) (p : principal) (r : request) (d : db) : result db :=
  match r with
  | RCreateUser e c => create_user e p c d
  | RUpdateUser e i c => update_user now e p i c d
  | RDeleteUser i => delete_user p i d
  | RDeleteOrganization i => delete_organization p i d
  | RCreateAccount c => create_service_account p c d
  | RUpdateAccount i c => update_service_account p i c d
  | RDeleteAccount i => delete_service_account p i d
  | RIssueAccountToken e i c => create_token_for_sa e now p i c d
  | RRevokeAccountToken i t => revoke_token_for_sa now p i t d
  | RIssueToken e o c => create_personal_token e now p o c d
  | RRevokeToken t => revoke_personal_token now p t d
  | RLogout => logout now k d
  | RRevokeOthers => revoke_my_other_sessions now k p d
  end.

(** A request as the application serves it: the principal is resolved, then the
    handler runs.  A refusal leaves what the resolution wrote. *)
Definition serve (now : Z) (c : credentials) (r : request) (d : db) : db * result unit :=
  match get_current_user now c d with
  | (d', Raise e) => (d', Raise e)
  | (d', Ok p) => match handle now c p r d' with Ok d'' => (d'', Ok tt) | Raise e => (d', Raise e) end
  end.

(** What reaches the application: a request with its credentials, a login, the creation
    of the first administrator, or the return of a user from the identity provider. *)
Inductive call :=
| CRequest (now : Z) (c : credentials) (r : request)
| CLogin (now : Z) (e : entropy) (username password : string)
| CBootstrap (now : Z) (e : entropy) (b : bootstrap_request)
| CSso (now : Z) (e : entropy) (jit : bool) (i : oidc_identity).

Definition serve_call (d : db) (k : call) : db :=
  match k with
  | CRequest now c r => (serve now c r d).1
  | CLogin now e username password => match login_user e now username password d with Ok d' => d' | Raise _ => d end
  | CBootstrap now e b => (bootstrap_admin e now b d).1
  | CSso now e jit i => (sso_callback e now jit i d).1
  end.
Definition serve_all (ks : list call) (d : db) : db := fold_left serve_call ks d.
End handlers.
