(* ===== verification/AccountsProps.v ===== *)
(** * What the administration of accounts guarantees

    Over any sequence of requests, logins, bootstraps and federated logins: the
    tables stay well formed, an administrator remains unless the identity provider
    demotes the last one, the credentials of a deactivated user stay dead, and actors
    confined to a set of organizations, who update users of it, never gain reach
    outside.  And what it does not guarantee, by closed examples. *)

From S2P Require Import Prelude PyVal Text Operators Boundary Tenancy Accounts.

Local Open Scope Z_scope.

(** ** Rows *)

Section rows.
Context {A : Type}.
Implicit Types (p : A -> bool) (f : A -> A) (l : list A).

Lemma first_some p l x : first p l = Some x -> x ∈ l /\ p x = true.
Proof. intros H. apply find_some in H as [H1 H2]. split; [by apply list_elem_of_In | done]. Qed.

Lemma first_none p l x : first p l = None -> x ∈ l -> p x = false.
Proof. intros H Hx. apply (find_none _ _ H). by apply list_elem_of_In. Qed.

Lemma elem_update_where p f l x :
  x ∈ update_where p f l -> (x ∈ l /\ p x = false) \/ exists y, y ∈ l /\ p y = true /\ x = f y.
Proof.
  unfold update_where. intros (y & -> & Hy)%list_elem_of_fmap. destruct (p y) eqn:E; [right; eauto | by left].
Qed.

Lemma elem_delete_where p l x : x ∈ delete_where p l <-> p x = false /\ x ∈ l.
Proof. unfold delete_where. by rewrite list_elem_of_filter. Qed.

Lemma update_where_proj {B} (g : A -> B) p f l : (forall x, g (f x) = g x) -> g <$> update_where p f l = g <$> l.
Proof.
  intros Hg. unfold update_where. rewrite <- list_fmap_compose. apply list_fmap_ext. intros i x _. cbn. case_match; [apply Hg|done].
Qed.

Lemma NoDup_fmap_filter {B} (g : A -> B) (P : A -> Prop) `{!forall x, Decision (P x)} l : NoDup (g <$> l) -> NoDup (g <$> filter P l).
Proof.
  induction l as [|x l IH]; [done|]. rewrite filter_cons. cbn. intros [Hx Hl]%NoDup_cons.
  destruct (decide (P x)); [|auto]. cbn. apply NoDup_cons. split; [|auto].
  intros (y & Hy & [_ Hin]%list_elem_of_filter)%list_elem_of_fmap. apply Hx. rewrite Hy. by apply list_elem_of_fmap_2.
Qed.

(** Rows with distinct keys are determined by them. *)
Lemma NoDup_fmap_inj_on {B} (g : A -> B) l x y : NoDup (g <$> l) -> x ∈ l -> y ∈ l -> g x = g y -> x = y.
Proof.
  induction l as [|z l IH]; [by rewrite elem_of_nil|]. cbn. intros [Hz Hl]%NoDup_cons.
  rewrite !elem_of_cons. intros [->|Hx] [->|Hy] He; [done| | |by apply IH].
  - destruct Hz. rewrite He. by apply list_elem_of_fmap_2.
  - destruct Hz. rewrite <- He. by apply list_elem_of_fmap_2.
Qed.

Lemma NoDup_snoc l x : NoDup l -> x ∉ l -> NoDup (l ++ [x]).
Proof.
  intros Hl Hx. apply NoDup_app. split_and!; [done| |apply NoDup_singleton].
  intros y Hy ->%list_elem_of_singleton. done.
Qed.
End rows.

(** ** Well-formed tables *)

Definition ids_below {A} (f : A -> Z) (n : Z) (l : list A) : Prop := Forall (fun i => 0 < i < n) (f <$> l).
Definition unique_on {A B} (f : A -> option B) (l : list A) : Prop :=
  forall x y, x ∈ l -> y ∈ l -> f x <> None -> f x = f y -> x = y.

(** Ids are drawn once, and no two users share a name, a mail or a uuid. *)
Record db_wf (d : db) : Prop := {
  wf_next : 0 < next_id d;
  wf_users : NoDup (u_id <$> users d);
  wf_accounts : NoDup (a_id <$> accounts d);
  wf_sessions : NoDup (s_id <$> sessions d);
  wf_tokens : NoDup (t_id <$> tokens d);
  wf_users_below : ids_below u_id (next_id d) (users d);
  wf_accounts_below : ids_below a_id (next_id d) (accounts d);
  wf_sessions_below : ids_below s_id (next_id d) (sessions d);
  wf_tokens_below : ids_below t_id (next_id d) (tokens d);
  wf_usernames : unique_on (fun u => Some (u_username u)) (users d);
  wf_uuids : unique_on (fun u => Some (u_uuid u)) (users d);
  wf_emails : unique_on u_email (users d);
}.

(** ** What each handler does *)

Section effects.
Context `{Pbkdf2} `{TokenHash} `{JsonLoads} `{ScopeResolver}.
Implicit Types (d : db) (p : principal).

Definition delegated p (o : option Z) (g : bool) : Prop := enforce_admin_delegation_scope (p_user p) o g = Ok tt.

(** The name, mail and uuid of a row are free for the row [i]. *)
Definition free_for d (i : Z) (u : app_user) : Prop :=
  forall v, v ∈ users d -> u_id v <> i ->
    u_username v <> u_username u /\ u_uuid v <> u_uuid u /\ (u_email u <> None -> u_email v <> u_email u).

Lemma add_user_inv u d d' :
  add_user u d = Ok d' -> free_for d (u_id u) u /\ d' = bump_id (set_users (fun l => l ++ [u]) d).
Proof.
  unfold add_user. destruct (existsb _ _) eqn:E; [done|]. intros [= <-]. split; [|done].
  intros v Hv _. apply not_true_iff_false in E. rewrite existsb_exists in E.
  assert (Hf := fun H => E (ex_intro _ v (conj (proj1 (list_elem_of_In _ _) Hv) H))). clear E.
  split_and!; intros He; [| |intros He']; apply Hf; rewrite ?He, ?He'.
  - by rewrite String.eqb_refl.
  - by rewrite String.eqb_refl, orb_true_r.
  - rewrite !bool_decide_eq_true_2 by congruence. by rewrite orb_true_r.
Qed.

Lemma create_user_inv e p c d d' :
  create_user e p c d = Ok d' -> exists u,
  u_id u = next_id d /\ u_is_active u = true /\ free_for d (u_id u) u /\
  delegated p (u_organization_id u) (u_is_global u) /\ d' = bump_id (set_users (fun l => l ++ [u]) d).
Proof.
  intros Hc. unfold create_user in Hc. skip_bind Hc. peel_bind Hc as c' Hs. do 4 skip_bind Hc.
  peel_bind Hc as x Hg. apply add_user_inv in Hc as [Hf ->]. destruct x.
  exists (new_user e (next_id d) c'). done.
Qed.

Lemma first_row {A} (q : A -> bool) l x : first q l = Some x -> x ∈ l.
Proof. by intros [? _]%first_some. Qed.

Lemma find_user_inv i d u : find_user i d = Ok u -> u ∈ users d.
Proof.
  unfold find_user, get_user_by_public_id, get_by_uuid, get_user. intros Hf. peel_bind Hf as o Ho.
  destruct o as [v|]; [|done]. injection Hf as ->. repeat case_match; simplify_eq; eauto using first_row.
Qed.

(** A column a change leaves free of the other rows. *)
Definition keeps_unique {B} (f : app_user -> option B) d (u u' : app_user) : Prop :=
  f u' = f u \/ f u' = None \/ forall v, v ∈ users d -> f v <> f u'.

Lemma not_taken {B} (f : app_user -> option B) (q : app_user -> bool) d u x :
  unique_on f (users d) -> u ∈ users d -> (forall v, q v = true <-> f v = Some x) ->
  (forall v w, v ∈ users d -> w ∈ users d -> u_id v = u_id w -> v = w) ->
  taken_by_other (first q (users d)) u = false -> f u = Some x \/ forall v, v ∈ users d -> f v <> Some x.
Proof.
  intros Hu Hin Hq Hid. destruct (first q (users d)) as [w|] eqn:E; cbn.
  - intros Hw. bool_simpl. apply first_some in E as [Hw1 Hw2]. left. rewrite <- (Hid w u) by auto. by apply Hq.
  - intros _. right. intros v Hv Hf. apply (first_none _ _ v) in E; [|done]. apply Hq in Hf. congruence.
Qed.

(** The checks of an update that matter to the tables. *)
Record update_allowed p (k : user_changes) (u : app_user) d : Prop := {
  ua_delegated : delegated p (u_organization_id (apply_changes k u)) (u_is_global (apply_changes k u));
  ua_admin : u_role u = ROLE_ADMIN -> is_active_admin (apply_changes k u) = true \/ (1 < active_admin_count d)%nat;
  ua_username : keeps_unique (fun u => Some (u_username u)) d u (apply_changes k u);
  ua_email : keeps_unique u_email d u (apply_changes k u);
}.

Lemma text_or_none_nonempty o : text_or_none o <> Some "".
Proof. unfold text_or_none. destruct o as [x|]; cbn; [|done]. by destruct (str_strip x). Qed.

Lemma normalize_email_nonempty o o' : normalize_email o = Ok o' -> o' <> Some "".
Proof.
  unfold normalize_email. destruct o as [x|]; cbn; [|by intros [= <-]].
  destruct (str_lower (str_strip x)) as [|a m]; [by intros [= <-]|]. intros Hm. skip_bind Hm. injection Hm as <-. done.
Qed.

Lemma user_update_schema_inv c c' :
  user_update_schema c = Ok c' -> uu_username c' <> Some "" /\ uu_email c' <> Some (Some "").
Proof.
  unfold user_update_schema. intros Hc. peel_bind Hc as m Hm. skip_bind Hc. injection Hc as <-. cbn.
  split; [apply text_or_none_nonempty|]. destruct (uu_email c) as [o|]; cbn in Hm; [|by injection Hm as <-].
  destruct (normalize_email o) eqn:E; [|done]. injection Hm as <-. intros [= ->]. by apply normalize_email_nonempty in E.
Qed.

Lemma unique_ids d v w : db_wf d -> v ∈ users d -> w ∈ users d -> u_id v = u_id w -> v = w.
Proof. intros Hw. apply NoDup_fmap_inj_on, Hw. Qed.

Lemma check_update_inv e p c u d :
  db_wf d -> u ∈ users d -> uu_username c <> Some "" -> uu_email c <> Some (Some "") ->
  check_update p c u d = Ok tt -> update_allowed p (update_kwargs e c) u d.
Proof.
  intros Hw Hu Hn Hm Hc. unfold check_update in Hc.
  peel_bind Hc as x1 Hname%raise_if_ok. peel_bind Hc as x2 Hmail%raise_if_ok.
  peel_bind Hc as x3 Hadmin%raise_if_ok. skip_bind Hc. skip_bind Hc. peel_bind Hc as x4 Hdel. destruct x4.
  split; [done| | |]; cbn.
  - intros Hr. unfold is_active_admin. cbn. rewrite Hr, String.eqb_refl in Hadmin. cbn in Hadmin. rewrite Hr.
    destruct (String.eqb _ _), (default _ _); cbn in Hadmin |- *; [by left|right..];
      apply Nat.leb_gt in Hadmin; done.
  - unfold keeps_unique. cbn. destruct (uu_username c) as [[|a n]|]; [done| |by left]. cbn.
    destruct (String.eqb_spec (String a n) (u_username u)) as [->|Hne]; [by left|]. cbn in Hname.
    apply (not_taken (fun v => Some (u_username v)) _ _ _ (String a n)) in Hname;
      [|apply Hw|done|intros v; rewrite String.eqb_eq; split; congruence|eauto using unique_ids].
    destruct Hname as [Hname|Hname]; [left; congruence | by right; right].
  - unfold keeps_unique. cbn. destruct (uu_email c) as [[[|a n]|]|]; [done| |by right; left|by left]. cbn.
    case_bool_decide as He; [by left|]. cbn in Hmail.
    apply (not_taken u_email _ _ _ (String a n)) in Hmail;
      [|apply Hw|done|intros v; by rewrite bool_decide_eq_true|eauto using unique_ids].
    destruct Hmail as [Hmail|Hmail]; [left; congruence | by right; right].
Qed.

(** The credentials an update may revoke. *)
Definition sessions_cut (now i : Z) (b : bool) d : db := if b then revoke_all_for_user now i d else d.
Definition tokens_cut (now i : Z) (b : bool) d : db := if b then revoke_all_tokens now i d else d.

Lemma update_user_inv now e p i c d d' :
  db_wf d -> update_user now e p i c d = Ok d' -> exists u k,
  find_user i d = Ok u /\ u ∈ users d /\ update_allowed p k u d /\
  let u' := apply_changes k u in
  d' = tokens_cut now (u_id u) (negb (u_is_active u'))
         (sessions_cut now (u_id u) (bool_decide (c_password_hash k <> None) || negb (u_is_active u'))
           (update_user_row (u_id u) k d)).
Proof.
  intros Hw Hc. unfold update_user in Hc. skip_bind Hc. peel_bind Hc as c' Hs. peel_bind Hc as u Hfu. pose proof Hfu as Hu%find_user_inv.
  apply user_update_schema_inv in Hs as [Hn Hm]. peel_bind Hc as x Hx. destruct x. injection Hc as <-.
  exists u, (update_kwargs e c'). split_and!; [done|done|by apply check_update_inv|done].
Qed.

Lemma delete_user_inv p i d d' :
  delete_user p i d = Ok d' -> exists u,
  u ∈ users d /\ delegated p (u_organization_id u) (u_is_global u) /\ u_id u <> u_id (p_user p) /\
  (is_active_admin u = true -> (1 < active_admin_count d)%nat) /\ d' = delete_user_row (u_id u) d.
Proof.
  intros Hc. unfold delete_user in Hc. skip_bind Hc. peel_bind Hc as u Hu%find_user_inv.
  peel_bind Hc as x Hself%raise_if_ok. peel_bind Hc as y Hdel. destruct y. peel_bind Hc as z Ha%raise_if_ok.
  injection Hc as <-. exists u. split_and!; auto.
  - apply Z.eqb_neq in Hself. done.
  - intros Hact. rewrite Hact in Ha. cbn in Ha. by apply Nat.leb_gt in Ha.
Qed.

Lemma find_account_inv i p d a : find_account i p d = Ok a -> a ∈ accounts d /\ assert_sa_in_scope a p = Ok tt.
Proof.
  unfold find_account, get_account. intros Hf. destruct (first _ _) as [b|] eqn:E; [|done]. apply first_row in E.
  peel_bind Hf as x Hx. injection Hf as ->. by destruct x.
Qed.

Lemma bad_request_ok {A} code (m : result A) a : bad_request code m = Ok a -> m = Ok a.
Proof. unfold bad_request. destruct m; cbn; [done|]. by case_match. Qed.

Lemma create_token_inv raw now o c d d' :
  create_token raw now o c d = Ok d' -> exists t,
  t_id t = next_id d /\ t_user_id t = owner_user o /\ t_service_account_id t = owner_account o /\
  (match o with OwnUser u => 0 < u_id u | OwnAccount _ => True end) /\
  d' = bump_id (set_tokens (fun l => l ++ [t]) d).
Proof.
  intros Hc. unfold create_token in Hc. do 2 skip_bind Hc. peel_bind Hc as ex Hex. skip_bind Hc. peel_bind Hc as sc Hsc.
  skip_bind Hc. peel_bind Hc as x Hp%raise_if_ok. skip_bind Hc. injection Hc as <-.
  eexists. split_and!; cycle -1; [done|done..|]. destruct o as [u|]; [|done].
  apply bool_decide_eq_false in Hp. unfold persistable_user_id in Hp. destruct (Z.ltb_spec 0 (u_id u)); [done|]. by destruct Hp.
Qed.

(** The owner of a token a principal may create. *)
Definition may_own p d (o : token_owner) : Prop :=
  match o with
  | OwnUser u => u = p_user p /\ 0 < u_id u
  | OwnAccount a => a ∈ accounts d /\ assert_sa_in_scope a p = Ok tt
  end.

(** Whom an update is aimed at. *)
Definition aim (r : request) d (u : app_user) : Prop :=
  match r with RUpdateUser _ i _ => find_user i d = Ok u | _ => False end.

(** Every write of a request that succeeds, with the checks it passed; an update is of a
    user that satisfies [q]. *)
Inductive change (now : Z) p (q : app_user -> Prop) d : db -> Prop :=
| ChAddUser u :
    u_id u = next_id d -> u_is_active u = true -> free_for d (u_id u) u -> delegated p (u_organization_id u) (u_is_global u) ->
    change now p q d (bump_id (set_users (fun l => l ++ [u]) d))
| ChUpdateUser u k b :
    u ∈ users d -> q u -> update_allowed p k u d -> (u_is_active (apply_changes k u) = false -> b = true) ->
    change now p q d (tokens_cut now (u_id u) (negb (u_is_active (apply_changes k u)))
                     (sessions_cut now (u_id u) b (update_user_row (u_id u) k d)))
| ChDeleteUser u :
    u ∈ users d -> delegated p (u_organization_id u) (u_is_global u) ->
    (is_active_admin u = true -> (1 < active_admin_count d)%nat) ->
    change now p q d (delete_user_row (u_id u) d)
| ChForgetOrg i :
    has_global_scope (p_user p) = true ->
    change now p q d (Db (user_forget_org i <$> users d) (account_forget_org i <$> accounts d)
                      (delete_where (fun o => o_id o =? i) (organizations d)) (sessions d) (tokens d) (next_id d))
| ChAddAccount a :
    a_id a = next_id d -> delegated p (a_organization_id a) false ->
    change now p q d (bump_id (set_accounts (fun l => l ++ [a]) d))
| ChUpdateAccount a c :
    a ∈ accounts d -> assert_sa_in_scope a p = Ok tt ->
    (forall o, au_organization_id c = Some o -> delegated p o false) ->
    change now p q d (set_accounts (update_where (fun r => a_id r =? a_id a) (apply_account_update c)) d)
| ChDeleteAccount a :
    a ∈ accounts d -> assert_sa_in_scope a p = Ok tt ->
    change now p q d (set_tokens (delete_where (fun t => bool_decide (t_service_account_id t = Some (a_id a))))
                     (set_accounts (delete_where (fun r => a_id r =? a_id a)) d))
| ChAddToken o t :
    t_id t = next_id d -> t_user_id t = owner_user o -> t_service_account_id t = owner_account o -> may_own p d o ->
    change now p q d (bump_id (set_tokens (fun l => l ++ [t]) d))
| ChRevokeToken t : t ∈ tokens d -> change now p q d (revoke now t d)
| ChRevokeSessions f : change now p q d (set_sessions (update_where f (revoke_session_row now)) d).

Context `{SessionHash} `{SessionTtl} `{TokenLimiter}.

Lemma handle_change now cr p r d d' : db_wf d -> handle now cr p r d = Ok d' -> change now p (aim r d) d d'.
Proof.
  intros Hw Hh. destruct r as [e c|e i c|i|i|c|i c|i|e i c|i j|e o c|j| |]; cbn in Hh.
  - apply create_user_inv in Hh as (u & ? & ? & ? & ? & ->). by apply ChAddUser.
  - apply update_user_inv in Hh as (u & k & ? & ? & ? & ->); [|done]. apply ChUpdateUser; [done..|].
    intros ->. apply orb_true_r.
  - apply delete_user_inv in Hh as (u & ? & ? & ? & ? & ->). by apply ChDeleteUser.
  - unfold delete_organization in Hh. skip_bind Hh. peel_bind Hh as x Hg%raise_if_ok. skip_bind Hh. injection Hh as <-.
    apply ChForgetOrg. by apply negb_false_iff.
  - unfold create_service_account in Hh. skip_bind Hh. peel_bind Hh as c' Hs. peel_bind Hh as x Hd. destruct x.
    apply bad_request_ok in Hh. unfold sa_create in Hh. do 2 skip_bind Hh. injection Hh as <-. by apply ChAddAccount.
  - unfold update_service_account in Hh. do 2 skip_bind Hh. peel_bind Hh as a Ha. apply find_account_inv in Ha as [Ha Hs].
    peel_bind Hh as x Hd. destruct x. injection Hh as <-. apply ChUpdateAccount; [done..|]. intros o Ho. by rewrite Ho in Hd.
  - unfold delete_service_account in Hh. skip_bind Hh. peel_bind Hh as a Ha. apply find_account_inv in Ha as [Ha Hs].
    injection Hh as <-. by apply ChDeleteAccount.
  - unfold create_token_for_sa in Hh. skip_bind Hh. peel_bind Hh as c' Hc. peel_bind Hh as a Ha. apply find_account_inv in Ha as [Ha Hs].
    skip_bind Hh. apply bad_request_ok, create_token_inv in Hh as (t & ? & ? & ? & _ & ->). by apply (ChAddToken _ _ _ _ (OwnAccount a)).
  - unfold revoke_token_for_sa in Hh. skip_bind Hh. peel_bind Hh as a Ha. unfold get_token in Hh.
    destruct (first _ _) as [t|] eqn:E; [|done]. apply first_row in E. case_bool_decide; [|done]. injection Hh as <-. by apply ChRevokeToken.
  - unfold create_personal_token in Hh. peel_bind Hh as c' Hc. skip_bind Hh.
    apply bad_request_ok, create_token_inv in Hh as (t & ? & ? & ? & ? & ->). by apply (ChAddToken _ _ _ _ (OwnUser (p_user p))).
  - unfold revoke_personal_token, get_token in Hh. destruct (first _ _) as [t|] eqn:E; [|done]. apply first_row in E.
    case_match; [|done]. injection Hh as <-. by apply ChRevokeToken.
  - unfold logout in Hh. injection Hh as <-. destruct (current_session _ _ _) as [s|]; [apply ChRevokeSessions|].
    assert (d = set_sessions (update_where (fun _ => false) (revoke_session_row now)) d) as E.
    { destruct d. unfold set_sessions, update_where. cbn. by rewrite list_fmap_id. }
    rewrite E at 3. apply ChRevokeSessions.
  - injection Hh as <-. apply ChRevokeSessions.
Qed.

(** *** The tables stay well formed *)

Lemma ids_below_in {A} (f : A -> Z) n l x : ids_below f n l -> x ∈ l -> 0 < f x < n.
Proof. unfold ids_below. rewrite Forall_fmap, Forall_forall. intros Hl Hx. exact (Hl x Hx). Qed.

Lemma ids_below_bump {A} (f : A -> Z) n l : ids_below f n l -> ids_below f (n + 1) l.
Proof. intros Hl. eapply Forall_impl; [exact Hl|]. cbn. lia. Qed.

Lemma ids_snoc {A} (f : A -> Z) n l x :
  0 < n -> NoDup (f <$> l) -> ids_below f n l -> f x = n -> NoDup (f <$> l ++ [x]) /\ ids_below f (n + 1) (l ++ [x]).
Proof.
  intros Hn Hl Hb Hx. unfold ids_below. rewrite fmap_app. split.
  - apply NoDup_snoc; [done|]. intros Hin. cbn in Hin. rewrite Hx in Hin.
    unfold ids_below in Hb. rewrite Forall_forall in Hb. specialize (Hb _ Hin). lia.
  - apply Forall_app. split; [by apply ids_below_bump|]. cbn. apply Forall_singleton. lia.
Qed.

Lemma ids_below_filter {A} (f : A -> Z) n (P : A -> Prop) `{!forall x, Decision (P x)} l : ids_below f n l -> ids_below f n (filter P l).
Proof. unfold ids_below. rewrite !Forall_fmap. apply Forall_filter_sub. Qed.

Lemma unique_on_sub {A B} (f : A -> option B) l l' : (forall x, x ∈ l' -> x ∈ l) -> unique_on f l -> unique_on f l'.
Proof. intros Hs Hu x y Hx Hy. by apply Hu; apply Hs. Qed.

Lemma unique_on_snoc {B} (f : app_user -> option B) d u :
  db_wf d -> u_id u = next_id d -> (forall v, v ∈ users d -> u_id v <> u_id u -> f u <> None -> f v <> f u) ->
  unique_on f (users d) -> unique_on f (users d ++ [u]).
Proof.
  intros Hw Hi Hf Hu.
  assert (forall v, v ∈ users d -> u_id v <> u_id u) as Hne.
  { intros v Hv. pose proof (ids_below_in _ _ _ _ (wf_users_below d Hw) Hv). lia. }
  intros x y. rewrite !elem_of_app, !list_elem_of_singleton. intros [Hx| ->] [Hy| ->] Hn He; [by apply Hu| | |done].
  - destruct (Hf x Hx (Hne x Hx)); congruence.
  - destruct (Hf y Hy (Hne y Hy)); congruence.
Qed.

Lemma elem_user_update d u k x :
  db_wf d -> u ∈ users d -> x ∈ update_where (fun v => u_id v =? u_id u) (apply_changes k) (users d) ->
  (x ∈ users d /\ u_id x <> u_id u) \/ x = apply_changes k u.
Proof.
  intros Hw Hu [[Hx Hi]|(y & Hy & Hi & ->)]%elem_update_where; bool_simpl; [by left|right].
  f_equal. by eapply unique_ids.
Qed.

Lemma unique_on_update {B} (f : app_user -> option B) d u k :
  db_wf d -> u ∈ users d -> keeps_unique f d u (apply_changes k u) -> unique_on f (users d) ->
  unique_on f (update_where (fun v => u_id v =? u_id u) (apply_changes k) (users d)).
Proof.
  intros Hw Hu Hk Hf.
  assert (forall v, v ∈ users d -> u_id v <> u_id u -> f v <> None -> f v <> f (apply_changes k u)) as Hne.
  { intros v Hv Hi Hn He. destruct Hk as [Hk|[Hk|Hk]]; [|congruence|by apply (Hk v Hv)].
    rewrite Hk in He. apply Hi. f_equal. by apply Hf. }
  intros x y [[Hx Hxi]| ->]%elem_user_update [[Hy Hyi]| ->]%elem_user_update Hn He; try done; [by apply Hf| |].
  - by destruct (Hne x Hx Hxi).
  - destruct (Hne y Hy Hyi); congruence.
Qed.

Lemma cut_tables now i b1 b2 d :
  let d' := tokens_cut now i b1 (sessions_cut now i b2 d) in
  users d' = users d /\ accounts d' = accounts d /\ next_id d' = next_id d /\
  s_id <$> sessions d' = s_id <$> sessions d /\ t_id <$> tokens d' = t_id <$> tokens d.
Proof.
  unfold tokens_cut, sessions_cut. destruct b1, b2; cbn; split_and!; try done; apply update_where_proj;
    intros x; unfold revoke_token_row; try case_match; done.
Qed.

Lemma bump_users_wf u d : db_wf d -> u_id u = next_id d -> free_for d (u_id u) u -> db_wf (bump_id (set_users (fun l => l ++ [u]) d)).
Proof.
  intros Hw Hi Hf. pose proof Hw as [Hn W1 W2 W3 W4 B1 B2 B3 B4 U1 U2 U3].
  destruct (ids_snoc u_id (next_id d) (users d) u) as [??]; [done..|].
  split; cbn; try done; try lia; try by apply ids_below_bump.
  all: apply unique_on_snoc; try done; intros v Hv Hne; destruct (Hf v Hv Hne) as (N1 & N2 & N3); auto; congruence.
Qed.

Lemma change_wf now p q d d' : db_wf d -> change now p q d d' -> db_wf d'.
Proof.
  intros Hw Hc. pose proof Hw as [Hn W1 W2 W3 W4 B1 B2 B3 B4 U1 U2 U3].
  destruct Hc as [u Hi Ha Hf Hd|u k b Hu _ Hk _|u Hu _ _|i _|a Hi _|a c Ha _ _|a Ha _|o t Hi _ _ _|t Ht|f].
  - by apply bump_users_wf.
  - destruct (cut_tables now (u_id u) (negb (u_is_active (apply_changes k u))) b (update_user_row (u_id u) k d))
      as (E1 & E2 & E3 & E4 & E5).
    assert (u_id <$> users (update_user_row (u_id u) k d) = u_id <$> users d) as E6 by by apply update_where_proj.
    split; unfold ids_below; rewrite ?E1, ?E2, ?E3, ?E4, ?E5, ?E6; try done; cbn; apply unique_on_update; try done; try apply Hk.
    by left.
  - split; cbn; unfold delete_where; try done; try by apply NoDup_fmap_filter.
    all: try by apply ids_below_filter.
    all: eapply unique_on_sub; [|done]; intros x [_ Hx]%list_elem_of_filter; done.
  - split; cbn; unfold ids_below; try rewrite <- list_fmap_compose; try done;
      intros x y (x' & -> & Hx)%list_elem_of_fmap (y' & -> & Hy)%list_elem_of_fmap Hne He; f_equal; eauto.
  - destruct (ids_snoc a_id (next_id d) (accounts d) a) as [??]; [done..|]. split; cbn; try done; try lia; by apply ids_below_bump.
  - split; cbn; unfold ids_below; rewrite ?update_where_proj; try done.
  - split; cbn; unfold delete_where; try done; (by apply NoDup_fmap_filter) || by apply ids_below_filter.
  - destruct (ids_snoc t_id (next_id d) (tokens d) t) as [??]; [done..|]. split; cbn; try done; try lia; by apply ids_below_bump.
  - split; cbn; unfold ids_below; rewrite ?update_where_proj; try done; intros x; unfold revoke_token_row; by case_match.
  - split; cbn; unfold ids_below; rewrite ?update_where_proj; done.
Qed.

(** *** Resolving the principal *)

(** What may happen to the sessions: they age, and a revoked one stays revoked. *)
Definition ages (s s' : user_session) : Prop :=
  s_id s' = s_id s /\ s_user_id s' = s_user_id s /\ s_token_hash s' = s_token_hash s /\
  (s_revoked_at s <> None -> s_revoked_at s' <> None).

Lemma ages_update (q : user_session -> bool) (f : user_session -> user_session) l :
  (forall x, ages x (f x)) -> Forall2 ages l (update_where q f l).
Proof.
  intros Hf. unfold update_where. apply Forall2_fmap_r, Forall_Forall2_diag, Forall_true. intros x. cbn. by destruct (q x).
Qed.
Lemma ages_revoke now s : ages s (revoke_session_row now s).
Proof. done. Qed.
Lemma ages_touched now ttl s : ages s (touched now ttl s).
Proof. unfold touched. by case_match. Qed.
Lemma ages_refl l : Forall2 ages l l.
Proof. by apply Forall_Forall2_diag, Forall_true. Qed.
Lemma ages_ids l l' : Forall2 ages l l' -> s_id <$> l' = s_id <$> l.
Proof. induction 1 as [|x y l l' (Hi & _) _ IH]; [done|]. cbn. by rewrite Hi, IH. Qed.

(** A principal is a user of the table, or a service account of it. *)
Definition known d (u : app_user) : Prop := u ∈ users d \/ exists a, a ∈ accounts d /\ u = build_sa_appuser_shim a.

Lemma user_from_api_token_inv d t u : user_from_api_token d t = Ok u -> known d u /\ u_is_active u = true.
Proof.
  unfold user_from_api_token, get_account, get_user, known. destruct (t_service_account_id t) as [i|].
  - destruct (first _ _) as [a|] eqn:E; [|done]. apply first_row in E. destruct (a_is_active a) eqn:Ea; [|done]. intros [= <-]. eauto.
  - destruct (t_user_id t) as [i|]; cbn; [|done]. destruct (first _ _) as [v|] eqn:E; [|done]. apply first_row in E.
    destruct (u_is_active v) eqn:Ea; [|done]. intros [= <-]. eauto.
Qed.

(** The row behind a principal: the live token or session it came by. *)
Definition live_credential now d (p : principal) : Prop :=
  match p_token p, p_session p with
  | Some t, None =>
      t ∈ tokens d /\ t_revoked_at t = None /\ match t_expires_at t with Some e => now < e | None => True end /\
      user_from_api_token d t = Ok (p_user p)
  | None, Some s =>
      exists s0, s0 ∈ sessions d /\ s_id s0 = s_id s /\ s_revoked_at s0 = None /\ now < s_expires_at s0 /\
      s_user_id s0 = u_id (p_user p) /\ p_user p ∈ users d /\ u_is_active (p_user p) = true
  | _, _ => False
  end.

Lemma resolve_bearer_inv now raw d t :
  resolve_bearer now raw d = Some t ->
  t ∈ tokens d /\ t_revoked_at t = None /\ match t_expires_at t with Some e => now < e | None => True end.
Proof.
  unfold resolve_bearer, get_by_prefix. destruct (negb (str_prefix _ _)); [done|].
  destruct (first _ _) as [c|] eqn:E; [|done]. apply first_row in E.
  case_bool_decide as Hr; [done|]. destruct (match t_expires_at c with Some e => e <=? now | None => false end) eqn:Ex; [done|].
  destruct (match t_service_account_id c with Some _ => _ | None => _ end); [done|].
  destruct (negb (verify_token_hash _ _)); [done|]. intros [= <-]. split_and!; [done| |].
  - destruct (t_revoked_at c); [by destruct Hr|done].
  - destruct (t_expires_at c); [bool_simpl; lia|done].
Qed.

Lemma resolve_bearer_user_inv now c d p : resolve_bearer_user now c d = Ok (Some p) -> live_credential now d p.
Proof.
  unfold resolve_bearer_user. destruct (h_authorization c) as [h|]; [|done]. destruct (negb (str_prefix BEARER_SCHEME_PREFIX h)); [done|].
  set (raw := str_strip _). set (pat := if negb _ then _ else _).
  assert (pat = Ok (Some p) -> live_credential now d p) as Hpat.
  { subst pat. destruct (negb _); [done|]. destruct (resolve_bearer now raw d) as [t|] eqn:E; [|done].
    intros Hp. peel_bind Hp as u Hu. skip_bind Hp. injection Hp as <-. apply resolve_bearer_inv in E as (? & ? & ?).
    unfold live_credential. cbn. done. }
  destruct (h_inprocess c) as [[i nonce]|]; [|done]. destruct (str_prefix INPROCESS_NONCE_PREFIX raw); [|done].
  destruct (String.eqb raw nonce); [|done]. unfold resolve_inprocess_user, get_token.
  destruct (first _ _) as [t|] eqn:E; [|done]. apply first_row in E.
  destruct (bool_decide _ || _) eqn:Eb; [done|]. bool_simpl. intros Hp.
  destruct (user_from_api_token d t) as [u|] eqn:Hu; [|done]. cbn in Hp. injection Hp as <-.
  unfold live_credential. cbn. split_and!; [done| | |done].
  - match goal with Hb : bool_decide _ = false |- _ => apply bool_decide_eq_false in Hb; destruct (t_revoked_at t); [by destruct Hb|done] end.
  - destruct (t_expires_at t); [bool_simpl; lia|done].
Qed.

(** Resolving a principal writes only to the sessions, and a principal has a live credential. *)
Lemma get_current_user_inv now c d d' r :
  get_current_user now c d = (d', r) ->
  (exists l, d' = set_sessions (fun _ => l) d /\ Forall2 ages (sessions d) l) /\
  (forall p, r = Ok p -> live_credential now d p).
Proof.
  assert (exists l, d = set_sessions (fun _ => l) d /\ Forall2 ages (sessions d) l) as Hsame.
  { exists (sessions d). split; [by destruct d | apply ages_refl]. }
  unfold get_current_user. destruct (resolve_bearer_user now c d) as [[p|]|x] eqn:E.
  - intros [= <- <-]. split; [done|]. intros q [= <-]. by eapply resolve_bearer_user_inv.
  - unfold cookie_user, get_active_by_token_hash, get_user. destruct (h_cookie c) as [[|a k]|]; [by intros [= <- <-]| |by intros [= <- <-]].
    destruct (first _ (sessions d)) as [s|] eqn:Es; [|by intros [= <- <-]]. apply first_some in Es as [Hs Hq].
    destruct (first _ (users d)) as [u|] eqn:Eu; [destruct (u_is_active u) eqn:Ea|]; intros [= <- <-].
    + split.
      * eexists. split; [done|]. apply ages_update, ages_touched.
      * intros p [= <-]. apply first_some in Eu as [Hu Hi]. bool_simpl. unfold live_credential. cbn.
        exists s. split_and!; try done; [by unfold touched; case_match|match goal with Hb : bool_decide _ = true |- _ => by apply bool_decide_eq_true in Hb end].
    + split; [|done]. eexists. split; [done|]. apply ages_update, ages_revoke.
    + split; [|done]. eexists. split; [done|]. apply ages_update, ages_revoke.
  - by intros [= <- <-].
Qed.

Lemma live_known now d p : live_credential now d p -> known d (p_user p) /\ u_is_active (p_user p) = true.
Proof.
  unfold live_credential. destruct (p_token p) as [t|], (p_session p) as [s|]; try done.
  - intros (_ & _ & _ & Hu). by apply user_from_api_token_inv in Hu.
  - intros (s0 & _ & _ & _ & _ & _ & Hu & Ha). split; [by left|done].
Qed.

Lemma set_sessions_wf d l : db_wf d -> s_id <$> l = s_id <$> sessions d -> db_wf (set_sessions (fun _ => l) d).
Proof. intros [] Hl. split; cbn; try done; unfold ids_below; by rewrite Hl. Qed.

Lemma serve_inv now c r d d' x :
  db_wf d -> serve now c r d = (d', x) -> exists l,
  Forall2 ages (sessions d) l /\
  (d' = set_sessions (fun _ => l) d \/
   exists p, (get_current_user now c d).2 = Ok p /\ live_credential now d p /\
     change now p (aim r d) (set_sessions (fun _ => l) d) d').
Proof.
  intros Hw Hs. unfold serve in Hs. destruct (get_current_user now c d) as [d1 r1] eqn:E.
  destruct (get_current_user_inv _ _ _ _ _ E) as [(l & -> & Hl) Hp]. exists l. split; [done|].
  destruct r1 as [p|e]; [|injection Hs as <- _; by left].
  destruct (handle now c p r _) as [d2|e] eqn:Eh; injection Hs as <- _; [right|by left].
  exists p. split_and!; [done|by apply Hp|]. change (aim r d) with (aim r (set_sessions (fun _ => l) d)). eapply handle_change; [|done]. apply set_sessions_wf; [done|]. by apply ages_ids.
Qed.

(** A login removes dead sessions and adds one of an active user. *)
Definition with_session s d : db := bump_id (set_sessions (fun l => l ++ [s]) d).
Definition logged_in now s d : db := with_session s (delete_expired now d).

Lemma create_user_session_inv e now u d d' : create_user_session e now u d = Ok d' -> exists s,
  s_id s = next_id d /\ s_user_id s = u_id u /\ d' = with_session s d.
Proof. intros Hc. unfold create_user_session in Hc. skip_bind Hc. injection Hc as <-. eexists. split_and!; cycle -1; done. Qed.

Lemma login_user_inv e now n w d d' :
  login_user e now n w d = Ok d' -> exists u s,
  u ∈ users d /\ u_is_active u = true /\ s_id s = next_id d /\ s_user_id s = u_id u /\ d' = logged_in now s d.
Proof.
  intros Hl. unfold login_user, authenticate, get_by_username in Hl. peel_bind Hl as u Hu. skip_bind Hu.
  destruct (first _ _) as [v|] eqn:E; [|done]. apply first_row in E. peel_bind Hu as valid Hv. skip_bind Hu. peel_bind Hu as x Ha%raise_if_ok. injection Hu as <-.
  apply create_user_session_inv in Hl as (s & Hs & Hu & ->). apply negb_false_iff in Ha. by exists v, s.
Qed.

Lemma with_session_wf s d : db_wf d -> s_id s = next_id d -> db_wf (with_session s d).
Proof.
  intros Hw Hs. pose proof Hw as [Hn W1 W2 W3 W4 B1 B2 B3 B4 U1 U2 U3].
  destruct (ids_snoc s_id (next_id d) (sessions d) s) as [N B]; [done..|]. split; cbn; try done; try lia; by apply ids_below_bump.
Qed.
Lemma delete_expired_wf now d : db_wf d -> db_wf (delete_expired now d).
Proof. intros []. split; cbn; unfold delete_where; try done; (by apply NoDup_fmap_filter) || by apply ids_below_filter. Qed.
Lemma logged_in_wf now s d : db_wf d -> s_id s = next_id d -> db_wf (logged_in now s d).
Proof. intros Hw Hs. apply with_session_wf; [by apply delete_expired_wf|done]. Qed.

(** *** The accounts that nobody's request made *)

(** The first administrator, and what a federated login adds or reconciles. *)
Inductive enrolled (k : call) d : db -> Prop :=
| EnBootstrap now e b u : k = CBootstrap now e b -> users d = [] ->
    u_id u = next_id d -> is_active_admin u = true -> free_for d (u_id u) u -> enrolled k d (bump_id (set_users (fun l => l ++ [u]) d))
| EnProvision now e i u : k = CSso now e true i -> get_by_external_subject "entra" (oi_subject i) d = None ->
    u_id u = next_id d -> free_for d (u_id u) u ->
    u = federated_user e (next_id d) (derive_username i d) i ->
    enrolled k d (bump_id (set_users (fun l => l ++ [u]) d))
| EnReconcile now e jit i u : k = CSso now e jit i -> get_by_external_subject "entra" (oi_subject i) d = Some u -> u ∈ users d ->
    keeps_unique u_email d u (apply_changes (reconciled i) u) -> enrolled k d (update_user_row (u_id u) (reconciled i) d).

Lemma bootstrap_admin_inv now e b d : let d' := (bootstrap_admin e now b d).1 in
  d' = d \/ exists d1, enrolled (CBootstrap now e b) d d1 /\ (d' = d1 \/ exists s, s_id s = next_id d1 /\ d' = with_session s d1).
Proof.
  unfold bootstrap_admin. cbv zeta. destruct (bootstrap_schema b) as [c|] eqn:Hs; [|by left]. cbn [mbind result_bind].
  match goal with |- context [match ?m with Ok _ => _ | Raise _ => _ end] => destruct m as [[u d1]|] eqn:Hm end; [|by left].
  right. exists d1. peel_bind Hm as x Hu%raise_if_ok. do 2 skip_bind Hm. peel_bind Hm as d2 Hadd. injection Hm as <- <-.
  apply add_user_inv in Hadd as [Hf ->]. split.
  - by eapply EnBootstrap; [done|destruct (users d)|..].
  - unfold signed_in. destruct (create_user_session _ _ _ _) as [d3|] eqn:E; [right|by left].
    apply create_user_session_inv in E as (s & ? & _ & ->). by exists s.
Qed.

Lemma sso_callback_inv now e jit i d : db_wf d -> let d' := (sso_callback e now jit i d).1 in
  d' = d \/ exists d1, enrolled (CSso now e jit i) d d1 /\ (d' = d1 \/ exists s, s_id s = next_id d1 /\ d' = with_session s d1).
Proof.
  intros Hw. unfold sso_callback. cbv zeta.
  match goal with |- context [match (match get_by_external_subject ?p ?s ?dd with _ => _ end) with Ok _ => _ | Raise _ => _ end] =>
    destruct (get_by_external_subject p s dd) as [u|] eqn:Hg end;
  (match goal with |- context [match ?m with Ok _ => _ | Raise _ => _ end] => destruct m as [[u1 d1]|] eqn:Hm end; [|by left]);
  right; exists d1; (split; [|unfold signed_in; destruct (create_user_session _ _ _ _) as [d3|] eqn:E; [right|by left];
    apply create_user_session_inv in E as (s & ? & _ & ->); by exists s]).
  - skip_bind Hm. peel_bind Hm as d2 Hu. injection Hm as _ <-. unfold update_checked in Hu. peel_bind Hu as x Hmail%raise_if_ok.
    injection Hu as <-. pose proof Hg as Hin%first_row. apply (EnReconcile _ _ now e jit i u); [done..|]. unfold keeps_unique. cbn in Hmail |- *.
    destruct (oi_email i) as [m|]; [|by right; left]. destruct (decide (u_email u = Some m)) as [->|Hne]; [by left|]. right. right.
    intros v Hv He. apply not_true_iff_false in Hmail. rewrite existsb_exists in Hmail. apply Hmail. exists v. split; [by apply list_elem_of_In|].
    rewrite bool_decide_eq_true_2, andb_true_r by done. apply negb_true_iff, Z.eqb_neq. intros Hi.
    assert (v = u) as -> by (by eapply unique_ids). done.
  - skip_bind Hm. peel_bind Hm as x Hjit%raise_if_ok. peel_bind Hm as d2 Hadd. injection Hm as <- <-. apply add_user_inv in Hadd as [Hf ->].
    apply negb_false_iff in Hjit as ->. by eapply (EnProvision _ _ now e i).
Qed.

Lemma update_row_wf u c d : db_wf d -> u ∈ users d -> keeps_unique (fun u => Some (u_username u)) d u (apply_changes c u) ->
  keeps_unique u_email d u (apply_changes c u) -> db_wf (update_user_row (u_id u) c d).
Proof.
  intros Hw Hu Hn Hm. pose proof Hw as []. assert (u_id <$> users (update_user_row (u_id u) c d) = u_id <$> users d) as E by by apply update_where_proj.
  split; unfold ids_below; rewrite ?E; try done; cbn; apply unique_on_update; try done. by left.
Qed.
Lemma enrolled_wf k d d' : db_wf d -> enrolled k d d' -> db_wf d'.
Proof.
  intros Hw He. destruct He as [now e b u _ _ Hi _ Hf|now e i u _ _ Hi Hf _|now e jit i u _ _ Hu Hm];
    [by apply bump_users_wf|by apply bump_users_wf|apply update_row_wf; [done..|by left|done]].
Qed.

(** What a call does: a change under a live principal, a login, an enrolment, or nothing but to the sessions. *)
Lemma serve_call_inv d k :
  db_wf d ->
  (exists l, Forall2 ages (sessions d) l /\
     (serve_call d k = set_sessions (fun _ => l) d \/
      exists now c r p, k = CRequest now c r /\ (get_current_user now c d).2 = Ok p /\ live_credential now d p /\
        change now p (aim r d) (set_sessions (fun _ => l) d) (serve_call d k))) \/
  (exists now u s, u ∈ users d /\ s_id s = next_id d /\ serve_call d k = logged_in now s d) \/
  (exists d1, enrolled k d d1 /\ (serve_call d k = d1 \/ exists s, s_id s = next_id d1 /\ serve_call d k = with_session s d1)).
Proof.
  intros Hw. assert (forall d', d' = d -> exists l, Forall2 ages (sessions d) l /\ d' = set_sessions (fun _ => l) d) as Hsame.
  { intros d' ->. exists (sessions d). split; [apply ages_refl|by destruct d]. }
  destruct k as [now c r|now e n w|now e b|now e jit i]; cbn [serve_call].
  - left. destruct (serve now c r d) as [d' x] eqn:E. apply serve_inv in E as (l & Hl & Hc); [|done]. exists l. split; [done|].
    destruct Hc as [->|(p & ? & ? & ?)]; [by left|right]. eauto 12.
  - destruct (login_user e now n w d) as [d'|x] eqn:E.
    + right. left. apply login_user_inv in E as (u & s & ? & _ & ? & _ & ->). eauto 10.
    + left. destruct (Hsame d eq_refl) as (l & ? & ?). eauto.
  - destruct (bootstrap_admin_inv now e b d) as [E|E]; [left|by right; right]. destruct (Hsame _ E) as (l & ? & ?). eauto.
  - destruct (sso_callback_inv now e jit i d Hw) as [E|E]; [left|by right; right]. destruct (Hsame _ E) as (l & ? & ?). eauto.
Qed.

Lemma serve_call_wf d k : db_wf d -> db_wf (serve_call d k).
Proof.
  intros Hw. destruct (serve_call_inv d k Hw) as [(l & Hl & [->|(now & c & r & p & _ & _ & _ & Hc)])|[(now & u & s & _ & Hs & ->)|(d1 & He & Hd)]].
  - apply set_sessions_wf; [done|by apply ages_ids].
  - eapply change_wf; [|done]. apply set_sessions_wf; [done|by apply ages_ids].
  - by apply logged_in_wf.
  - pose proof (enrolled_wf _ _ _ Hw He). destruct Hd as [->|(s & Hs & ->)]; [done|by apply with_session_wf].
Qed.

Lemma serve_all_wf ks d : db_wf d -> db_wf (serve_all ks d).
Proof. revert d. induction ks as [|k ks IH]; intros d Hw; [done|]. cbn. by apply IH, serve_call_wf. Qed.

(** ** An administrator remains *)

Lemma filter_update_count {A} (P : A -> bool) (i : A -> Z) (f : A -> A) (l : list A) u :
  NoDup (i <$> l) -> u ∈ l -> (P u = true -> P (f u) = true) ->
  (length (filter (fun x => P x = true) l) <= length (filter (fun x => P x = true) (update_where (fun x => Z.eqb (i x) (i u)) f l)))%nat.
Proof.
  intros Hn Hu HP. assert (Forall (fun x => i x = i u -> x = u) l) as Hi.
  { apply Forall_forall. intros x Hx He. by eapply NoDup_fmap_inj_on. }
  clear Hn Hu. unfold update_where. induction Hi as [|x l Hx _ IH]; [done|].
  cbn [fmap list_fmap]. rewrite !filter_cons. destruct (Z.eqb_spec (i x) (i u)) as [E|E].
  - rewrite (Hx E). destruct (decide (P u = true)) as [Hp|Hp].
    + rewrite decide_True by auto. cbn. lia.
    + case_decide; cbn; lia.
  - case_decide; cbn; lia.
Qed.

Lemma filter_delete_count {A} (P : A -> bool) (i : A -> Z) (l : list A) u :
  NoDup (i <$> l) -> u ∈ l -> P u = false ->
  (length (filter (fun x => P x = true) l) <= length (filter (fun x => P x = true) (delete_where (fun x => Z.eqb (i x) (i u)) l)))%nat.
Proof.
  intros Hn Hu HP. assert (Forall (fun x => i x = i u -> x = u) l) as Hi.
  { apply Forall_forall. intros x Hx He. by eapply NoDup_fmap_inj_on. }
  clear Hn Hu. unfold delete_where. induction Hi as [|x l Hx _ IH]; [done|].
  rewrite !filter_cons. destruct (Z.eqb_spec (i x) (i u)) as [E|E].
  - rewrite (Hx E), HP. rewrite !decide_False by done. done.
  - rewrite (decide_True (P := false = false)) by done. rewrite filter_cons. case_decide; cbn; lia.
Qed.

(** Whatever happens to the row [u], at most that row is lost. *)
Lemma filter_lose_one {A} (P : A -> bool) (i : A -> Z) (l l' : list A) u :
  NoDup (i <$> l) -> (forall x, x ∈ l -> i x <> i u -> x ∈ l') ->
  (length (filter (fun x => P x = true) l) <= S (length (filter (fun x => P x = true) l')))%nat.
Proof.
  intros Hn Hl.
  assert (filter (fun x => P x = true) l ⊆+ (filter (fun x => i x = i u) l) ++ filter (fun x => P x = true) l') as Hs.
  { apply NoDup_submseteq; [apply NoDup_filter; by eapply NoDup_fmap_1|]. intros x [Hp Hx]%list_elem_of_filter.
    rewrite elem_of_app, !list_elem_of_filter. destruct (decide (i x = i u)); [by left|right; auto]. }
  apply submseteq_length in Hs. rewrite length_app in Hs.
  assert (length (filter (fun x => i x = i u) l) <= 1)%nat; [|lia].
  assert (NoDup (i <$> filter (fun x => i x = i u) l)) as Hf by by apply NoDup_fmap_filter.
  destruct (filter (fun x => i x = i u) l) as [|x [|y k]] eqn:E; cbn; [lia..|]. exfalso.
  assert (forall z, z ∈ x :: y :: k -> i z = i u) as Hz by (intros z; rewrite <- E; by intros [? _]%list_elem_of_filter).
  apply NoDup_cons in Hf as [Hf _]. apply Hf. rewrite (Hz x), <- (Hz y) by (by rewrite !elem_of_cons; auto).
  cbn. left.
Qed.

(** An update of one row that stays an active administrator, or is not the last. *)
Lemma update_row_keeps_admin u c d : db_wf d -> u ∈ users d ->
  (is_active_admin u = true -> is_active_admin (apply_changes c u) = true \/ (1 < active_admin_count d)%nat) ->
  (1 <= active_admin_count d)%nat -> (1 <= active_admin_count (update_user_row (u_id u) c d))%nat.
Proof.
  unfold active_admin_count. intros Hw Hu Hk Hge. cbn. destruct (is_active_admin u) eqn:Ea; [destruct (Hk eq_refl) as [Hk'|Hk']|].
  - etrans; [exact Hge|]. by apply filter_update_count; [apply Hw|..].
  - apply le_S_n. etrans; [exact Hk'|]. apply (filter_lose_one _ u_id _ _ u); [apply Hw|].
    intros x Hx Hne. apply list_elem_of_fmap. exists x. apply Z.eqb_neq in Hne as ->. done.
  - etrans; [exact Hge|]. apply filter_update_count; [apply Hw|done|congruence].
Qed.

Lemma change_keeps_admin now p q d d' :
  db_wf d -> change now p q d d' -> (1 <= active_admin_count d)%nat -> (1 <= active_admin_count d')%nat.
Proof.
  intros Hw Hc. unfold active_admin_count. destruct Hc as [u Hi Ha Hf Hd|u k b Hu _ Hk _|u Hu _ Hl|i _|a Hi _|a c Ha _ _|a Ha _|o t Hi _ _ _|t Ht|f]; try done.
  - cbn. rewrite filter_app, length_app. lia.
  - destruct (cut_tables now (u_id u) (negb (u_is_active (apply_changes k u))) b (update_user_row (u_id u) k d)) as [-> _].
    intros Hge. apply (update_row_keeps_admin u k d); [done..| |done]. intros Ea. apply (ua_admin _ _ _ _ Hk).
    unfold is_active_admin in Ea. by bool_simpl.
  - intros Hge. unfold delete_user_row. cbn [users set_tokens set_sessions set_users]. destruct (is_active_admin u) eqn:Ea.
    + apply le_S_n. etrans; [exact (Hl eq_refl)|]. apply (filter_lose_one _ u_id _ _ u); [apply Hw|].
      intros x Hx Hne. apply elem_delete_where. split; [by apply Z.eqb_neq|done].
    + etrans; [exact Hge|]. by apply filter_delete_count; [apply Hw|..].
  - intros Hge. etrans; [exact Hge|]. clear. cbn [users]. induction (users d) as [|u l IH]; [done|].
    cbn [fmap list_fmap]. rewrite !filter_cons.
    change (is_active_admin (user_forget_org i u)) with (is_active_admin u). case_decide; cbn [length]; lia.
Qed.

(** ** Reach *)

(** The user reaches organizations of [S] only. *)
Definition confined (S : gset Z) (u : app_user) : Prop :=
  has_global_scope u = false /\ exists acc, accessible_org_ids u = Some acc /\ acc ⊆ S.

(** Whoever belongs to an organization of [S], and is not global, reaches [S] only. *)
Definition closed_under_scope (S : gset Z) : Prop := forall u o,
  has_global_scope u = false -> u_organization_id u = Some o -> o ∈ S -> exists acc, accessible_org_ids u = Some acc /\ acc ⊆ S.

(** The call stays with the accounts confined to [S]: a request comes from nobody or from
    a principal confined to [S], and the user it updates is one; the bootstrap finds
    users; and the identity provider vouches for accounts confined to [S], before the
    login, if there was one, and after. *)
Definition call_within (S : gset Z) (k : call) d : Prop :=
  match k with
  | CRequest now c r => forall p, (get_current_user now c d).2 = Ok p -> confined S (p_user p) /\ forall u, aim r d u -> confined S u
  | CLogin _ _ _ _ => True
  | CBootstrap _ _ _ => users d <> []
  | CSso _ e _ i =>
      match get_by_external_subject "entra" (oi_subject i) d with
      | Some u => confined S u /\ confined S (apply_changes (reconciled i) u)
      | None => confined S (federated_user e (next_id d) (derive_username i d) i)
      end
  end.
Fixpoint by_confined (S : gset Z) (ks : list call) d : Prop :=
  match ks with [] => True | k :: ks => call_within S k d /\ by_confined S ks (serve_call d k) end.

(** The token acts for accounts confined to [S]. *)
Definition owned_within (S : gset Z) d (t : api_token) : Prop :=
  (forall u, u ∈ users d -> t_user_id t = Some (u_id u) -> confined S u) /\
  (forall a, a ∈ accounts d -> t_service_account_id t = Some (a_id a) -> confined S (build_sa_appuser_shim a)).

(** From [d] to [d'], accounts appeared, changed and vanished only within [S], and tokens
    appeared only for them. *)
Record within (S : gset Z) d d' : Prop := {
  w_users u : u ∈ users d' -> u ∈ users d \/ confined S u;
  w_accounts a : a ∈ accounts d' -> a ∈ accounts d \/ confined S (build_sa_appuser_shim a);
  w_users_kept u : u ∈ users d -> u ∈ users d' \/ confined S u;
  w_accounts_kept a : a ∈ accounts d -> a ∈ accounts d' \/ confined S (build_sa_appuser_shim a);
  w_tokens t : t ∈ tokens d' ->
    (exists t0, t0 ∈ tokens d /\ (t = t0 \/ exists now, t = revoke_token_row now t0)) \/ owned_within S d' t;
}.

Lemma delegated_within S p o g : confined S (p_user p) -> delegated p o g -> g = false /\ exists i, o = Some i /\ i ∈ S.
Proof.
  intros [Hg (acc & Ha & HS)]. unfold delegated, enforce_admin_delegation_scope, require_subtree_access, can_access_subtree.
  rewrite Hg, Ha. destruct g, o as [i|]; try done. case_bool_decide; [|done]. intros _. split; [done|]. exists i. set_solver.
Qed.

Lemma sa_within S p a : confined S (p_user p) -> assert_sa_in_scope a p = Ok tt -> exists i, a_organization_id a = Some i /\ i ∈ S.
Proof.
  intros [Hg (acc & Ha & HS)]. unfold assert_sa_in_scope, require_subtree_access, can_access_subtree, require_global_scope.
  rewrite Hg, Ha. destruct (a_organization_id a) as [i|]; [|done]. case_bool_decide; [|done]. intros _. exists i. set_solver.
Qed.

Lemma granted_confined S u i : closed_under_scope S -> u_is_global u = false -> u_organization_id u = Some i -> i ∈ S -> confined S u.
Proof.
  intros Hs Hg Ho Hi. assert (has_global_scope u = false) as Hf.
  { unfold has_global_scope. rewrite Hg, Ho. by case_match. }
  split; [done|]. by eapply Hs.
Qed.

Lemma within_refl S d : within S d d.
Proof. split; auto. intros t Ht. left. eauto. Qed.

Lemma owned_mono S d d' t : within S d d' -> owned_within S d t -> owned_within S d' t.
Proof.
  intros Hw [Hu Ha]. split.
  - intros u Hin He. destruct (w_users _ _ _ Hw u Hin); eauto.
  - intros a Hin He. destruct (w_accounts _ _ _ Hw a Hin); eauto.
Qed.

Lemma revoke_revoke now now' t : revoke_token_row now (revoke_token_row now' t) = revoke_token_row now' t.
Proof. unfold revoke_token_row at 2 3. destruct (t_revoked_at t) eqn:E; [by unfold revoke_token_row; rewrite E|done]. Qed.

Lemma owned_revoke S d t now : owned_within S d t -> owned_within S d (revoke_token_row now t).
Proof. unfold revoke_token_row. by case_match. Qed.

Lemma within_trans S d1 d2 d3 : within S d1 d2 -> within S d2 d3 -> within S d1 d3.
Proof.
  intros H12 H23. split.
  - intros u Hu. destruct (w_users _ _ _ H23 u Hu) as [Hu2|]; [|by right]. by apply H12.
  - intros a Ha. destruct (w_accounts _ _ _ H23 a Ha) as [Ha2|]; [|by right]. by apply H12.
  - intros u Hu. destruct (w_users_kept _ _ _ H12 u Hu) as [Hu2|]; [|by right]. by apply H23.
  - intros a Ha. destruct (w_accounts_kept _ _ _ H12 a Ha) as [Ha2|]; [|by right]. by apply H23.
  - intros t Ht. destruct (w_tokens _ _ _ H23 t Ht) as [(t0 & Ht0 & Hr)|]; [|by right].
    destruct (w_tokens _ _ _ H12 t0 Ht0) as [(t1 & Ht1 & Hr1)|Ho].
    + left. exists t1. split; [done|]. destruct Hr as [->|[now ->]], Hr1 as [->|[now' ->]]; eauto.
      right. exists now'. apply revoke_revoke.
    + right. apply (owned_mono _ _ _ _ H23). destruct Hr as [->|[now ->]]; [done|by apply owned_revoke].
Qed.

(** A change of the users and accounts alone. *)
Lemma within_tables S d d' :
  (forall u, u ∈ users d' -> u ∈ users d \/ confined S u) ->
  (forall a, a ∈ accounts d' -> a ∈ accounts d \/ confined S (build_sa_appuser_shim a)) ->
  (forall u, u ∈ users d -> u ∈ users d' \/ confined S u) ->
  (forall a, a ∈ accounts d -> a ∈ accounts d' \/ confined S (build_sa_appuser_shim a)) ->
  (forall t, t ∈ tokens d' -> t ∈ tokens d \/ exists t0 now, t0 ∈ tokens d /\ t = revoke_token_row now t0) ->
  within S d d'.
Proof. intros Hu Ha Hu' Ha' Ht. split; [done..|]. intros t [|(t0 & now & ? & ->)]%Ht; left; eauto. Qed.

(** A row that an update or a deletion does not reach stays. *)
Lemma update_where_keeps {A} (P : A -> Prop) (i : A -> Z) (f : A -> A) (l : list A) u :
  NoDup (i <$> l) -> u ∈ l -> P u -> forall x, x ∈ l -> x ∈ update_where (fun r => i r =? i u) f l \/ P x.
Proof.
  intros Hn Hu HP x Hx. destruct (Z.eqb_spec (i x) (i u)) as [E|E].
  - right. by rewrite (NoDup_fmap_inj_on i l x u).
  - left. apply list_elem_of_fmap. exists x. apply Z.eqb_neq in E as ->. done.
Qed.
Lemma delete_where_keeps {A} (P : A -> Prop) (i : A -> Z) (l : list A) u :
  NoDup (i <$> l) -> u ∈ l -> P u -> forall x, x ∈ l -> x ∈ delete_where (fun r => i r =? i u) l \/ P x.
Proof.
  intros Hn Hu HP x Hx. destruct (Z.eqb_spec (i x) (i u)) as [E|E].
  - right. by rewrite (NoDup_fmap_inj_on i l x u).
  - left. apply elem_delete_where. by apply Z.eqb_neq in E.
Qed.

Lemma cut_tokens_in now i b1 b2 d t :
  t ∈ tokens (tokens_cut now i b1 (sessions_cut now i b2 d)) -> t ∈ tokens d \/ exists t0 now, t0 ∈ tokens d /\ t = revoke_token_row now t0.
Proof.
  unfold tokens_cut, sessions_cut. destruct b1, b2; cbn; auto; intros [[Ht _]|(t0 & Ht & _ & ->)]%elem_update_where; eauto.
Qed.

Lemma snoc_in {A} (l : list A) x y : y ∈ l ++ [x] -> y ∈ l \/ y = x.
Proof. by rewrite elem_of_app, list_elem_of_singleton. Qed.

Lemma change_within S now p q d d' :
  db_wf d -> closed_under_scope S -> known d (p_user p) -> confined S (p_user p) -> (forall u, q u -> confined S u) ->
  change now p q d d' -> within S d d'.
Proof.
  intros Hw Hs Hk Hp Hq Hc. destruct Hc as [u Hi Ha Hf Hd|u k b Hu Hqu Hua _|u Hu Hd _|i Hg|a Hi Hd|a c Ha Hsa Hd|a Ha Hsa|o t Hi Ho1 Ho2 Ho|t Ht|f].
  - apply within_tables; cbn; auto; [|intros v Hv; left; by apply elem_of_app; left]. intros v [Hv| ->]%snoc_in; [by left|right].
    destruct (delegated_within _ _ _ _ Hp Hd) as (Hg & i & Ho & HiS). by eapply granted_confined.
  - destruct (cut_tables now (u_id u) (negb (u_is_active (apply_changes k u))) b (update_user_row (u_id u) k d)) as (E1 & E2 & _).
    apply within_tables; rewrite ?E1, ?E2; [|by left| |by left|intros t Ht%cut_tokens_in; done].
    + intros v. cbn. intros [[Hv _]| ->]%elem_user_update; [by left| |done|done]. right.
      destruct (delegated_within _ _ _ _ Hp (ua_delegated _ _ _ _ Hua)) as (Hg & i & Ho & HiS). by eapply granted_confined.
    + cbn. by apply update_where_keeps; [apply Hw|done|apply Hq].
  - apply within_tables; [|by left| |by left|]; cbn; [intros v [_ Hv]%elem_delete_where; by left| |intros t [_ Ht]%elem_delete_where; by left].
    apply delete_where_keeps; [apply Hw|done|].
    destruct (delegated_within _ _ _ _ Hp Hd) as (Hg & i & Ho & HiS). by eapply granted_confined.
  - destruct Hp as [Hp _]. congruence.
  - apply within_tables; cbn; auto; [|intros v Hv; left; by apply elem_of_app; left]. intros v [Hv| ->]%snoc_in; [by left|right].
    destruct (delegated_within _ _ _ _ Hp Hd) as (_ & i & Ho & HiS). by eapply granted_confined.
  - destruct (sa_within _ _ _ Hp Hsa) as (i & Hoa & HiS). apply within_tables; cbn; auto.
    + intros v [[Hv _]|(v' & Hv & Hi & ->)]%elem_update_where; [by left|right].
      bool_simpl. assert (v' = a) as -> by (eapply (NoDup_fmap_inj_on a_id); [apply Hw|done..]).
      assert (exists i, a_organization_id (apply_account_update c a) = Some i /\ i ∈ S) as (j & Ho & HjS).
      { cbn. destruct (au_organization_id c) as [o|] eqn:Eo; cbn; [|by exists i].
        by destruct (delegated_within _ _ _ _ Hp (Hd o eq_refl)) as (_ & ?). }
      by eapply granted_confined.
    + apply (update_where_keeps (fun a => confined S (build_sa_appuser_shim a))); [apply Hw|done|]. by eapply granted_confined.
  - destruct (sa_within _ _ _ Hp Hsa) as (i & Hoa & HiS).
    apply within_tables; cbn; [by left|intros v [_ Hv]%elem_delete_where; by left|by left| |intros t [_ Ht]%elem_delete_where; by left].
    apply (delete_where_keeps (fun a => confined S (build_sa_appuser_shim a))); [apply Hw|done|]. by eapply granted_confined.
  - split; cbn; auto. intros t' [Ht| ->]%snoc_in; [left; eauto|right]. split; cbn.
    + rewrite Ho1. intros u Hu He. destruct o as [v|]; [|done]. destruct Ho as [-> Hpos]. injection He as He.
      destruct Hk as [Hin|(a & Ha & E)].
      * by rewrite (unique_ids d u (p_user p)).
      * pose proof (ids_below_in _ _ _ _ (wf_accounts_below d Hw) Ha). rewrite E in Hpos. cbn in Hpos. lia.
    + rewrite Ho2. intros a Ha He. destruct o as [|b]; [done|]. destruct Ho as [Hb Hsa]. injection He as He.
      assert (a = b) as -> by (eapply (NoDup_fmap_inj_on a_id); [apply Hw|done..]).
      destruct (sa_within _ _ _ Hp Hsa) as (i & Hi' & HiS). by eapply granted_confined.
  - apply within_tables; cbn; auto. intros t' [[Ht' _]|(t0 & Ht' & _ & ->)]%elem_update_where; eauto.
  - apply within_tables; cbn; auto.
Qed.

Lemma within_sessions S d d' : users d' = users d -> accounts d' = accounts d -> tokens d' = tokens d -> within S d d'.
Proof. intros Eu Ea Et. split; rewrite ?Eu, ?Ea, ?Et; auto. intros t Ht. left. eauto. Qed.

Lemma enrolled_within S k d d' : db_wf d -> call_within S k d -> enrolled k d d' -> within S d d'.
Proof.
  intros Hw Hk He. destruct He as [now e b u -> Hnil _ _ _|now e i u -> Hg _ _ Hfu|now e jit i u -> Hg Hu _]; cbn in Hk.
  - done.
  - rewrite Hg in Hk. apply within_tables; cbn; auto; [|intros v Hv; left; by apply elem_of_app; left].
    intros v [Hv| ->]%snoc_in; [by left|right]. by rewrite Hfu.
  - rewrite Hg in Hk. destruct Hk as [Hbefore Hafter]. apply within_tables; cbn; auto.
    + intros v [[Hv _]| ->]%elem_user_update; [by left|by right|done|done].
    + by apply update_where_keeps; [apply Hw|..].
Qed.

Lemma serve_within S k d : db_wf d -> closed_under_scope S -> call_within S k d -> within S d (serve_call d k).
Proof.
  intros Hw Hs Hp. destruct (serve_call_inv d k Hw) as [(l & Hl & [->|(now & c & r & p & -> & Hr & Hlive & Hc)])|[(now & u & s & _ & _ & ->)|(d1 & He & Hd)]].
  - by apply within_sessions.
  - eapply within_trans; [by apply (within_sessions S d (set_sessions (fun _ => l) d))|]. apply live_known in Hlive as [Hk _].
    destruct (Hp p Hr) as [Hpc Haim]. eapply change_within; [apply set_sessions_wf, ages_ids; done|done|exact Hk|done|exact Haim|done].
  - by apply within_sessions.
  - apply (enrolled_within S) in He; [|done..]. destruct Hd as [->|(s & _ & ->)]; [done|]. eapply within_trans; [done|by apply within_sessions].
Qed.

(** C3 [confined_actors_stay_confined] (safety): however many calls are served,
    administration, service accounts, tokens, logins, federated logins and attempts to
    bootstrap included, if every request is made by a principal that reaches
    organizations of [S] only and updates a user that does, and the identity provider
    vouches for such users only, then the accounts outside [S] are what they were: none
    appears, changes or vanishes, and no token is created for one. *)
Theorem confined_actors_stay_confined S ks d :
  db_wf d -> closed_under_scope S -> by_confined S ks d -> within S d (serve_all ks d).
Proof.
  revert d. induction ks as [|k ks IH]; intros d Hw Hs; [intros _; apply within_refl|]. intros [Hk Hks].
  eapply within_trans; [by apply serve_within|]. apply IH; [by apply serve_call_wf|done..].
Qed.

(** C30 [tables_stay_well_formed]: no sequence of requests makes two accounts,
    sessions or tokens share an id, or two users a name, a mail or a uuid. *)
Theorem tables_stay_well_formed ks d : db_wf d -> db_wf (serve_all ks d).
Proof. apply serve_all_wf. Qed.

(** No federated login of an active administrator takes the role from the last one: the
    callback reconciles the role with the provider without that check. *)
Fixpoint admins_vouched (ks : list call) d : Prop :=
  match ks with
  | [] => True
  | k :: ks =>
      match k with
      | CSso _ _ _ i => forall u, get_by_external_subject "entra" (oi_subject i) d = Some u -> is_active_admin u = true ->
          oi_role i = ROLE_ADMIN \/ (1 < active_admin_count d)%nat
      | _ => True
      end /\ admins_vouched ks (serve_call d k)
  end.

(** C11 [active_admin_remains] (invariant): no sequence of requests that administer
    accounts, of logins, of bootstraps and of federated logins leaves the application
    without an active administrator, as long as the identity provider does not take the
    role from the last one. *)
Theorem active_admin_remains ks d :
  db_wf d -> admins_vouched ks d -> (1 <= active_admin_count d)%nat -> (1 <= active_admin_count (serve_all ks d))%nat.
Proof.
  revert d. induction ks as [|k ks IH]; intros d Hw; [done|]. intros [Hk Hks] Ha. cbn. apply IH; [by apply serve_call_wf|done|].
  destruct (serve_call_inv d k Hw) as [(l & Hl & [->|(now & c & r & p & _ & _ & _ & Hc)])|[(now & u & s & _ & _ & ->)|(d1 & He & Hd)]]; [done| |done|].
  { eapply change_keeps_admin; [apply set_sessions_wf, ages_ids; done|done|done]. }
  assert (1 <= active_admin_count d1)%nat as H1'; [|by destruct Hd as [->|(s & _ & ->)]].
  destruct He as [now e b u -> _ _ _ _|now e i u -> _ _ _ _|now e jit i u -> Hg Hu _].
  1,2: unfold active_admin_count in *; cbn; rewrite filter_app, length_app; lia.
  apply update_row_keeps_admin; [done..| |done]. intros Hadm. destruct (Hk u Hg Hadm) as [Hr|]; [left|by right].
  unfold is_active_admin in *. cbn. rewrite Hr. by apply andb_true_iff in Hadm as [_ ->].
Qed.

(** ** Offboarding *)

(** The credentials of the user [j] older than [n] are revoked. *)
Definition dead (n j : Z) d : Prop :=
  n <= next_id d /\
  (forall s, s ∈ sessions d -> s_id s < n -> s_user_id s = j -> s_revoked_at s <> None) /\
  (forall t, t ∈ tokens d -> t_id t < n -> t_user_id t = Some j -> t_service_account_id t = None -> t_revoked_at t <> None).

Lemma dead_ages n j d l : Forall2 ages (sessions d) l -> dead n j d -> dead n j (set_sessions (fun _ => l) d).
Proof.
  intros Hl (Hn & Hs & Ht). split_and!; [done| |done]. cbn. intros s' Hs'.
  apply list_elem_of_lookup in Hs' as [i Hi]. destruct (Forall2_lookup_r _ _ _ _ _ Hl Hi) as (s & Hs0 & E1 & E2 & _ & Hr).
  rewrite E1, E2. intros Hb Hu. apply Hr, Hs; [by eapply list_elem_of_lookup_2|done..].
Qed.

Lemma dead_tokens n j d f :
  (forall t, t ∈ f (tokens d) -> t ∈ tokens d \/ n <= t_id t \/ exists t0 now, t0 ∈ tokens d /\ t = revoke_token_row now t0) ->
  dead n j d -> dead n j (set_tokens f d).
Proof.
  intros Hf (Hn & Hs & Ht). split_and!; [done|done|]. cbn. intros t [Hin|[Hb|(t0 & now & Hin & ->)]]%Hf; [by apply Ht|lia|].
  intros _ _ _. unfold revoke_token_row. destruct (t_revoked_at t0) eqn:E; cbn; [by rewrite E|done].
Qed.

Lemma dead_next n j d d' : sessions d' = sessions d -> tokens d' = tokens d -> next_id d <= next_id d' -> dead n j d -> dead n j d'.
Proof. intros E1 E2 E3 (Hn & Hs & Ht). unfold dead. rewrite E1, E2. split_and!; [lia|done..]. Qed.

Lemma dead_cut now i b1 b2 n j d : dead n j d -> dead n j (tokens_cut now i b1 (sessions_cut now i b2 d)).
Proof.
  intros Hd. assert (dead n j (sessions_cut now i b2 d)) as Hd2.
  { destruct b2; [|done]. apply (dead_ages _ _ _ _ (ages_update _ _ _ (ages_revoke now)) Hd). }
  destruct b1; [|done]. apply dead_tokens; [|done]. cbn.
  intros t [[Ht _]|(t0 & Ht & _ & ->)]%elem_update_where; [by left|right; right; eauto].
Qed.

Lemma change_dead now p q d d' n j : change now p q d d' -> dead n j d -> dead n j d'.
Proof.
  intros Hc Hd. destruct Hc as [u Hi Ha Hf Hd0|u k b Hu _ Hua _|u Hu _ _|i Hg|a Hi Hd0|a c Ha Hsa Hd0|a Ha _|o t Hi Ho1 Ho2 Ho|t Ht|f].
  - revert Hd. apply dead_next; cbn; [done..|lia].
  - apply dead_cut. revert Hd. by apply dead_next.
  - destruct Hd as (Hn & Hs & Ht). split_and!; [done| |]; cbn; [intros s [_ Hin]%elem_delete_where|intros t [_ Hin]%elem_delete_where]; eauto.
  - revert Hd. by apply dead_next.
  - revert Hd. apply dead_next; cbn; [done..|lia].
  - revert Hd. by apply dead_next.
  - destruct Hd as (Hn & Hs & Ht). split_and!; [done|done|]. cbn. intros t [_ Hin]%elem_delete_where. eauto.
  - apply (dead_next _ _ (set_tokens (fun l => l ++ [t]) d)); cbn; [done..|lia|]. apply dead_tokens; [|done].
    intros t' [Hin| ->]%snoc_in; [by left|right; left]. destruct Hd as [Hn _]. lia.
  - apply dead_tokens; [|done]. intros t' [[Ht' _]|(t0 & Ht' & _ & ->)]%elem_update_where; [by left|right; right; eauto].
  - apply dead_ages; [apply ages_update, ages_revoke|done].
Qed.

Lemma with_session_dead n j s d : s_id s = next_id d -> dead n j d -> dead n j (with_session s d).
Proof. intros Hi (Hn & Hs & Ht). split_and!; cbn; [lia| |done]. intros s' [Hin| ->]%snoc_in; [by apply Hs|lia]. Qed.
Lemma enrolled_dead n j k d d' : enrolled k d d' -> dead n j d -> dead n j d'.
Proof. intros He. destruct He; apply dead_next; cbn; try done; lia. Qed.

Lemma serve_dead n j k d : db_wf d -> dead n j d -> dead n j (serve_call d k).
Proof.
  intros Hw Hd. destruct (serve_call_inv d k Hw) as [(l & Hl & [->|(now & c & r & p & _ & _ & _ & Hc)])|[(now & u & s & _ & Hi & ->)|(d1 & He & Hs)]].
  - by apply dead_ages.
  - eapply change_dead; [done|by apply dead_ages].
  - apply with_session_dead; [done|]. destruct Hd as (Hn & Hs & Ht). split_and!; cbn; [lia| |done]. intros s' [_ Hin]%elem_delete_where. by apply Hs.
  - apply (enrolled_dead n j) in He; [|done]. destruct Hs as [->|(s & Hi & ->)]; [done|by apply with_session_dead].
Qed.

Lemma serve_all_dead n j ks d : db_wf d -> dead n j d -> dead n j (serve_all ks d).
Proof. revert d. induction ks as [|k ks IH]; intros d Hw Hd; [done|]. cbn. apply IH; [by apply serve_call_wf|by apply serve_dead]. Qed.

(** A principal that is the user [j] came by a credential newer than [n]. *)
Definition newer_than (n : Z) (p : principal) : Prop :=
  match p_session p, p_token p with
  | Some s, _ => n <= s_id s
  | None, Some t => n <= t_id t
  | None, None => False
  end.

Lemma dead_newer now n j d p : db_wf d -> 0 < j -> dead n j d -> live_credential now d p -> u_id (p_user p) = j -> newer_than n p.
Proof.
  intros Hw Hj (_ & Hs & Ht) Hl Hi. unfold live_credential, newer_than in *. destruct (p_token p) as [t|], (p_session p) as [s|]; try done.
  - destruct Hl as (Hin & Hr & _ & Hu). destruct (Z.le_gt_cases n (t_id t)) as [|Hlt]; [done|].
    unfold user_from_api_token, get_account, get_user in Hu. destruct (t_service_account_id t) as [i|] eqn:Esa.
    + destruct (first _ _) as [a|] eqn:E; [|done]. apply first_row in E. destruct (a_is_active a); [|done].
      injection Hu as Hu. rewrite <- Hu in Hi. cbn in Hi. pose proof (ids_below_in _ _ _ _ (wf_accounts_below d Hw) E). lia.
    + destruct (t_user_id t) as [i|] eqn:Eu; cbn in Hu; [|done]. destruct (first _ _) as [v|] eqn:E; [|done].
      apply first_some in E as [_ E]. destruct (u_is_active v); [|done]. injection Hu as ->. bool_simpl.
      destruct (Ht t Hin Hlt); congruence.
  - destruct Hl as (s0 & Hin & <- & Hr & _ & Hu & _). destruct (Z.le_gt_cases n (s_id s0)) as [|Hlt]; [done|].
    destruct (Hs s0 Hin Hlt); congruence.
Qed.

(** C6 [offboarding]: once an update deactivates a user, no session and no
    personal token it had ever authenticates again, whatever is served since,
    its reactivation included. *)
Theorem offboarding now e p i c d d1 u ks now' cred p' :
  db_wf d -> find_user i d = Ok u -> uu_is_active c = Some false -> update_user now e p i c d = Ok d1 ->
  (get_current_user now' cred (serve_all ks d1)).2 = Ok p' -> u_id (p_user p') = u_id u -> newer_than (next_id d) p'.
Proof.
  intros Hw Hu Hact Hupd Hp' Hi. pose proof Hu as Hin%find_user_inv.
  unfold update_user in Hupd. skip_bind Hupd. peel_bind Hupd as c' Hc'. rewrite Hu in Hupd. cbn [mbind result_bind] in Hupd.
  peel_bind Hupd as x Hx. destruct x.
  assert (uu_is_active c' = Some false) as Hact'.
  { unfold user_update_schema in Hc'. peel_bind Hc' as m Hm. skip_bind Hc'. by injection Hc' as <-. }
  assert (u_is_active (apply_changes (update_kwargs e c') u) = false) as Ea by (cbn; by rewrite Hact').
  rewrite Ea, orb_true_r in Hupd. cbn [negb] in Hupd. injection Hupd as Hupd.
  apply user_update_schema_inv in Hc' as [Hn Hm].
  assert (change now p (fun _ => True) d d1) as Hch.
  { rewrite <- Hupd. pose proof (ChUpdateUser now p (fun _ => True) d u (update_kwargs e c') true Hin I) as Hch. rewrite Ea in Hch. apply Hch; [|done].
    by apply check_update_inv. }
  assert (dead (next_id d) (u_id u) d1) as Hdead.
  { rewrite <- Hupd. split_and!; [done| |].
    - cbn. intros s [[Hs Hq]|(s0 & _ & _ & ->)]%elem_update_where _ He; [|done].
      rewrite He, Z.eqb_refl in Hq. cbn in Hq. rewrite andb_true_r in Hq. by apply bool_decide_eq_false in Hq.
    - cbn. intros t [[Ht Hq]|(t0 & _ & Hq & ->)]%elem_update_where _ He Hsa.
      + rewrite He, Hsa, !(bool_decide_eq_true_2 (_ = _)) in Hq by done. cbn in Hq. by apply bool_decide_eq_false in Hq.
      + unfold revoke_token_row. destruct (t_revoked_at t0) eqn:Er; [by rewrite Er|done]. }
  pose proof (change_wf _ _ _ _ _ Hw Hch) as Hw1.
  destruct (get_current_user now' cred (serve_all ks d1)) as [d2 r] eqn:Eg. cbn in Hp'. subst r.
  apply get_current_user_inv in Eg as [_ Hlive]. specialize (Hlive p' eq_refl).
  eapply dead_newer; [by apply serve_all_wf| |by apply serve_all_dead|done|done].
  by destruct (ids_below_in _ _ _ _ (wf_users_below d Hw) Hin).
Qed.

(** ** Permissions *)

Lemma require_permission_inv perm p :
  require_permission perm p = Ok tt ->
  perm ∈ role_perms (u_role (p_user p)) /\
  (forall t s l, p_token p = Some t -> parse_scopes (t_scopes_json t) = Ok (s :: l) -> perm ∈ s :: l).
Proof.
  unfold require_permission, token_scopes. intros Hr. peel_bind Hr as sc Hsc. apply raise_if_ok, negb_false_iff, bool_decide_eq_true in Hr.
  destruct (p_token p) as [t|]; [|injection Hsc as <-; by split].
  peel_bind Hsc as parsed Hparsed. injection Hsc as <-. destruct parsed as [|s l]; unfold effective_scopes in Hr.
  - split; [done|]. intros t' s l [= <-]. congruence.
  - apply elem_of_intersection in Hr as [Hr1 Hr2]. split; [done|]. intros t' s' l' [= <-] Hs. rewrite Hs in Hparsed.
    injection Hparsed as -> ->. by apply elem_of_list_to_set in Hr2.
Qed.

Lemma manage_is_admin role : USER_MANAGE ∈ role_perms role -> role = ROLE_ADMIN.
Proof.
  unfold role_perms, ROLE_PERMISSIONS.
  destruct (String.eqb _ "viewer"); [|destruct (String.eqb _ "operator"); [|destruct (String.eqb _ "engineer");
    [|destruct (String.eqb_spec (normalized_role role) ROLE_ADMIN) as [E|_]]]]; cbn [default from_option].
  4: { intros _. revert E. unfold normalized_role. by destruct (String.eqb role "user"). }
  4: by intros []%not_elem_of_empty.
  all: intros Hin%elem_of_list_to_set; repeat (apply elem_of_cons in Hin as [Hin|Hin]; [discriminate Hin|]);
    by apply elem_of_nil in Hin.
Qed.

(** [management_needs_permission]: a request that changes the users, the
    service accounts or the organizations was made by an administrator, and with
    a token restricted to scopes, one whose scopes name [user.manage]. *)
Theorem management_needs_permission now c r d d' x :
  serve now c r d = (d', x) -> users d' <> users d \/ accounts d' <> accounts d \/ organizations d' <> organizations d ->
  exists p, (get_current_user now c d).2 = Ok p /\ u_role (p_user p) = ROLE_ADMIN /\
    (forall t s l, p_token p = Some t -> parse_scopes (t_scopes_json t) = Ok (s :: l) -> USER_MANAGE ∈ s :: l).
Proof.
  unfold serve. destruct (get_current_user now c d) as [d1 r1] eqn:E.
  destruct (get_current_user_inv _ _ _ _ _ E) as [(l & -> & Hl) _].
  destruct r1 as [p|e]; [|intros [= <- <-] [|[]]; done]. cbn [fst snd].
  destruct (handle now c p r _) as [d2|e] eqn:Eh; [|intros [= <- <-] [|[]]; done].
  intros [= <- <-] Hd. exists p. split; [done|].
  assert (require_permission USER_MANAGE p = Ok tt \/
          (users d2 = users d /\ accounts d2 = accounts d /\ organizations d2 = organizations d)) as [Hr|(? & ? & ?)];
    [|apply require_permission_inv in Hr as [Hr1 Hr2]; split; [by apply manage_is_admin|done]|naive_solver].
  destruct r; cbn in Eh; try (left;
    match type of Eh with
    | create_user _ _ _ _ = _ => unfold create_user in Eh
    | update_user _ _ _ _ _ _ = _ => unfold update_user in Eh
    | delete_user _ _ _ = _ => unfold delete_user in Eh
    | delete_organization _ _ _ = _ => unfold delete_organization in Eh
    | create_service_account _ _ _ = _ => unfold create_service_account in Eh
    | update_service_account _ _ _ _ = _ => unfold update_service_account in Eh
    | delete_service_account _ _ _ = _ => unfold delete_service_account in Eh
    | create_token_for_sa _ _ _ _ _ _ = _ => unfold create_token_for_sa in Eh
    | revoke_token_for_sa _ _ _ _ _ = _ => unfold revoke_token_for_sa in Eh
    end; apply result_bind_ok in Eh as ([] & Eh & _); exact Eh); right.
  - unfold create_personal_token in Eh. peel_bind Eh as c' Hc. skip_bind Eh.
    apply bad_request_ok, create_token_inv in Eh as (t & _ & _ & _ & _ & ->). done.
  - unfold revoke_personal_token in Eh. destruct (get_token _ _) as [t|]; [|done]. case_match; [|done]. by injection Eh as <-.
  - unfold logout in Eh. injection Eh as <-. by case_match.
  - by injection Eh as <-.
Qed.
End effects.

(** ** What the checks do not cover *)

Section divergences.
Context `{Pbkdf2} `{TokenHash} `{JsonLoads} `{ScopeResolver}.

(** Deleting an organization promotes its administrators: the column becomes
    null, and an administrator without an organization has global scope. *)
Lemma organization_deletion_promotes u i :
  u_role u = ROLE_ADMIN -> u_organization_id u = Some i -> has_global_scope (user_forget_org i u) = true.
Proof.
  intros Hr Ho. unfold has_global_scope, user_forget_org, forget_org. cbn. rewrite Hr, Ho.
  rewrite (bool_decide_eq_true_2 (Some i = Some i)) by done. cbn. apply orb_true_r.
Qed.

(** Scopes that cannot be decoded are no restriction. *)
Lemma corrupt_scopes_inherit s role :
  s <> "" -> json_loads s = Raise EJsonDecode ->
  exists parsed, parse_scopes (Some s) = Ok parsed /\ effective_scopes role (Some parsed) = role_perms role.
Proof. intros Hs Hj. exists []. destruct s; [done|]. unfold parse_scopes. by rewrite Hj. Qed.

(** An id made of superscript digits passes [isdigit] and breaks [int]. *)
Lemma superscript_id_raises d :
  let i := String (ascii_of_nat 178) "" in get_by_uuid i d = None -> get_user_by_public_id i d = Raise EValue.
Proof. intros i Hi. unfold get_user_by_public_id. by rewrite Hi. Qed.
End divergences.

(** ** Concrete tables *)

#[local] Instance demo_pbkdf2 : Pbkdf2 := fun password salt _ => (password +:+ salt)%string.
#[local] Instance demo_token_hash : TokenHash := {| hash_token := id; verify_token_hash := String.eqb |}.
#[local] Instance demo_scopes_json : JsonLoads := fun s =>
  if String.eqb s (quoted "mapping.read") then Ok (PStr "mapping.read")
  else if String.eqb s ("[" +:+ quoted "mapping.read" +:+ "]")%string then Ok (PList [PStr "mapping.read"])
  else Raise EJsonDecode.
(** The community edition: no resolver is registered. *)
#[local] Instance community : ScopeResolver := None.
#[local] Instance demo_session_hash : SessionHash := id.
#[local] Instance demo_ttl : SessionTtl := 12.
#[local] Instance demo_limiter : TokenLimiter := fun _ _ => None.

Definition demo_user (i : Z) (name : string) (org : option Z) (role : string) : app_user :=
  AppUser i ("uuid-" +:+ name) name None None "local" None (Some "hash"%string) org role false true.

Definition demo_scoped_token : api_token :=
  ApiToken 8 (Some 2) None "reader" "copsk_reader" "copsk_reader-secret" None true
    (serialize_scopes ["mapping.read"]) None.

Definition demo_db : db :=
  Db [demo_user 1 "root" None "admin"; demo_user 2 "alice" (Some 10) "admin"; demo_user 3 "bob" (Some 20) "viewer";
      demo_user 4 "carol" (Some 10) "viewer"]
     [] [Organization 10 true; Organization 20 true]
     [UserSession 5 1 "root-cookie" 1000000 None; UserSession 6 2 "alice-cookie" 1000000 None;
      UserSession 7 4 "carol-cookie" 1000000 None]
     [demo_scoped_token] 9.

Definition by_cookie (c : string) : credentials := Credentials None (Some c) None.
Definition by_token (t : string) : credentials := Credentials (Some ("Bearer " +:+ t)%string) None None.
Definition demo_entropy : entropy := Entropy "new-uuid" "salt" "copsk_abcdefgh".
Definition no_update : user_update := UserUpdate None None None None None None None None.

(** An administrator of organization 10 takes over the platform administrator:
    only the organization and the scope after the update are checked. *)
Definition capture : user_update :=
  UserUpdate None (Some "attacker-password"%string) None None (Some (Some 10)) None (Some false) None.

Lemma scoped_admin_captures_root :
  exists u, get_user 1 (serve 0 (by_cookie "alice-cookie") (RUpdateUser demo_entropy "uuid-root" capture) demo_db).1 = Some u /\
  has_global_scope u = false /\ verify_password "attacker-password" (u_password_hash u) = Ok true.
Proof. eexists. vm_compute. done. Qed.

(** A token restricted to [mapping.read] creates one without restriction. *)
Lemma scoped_token_mints_unscoped :
  let d := (serve 0 (by_token "copsk_reader-secret") (RIssueToken demo_entropy None (TokenCreate "full" None true None)) demo_db).1 in
  (exists p, (get_current_user 0 (by_token "copsk_reader-secret") demo_db).2 = Ok p /\
     require_permission USER_MANAGE p = Raise (EHttp 403 USER_MANAGE)) /\
  (exists p, (get_current_user 0 (by_token "copsk_abcdefgh") d).2 = Ok p /\ require_permission USER_MANAGE p = Ok tt).
Proof. split; eexists; (split; [vm_compute; reflexivity|]); vm_compute; reflexivity. Qed.

(** The name of a revoked token is free for the service and taken for the database. *)
Lemma revoked_name_is_an_integrity_error :
  let d := revoke 0 demo_scoped_token demo_db in
  (serve 0 (by_cookie "alice-cookie") (RIssueToken demo_entropy None (TokenCreate "reader" None true None)) d).2 = Raise INTEGRITY_ERROR.
Proof. vm_compute. reflexivity. Qed.

(** A scope no role of the owner has is accepted. *)
Lemma scopes_beyond_the_role :
  (serve 0 (by_cookie "carol-cookie") (RIssueToken demo_entropy None (TokenCreate "t" None true (Some [USER_MANAGE]))) demo_db).2 = Ok tt.
Proof. vm_compute. reflexivity. Qed.

(** ** Witnesses *)

Lemma community_closed S : closed_under_scope S.
Proof.
  intros u o Hg Ho Hi. unfold accessible_org_ids, scope_resolver, community. rewrite Hg. cbn. unfold default_scope_resolver. rewrite Ho.
  eexists. split; [done|]. set_solver.
Qed.

Lemma demo_db_wf : db_wf demo_db.
Proof.
  split; try done; try (by apply (bool_decide_unpack _); vm_compute); unfold unique_on; cbn;
    intros x y Hx Hy Hn He; repeat apply elem_of_cons in Hx as [->|Hx]; repeat apply elem_of_cons in Hy as [->|Hy];
    done || (by apply elem_of_nil in Hx) || (by apply elem_of_nil in Hy).
Qed.

Lemma confined_10 u : u_is_global u = false -> u_organization_id u = Some 10 -> confined {[10]} u.
Proof. intros Hg Ho. eapply granted_confined; [apply community_closed|done|done|set_solver]. Qed.

(** Alice, of organization 10, opens a service account and a token for it, tries to make
    herself global, and changes the role of Carol; Carol tries to delete Bob; Bob tries
    to log in; somebody tries to bootstrap; Dan arrives from the identity provider. *)
Definition promotion : user_update := UserUpdate None None None None None (Some "operator"%string) None None.
Definition dan : oidc_identity := OidcIdentity "oid-dan" (Some "dan@example.com"%string) None "viewer" false.
Definition confined_calls : list call :=
  [CRequest 0 (by_cookie "alice-cookie") (RCreateAccount (AccountCreate "bot" None "engineer" (Some 10)));
   CRequest 0 (by_cookie "alice-cookie") (RIssueAccountToken demo_entropy 9 (TokenCreate "t" None true None));
   CRequest 0 (by_cookie "alice-cookie") (RUpdateUser demo_entropy "uuid-alice" (UserUpdate None None None None None None (Some true) None));
   CRequest 0 (by_cookie "alice-cookie") (RUpdateUser demo_entropy "uuid-carol" promotion);
   CRequest 0 (by_cookie "carol-cookie") (RDeleteUser "uuid-bob");
   CLogin 0 demo_entropy "bob" "guess";
   CBootstrap 0 demo_entropy (BootstrapRequest "me" "a-long-password" None);
   CSso 0 (Entropy "uuid-dan" "" "dan-cookie") true dan;
   CSso 1 (Entropy "" "" "dan-again") true dan].

Lemma confined_demo u acc : has_global_scope u = false -> accessible_org_ids u = Some acc -> bool_decide (acc ⊆ {[10]}) = true -> confined {[10]} u.
Proof. intros Hg Ha HS%bool_decide_eq_true. split; [done|]. by exists acc. Qed.

Lemma by_confined_step S k ks d d1 : call_within S k d -> serve_call d k = d1 -> by_confined S ks d1 -> by_confined S (k :: ks) d.
Proof. by intros Hk <-. Qed.
Ltac stays_within :=
  lazymatch goal with
  | |- True => exact I
  | |- _ <> [] => discriminate
  | |- forall _, _ =>
      let p := fresh in let Hp := fresh in let u := fresh in let Hu := fresh in
      intros p Hp; vm_compute in Hp; injection Hp as <-; split; [by apply confined_10|intros u Hu; vm_compute in Hu;
        lazymatch type of Hu with False => destruct Hu | _ => injection Hu as <-; by apply confined_10 end]
  | |- confined _ _ /\ confined _ _ => split; stays_within
  | |- confined _ _ => eapply confined_demo; vm_compute; reflexivity
  end.

Lemma confined_actors_stay_confined_witness :
  by_confined {[10]} confined_calls demo_db /\ within {[10]} demo_db (serve_all confined_calls demo_db).
Proof.
  assert (by_confined {[10]} confined_calls demo_db) as Hb.
  { unfold confined_calls. repeat (lazymatch goal with |- by_confined ?S (?k :: ?ks) ?d =>
      let d1 := eval vm_compute in (serve_call d k) in apply (by_confined_step S k ks d d1); [|vm_compute; reflexivity|] end);
      [..|exact I]; cbn [call_within];
      try lazymatch goal with |- context [get_by_external_subject ?a ?b ?c] =>
        let x := eval vm_compute in (get_by_external_subject a b c) in change (get_by_external_subject a b c) with x end; cbv beta iota; stays_within. }
  split; [done|]. apply confined_actors_stay_confined; [apply demo_db_wf|apply community_closed|done].
Defined.

(** And those that reach further: Alice captures the platform administrator, Erin arrives
    as an administrator and returns as a viewer. *)
Definition erin (role : string) : oidc_identity := OidcIdentity "oid-erin" None None role (String.eqb role ROLE_ADMIN).
Definition demo_calls : list call :=
  CRequest 0 (by_cookie "alice-cookie") (RUpdateUser demo_entropy "uuid-root" capture) :: confined_calls ++
  [CSso 2 (Entropy "uuid-erin" "" "erin-cookie") true (erin "admin"); CSso 3 (Entropy "" "" "erin-again") true (erin "viewer")].

Lemma tables_stay_well_formed_witness : db_wf demo_db /\ db_wf (serve_all demo_calls demo_db).
Proof. split; [apply demo_db_wf|]. apply tables_stay_well_formed, demo_db_wf. Defined.

Lemma admins_vouched_step k ks d d1 :
  match k with
  | CSso _ _ _ i => forall u, get_by_external_subject "entra" (oi_subject i) d = Some u -> is_active_admin u = true ->
      oi_role i = ROLE_ADMIN \/ (1 < active_admin_count d)%nat
  | _ => True
  end -> serve_call d k = d1 -> admins_vouched ks d1 -> admins_vouched (k :: ks) d.
Proof. by intros Hk <-. Qed.
Lemma active_admin_remains_witness :
  admins_vouched demo_calls demo_db /\ (1 <= active_admin_count (serve_all demo_calls demo_db))%nat.
Proof.
  assert (admins_vouched demo_calls demo_db) as Hv.
  { unfold demo_calls, confined_calls. cbn [app]. repeat (lazymatch goal with |- admins_vouched (?k :: ?ks) ?d =>
      let d1 := eval vm_compute in (serve_call d k) in apply (admins_vouched_step k ks d d1); [|vm_compute; reflexivity|] end); [..|exact I];
      try exact I; intros u _ _; right; vm_compute; lia. }
  split; [done|]. apply active_admin_remains; [apply demo_db_wf|done|vm_compute; lia].
Defined.

(** A federated login takes the role from the last administrator. *)
Definition erin_alone : db :=
  Db [AppUser 1 "uuid-erin" "erin" None None "entra" (Some "oid-erin"%string) None None "admin" true true] [] [] [] [] 2.
Lemma sso_demotes_last_admin :
  active_admin_count erin_alone = 1%nat /\
  active_admin_count (serve_call erin_alone (CSso 0 demo_entropy true (erin "viewer"))) = 0%nat.
Proof. vm_compute. done. Qed.

(** Root deactivates Carol, then brings her back with a new password; she logs in. *)
Definition dismissal : user_update := UserUpdate None None None None None None None (Some false).
Definition readmission : user_update := UserUpdate None (Some "carol-password"%string) None None None None None (Some true).
Definition dismissed : db := (serve 0 (by_cookie "root-cookie") (RUpdateUser demo_entropy "uuid-carol" dismissal) demo_db).1.
Definition readmitted : list call :=
  [CRequest 1 (by_cookie "root-cookie") (RUpdateUser demo_entropy "uuid-carol" readmission);
   CLogin 2 (Entropy "" "" "carol-again") "carol" "carol-password"].

Definition root_principal : principal := Principal (demo_user 1 "root" None "admin") None None.

Lemma offboarding_witness : exists d1 p',
  update_user 0 demo_entropy root_principal "uuid-carol" dismissal demo_db = Ok d1 /\
  (get_current_user 3 (by_cookie "carol-again") (serve_all readmitted d1)).2 = Ok p' /\ newer_than (next_id demo_db) p'.
Proof.
  eexists. eexists. split; [vm_compute; reflexivity|]. split; [vm_compute; reflexivity|].
  eapply (offboarding 0 demo_entropy root_principal "uuid-carol" dismissal demo_db _ (demo_user 4 "carol" (Some 10) "viewer") readmitted 3
            (by_cookie "carol-again")); [apply demo_db_wf|vm_compute; reflexivity..].
Defined.

Lemma management_needs_permission_witness : exists p,
  (get_current_user 0 (by_cookie "alice-cookie") demo_db).2 = Ok p /\ u_role (p_user p) = ROLE_ADMIN.
Proof.
  destruct (management_needs_permission 0 (by_cookie "alice-cookie") (RUpdateUser demo_entropy "uuid-root" capture) demo_db
              _ _ (surjective_pairing _)) as (p & Hp & Hr & _).
  - left. vm_compute. discriminate.
  - by exists p.
Defined.
