(* ===== verification/RateLimit.v ===== *)
(** * Rate limits

    [core/rate_limiter.py]: the sliding windows of the vendor APIs ([RateLimiter],
    [QueryRunLimiter]) and the fixed one-minute windows in Redis of the
    integrations and the tokens ([IntegrationRateLimiter], [TokenRateLimiter],
    with their local fallback).  Local instants are microseconds of a clock that
    moves between two readings; how far it moves, and how long a sleep overshoots,
    is an argument.  The time of Redis is in seconds ([Store]). *)

From S2P Require Import Prelude PyVal Store.

Local Open Scope Z_scope.

(** ** One window *)

Record window := Window { w_duration : Z; w_max : Z; w_timestamps : list Z }.

Fixpoint drop_older (cutoff : Z) (ts : list Z) : list Z :=
  match ts with
  | t :: ts' => if t <? cutoff then drop_older cutoff ts' else ts
  | [] => []
  end.

Definition prune (now : Z) (w : window) : window := Window (w_duration w) (w_max w) (drop_older (now - w_duration w) (w_timestamps w)).
Definition remaining (now : Z) (w : window) : Z := Z.max 0 (w_max w - Z.of_nat (length (w_timestamps (prune now w)))).

(** [timestamps[0]] of an empty list is an [IndexError]. *)
Definition wait_time (now : Z) (w : window) : result (window * Z) :=
  let w := prune now w in
  if Z.of_nat (length (w_timestamps w)) <? w_max w then Ok (w, 0)
  else match w_timestamps w with
       | oldest :: _ => Ok (w, Z.max 0 (oldest + w_duration w - now))
       | [] => Raise EOther
       end.
Definition record_at (now : Z) (w : window) : window := Window (w_duration w) (w_max w) (w_timestamps w ++ [now]).

(** ** The clock *)

(** The instant, and how far the clock moves before each coming reading. *)
Record clock := Clock { c_now : Z; c_moves : nat -> Z; c_used : nat }.

(** [time.monotonic()]. *)
Definition tick_clock (c : clock) : clock := Clock (c_now c + c_moves c (c_used c)) (c_moves c) (S (c_used c)).
(** [asyncio.sleep(wait)]. *)
Definition sleep (wait : Z) (c : clock) : clock := Clock (c_now c + wait + c_moves c (c_used c)) (c_moves c) (S (c_used c)).

(** ** [RateLimiter] and [QueryRunLimiter] *)

(** The windows of a tenant, with their settings: the defaults of a new tenant. *)
Definition global_windows (per_second per_minute per_hour per_day : Z) : list window :=
  [Window 1000000 per_second []; Window 60000000 per_minute []; Window 3600000000 per_hour []; Window 86400000000 per_day []].
Definition query_windows (per_minute per_day : Z) : list window := [Window 60000000 per_minute []; Window 86400000000 per_day []].

Record limiter := Limiter { l_windows : gmap string (list window); l_retry_until : gmap string Z }.

Fixpoint wait_all (ws : list window) (c : clock) : result (list window * clock) :=
  match ws with
  | [] => Ok ([], c)
  | w :: ws' =>
      let c := tick_clock c in
      r ← wait_time (c_now c) w;
      let c := if 0 <? r.2 then sleep r.2 c else c in
      rest ← wait_all ws' c;
      Ok (r.1 :: rest.1, rest.2)
  end.
Fixpoint record_all (ws : list window) (c : clock) : list window * clock :=
  match ws with
  | [] => ([], c)
  | w :: ws' => let c := tick_clock c in let (ws'', c') := record_all ws' c in (record_at (c_now c) w :: ws'', c')
  end.

(** [acquire], under the lock of the tenant.  [QueryRunLimiter] has no backoff:
    its [l_retry_until] is empty. *)
Definition acquire (fresh : list window) (tenant : string) (c : clock) (l : limiter) : result (limiter * clock) :=
  let c := tick_clock c in
  let wait := default 0 (l_retry_until l !! tenant) - c_now c in
  let c := if 0 <? wait then sleep wait c else c in
  r ← wait_all (default fresh (l_windows l !! tenant)) c;
  let (ws, c) := record_all r.1 r.2 in
  Ok (Limiter (<[tenant := ws]> (l_windows l)) (l_retry_until l), c).

Definition SECOND : Z := 1000000.

Definition handle_429 (tenant : string) (retry_after : option Z) (c : clock) (l : limiter) : limiter * clock :=
  let delay := match retry_after with Some r => if 0 <? r then r else 5 | None => 5 end in
  let c := tick_clock c in
  (Limiter (l_windows l) (<[tenant := c_now c + delay * SECOND]> (l_retry_until l)), c).

(** ** Fixed windows: [IntegrationRateLimiter], [TokenRateLimiter] *)

Section fixed.
Context {S : Type} `{Redis S}.

(** [TTL]: the seconds left, [-1] without expiry, [-2] without key. *)
Definition r_ttl (s : S) (k : string) : Z :=
  match r_entry s k with
  | None => -2
  | Some (_, None) => -1
  | Some (_, Some deadline) => deadline - r_now s
  end.

(** Where the connection is lost during a call. *)
Inductive loss := NoLoss | LostIncr | LostExpire | LostTtl.

Definition MINUTE_TTL : Z := 60.

Definition redis_check_and_increment (lost : loss) (full_key : string) (max : Z) (s : S) : S * option Z :=
  match lost with
  | LostIncr => (s, None)
  | _ =>
      let (s, count) := r_incr full_key s in
      if (count =? 1) && match lost with LostExpire => true | _ => false end then (s, None)
      else
        let s := if count =? 1 then r_expire full_key MINUTE_TTL s else s in
        if max <? count
        then match lost with LostTtl => (s, None) | _ => (s, Some (Z.max 1 (r_ttl s full_key))) end
        else (s, None)
  end.

Definition ceil_seconds (us : Z) : Z := - ((- us) / SECOND).

(** [_memory_check]; both readings of the clock. *)
Definition memory_check (now now' : Z) (key : string) (max : Z) (ws : gmap string window) : result (gmap string window * option Z) :=
  let w := prune now (default (Window (60 * SECOND) max []) (ws !! key)) in
  if max <=? Z.of_nat (length (w_timestamps w))
  then r ← wait_time now' w; Ok (<[key := r.1]> ws, Some (Z.max 1 (ceil_seconds r.2)))
  else Ok (<[key := record_at now' w]> ws, None).

Definition integration_key (op : string) (user_id : Z) : string := ("integ_ratelimit:" +:+ op +:+ ":" +:+ str_of_Z user_id)%string.
Definition token_key (prefix : string) (token_id : Z) : string := (prefix +:+ ":token:" +:+ str_of_Z token_id)%string.

Definition check_create (max_creates : Z) (lost : loss) (user_id : Z) : S -> S * option Z :=
  redis_check_and_increment lost (integration_key "create" user_id) max_creates.
Definition check_delete (max_deletes : Z) (lost : loss) (user_id : Z) : S -> S * option Z :=
  redis_check_and_increment lost (integration_key "delete" user_id) max_deletes.
Definition check_token (max : Z) (prefix : string) (lost : loss) (token_id : Z) : S -> S * option Z :=
  redis_check_and_increment lost (token_key prefix token_id) max.
Definition reset_token (prefix : string) (lost : bool) (token_id : Z) (s : S) : S :=
  if lost then s else r_del (token_key prefix token_id) s.
End fixed.

(** ** The quota of a window *)

(** Any [m] requests and the next are more than [d] apart. *)
Definition spaced (d : Z) (m : nat) (log : list Z) : Prop :=
  forall i a b, log !! i = Some a -> log !! (i + m)%nat = Some b -> a + d < b.

(** The requests logged in [t, t + d]. *)
Definition in_span (t d : Z) (log : list Z) : nat := length (filter (fun x => t <= x <= t + d) log).

Definition increasing (log : list Z) : Prop := forall i j a b, (i < j)%nat -> log !! i = Some a -> log !! j = Some b -> a < b.

Lemma increasing_tail x log : increasing (x :: log) -> increasing log.
Proof. intros Hl i j a b Hij Ha Hb. by apply (Hl (S i) (S j) a b); [lia|..]. Qed.
Lemma spaced_tail d m x log : spaced d m (x :: log) -> spaced d m log.
Proof. intros Hl i a b Ha Hb. by apply (Hl (S i) a b). Qed.

Lemma in_span_le t d m log : 0 <= d -> increasing log -> spaced d m log -> (in_span t d log <= m)%nat.
Proof.
  unfold in_span. intros Hd. induction log as [|x log IH]; intros Hi Hs; [cbn; lia|].
  destruct (decide (t <= x <= t + d)) as [Hx|Hx].
  - assert (filter (fun y => t <= y <= t + d) (drop m (x :: log)) = []) as Hdrop.
    { destruct (filter _ (drop m (x :: log))) as [|y l] eqn:E; [done|exfalso].
      assert (y ∈ filter (fun y => t <= y <= t + d) (drop m (x :: log))) as [Hty Hy]%list_elem_of_filter by (rewrite E; left).
      apply list_elem_of_lookup in Hy as [i Hy]. rewrite lookup_drop in Hy.
      destruct ((x :: log) !! m) as [z|] eqn:Hz.
      - pose proof (Hs 0%nat x z eq_refl Hz). destruct i as [|i]; [rewrite Nat.add_0_r, Hz in Hy; injection Hy as ->; lia|].
        pose proof (Hi m (m + S i)%nat z y ltac:(lia) Hz Hy). lia.
      - apply lookup_ge_None in Hz. apply lookup_lt_Some in Hy. lia. }
    rewrite <- (take_drop m (x :: log)), filter_app, Hdrop, app_nil_r. etrans; [apply length_filter|]. rewrite length_take. lia.
  - rewrite filter_cons, decide_False by done. apply IH; [by eapply increasing_tail|by eapply spaced_tail].
Qed.

Lemma spaced_snoc d m log t :
  (1 <= m)%nat -> spaced d m log -> (forall a, (m <= length log)%nat -> log !! (length log - m)%nat = Some a -> a + d < t) ->
  spaced d m (log ++ [t]).
Proof.
  intros Hm Hs Ht i a b Ha Hb. apply lookup_app_Some in Hb as [Hb|[Hlen Hb]].
  - rewrite lookup_app_l in Ha; [by eapply Hs|]. apply lookup_lt_Some in Hb. lia.
  - destruct (i + m - length log)%nat as [|n] eqn:E; [|by destruct n]. injection Hb as ->.
    rewrite lookup_app_l in Ha by lia. apply Ht; [lia|]. by replace (length log - m)%nat with i by lia.
Qed.

Lemma increasing_snoc log t : increasing log -> (forall a, a ∈ log -> a < t) -> increasing (log ++ [t]).
Proof.
  intros Hi Ht i j a b Hij Ha Hb. apply lookup_app_Some in Hb as [Hb|[Hlen Hb]].
  - rewrite lookup_app_l in Ha; [by eapply Hi|]. apply lookup_lt_Some in Hb. lia.
  - destruct (j - length log)%nat as [|n] eqn:E; [|by destruct n]. injection Hb as ->.
    rewrite lookup_app_l in Ha by lia. apply Ht. by eapply list_elem_of_lookup_2.
Qed.

Lemma drop_older_split cutoff ts : exists gone, ts = gone ++ drop_older cutoff ts /\ Forall (fun t => t < cutoff) gone.
Proof.
  induction ts as [|t ts (gone & E & Hg)]; [by exists []|]. cbn [drop_older]. destruct (Z.ltb_spec t cutoff).
  - exists (t :: gone). cbn. split; [by f_equal|by constructor].
  - by exists [].
Qed.

Lemma drop_older_head cutoff ts t l : drop_older cutoff ts = t :: l -> cutoff <= t.
Proof. induction ts as [|x ts IH]; cbn; [done|]. destruct (Z.ltb_spec x cutoff); [done|]. by intros [= <- <-]. Qed.

(** The window [w] at [now] has kept the recent part of its log. *)
Record keeps (d m : Z) (now : Z) (log : list Z) (w : window) : Prop := {
  k_duration : w_duration w = d;
  k_max : w_max w = m;
  k_positive : 1 <= m;
  k_past : forall a, a ∈ log -> a <= now;
  k_increasing : increasing log;
  k_spaced : spaced d (Z.to_nat m) log;
  k_recent : exists gone, log = gone ++ w_timestamps w /\ forall a, a ∈ gone -> a + d < now;
}.

Lemma keeps_later d m now now' log w : keeps d m now log w -> now <= now' -> keeps d m now' log w.
Proof.
  intros [K1 K2 K3 K4 K5 K6 (gone & K7 & K8)] Hn. split; try done.
  - intros a Ha%K4. lia.
  - exists gone. split; [done|]. intros a Ha%K8. lia.
Qed.

Lemma keeps_prune d m now log w : keeps d m now log w -> keeps d m now log (prune now w).
Proof.
  intros [K1 K2 K3 K4 K5 K6 (gone & K7 & K8)]. split; try done.
  destruct (drop_older_split (now - w_duration w) (w_timestamps w)) as (gone' & E & Hg). cbn.
  exists (gone ++ gone'). split; [by rewrite <- app_assoc, <- E|].
  intros a [Ha|Ha]%elem_of_app; [by apply K8|]. rewrite Forall_forall in Hg. specialize (Hg a Ha). lia.
Qed.

(** A pruned window never holds more than its limit: older requests are too far apart. *)
Lemma pruned_length d m now log w :
  keeps d m now log w -> Forall (fun a => now - d <= a) (w_timestamps w) -> Z.of_nat (length (w_timestamps w)) <= m.
Proof.
  intros [K1 K2 K3 K4 K5 K6 (gone & K7 & K8)] Hr. destruct (Z.le_gt_cases (Z.of_nat (length (w_timestamps w))) m) as [|Hlt]; [done|exfalso].
  destruct (w_timestamps w !! 0%nat) as [a|] eqn:Ha; [|apply lookup_ge_None in Ha; lia].
  destruct (w_timestamps w !! Z.to_nat m) as [b|] eqn:Hb; [|apply lookup_ge_None in Hb; lia].
  rewrite Forall_lookup in Hr. pose proof (Hr _ _ Ha).
  assert (log !! length gone = Some a) as Ha' by (rewrite K7, lookup_app_r, Nat.sub_diag by lia; done).
  assert (log !! (length gone + Z.to_nat m)%nat = Some b) as Hb'.
  { rewrite K7, lookup_app_r by lia. by replace (length gone + Z.to_nat m - length gone)%nat with (Z.to_nat m) by lia. }
  pose proof (K6 _ _ _ Ha' Hb'). pose proof (K4 b (list_elem_of_lookup_2 _ _ _ Hb')). lia.
Qed.

Lemma drop_older_recent cutoff ts : increasing ts -> Forall (fun a => cutoff <= a) (drop_older cutoff ts).
Proof.
  intros Hi. destruct (drop_older cutoff ts) as [|t l] eqn:E; [done|]. pose proof (drop_older_head _ _ _ _ E) as Ht.
  destruct (drop_older_split cutoff ts) as (gone & Hs & _). rewrite E in Hs. apply Forall_lookup. intros i a Ha.
  destruct i as [|i]; [by injection Ha as ->|].
  assert (t < a); [|lia]. apply (Hi (length gone) (length gone + S i)%nat); [lia| |]; rewrite Hs, lookup_app_r by lia.
  - by rewrite Nat.sub_diag.
  - by replace (length gone + S i - length gone)%nat with (S i) by lia.
Qed.

Lemma increasing_app_r l1 l2 : increasing (l1 ++ l2) -> increasing l2.
Proof. induction l1 as [|x l1 IH]; [done|]. cbn. intros Hi%increasing_tail. auto. Qed.

(** After the wait, the [m]th request before now is further than [d] away. *)
Definition ready (w : window) (log : list Z) (t : Z) : Prop :=
  forall a, (Z.to_nat (w_max w) <= length log)%nat -> log !! (length log - Z.to_nat (w_max w))%nat = Some a -> a + w_duration w < t.

Definition sound (now : Z) (log : list Z) (w : window) : Prop := keeps (w_duration w) (w_max w) now log w.

Lemma wait_time_spec now log w :
  sound now log w -> exists wt, wait_time now w = Ok (prune now w, wt) /\ 0 <= wt /\ forall t, now + wt < t -> ready w log t.
Proof.
  intros Hk. pose proof (keeps_prune _ _ _ _ _ Hk) as Hp. pose proof (pruned_length _ _ _ _ _ Hp) as Hlen.
  pose proof Hp as [_ _ Hpos _ _ _ (gone & E & Hg)]. unfold wait_time.
  destruct (Z.ltb_spec (Z.of_nat (length (w_timestamps (prune now w)))) (w_max (prune now w))) as [Hlt|Hge].
  - exists 0. split_and!; [done|lia|]. intros t Ht a Hl Ha. change (w_max (prune now w)) with (w_max w) in Hlt. rewrite E in Ha, Hl. rewrite length_app in Ha, Hl.
    rewrite lookup_app_l in Ha by lia. apply list_elem_of_lookup_2, Hg in Ha. lia.
  - change (w_max (prune now w)) with (w_max w) in Hge. destruct (w_timestamps (prune now w)) as [|oldest ts] eqn:Ets; [cbn in Hge; lia|].
    eexists. split_and!; [done|lia|]. cbn [w_duration prune]. intros t Ht a Hl Ha.
    assert (Z.of_nat (length (oldest :: ts)) <= w_max w) as Hle.
    { apply Hlen. rewrite <- Ets. apply drop_older_recent. destruct Hk as [_ _ _ _ Hi _ (gone' & E' & _)].
      rewrite E' in Hi. by eapply increasing_app_r. }
    rewrite E, length_app in Ha. rewrite lookup_app_r in Ha by lia.
    replace (length gone + length (oldest :: ts) - Z.to_nat (w_max w) - length gone)%nat with 0%nat in Ha by lia.
    injection Ha as ->. lia.
Qed.

Lemma record_sound now t log w : 
  sound now log w -> now < t -> ready w log t -> sound t (log ++ [t]) (record_at t w).
Proof.
  intros [K1 K2 K3 K4 K5 K6 (gone & K7 & K8)] Ht Hr. split; cbn; try done.
  - intros a [Ha%K4|Ha%list_elem_of_singleton]%elem_of_app; lia.
  - apply increasing_snoc; [done|]. intros a Ha%K4. lia.
  - apply spaced_snoc; [lia|done|exact Hr].
  - exists gone. split; [by rewrite app_assoc, <- K7|]. intros a Ha%K8. lia.
Qed.

(** ** Acquiring *)

Definition moving (c : clock) : Prop := forall n, 1 <= c_moves c n.
(** A later instant of the same clock. *)
Definition after (c c' : clock) : Prop := c_now c <= c_now c' /\ c_moves c' = c_moves c.

Lemma after_trans c1 c2 c3 : after c1 c2 -> after c2 c3 -> after c1 c3.
Proof. intros [? E] [? E']. split; [lia|by rewrite E', E]. Qed.
Lemma tick_after c : moving c -> after c (tick_clock c) /\ c_now c < c_now (tick_clock c).
Proof. intros Hm. specialize (Hm (c_used c)). unfold after, tick_clock. cbn. split_and!; [lia|done|lia]. Qed.
Lemma sleep_after wt c : moving c -> after c (if 0 <? wt then sleep wt c else c) /\ (0 <= wt -> c_now c + wt <= c_now (if 0 <? wt then sleep wt c else c)).
Proof. intros Hm. specialize (Hm (c_used c)). unfold after, sleep. destruct (Z.ltb_spec 0 wt); cbn; split_and!; done || lia. Qed.
Lemma after_moving c c' : after c c' -> moving c -> moving c'.
Proof. intros [_ E] Hm n. rewrite E. apply Hm. Qed.

Definition shape (w : window) : Z * Z := (w_duration w, w_max w).

Lemma wait_all_spec logs ws c :
  moving c -> Forall2 (sound (c_now c)) logs ws -> exists ws' c',
  wait_all ws c = Ok (ws', c') /\ after c c' /\ shape <$> ws' = shape <$> ws /\
  Forall2 (fun log w => sound (c_now c') log w /\ forall t, c_now c' < t -> ready w log t) logs ws'.
Proof.
  revert ws c. induction logs as [|log logs IH]; intros ws c Hm Hs.
  - apply Forall2_nil_inv_l in Hs as ->. exists [], c. split_and!; [done|split; [lia|done]|done|constructor].
  - apply Forall2_cons_inv_l in Hs as (w & vs & Hw & Hs & ->). cbn [wait_all].
    destruct (tick_after c Hm) as [A1 L1]. pose proof (after_moving _ _ A1 Hm) as Hm1.
    destruct (wait_time_spec (c_now (tick_clock c)) log w) as (wt & -> & Hwt & Hready); [eapply keeps_later; [exact Hw|apply A1]|].
    cbn [mbind result_bind fst snd]. destruct (sleep_after wt _ Hm1) as [A2 L2]. specialize (L2 Hwt).
    set (c2 := if 0 <? wt then _ else _) in *. pose proof (after_moving _ _ A2 Hm1) as Hm2.
    destruct (IH vs c2 Hm2) as (ws' & c' & -> & A3 & Sh & HF).
    { eapply Forall2_impl; [exact Hs|]. intros l v Hv. eapply keeps_later; [exact Hv|]. destruct A1, A2. lia. }
    eexists _, c'. split; [done|]. split_and!.
    + by eapply after_trans, after_trans.
    + cbn. by rewrite Sh.
    + constructor; [|done]. split.
      * apply (keeps_later _ _ (c_now (tick_clock c))); [|destruct A2, A3; lia]. apply keeps_prune.
        eapply keeps_later; [exact Hw|apply A1].
      * intros t Ht. apply Hready. destruct A3. lia.
Qed.

(** The instants a call to [acquire] adds to the logs of the windows. *)
Definition extend_logs (logs : list (list Z)) (ws : list window) : list (list Z) :=
  zip_with (fun log w => log ++ option_list (last (w_timestamps w))) logs ws.

Lemma record_all_spec logs ws c ws' c' :
  moving c -> record_all ws c = (ws', c') ->
  Forall2 (fun log w => sound (c_now c) log w /\ forall t, c_now c < t -> ready w log t) logs ws ->
  after c c' /\ shape <$> ws' = shape <$> ws /\ Forall2 (sound (c_now c')) (extend_logs logs ws') ws'.
Proof.
  revert ws c ws'. induction logs as [|log logs IH]; intros ws c ws' Hm Hr HF.
  - apply Forall2_nil_inv_l in HF as ->. injection Hr as <- <-. split_and!; [split; [lia|done]|done|constructor].
  - apply Forall2_cons_inv_l in HF as (w & vs & [Hw Hready] & HF & ->). cbn [record_all] in Hr.
    destruct (tick_after c Hm) as [A1 L1]. destruct (record_all vs (tick_clock c)) as [vs' c2] eqn:E. injection Hr as <- <-.
    destruct (IH vs (tick_clock c) vs') as (A2 & Sh & HF'); [by eapply after_moving|done| |].
    { eapply Forall2_impl; [exact HF|]. intros l v [Hv Hrv]. split; [eapply keeps_later; [exact Hv|apply A1]|]. intros t Ht. apply Hrv. lia. }
    split_and!; [by eapply after_trans|cbn; by rewrite Sh|]. unfold extend_logs. cbn [zip_with]. constructor; [|done].
    cbn [record_at w_timestamps]. rewrite last_snoc. cbn [option_list].
    apply (keeps_later _ _ (c_now (tick_clock c))); [|apply A2]. apply (record_sound (c_now c)); [exact Hw|exact L1|by apply Hready].
Qed.

(** ** Histories of a limiter *)

Inductive op := OAcquire (tenant : string) | OThrottled (tenant : string) (retry_after : option Z) | OIdle.

Record history := History { y_limiter : limiter; y_clock : clock; y_logs : gmap string (list (list Z)) }.

Section histories.
Context (fresh : list window).

Definition history_step (y : history) (o : op) : result history :=
  match o with
  | OAcquire tenant =>
      r ← acquire fresh tenant (y_clock y) (y_limiter y);
      let ws := default [] (l_windows r.1 !! tenant) in
      Ok (History r.1 r.2 (<[tenant := extend_logs (default (replicate (length fresh) []) (y_logs y !! tenant)) ws]> (y_logs y)))
  | OThrottled tenant retry_after =>
      let (l, c) := handle_429 tenant retry_after (y_clock y) (y_limiter y) in Ok (History l c (y_logs y))
  | OIdle => Ok (History (y_limiter y) (tick_clock (y_clock y)) (y_logs y))
  end.

Definition start (moves : nat -> Z) (now : Z) : history := History (Limiter ∅ ∅) (Clock now moves 0) ∅.

(** The windows of a tenant match their logs and the defaults. *)
Definition tenant_sound (now : Z) (logs : option (list (list Z))) (ws : option (list window)) : Prop :=
  match logs, ws with
  | None, None => True
  | Some logs, Some ws => Forall2 (sound now) logs ws /\ shape <$> ws = shape <$> fresh
  | _, _ => False
  end.
Definition history_sound (y : history) : Prop :=
  moving (y_clock y) /\ forall t, tenant_sound (c_now (y_clock y)) (y_logs y !! t) (l_windows (y_limiter y) !! t).

Lemma tenant_sound_later now now' logs ws : tenant_sound now logs ws -> now <= now' -> tenant_sound now' logs ws.
Proof.
  unfold tenant_sound. destruct logs, ws; try done. intros [HF Sh] Hn. split; [|done].
  eapply Forall2_impl; [exact HF|]. intros lg v Hv. by eapply keeps_later.
Qed.

Hypothesis fresh_ok : Forall (fun w => w_timestamps w = [] /\ 0 <= w_duration w /\ 1 <= w_max w) fresh.

Lemma fresh_sound now : Forall2 (sound now) (replicate (length fresh) []) fresh.
Proof.
  clear -fresh_ok. induction fresh_ok as [|w ws (E & Hd & Hm) _ IH]; cbn; [constructor|]. constructor; [|exact (IH (Forall_inv_tail fresh_ok))].
  split; try done.
  - intros a. by rewrite elem_of_nil.
  - exists []. split; [by rewrite E|]. intros a. by rewrite elem_of_nil.
Qed.

Lemma history_step_sound y o : history_sound y -> exists y', history_step y o = Ok y' /\ history_sound y'.
Proof.
  intros [Hm Hs]. destruct (tick_after _ Hm) as [A1 _]. destruct o as [t|t r|]; cbn [history_step].
  - unfold acquire. set (c1 := tick_clock (y_clock y)) in *. pose proof (after_moving _ _ A1 Hm) as Hm1.
    set (wait := default 0 _ - _). destruct (sleep_after wait c1 Hm1) as [A2 _]. set (c2 := if 0 <? wait then _ else _) in *.
    pose proof (after_trans _ _ _ A1 A2) as A12. pose proof (after_moving _ _ A12 Hm) as Hm2.
    set (logs := default (replicate _ _) _). set (ws := default fresh _).
    assert (Forall2 (sound (c_now c2)) logs ws /\ shape <$> ws = shape <$> fresh) as [HF Sh].
    { pose proof (tenant_sound_later _ (c_now c2) _ _ (Hs t) (proj1 A12)) as Ht. unfold tenant_sound in Ht. subst logs ws.
      destruct (y_logs y !! t), (l_windows (y_limiter y) !! t); try done. cbn. split; [apply fresh_sound|done]. }
    destruct (wait_all_spec logs ws c2 Hm2 HF) as (ws1 & c3 & -> & A3 & Sh1 & HF1). cbn [mbind result_bind fst snd].
    destruct (record_all ws1 c3) as [ws2 c4] eqn:Er. cbn [fst snd].
    destruct (record_all_spec logs ws1 c3 ws2 c4) as (A4 & Sh2 & HF2); [by eapply after_moving|done|done|].
    eexists. split; [done|]. cbn. rewrite lookup_insert_eq. cbn.
    assert (after (y_clock y) c4) as A by by eapply after_trans, after_trans.
    split; cbn; [by eapply after_moving|]. intros t'. destruct (decide (t' = t)) as [->|Hne].
    + rewrite !lookup_insert_eq. split; [done|congruence].
    + rewrite !lookup_insert_ne by done. eapply tenant_sound_later; [apply Hs|apply A].
  - eexists. split; [done|]. split; cbn; [exact Hm|]. intros t'. eapply tenant_sound_later; [apply Hs|apply A1].
  - eexists. split; [done|]. split; cbn; [exact Hm|]. intros t'. eapply tenant_sound_later; [apply Hs|apply A1].
Qed.

(** [quota_respected]: over any history of a limiter, waits, backoffs and idle
    time included, no call raises, and in no interval as long as one of its
    windows does a tenant make more requests than the limit of the window. *)
Theorem quota_respected moves now os :
  (forall n, 1 <= moves n) -> exists y,
  result_fold history_step (start moves now) os = Ok y /\
  forall tenant logs i log w, y_logs y !! tenant = Some logs -> logs !! i = Some log -> fresh !! i = Some w ->
    forall t, Z.of_nat (in_span t (w_duration w) log) <= w_max w.
Proof.
  intros Hm. assert (history_sound (start moves now)) as Hs by (split; [exact Hm|intros t; cbn; by rewrite !lookup_empty]).
  assert (exists y, result_fold history_step (start moves now) os = Ok y /\ history_sound y) as (y & Hy & Hsy).
  { revert Hs. generalize (start moves now). induction os as [|o os IH]; intros y Hs; [by exists y|].
    destruct (history_step_sound y o Hs) as (y' & Hy' & Hs'). cbn [result_fold]. rewrite Hy'. by apply IH. }
  exists y. split; [done|]. intros tenant logs i log w Hl Hi Hw t.
  destruct Hsy as [_ Hsy]. specialize (Hsy tenant). rewrite Hl in Hsy. unfold tenant_sound in Hsy.
  destruct (l_windows (y_limiter y) !! tenant) as [ws|]; [|done]. destruct Hsy as [HF Sh].
  destruct (Forall2_lookup_l _ _ _ _ _ HF Hi) as (v & Hv & Hk).
  assert (shape v = shape w) as Evw.
  { assert ((shape <$> ws) !! i = (shape <$> fresh) !! i) as E by by rewrite Sh.
    rewrite !list_lookup_fmap, Hv, Hw in E. cbn in E. congruence. }
  injection Evw as Ed Em. rewrite Forall_lookup in fresh_ok. specialize (fresh_ok _ _ Hw).
  destruct Hk as [_ _ K3 _ K5 K6 _]. pose proof (in_span_le t (w_duration v) _ log ltac:(lia) K5 K6). rewrite <- Ed. lia.
Qed.
End histories.

(** A call never ends before the backoff of a 429. *)
Lemma backoff_respected fresh tenant c l u r :
  moving c -> l_retry_until l !! tenant = Some u -> acquire fresh tenant c l = Ok r -> u <= c_now r.2.
Proof.
  intros Hm Hu Ha. unfold acquire in Ha. rewrite Hu in Ha. cbn [default from_option] in Ha. change (id u) with u in Ha.
  set (c1 := tick_clock c) in Ha. assert (moving c1) as Hm1 by (eapply after_moving; [apply tick_after|]; done).
  destruct (sleep_after (u - c_now c1) c1 Hm1) as [A2 L2]. set (c2 := if 0 <? u - c_now c1 then _ else _) in *.
  assert (u <= c_now c2) as Hc2 by (destruct A2; lia).
  assert (moving c2) as Hm2 by by eapply after_moving.
  destruct (wait_all _ c2) as [[ws c3]|] eqn:Ew; [|done]. cbn in Ha. destruct (record_all ws c3) as [ws' c4] eqn:Er. injection Ha as <-. cbn.
  assert (forall vs k vs' k', moving k -> wait_all vs k = Ok (vs', k') -> after k k') as Hw.
  { clear. induction vs as [|v vs IH]; intros k vs' k' Hm; cbn [wait_all].
    - intros [= _ <-]. split; [lia|done].
    - destruct (tick_after k Hm) as [A1 _]. pose proof (after_moving _ _ A1 Hm) as Hm1. intros Hw.
      peel_bind Hw as x Hx. destruct (sleep_after x.2 _ Hm1) as [A2 _]. peel_bind Hw as y Hy. injection Hw as _ <-.
      eapply after_trans; [exact A1|]. eapply after_trans; [exact A2|]. destruct y as [vs2 k2]. eapply IH; [by eapply after_moving|exact Hy]. }
  assert (forall vs k vs' k', moving k -> record_all vs k = (vs', k') -> after k k') as Hr.
  { clear. induction vs as [|v vs IH]; intros k vs' k' Hm; cbn [record_all].
    - intros [= _ <-]. split; [lia|done].
    - destruct (tick_after k Hm) as [A1 _]. destruct (record_all vs (tick_clock k)) as [vs2 k2] eqn:E. intros [= _ <-].
      eapply after_trans; [exact A1|]. eapply IH; [by eapply after_moving|exact E]. }
  pose proof (Hw _ _ _ _ Hm2 Ew) as A3. pose proof (Hr _ _ _ _ (after_moving _ _ A3 Hm2) Er) as A4. destruct A3, A4. lia.
Qed.

(** ** The budget of a minute *)

Section budget.
Context {S : Type} `{RedisLaws S}.

(** Checks of one key, each after a delay, with no loss of connection. *)
Fixpoint checks (k : string) (max : Z) (delays : list Z) (s : S) : list (option Z) :=
  match delays with
  | [] => []
  | d :: delays =>
      let (s', a) := redis_check_and_increment NoLoss k max (r_tick d s) in a :: checks k max delays s'
  end.

Lemma check_counts k max v deadline (s : S) :
  r_entry s k = Some (v, Some deadline) -> 1 <= v -> exists s',
  redis_check_and_increment NoLoss k max s = (s', if max <? v + 1 then Some (Z.max 1 (deadline - r_now s)) else None) /\
  r_entry s' k = Some (v + 1, Some deadline) /\ r_now s' = r_now s.
Proof.
  intros Hk Hv. unfold redis_check_and_increment. pose proof (r_incr_value k s) as Hval. pose proof (r_incr_entry k s k) as Hent.
  pose proof (r_incr_now k s) as Hnow. destruct (r_incr k s) as [s1 n] eqn:E. cbn in Hval, Hent, Hnow.
  rewrite Hk in Hval, Hent. cbn in Hval, Hent. rewrite String.eqb_refl in Hent. subst n.
  rewrite (proj2 (Z.eqb_neq (v + 1) 1)) by lia. cbn [andb]. exists s1. split; [|done].
  unfold r_ttl. rewrite Hent, Hnow. by destruct (max <? v + 1).
Qed.

Lemma check_opens k max (s : S) :
  r_entry s k = None -> 1 <= max -> exists s',
  redis_check_and_increment NoLoss k max s = (s', None) /\ r_entry s' k = Some (1, Some (r_now s + MINUTE_TTL)) /\ r_now s' = r_now s.
Proof.
  intros Hk Hm. unfold redis_check_and_increment. pose proof (r_incr_value k s) as Hval. pose proof (r_incr_entry k s k) as Hent.
  pose proof (r_incr_now k s) as Hnow. destruct (r_incr k s) as [s1 n] eqn:E. cbn in Hval, Hent, Hnow.
  rewrite Hk in Hval, Hent. cbn in Hval, Hent. rewrite String.eqb_refl in Hent. subst n.
  change (0 + 1) with 1. change (1 =? 1) with true. cbn [andb]. rewrite (proj2 (Z.ltb_ge max 1)) by lia. exists (r_expire k MINUTE_TTL s1). split; [done|]. split.
  - rewrite r_expire_entry, String.eqb_refl, Hent by done. cbn. by rewrite Hnow.
  - by rewrite r_expire_now.
Qed.

Lemma checks_counted k max delays v deadline (s : S) :
  r_entry s k = Some (v, Some deadline) -> 1 <= v -> Forall (fun d => 0 <= d) delays -> r_now s + foldr Z.add 0 delays < deadline ->
  forall i a, checks k max delays s !! i = Some a ->
    match a with None => v + Z.of_nat i + 1 <= max | Some r => max <= v + Z.of_nat i /\ 1 <= r <= deadline - r_now s end.
Proof.
  revert v s. induction delays as [|d delays IH]; intros v s Hk Hv Hd Hs i a Ha; [done|].
  apply Forall_cons in Hd as [Hd Hds]. cbn [checks] in Ha. cbn in Hs.
  assert (0 <= foldr Z.add 0 delays) as Hpos by (clear -Hds; induction Hds; cbn; lia).
  assert (r_entry (r_tick d s) k = Some (v, Some deadline)) as Hk' by (apply r_tick_keep; [done|done|lia]).
  destruct (check_counts k max v deadline _ Hk' Hv) as (s' & E & Hk2 & Hn). rewrite E in Ha. rewrite r_tick_now in Hn, E.
  destruct i as [|i]; cbn in Ha.
  - injection Ha as <-. rewrite r_tick_now. destruct (Z.ltb_spec max (v + 1)); lia.
  - specialize (IH (v + 1) s' Hk2 ltac:(lia) Hds ltac:(lia) i a Ha). destruct a; lia.
Qed.

(** [minute_budget]: of the checks of a key within a minute of the first, at
    most [max] pass, the first ones, and each refusal gives a delay that is
    positive and no longer than the minute. *)
Theorem minute_budget k max d delays (s : S) :
  r_entry (r_tick d s) k = None -> 1 <= max -> Forall (fun d => 0 <= d) delays -> foldr Z.add 0 delays < MINUTE_TTL ->
  forall i a, checks k max (d :: delays) s !! i = Some a ->
    match a with None => Z.of_nat i < max | Some r => max <= Z.of_nat i /\ 1 <= r <= MINUTE_TTL end.
Proof.
  intros Hk Hm Hd Hs i a Ha. cbn [checks] in Ha.
  destruct (check_opens k max _ Hk Hm) as (s' & E & Hk' & Hn). rewrite E in Ha. destruct i as [|i]; cbn in Ha.
  - injection Ha as <-. lia.
  - pose proof (checks_counted k max delays 1 _ s' Hk' ltac:(lia) Hd ltac:(lia) i a Ha) as Hc. destruct a; lia.
Qed.

(** An [EXPIRE] that is lost leaves a counter that never expires. *)
Lemma lost_expire_is_permanent k max (s : S) :
  r_entry s k = None -> (redis_check_and_increment LostExpire k max s).2 = None /\
  r_entry (redis_check_and_increment LostExpire k max s).1 k = Some (1, None).
Proof.
  intros Hk. unfold redis_check_and_increment. pose proof (r_incr_value k s) as Hval. pose proof (r_incr_entry k s k) as Hent.
  destruct (r_incr k s) as [s1 n] eqn:E. cbn in Hval, Hent.
  rewrite Hk in Hval, Hent. cbn in Hval, Hent. rewrite String.eqb_refl in Hent. subst n. done.
Qed.

(** Once such a counter passed the limit, every later check is refused, for ever. *)
Lemma permanent_counter_blocks k max v (s : S) :
  r_entry s k = Some (v, None) -> max <= v -> 1 <= v -> exists s',
  redis_check_and_increment NoLoss k max s = (s', Some 1) /\ r_entry s' k = Some (v + 1, None) /\
  forall d, 0 <= d -> r_entry (r_tick d s') k = Some (v + 1, None).
Proof.
  intros Hk Hm Hv. unfold redis_check_and_increment. pose proof (r_incr_value k s) as Hval. pose proof (r_incr_entry k s k) as Hent.
  destruct (r_incr k s) as [s1 n] eqn:E. cbn in Hval, Hent.
  rewrite Hk in Hval, Hent. cbn in Hval, Hent. rewrite String.eqb_refl in Hent. subst n.
  rewrite (proj2 (Z.eqb_neq (v + 1) 1)) by lia. cbn [andb]. rewrite (proj2 (Z.ltb_lt max (v + 1))) by lia.
  exists s1. unfold r_ttl. rewrite Hent. split_and!; [done|done|]. intros d Hd. rewrite r_tick_entry, Hent by done. done.
Qed.

(** Without Redis the check passes: there is no fallback to the local windows. *)
Lemma lost_connection_passes k max (s : S) : redis_check_and_increment LostIncr k max s = (s, None).
Proof. done. Qed.
End budget.

(** ** Witnesses *)

Definition demo_fresh : list window := query_windows 2 3.

Lemma quota_respected_witness : exists y,
  result_fold (history_step demo_fresh) (start (fun _ => 1) 0)
    [OAcquire "t"; OAcquire "t"; OThrottled "t" None; OAcquire "t"; OIdle; OAcquire "t"] = Ok y /\
  y_logs y !! "t" = Some [[4; 9; 60000007; 86400000007]; [5; 10; 60000008; 86400000008]] /\
  forall t, Z.of_nat (in_span t 60000000 [4; 9; 60000007; 86400000007]) <= 2.
Proof.
  assert (Forall (fun w => w_timestamps w = [] /\ 0 <= w_duration w /\ 1 <= w_max w) demo_fresh) as Hf.
  { repeat constructor; cbn; lia. }
  destruct (quota_respected demo_fresh Hf (fun _ => 1) 0
    [OAcquire "t"; OAcquire "t"; OThrottled "t" None; OAcquire "t"; OIdle; OAcquire "t"]) as (y & Hy & Hq); [lia|].
  exists y. split; [exact Hy|]. vm_compute in Hy. injection Hy as <-. split; [vm_compute; reflexivity|].
  intros t. by refine (Hq "t"%string _ 0%nat _ (Window 60000000 2 []) _ _ _ t); [vm_compute; reflexivity|..].
Defined.

Lemma minute_budget_witness :
  checks "k" 2 [0; 10; 20; 5] mem_empty = [None; None; Some 30; Some 25] /\
  forall i a, checks "k" 2 [0; 10; 20; 5] mem_empty !! i = Some a ->
    match a with None => Z.of_nat i < 2 | Some r => 2 <= Z.of_nat i /\ 1 <= r <= MINUTE_TTL end.
Proof.
  split; [vm_compute; reflexivity|]. apply minute_budget; [vm_compute; reflexivity|lia|repeat constructor; lia|vm_compute; reflexivity].
Defined.
