(* ===== verification/Lockout.v ===== *)
(** * Failed logins and lockouts

    The attempt limiter of [core/rate_limiter.py] over Redis
    ([_RedisAttemptStore]) and the login of [routers/auth.py] it protects.  The
    set of user names tried from an address needs the set commands of Redis: the
    class [RedisSets] adds them to [Redis].  Audit rows and alert mails are best
    effort and left out.  The store without Redis (development only) is not
    modelled. *)

From S2P Require Import Prelude PyVal Store Tenancy Accounts RateLimit.

Local Open Scope Z_scope.

(** ** Sets in Redis *)

Class RedisSets (S : Type) `{Redis S} := {
  r_members : S -> string -> option (gset string * Z); (* the members of a live set, and its deadline *)
  r_sadd_expire : string -> string -> Z -> S -> S;     (* SADD and EXPIRE in a transaction *)
}.

Class RedisSetsLaws (S : Type) `{RedisSets S} := {
  r_sadd_members k m ttl s k' : 0 < ttl ->
    r_members (r_sadd_expire k m ttl s) k' =
    if String.eqb k' k then Some ({[m]} ∪ default ∅ (fst <$> r_members s k), r_now s + ttl) else r_members s k';
  r_sadd_entry k m ttl s k' : r_entry (r_sadd_expire k m ttl s) k' = r_entry s k';
  r_sadd_now k m ttl s : r_now (r_sadd_expire k m ttl s) = r_now s;
}.

(** An in-memory store with sets. *)
Record mem_sets := MemSets { ms_store : mem_store; ms_sets : gmap string (gset string * Z) }.

Definition ms_lift (f : mem_store -> mem_store) (s : mem_sets) : mem_sets := MemSets (f (ms_store s)) (ms_sets s).

#[export] Instance mem_sets_redis : Redis mem_sets := {
  r_now s := r_now (ms_store s);
  r_entry s := r_entry (ms_store s);
  r_set_ex k ttl := ms_lift (r_set_ex k ttl);
  r_set_nx_ex k ttl s := let (s', b) := r_set_nx_ex k ttl (ms_store s) in (MemSets s' (ms_sets s), b);
  r_del k := ms_lift (r_del k);
  r_incr k s := let (s', v) := r_incr k (ms_store s) in (MemSets s' (ms_sets s), v);
  r_incrby k n s := let (s', v) := r_incrby k n (ms_store s) in (MemSets s' (ms_sets s), v);
  r_expire k ttl := ms_lift (r_expire k ttl);
  r_tick d := ms_lift (r_tick d);
}.

#[export] Instance mem_sets_laws : RedisLaws mem_sets.
Proof.
  split.
  - done.
  - intros k ttl s. exact (r_set_ex_entry k ttl (ms_store s)).
  - intros k ttl [s sets]. pose proof (r_set_nx_spec k ttl s) as Hn. change (r_entry (MemSets s sets) k) with (r_entry s k).
    change (r_set_nx_ex k ttl (MemSets s sets)) with (let (s', b) := r_set_nx_ex k ttl s in (MemSets s' sets, b)).
    rewrite Hn. by destruct (r_entry s k).
  - done.
  - intros k s. exact (r_del_entry k (ms_store s)).
  - done.
  - intros k s. exact (r_incr_value k (ms_store s)).
  - intros k s. exact (r_incr_entry k (ms_store s)).
  - done.
  - intros k n s. exact (r_incrby_entry k n (ms_store s)).
  - intros k ttl s. exact (r_expire_now k ttl (ms_store s)).
  - intros k ttl s. exact (r_expire_entry k ttl (ms_store s)).
  - done.
  - intros d s k. exact (r_tick_entry d (ms_store s) k).
Qed.

Definition live_members (now : Z) (m : option (gset string * Z)) : option (gset string * Z) :=
  match m with Some (ms, deadline) => if now <? deadline then Some (ms, deadline) else None | None => None end.

#[export] Instance mem_sets_sets : RedisSets mem_sets := {
  r_members s k := live_members (mem_now (ms_store s)) (ms_sets s !! k);
  r_sadd_expire k m ttl s :=
    let now := mem_now (ms_store s) in
    MemSets (ms_store s) (<[k := ({[m]} ∪ default ∅ (fst <$> live_members now (ms_sets s !! k)), now + ttl)]> (ms_sets s));
}.

#[export] Instance mem_sets_sets_laws : RedisSetsLaws mem_sets.
Proof.
  split; [|done|done]. intros k m ttl s k' Ht. cbn. destruct (String.eqb_spec k' k) as [->|Hne].
  - rewrite lookup_insert_eq. cbn. by rewrite (proj2 (Z.ltb_lt _ _)) by lia.
  - by rewrite lookup_insert_ne.
Qed.

(** ** [_RedisAttemptStore] *)

(** [settings.AUTH_FAILURE_LIMIT], [AUTH_FAILURE_WINDOW_SECONDS], [AUTH_LOCKOUT_SECONDS]. *)
Class AttemptSettings := { failure_limit : Z; failure_window : Z; lockout_seconds : Z }.

Definition MAX_DISTINCT_USERS_PER_IP : Z := 50.

Definition cnt_key (key : string) : string := ("auth_fail_cnt:" +:+ key)%string.
Definition lockout_key (key : string) : string := ("auth_lockout:" +:+ key)%string.
Definition ip_lockout_key (ip : string) : string := ("auth_lockout:ip:" +:+ ip)%string.
Definition distinct_users_key (ip : string) : string := ("auth:ip-distinct-users:" +:+ ip)%string.

Section attempts.
Context {S : Type} `{RedisSets S} `{AttemptSettings}.

Definition positive_ttl (k : string) (s : S) : option Z := let ttl := r_ttl s k in if 0 <? ttl then Some ttl else None.

Definition retry_after (key : string) (s : S) : option Z := positive_ttl (lockout_key key) s.
Definition retry_after_ip_lockout (ip : string) (s : S) : option Z := positive_ttl (ip_lockout_key ip) s.
Definition failure_count (key : string) (s : S) : Z := default 0 (fst <$> r_entry s (cnt_key key)).

(** [INCR], with the time to live of the window on the first failure. *)
Definition count_failure (key : string) (s : S) : S * Z :=
  let (s, count) := r_incr (cnt_key key) s in
  (if count =? 1 then r_expire (cnt_key key) failure_window s else s, count).

Definition lock_at_limit (key : string) (count : Z) (s : S) : S * (Z * option Z) :=
  if failure_limit <=? count then (r_set_ex (lockout_key key) lockout_seconds s, (count, Some lockout_seconds))
  else (s, (count, None)).

Definition register_failure (key : string) (s : S) : S * (Z * option Z) :=
  match retry_after key s with
  | Some ttl => (s, (failure_count key s, Some ttl))
  | None => let (s, count) := count_failure key s in lock_at_limit key count s
  end.

Definition register_failure_with_cardinality (key ip username_hash : string) (s : S) : S * (Z * option Z) :=
  match retry_after key s with
  | Some ttl => (s, (failure_count key s, Some ttl))
  | None =>
      let (s, count) := r_incr (cnt_key key) s in
      let s := r_sadd_expire (distinct_users_key ip) username_hash failure_window s in
      let distinct_count := Z.of_nat (size (default ∅ (fst <$> r_members s (distinct_users_key ip)))) in
      let s := if count =? 1 then r_expire (cnt_key key) failure_window s else s in
      if MAX_DISTINCT_USERS_PER_IP <? distinct_count
      then (r_set_ex (ip_lockout_key ip) lockout_seconds s, (count, Some lockout_seconds))
      else lock_at_limit key count s
  end.

(** One [DEL] of both keys. *)
Definition reset (key : string) (s : S) : S := r_del (lockout_key key) (r_del (cnt_key key) s).

(** ** The limiter in a login: [routers/auth.py] *)

(** SHA-256, truncated: [_hash_username]. *)
Context (hash_username : string -> string).

Definition ip_key (ip : string) : string := ("auth:ip:" +:+ ip)%string.
Definition ip_user_key (ip username : string) : string := ("auth:ip-user:" +:+ ip +:+ ":" +:+ hash_username username)%string.
Definition normalized_username (username : string) : string := str_lower (str_strip username).

Definition build_auth_attempt_keys (ip username : string) : list string :=
  ip_key ip :: (if String.eqb (normalized_username username) "" then [] else [ip_user_key ip (normalized_username username)]).

Definition enforce_auth_rate_limit (ip username : string) (s : S) : result unit :=
  let waits := omap id (retry_after_ip_lockout ip s :: map (fun key => retry_after key s) (build_auth_attempt_keys ip username)) in
  raise_if (0 <? foldr Z.max 0 waits) (EHttp 429 "Too many authentication attempts. Please try again later.").

Definition register_auth_failure (ip username : string) (s : S) : S :=
  let s := (register_failure (ip_key ip) s).1 in
  let name := normalized_username username in
  if String.eqb name "" then s else (register_failure_with_cardinality (ip_user_key ip name) ip (hash_username name) s).1.

Definition reset_auth_failures (ip username : string) (s : S) : S :=
  foldl (fun s key => reset key s) s (build_auth_attempt_keys ip username).

Context `{Pbkdf2} `{SessionHash} `{SessionTtl}.

(** The errors of [authenticate] the handler counts: all but an exception of the
    password check itself. *)
Definition counted_failure (e : exn) : bool :=
  match e with EHttp _ _ => true | _ => false end.

(** [login]: the tables and the limiter after it, and its outcome. *)
Definition login (e : entropy) (now : Z) (ip username password : string) (d : db) (s : S) : db * S * result unit :=
  match enforce_auth_rate_limit ip username s with
  | Raise x => (d, s, Raise x)
  | Ok _ =>
      match authenticate username password d with
      | Raise x => (d, if counted_failure x then register_auth_failure ip username s else s, Raise x)
      | Ok u =>
          match create_user_session e now u (delete_expired now d) with
          | Ok d' => (d', reset_auth_failures ip username s, Ok tt)
          | Raise x => (delete_expired now d, s, Raise x)
          end
      end
  end.
End attempts.

(** ** Which keys an attempt touches *)

Section frames.
Context {S : Type} `{RedisLaws S} `{!RedisSets S} `{!RedisSetsLaws S} `{AttemptSettings}.
Hypothesis window_pos : 0 < failure_window.
Hypothesis lockout_pos : 0 < lockout_seconds.

(** [s'] agrees with [s] on the key [x], at the same instant. *)
Definition same_at (x : string) (s s' : S) : Prop := r_entry s' x = r_entry s x /\ r_now s' = r_now s.

Lemma same_at_trans x s1 s2 s3 : same_at x s1 s2 -> same_at x s2 s3 -> same_at x s1 s3.
Proof. intros [E1 N1] [E2 N2]. split; congruence. Qed.
Lemma same_at_incr x k s : x <> k -> same_at x s (r_incr k s).1.
Proof. intros Hx. split; [by apply r_incr_ne|apply r_incr_now]. Qed.
Lemma same_at_expire x k ttl s : 0 < ttl -> x <> k -> same_at x s (r_expire k ttl s).
Proof. intros Ht Hx. split; [by apply r_expire_ne|apply r_expire_now]. Qed.
Lemma same_at_set x k ttl s : 0 < ttl -> x <> k -> same_at x s (r_set_ex k ttl s).
Proof. intros Ht Hx. split; [by apply r_set_ex_ne|apply r_set_ex_now]. Qed.
Lemma same_at_del x k s : x <> k -> same_at x s (r_del k s).
Proof. intros Hx. split; [by apply r_del_ne|apply r_del_now]. Qed.
Lemma same_at_sadd x k m ttl s : same_at x s (r_sadd_expire k m ttl s).
Proof. split; [apply r_sadd_entry|apply r_sadd_now]. Qed.
Lemma same_at_refl x s : same_at x s s.
Proof. done. Qed.

Lemma lock_frame x key count s : x <> lockout_key key -> same_at x s (lock_at_limit key count s).1.
Proof. intros Hx. unfold lock_at_limit. case_match; [by apply same_at_set|done]. Qed.

Lemma register_frame x key s : x <> cnt_key key -> x <> lockout_key key -> same_at x s (register_failure key s).1.
Proof.
  intros Hc Hl. unfold register_failure, count_failure. destruct (retry_after key s); [done|].
  pose proof (same_at_incr x (cnt_key key) s Hc) as Hi. destruct (r_incr _ _) as [s1 count]. cbn [fst] in Hi.
  eapply same_at_trans; [exact Hi|]. eapply same_at_trans; [|by apply lock_frame]. case_match; [by apply same_at_expire|done].
Qed.

Lemma register_card_frame x key ip h s :
  x <> cnt_key key -> x <> lockout_key key -> x <> ip_lockout_key ip -> same_at x s (register_failure_with_cardinality key ip h s).1.
Proof.
  intros Hc Hl Hip. unfold register_failure_with_cardinality. destruct (retry_after key s); [done|].
  pose proof (same_at_incr x (cnt_key key) s Hc) as Hi. destruct (r_incr _ _) as [s1 count]. cbn [fst] in Hi.
  eapply same_at_trans; [exact Hi|].
  eapply same_at_trans; [apply (same_at_sadd x (distinct_users_key ip) h failure_window)|].
  set (s2 := r_sadd_expire (distinct_users_key ip) h failure_window s1). set (s3 := if count =? 1 then _ else s2).
  assert (same_at x s2 s3) as H3 by (subst s3; case_match; [by apply same_at_expire|done]).
  case_match; (eapply same_at_trans; [exact H3|]); [by apply same_at_set|by apply lock_frame].
Qed.

Lemma reset_frame x key s : x <> cnt_key key -> x <> lockout_key key -> same_at x s (reset key s).
Proof. intros Hc Hl. eapply same_at_trans; by apply same_at_del. Qed.

(** The keys of the limiter are apart. *)
Lemma cnt_lock_ne k k' : cnt_key k <> lockout_key k'.
Proof. discriminate. Qed.
Lemma cnt_inj k k' : cnt_key k = cnt_key k' -> k = k'.
Proof. intros [= He]. exact He. Qed.
Lemma lock_inj k k' : lockout_key k = lockout_key k' -> k = k'.
Proof. intros [= He]. exact He. Qed.

(** The two keys of an address. *)
Definition of_ip (ip x : string) : Prop := x = cnt_key (ip_key ip) \/ x = lockout_key (ip_key ip).

Lemma of_ip_not_key ip x key : of_ip ip x -> key <> ip_key ip -> x <> cnt_key key /\ x <> lockout_key key.
Proof.
  intros [-> | ->] Hk; split; intros He; try discriminate He.
  - apply cnt_inj in He. congruence.
  - apply lock_inj in He. congruence.
Qed.
Lemma of_ip_not_ip_lock ip x ip' : of_ip ip x -> x <> ip_lockout_key ip'.
Proof. intros [-> | ->]; discriminate. Qed.
Lemma ip_user_not_ip hash ip ip' name : ip_user_key hash ip name <> ip_key ip'.
Proof. discriminate. Qed.
Lemma ip_key_inj ip ip' : ip_key ip = ip_key ip' -> ip = ip'.
Proof. intros [= He]. exact He. Qed.

(** Another address does not touch the keys of [ip]; the address itself touches
    them with its first key only. *)
Lemma failure_frame hash ip ip' name x s : of_ip ip x -> ip' <> ip -> same_at x s (register_auth_failure hash ip' name s).
Proof.
  intros Hx Hne. unfold register_auth_failure.
  assert (ip_key ip' <> ip_key ip) as Hk by (intros ?%ip_key_inj; done).
  destruct (of_ip_not_key _ _ _ Hx Hk) as [N1 N2]. pose proof (register_frame x _ s N1 N2) as Hfr.
  case_match; [done|]. eapply same_at_trans; [exact Hfr|].
  destruct (of_ip_not_key _ _ _ Hx (ip_user_not_ip hash ip' ip (normalized_username name))) as [N3 N4].
  apply register_card_frame; [done|done|by eapply of_ip_not_ip_lock].
Qed.

Lemma failure_own hash ip name x s :
  of_ip ip x -> same_at x (register_failure (ip_key ip) s).1 (register_auth_failure hash ip name s).
Proof.
  intros Hx. unfold register_auth_failure. case_match; [done|].
  destruct (of_ip_not_key _ _ _ Hx (ip_user_not_ip hash ip ip (normalized_username name))) as [N3 N4].
  apply register_card_frame; [done|done|by eapply of_ip_not_ip_lock].
Qed.

Lemma reset_failures_frame hash ip ip' name x s : of_ip ip x -> ip' <> ip -> same_at x s (reset_auth_failures hash ip' name s).
Proof.
  intros Hx Hne. unfold reset_auth_failures, build_auth_attempt_keys.
  assert (ip_key ip' <> ip_key ip) as Hk by (intros ?%ip_key_inj; done).
  destruct (of_ip_not_key _ _ _ Hx Hk) as [N1 N2]. cbn [foldl]. case_match; cbn [foldl]; [by apply reset_frame|].
  destruct (of_ip_not_key _ _ _ Hx (ip_user_not_ip hash ip' ip (normalized_username name))) as [N3 N4].
  eapply same_at_trans; by apply reset_frame.
Qed.

(** ** Logins in sequence *)

Context (hash : string -> string) `{Pbkdf2} `{SessionHash} `{SessionTtl}.

Inductive event :=
| ELogin (e : entropy) (now : Z) (ip username password : string)
| EIdle (d : Z).

Definition step (st : db * S) (ev : event) : db * S :=
  match ev with
  | ELogin e now ip username password => (login hash e now ip username password st.1 st.2).1
  | EIdle d => (st.1, r_tick d st.2)
  end.
Definition run (evs : list event) (st : db * S) : db * S := fold_left step evs st.

Definition elapsed (evs : list event) : Z := foldr (fun ev n => match ev with EIdle d => d | _ => 0 end + n) 0 evs.
Definition forward (evs : list event) : Prop := Forall (fun ev => match ev with EIdle d => 0 <= d | _ => True end) evs.

(** A login from [ip] that fails and is counted, or that succeeds. *)
Definition fails_from (ip : string) (st : db * S) (ev : event) : bool :=
  match ev with
  | ELogin _ _ ip' username password =>
      String.eqb ip' ip && is_ok (enforce_auth_rate_limit hash ip' username st.2) &&
      match authenticate username password st.1 with Raise x => counted_failure x | Ok _ => false end
  | EIdle _ => false
  end.
Definition succeeds_from (ip : string) (st : db * S) (ev : event) : bool :=
  match ev with
  | ELogin e now ip' username password => String.eqb ip' ip && is_ok (login hash e now ip' username password st.1 st.2).2
  | EIdle _ => false
  end.

Fixpoint failures (ip : string) (evs : list event) (st : db * S) : Z :=
  match evs with
  | [] => 0
  | ev :: evs => (if fails_from ip st ev then 1 else 0) + failures ip evs (step st ev)
  end.
Fixpoint no_success (ip : string) (evs : list event) (st : db * S) : Prop :=
  match evs with
  | [] => True
  | ev :: evs => succeeds_from ip st ev = false /\ no_success ip evs (step st ev)
  end.

(** *** Counting *)

(** [c] failures of the window opened after [t0] are counted, and there is no lock. *)
Definition counting (ip : string) (c t0 : Z) (s : S) : Prop :=
  r_entry s (lockout_key (ip_key ip)) = None /\ t0 <= r_now s /\
  ((c = 0 /\ r_entry s (cnt_key (ip_key ip)) = None) \/
   (1 <= c /\ exists deadline, r_entry s (cnt_key (ip_key ip)) = Some (c, Some deadline) /\ t0 + failure_window <= deadline)).

(** The address is locked until [deadline]. *)
Definition locked_until (ip : string) (deadline : Z) (s : S) : Prop :=
  (exists v, r_entry s (lockout_key (ip_key ip)) = Some (v, Some deadline)) /\ r_now s < deadline.

Lemma counting_same ip c t0 s s' :
  same_at (cnt_key (ip_key ip)) s s' -> same_at (lockout_key (ip_key ip)) s s' -> counting ip c t0 s -> counting ip c t0 s'.
Proof. intros [E1 N1] [E2 N2]. unfold counting. by rewrite E1, E2, N1. Qed.

Lemma locked_same ip deadline s s' : same_at (lockout_key (ip_key ip)) s s' -> locked_until ip deadline s -> locked_until ip deadline s'.
Proof. intros [E N]. unfold locked_until. by rewrite E, N. Qed.

Lemma cnt_of ip : of_ip ip (cnt_key (ip_key ip)).
Proof. by left. Qed.
Lemma lock_of ip : of_ip ip (lockout_key (ip_key ip)).
Proof. by right. Qed.

Lemma counting_tick ip c t0 d s : 0 <= d -> r_now s + d < t0 + failure_window -> counting ip c t0 s -> counting ip c t0 (r_tick d s).
Proof.
  intros Hd Hlt (Hl & Ht & Hc). split_and!.
  - by rewrite r_tick_entry, Hl.
  - rewrite r_tick_now. lia.
  - destruct Hc as [[-> Hc]|(Hc & dl & Hk & Hdl)]; [left; split; [done|]; by rewrite r_tick_entry, Hc|right].
    split; [done|]. exists dl. split; [|done]. apply r_tick_keep; [done|done|lia].
Qed.

(** One more failure: counted below the limit, locked at it. *)
Lemma counting_register ip c t0 s :
  0 <= c < failure_limit -> counting ip c t0 s ->
  let s' := (register_failure (ip_key ip) s).1 in
  r_now s' = r_now s /\ (if c + 1 <? failure_limit then counting ip (c + 1) t0 s' else locked_until ip (r_now s + lockout_seconds) s').
Proof.
  intros Hr (Hl & Ht & Hc). unfold register_failure, retry_after, positive_ttl, r_ttl, count_failure. rewrite Hl. cbn [Z.ltb Z.compare].
  set (ck := cnt_key (ip_key ip)) in *. set (lk := lockout_key (ip_key ip)) in *.
  pose proof (r_incr_value ck s) as Hval. pose proof (r_incr_entry ck s ck) as Hent. pose proof (r_incr_now ck s) as Hnow.
  pose proof (same_at_incr lk ck s (not_eq_sym (cnt_lock_ne _ _))) as [Hlock _].
  destruct (r_incr ck s) as [s1 n]. cbn [fst snd] in Hval, Hent, Hnow, Hlock. rewrite String.eqb_refl in Hent.
  assert (exists s2, (if n =? 1 then r_expire ck failure_window s1 else s1) = s2 /\ r_now s2 = r_now s /\ n = c + 1 /\
            r_entry s2 lk = None /\ exists dl, r_entry s2 ck = Some (c + 1, Some dl) /\ t0 + failure_window <= dl) as (s2 & -> & Hn2 & -> & Hl2 & dl & Hk2 & Hdl).
  { destruct Hc as [[-> Hk]|(Hc & dl & Hk & Hdl)]; rewrite Hk in Hval, Hent; cbn in Hval, Hent; subst n.
    - exists (r_expire ck failure_window s1). split_and!; [done|by rewrite r_expire_now|done| |].
      + rewrite r_expire_ne by done || apply not_eq_sym, cnt_lock_ne. by rewrite Hlock.
      + exists (r_now s + failure_window). rewrite r_expire_entry, String.eqb_refl, Hent, Hnow by done. split; [done|lia].
    - rewrite (proj2 (Z.eqb_neq (c + 1) 1)) by lia. exists s1. split_and!; [done|done|done|by rewrite Hlock|]. by exists dl. }
  unfold lock_at_limit. destruct (Z.ltb_spec (c + 1) failure_limit) as [Hlt|Hge].
  - rewrite (proj2 (Z.leb_gt _ _)) by done. cbn [fst]. split; [done|]. split_and!; [done|lia|]. right. split; [lia|]. by exists dl.
  - rewrite (proj2 (Z.leb_le _ _)) by done. cbn [fst]. fold lk. split; [by rewrite r_set_ex_now|]. split.
    + exists 1. unfold lk. rewrite r_set_ex_eq by done. by rewrite Hn2.
    + rewrite r_set_ex_now. lia.
Qed.

(** What a login does to the keys of [ip]. *)
Lemma login_keys ip e now ip' name pw d s x :
  of_ip ip x -> succeeds_from ip (d, s) (ELogin e now ip' name pw) = false ->
  let s' := (login hash e now ip' name pw d s).1.2 in
  if fails_from ip (d, s) (ELogin e now ip' name pw) then same_at x (register_failure (ip_key ip) s).1 s' else same_at x s s'.
Proof.
  intros Hx. unfold succeeds_from, fails_from, login. cbn [fst snd].
  destruct (enforce_auth_rate_limit hash ip' name s) as [u0|x0]; cbn [is_ok]; [|by rewrite !andb_false_r].
  rewrite andb_true_r. destruct (authenticate name pw d) as [u|x1].
  - rewrite !andb_false_r. destruct (create_user_session e now u (delete_expired now d)); cbn [is_ok fst snd]; [|done].
    rewrite andb_true_r. intros Hne%String.eqb_neq. by apply (reset_failures_frame hash ip).
  - intros _. destruct (String.eqb_spec ip' ip) as [->|Hne]; cbn [andb fst snd].
    + destruct (counted_failure x1); [by apply failure_own|done].
    + destruct (counted_failure x1); [by apply (failure_frame hash ip)|done].
Qed.

Lemma counting_login ip c t0 e now ip' name pw d s :
  0 <= c < failure_limit -> counting ip c t0 s -> succeeds_from ip (d, s) (ELogin e now ip' name pw) = false ->
  let s' := (login hash e now ip' name pw d s).1.2 in
  r_now s' = r_now s /\
  (if fails_from ip (d, s) (ELogin e now ip' name pw)
   then if c + 1 <? failure_limit then counting ip (c + 1) t0 s' else locked_until ip (r_now s + lockout_seconds) s'
   else counting ip c t0 s').
Proof.
  intros Hr Hc Hsucc. pose proof (login_keys ip e now ip' name pw d s _ (cnt_of ip) Hsucc) as H1c.
  pose proof (login_keys ip e now ip' name pw d s _ (lock_of ip) Hsucc) as H1l. cbn zeta in *.
  destruct (fails_from ip (d, s) (ELogin e now ip' name pw)).
  - destruct (counting_register ip c t0 s Hr Hc) as [Hn Hreg]. split; [destruct H1c as [_ N]; congruence|].
    destruct (c + 1 <? failure_limit); [by eapply counting_same|by eapply locked_same].
  - split; [by destruct H1c|by eapply counting_same].
Qed.

(** *** Locked *)

Lemma fold_max_ge l x : x ∈ l -> x <= foldr Z.max 0 l.
Proof. induction l as [|y l IH]; [by rewrite elem_of_nil|]. cbn. intros [->|Hx]%elem_of_cons; [lia|]. specialize (IH Hx). lia. Qed.

Lemma locked_enforce ip deadline name s :
  locked_until ip deadline s -> exists code, enforce_auth_rate_limit hash ip name s = Raise (EHttp 429 code).
Proof.
  intros [[v Hl] Hd]. exists "Too many authentication attempts. Please try again later."%string. unfold enforce_auth_rate_limit.
  assert (retry_after (ip_key ip) s = Some (deadline - r_now s)) as Hr.
  { unfold retry_after, positive_ttl, r_ttl. rewrite Hl. by rewrite (proj2 (Z.ltb_lt _ _)) by lia. }
  set (waits := omap id _).
  assert (deadline - r_now s ∈ waits) as Hin.
  { apply list_elem_of_omap. exists (Some (deadline - r_now s)). split; [|done]. unfold build_auth_attempt_keys. cbn [map].
    rewrite Hr. right. left. }
  apply fold_max_ge in Hin. by rewrite (proj2 (Z.ltb_lt _ _)) by lia.
Qed.

Lemma locked_step ip deadline st ev :
  match ev with EIdle d => 0 <= d /\ r_now st.2 + d < deadline | ELogin _ _ _ _ _ => True end ->
  locked_until ip deadline st.2 -> locked_until ip deadline (step st ev).2.
Proof.
  destruct ev as [e now ip' name pw|d]; cbn.
  - intros _ Hlk. destruct st as [d s]. cbn in *. destruct (decide (ip' = ip)) as [->|Hne].
    + unfold login. destruct (locked_enforce _ _ name _ Hlk) as [code ->]. done.
    + unfold login. destruct (enforce_auth_rate_limit hash ip' name s); [|done]. destruct (authenticate name pw d) as [u|x].
      * destruct (create_user_session e now u (delete_expired now d)); cbn; [|done].
        eapply locked_same; [|done]. by apply (reset_failures_frame hash ip), Hne; right.
      * cbn. destruct (counted_failure x); [|done]. eapply locked_same; [|done]. by apply (failure_frame hash ip), Hne; right.
  - intros [Hd Hlt] [[v Hk] Hl]. split; [exists v; by apply r_tick_keep|]. rewrite r_tick_now. lia.
Qed.

Lemma elapsed_pos evs : forward evs -> 0 <= elapsed evs.
Proof. unfold elapsed. induction 1 as [|[] evs Hd _ IH]; cbn; lia. Qed.

(** Logins take no time on the clock of the store. *)
Lemma lockout_step_now st ev : r_now (step st ev).2 = r_now st.2 + match ev with EIdle d => d | ELogin _ _ _ _ _ => 0 end.
Proof.
  destruct ev as [e now ip name pw|d]; cbn; [|apply r_tick_now]. rewrite Z.add_0_r. unfold login.
  destruct (enforce_auth_rate_limit hash ip name st.2); [|done]. destruct (authenticate name pw st.1) as [u|x].
  - destruct (create_user_session e now u _); cbn; [|done].
    unfold reset_auth_failures, build_auth_attempt_keys, reset. case_match; cbn; by rewrite !r_del_now.
  - cbn. destruct (counted_failure x); [|done].
    destruct (failure_own hash ip name _ st.2 (cnt_of ip)) as [_ ->].
    unfold register_failure, count_failure. destruct (retry_after _ _); [done|].
    pose proof (r_incr_now (cnt_key (ip_key ip)) st.2) as Hn. destruct (r_incr _ _) as [s1 n]. cbn in Hn.
    unfold lock_at_limit. repeat case_match; cbn; rewrite ?r_set_ex_now, ?r_expire_now; done.
Qed.

Lemma locked_run ip deadline evs st :
  forward evs -> r_now st.2 + elapsed evs < deadline -> locked_until ip deadline st.2 -> locked_until ip deadline (run evs st).2.
Proof.
  revert st. induction evs as [|ev evs IH]; intros st Hf He Hl; [done|]. apply Forall_cons in Hf as [Hd Hf].
  pose proof (elapsed_pos evs Hf). cbn [run fold_left]. apply IH; [done| |].
  - rewrite lockout_step_now. cbn in He. unfold elapsed in *. destruct ev; lia.
  - apply locked_step; [|done]. cbn in He. unfold elapsed in *. destruct ev; [done|]. lia.
Qed.

Lemma counting_run ip c t0 evs st :
  0 <= c -> forward evs -> r_now st.2 + elapsed evs < t0 + failure_window -> no_success ip evs st ->
  c + failures ip evs st < failure_limit -> counting ip c t0 st.2 ->
  counting ip (c + failures ip evs st) t0 (run evs st).2 /\ r_now (run evs st).2 = r_now st.2 + elapsed evs.
Proof.
  assert (forall evs st, 0 <= failures ip evs st) as Hpos.
  { clear. induction evs as [|ev evs IH]; intros st; cbn; [lia|]. specialize (IH (step st ev)). case_match; lia. }
  revert c st. induction evs as [|ev evs IH]; intros c st Hc Hf He Hs Hl Hk.
  { cbn. rewrite !Z.add_0_r. done. }
  apply Forall_cons in Hf as [Hd Hf]. destruct Hs as [Hs1 Hs2]. pose proof (elapsed_pos evs Hf). cbn [failures] in Hl |- *.
  pose proof (Hpos evs (step st ev)). pose proof (lockout_step_now st ev) as Hn.
  assert (counting ip (c + if fails_from ip st ev then 1 else 0) t0 (step st ev).2) as Hk'.
  { destruct ev as [e now ip' name pw|d].
    - destruct st as [d s]. pose proof (counting_login ip c t0 e now ip' name pw d s) as Hlog. cbn [step fst snd] in *.
      destruct Hlog as [_ Hlog]; [destruct (fails_from _ _ _); lia|done|done|].
      destruct (fails_from ip (d, s) _); [|by rewrite Z.add_0_r]. by rewrite (proj2 (Z.ltb_lt _ _)) in Hlog by lia.
    - cbn. rewrite Z.add_0_r. apply counting_tick; [done| |done]. cbn in He. unfold elapsed in *. lia. }
  assert (0 <= (if fails_from ip st ev then 1 else 0)) by (case_match; lia).
  destruct (IH (c + if fails_from ip st ev then 1 else 0) (step st ev)) as [Hk2 Hn2];
    [lia|done|rewrite Hn; cbn in He; unfold elapsed in *; destruct ev; lia|done|lia|done|].
  cbn [run fold_left]. split; [by rewrite Z.add_assoc|]. unfold run in Hn2. rewrite Hn2, Hn. cbn. unfold elapsed. destruct ev; lia.
Qed.

(** [ip_lockout]: when the failed logins from an address reach the limit
    within the window, with no success in between and whatever other addresses
    do, then until the lockout ends every login from the address is refused with
    429, the right password included, and changes nothing. *)
Theorem ip_lockout ip evs last later st :
  r_entry st.2 (cnt_key (ip_key ip)) = None -> r_entry st.2 (lockout_key (ip_key ip)) = None ->
  forward evs -> elapsed evs < failure_window -> no_success ip evs st -> failures ip evs st = failure_limit - 1 ->
  fails_from ip (run evs st) last = true ->
  forward later -> elapsed later < lockout_seconds ->
  let st' := run later (step (run evs st) last) in
  forall e now name pw, exists code, login hash e now ip name pw st'.1 st'.2 = (st', Raise (EHttp 429 code)).
Proof.
  intros Hc Hl Hf He Hs Hn Hlast Hf2 He2 st' e now name pw.
  assert (0 <= failures ip evs st) as Hpos.
  { clear. revert st. induction evs as [|ev evs IH]; intros st; cbn; [lia|]. specialize (IH (step st ev)). case_match; lia. }
  destruct (counting_run ip 0 (r_now st.2) evs st) as [Hk Hnow]; [lia|done|lia|done|lia|by split_and!; [|lia|left]|].
  assert (locked_until ip (r_now (run evs st).2 + lockout_seconds) (step (run evs st) last).2) as Hlk.
  { destruct last as [e' now' ip' name' pw'|d]; [|done]. set (st1 := run evs st) in *. destruct st1 as [d s] eqn:E.
    assert (succeeds_from ip (d, s) (ELogin e' now' ip' name' pw') = false) as Hsf.
    { clear -Hlast. unfold fails_from, succeeds_from, login in *. cbn [fst snd] in *. bool_simpl.
      destruct (enforce_auth_rate_limit _ _ _ _); [|done]. destruct (authenticate _ _ _); [done|]. by rewrite andb_false_r. }
    destruct (counting_login ip (0 + failures ip evs st) (r_now st.2) e' now' ip' name' pw' d s) as [_ Hlog]; [lia|done|done|].
    rewrite Hlast in Hlog. by rewrite (proj2 (Z.ltb_ge _ _)) in Hlog by lia. }
  assert (locked_until ip (r_now (run evs st).2 + lockout_seconds) st'.2) as Hlk'.
  { apply locked_run; [done| |done]. rewrite lockout_step_now. destruct last as [|d]; [lia|done]. }
  destruct (locked_enforce _ _ name _ Hlk') as [code Hcode]. exists code. unfold login. rewrite Hcode. by destruct st'.
Qed.
End frames.

(** ** An account without a password *)

(** For a federated account the password check raises: the server answers 500,
    and the attempt is not counted. *)
Lemma federated_login_uncounted {S : Type} `{RedisSets S} `{AttemptSettings} `{Pbkdf2} `{SessionHash} `{SessionTtl} hash e now ip name pw d (s : S) u v :
  enforce_auth_rate_limit hash ip name s = Ok v -> get_by_username name d = Some u -> u_password_hash u = None ->
  login hash e now ip name pw d s = (d, s, Raise EAttribute).
Proof.
  intros He Hu Hp. unfold login, authenticate. rewrite He. destruct (users d) as [|w l] eqn:El.
  - unfold get_by_username in Hu. by rewrite El in Hu.
  - cbn [raise_if mbind result_bind]. by rewrite Hu, Hp.
Qed.

(** ** Witnesses *)

#[local] Instance demo_pbkdf2 : Pbkdf2 := fun password salt _ => (password +:+ salt)%string.
#[local] Instance demo_session_hash : SessionHash := id.
#[local] Instance demo_ttl : SessionTtl := 12.
#[local] Instance demo_settings : AttemptSettings := {| failure_limit := 2; failure_window := 300; lockout_seconds := 300 |}.

Definition demo_accounts : db :=
  Db [AppUser 1 "uuid" "root" None None "local" None (Some (hash_password "salt" "secret")) None "admin" false true] [] [] [] [] 2.
Definition demo_start : db * mem_sets := (demo_accounts, MemSets mem_empty ∅).
Definition demo_attempt (ip password : string) : event := ELogin (Entropy "" "" "cookie") 0 ip "root" password.

(** The right password logs in from another address, not from the locked one. *)
Lemma ip_lockout_witness :
  let evs := [demo_attempt "10.0.0.1" "guess"; EIdle 10; demo_attempt "10.0.0.2" "other"] in
  let st' := run id [EIdle 100] (step id (run id evs demo_start) (demo_attempt "10.0.0.1" "again")) in
  is_ok (login id (Entropy "" "" "c") 0 "10.0.0.2" "root" "secret" st'.1 st'.2).2 = true /\
  exists code, login id (Entropy "" "" "c") 0 "10.0.0.1" "root" "secret" st'.1 st'.2 = (st', Raise (EHttp 429 code)).
Proof.
  intros evs st'. split; [vm_compute; reflexivity|].
  apply (ip_lockout ltac:(done) ltac:(done) id "10.0.0.1" evs (demo_attempt "10.0.0.1" "again") [EIdle 100] demo_start);
    try (vm_compute; reflexivity).
  - repeat constructor; lia.
  - by vm_compute.
  - repeat constructor; lia.
Defined.
