(* ===== verification/Syslog.v ===== *)
(** * Parsing a syslog line

    [syslog/parser.py]: RFC 5424 with structured data, RFC 3164, CEF and LEEF
    payloads, and the octet count of the TCP framing.  An index into the text is
    the suffix that starts there.  The regular expressions of the module have one
    way to match, so each is a chain of scanners.  [datetime.fromisoformat]
    ([FromIso]), the decoding of UTF-8 and the rendering of an instant are
    parameters.  A delimiter of LEEF may lie outside the 8-bit texts of this
    model; it then occurs in none. *)

From S2P Require Import Prelude PyVal Text Operators Boundary.

Local Open Scope Z_scope.

(** ** Scanners *)

Definition is_digit10 (a : ascii) : bool := in_range 48 57 a.

(** The longest prefix of at most [n] characters that satisfy [p], and the rest. *)
Fixpoint span_max (n : nat) (p : ascii -> bool) (s : string) : string * string :=
  match n, s with
  | S n', String a s' => if p a then let (x, y) := span_max n' p s' in (String a x, y) else (EmptyString, s)
  | _, _ => (EmptyString, s)
  end.
Fixpoint span (p : ascii -> bool) (s : string) : string * string :=
  match s with
  | String a s' => if p a then let (x, y) := span p s' in (String a x, y) else (EmptyString, s)
  | EmptyString => (EmptyString, EmptyString)
  end.

(** One or more, as [p+] or [p{1,n}]. *)
Definition some_of (r : string * string) : option (string * string) :=
  match r.1 with EmptyString => None | _ => Some r end.
Definition many1 (p : ascii -> bool) (s : string) : option (string * string) := some_of (span p s).
Definition upto (n : nat) (p : ascii -> bool) (s : string) : option (string * string) := some_of (span_max n p s).
Definition exactly (n : nat) (p : ascii -> bool) (s : string) : option (string * string) :=
  let r := span_max n p s in if (String.length r.1 =? n)%nat then Some r else None.
Definition char (c : ascii) (s : string) : option string :=
  match s with String a s' => if Ascii.eqb a c then Some s' else None | EmptyString => None end.

Definition not_space (a : ascii) : bool := negb (is_space a).
(** [\s+] and [\S+]. *)
Definition blanks (s : string) : option string := snd <$> many1 is_space s.
Definition token (s : string) : option (string * string) := many1 not_space s.

(** [int(x)] of a run of digits. *)
Definition digits_value (s : string) : Z := default 0 (py_int_of_str s).

(** [<(\d{1,3})>]. *)
Definition scan_pri (s : string) : option (Z * string) :=
  s ← char "<" s; '(d, s) ← upto 3 is_digit10 s; s ← char ">" s; Some (digits_value d, s).

(** ** Framing *)

(** [_OCTET_RE] on the first nine bytes: the count, and what follows the blank. *)
Definition strip_octet_count (line : string) : string * option Z :=
  match upto 7 is_digit10 (str_take 9 line) with
  | Some (d, String a _) =>
      if is_space a && (N_of_ascii a <? 128)%N then
        let n := digits_value d in
        let body := str_drop (S (String.length d)) line in
        (str_take (Z.to_nat n) body, Some n)
      else (line, None)
  | _ => (line, None)
  end.

(** ** Priority *)

Definition FACILITY_NAMES : list string :=
  ["kern"; "user"; "mail"; "daemon"; "auth"; "syslog"; "lpr"; "news"; "uucp"; "cron"; "authpriv"; "ftp"; "ntp"; "audit";
   "alert"; "clock"; "local0"; "local1"; "local2"; "local3"; "local4"; "local5"; "local6"; "local7"].
Definition SEVERITY_NAMES : list string :=
  ["emergency"; "alert"; "critical"; "error"; "warning"; "notice"; "informational"; "debug"].

Record priority := Priority { pri : Z; facility : Z; facility_name : string; severity : Z; severity_name : string }.

(** [None]: all five fields are [None]. *)
Definition pri_fields (p : option Z) : option priority :=
  match p with
  | None => None
  | Some p =>
      if (p <? 0) || (191 <? p) then None
      else let fac := p / 8 in let sev := p mod 8 in
           Some (Priority p fac (default (str_of_Z fac) (FACILITY_NAMES !! Z.to_nat fac)) sev
                   (default "" (SEVERITY_NAMES !! Z.to_nat sev)))
  end.

(** ** Times *)

(** The rendering of an instant, to the millisecond, with a [Z]. *)
Class IsoMillis := iso_millis : Z -> string.

Section times.
Context `{FromIso} `{IsoMillis}.

(** [_iso] of a [datetime] with or without a zone: [astimezone] may overflow. *)
Definition iso (local : Z) (offset : option Z) : result string :=
  match offset with None => Ok (iso_millis local) | Some o => iso_millis <$> to_utc local o end.

Fixpoint replace_Z (s : string) : string :=
  match s with
  | EmptyString => EmptyString
  | String a s' => if Ascii.eqb a "Z" then ("+00:00" +:+ replace_Z s')%string else String a (replace_Z s')
  end.

(** Only [ValueError] is caught. *)
Definition parse_5424_ts (ts : string) : result (option string) :=
  if String.eqb ts "-" then Ok None
  else match from_iso (replace_Z ts) with
       | None => Ok None
       | Some (local, offset) => Some <$> iso local offset
       end.

(** *** The proleptic Gregorian calendar *)

Definition is_leap (y : Z) : bool := (y mod 4 =? 0) && (negb (y mod 100 =? 0) || (y mod 400 =? 0)).
Definition days_before_month (y m : Z) : Z :=
  nth (Z.to_nat m) [0; 0; 31; 59; 90; 120; 151; 181; 212; 243; 273; 304; 334] 0 + (if (2 <? m) && is_leap y then 1 else 0).
Definition days_in_month (y m : Z) : Z :=
  if m =? 2 then (if is_leap y then 29 else 28) else nth (Z.to_nat m) [0; 31; 28; 31; 30; 31; 30; 31; 31; 30; 31; 30; 31] 0.
Definition days_before_year (y : Z) : Z := let n := y - 1 in n * 365 + n / 4 - n / 100 + n / 400.
Definition DAY : Z := 86400 * 1000000.

(** [datetime(y, m, d, h, mi, s)] as microseconds since the year 1, or a [ValueError]. *)
Definition make_datetime (y m d h mi s : Z) : option Z :=
  if (1 <=? y) && (y <=? 9999) && (1 <=? m) && (m <=? 12) && (1 <=? d) && (d <=? days_in_month y m)
     && (0 <=? h) && (h <? 24) && (0 <=? mi) && (mi <? 60) && (0 <=? s) && (s <? 60)
  then Some ((days_before_year y + days_before_month y m + d - 1) * DAY + (h * 3600 + mi * 60 + s) * 1000000)
  else None.

Definition MONTHS : list string := ["Jan"; "Feb"; "Mar"; "Apr"; "May"; "Jun"; "Jul"; "Aug"; "Sep"; "Oct"; "Nov"; "Dec"].
Fixpoint month_number (n : Z) (months : list string) (m : string) : option Z :=
  match months with [] => None | x :: l => if String.eqb x m then Some n else month_number (n + 1) l m end.

(** A stamp as [_RFC3164_RE] matched it: its month and its numbers. *)
Record stamp := Stamp { st_month : string; st_day : Z; st_hour : Z; st_minute : Z; st_second : Z }.

(** [now], an instant of the year [now_year]. *)
Definition parse_3164_ts (now_year now : Z) (ts : stamp) : option string :=
  month ← month_number 1 MONTHS (st_month ts);
  let at_year y := make_datetime y month (st_day ts) (st_hour ts) (st_minute ts) (st_second ts) in
  dt ← at_year now_year;
  dt ← (if (now / 1000000 * 1000000 <? dt) && (1 <? (dt - now) / DAY) then at_year (now_year - 1) else Some dt);
  Some (iso_millis dt).
End times.

(** ** Structured data *)

(** The text between the quotes from [s], and what follows the closing one. *)
Fixpoint sd_value (s : string) : string * string :=
  match s with
  | EmptyString => (EmptyString, EmptyString)
  | String a s' =>
      if Ascii.eqb a dquote_char then (EmptyString, s')
      else if Ascii.eqb a "\" then
        match s' with
        | String b s'' =>
            if Ascii.eqb b dquote_char || Ascii.eqb b "]" || Ascii.eqb b "\"
            then let (v, r) := sd_value s'' in (String b v, r)
            else let (v, r) := sd_value s' in (String a v, r)
        | EmptyString => (String a EmptyString, EmptyString)
        end
      else let (v, r) := sd_value s' in (String a v, r)
  end.

Definition sd_params := list (string * string).
Definition structured_data := list (string * sd_params).

(** The parameters of one element: those read, the rest, and whether the parser
    gave up and returns the rest as the message.  Each round consumes its ["="]. *)
Fixpoint parse_params (fuel : nat) (s : string) (params : sd_params) : option (sd_params * string * bool) :=
  match fuel with
  | 0%nat => None
  | S fuel' =>
      match s with
      | EmptyString => Some (params, s, false)
      | String a _ =>
          if Ascii.eqb a "]" then Some (params, s, false)
          else
            let s := (span (Ascii.eqb " ") s).2 in
            if match s with String b _ => Ascii.eqb b "]" | EmptyString => false end then Some (params, s, false)
            else match str_cut "=" s with
                 | None => Some (params, s, true)
                 | Some (name, after) =>
                     match char dquote_char after with
                     | None => Some (params, s, true)
                     | Some body => let (v, rest) := sd_value body in parse_params fuel' rest (dict_set name v params)
                     end
                 end
      end
  end.

Definition id_char (a : ascii) : bool := negb (Ascii.eqb a " " || Ascii.eqb a "]").

Fixpoint parse_elements (fuel : nat) (rest : string) (sd : structured_data) : option (structured_data * string) :=
  match fuel with
  | 0%nat => None
  | S fuel' =>
      match rest with
      | String a s =>
          if Ascii.eqb a "[" then
            let (sd_id, s) := span id_char s in
            match parse_params (S (String.length s)) s [] with
            | None => None
            | Some (_, s, true) => Some (sd, s)
            | Some (params, s, false) => parse_elements fuel' (str_drop 1 s) (dict_set sd_id params sd)
            end
          else Some (sd, str_lstrip rest)
      | EmptyString => Some (sd, EmptyString)
      end
  end.

(** [None] would be a run out of fuel; there is none. *)
Definition parse_structured_data (rest : string) : option (structured_data * string) :=
  match char "-" rest with
  | Some s => Some ([], str_lstrip s)
  | None => parse_elements (S (String.length rest)) rest []
  end.

(** ** CEF and LEEF *)

(** [v.replace("\\c", c)]: a backslash before [c] goes. *)
Fixpoint unescape (c : ascii) (s : string) : string :=
  match s with
  | String a s' =>
      match s' with
      | String b s'' =>
          if Ascii.eqb a "\" && Ascii.eqb b c then String c (unescape c s'') else String a (unescape c s')
      | EmptyString => s
      end
  | EmptyString => EmptyString
  end.

Definition key_char (a : ascii) : bool :=
  in_range 65 90 a || in_range 97 122 a || in_range 48 57 a || Ascii.eqb a "_" || Ascii.eqb a ".".
(** The look-ahead [[A-Za-z0-9_.]+=]. *)
Definition key_ahead (s : string) : bool :=
  match many1 key_char s with Some (_, s) => bool_decide (is_Some (char "=" s)) | None => false end.

(** [re.split(r"\s+(?=[A-Za-z0-9_.]+=)", s)]; [dropping]: within a run of blanks that separates. *)
Fixpoint split_pairs (dropping : bool) (s : string) : list string :=
  match s with
  | EmptyString => [EmptyString]
  | String a s' =>
      if is_space a && dropping then split_pairs true s'
      else if is_space a && key_ahead (str_lstrip s') then EmptyString :: split_pairs true s'
      else match split_pairs false s' with w :: ws => String a w :: ws | [] => [String a EmptyString] end
  end.

(** [s.split(sub)] for a separator of one character or more; [skip] characters are left of a match. *)
Fixpoint split_on (sub : string) (skip : nat) (s : string) : list string :=
  match s, skip with
  | EmptyString, _ => [EmptyString]
  | String _ s', S n => split_on sub n s'
  | String a s', 0%nat =>
      if str_prefix sub s then EmptyString :: split_on sub (String.length sub - 1) s'
      else match split_on sub 0 s' with w :: ws => String a w :: ws | [] => [String a EmptyString] end
  end.

Definition extension := list (string * string).

(** [for part in parts: if "=" in part: ...]. *)
Definition collect (f : string * string -> string * string) (parts : list string) : extension :=
  foldl (fun out part => match str_cut "=" part with Some kv => dict_set (f kv).1 (f kv).2 out | None => out end) [] parts.

(** [delim = None]: a character no text of the model has. *)
Definition split_ext (ext : string) (delim : option string) : extension :=
  if String.eqb ext "" then []
  else if bool_decide (delim = Some " ") then
    collect (fun '(k, v) => (k, unescape "\" (unescape "=" v))) (split_pairs false (str_strip ext))
  else collect (fun '(k, v) => (str_strip k, v)) (match delim with Some d => split_on d 0 ext | None => [ext] end).

(** [_cef_split]: [n] fields, then the rest; [cur] is the field being read. *)
Fixpoint cef_split (n : nat) (cur s : string) : list string :=
  match n, s with
  | 0%nat, _ => [s]
  | _, EmptyString => [EmptyString]
  | S n', String a s' =>
      if Ascii.eqb a "|" then cur :: cef_split n' EmptyString s'
      else match s' with
           | String b s'' =>
               if Ascii.eqb a "\" then cef_split n (cur +:+ String b EmptyString) s''
               else cef_split n (cur +:+ String a EmptyString) s'
           | EmptyString => cef_split n (cur +:+ String a EmptyString) s'
           end
  end.

Record cef := Cef { cef_version : string; cef_vendor : string; cef_product : string; cef_pversion : string;
                    cef_sig : string; cef_name : string; cef_severity : string; cef_ext : extension }.

Definition parse_cef (msg : string) : option cef :=
  header ← str_after "CEF:" msg;
  match cef_split 7 EmptyString header with
  | [version; vendor; product; pversion; sig; name; sev; ext] =>
      Some (Cef (str_strip version) vendor product pversion sig name sev (split_ext ext (Some " ")))
  | _ => None
  end.

Record leef := Leef { leef_version : string; leef_vendor : string; leef_product : string; leef_pversion : string;
                      leef_event : string; leef_ext : extension }.

(** [int(s, 16)]: blanks around, a sign, [0x], single underscores between digits
    (and after the prefix). *)
Fixpoint hex_digits_value (s : string) (after_digit : bool) (acc : Z) : option Z :=
  match s with
  | EmptyString => if after_digit then Some acc else None
  | String a s' =>
      if Ascii.eqb a "_" then if after_digit then hex_digits_value s' false acc else None
      else match hex_value a with Some d => hex_digits_value s' true (16 * acc + Z.of_N d) | None => None end
  end.
Definition hex_unsigned (s : string) : option Z :=
  match s with
  | String "0" (String x s') =>
      if Ascii.eqb x "x" || Ascii.eqb x "X"
      then hex_digits_value (default s' (char "_" s')) false 0 else hex_digits_value s false 0
  | _ => hex_digits_value s false 0
  end.
Definition py_int_16 (s : string) : option Z :=
  match strip_while (int_space (is_ascii s)) s with
  | String a s' =>
      if Ascii.eqb a "-" then Z.opp <$> hex_unsigned s'
      else if Ascii.eqb a "+" then hex_unsigned s' else hex_unsigned (String a s')
  | EmptyString => None
  end.
(** [chr(int(s, 16))]: an error outside a C [int], another outside Unicode. *)
Definition chr_hex (s : string) : result (option string) :=
  match py_int_16 s with
  | Some n =>
      if (n <? -2 ^ 31) || (2 ^ 31 <=? n) then Raise EOverflow
      else if (n <? 0) || (1114111 <? n) then Raise EValue
      else Ok (if n <? 256 then Some (String (ascii_of_N (Z.to_N n)) EmptyString) else None)
  | None => Raise EValue
  end.

Definition TAB : string := String "009"%char EmptyString.

(** The sixth field of LEEF 2.0 may be the delimiter: one character, or [xHH]. *)
Definition leef_delimiter (version rest : string) : result (option string * string) :=
  match rest with
  | String a _ =>
      if str_prefix "2" (str_strip version) && negb (Ascii.eqb a "|") then
        match str_cut "|" rest with
        | None => Ok (Some TAB, rest)
        | Some (d, attrs) =>
            if str_prefix "x" d && (1 <? String.length d)%nat
            then delim ← chr_hex (str_drop 1 d); Ok (delim, attrs)
            else Ok (Some d, attrs)
        end
      else Ok (Some TAB, rest)
  | EmptyString => Ok (Some TAB, rest)
  end.

Definition parse_leef (msg : string) : result (option leef) :=
  match str_after "LEEF:" msg with
  | None => Ok None
  | Some body =>
      match str_split_max 5 "|" body with
      | version :: vendor :: product :: pversion :: event_id :: more =>
          '(delim, attrs) ← leef_delimiter version (default EmptyString (head more));
          Ok (Some (Leef (str_strip version) vendor product pversion event_id (split_ext attrs delim)))
      | _ => Ok None
      end
  end.

(** ** A line *)

Definition dash (s : string) : option string := if String.eqb s "-" then None else Some s.

Record header5424 := Header5424 { h_pri : Z; h_version : string; h_ts : string; h_host : string; h_app : string;
                                  h_procid : string; h_msgid : string; h_rest : string }.

(** [_RFC5424_RE]. *)
Definition scan_5424 (line : string) : option header5424 :=
  '(pri, s) ← scan_pri line; '(version, s) ← upto 2 is_digit10 s; s ← blanks s;
  '(ts, s) ← token s; s ← blanks s; '(host, s) ← token s; s ← blanks s;
  '(app, s) ← token s; s ← blanks s; '(procid, s) ← token s; s ← blanks s;
  '(msgid, s) ← token s; rest ← blanks s;
  Some (Header5424 pri version ts host app procid msgid rest).

Definition upper_char (a : ascii) : bool := in_range 65 90 a.
Definition lower_char (a : ascii) : bool := in_range 97 122 a.

(** The [ts] group of [_RFC3164_RE]. *)
Definition scan_stamp (s : string) : option (stamp * string) :=
  '(m1, s) ← exactly 1 upper_char s; '(m2, s) ← exactly 2 lower_char s; '(_, s) ← upto 2 is_space s;
  '(d, s) ← upto 2 is_digit10 s; '(_, s) ← exactly 1 is_space s;
  '(hh, s) ← exactly 2 is_digit10 s; s ← char ":" s; '(mm, s) ← exactly 2 is_digit10 s; s ← char ":" s;
  '(ss, s) ← exactly 2 is_digit10 s;
  Some (Stamp (m1 +:+ m2) (digits_value d) (digits_value hh) (digits_value mm) (digits_value ss), s).

Record header3164 := Header3164 { b_pri : option Z; b_ts : stamp; b_host : string; b_rest : string }.

(** [_RFC3164_RE]: the priority is optional. *)
Definition scan_3164 (line : string) : option header3164 :=
  let (p, s) := match scan_pri line with Some (p, s) => (Some p, s) | None => (None, line) end in
  '(ts, s) ← scan_stamp s; s ← blanks s; '(host, s) ← token s; rest ← blanks s;
  Some (Header3164 p ts host rest).

Definition tag_char (a : ascii) : bool :=
  in_range 65 90 a || in_range 97 122 a || in_range 48 57 a || existsb (Ascii.eqb a) ["_"; "."; "/"; "-"]%char.

(** [_TAG_RE]: the application, its process, the message. *)
Definition scan_pid (s : string) : option (option string * string) :=
  match char "[" s with
  | None => Some (None, s)
  | Some s => '(pid, s) ← many1 (fun a => negb (Ascii.eqb a "]")) s; s ← char "]" s; Some (Some pid, s)
  end.
Definition scan_tag (s : string) : option (string * option string * string) :=
  '(app, s) ← many1 tag_char s; '(pid, s) ← scan_pid s; s ← char ":" s;
  Some (app, pid, match s with String a s' => if is_space a then s' else s | EmptyString => s end).

Inductive line_format := Rfc5424 | Rfc3164 | Unknown.

Record parsed := Parsed {
  o_format : line_format; o_raw : string; o_prio : option priority; o_version : Z; o_timestamp : option string;
  o_inferred : bool; o_host : option string; o_app : option string; o_procid : option string; o_msgid : option string;
  o_sd : structured_data; o_msg : string; o_cef : option cef; o_leef : option leef }.

Fixpoint rstrip (p : ascii -> bool) (s : string) : string :=
  match s with
  | EmptyString => EmptyString
  | String a s' => match rstrip p s' with EmptyString => if p a then EmptyString else String a EmptyString | r => String a r end
  end.
Definition newline_char (a : ascii) : bool := Ascii.eqb a "013" || Ascii.eqb a "010".

Section line.
Context `{FromIso} `{IsoMillis}.
Context (now_year now : Z).

Definition read_5424 (line : string) (h : header5424) : option (result parsed) :=
  '(sd, msg) ← parse_structured_data (h_rest h);
  Some (ts ← parse_5424_ts (h_ts h);
        Ok (Parsed Rfc5424 line (pri_fields (Some (h_pri h))) 1 ts false (dash (h_host h)) (dash (h_app h))
              (dash (h_procid h)) (dash (h_msgid h)) sd msg None None)).

Definition read_3164 (line : string) (h : header3164) : parsed :=
  let ts := parse_3164_ts now_year now (b_ts h) in
  let '(app, pid, msg) :=
    match scan_tag (b_rest h) with
    | Some (app, pid, msg) =>
        if String.eqb app "CEF" || String.eqb app "LEEF" then (None, None, b_rest h) else (Some app, pid, msg)
    | None => (None, None, b_rest h)
    end in
  Parsed Rfc3164 line (pri_fields (b_pri h)) 0 ts (bool_decide (is_Some ts)) (Some (b_host h)) app pid None [] msg None None.

Definition read_unknown (line : string) : parsed :=
  let (p, msg) := match scan_pri line with Some (p, s) => (pri_fields (Some p), s) | None => (None, line) end in
  Parsed Unknown line p 0 None false None None None None [] msg None None.

Definition read_header (line : string) : option (result parsed) :=
  match scan_5424 line with
  | Some h =>
      if String.eqb (h_version h) "1" then read_5424 line h
      else Some (Ok (match scan_3164 line with Some h => read_3164 line h | None => read_unknown line end))
  | None => Some (Ok (match scan_3164 line with Some h => read_3164 line h | None => read_unknown line end))
  end.

(** The payload the message carries. *)
Definition read_payload (out : parsed) : result parsed :=
  let with_payload c l := Parsed (o_format out) (o_raw out) (o_prio out) (o_version out) (o_timestamp out) (o_inferred out)
                     (o_host out) (o_app out) (o_procid out) (o_msgid out) (o_sd out) (o_msg out) c l in
  match parse_cef (o_msg out) with
  | Some c => Ok (with_payload (Some c) None)
  | None => l ← parse_leef (o_msg out); Ok (with_payload None l)
  end.

(** [parse_syslog_line] of a decoded text. *)
Definition parse_syslog_line (raw : string) : option (result parsed) :=
  r ← read_header (rstrip newline_char raw); Some (out ← r; read_payload out).
End line.
