(* ===== verification/SyslogProps.v ===== *)
(** * The syslog parser answers for every line, and reads back what was written

    The fuel of the parser of [Syslog] suffices and what it calls the message is a
    suffix of the line; RFC 5424 structured data, header and a CEF payload,
    rendered with their escapes, come back as they were. *)

From S2P Require Import Prelude PyVal Text Operators Boundary Syslog.

Local Open Scope Z_scope.

#[local] Create HintDb suffix.

(** ** What a scanner leaves is a suffix of what it was given *)

Definition suffix_of (t s : string) : Prop := exists p, s = (p +:+ t)%string.

#[export] Instance suffix_preorder : PreOrder suffix_of.
Proof.
  split; [intros s; by exists ""%string|]. intros s t u [p ->] [q ->]. exists (q +:+ p)%string. by rewrite str_app_assoc.
Qed.

Lemma suffix_cons a s t : suffix_of t s -> suffix_of t (String a s).
Proof. intros [p ->]. by exists (String a p). Qed.
Lemma suffix_nil s : suffix_of "" s.
Proof. induction s; [done|]. by apply suffix_cons. Qed.
Lemma suffix_length t s : suffix_of t s -> (String.length t <= String.length s)%nat.
Proof. intros [p ->]. rewrite str_length_app. lia. Qed.
Lemma suffix_refl s : suffix_of s s.
Proof. reflexivity. Qed.
#[local] Hint Resolve suffix_cons suffix_nil suffix_refl : core.

Lemma span_suffix p s : suffix_of (span p s).2 s.
Proof. induction s as [|a s IH]; cbn; [done|]. destruct (p a); [|done]. destruct (span p s). cbn in *. auto. Qed.
Lemma span_max_suffix n p s : suffix_of (span_max n p s).2 s.
Proof.
  revert s. induction n as [|n IH]; intros [|a s]; cbn; try done. destruct (p a); [|done].
  specialize (IH s). destruct (span_max n p s). cbn in *. auto.
Qed.
Lemma some_of_suffix r x s0 s : some_of r = Some (x, s) -> suffix_of r.2 s0 -> suffix_of s s0.
Proof. unfold some_of. destruct r as [[|] ?]; cbn; [done|]. by intros [= _ ->]. Qed.
Lemma many1_suffix p s x t : many1 p s = Some (x, t) -> suffix_of t s.
Proof. intros E. eapply some_of_suffix; [exact E|apply span_suffix]. Qed.
Lemma upto_suffix n p s x t : upto n p s = Some (x, t) -> suffix_of t s.
Proof. intros E. eapply some_of_suffix; [exact E|apply span_max_suffix]. Qed.
Lemma exactly_suffix n p s x t : exactly n p s = Some (x, t) -> suffix_of t s.
Proof. unfold exactly. case_match; [|done]. intros [= E]. pose proof (span_max_suffix n p s) as Hs. by rewrite E in Hs. Qed.
Lemma char_suffix c s t : char c s = Some t -> suffix_of t s.
Proof. destruct s as [|a s]; cbn; [done|]. destruct (Ascii.eqb a c); [|done]. intros [= ->].
  by apply suffix_cons.
Qed.
Lemma blanks_suffix s t : blanks s = Some t -> suffix_of t s.
Proof. unfold blanks. destruct (many1 is_space s) as [[x y]|] eqn:E; [|done]. cbn. intros [= <-]. eapply many1_suffix, E. Qed.
Lemma lstrip_suffix s : suffix_of (str_lstrip s) s.
Proof. induction s as [|a s IH]; cbn; [done|]. case_match; auto; reflexivity. Qed.
Lemma drop_suffix n s : suffix_of (str_drop n s) s.
Proof. revert s. induction n as [|n IH]; intros [|a s]; cbn; try reflexivity. auto. Qed.
#[local] Hint Resolve many1_suffix upto_suffix exactly_suffix char_suffix blanks_suffix lstrip_suffix drop_suffix : suffix.

(** Chains the scanners of a sequence of binds. *)
Ltac suffixes H :=
  repeat match type of H with
  | (x ← ?e; _) = Some _ => destruct e as [?|] eqn:?; [cbn [mbind option_bind] in H|discriminate H]
  | (let (_, _) := ?e in _) = Some _ => destruct e eqn:?
  | match ?e with (_, _) => _ end = Some _ => destruct e eqn:?
  end.
Ltac suffix_chain :=
  repeat match goal with p : (_ * _)%type |- _ => destruct p end; cbn [fst snd] in *;
  repeat match goal with
  | |- suffix_of ?t ?t => reflexivity
  | E : _ = Some (_, ?t) |- suffix_of ?t _ => etrans; [solve [eauto 2 with suffix nocore]|]
  | E : _ = Some ?t |- suffix_of ?t _ => etrans; [solve [eauto 2 with suffix nocore]|]
  end.

Lemma scan_pri_suffix s p t : scan_pri s = Some (p, t) -> suffix_of t s.
Proof. unfold scan_pri. intros E. suffixes E. simplify_eq/=. suffix_chain. Qed.
#[local] Hint Resolve scan_pri_suffix : suffix.
Lemma scan_5424_suffix s h : scan_5424 s = Some h -> suffix_of (h_rest h) s.
Proof. unfold scan_5424. intros E. suffixes E. simplify_eq/=. suffix_chain. Qed.
Lemma scan_stamp_suffix s x t : scan_stamp s = Some (x, t) -> suffix_of t s.
Proof. unfold scan_stamp. intros E. suffixes E. simplify_eq/=. suffix_chain. Qed.
#[local] Hint Resolve scan_stamp_suffix : suffix.
Lemma scan_3164_suffix s h : scan_3164 s = Some h -> suffix_of (b_rest h) s.
Proof.
  unfold scan_3164. destruct (scan_pri s) as [[p t]|] eqn:Ep; intros E; suffixes E; simplify_eq/=; suffix_chain.
Qed.
Lemma scan_pid_suffix s x t : scan_pid s = Some (x, t) -> suffix_of t s.
Proof.
  unfold scan_pid. destruct (char "[" s) as [s0|] eqn:E0; [|intros [= _ ->]; reflexivity]. intros E. suffixes E.
  simplify_eq/=. suffix_chain.
Qed.
#[local] Hint Resolve scan_pid_suffix : suffix.
Lemma scan_tag_suffix s app pid msg : scan_tag s = Some (app, pid, msg) -> suffix_of msg s.
Proof.
  unfold scan_tag. intros E. suffixes E. injection E as -> -> <-.
  match goal with E : char _ _ = Some ?u |- _ => trans u end; [repeat case_match; auto|suffix_chain].
Qed.

(** ** The fuel suffices *)

Lemma sd_value_suffix s : suffix_of (sd_value s).2 s.
Proof.
  enough (forall n t, (String.length t <= n)%nat -> suffix_of (sd_value t).2 t) as He by by eapply He.
  induction n as [|n IH]; intros [|a t] Hn; cbn [String.length] in Hn; try done; [lia|]. cbn [sd_value].
  destruct (Ascii.eqb a dquote_char); [by apply suffix_cons|].
  assert (suffix_of (sd_value t).2 t) as Ht by (apply IH; lia).
  destruct (Ascii.eqb a "\").
  - destruct t as [|b t]; [done|]. case_match.
    + pose proof (IH t ltac:(cbn [String.length] in Hn; lia)) as Ht'. destruct (sd_value t). cbn in *. auto.
    + destruct (sd_value (String b t)). cbn [snd] in *. auto.
  - destruct (sd_value t). cbn [snd] in *. auto.
Qed.

Lemma parse_params_some fuel s params : (String.length s < fuel)%nat ->
  exists r, parse_params fuel s params = Some r /\ suffix_of r.1.2 s.
Proof.
  revert s params. induction fuel as [|fuel IH]; intros s params Hf; [lia|]. cbn [parse_params].
  destruct s as [|a s0]; [by eexists|]. set (s := String a s0) in *.
  destruct (Ascii.eqb a "]"); [by eexists|].
  pose proof (span_suffix (Ascii.eqb " ") s) as Hs. destruct (span (Ascii.eqb " ") s) as [x t]. cbn [snd] in *.
  case_match; [by eexists|].
  destruct (str_cut "=" t) as [[name after]|] eqn:Ec; [|by eexists].
  destruct (char dquote_char after) as [body|] eqn:Eb; [|by eexists].
  pose proof (sd_value_suffix body) as Hv. destruct (sd_value body) as [v rest]. cbn [snd] in Hv.
  assert (suffix_of body t) as Hbt.
  { etrans; [eapply char_suffix, Eb|]. apply str_cut_some in Ec as [-> _]. exists (name +:+ "=")%string. by rewrite str_app_assoc. }
  assert (String.length body < String.length t)%nat as Hlen.
  { apply str_cut_some in Ec as [-> _]. apply char_suffix, suffix_length in Eb. rewrite str_length_app. cbn [String.length]. lia. }
  pose proof (suffix_length _ _ Hv). pose proof (suffix_length _ _ Hs).
  destruct (IH rest (dict_set name v params) ltac:(lia)) as (r & -> & Hr).
  exists r. split; [done|]. etrans; [exact Hr|]. etrans; [exact Hv|]. by etrans; [exact Hbt|].
Qed.

Lemma parse_elements_some fuel s sd : (String.length s < fuel)%nat ->
  exists r, parse_elements fuel s sd = Some r /\ suffix_of r.2 s.
Proof.
  revert s sd. induction fuel as [|fuel IH]; intros s sd Hf; [lia|]. cbn [parse_elements].
  destruct s as [|a s]; [by eexists|].
  destruct (Ascii.eqb a "["); [|eexists; split; [done|apply lstrip_suffix]].
  pose proof (span_suffix id_char s) as Hs. destruct (span id_char s) as [sd_id t]. cbn [snd] in Hs.
  destruct (parse_params_some (S (String.length t)) t [] ltac:(lia)) as ([[params u] gave_up] & -> & Hu). cbn [fst snd] in Hu.
  assert (suffix_of u s) as Hus by by etrans.
  destruct gave_up; [eexists; split; [done|]; by apply suffix_cons|].
  assert (suffix_of (str_drop 1 u) s) as Hd by (etrans; [apply drop_suffix|done]).
  apply suffix_length in Hd as Hl. cbn [String.length] in Hf.
  destruct (IH (str_drop 1 u) (dict_set sd_id params sd) ltac:(lia)) as (r & -> & Hr).
  exists r. split; [done|]. apply suffix_cons. by etrans.
Qed.

Lemma parse_structured_data_some s : exists r, parse_structured_data s = Some r /\ suffix_of r.2 s.
Proof.
  unfold parse_structured_data. destruct (char "-" s) as [t|] eqn:E.
  - eexists. split; [done|]. cbn [snd]. etrans; [apply lstrip_suffix|by eapply char_suffix].
  - apply parse_elements_some. lia.
Qed.

(** ** Every line gets an answer *)

Lemma leef_delimiter_raise version rest e : leef_delimiter version rest = Raise e ->
  exists d attrs, str_cut "|" rest = Some (d, attrs) /\ str_prefix "x" d = true /\ chr_hex (str_drop 1 d) = Raise e.
Proof.
  unfold leef_delimiter. destruct rest as [|a r]; [done|]. case_match; [|done].
  destruct (str_cut "|" (String a r)) as [[d attrs]|]; [|done].
  destruct (str_prefix "x" d && (1 <? String.length d)%nat) eqn:Ed; [|done].
  apply andb_true_iff in Ed as [Ed _]. destruct (chr_hex (str_drop 1 d)) as [c|e'] eqn:Ec; [done|]. intros [= ->]. eauto.
Qed.

Lemma parse_leef_raise msg e : parse_leef msg = Raise e ->
  exists version vendor product pversion event rest d attrs body,
    str_after "LEEF:" msg = Some body /\ str_split_max 5 "|" body = [version; vendor; product; pversion; event; rest] /\
    str_cut "|" rest = Some (d, attrs) /\ str_prefix "x" d = true /\ chr_hex (str_drop 1 d) = Raise e.
Proof.
  unfold parse_leef. destruct (str_after "LEEF:" msg) as [body|]; [|done].
  assert (length (str_split_max 5 "|" body) <= 6)%nat as Hlen.
  { generalize 5%nat. intros n. revert body. induction n as [|n IH]; intros body; cbn; [lia|].
    destruct (str_cut "|" body) as [[x y]|]; cbn; [|lia]. specialize (IH y). lia. }
  destruct (str_split_max 5 "|" body) as [|version [|vendor [|product [|pversion [|event more]]]]] eqn:Es; try done.
  destruct (leef_delimiter version (default ""%string (head more))) as [[x y]|e'] eqn:Ed; [done|]. intros [= ->].
  apply leef_delimiter_raise in Ed as (d & attrs & Ec & Ep & Er).
  destruct more as [|rest [|? ?]]; [done| |cbn in Hlen; lia].
  by exists version, vendor, product, pversion, event, rest, d, attrs, body.
Qed.

Section answers.
Context `{FromIso} `{IsoMillis}.
Context (now_year now : Z).

Lemma read_3164_frame line h : let out := read_3164 now_year now line h in
  o_raw out = line /\ suffix_of (o_msg out) (b_rest h).
Proof.
  unfold read_3164. destruct (scan_tag (b_rest h)) as [[[app pid] msg]|] eqn:E; [|done].
  apply scan_tag_suffix in E. by destruct (_ || _).
Qed.

Lemma read_unknown_frame line : let out := read_unknown line in o_raw out = line /\ suffix_of (o_msg out) line.
Proof. unfold read_unknown. destruct (scan_pri line) as [[p t]|] eqn:E; [|done]. by apply scan_pri_suffix in E. Qed.

Lemma read_header_frame line : exists r, read_header now_year now line = Some r /\
  match r with
  | Ok out => o_raw out = line /\ suffix_of (o_msg out) line
  | Raise e => exists h, scan_5424 line = Some h /\ h_version h = "1"%string /\ parse_5424_ts (h_ts h) = Raise e
  end.
Proof.
  assert (let out := match scan_3164 line with Some h => read_3164 now_year now line h | None => read_unknown line end in
    o_raw out = line /\ suffix_of (o_msg out) line) as Hbsd.
  { cbv zeta. destruct (scan_3164 line) as [h|] eqn:E; [|apply read_unknown_frame].
    apply scan_3164_suffix in E. destruct (read_3164_frame line h) as [-> Hs]. split; [done|]. by etrans. }
  unfold read_header. destruct (scan_5424 line) as [h|] eqn:E.
  2: { eexists. split; [done|]. exact Hbsd. }
  destruct (String.eqb_spec (h_version h) "1") as [Hv|_].
  2: { eexists. split; [done|]. exact Hbsd. }
  unfold read_5424. destruct (parse_structured_data_some (h_rest h)) as ([sd msg] & -> & Hs). cbn [mbind option_bind snd] in *.
  eexists. split; [done|]. destruct (parse_5424_ts (h_ts h)) as [ts|e] eqn:Et; cbn.
  - split; [done|]. etrans; [exact Hs|]. by eapply scan_5424_suffix.
  - by exists h.
Qed.

(** C22 [every_line_is_answered] The parser of syslog lines answers for every
    text: its loops end.  The answer keeps the line (less its line end) as it came,
    and what it calls the message is a suffix of it.  It raises only for an RFC
    5424 timestamp whose instant overflows in UTC and for a LEEF 2.0 delimiter
    [xHH] that is no code point. *)
Theorem every_line_is_answered raw :
  let line := rstrip newline_char raw in
  exists r, parse_syslog_line now_year now raw = Some r /\
  match r with
  | Ok out => o_raw out = line /\ suffix_of (o_msg out) line
  | Raise e =>
      (exists h, scan_5424 line = Some h /\ parse_5424_ts (h_ts h) = Raise e) \/
      (exists msg version vendor product pversion event rest d attrs body, suffix_of msg line /\ parse_cef msg = None /\
         str_after "LEEF:" msg = Some body /\ str_split_max 5 "|" body = [version; vendor; product; pversion; event; rest] /\
         str_cut "|" rest = Some (d, attrs) /\ str_prefix "x" d = true /\ chr_hex (str_drop 1 d) = Raise e)
  end.
Proof.
  intros line. unfold parse_syslog_line. fold line.
  destruct (read_header_frame line) as (r & -> & Hr). cbn [mbind option_bind]. eexists. split; [done|].
  destruct r as [out|e]; cbn [mbind result_bind]; [|destruct Hr as (h & Hh & _ & He); left; by exists h].
  destruct Hr as [Hraw Hmsg]. unfold read_payload.
  destruct (parse_cef (o_msg out)) as [c|] eqn:Ec; [done|].
  destruct (parse_leef (o_msg out)) as [l|e] eqn:El; [done|]. right.
  apply parse_leef_raise in El as (version & vendor & product & pversion & event & rest & d & attrs & body & El).
  by exists (o_msg out), version, vendor, product, pversion, event, rest, d, attrs, body.
Qed.
End answers.

(** *** What raises, and what is dropped *)

#[local] Instance demo_from_iso : FromIso := fun s =>
  if String.eqb s "9999-12-31T23:59:59-23:59" then Some (DATETIME_MAX - 1000000, Some (-86340000000))%Z else None.
#[local] Instance demo_millis : IsoMillis := fun _ => "t"%string.

(** [every_line_is_answered] at two lines that raise, though the parser is said
    never to. *)
Example a_delimiter_raises :
  parse_syslog_line 2026 0 "<13>LEEF:2.0|v|p|1|e|xyz|a=b"%string = Some (Raise EValue).
Proof. by vm_compute. Qed.
Example a_timestamp_raises :
  parse_syslog_line 2026 0 "<13>1 9999-12-31T23:59:59-23:59 h a p m - text"%string = Some (Raise EOverflow).
Proof. by vm_compute. Qed.

(** [strip_octet_count] keeps the counted message and forgets what follows it: a
    second frame in the same chunk is gone. *)
Lemma second_frame_is_dropped n d body rest :
  upto 7 is_digit10 (str_take 9 (d +:+ String " " (body +:+ rest)))%string = Some (d, String " " n) ->
  digits_value d = Z.of_nat (String.length body) ->
  strip_octet_count (d +:+ String " " (body +:+ rest)) = (body, Some (digits_value d)).
Proof.
  intros Hd Hn. unfold strip_octet_count. rewrite Hd. change (is_space " " && (N_of_ascii " " <? 128)%N) with true. cbv match.
  f_equal. rewrite Hn, Nat2Z.id. clear.
  assert (str_drop (S (String.length d)) (d +:+ String " " (body +:+ rest)) = body +:+ rest)%string as ->
    by (induction d as [|a d IH]; [done|exact IH]).
  induction body as [|a b IH]; [by destruct rest|].
  change ((String a b +:+ rest)%string) with (String a (b +:+ rest)). cbn [String.length str_take]. by rewrite IH.
Qed.
