(* ===== verification/SyslogRound.v ===== *)
(** * Writing a syslog line and reading it back

    What a sender writes: an RFC 5424 header, structured data with its escapes, a
    message that may end in a CEF event with the escapes of CEF.  [Syslog] reads
    back every field. *)

From S2P Require Import Prelude PyVal Text Operators Boundary Syslog.

Local Open Scope string_scope.

(** ** Writing *)

Fixpoint escape (special : ascii -> bool) (s : string) : string :=
  match s with
  | EmptyString => ""
  | String a s' => if special a then String "\" (String a (escape special s')) else String a (escape special s')
  end.

(** The three characters RFC 5424 escapes in a value. *)
Definition sd_special (a : ascii) : bool := Ascii.eqb a dquote_char || Ascii.eqb a "]" || Ascii.eqb a "\".
Definition DQ : string := String dquote_char "".

Definition write_param (kv : string * string) : string :=
  " " +:+ kv.1 +:+ "=" +:+ DQ +:+ escape sd_special kv.2 +:+ DQ.
Fixpoint write_params (ps : sd_params) (rest : string) : string :=
  match ps with [] => rest | kv :: ps' => write_param kv +:+ write_params ps' rest end.
Fixpoint write_elements (sd : structured_data) (rest : string) : string :=
  match sd with
  | [] => rest
  | (id, ps) :: sd' => "[" +:+ id +:+ write_params ps ("]" +:+ write_elements sd' rest)
  end.
Definition write_sd (sd : structured_data) (rest : string) : string :=
  match sd with [] => "-" +:+ rest | _ => write_elements sd rest end.

(** The names RFC 5424 allows, of elements and of parameters. *)
Definition sd_name (s : string) : bool := negb (has_char "=" s || has_char " " s || has_char "]" s).
Definition sd_writable (sd : structured_data) : Prop :=
  dict_wf sd /\ Forall (fun e => sd_name e.1 = true /\ dict_wf e.2 /\ Forall (fun kv => sd_name kv.1 = true) e.2) sd.

(** ** Scanning what was written *)

Lemma str_app_nil s : s +:+ "" = s.
Proof. induction s as [|a s IH]; [done|]. change (String a (s +:+ "") = String a s). by rewrite IH. Qed.

Definition all_chars (p : ascii -> bool) : string -> bool :=
  fix go s := match s with EmptyString => true | String a s' => p a && go s' end.
Definition starts_with (p : ascii -> bool) (s : string) : bool :=
  match s with EmptyString => false | String a _ => p a end.

Lemma has_char_all c s : has_char c s = false -> all_chars (fun a => negb (Ascii.eqb a c)) s = true.
Proof.
  induction s as [|a s IH]; cbn [has_char all_chars]; [done|]. intros [-> Hs]%orb_false_iff. cbn. by apply IH.
Qed.
Lemma all_chars_app p s t : all_chars p (s +:+ t) = all_chars p s && all_chars p t.
Proof. induction s as [|a s IH]; [done|]. change (String a s +:+ t) with (String a (s +:+ t)). cbn. by rewrite IH, andb_assoc. Qed.
Lemma all_chars_impl (p q : ascii -> bool) s : (forall a, p a = true -> q a = true) -> all_chars p s = true -> all_chars q s = true.
Proof. intros Hpq. induction s as [|a s IH]; cbn; [done|]. intros [Ha Hs]%andb_true_iff. by rewrite Hpq, IH. Qed.

Lemma span_app p s t : all_chars p s = true -> starts_with p t = false -> span p (s +:+ t) = (s, t).
Proof.
  intros Hs Ht. induction s as [|a s IH].
  - change ("" +:+ t) with t. destruct t as [|b t]; cbn in *; [done|]. by rewrite Ht.
  - change (String a s +:+ t) with (String a (s +:+ t)). cbn [all_chars span] in *.
    apply andb_true_iff in Hs as [-> Hs]. by rewrite (IH Hs).
Qed.
Lemma span_max_app n p s t : (String.length s <= n)%nat -> all_chars p s = true -> starts_with p t = false ->
  span_max n p (s +:+ t) = (s, t).
Proof.
  revert s. induction n as [|n IH]; intros [|a s] Hn Hs Ht; cbn [String.length] in Hn; try lia.
  - change ("" +:+ t) with t. by destruct t.
  - change ("" +:+ t) with t. destruct t as [|b t]; cbn in *; [done|]. by rewrite Ht.
  - change (String a s +:+ t) with (String a (s +:+ t)). cbn [all_chars span_max] in *.
    apply andb_true_iff in Hs as [-> Hs]. by rewrite (IH s ltac:(lia) Hs Ht).
Qed.
Lemma many1_app p s t : s <> "" -> all_chars p s = true -> starts_with p t = false -> many1 p (s +:+ t) = Some (s, t).
Proof. intros Hne Hs Ht. unfold many1. rewrite (span_app p s t Hs Ht). by destruct s. Qed.
Lemma upto_app n p s t : s <> "" -> (String.length s <= n)%nat -> all_chars p s = true -> starts_with p t = false ->
  upto n p (s +:+ t) = Some (s, t).
Proof. intros Hne Hn Hs Ht. unfold upto. rewrite (span_max_app n p s t Hn Hs Ht). by destruct s. Qed.

(** ** Structured data *)

Lemma sd_value_escape v rest : sd_value (escape sd_special v +:+ String dquote_char rest) = (v, rest).
Proof.
  induction v as [|a v IH]; [done|]. cbn [escape].
  destruct (sd_special a) eqn:Ea.
  - change (String "\" (String a (escape sd_special v)) +:+ String dquote_char rest)
      with (String "\" (String a (escape sd_special v +:+ String dquote_char rest))).
    cbn [sd_value]. change (Ascii.eqb "\" dquote_char) with false. change (Ascii.eqb "\" "\") with true. cbn match.
    unfold sd_special in Ea. rewrite Ea. by rewrite IH.
  - change (String a (escape sd_special v) +:+ String dquote_char rest)
      with (String a (escape sd_special v +:+ String dquote_char rest)).
    unfold sd_special in Ea. apply orb_false_iff in Ea as [[Ea _]%orb_false_iff Eb]. cbn [sd_value]. by rewrite Ea, Eb, IH.
Qed.

Lemma dict_set_fresh {A} k (v : A) d : k ∉ dict_keys d -> dict_set k v d = (d ++ [(k, v)])%list.
Proof.
  induction d as [|[k' v'] d IH]; cbn; [done|]. intros [Hk Hd]%not_elem_of_cons.
  apply String.eqb_neq in Hk as ->. by rewrite IH.
Qed.
(** The next key of a dict read in order. *)
Lemma dict_wf_next {A} k (v : A) acc l : dict_wf (acc ++ (k, v) :: l)%list -> dict_set k v acc = (acc ++ [(k, v)])%list.
Proof.
  intros Hwf. apply dict_set_fresh. unfold dict_wf, dict_keys in *. rewrite fmap_app in Hwf.
  apply NoDup_app in Hwf as (_ & Hd & _). intros Hk. eapply Hd; [exact Hk|]. cbn. by left.
Qed.

Lemma sd_name_spec s : sd_name s = true -> has_char "=" s = false /\ has_char " " s = false /\ has_char "]" s = false.
Proof. unfold sd_name. rewrite negb_true_iff, !orb_false_iff. tauto. Qed.

Lemma write_param_cons kv rest :
  write_param kv +:+ rest = String " " (kv.1 +:+ String "=" (String dquote_char (escape sd_special kv.2 +:+ String dquote_char rest))).
Proof.
  unfold write_param, DQ. rewrite !str_app_assoc. reflexivity.
Qed.

Lemma name_not_blank k c t : sd_name k = true -> c <> " "%char -> starts_with (Ascii.eqb " ") (k +:+ String c t) = false.
Proof.
  intros (_ & Hk & _)%sd_name_spec Hc. destruct k as [|a k].
  - change ("" +:+ String c t) with (String c t). cbn [starts_with]. apply Ascii.eqb_neq. congruence.
  - change (String a k +:+ String c t) with (String a (k +:+ String c t)). cbn [starts_with has_char] in *.
    apply orb_false_iff in Hk as [Hk _]. by rewrite Ascii.eqb_sym.
Qed.
Lemma name_not_bracket k c t : sd_name k = true -> c <> "]"%char ->
  match k +:+ String c t with String b _ => Ascii.eqb b "]" | EmptyString => false end = false.
Proof.
  intros (_ & _ & Hk)%sd_name_spec Hc. destruct k as [|a k].
  - change ("" +:+ String c t) with (String c t). by apply Ascii.eqb_neq.
  - change (String a k +:+ String c t) with (String a (k +:+ String c t)). cbn [has_char] in *. by apply orb_false_iff in Hk as [Hk _].
Qed.

Lemma parse_params_write fuel ps acc rest : (length ps < fuel)%nat -> dict_wf (acc ++ ps)%list ->
  Forall (fun kv => sd_name kv.1 = true) ps ->
  parse_params fuel (write_params ps (String "]" rest)) acc = Some ((acc ++ ps)%list, String "]" rest, false).
Proof.
  revert fuel acc. induction ps as [|[k v] ps IH]; intros [|fuel] acc Hf Hwf Hps; cbn [length] in Hf; try lia.
  - cbn. by rewrite app_nil_r.
  - apply Forall_cons in Hps as [Hk Hps]. cbn [fst] in Hk. cbn [write_params]. rewrite write_param_cons. cbn [fst snd].
    cbn [parse_params]. change (Ascii.eqb " " "]") with false. cbn match.
    set (body := k +:+ String "=" _).
    assert (span (Ascii.eqb " ") (String " " body) = (" ", body)) as Hsp.
    { change (String " " body) with (" " +:+ body). apply span_app; [done|]. subst body. by apply name_not_blank. }
    rewrite Hsp. cbn [snd]. subst body. rewrite name_not_bracket by done.
    rewrite str_cut_app by (by apply sd_name_spec in Hk as [? ?]).
    cbn [char]. rewrite Ascii.eqb_refl, sd_value_escape, (dict_wf_next _ _ _ _ Hwf).
    rewrite IH; [by rewrite <- app_assoc|lia|by rewrite <- app_assoc|done].
Qed.

Lemma write_params_length ps rest : (length ps <= String.length (write_params ps rest))%nat.
Proof.
  induction ps as [|kv ps IH]; cbn [length write_params]; [lia|].
  rewrite write_param_cons. cbn [String.length]. rewrite str_length_app. cbn [String.length].
  rewrite str_length_app. cbn [String.length]. lia.
Qed.

Lemma id_chars id : sd_name id = true -> all_chars id_char id = true.
Proof.
  intros (_ & Hb & Hr)%sd_name_spec. induction id as [|a id IH]; [done|]. cbn [has_char all_chars] in *.
  apply orb_false_iff in Hb as [Ha Hb], Hr as [Ha' Hr]. unfold id_char at 1. by rewrite Ha, Ha', IH.
Qed.

Lemma params_start ps rest : starts_with id_char (write_params ps (String "]" rest)) = false.
Proof. destruct ps as [|kv ps]; [done|]. cbn [write_params]. by rewrite write_param_cons. Qed.

Lemma parse_elements_write fuel sd acc rest : (length sd < fuel)%nat -> dict_wf (acc ++ sd)%list ->
  Forall (fun e => sd_name e.1 = true /\ dict_wf e.2 /\ Forall (fun kv => sd_name kv.1 = true) e.2) sd ->
  starts_with (Ascii.eqb "[") rest = false ->
  parse_elements fuel (write_elements sd rest) acc = Some ((acc ++ sd)%list, str_lstrip rest).
Proof.
  revert fuel acc. induction sd as [|[id ps] sd IH]; intros [|fuel] acc Hf Hwf Hsd Hr; cbn [length] in Hf; try lia.
  - cbn [write_elements parse_elements]. rewrite app_nil_r. destruct rest as [|a rest]; [done|]. cbn [starts_with] in Hr.
    rewrite Ascii.eqb_sym in Hr. by rewrite Hr.
  - apply Forall_cons in Hsd as [(Hid & Hps & Hnames) Hsd]. cbn [fst snd] in *. cbn [write_elements].
    change ("[" +:+ ?t) with (String "[" t). cbn [parse_elements]. change (Ascii.eqb "[" "[") with true. cbn match.
    change ("]" +:+ ?t) with (String "]" t).
    rewrite (span_app id_char id _ (id_chars id Hid) (params_start ps _)).
    rewrite parse_params_write; [|pose proof (write_params_length ps (String "]" (write_elements sd rest))); lia|done|done].
    change (([] ++ ps)%list) with ps. cbn [str_drop]. rewrite (dict_wf_next (A := sd_params) id ps acc sd Hwf).
    rewrite IH; [by rewrite <- app_assoc|lia|by rewrite <- app_assoc|done|done].
Qed.

Lemma write_elements_length sd rest : (length sd <= String.length (write_elements sd rest))%nat.
Proof.
  induction sd as [|[id ps] sd IH]; cbn [length write_elements]; [lia|].
  rewrite !str_length_app. cbn [String.length].
  assert (forall t, String.length t <= String.length (write_params ps t))%nat as Hw.
  { intros t. clear. induction ps as [|kv ps IH]; cbn [write_params]; [done|]. rewrite str_length_app. lia. }
  specialize (Hw ("]" +:+ write_elements sd rest)). rewrite str_length_app in Hw. cbn [String.length] in Hw. lia.
Qed.

Lemma parse_sd_write sd rest : sd_writable sd -> starts_with (Ascii.eqb "[") rest = false ->
  parse_structured_data (write_sd sd rest) = Some (sd, str_lstrip rest).
Proof.
  intros [Hwf Hsd] Hr. unfold parse_structured_data. destruct sd as [|[id ps] sd]; [done|].
  unfold write_sd. cbn [write_elements]. change ("[" +:+ ?t) with (String "[" t). cbn [char].
  change (Ascii.eqb "[" "-") with false. cbn match.
  change (String "[" (id +:+ write_params ps ("]" +:+ write_elements sd rest))) with (write_elements ((id, ps) :: sd) rest).
  rewrite parse_elements_write; [done|apply Nat.lt_succ_r, (write_elements_length ((id, ps) :: sd))|done|done|done].
Qed.

(** ** Trailing characters *)

Lemma rstrip_app p s t : rstrip p t <> "" -> rstrip p (s +:+ t) = s +:+ rstrip p t.
Proof.
  intros Ht. induction s as [|a s IH]; [done|].
  change (String a s +:+ t) with (String a (s +:+ t)). cbn [rstrip]. rewrite IH.
  change (String a s +:+ rstrip p t) with (String a (s +:+ rstrip p t)).
  destruct (s +:+ rstrip p t) as [|b u] eqn:E; [|done].
  destruct s; [by rewrite <- E in Ht|done].
Qed.
Lemma rstrip_solid p s c t : p c = false -> rstrip p (s +:+ String c t) = s +:+ String c (rstrip p t).
Proof.
  intros Hc. assert (rstrip p (String c t) = String c (rstrip p t)) as E.
  { cbn [rstrip]. destruct (rstrip p t); [by rewrite Hc|done]. }
  rewrite rstrip_app; rewrite E; done.
Qed.
Lemma rstrip_nonempty p s : rstrip p s = s -> s <> "" -> rstrip p s <> "".
Proof. by intros ->. Qed.
Lemma rstrip_cons_inv p a s : rstrip p (String a s) = String a s -> rstrip p s = s.
Proof. cbn [rstrip]. destruct (rstrip p s) as [|b u]; [|congruence]. destruct (p a); [done|]. congruence. Qed.

Lemma lstrip_snoc s a : str_lstrip (s +:+ String a "") =
  match str_lstrip s with "" => if is_space a then "" else String a "" | t => t +:+ String a "" end.
Proof.
  induction s as [|b s IH]; [done|]. change (String b s +:+ String a "") with (String b (s +:+ String a "")).
  cbn [str_lstrip]. by destruct (is_space b).
Qed.
Lemma rstrip_rev s : str_rev (str_lstrip (str_rev s)) = rstrip is_space s.
Proof.
  induction s as [|a s IH]; [done|]. rewrite str_rev_cons, lstrip_snoc. cbn [rstrip]. rewrite <- IH.
  destruct (str_lstrip (str_rev s)) as [|b u]; [by destruct (is_space a)|].
  rewrite str_rev_snoc. destruct (str_rev (String b u)) eqn:E2; [|done].
  apply (f_equal str_rev) in E2. by rewrite str_rev_involutive in E2.
Qed.
Lemma str_strip_solid s : starts_with is_space s = false -> rstrip is_space s = s -> str_strip s = s.
Proof.
  intros Hs Hr. unfold str_strip. assert (str_lstrip s = s) as -> by (destruct s; cbn in *; [done|by rewrite Hs]).
  by rewrite rstrip_rev.
Qed.

(** ** A CEF event *)

Definition cef_special (a : ascii) : bool := Ascii.eqb a "|" || Ascii.eqb a "\".
Definition ext_special (a : ascii) : bool := Ascii.eqb a "=" || Ascii.eqb a "\".

Definition write_pair (kv : string * string) : string := kv.1 +:+ String "=" (escape ext_special kv.2).
Fixpoint write_ext (ext : extension) : string :=
  match ext with
  | [] => ""
  | [kv] => write_pair kv
  | kv :: ext' => write_pair kv +:+ String " " (write_ext ext')
  end.
Definition write_field (f : string) (rest : string) : string := escape cef_special f +:+ String "|" rest.
Definition write_cef (c : cef) : string :=
  "CEF:" +:+ write_field (cef_version c) (write_field (cef_vendor c) (write_field (cef_product c) (write_field (cef_pversion c)
    (write_field (cef_sig c) (write_field (cef_name c) (write_field (cef_severity c) (write_ext (cef_ext c)))))))).

(** Keys are words; a value does not end in a blank; the version has none around. *)
Definition pair_writable (kv : string * string) : Prop :=
  kv.1 <> "" /\ all_chars key_char kv.1 = true /\ rstrip is_space kv.2 = kv.2.
Definition cef_writable (c : cef) : Prop :=
  str_strip (cef_version c) = cef_version c /\ dict_wf (cef_ext c) /\ Forall pair_writable (cef_ext c).

Lemma cef_split_field n cur f rest : cef_split (S n) cur (write_field f rest) = (cur +:+ f) :: cef_split n "" rest.
Proof.
  unfold write_field. revert cur. induction f as [|a f IH]; intros cur.
  - by rewrite str_app_nil.
  - assert ((cur +:+ String a "") +:+ f = cur +:+ String a f) as Happ by by rewrite str_app_assoc.
    cbn [escape]. destruct (cef_special a) eqn:Ea.
    + change (String "\" (String a (escape cef_special f)) +:+ String "|" rest)
        with (String "\" (String a (escape cef_special f +:+ String "|" rest))).
      cbn [cef_split]. change (Ascii.eqb "\" "|") with false. change (Ascii.eqb "\" "\") with true. cbn match.
      by rewrite IH, Happ.
    + change (String a (escape cef_special f) +:+ String "|" rest) with (String a (escape cef_special f +:+ String "|" rest)).
      apply orb_false_iff in Ea as [Ea Eb]. cbn [cef_split]. rewrite Ea, Eb.
      destruct (escape cef_special f +:+ String "|" rest) eqn:E; by rewrite IH, Happ.
Qed.

Lemma cef_split_rest cur s : cef_split 0 cur s = [s].
Proof. by destruct s. Qed.

(** *** The values *)

Lemma unescape_cons c a t : (forall b u, t = String b u -> Ascii.eqb a "\" && Ascii.eqb b c = false) ->
  unescape c (String a t) = String a (unescape c t).
Proof. intros Hn. cbn [unescape]. destruct t as [|b u]; [done|]. by rewrite (Hn b u eq_refl). Qed.

Lemma unescape_equal v : unescape "=" (escape ext_special v) = escape (Ascii.eqb "\") v.
Proof.
  induction v as [|a v IH]; [done|]. cbn [escape]. unfold ext_special at 1.
  destruct (Ascii.eqb_spec a "=") as [->|Hne]; cbn [orb].
  - change (Ascii.eqb "\" "=") with false. cbn [unescape]. change (Ascii.eqb "\" "\" && Ascii.eqb "=" "=") with true. cbn match.
    by rewrite IH.
  - destruct (Ascii.eqb_spec a "\") as [->|Hb].
    + change (Ascii.eqb "\" "\") with true. cbn match. rewrite unescape_cons by (by intros ? ? [= <- <-]).
      rewrite unescape_cons, IH; [done|]. intros b u E. change (Ascii.eqb "\" "\") with true. cbn [andb].
      destruct v as [|x v]; [done|]. cbn [escape] in E. unfold ext_special at 1 in E.
      destruct (Ascii.eqb_spec x "="); cbn [orb] in E; [by injection E as <- _|].
      destruct (Ascii.eqb x "\"); injection E as <- _; [done|by apply Ascii.eqb_neq].
    + assert (Ascii.eqb "\" a = false) as -> by (apply Ascii.eqb_neq; congruence).
      rewrite unescape_cons, IH; [done|]. intros b u _. by apply Ascii.eqb_neq in Hb as ->.
Qed.
Lemma unescape_slash v : unescape "\" (escape (Ascii.eqb "\") v) = v.
Proof.
  induction v as [|a v IH]; [done|]. cbn [escape]. destruct (Ascii.eqb_spec "\" a) as [<-|Hb].
  - cbn [unescape]. change (Ascii.eqb "\" "\" && Ascii.eqb "\" "\") with true. cbn match. by rewrite IH.
  - rewrite unescape_cons, IH; [done|]. intros b u _.
    assert (Ascii.eqb a "\" = false) as -> by (apply Ascii.eqb_neq; congruence). done.
Qed.

(** *** Where a new pair begins *)

Definition ends_value (t : string) : Prop := t = "" \/ exists u, t = String " " u.

Lemma key_ahead_escaped v t : ends_value t -> key_ahead (escape ext_special v +:+ t) = false.
Proof.
  intros Ht. unfold key_ahead, many1, some_of.
  assert (char "=" (span key_char (escape ext_special v +:+ t)).2 = None) as Hc.
  { induction v as [|a v IH].
    - change (escape ext_special "" +:+ t) with t. by destruct Ht as [->|[u ->]].
    - cbn [escape]. unfold ext_special at 1. destruct (Ascii.eqb a "=" || Ascii.eqb a "\") eqn:Ea.
      + by change (String "\" (String a (escape ext_special v)) +:+ t) with (String "\" (String a (escape ext_special v +:+ t))).
      + change (String a (escape ext_special v) +:+ t) with (String a (escape ext_special v +:+ t)). cbn [span].
        apply orb_false_iff in Ea as [Ea _]. destruct (key_char a).
        * by destruct (span key_char (escape ext_special v +:+ t)).
        * cbn [snd char]. by rewrite Ea. }
  destruct (span key_char _) as [x y]. cbn [fst snd] in *. destruct x; [done|]. by rewrite Hc.
Qed.

Definition glue (s : string) (l : list string) : list string := match l with w :: ws => (s +:+ w) :: ws | [] => [s] end.

Lemma split_pairs_nonempty d s : split_pairs d s <> [].
Proof. revert d. induction s as [|a s IH]; intros d; [done|]. cbn [split_pairs]. repeat case_match; done. Qed.

Lemma split_pairs_step d a s : is_space a = false -> split_pairs d (String a s) = glue (String a "") (split_pairs false s).
Proof. intros Ha. cbn [split_pairs]. rewrite Ha. cbn [andb]. by destruct (split_pairs false s). Qed.
Lemma glue_glue s t l : glue s (glue t l) = glue (s +:+ t) l.
Proof. destruct l; cbn; [done|]. by rewrite str_app_assoc. Qed.

Lemma split_pairs_solid s t : all_chars not_space s = true -> split_pairs false (s +:+ t) = glue s (split_pairs false t).
Proof.
  induction s as [|a s IH]; cbn [all_chars].
  - intros _. change ("" +:+ t) with t. pose proof (split_pairs_nonempty false t). by destruct (split_pairs false t).
  - intros [Ha Hs]%andb_true_iff. apply negb_true_iff in Ha. change (String a s +:+ t) with (String a (s +:+ t)).
    by rewrite split_pairs_step, IH, glue_glue by done.
Qed.

Lemma special_solid a : ext_special a = true -> is_space a = false.
Proof. unfold ext_special. by intros [E%Ascii.eqb_eq|E%Ascii.eqb_eq]%orb_true_iff; subst a. Qed.

Lemma lstrip_escaped v t : rstrip is_space v = v -> v <> "" ->
  exists u, u <> "" /\ str_lstrip (escape ext_special v +:+ t) = escape ext_special u +:+ t.
Proof.
  induction v as [|a v IH]; [done|]. intros Hr _. cbn [escape]. destruct (ext_special a) eqn:Ea.
  - exists (String a v). split; [done|]. cbn [escape]. by rewrite Ea.
  - change (String a (escape ext_special v) +:+ t) with (String a (escape ext_special v +:+ t)). cbn [str_lstrip].
    destruct (is_space a) eqn:Es.
    + apply IH; [by eapply rstrip_cons_inv|]. intros ->. cbn in Hr. by rewrite Es in Hr.
    + exists (String a v). split; [done|]. cbn [escape]. by rewrite Ea.
Qed.

Lemma split_pairs_value v t : rstrip is_space v = v -> ends_value t ->
  split_pairs false (escape ext_special v +:+ t) = glue (escape ext_special v) (split_pairs false t).
Proof.
  intros Hr Ht. induction v as [|a v IH].
  - by apply (split_pairs_solid "").
  - specialize (IH (rstrip_cons_inv _ _ _ Hr)). cbn [escape]. destruct (ext_special a) eqn:Ea.
    + change (String "\" (String a (escape ext_special v)) +:+ t) with (String "\" (String a (escape ext_special v +:+ t))).
      rewrite split_pairs_step by done. rewrite split_pairs_step by by apply special_solid. by rewrite IH, !glue_glue.
    + change (String a (escape ext_special v) +:+ t) with (String a (escape ext_special v +:+ t)).
      destruct (is_space a) eqn:Es; [|by rewrite split_pairs_step, IH, glue_glue].
      cbn [split_pairs]. rewrite Es. cbn [andb].
      assert (v <> "") as Hv by (intros ->; cbn in Hr; by rewrite Es in Hr).
      destruct (lstrip_escaped v t (rstrip_cons_inv _ _ _ Hr) Hv) as (u & _ & ->).
      rewrite key_ahead_escaped by done. rewrite IH. by destruct (split_pairs false t).
Qed.

(** *** Extension and event *)

Lemma key_char_solid s : all_chars key_char s = true -> all_chars not_space s = true.
Proof.
  apply all_chars_impl. intros [[] [] [] [] [] [] [] []]; vm_compute; congruence.
Qed.
Lemma key_char_no_equal s : all_chars key_char s = true -> has_char "=" s = false.
Proof.
  induction s as [|a s IH]; cbn [all_chars has_char]; [done|]. intros [Ha Hs]%andb_true_iff. rewrite IH, orb_false_r by done.
  destruct (Ascii.eqb_spec a "=") as [->|]; done.
Qed.

Lemma split_pairs_pair kv t : pair_writable kv -> ends_value t ->
  split_pairs false (write_pair kv +:+ t) = glue (write_pair kv) (split_pairs false t).
Proof.
  intros (Hne & Hk & Hv) Ht. unfold write_pair. rewrite str_app_assoc.
  rewrite split_pairs_solid by by apply key_char_solid.
  change (String "=" (escape ext_special kv.2) +:+ t) with (String "=" (escape ext_special kv.2 +:+ t)).
  rewrite split_pairs_step by done. rewrite split_pairs_value by done. by rewrite !glue_glue, str_app_assoc.
Qed.

Lemma write_pair_start kv t : pair_writable kv ->
  exists a u, write_pair kv +:+ t = String a u /\ is_space a = false.
Proof.
  intros (Hne & Hk & _). destruct kv as [[|a k] v]; [done|]. cbn [fst] in *.
  exists a, ((k +:+ String "=" (escape ext_special v)) +:+ t). split; [done|].
  apply key_char_solid in Hk. cbn [all_chars] in Hk. apply andb_true_iff in Hk as [Hk _]. by apply negb_true_iff.
Qed.
Lemma write_ext_start kv ext : pair_writable kv -> exists a u, write_ext (kv :: ext) = String a u /\ is_space a = false.
Proof.
  intros Hkv. destruct ext as [|kv' ext]; cbn [write_ext]; [|by apply write_pair_start].
  destruct (write_pair_start kv "" Hkv) as (a & u & E & Ha). rewrite str_app_nil in E. by exists a, u.
Qed.

Lemma pair_key_ahead kv t : pair_writable kv -> key_ahead (write_pair kv +:+ t) = true.
Proof.
  intros (Hne & Hk & _). unfold key_ahead, write_pair. rewrite str_app_assoc, many1_app by done. done.
Qed.
Lemma write_ext_ahead kv ext : pair_writable kv -> key_ahead (write_ext (kv :: ext)) = true.
Proof.
  intros Hkv. destruct ext as [|kv' ext]; cbn [write_ext]; [|by apply pair_key_ahead].
  rewrite <- (pair_key_ahead kv "" Hkv). by rewrite str_app_nil.
Qed.

Lemma split_pairs_ext kv ext : Forall pair_writable (kv :: ext) ->
  split_pairs false (write_ext (kv :: ext)) = write_pair <$> kv :: ext.
Proof.
  revert kv. induction ext as [|kv' ext IH]; intros kv (Hkv & Hext)%Forall_cons.
  - pose proof (split_pairs_pair kv "" Hkv (or_introl eq_refl)) as E. rewrite str_app_nil in E.
    cbn [write_ext]. rewrite E. cbn. by rewrite str_app_nil.
  - change (write_ext (kv :: kv' :: ext)) with (write_pair kv +:+ String " " (write_ext (kv' :: ext))).
    rewrite split_pairs_pair; [|done|right; by eexists].
    apply Forall_cons in Hext as Hext'. destruct Hext' as [Hkv' _].
    assert (split_pairs false (String " " (write_ext (kv' :: ext))) = "" :: split_pairs false (write_ext (kv' :: ext))) as ->.
    { cbn [split_pairs]. change (is_space " ") with true. cbn [andb].
      destruct (write_ext_start kv' ext Hkv') as (a & u & E & Ha).
      assert (str_lstrip (write_ext (kv' :: ext)) = write_ext (kv' :: ext)) as -> by (rewrite E; cbn; by rewrite Ha).
      rewrite write_ext_ahead by done. rewrite E, !split_pairs_step by done. done. }
    rewrite IH by done. cbn [glue fmap list_fmap]. by rewrite str_app_nil.
Qed.

Lemma escape_rstrip v : rstrip is_space v = v -> rstrip is_space (escape ext_special v) = escape ext_special v.
Proof.
  induction v as [|a v IH]; [done|]. intros Hr. specialize (IH (rstrip_cons_inv _ _ _ Hr)). cbn [escape].
  destruct (ext_special a) eqn:Ea.
  - change (String "\" (String a (escape ext_special v))) with ("\" +:+ String a (escape ext_special v)).
    apply special_solid in Ea. by rewrite rstrip_solid, IH.
  - cbn [rstrip]. rewrite IH. destruct v as [|b v]; [by cbn in Hr; destruct (is_space a)|].
    cbn [escape]. by destruct (ext_special b).
Qed.
Lemma write_ext_rstrip ext : Forall pair_writable ext -> rstrip is_space (write_ext ext) = write_ext ext.
Proof.
  induction ext as [|kv ext IH]; [done|]. intros [(Hne & Hk & Hv) Hext]%Forall_cons. specialize (IH Hext).
  destruct ext as [|kv' ext].
  - cbn [write_ext]. unfold write_pair. by rewrite rstrip_solid, escape_rstrip.
  - change (write_ext (kv :: kv' :: ext)) with (write_pair kv +:+ (" " +:+ write_ext (kv' :: ext))).
    apply Forall_cons in Hext as [Hkv' _]. destruct (write_ext_start kv' ext Hkv') as (a & u & E & Ha).
    assert (rstrip is_space (" " +:+ write_ext (kv' :: ext)) = " " +:+ write_ext (kv' :: ext)) as E2.
    { rewrite rstrip_app; rewrite IH; [done|]. by rewrite E. }
    rewrite rstrip_app; by rewrite E2.
Qed.

Lemma collect_write (f : string * string -> string * string) ext acc :
  (forall kv, kv ∈ ext -> has_char "=" kv.1 = false /\ f (kv.1, escape ext_special kv.2) = kv) -> dict_wf (acc ++ ext)%list ->
  foldl (fun out part => match str_cut "=" part with Some kv => dict_set (f kv).1 (f kv).2 out | None => out end) acc
    (write_pair <$> ext) = (acc ++ ext)%list.
Proof.
  revert acc. induction ext as [|kv ext IH]; intros acc Hf Hwf; cbn [fmap list_fmap foldl]; [by rewrite app_nil_r|].
  destruct (Hf kv ltac:(left)) as [Hk Hkv]. 
  assert (str_cut "=" (write_pair kv) = Some (kv.1, escape ext_special kv.2)) as -> by by apply str_cut_app.
  rewrite Hkv.
  destruct kv as [k v]. cbn [fst snd]. rewrite (dict_wf_next _ _ _ _ Hwf).
  rewrite IH; [by rewrite <- app_assoc|intros kv Hin; apply Hf; by right|by rewrite <- app_assoc].
Qed.

Lemma split_ext_write ext : dict_wf ext -> Forall pair_writable ext -> split_ext (write_ext ext) (Some " ") = ext.
Proof.
  intros Hwf Hext. destruct ext as [|kv ext]; [done|]. unfold split_ext.
  pose proof Hext as Hext'. apply Forall_cons in Hext' as [Hkv _]. destruct (write_ext_start kv ext Hkv) as (a & u & E & Ha).
  assert (String.eqb (write_ext (kv :: ext)) "" = false) as -> by by rewrite E.
  rewrite bool_decide_eq_true_2 by done.
  rewrite str_strip_solid; [|by rewrite E|by apply write_ext_rstrip].
  rewrite split_pairs_ext by done. unfold collect.
  rewrite (collect_write (fun '(k, v) => (k, unescape "\" (unescape "=" v))) (kv :: ext) []); [done| |done].
  intros [k v] Hin. eapply Forall_forall in Hext as (_ & Hk & _); [|exact Hin]. cbn [fst snd] in *.
  split; [by apply key_char_no_equal|]. by rewrite unescape_equal, unescape_slash.
Qed.

Lemma cef_before p rest : str_contains "CEF:" p = false -> str_after "CEF:" (p +:+ ("CEF:" +:+ rest)) = Some rest.
Proof.
  induction p as [|a p IH]; [done|]. cbn [str_contains]. intros [Hp Hr]%orb_false_iff.
  change (String a p +:+ ("CEF:" +:+ rest)) with (String a (p +:+ ("CEF:" +:+ rest))). cbn [str_after].
  assert (str_prefix "CEF:" (String a (p +:+ ("CEF:" +:+ rest))) = false) as ->; [|by apply IH].
  destruct p as [|b [|c [|d p]]].
  - cbn. by destruct (Ascii.eqb "C" a).
  - cbn. destruct (Ascii.eqb "C" a), (Ascii.eqb "E" b); done.
  - cbn. destruct (Ascii.eqb "C" a), (Ascii.eqb "E" b), (Ascii.eqb "F" c); done.
  - exact Hp.
Qed.

Lemma parse_cef_write p c : str_contains "CEF:" p = false -> cef_writable c -> parse_cef (p +:+ write_cef c) = Some c.
Proof.
  intros Hp (Hver & Hwf & Hext). unfold parse_cef, write_cef. rewrite cef_before by done. cbn [mbind option_bind].
  rewrite !cef_split_field, cef_split_rest. cbv match beta. rewrite split_ext_write by done.
  change (str_strip ("" +:+ cef_version c)) with (str_strip (cef_version c)). rewrite Hver. by destruct c.
Qed.

(** ** The header *)

Record message := Message {
  m_pri : Z; m_ts : string; m_host : string; m_app : string; m_procid : string; m_msgid : string;
  m_sd : structured_data; m_text : string; m_cef : option cef }.

Definition write_body (m : message) : string := m_text m +:+ match m_cef m with Some c => write_cef c | None => "" end.
Definition write_line (m : message) : string :=
  "<" +:+ str_of_Z (m_pri m) +:+ ">1 " +:+ m_ts m +:+ " " +:+ m_host m +:+ " " +:+ m_app m +:+ " " +:+ m_procid m +:+ " "
    +:+ m_msgid m +:+ " " +:+ write_sd (m_sd m) (" " +:+ write_body m).

(** A field: one character or more, none of them a blank. *)
Definition field_writable (s : string) : Prop := s <> "" /\ all_chars not_space s = true.
(** The message begins with no blank, ends in no line end and carries at most the
    one event. *)
Definition message_writable (m : message) : Prop :=
  (0 <= m_pri m <= 191)%Z /\ Forall field_writable [m_ts m; m_host m; m_app m; m_procid m; m_msgid m] /\
  sd_writable (m_sd m) /\ starts_with is_space (write_body m) = false /\ rstrip newline_char (write_body m) = write_body m /\
  str_contains "CEF:" (m_text m) = false /\
  match m_cef m with Some c => cef_writable c | None => str_after "LEEF:" (m_text m) = None end.

Lemma pri_digits p : (0 <= p <= 191)%Z ->
  str_of_Z p <> "" /\ (String.length (str_of_Z p) <= 3)%nat /\ all_chars is_digit10 (str_of_Z p) = true /\
  digits_value (str_of_Z p) = p.
Proof.
  intros Hp.
  assert (forallb (fun p => negb (String.eqb (str_of_Z p) "") && (String.length (str_of_Z p) <=? 3)%nat
            && all_chars is_digit10 (str_of_Z p) && Z.eqb (digits_value (str_of_Z p)) p) (seqZ 0 192) = true) as Hall
    by by vm_compute.
  assert (p ∈ seqZ 0 192) as Hin by (apply elem_of_seqZ; lia). apply list_elem_of_In in Hin.
  eapply forallb_forall in Hall; [|exact Hin].
  rewrite !andb_true_iff, negb_true_iff, String.eqb_neq, Nat.leb_le, Z.eqb_eq in Hall. tauto.
Qed.

Lemma token_app s t : field_writable s -> token (s +:+ (" " +:+ t)) = Some (s, " " +:+ t).
Proof. intros [Hne Hs]. by apply many1_app. Qed.
Lemma blanks_space t : starts_with is_space t = false -> blanks (" " +:+ t) = Some t.
Proof. intros Ht. unfold blanks. by rewrite many1_app. Qed.
Lemma field_start s t : field_writable s -> starts_with is_space (s +:+ t) = false.
Proof.
  intros [Hne Hs]. destruct s as [|a s]; [done|]. cbn [all_chars] in Hs. apply andb_true_iff in Hs as [Ha _].
  by apply negb_true_iff in Ha.
Qed.
Lemma sd_start sd rest : starts_with is_space (write_sd sd rest) = false.
Proof. by destruct sd as [|[id ps] sd]. Qed.

Lemma scan_5424_write m : message_writable m ->
  scan_5424 (write_line m) =
    Some (Header5424 (m_pri m) "1" (m_ts m) (m_host m) (m_app m) (m_procid m) (m_msgid m)
            (write_sd (m_sd m) (" " +:+ write_body m))).
Proof.
  intros (Hp & Hf & _). destruct (pri_digits _ Hp) as (Hd1 & Hd2 & Hd3 & Hd4).
  rewrite !Forall_cons in Hf. destruct Hf as (Hts & Hhost & Happ & Hproc & Hid & _).
  unfold scan_5424, write_line, scan_pri.
  change ("<" +:+ ?t) with (String "<" t). change (">1 " +:+ ?t) with (String ">" ("1" +:+ (" " +:+ t))).
  cbn [char]. rewrite Ascii.eqb_refl. cbn [mbind option_bind]. rewrite upto_app by done. cbn [mbind option_bind char].
  rewrite Ascii.eqb_refl. cbn [mbind option_bind]. rewrite upto_app by (done || (cbn; lia)). cbn [mbind option_bind].
  repeat (rewrite blanks_space by (apply field_start; done || apply sd_start); cbn [mbind option_bind];
          rewrite token_app by done; cbn [mbind option_bind]).
  rewrite blanks_space by apply sd_start. cbn [mbind option_bind]. by rewrite Hd4.
Qed.

Lemma write_elements_app sd rest : write_elements sd rest = write_elements sd "" +:+ rest.
Proof.
  assert (forall ps t u, write_params ps (t +:+ u) = write_params ps t +:+ u) as Hps.
  { intros ps t u. induction ps as [|kv ps IH]; [done|]. cbn [write_params]. by rewrite IH, str_app_assoc. }
  induction sd as [|[id ps] sd IH]; [done|]. cbn [write_elements]. rewrite IH.
  change ("]" +:+ (write_elements sd "" +:+ rest)) with (("]" +:+ write_elements sd "") +:+ rest).
  by rewrite Hps, <- !str_app_assoc.
Qed.
Lemma write_sd_app sd rest : write_sd sd rest = write_sd sd "" +:+ rest.
Proof. destruct sd as [|e sd]; [done|]. apply write_elements_app. Qed.

Lemma write_line_rstrip m : message_writable m -> rstrip newline_char (write_line m) = write_line m.
Proof.
  intros (_ & _ & _ & _ & Hr & _). unfold write_line. rewrite write_sd_app, <- !str_app_assoc.
  rewrite str_app_assoc. change (" " +:+ write_body m) with (String " " (write_body m)).
  rewrite !str_app_assoc. by rewrite <- !str_app_assoc, rstrip_solid, Hr.
Qed.

Section round_trip.
Context `{FromIso} `{IsoMillis}.
Context (now_year now : Z).

(** A written line is read back. *)
Lemma read_written_line m ts :
  message_writable m -> parse_5424_ts (m_ts m) = Ok ts ->
  parse_syslog_line now_year now (write_line m) =
    Some (Ok (Parsed Rfc5424 (write_line m) (pri_fields (Some (m_pri m))) 1 ts false (dash (m_host m)) (dash (m_app m))
                (dash (m_procid m)) (dash (m_msgid m)) (m_sd m) (write_body m) (m_cef m) None)).
Proof.
  intros Hm Hts. unfold parse_syslog_line. rewrite (write_line_rstrip m Hm).
  unfold read_header. rewrite (scan_5424_write m Hm). cbn [h_version]. change (String.eqb "1" "1") with true. cbv match.
  unfold read_5424. cbn [h_rest h_ts h_pri h_host h_app h_procid h_msgid].
  destruct Hm as (_ & _ & Hsd & Hb & _ & Hp & Hc).
  rewrite parse_sd_write by done. rewrite Hts. cbn [mbind option_bind result_bind].
  assert (str_lstrip (" " +:+ write_body m) = write_body m) as ->.
  { change (" " +:+ write_body m) with (String " " (write_body m)). cbn [str_lstrip]. change (is_space " ") with true.
    cbv match. destruct (write_body m); cbn in *; [done|by rewrite Hb]. }
  unfold read_payload. cbn [o_msg o_format o_raw o_prio o_version o_timestamp o_inferred o_host o_app o_procid o_msgid o_sd].
  unfold write_body in *. destruct (m_cef m) as [c|].
  - by rewrite parse_cef_write.
  - rewrite str_app_nil. assert (str_after "CEF:" (m_text m) = None) as Hn.
    { clear -Hp. induction (m_text m) as [|a s IH]; [done|]. cbn [str_contains str_after] in *.
      apply orb_false_iff in Hp as [-> Hp]. by apply IH. }
    unfold parse_cef. rewrite Hn. cbn [mbind option_bind]. unfold parse_leef. by rewrite Hc.
Qed.

(** C21 [rfc5424_round_trip] An RFC 5424 line, written with the escapes of its
    structured data and with a CEF event whose header and extension are escaped
    too, is read back field by field: priority, timestamp, names ([-] for none),
    every element and parameter, the text, and the event. *)
Theorem rfc5424_round_trip m ts :
  message_writable m -> parse_5424_ts (m_ts m) = Ok ts ->
  parse_syslog_line now_year now (write_line m) =
    Some (Ok (Parsed Rfc5424 (write_line m) (pri_fields (Some (m_pri m))) 1 ts false (dash (m_host m)) (dash (m_app m))
                (dash (m_procid m)) (dash (m_msgid m)) (m_sd m) (write_body m) (m_cef m) None)).
Proof. apply read_written_line. Qed.
End round_trip.

(** ** An example *)

#[local] Instance demo_from_iso : FromIso := fun s => if String.eqb s "2026-09-06T01:02:03+00:00" then Some (42, Some 0)%Z else None.
#[local] Instance demo_millis : IsoMillis := fun _ => "2026-09-06T01:02:03.000Z".

Definition demo_message : message :=
  Message 134 "2026-09-06T01:02:03Z" "fw01" "sshd" "-" "ID47"
    [("exampleSDID@32473", [("iut", "3"); ("eventSource", "a ]\ " +:+ DQ +:+ "b" +:+ DQ)]); ("empty", [])]
    "note: " (Some (Cef "0" "Acme|Co" "WAF" "1.0" "100" "a\b" "5" [("src", "10.0.0.1"); ("msg", "k=v \ x y"); ("cs1", "")])).

Example rfc5424_round_trip_witness :
  message_writable demo_message /\
  parse_syslog_line 2026 0 (write_line demo_message) =
    Some (Ok (Parsed Rfc5424 (write_line demo_message) (pri_fields (Some 134)) 1 (Some "2026-09-06T01:02:03.000Z") false
                (Some "fw01") (Some "sshd") None (Some "ID47") (m_sd demo_message) (write_body demo_message)
                (m_cef demo_message) None))%Z.
Proof.
  assert (message_writable demo_message) as Hm.
  { split; [split; vm_compute; congruence|]. split; [repeat constructor; vm_compute; congruence|].
    split; [split; [vm_compute; repeat constructor; set_solver|repeat constructor; try done; vm_compute; repeat constructor; set_solver]|].
    do 3 (split; [vm_compute; reflexivity|]). split; [vm_compute; reflexivity|].
    split; [vm_compute; repeat constructor; set_solver|repeat constructor; vm_compute; congruence]. }
  split; [exact Hm|]. exact (rfc5424_round_trip 2026 0 demo_message _ Hm eq_refl).
Defined.
