(* ===== verification/Base64.v ===== *)
(** * URL-safe base64

    [base64.urlsafe_b64encode] and the lenient [urlsafe_b64decode] of the Standard
    Library of Python, on bytes: characters outside the alphabet are skipped, a
    complete padding ends the text. *)

From S2P Require Import Prelude PyVal.

Local Open Scope string_scope.

(** Six bits, the lowest first. *)
Inductive sextet := Sx (b0 b1 b2 b3 b4 b5 : bool).

Definition sextet_value (x : sextet) : N :=
  let 'Sx b0 b1 b2 b3 b4 b5 := x in
  (N.b2n b0 + 2 * N.b2n b1 + 4 * N.b2n b2 + 8 * N.b2n b3 + 16 * N.b2n b4 + 32 * N.b2n b5)%N.
Definition sextet_of (n : N) : sextet :=
  Sx (N.testbit n 0) (N.testbit n 1) (N.testbit n 2) (N.testbit n 3) (N.testbit n 4) (N.testbit n 5).

Definition b64_char (x : sextet) : ascii :=
  let v := sextet_value x in
  if (v <? 26)%N then ascii_of_N (v + 65) else if (v <? 52)%N then ascii_of_N (v + 71)
  else if (v <? 62)%N then ascii_of_N (v - 4) else if (v =? 62)%N then "-" else "_".

Definition b64_value (a : ascii) : option sextet :=
  let n := N_of_ascii a in
  if in_range 65 90 a then Some (sextet_of (n - 65))
  else if in_range 97 122 a then Some (sextet_of (n - 71))
  else if in_range 48 57 a then Some (sextet_of (n + 4))
  else if Ascii.eqb a "-" || Ascii.eqb a "+" then Some (sextet_of 62)
  else if Ascii.eqb a "_" || Ascii.eqb a "/" then Some (sextet_of 63)
  else None.

(** [urlsafe_b64encode]. *)
Fixpoint b64_encode (s : string) : string :=
  match s with
  | EmptyString => ""
  | String (Ascii a0 a1 a2 a3 a4 a5 a6 a7) EmptyString =>
      String (b64_char (Sx a2 a3 a4 a5 a6 a7)) (String (b64_char (Sx false false false false a0 a1)) "==")
  | String (Ascii a0 a1 a2 a3 a4 a5 a6 a7) (String (Ascii b0 b1 b2 b3 b4 b5 b6 b7) EmptyString) =>
      String (b64_char (Sx a2 a3 a4 a5 a6 a7)) (String (b64_char (Sx b4 b5 b6 b7 a0 a1))
        (String (b64_char (Sx false false b0 b1 b2 b3)) "="))
  | String (Ascii a0 a1 a2 a3 a4 a5 a6 a7) (String (Ascii b0 b1 b2 b3 b4 b5 b6 b7)
      (String (Ascii c0 c1 c2 c3 c4 c5 c6 c7) s')) =>
      String (b64_char (Sx a2 a3 a4 a5 a6 a7)) (String (b64_char (Sx b4 b5 b6 b7 a0 a1))
        (String (b64_char (Sx c6 c7 b0 b1 b2 b3)) (String (b64_char (Sx c0 c1 c2 c3 c4 c5)) (b64_encode s'))))
  end.

(** Where a quadruple stands: the sextet whose bits are pending. *)
Inductive quad := Q0 | Q1 (x : sextet) | Q2 (x : sextet) | Q3 (x : sextet).

(** [a2b_base64], not strict; [pads]: the padding characters since the last digit.
    [None]: a [binascii.Error], which is a [ValueError]. *)
Fixpoint b64_loop (s : string) (q : quad) (pads : nat) : option string :=
  match s with
  | EmptyString => match q with Q0 => Some "" | _ => None end
  | String a s' =>
      if Ascii.eqb a "=" then
        match q with
        | Q2 _ => if (2 <=? S pads)%nat then Some "" else b64_loop s' q (S pads)
        | Q3 _ => Some ""
        | _ => b64_loop s' q pads
        end
      else match b64_value a with
           | None => b64_loop s' q pads
           | Some (Sx y0 y1 y2 y3 y4 y5 as y) =>
               match q with
               | Q0 => b64_loop s' (Q1 y) 0
               | Q1 (Sx x0 x1 x2 x3 x4 x5) => String (Ascii y4 y5 x0 x1 x2 x3 x4 x5) <$> b64_loop s' (Q2 y) 0
               | Q2 (Sx x0 x1 x2 x3 x4 x5) => String (Ascii y2 y3 y4 y5 x0 x1 x2 x3) <$> b64_loop s' (Q3 y) 0
               | Q3 (Sx x0 x1 x2 x3 x4 x5) => String (Ascii y0 y1 y2 y3 y4 y5 x0 x1) <$> b64_loop s' Q0 0
               end
           end
  end.
(** [urlsafe_b64decode] of bytes. *)
Definition b64_decode (s : string) : option string := b64_loop s Q0 0.

(** ** Round trip *)

Lemma b64_digit x : Ascii.eqb (b64_char x) "=" = false /\ b64_value (b64_char x) = Some x.
Proof. by destruct x as [[] [] [] [] [] []]; vm_compute. Qed.

Lemma b64_step x s q pads : b64_loop (String (b64_char x) s) q pads =
  match q, x with
  | Q0, _ => b64_loop s (Q1 x) 0
  | Q1 (Sx x0 x1 x2 x3 x4 x5), Sx y0 y1 y2 y3 y4 y5 => String (Ascii y4 y5 x0 x1 x2 x3 x4 x5) <$> b64_loop s (Q2 x) 0
  | Q2 (Sx x0 x1 x2 x3 x4 x5), Sx y0 y1 y2 y3 y4 y5 => String (Ascii y2 y3 y4 y5 x0 x1 x2 x3) <$> b64_loop s (Q3 x) 0
  | Q3 (Sx x0 x1 x2 x3 x4 x5), Sx y0 y1 y2 y3 y4 y5 => String (Ascii y0 y1 y2 y3 y4 y5 x0 x1) <$> b64_loop s Q0 0
  end.
Proof.
  destruct (b64_digit x) as [H1 H2]. cbn [b64_loop]. rewrite H1, H2. by destruct x, q as [|[]|[]|[]].
Qed.

(** Induction three characters at a time. *)
Lemma three_at_a_time (P : string -> Prop) :
  P "" -> (forall a, P (String a "")) -> (forall a b, P (String a (String b ""))) ->
  (forall a b c s, P s -> P (String a (String b (String c s)))) -> forall s, P s.
Proof.
  intros H0 H1 H2 H3. enough (forall n s, (String.length s <= n)%nat -> P s) as He by (intros s; by eapply He).
  induction n as [|n IH]; intros [|a [|b [|c s]]] Hn; cbn [String.length] in Hn; auto; try lia.
  apply H3, IH. lia.
Qed.

Lemma b64_round s : b64_decode (b64_encode s) = Some s.
Proof.
  unfold b64_decode. induction s as [|a|a b|a b c s IH] using three_at_a_time; [done| | |].
  - destruct a as [a0 a1 a2 a3 a4 a5 a6 a7]. cbn [b64_encode]. by rewrite !b64_step.
  - destruct a as [a0 a1 a2 a3 a4 a5 a6 a7], b as [b0 b1 b2 b3 b4 b5 b6 b7]. cbn [b64_encode]. by rewrite !b64_step.
  - destruct a as [a0 a1 a2 a3 a4 a5 a6 a7], b as [b0 b1 b2 b3 b4 b5 b6 b7], c as [c0 c1 c2 c3 c4 c5 c6 c7].
    cbn [b64_encode]. by rewrite !b64_step, IH.
Qed.

(** The alphabet has none of the separators. *)
Lemma b64_no_sep c s : b64_value c = None -> c <> "="%char -> has_char c (b64_encode s) = false.
Proof.
  intros Hc Heq.
  assert (forall x, Ascii.eqb (b64_char x) c = false) as Hx.
  { intros x. apply Ascii.eqb_neq. intros Ex. destruct (b64_digit x) as [_ Hv]. congruence. }
  assert (Ascii.eqb "=" c = false) as He by (by apply Ascii.eqb_neq).
  induction s as [|a|a b|a b c' s IH] using three_at_a_time; [done|destruct a|destruct a, b|destruct a, b, c'];
    cbn [b64_encode has_char]; rewrite ?Hx, ?He; done.
Qed.

Lemma b64_nonempty s : s <> "" -> b64_encode s <> "".
Proof. by destruct s as [|[] [|[] [|[] s]]]. Qed.
