(* ===== verification/Secrets.v ===== *)
(** * Secrets at rest

    [core/secrets/]: the local Fernet backend, the envelope encryption with a
    key-management service and its cache of data keys; [services/integration_secrets.py]:
    the credentials of an integration; [services/ingest_tokens.py]: the tokens of
    the push endpoint.

    The cipher (Fernet), the key derivation, SHA-256 and the key-management service
    are parameters with their laws.  [seal] and [unseal] include the encoding of
    the text in UTF-8.  [SecretsBackend] is what the credentials rely on; both
    backends implement it. *)

From S2P Require Import Prelude PyVal Text Operators Redaction Base64.

Local Open Scope string_scope.

(** ** Parameters *)

(** [Fernet(key).encrypt(text.encode()).decode()] with its nonce and time, and
    [Fernet(key).decrypt(token).decode()], [None] where it raises. *)
Class Fernet := {
  seal : string -> string -> string -> string;
  unseal : string -> string -> option string;
}.
Class FernetLaws `{Fernet} := {
  unseal_seal k n m : unseal k (seal k n m) = Some m;
  seal_longer k n m : (String.length m <= String.length (seal k n m))%nat;
  seal_nonempty k n m : seal k n m <> "";
}.

(** A key-management service that answers. *)
Class Kms := { kms_wrap : string -> string -> string; kms_unwrap : string -> option string }.
Class KmsLaws `{Kms} := {
  kms_round n dek : kms_unwrap (kms_wrap n dek) = Some dek;
  kms_nonempty n dek : kms_wrap n dek <> "";
}.
(** No two wrapped keys with one SHA-256. *)
Class NoCollision `{Kms} `{Sha256} :=
  no_collision w w' dek : kms_unwrap w = Some dek -> sha256_hex w = sha256_hex w' -> w' = w.

(** What a call finds: the monotonic clock when it looks in the cache and when it
    fills it, whether the service answers, and the randomness it draws. *)
Record call := Call { at_look : Z; at_fill : Z; answers : bool; fresh_dek : string; fresh_nonce : string; fresh_wrap : string }.

(** [SecretsBackend]: encryption and decryption, with the backend's own state. *)
Class SecretsBackend (B : Type) := {
  encrypt : call -> string -> B -> B * result string;
  decrypt : call -> string -> B -> B * result string;
}.

(** ** [LocalFernetBackend] *)

Definition ENCRYPTED_PREFIX : string := "enc::".

Definition looks_like_fernet_token (value : string) : bool :=
  let padding := Z.to_nat ((- Z.of_nat (String.length value)) mod 4) in
  match b64_decode (value +:+ str_repeat "=" padding) with
  | Some (String a _) => (N_of_ascii a =? 128)%N
  | _ => false
  end.

Section local.
Context `{Fernet}.

(** The derived key. *)
Record local_fernet := LocalFernet { lf_key : string }.

Definition local_encrypt (c : call) (plaintext : string) (b : local_fernet) : string :=
  if String.eqb plaintext "" then plaintext else ENCRYPTED_PREFIX +:+ seal (lf_key b) (fresh_nonce c) plaintext.

Definition local_decrypt (ciphertext : string) (b : local_fernet) : result string :=
  if String.eqb ciphertext "" then Ok ciphertext
  else
    let token :=
      if str_prefix ENCRYPTED_PREFIX ciphertext then Some (str_drop (String.length ENCRYPTED_PREFIX) ciphertext)
      else if looks_like_fernet_token ciphertext then Some ciphertext else None in
    match token with
    | None => Ok ciphertext
    | Some token => match unseal (lf_key b) token with Some text => Ok text | None => Raise EValue end
    end.

#[global] Instance local_backend : SecretsBackend local_fernet := {
  encrypt c p b := (b, Ok (local_encrypt c p b));
  decrypt c t b := (b, local_decrypt t b);
}.
End local.

(** [LocalKmsStubBackend]: a master key in a file. *)
Definition stub_kms `{Fernet} (master_key : string) : Kms := {|
  kms_wrap := seal master_key;
  kms_unwrap := unseal master_key;
|}.

(** ** [KmsWrappedFernetBackend] *)

Definition KMS_PREFIX : string := "kmsenc::".

Section kms.
Context `{Fernet} `{Kms} `{Sha256}.

Record kms_fernet := KmsFernet {
  k_fallback : option local_fernet;
  k_cache_ttl : Z;
  k_cache : gmap string (string * Z);
}.
Definition with_cache (cache : gmap string (string * Z)) (b : kms_fernet) : kms_fernet :=
  KmsFernet (k_fallback b) (k_cache_ttl b) cache.

(** [kms.wrap] and [kms.unwrap]: a [ValueError] when the service does not answer
    or refuses. *)
Definition wrap (c : call) (dek : string) : result string :=
  if answers c then Ok (kms_wrap (fresh_wrap c) dek) else Raise EValue.
Definition unwrap (c : call) (wrapped : string) : result string :=
  if answers c then match kms_unwrap wrapped with Some dek => Ok dek | None => Raise EValue end else Raise EValue.

Definition kms_encrypt (c : call) (plaintext : string) : result string :=
  if String.eqb plaintext "" then Ok plaintext
  else
    let ciphertext := seal (fresh_dek c) (fresh_nonce c) plaintext in
    wrapped ← wrap c (fresh_dek c);
    Ok (KMS_PREFIX +:+ b64_encode wrapped +:+ ":" +:+ b64_encode ciphertext).

Definition cache_get (now : Z) (hash : string) (b : kms_fernet) : kms_fernet * option string :=
  if (k_cache_ttl b <=? 0)%Z then (b, None)
  else match k_cache b !! hash with
       | None => (b, None)
       | Some (dek, expires_at) =>
           if (expires_at <? now)%Z then (with_cache (delete hash (k_cache b)) b, None) else (b, Some dek)
       end.
Definition cache_put (now : Z) (hash dek : string) (b : kms_fernet) : kms_fernet :=
  if (k_cache_ttl b <=? 0)%Z then b else with_cache (<[hash := (dek, now + k_cache_ttl b)%Z]> (k_cache b)) b.

Definition unwrap_with_cache (c : call) (wrapped : string) (b : kms_fernet) : kms_fernet * result string :=
  let hash := sha256_hex wrapped in
  match cache_get (at_look c) hash b with
  | (b, Some dek) => (b, Ok dek)
  | (b, None) => match unwrap c wrapped with Ok dek => (cache_put (at_fill c) hash dek b, Ok dek) | Raise e => (b, Raise e) end
  end.

(** [urlsafe_b64decode] of a text: ASCII only. *)
Definition b64_decode_text (s : string) : option string := if is_ascii s then b64_decode s else None.

Definition decrypt_kms_token (c : call) (token : string) (b : kms_fernet) : kms_fernet * result string :=
  match str_cut ":" (str_drop (String.length KMS_PREFIX) token) with
  | None => (b, Raise EValue)
  | Some (wrapped_dek_b64, ciphertext_b64) =>
      if String.eqb wrapped_dek_b64 "" || String.eqb ciphertext_b64 "" then (b, Raise EValue)
      else match b64_decode_text wrapped_dek_b64, b64_decode_text ciphertext_b64 with
           | Some wrapped, Some ciphertext =>
               match unwrap_with_cache c wrapped b with
               | (b, Ok dek) => (b, match unseal dek ciphertext with Some text => Ok text | None => Raise EValue end)
               | (b, Raise e) => (b, Raise e)
               end
           | _, _ => (b, Raise EValue)
           end
  end.

Definition kms_decrypt (c : call) (ciphertext : string) (b : kms_fernet) : kms_fernet * result string :=
  if String.eqb ciphertext "" then (b, Ok ciphertext)
  else if str_prefix KMS_PREFIX ciphertext then decrypt_kms_token c ciphertext b
  else if str_prefix ENCRYPTED_PREFIX ciphertext then
    (b, match k_fallback b with None => Raise EValue | Some legacy => local_decrypt ciphertext legacy end)
  else (b, Ok ciphertext).

#[global] Instance kms_backend : SecretsBackend kms_fernet := {
  encrypt c p b := (b, kms_encrypt c p);
  decrypt := kms_decrypt;
}.
End kms.

(** ** Credentials of an integration *)

Record credential := Credential {
  logical_name : string;
  secret_ref : string;
  key_version : option string;
  secret_version : Z;
  rotated_at : option Z;
  revoked_at : option Z;
  created_at : Z;
}.
(** A live row of this name. *)
Definition active (name : string) (c : credential) : bool := String.eqb (logical_name c) name && bool_decide (revoked_at c = None).

Section credentials.
Context {B : Type} `{SecretsBackend B}.

(** The first live row decides; a value that decrypts to itself is refused. *)
Fixpoint read_secret (c : call) (name : string) (rows : list credential) (b : B) : B * result (option string) :=
  match rows with
  | [] => (b, Ok None)
  | row :: rows' =>
      if active name row then
        if String.eqb (secret_ref row) "" then (b, Ok None)
        else match decrypt c (secret_ref row) b with
             | (b, Ok plain) => (b, Ok (if String.eqb plain (secret_ref row) then None else Some plain))
             | (b, Raise e) => (b, Raise e)
             end
      else read_secret c name rows' b
  end.

Definition has_secret (name : string) (rows : list credential) : bool := existsb (active name) rows.

Fixpoint find_row (name : string) (rows : list credential) : option nat :=
  match rows with
  | [] => None
  | row :: rows' => if String.eqb (logical_name row) name then Some 0%nat else S <$> find_row name rows'
  end.

Definition rotate (now : Z) (key_version : option string) (ref : string) (row : credential) : credential :=
  Credential (logical_name row) ref key_version
    ((if Z.eqb (secret_version row) 0 then 1 else secret_version row) + 1)%Z (Some now) None (created_at row).

(** Creates or rotates; [now]: [datetime.utcnow()]. *)
Definition write_secret (c : call) (now : Z) (name plaintext : string) (kv : option string) (rows : list credential) (b : B)
  : B * result (list credential) :=
  if str_blank name || String.eqb plaintext "" then (b, Raise EValue)
  else match encrypt c plaintext b with
       | (b, Raise e) => (b, Raise e)
       | (b, Ok ref) =>
           (b, Ok (match find_row name rows with
                   | None => (rows ++ [Credential name ref kv 1 None None now])%list
                   | Some i => alter (rotate now kv ref) i rows
                   end))
       end.

Definition revoke_row (now : Z) (name : string) (row : credential) : credential :=
  if active name row
  then Credential (logical_name row) (secret_ref row) (key_version row) (secret_version row) (rotated_at row) (Some now) (created_at row)
  else row.
Definition revoke_secret (now : Z) (name : string) (rows : list credential) : list credential * bool :=
  (revoke_row now name <$> rows, has_secret name rows).
End credentials.

(** ** Ingestion tokens *)

Definition LOGICAL_NAME : string := "ingest_token".

Section tokens.
Context {B : Type} `{SecretsBackend B} `{Sha256}.

Definition generate (integration_id : Z) (random : string) : string * string :=
  let token := "coi_" +:+ str_of_Z integration_id +:+ "_" +:+ random in (token, sha256_hex token).

Definition parse_integration_id (token : string) : option Z :=
  match str_split_max 2 "_" token with
  | [prefix; id; _] => if String.eqb prefix "coi" then py_int_of_str id else None
  | _ => None
  end.

Definition issue (c : call) (now : Z) (integration_id : Z) (random : string) (rows : list credential) (b : B)
  : B * result (list credential * string) :=
  let (token, digest) := generate integration_id random in
  match write_secret c now LOGICAL_NAME digest None rows b with
  | (b, Ok rows) => (b, Ok (rows, token))
  | (b, Raise e) => (b, Raise e)
  end.

Definition verify (c : call) (rows : list credential) (token : string) (b : B) : B * result bool :=
  match read_secret c LOGICAL_NAME rows b with
  | (b, Ok (Some stored)) => (b, Ok (negb (String.eqb stored "") && String.eqb stored (sha256_hex token)))
  | (b, Ok None) => (b, Ok false)
  | (b, Raise e) => (b, Raise e)
  end.

Definition has_token (rows : list credential) : bool := has_secret LOGICAL_NAME rows.
Definition revoke (now : Z) (rows : list credential) : list credential * bool := revoke_secret now LOGICAL_NAME rows.
End tokens.
