(* ===== verification/SecretsProps.v ===== *)
(** * What is encrypted is read back

    Both backends of [Secrets] satisfy [SecretsLaws], the interface the credentials
    and the ingestion tokens are proved against: the cache of data keys changes no
    answer, the credentials of an integration refine a map from names to secrets. *)

From Stdlib Require Import DecimalString DecimalPos DecimalZ.
From S2P Require Import Prelude PyVal Text Operators Redaction Base64 Secrets.

#[local] Set Warnings "-register-all".
Local Open Scope string_scope.

(** ** The interface *)

Class SecretsLaws (B : Type) `{SecretsBackend B} := {
  sb_ok : B -> Prop;
  sb_same : B -> B -> Prop;       (* the same keys *)
  sb_same_preorder :: PreOrder sb_same;
  encrypt_keeps c p b : sb_ok b -> sb_ok (encrypt c p b).1 /\ sb_same b (encrypt c p b).1;
  decrypt_keeps c t b : sb_ok b -> sb_ok (decrypt c t b).1 /\ sb_same b (decrypt c t b).1;
  encrypt_up c p b : sb_ok b -> answers c = true -> exists t, (encrypt c p b).2 = Ok t;
  encrypt_reads c p b t : sb_ok b -> p <> "" -> (encrypt c p b).2 = Ok t ->
    t <> "" /\ t <> p /\
    forall c' b', sb_ok b' -> sb_same b b' ->
      (answers c' = true -> (decrypt c' t b').2 = Ok p) /\ (forall q, (decrypt c' t b').2 = Ok q -> q = p);
}.

Lemma str_prefix_app p s : str_prefix p (p +:+ s) = true.
Proof. induction p as [|a p IH]; [by destruct s|]. change (String a p +:+ s) with (String a (p +:+ s)). cbn. by rewrite Ascii.eqb_refl. Qed.
Lemma str_drop_app p s : str_drop (String.length p) (p +:+ s) = s.
Proof. by induction p. Qed.
Lemma longer_ne p q : (String.length p < String.length q)%nat -> q <> p.
Proof. intros Hl ->. lia. Qed.

(** *** The local backend *)

Section local.
Context `{FernetLaws}.

Lemma local_round c p b : p <> "" -> local_decrypt (local_encrypt c p b) b = Ok p.
Proof.
  intros Hp. unfold local_encrypt. apply String.eqb_neq in Hp as ->. unfold local_decrypt.
  change (String.eqb (ENCRYPTED_PREFIX +:+ _) "") with false. cbv match.
  by rewrite str_prefix_app, str_drop_app, unseal_seal.
Qed.

Lemma local_cipher_longer c p b : p <> "" -> (String.length p < String.length (local_encrypt c p b))%nat.
Proof.
  intros Hp. unfold local_encrypt. apply String.eqb_neq in Hp as ->. rewrite str_length_app.
  pose proof (seal_longer (lf_key b) (fresh_nonce c) p). cbn. lia.
Qed.

#[global] Program Instance local_laws : SecretsLaws local_fernet := {
  sb_ok _ := True;
  sb_same := eq;
}.
Next Obligation. done. Qed.
Next Obligation. done. Qed.
Next Obligation. intros c p b _ _. by eexists. Qed.
Next Obligation.
  intros c p b t _ Hp [= <-]. pose proof (local_cipher_longer c p b Hp) as Hl. split_and!.
  - intros E. rewrite E in Hl. cbn in Hl. lia.
  - by apply longer_ne.
  - intros c' b' _ <-. cbn. rewrite local_round by done. split; [done|]. by intros q [= <-].
Qed.
End local.

(** *** Envelope encryption *)

Lemma b64_longer s : (String.length s <= String.length (b64_encode s))%nat.
Proof.
  induction s as [|a|a b|a b c s IH] using three_at_a_time; [done|destruct a|destruct a, b|destruct a, b, c];
    cbn [b64_encode String.length]; lia.
Qed.
Lemma b64_is_ascii s : is_ascii (b64_encode s) = true.
Proof.
  unfold is_ascii. apply Nat.eqb_eq.
  assert (forall x, utf8_width (b64_char x) = 1%nat) as Hx by by intros [[] [] [] [] [] []].
  induction s as [|a|a b|a b c s IH] using three_at_a_time; [done|destruct a|destruct a, b|destruct a, b, c];
    cbn [b64_encode utf8_len String.length]; rewrite ?Hx; change (utf8_width "=") with 1%nat; lia.
Qed.
Lemma b64_text_round s : b64_decode_text (b64_encode s) = Some s.
Proof. unfold b64_decode_text. by rewrite b64_is_ascii, b64_round. Qed.

Section kms.
Context `{FernetLaws} `{KmsLaws} `{!Sha256} `{!NoCollision}.

(** A cached data key is the one the service would give for every wrapped key with
    that hash. *)
Definition cache_sound (b : kms_fernet) : Prop :=
  forall hash dek expires_at w d, k_cache b !! hash = Some (dek, expires_at) -> kms_unwrap w = Some d -> sha256_hex w = hash -> d = dek.
Definition same_keys (b b' : kms_fernet) : Prop := k_fallback b' = k_fallback b /\ k_cache_ttl b' = k_cache_ttl b.

#[local] Instance same_keys_preorder : PreOrder same_keys.
Proof. split; [done|]. intros ? ? ? [? ?] [? ?]. split; congruence. Qed.

Lemma cache_get_sound now hash b : cache_sound b ->
  cache_sound (cache_get now hash b).1 /\ same_keys b (cache_get now hash b).1 /\
  forall dek w d, (cache_get now hash b).2 = Some dek -> kms_unwrap w = Some d -> sha256_hex w = hash -> d = dek.
Proof.
  intros Hb. unfold cache_get. destruct (k_cache_ttl b <=? 0)%Z; [done|].
  destruct (k_cache b !! hash) as [[dek e]|] eqn:E; [|done]. destruct (e <? now)%Z; cbn.
  - split_and!; try done. intros h d' e' w d Hl. cbn in Hl. rewrite lookup_delete_Some in Hl. destruct Hl as [_ Hl]. by eapply Hb.
  - split_and!; try done. intros d' w d [= <-]. by eapply Hb.
Qed.

Lemma cache_put_sound now w dek b : cache_sound b -> kms_unwrap w = Some dek ->
  cache_sound (cache_put now (sha256_hex w) dek b) /\ same_keys b (cache_put now (sha256_hex w) dek b).
Proof.
  intros Hb Hw. unfold cache_put. destruct (k_cache_ttl b <=? 0)%Z; [done|]. split; [|done].
  intros h d e w' d' Hl Hw' Hh. cbn in Hl. rewrite lookup_insert_Some in Hl.
  destruct Hl as [[<- [= <- _]]|[_ Hl]]; [|by eapply Hb]. rewrite (no_collision w w' dek Hw) in Hw' by done. congruence.
Qed.

Lemma unwrap_cached_sound c w b : cache_sound b ->
  let r := unwrap_with_cache c w b in
  cache_sound r.1 /\ same_keys b r.1 /\
  forall d, kms_unwrap w = Some d -> (answers c = true -> r.2 = Ok d) /\ (forall d', r.2 = Ok d' -> d' = d).
Proof.
  intros Hb. unfold unwrap_with_cache. pose proof (cache_get_sound (at_look c) (sha256_hex w) b Hb) as (Hs & Hk & Hg).
  destruct (cache_get (at_look c) (sha256_hex w) b) as [b1 [dek|]]; cbn [fst snd] in *.
  - split_and!; try done. intros d Hd. rewrite (Hg dek w d) by done. split; [done|]. by intros ? [= <-].
  - unfold unwrap. destruct (answers c) eqn:Ea; [|by split_and!].
    destruct (kms_unwrap w) as [dek|] eqn:Ew; [|by split_and!]. cbn [fst snd].
    destruct (cache_put_sound (at_fill c) w dek b1 Hs Ew) as [Hp1 Hp2].
    split_and!; [done|by etrans|]. intros d [= <-]. split; [done|]. by intros ? [= <-].
Qed.

Lemma decrypt_token_sound c t b : cache_sound b ->
  cache_sound (decrypt_kms_token c t b).1 /\ same_keys b (decrypt_kms_token c t b).1.
Proof.
  intros Hb. unfold decrypt_kms_token. destruct (str_cut ":" _) as [[w m]|]; [|done]. destruct (_ || _); [done|].
  destruct (b64_decode_text w) as [wrapped|]; [|done]. destruct (b64_decode_text m) as [text|]; [|done].
  pose proof (unwrap_cached_sound c wrapped b Hb) as (H1' & H2' & _).
  by destruct (unwrap_with_cache c wrapped b) as [b' [dek|e]].
Qed.

Lemma kms_token c wrapped sealed b : wrapped <> "" -> sealed <> "" ->
  kms_decrypt c (KMS_PREFIX +:+ b64_encode wrapped +:+ ":" +:+ b64_encode sealed) b =
  match unwrap_with_cache c wrapped b with
  | (b', Ok dek) => (b', match unseal dek sealed with Some text => Ok text | None => Raise EValue end)
  | (b', Raise e) => (b', Raise e)
  end.
Proof.
  intros Hw Hs. unfold kms_decrypt.
  change (String.eqb (KMS_PREFIX +:+ _) "") with false. cbv match. rewrite str_prefix_app. cbv match.
  unfold decrypt_kms_token. rewrite str_drop_app.
  change (":" +:+ b64_encode sealed) with (String ":" (b64_encode sealed)). rewrite str_cut_app by by apply b64_no_sep.
  apply b64_nonempty, String.eqb_neq in Hw as ->, Hs as ->. cbn [orb]. by rewrite !b64_text_round.
Qed.

Lemma kms_encrypt_ok c p t : p <> "" -> kms_encrypt c p = Ok t ->
  t = KMS_PREFIX +:+ b64_encode (kms_wrap (fresh_wrap c) (fresh_dek c)) +:+ ":" +:+ b64_encode (seal (fresh_dek c) (fresh_nonce c) p).
Proof.
  intros Hp. unfold kms_encrypt, wrap. apply String.eqb_neq in Hp as ->. destruct (answers c); [|done]. by intros [= <-].
Qed.

#[global] Program Instance kms_laws : SecretsLaws kms_fernet := {
  sb_ok := cache_sound;
  sb_same := same_keys;
}.
Next Obligation. done. Qed.
Next Obligation.
  intros c t b Hb. cbn. unfold kms_decrypt. destruct (String.eqb t ""); [done|].
  destruct (str_prefix KMS_PREFIX t); [by apply decrypt_token_sound|]. by destruct (str_prefix ENCRYPTED_PREFIX t).
Qed.
Next Obligation.
  intros c p b _ Ha. cbn. unfold kms_encrypt, wrap. rewrite Ha. destruct (String.eqb p ""); by eexists.
Qed.
Next Obligation.
  intros c p b t _ Hp Ht. cbn in Ht. apply kms_encrypt_ok in Ht as ->; [|done].
  set (w := kms_wrap _ _). set (m := seal _ _ _). split_and!; [done| |].
  - apply longer_ne. rewrite !str_length_app. pose proof (seal_longer (fresh_dek c) (fresh_nonce c) p).
    pose proof (b64_longer m). subst m. cbn [String.length KMS_PREFIX]. unfold KMS_PREFIX. cbn [String.length]. lia.
  - intros c' b' Hb' _. change (decrypt c' ?t b') with (kms_decrypt c' t b').
    rewrite kms_token by (apply kms_nonempty || apply seal_nonempty).
    destruct (unwrap_cached_sound c' w b' Hb') as (_ & _ & Hu).
    specialize (Hu (fresh_dek c) (kms_round (fresh_wrap c) (fresh_dek c))). destruct Hu as [Hup Hany].
    destruct (unwrap_with_cache c' w b') as [b2 [dek|e]]; cbn [fst snd] in *.
    + rewrite (Hany dek eq_refl). unfold m. rewrite unseal_seal. split; [done|]. by intros q [= <-].
    + split; [|done]. intros Ha. by specialize (Hup Ha).
Qed.
End kms.

(** *** The stub service *)

#[global] Instance stub_laws `{FernetLaws} master_key : @KmsLaws (stub_kms master_key).
Proof. split; intros; cbn; [apply unseal_seal|apply seal_nonempty]. Qed.

(** ** A backend in use *)

Section backend_use.
Context {B : Type} `{SecretsLaws B}.

Inductive backend_op := BEncrypt (c : call) (plaintext : string) | BDecrypt (c : call) (ciphertext : string).
Definition backend_step (b : B) (o : backend_op) : B :=
  match o with BEncrypt c p => (encrypt c p b).1 | BDecrypt c t => (decrypt c t b).1 end.
Definition backend_run (ops : list backend_op) (b : B) : B := fold_left backend_step ops b.

Lemma backend_run_keeps ops b : sb_ok b -> sb_ok (backend_run ops b) /\ sb_same b (backend_run ops b).
Proof.
  revert b. induction ops as [|o ops IH]; intros b Hb; cbn; [by split|].
  assert (sb_ok (backend_step b o) /\ sb_same b (backend_step b o)) as [Ho Hs]
    by (destruct o; [by apply encrypt_keeps|by apply decrypt_keeps]).
  destruct (IH _ Ho) as [H1' H2']. split; [done|by etrans].
Qed.
End backend_use.

Section envelope.
Context `{FernetLaws} `{KmsLaws} `{!Sha256} `{!NoCollision}.

(** C12 [secrets_read_back] Under envelope encryption, after any other calls before
    and after (which fill, expire and bypass the cache of data keys), the token of a
    secret decrypts to that secret whenever the key service answers, and to nothing
    else when it does not; a token the local backend wrote before the migration
    decrypts as well, service or not. *)
Theorem secrets_read_back fallback ttl ops c p t ops' c' :
  p <> "" ->
  (encrypt c p (backend_run ops (KmsFernet fallback ttl ∅))).2 = Ok t ->
  let b := backend_run ops' (encrypt c p (backend_run ops (KmsFernet fallback ttl ∅))).1 in
  (answers c' = true -> (decrypt c' t b).2 = Ok p) /\
  (forall q, (decrypt c' t b).2 = Ok q -> q = p) /\
  (forall key, fallback = Some key -> (decrypt c' (local_encrypt c p key) b).2 = Ok p).
Proof.
  intros Hp Ht b. set (b0 := KmsFernet fallback ttl ∅) in *.
  assert (sb_ok b0) as Hok by (by intros ? ? ? ? ? Hl).
  destruct (backend_run_keeps ops b0 Hok) as [Hok1 Hs1]. destruct (encrypt_keeps c p _ Hok1) as [Hok2 Hs2].
  destruct (backend_run_keeps ops' _ Hok2) as [Hok3 Hs3].
  destruct (encrypt_reads c p _ t Hok1 Hp Ht) as (_ & _ & Hr).
  destruct (Hr c' b Hok3 ltac:(by etrans)) as [Hup Hany].
  split_and!; [done|done|]. intros key ->.
  assert (k_fallback b = Some key) as Hf.
  { assert (sb_same b0 b) as [-> _] by (etrans; [exact Hs1|by etrans]). done. }
  change (decrypt c' ?x b) with (kms_decrypt c' x b). unfold kms_decrypt.
  pose proof (local_cipher_longer c p key Hp) as Hl. pose proof (local_round c p key Hp) as Hround.
  assert (local_encrypt c p key = ENCRYPTED_PREFIX +:+ seal (lf_key key) (fresh_nonce c) p) as E
    by (unfold local_encrypt; by apply String.eqb_neq in Hp as ->).
  destruct (String.eqb_spec (local_encrypt c p key) "") as [E0|_]; [rewrite E0 in Hl; cbn in Hl; lia|].
  rewrite E in *. change (str_prefix KMS_PREFIX (ENCRYPTED_PREFIX +:+ ?x)) with false. cbv match.
  rewrite str_prefix_app, Hf. exact Hround.
Qed.
End envelope.

(** ** The credentials refine a map *)

Section credentials.
Context {B : Type} `{SecretsLaws B}.

Inductive credential_op :=
| CWrite (c : call) (now : Z) (name plaintext : string) (kv : option string)
| CRevoke (now : Z) (name : string)
| CRead (c : call) (name : string).

(** The rows and the backend; whether the operation went through. *)
Definition credential_step (st : list credential * B) (o : credential_op) : list credential * B * bool :=
  let (rows, b) := st in
  match o with
  | CWrite c now name p kv =>
      match write_secret c now name p kv rows b with (b, Ok rows') => (rows', b, true) | (b, Raise _) => (rows, b, false) end
  | CRevoke now name => let (rows', revoked) := revoke_secret now name rows in (rows', b, revoked)
  | CRead c name => let (b', r) := read_secret c name rows b in (rows, b', match r with Ok _ => true | Raise _ => false end)
  end.

(** The specification: the live secrets by name. *)
Definition secrets_step (m : gmap string string) (o : credential_op) (done : bool) : gmap string string :=
  match o with
  | CWrite _ _ name p _ => if done then <[name := p]> m else m
  | CRevoke _ name => delete name m
  | CRead _ _ => m
  end.

Fixpoint credential_run (ops : list credential_op) (st : list credential * B) (m : gmap string string)
  : list credential * B * gmap string string :=
  match ops with
  | [] => (st, m)
  | o :: ops' => let '(rows, b, went) := credential_step st o in credential_run ops' (rows, b) (secrets_step m o went)
  end.

(** A row and what the map holds for its name. *)
Definition row_means (b : B) (m : gmap string string) (row : credential) : Prop :=
  match revoked_at row with
  | Some _ => m !! logical_name row = None
  | None => exists c p b0, p <> "" /\ m !! logical_name row = Some p /\ sb_ok b0 /\ sb_same b0 b /\
              (encrypt c p b0).2 = Ok (secret_ref row)
  end.
Record represents (rows : list credential) (b : B) (m : gmap string string) : Prop := {
  rep_ok : sb_ok b;
  rep_names : NoDup (logical_name <$> rows);
  rep_rows : Forall (row_means b m) rows;
  rep_rest name : name ∉ logical_name <$> rows -> m !! name = None;
}.

Lemma row_means_same b b' m row : sb_same b b' -> row_means b m row -> row_means b' m row.
Proof.
  unfold row_means. destruct (revoked_at row); [done|]. intros Hs (c & p & b0 & Hp & Hm & Ho & Hb & He).
  exists c, p, b0. split_and!; try done. by etrans.
Qed.
Lemma represents_same rows b b' m : sb_ok b' -> sb_same b b' -> represents rows b m -> represents rows b' m.
Proof.
  intros Hok Hs [H1' H2' H3' H4']. split; try done. eapply Forall_impl; [exact H3'|]. intros row. by apply row_means_same.
Qed.

Lemma find_row_spec name rows :
  match find_row name rows with
  | Some i => exists row, rows !! i = Some row /\ logical_name row = name
  | None => name ∉ logical_name <$> rows
  end.
Proof.
  induction rows as [|row rows IH]; cbn; [apply not_elem_of_nil|].
  destruct (String.eqb_spec (logical_name row) name) as [E|E]; [by exists row|].
  destruct (find_row name rows) as [i|]; cbn; [exact IH|]. apply not_elem_of_cons. by split.
Qed.

(** The one row of a name. *)
Lemma names_unique rows i j r1 r2 : NoDup (logical_name <$> rows) ->
  rows !! i = Some r1 -> rows !! j = Some r2 -> logical_name r1 = logical_name r2 -> i = j.
Proof.
  intros Hn Hi Hj E. eapply NoDup_lookup; [exact Hn| |].
  - by rewrite list_lookup_fmap, Hi.
  - rewrite list_lookup_fmap, Hj. cbn. by rewrite E.
Qed.

Lemma active_spec name row : active name row = true <-> logical_name row = name /\ revoked_at row = None.
Proof. unfold active. by rewrite andb_true_iff, String.eqb_eq, bool_decide_eq_true. Qed.

Lemma has_secret_spec name rows b m : represents rows b m -> has_secret name rows = bool_decide (is_Some (m !! name)).
Proof.
  intros [_ _ Hrows Hrest]. apply eq_true_iff_eq. unfold has_secret. rewrite existsb_exists, bool_decide_eq_true. split.
  - intros (row & Hin & [<- Hr]%active_spec). apply list_elem_of_In in Hin.
    eapply Forall_forall in Hrows as Hm; [|exact Hin]. unfold row_means in Hm. rewrite Hr in Hm.
    destruct Hm as (c & p & b0 & _ & -> & _). by eexists.
  - intros [p Hp]. destruct (decide (name ∈ logical_name <$> rows)) as [Hin|Hin]; [|by rewrite (Hrest _ Hin) in Hp].
    apply list_elem_of_fmap in Hin as (row & -> & Hin). exists row. split; [by apply list_elem_of_In|].
    apply active_spec. split; [done|]. eapply Forall_forall in Hrows as Hm; [|exact Hin]. unfold row_means in Hm.
    destruct (revoked_at row); [by rewrite Hm in Hp|done].
Qed.

Lemma read_rows c name b m rows : sb_ok b -> Forall (row_means b m) rows ->
  (name ∉ logical_name <$> rows -> m !! name = None) ->
  let r := read_secret c name rows b in
  sb_ok r.1 /\ sb_same b r.1 /\ (answers c = true -> r.2 = Ok (m !! name)) /\ (forall x, r.2 = Ok x -> x = m !! name).
Proof.
  intros Hok. cbv zeta. induction rows as [|row rows IH]; intros Hrows Hrest.
  - cbn. rewrite Hrest by apply not_elem_of_nil. split_and!; try done. by intros ? [= <-].
  - apply Forall_cons in Hrows as [Hrow Hrows]. unfold row_means in Hrow. cbn [read_secret].
    destruct (active name row) eqn:Ea.
    + apply active_spec in Ea as [<- Hr]. rewrite Hr in Hrow. destruct Hrow as (c0 & p & b0 & Hp & -> & Hok0 & Hs & He).
      destruct (encrypt_reads c0 p b0 _ Hok0 Hp He) as (Hne & Hnp & Hd). apply String.eqb_neq in Hne as ->.
      destruct (Hd c b Hok Hs) as [Hup Hany]. destruct (decrypt_keeps c (secret_ref row) b Hok) as [Hok' Hs'].
      destruct (decrypt c (secret_ref row) b) as [b' [q|e]]; cbn [fst snd] in *.
      * rewrite (Hany q eq_refl). assert (String.eqb p (secret_ref row) = false) as -> by (apply String.eqb_neq; congruence).
        split_and!; try done. by intros ? [= <-].
      * split_and!; try done. intros Ha. by specialize (Hup Ha).
    + apply IH; [done|]. intros Hni. destruct (decide (logical_name row = name)) as [<-|Hne].
      * destruct (revoked_at row) eqn:Er; [done|]. assert (active (logical_name row) row = true) by by apply active_spec. congruence.
      * apply Hrest. cbn [fmap list_fmap]. by apply not_elem_of_cons.
Qed.
Lemma read_secret_spec c name rows b m : represents rows b m ->
  let r := read_secret c name rows b in
  sb_ok r.1 /\ sb_same b r.1 /\ (answers c = true -> r.2 = Ok (m !! name)) /\ (forall x, r.2 = Ok x -> x = m !! name).
Proof. intros [Hok _ Hrows Hrest]. by apply read_rows; [| |apply Hrest]. Qed.

Lemma row_means_other b m m' row : m' !! logical_name row = m !! logical_name row -> row_means b m row -> row_means b m' row.
Proof. unfold row_means. by intros ->. Qed.

Lemma write_secret_spec c now name p kv rows b m : represents rows b m ->
  match write_secret c now name p kv rows b with
  | (b', Ok rows') => represents rows' b' (<[name := p]> m)
  | (b', Raise e) => represents rows b' m /\ e = EValue \/ represents rows b' m /\ answers c = false
  end.
Proof.
  intros Hrep. unfold write_secret. destruct (str_blank name || String.eqb p "") eqn:Eb; [by left|].
  apply orb_false_iff in Eb as [_ Hp]. apply String.eqb_neq in Hp.
  destruct (encrypt_keeps c p b (rep_ok _ _ _ Hrep)) as [Hok Hs].
  pose proof (represents_same rows b _ m Hok Hs Hrep) as Hrep'. pose proof (encrypt_up c p b (rep_ok _ _ _ Hrep)) as Hup.
  destruct (encrypt c p b) as [b' [ref|e]] eqn:Ee; cbn [fst snd] in *.
  2: { right. split; [done|]. destruct (answers c); [|done]. by destruct (Hup eq_refl) as [? ?]. }
  destruct Hrep' as [Hok' Hn Hrows Hrest].
  assert (forall row, logical_name row = name -> secret_ref row = ref -> revoked_at row = None ->
            row_means b' (<[name := p]> m) row) as Hnew.
  { intros row E1 E2 E3. unfold row_means. rewrite E1, E2, E3. exists c, p, b. rewrite lookup_insert_eq, Ee.
    split_and!; try done. apply Hrep. }
  pose proof (find_row_spec name rows) as Hf. destruct (find_row name rows) as [i|].
  - destruct Hf as (row & Hi & E).
    assert (logical_name <$> alter (rotate now kv ref) i rows = logical_name <$> rows) as Enames.
    { clear. revert i. induction rows as [|r rows IH]; intros [|i]; cbn; try done. f_equal. apply IH. }
    split; [done|by rewrite Enames| |].
    + apply Forall_lookup. intros j r Hj. destruct (decide (i = j)) as [<-|Hij].
      * rewrite list_lookup_alter_eq, Hi in Hj. injection Hj as <-. by apply Hnew.
      * rewrite list_lookup_alter_ne in Hj by done. eapply row_means_other; [|by eapply Forall_lookup_1].
        rewrite lookup_insert_ne; [done|]. intros E2. apply Hij. eapply names_unique; try done. congruence.
    + intros n. rewrite Enames. intros Hni. rewrite lookup_insert_ne; [by apply Hrest|]. intros <-. apply Hni.
      apply list_elem_of_fmap. exists row. split; [done|]. by eapply list_elem_of_lookup_2.
  - split; [done| | |].
    + rewrite fmap_app. apply NoDup_app. split_and!; [done| |apply NoDup_singleton].
      intros x Hx ->%list_elem_of_singleton. done.
    + apply Forall_app. split; [|apply Forall_singleton; by apply Hnew].
      apply Forall_forall. intros row Hin. eapply row_means_other; [|by eapply Forall_forall in Hrows].
      rewrite lookup_insert_ne; [done|]. intros ->. apply Hf. apply list_elem_of_fmap. by exists row.
    + intros n. rewrite fmap_app. intros [Hni Hn2]%not_elem_of_app. rewrite lookup_insert_ne; [by apply Hrest|].
      intros <-. apply Hn2. by left.
Qed.

Lemma revoke_secret_spec now name rows b m : represents rows b m -> represents (revoke_secret now name rows).1 b (delete name m).
Proof.
  intros [Hok Hn Hrows Hrest].
  assert (logical_name <$> (revoke_row now name <$> rows) = logical_name <$> rows) as Enames.
  { clear. induction rows as [|r rows IH]; cbn; [done|]. f_equal; [|exact IH]. unfold revoke_row. by destruct (active name r). }
  split; cbn [revoke_secret fst]; [done|by rewrite Enames| |].
  - apply Forall_fmap, Forall_forall. intros row Hin. cbn. eapply Forall_forall in Hrows as Hrow; [|exact Hin].
    unfold revoke_row. destruct (active name row) eqn:Ea.
    + apply active_spec in Ea as [<- _]. unfold row_means. cbn. by rewrite lookup_delete_eq.
    + unfold row_means in *. destruct (decide (name = logical_name row)) as [->|Hne]; [|by rewrite lookup_delete_ne].
      rewrite lookup_delete_eq. destruct (revoked_at row) eqn:Er; [done|].
      assert (active (logical_name row) row = true) by by apply active_spec. congruence.
  - intros n. rewrite Enames. intros Hni. rewrite lookup_delete_None. right. by apply Hrest.
Qed.

Lemma credential_run_represents ops rows b m : represents rows b m ->
  let '(rows', b', m') := credential_run ops (rows, b) m in represents rows' b' m'.
Proof.
  revert rows b m. induction ops as [|o ops IH]; intros rows b m Hrep; cbn [credential_run]; [done|].
  destruct o as [c now name p kv|now name|c name]; cbn [credential_step].
  - pose proof (write_secret_spec c now name p kv rows b m Hrep) as Hw.
    destruct (write_secret c now name p kv rows b) as [b' [rows'|e]]; apply IH; [done|]. by destruct Hw as [[? _]|[? _]].
  - pose proof (revoke_secret_spec now name rows b m Hrep) as Hr. destruct (revoke_secret now name rows) as [rows' r].
    by apply IH.
  - destruct (read_secret_spec c name rows b m Hrep) as (Hok & Hs & _). destruct (read_secret c name rows b) as [b' r].
    apply IH. by eapply represents_same.
Qed.

Lemma represents_nothing b : sb_ok b -> represents [] b ∅.
Proof. intros Hok. split; [done|apply NoDup_nil_2|by apply Forall_nil_2|]. intros name _. apply lookup_empty. Qed.
End credentials.

(** C13 [credentials_refine] The credentials of an integration, under envelope
    encryption and after any writes, rotations, revocations and reads, failed ones
    included, are the map from names to live secrets: [has_secret] and [read_secret]
    answer from it (reading fails only while the key service is away), no name has
    two rows, and a write goes through whenever the service answers. *)
Theorem credentials_refine `{FernetLaws} `{KmsLaws} `{!Sha256} `{!NoCollision} fallback ttl ops :
  let '(rows, b, m) := credential_run ops ([], KmsFernet fallback ttl ∅) ∅ in
  NoDup (logical_name <$> rows) /\
  (forall name, has_secret name rows = bool_decide (is_Some (m !! name))) /\
  (forall c name, (answers c = true -> (read_secret c name rows b).2 = Ok (m !! name)) /\
                  (forall x, (read_secret c name rows b).2 = Ok x -> x = m !! name)) /\
  (forall c now name p kv, answers c = true -> str_blank name = false -> p <> "" ->
     exists rows', (write_secret c now name p kv rows b).2 = Ok rows').
Proof.
  assert (sb_ok (KmsFernet fallback ttl ∅)) as Hok by (by intros ? ? ? ? ? Hl).
  pose proof (credential_run_represents ops [] _ ∅ (represents_nothing _ Hok)) as Hrep.
  destruct (credential_run ops ([], KmsFernet fallback ttl ∅) ∅) as [[rows b] m].
  split_and!; [apply Hrep|intros name; exact (has_secret_spec name rows b m Hrep)| |].
  - intros c name. by destruct (read_secret_spec c name rows b m Hrep) as (_ & _ & Hr).
  - intros c now name p kv Ha Hb Hp. unfold write_secret. rewrite Hb. apply String.eqb_neq in Hp as ->. cbn [orb].
    destruct (encrypt_up c p b (rep_ok _ _ _ Hrep) Ha) as [t Ht]. destruct (encrypt c p b) as [b' r]. cbn in Ht. rewrite Ht.
    by eexists.
Qed.

(** ** Ingestion tokens *)

Lemma digit_step d s b n acc v : digit_value d = Some v -> int_digits (String d s) b n acc = int_digits s true (S n) (10 * acc + v).
Proof.
  intros Hd. cbn [int_digits]. rewrite Hd. destruct (Ascii.eqb_spec d "_") as [->|]; [by vm_compute in Hd|done].
Qed.

Lemma int_digits_acc u n acc : (n + String.length (NilEmpty.string_of_uint u) <= 4300)%nat ->
  int_digits (NilEmpty.string_of_uint u) true n (Z.pos acc) = Some (Z.pos (Pos.of_uint_acc u acc)).
Proof.
  revert n acc. induction u; intros n acc Hn; cbn [NilEmpty.string_of_uint String.length] in *.
  { cbn [int_digits andb Pos.of_uint_acc]. by rewrite (proj2 (Nat.leb_le n 4300)) by lia. }
  all: erewrite digit_step by (vm_compute; reflexivity); cbn [Pos.of_uint_acc].
  all: match goal with |- int_digits _ _ _ ?e = Some (Z.pos (Pos.of_uint_acc _ ?a)) => replace e with (Z.pos a) by lia end.
  all: apply IHu; lia.
Qed.

Lemma int_digits_uint u n : (n + String.length (NilEmpty.string_of_uint u) <= 4300)%nat -> u <> Decimal.Nil \/ (0 < n)%nat ->
  int_digits (NilEmpty.string_of_uint u) (0 <? n)%nat n 0 = Some (Z.of_N (Pos.of_uint u)).
Proof.
  revert n. induction u; intros n Hn Hne; cbn [NilEmpty.string_of_uint String.length] in *.
  { destruct Hne as [|Hn0]; [done|]. cbn [int_digits Pos.of_uint]. rewrite (proj2 (Nat.ltb_lt 0 n)) by lia.
    by rewrite (proj2 (Nat.leb_le n 4300)) by lia. }
  all: erewrite digit_step by (vm_compute; reflexivity); cbn [Pos.of_uint].
  1: change (10 * 0 + 0)%Z with 0%Z; change true with (0 <? S n)%nat; apply IHu; [lia|right; lia].
  all: match goal with |- int_digits _ _ _ ?e = Some (Z.of_N (N.pos (Pos.of_uint_acc _ ?a))) => change e with (Z.pos a) end.
  all: apply int_digits_acc; lia.
Qed.

Fixpoint no_char (p : ascii -> bool) (s : string) : bool :=
  match s with EmptyString => true | String a s' => negb (p a) && no_char p s' end.
Lemma no_char_app p s t : no_char p (s +:+ t) = no_char p s && no_char p t.
Proof. induction s as [|a s IH]; [done|]. change (String a s +:+ t) with (String a (s +:+ t)). cbn. by rewrite IH, andb_assoc. Qed.
Lemma strip_nothing p s : no_char p s = true -> strip_while p s = s.
Proof.
  assert (forall t, no_char p t = true -> drop_while p t = t) as Hd.
  { intros [|a t]; cbn; [done|]. by intros [->%negb_true_iff _]%andb_true_iff. }
  assert (no_char p (str_rev s) = no_char p s) as Hr.
  { induction s as [|a s IH]; [done|]. rewrite str_rev_cons, no_char_app, IH. cbn. by rewrite andb_true_r, andb_comm. }
  intros Hs. unfold strip_while. rewrite (Hd s Hs), Hd by by rewrite Hr. apply str_rev_involutive.
Qed.

Lemma int_of_text z : (0 <= z)%Z -> (String.length (str_of_Z z) <= 4300)%nat -> py_int_of_str (str_of_Z z) = Some z.
Proof.
  intros Hz Hl. assert (exists u, u <> Decimal.Nil /\ str_of_Z z = NilEmpty.string_of_uint u /\ Z.of_N (Pos.of_uint u) = z) as (u & Hu & Es & Ez).
  { unfold str_of_Z, NilZero.string_of_int. pose proof (DecimalZ.of_to z) as Hof. destruct (Z.to_int z) as [u|u] eqn:E.
    - destruct z as [|p|p]; [|clear Hz|lia].
      + cbn in E. injection E as <-. exists (Decimal.D0 Decimal.Nil). by split_and!.
      + cbn in E. injection E as <-. exists (Pos.to_uint p). split_and!; [apply DecimalPos.Unsigned.to_uint_nonnil| |exact Hof].
        pose proof (DecimalPos.Unsigned.to_uint_nonnil p). by destruct (Pos.to_uint p).
    - destruct z as [|p|p]; done || lia. }
  rewrite Es in *. clear Es. unfold py_int_of_str.
  assert (strip_while (int_space (is_ascii (NilEmpty.string_of_uint u))) (NilEmpty.string_of_uint u) = NilEmpty.string_of_uint u) as ->.
  2: { pose proof (int_digits_uint u 0 ltac:(lia) (or_introl Hu)) as Hd. change (0 <? 0)%nat with false in Hd. rewrite <- Ez, <- Hd.
    by destruct u. }
  apply strip_nothing. generalize (is_ascii (NilEmpty.string_of_uint u)). intros b.
  clear. induction u; cbn [NilEmpty.string_of_uint no_char]; [done|..]; rewrite IHu; by destruct b.
Qed.

Lemma str_of_Z_no_underscore z : has_char "_" (str_of_Z z) = false.
Proof.
  unfold str_of_Z, NilZero.string_of_int. generalize (Z.to_int z). intros i.
  assert (forall u, has_char "_" (NilEmpty.string_of_uint u) = false) as Hu by (intros u; by induction u).
  assert (forall u, has_char "_" (NilZero.string_of_uint u) = false) as Hz by (intros u; destruct u; apply Hu || done).
  destruct i; cbn; apply Hz.
Qed.

Lemma parse_generated id random `{Sha256} : (0 <= id)%Z -> (String.length (str_of_Z id) <= 4300)%nat ->
  parse_integration_id (generate id random).1 = Some id.
Proof.
  intros Hid Hl. unfold generate, parse_integration_id. cbn [fst].
  change ("coi_" +:+ ?t) with ("coi" +:+ String "_" t).
  change ("_" +:+ random) with (String "_" random). cbn [str_split_max].
  rewrite str_cut_app by done. rewrite str_cut_app by apply str_of_Z_no_underscore. change (String.eqb "coi" "coi") with true.
  cbv match. by apply int_of_text.
Qed.

Section tokens.
Context `{FernetLaws} `{KmsLaws} `{!Sha256} `{!NoCollision}.

(** [ingest_token_lifecycle] The token issued for an integration names it, and is
    accepted; any other text is accepted only under a collision of its digest: the
    token issued before is not (rotation).  After a revocation nothing is accepted. *)
Theorem ingest_token_lifecycle fallback ttl ops c now id random rows' token :
  let '(rows, b, m) := credential_run ops ([], KmsFernet fallback ttl ∅) ∅ in
  (0 <= id)%Z -> (String.length (str_of_Z id) <= 4300)%nat -> (issue c now id random rows b).2 = Ok (rows', token) ->
  let b' := (issue c now id random rows b).1 in
  parse_integration_id token = Some id /\ has_token rows' = true /\
  (forall c' text, answers c' = true ->
     (verify c' rows' text b').2 = Ok (String.eqb (sha256_hex token) (sha256_hex text)) /\
     (verify c' (revoke now rows').1 text b').2 = Ok false).
Proof.
  assert (sb_ok (KmsFernet fallback ttl ∅)) as Hok by (by intros ? ? ? ? ? Hl).
  pose proof (credential_run_represents ops [] _ ∅ (represents_nothing _ Hok)) as Hrep.
  destruct (credential_run ops ([], KmsFernet fallback ttl ∅) ∅) as [[rows b] m].
  intros Hid Hl Hi. unfold issue in *. destruct (generate id random) as [tok digest] eqn:Eg.
  pose proof (write_secret_spec c now LOGICAL_NAME digest None rows b m Hrep) as Hw.
  assert (digest <> "") as Hne.
  { intros ->. unfold write_secret in Hi. rewrite orb_true_r in Hi. done. }
  destruct (write_secret c now LOGICAL_NAME digest None rows b) as [b' [rows2|e]]; [|done]. cbn [snd fst] in *.
  injection Hi as -> ->. pose proof (parse_generated id random Hid Hl) as Hp. rewrite Eg in Hp. cbn [fst] in Hp.
  assert (digest = sha256_hex token) as -> by (unfold generate in Eg; by injection Eg as <- <-).
  split_and!; [done| |].
  { unfold has_token. rewrite (has_secret_spec _ _ _ _ Hw), lookup_insert_eq. done. }
  intros c' text Ha. unfold verify, revoke. split.
  - destruct (read_secret_spec c' LOGICAL_NAME rows' b' _ Hw) as (_ & _ & Hr & _). specialize (Hr Ha).
    destruct (read_secret c' LOGICAL_NAME rows' b') as [b3 r]. cbn [snd] in Hr. rewrite Hr, lookup_insert_eq.
    apply String.eqb_neq in Hne as ->. done.
  - pose proof (revoke_secret_spec now LOGICAL_NAME rows' b' _ Hw) as Hv.
    destruct (read_secret_spec c' LOGICAL_NAME _ b' _ Hv) as (_ & _ & Hr & _). specialize (Hr Ha).
    destruct (read_secret c' LOGICAL_NAME _ b') as [b3 r]. cbn [snd] in Hr. by rewrite Hr, lookup_delete_eq.
Qed.
End tokens.

(** ** What the migration loses *)

(** A Fernet token of before the [enc::] prefix: the local backend opens it, the
    envelope backend hands the token itself back, its fallback unused. *)
Lemma unprefixed_token_is_not_migrated `{FernetLaws} `{Kms} `{!Sha256} key n p c fallback ttl cache :
  let token := seal key n p in
  str_prefix ENCRYPTED_PREFIX token = false -> str_prefix KMS_PREFIX token = false -> looks_like_fernet_token token = true ->
  local_decrypt token (LocalFernet key) = Ok p /\ (kms_decrypt c token (KmsFernet fallback ttl cache)).2 = Ok token.
Proof.
  intros token He Hk Hf. pose proof (seal_nonempty key n p) as Hne. fold token in Hne.
  unfold local_decrypt, kms_decrypt. apply String.eqb_neq in Hne as ->. rewrite He, Hk, Hf. split; [|done].
  cbn [lf_key]. subst token. by rewrite unseal_seal.
Qed.

(** ** An example *)

Definition demo_seal (k n m : string) : string := k +:+ "." +:+ m.
#[local] Instance demo_fernet : Fernet := {
  seal := demo_seal;
  unseal k t := if str_prefix (k +:+ ".") t then Some (str_drop (String.length (k +:+ ".")) t) else None;
}.
#[local] Instance demo_fernet_laws : FernetLaws.
Proof.
  split; intros k n m; cbn; unfold demo_seal.
  - rewrite <- str_app_assoc, str_prefix_app. by rewrite str_drop_app.
  - rewrite !str_length_app. lia.
  - by destruct k.
Qed.
#[local] Instance demo_kms : Kms := stub_kms "master".
#[local] Instance demo_sha : Sha256 := fun s => s.
#[local] Instance demo_no_collision : NoCollision.
Proof. by intros w w' dek _. Qed.

Definition demo_call (t : Z) (up : bool) : call := Call t t up "dek" "n" "w".

Example secrets_read_back_witness :
  (decrypt (demo_call 5 true) "kmsenc::bWFzdGVyLmRlaw==:ZGVrLnMzY3JldA=="
     (backend_run [] (encrypt (demo_call 0 true) "s3cret" (KmsFernet (Some (LocalFernet "k")) 60 ∅)).1)).2 = Ok "s3cret".
Proof.
  refine (proj1 (secrets_read_back (Some (LocalFernet "k")) 60 [] (demo_call 0 true) "s3cret" _ [] (demo_call 5 true) _ _) eq_refl).
  - congruence.
  - vm_compute. reflexivity.
Defined.

Example credentials_refine_witness :
  let '(rows, b, m) := credential_run [CWrite (demo_call 0 true) 0 "client_secret" "s" None;
                                       CWrite (demo_call 1 false) 1 "client_secret" "t" None; CRevoke 2 "other"]
                         ([], KmsFernet None 60 ∅) ∅ in
  has_secret "client_secret" rows = bool_decide (is_Some (m !! "client_secret")).
Proof.
  pose proof (credentials_refine None 60 [CWrite (demo_call 0 true) 0 "client_secret" "s" None;
    CWrite (demo_call 1 false) 1 "client_secret" "t" None; CRevoke 2 "other"]) as Hp.
  destruct (credential_run _ _ _) as [[rows b] m]. exact (proj1 (proj2 Hp) "client_secret").
Defined.

Example ingest_token_lifecycle_witness :
  parse_integration_id "coi_7_r4nd_om" = Some 7%Z.
Proof.
  pose proof (ingest_token_lifecycle None 60 [] (demo_call 0 true) 0 7 "r4nd_om"
    [Credential LOGICAL_NAME "kmsenc::bWFzdGVyLmRlaw==:ZGVrLmNvaV83X3I0bmRfb20=" None 1 None None 0] "coi_7_r4nd_om") as Hp.
  cbn [credential_run] in Hp. apply Hp; [lia|vm_compute; lia|vm_compute; reflexivity].
Defined.
