(* ===== verification/Vault.v ===== *)
(** * Lazy, deduplicated logins to the key service

    [VaultTransitBackend] of [core/secrets/vault_transit.py], one client used by
    any number of threads: [_ensure_authed] with its double check, [_call] with the
    re-login of a generation.  Threads interleave between any two accesses to the
    shared fields; the lock is held by at most one of them.  A login that Vault
    refuses raises; a session token expires at any time. *)

From stdpp Require Import functions.
From S2P Require Import Prelude.

(** The fields of the client.  [accepted]: Vault takes the current session token;
    [logins] and [expiries] count what happened. *)
Record client := Client {
  authed : bool;
  auth_generation : nat;
  lock : option nat;
  accepted : bool;
  logins : nat;
  expiries : nat;
}.

(** Where a thread stands in [_call]. *)
Inductive pc :=
| PStart               (* reads [_authed] *)
| PWait                (* [_ensure_authed], at the lock *)
| PFirst               (* the second check, under the lock *)
| PLogged              (* [_authenticate] returned *)
| PAuthed              (* [_authed] is set *)
| PGeneration          (* reads [_auth_generation] *)
| PCall (g : nat)      (* [fn()] *)
| PForbidden (g : nat) (* at the lock again *)
| PHeld (g : nat)      (* compares the generations *)
| PRelogged (g : nat)  (* [_authenticate] returned *)
| PRetry               (* [fn()] again *)
| PDone
| PRaised.

Record system := System { shared : client; threads : nat -> pc }.

Definition set_lock (l : option nat) (c : client) : client :=
  Client (authed c) (auth_generation c) l (accepted c) (logins c) (expiries c).
Definition logged_in (c : client) : client :=
  Client (authed c) (auth_generation c) (lock c) true (S (logins c)) (expiries c).
Definition set_authed (c : client) : client :=
  Client true (auth_generation c) (lock c) (accepted c) (logins c) (expiries c).
Definition bump (c : client) : client :=
  Client (authed c) (S (auth_generation c)) None (accepted c) (logins c) (expiries c).
Definition expired (c : client) : client :=
  Client (authed c) (auth_generation c) (lock c) false (logins c) (S (expiries c)).

(** One access of thread [t]; [approle]: the authentication method. *)
Inductive access (approle : bool) (t : nat) : client -> pc -> client -> pc -> Prop :=
| start_authed c : authed c = true -> access approle t c PStart c PGeneration
| start_not c : authed c = false -> access approle t c PStart c PWait
| take_first c : lock c = None -> access approle t c PWait (set_lock (Some t) c) PFirst
| first_already c : authed c = true -> access approle t c PFirst (set_lock None c) PGeneration
| first_login c : authed c = false -> access approle t c PFirst (logged_in c) PLogged
| first_refused c : authed c = false -> access approle t c PFirst (set_lock None c) PRaised
| first_mark c : access approle t c PLogged (set_authed c) PAuthed
| first_bump c : access approle t c PAuthed (bump c) PGeneration
| read_generation c : access approle t c PGeneration c (PCall (auth_generation c))
| call_answers c g : accepted c = true -> access approle t c (PCall g) c PDone
| call_forbidden c g : accepted c = false -> approle = true -> access approle t c (PCall g) c (PForbidden g)
| call_forbidden_token c g : accepted c = false -> approle = false -> access approle t c (PCall g) c PRaised
| call_fails c g : access approle t c (PCall g) c PRaised
| take_again c g : lock c = None -> access approle t c (PForbidden g) (set_lock (Some t) c) (PHeld g)
| held_stale c g : auth_generation c <> g -> access approle t c (PHeld g) (set_lock None c) PRetry
| held_login c g : auth_generation c = g -> access approle t c (PHeld g) (logged_in c) (PRelogged g)
| held_refused c g : auth_generation c = g -> access approle t c (PHeld g) (set_lock None c) PRaised
| again_bump c g : access approle t c (PRelogged g) (bump c) PRetry
| retry_answers c : accepted c = true -> access approle t c PRetry c PDone
| retry_forbidden c : accepted c = false -> access approle t c PRetry c PRaised
| retry_fails c : access approle t c PRetry c PRaised.

Inductive step (approle : bool) : system -> system -> Prop :=
| thread_step t c c' p ts : access approle t c (ts t) c' p -> step approle (System c ts) (System c' (<[t := p]> ts))
| expiry c ts : accepted c = true -> step approle (System c ts) (System (expired c) ts).

Definition initial : system := System (Client false 0 None false 0 0) (fun _ => PStart).

(** ** The invariant *)

(** The thread holds the lock; it has logged in and not said so yet. *)
Definition holding (p : pc) : bool :=
  match p with PFirst | PLogged | PAuthed | PHeld _ | PRelogged _ => true | _ => false end.
Definition in_login (p : pc) : bool := match p with PLogged | PAuthed | PRelogged _ => true | _ => false end.

(** The thread has been through [_ensure_authed]. *)
Definition passed (p : pc) : bool :=
  match p with PAuthed | PGeneration | PCall _ | PForbidden _ | PHeld _ | PRelogged _ | PRetry => true | _ => false end.
Definition forbidden_generation (p : pc) : option nat := match p with PForbidden g | PHeld g => Some g | _ => None end.

Record invariant (s : system) : Prop := {
  inv_lock t : holding (threads s t) = true -> lock (shared s) = Some t;
  inv_first t : threads s t = PLogged -> authed (shared s) = false;
  inv_unauthed : authed (shared s) = false -> accepted (shared s) = false \/ exists t, threads s t = PLogged;
  inv_passed t : passed (threads s t) = true -> authed (shared s) = true;
  inv_called t g : threads s t = PCall g -> g <= auth_generation (shared s);
  inv_forbidden t g : forbidden_generation (threads s t) = Some g ->
    g <= auth_generation (shared s) /\
    (g = auth_generation (shared s) -> accepted (shared s) = false \/ exists u, in_login (threads s u) = true);
  inv_count : logins (shared s) + (if accepted (shared s) then 0 else 1) <= S (expiries (shared s));
}.

Lemma initial_invariant : invariant initial.
Proof. split; cbn; try done. by left. Qed.

(** Rewrites the updated thread map in a goal or hypothesis about thread [u]. *)
Ltac at_thread u t :=
  destruct (decide (u = t)) as [->|?]; [rewrite ?fn_lookup_insert in *|rewrite ?fn_lookup_insert_ne in * by congruence].

Lemma only_holder s t u : invariant s -> holding (threads s t) = true -> holding (threads s u) = true -> u = t.
Proof. intros Hi Ht Hu. apply (inv_lock s Hi) in Ht, Hu. congruence. Qed.

Lemma in_login_holding p : in_login p = true -> holding p = true.
Proof. by destruct p. Qed.

Lemma expiry_invariant c ts : accepted c = true -> invariant (System c ts) -> invariant (System (expired c) ts).
Proof.
  intros Ha Hi. destruct Hi as [H1 H2 H3 Hp H4 H5 H6]. split; cbn [shared threads expired authed auth_generation lock accepted logins expiries] in *; try done.
  - by left.
  - intros t g Ht. destruct (H5 t g Ht) as [Hg _]. split; [done|]. by left.
  - rewrite Ha in H6. lia.
Qed.

(** Login only ever replaces a token Vault no longer takes. *)
Lemma first_login_needed t c ts : invariant (System c ts) -> ts t = PFirst -> authed c = false -> accepted c = false.
Proof.
  intros Hi Ht Ha. destruct (inv_unauthed _ Hi Ha) as [?|[u Hu]]; [done|]. cbn in Hu.
  assert (u = t) as -> by (apply (only_holder _ t u Hi); cbn; [by rewrite Ht|by rewrite Hu]). congruence.
Qed.
Lemma again_login_needed t c ts g : invariant (System c ts) -> ts t = PHeld g -> auth_generation c = g -> accepted c = false.
Proof.
  intros Hi Ht Hg. destruct (inv_forbidden _ Hi t g) as [_ H]; [cbn; by rewrite Ht|]. cbn in H.
  destruct (H (eq_sym Hg)) as [?|[u Hu]]; [done|].
  assert (u = t) as -> by (apply (only_holder _ t u Hi); cbn; [by rewrite Ht|by apply in_login_holding]).
  by rewrite Ht in Hu.
Qed.

(** The step of one thread, component by component. *)
Section thread.
Context (approle : bool) (t : nat) (c c' : client) (p : pc) (ts : nat -> pc).
Context (Hacc : access approle t c (ts t) c' p) (Hi : invariant (System c ts)).

Lemma other_holder u : u <> t -> holding (ts u) = true -> holding (ts t) = false.
Proof. intros Hne Hu. destruct (holding (ts t)) eqn:Ht; [|done]. by destruct Hne; apply (only_holder _ t u Hi). Qed.

Lemma step_lock u : holding ((<[t := p]> ts) u) = true -> lock c' = Some u.
Proof.
  destruct (decide (u = t)) as [->|Hne].
  - rewrite fn_lookup_insert. pose proof (inv_lock _ Hi t) as Hl. cbn in Hl.
    inversion Hacc; subst; cbn; try done; intros _; apply Hl; match goal with E : _ = ts t |- _ => by rewrite <- E end.
  - rewrite fn_lookup_insert_ne by done. intros Hu. pose proof (other_holder u Hne Hu) as Hf.
    pose proof (inv_lock _ Hi u Hu) as Hl. cbn in Hl.
    inversion Hacc as [| | | | | | | | | | | | | | | | | | | | ]; subst; cbn; try done; try congruence;
      match goal with E : _ = ts t |- _ => by rewrite <- E in Hf end.
Qed.

Lemma step_first u : (<[t := p]> ts) u = PLogged -> authed c' = false.
Proof.
  destruct (decide (u = t)) as [->|Hne].
  - rewrite fn_lookup_insert. intros ->. by inversion Hacc.
  - rewrite fn_lookup_insert_ne by done. intros Hu. pose proof (inv_first _ Hi u Hu) as Hf. cbn in Hf.
    assert (holding (ts t) = false) as Hh by (apply (other_holder u Hne); by rewrite Hu).
    inversion Hacc; subst; cbn; try done; match goal with E : _ = ts t |- _ => by rewrite <- E in Hh end.
Qed.

(** Who is in the middle of a login stays there, unless it bumps the generation. *)
Lemma step_in_login : (exists u, in_login (ts u) = true) ->
  (exists u, in_login ((<[t := p]> ts) u) = true) \/ auth_generation c < auth_generation c'.
Proof.
  intros [u Hu]. destruct (decide (u = t)) as [->|Hne].
  - inversion Hacc; subst; cbn; try (match goal with E : _ = ts t |- _ => by rewrite <- E in Hu end); try (right; lia).
    left. exists t. by rewrite fn_lookup_insert.
  - left. exists u. by rewrite fn_lookup_insert_ne.
Qed.

Lemma step_generation : auth_generation c <= auth_generation c'.
Proof. inversion Hacc; subst; cbn; lia. Qed.

(** A token is replaced by one thread that has not bumped the generation yet. *)
Lemma step_accepted : accepted c = false -> accepted c' = false \/ exists u, in_login ((<[t := p]> ts) u) = true.
Proof.
  intros Ha. inversion Hacc; subst; cbn; try (by left); right; exists t; by rewrite fn_lookup_insert.
Qed.

Lemma step_passed u : passed ((<[t := p]> ts) u) = true -> authed c' = true.
Proof.
  assert (authed c = true -> authed c' = true) as Hmono by (inversion Hacc; subst; cbn; done).
  destruct (decide (u = t)) as [->|Hne].
  - rewrite fn_lookup_insert. pose proof (inv_passed _ Hi t) as Hp. cbn in Hp.
    inversion Hacc; subst; cbn; try done; intros _; apply Hp; match goal with E : _ = ts t |- _ => by rewrite <- E end.
  - rewrite fn_lookup_insert_ne by done. intros Hu. apply Hmono, (inv_passed _ Hi u Hu).
Qed.

Lemma step_unauthed : authed c' = false -> accepted c' = false \/ exists u, (<[t := p]> ts) u = PLogged.
Proof.
  intros Hn. assert (authed c = false) as Hn0 by (inversion Hacc; subst; cbn in Hn; congruence).
  destruct (inv_unauthed _ Hi Hn0) as [Ha|[u Hu]]; cbn in *.
  - inversion Hacc; subst; cbn in *; try (by left); [right; exists t; by rewrite fn_lookup_insert|].
    pose proof (inv_passed _ Hi t) as Hp. cbn in Hp. match goal with E : _ = ts t |- _ => rewrite <- E in Hp end.
    by rewrite Hp in Hn.
  - right. exists u. destruct (decide (u = t)) as [->|Hne]; [|by rewrite fn_lookup_insert_ne].
    inversion Hacc; subst; match goal with E : _ = ts t |- _ => rewrite Hu in E end; try done; cbn in *; congruence.
Qed.

Lemma step_called u g : (<[t := p]> ts) u = PCall g -> g <= auth_generation c'.
Proof.
  pose proof step_generation as Hg. destruct (decide (u = t)) as [->|Hne].
  - rewrite fn_lookup_insert. intros ->. inversion Hacc; subst; lia.
  - rewrite fn_lookup_insert_ne by done. intros Hu. pose proof (inv_called _ Hi u g Hu). cbn in *. lia.
Qed.

Lemma step_forbidden u g : forbidden_generation ((<[t := p]> ts) u) = Some g ->
  g <= auth_generation c' /\
  (g = auth_generation c' -> accepted c' = false \/ exists u, in_login ((<[t := p]> ts) u) = true).
Proof.
  pose proof step_generation as Hg. intros Hu.
  assert (forbidden_generation (ts u) = Some g \/ ts u = PCall g /\ accepted c = false) as Hold.
  { destruct (decide (u = t)) as [->|Hne]; [rewrite fn_lookup_insert in Hu|rewrite fn_lookup_insert_ne in Hu by done; by left].
    inversion Hacc; subst; cbn in Hu; try done; injection Hu as ->; [by right|by left]. }
  assert (g <= auth_generation c /\ (g = auth_generation c -> accepted c = false \/ exists u, in_login (ts u) = true)) as [Hle Hself].
  { destruct Hold as [Hf|[Hc Ha]]; [apply (inv_forbidden _ Hi u g Hf)|]. split; [apply (inv_called _ Hi u g Hc)|by left]. }
  split; [lia|]. intros Heq. destruct (Hself ltac:(lia)) as [Ha|Hl]; [by apply step_accepted|].
  destruct (step_in_login Hl) as [?|?]; [by right|lia].
Qed.

Lemma step_count : logins c' + (if accepted c' then 0 else 1) <= S (expiries c').
Proof.
  pose proof (inv_count _ Hi) as Hc. cbn in Hc.
  inversion Hacc; subst; cbn; try exact Hc.
  - rewrite (first_login_needed t c ts Hi) in Hc by (by match goal with E : _ = ts t |- _ => rewrite <- E end || done). lia.
  - rewrite (again_login_needed t c ts (auth_generation c) Hi) in Hc
      by (by match goal with E : _ = ts t |- _ => rewrite <- E end || done). lia.
Qed.

Lemma thread_invariant : invariant (System c' (<[t := p]> ts)).
Proof.
  split; cbn [shared threads].
  - exact step_lock.
  - exact step_first.
  - exact step_unauthed.
  - exact step_passed.
  - exact step_called.
  - exact step_forbidden.
  - exact step_count.
Qed.
End thread.

Lemma reachable_invariant approle s : rtc (step approle) initial s -> invariant s.
Proof.
  intros Hs. assert (forall s0, invariant s0 -> rtc (step approle) s0 s -> invariant s) as Hr; [|by apply (Hr initial initial_invariant)].
  clear Hs. intros s0 Hi Hs. induction Hs as [|s0 s1 s2 Hstep _ IH]; [done|]. apply IH.
  destruct Hstep as [t c c' p ts Ha|c ts Ha]; [by eapply thread_invariant|by apply expiry_invariant].
Qed.

(** C23 [one_login_per_expiry] Whatever the number of threads and their interleaving,
    the client logs in at most once more than session tokens expired: threads that
    meet one expiry together cause one login.  No two of them are under the lock,
    and every login replaces a token Vault no longer takes. *)
Theorem one_login_per_expiry approle s :
  rtc (step approle) initial s ->
  logins (shared s) <= S (expiries (shared s)) /\
  (forall t u, holding (threads s t) = true -> holding (threads s u) = true -> t = u) /\
  (forall t g, threads s t = PHeld g -> auth_generation (shared s) = g -> accepted (shared s) = false).
Proof.
  intros Hs%reachable_invariant. destruct s as [c ts]. cbn [shared threads]. split_and!.
  - pose proof (inv_count _ Hs) as Hc. cbn in Hc. lia.
  - intros t u Ht Hu. by apply (only_holder _ u t Hs).
  - intros t g Ht Hg. by eapply again_login_needed.
Qed.

(** ** Two threads and one expiry *)

(** Both threads find the first token expired; the second finds the generation
    changed and logs in no more. *)
Lemma two_threads_one_login : exists ts,
  rtc (step true) initial (System (Client true 2 None true 2 1) ts) /\ ts 0 = PDone /\ ts 1 = PDone.
Proof.
  eexists. split; [|split].
  - unfold initial.
    eapply rtc_l; [eapply (thread_step true 0), start_not; reflexivity|].
    eapply rtc_l; [eapply (thread_step true 1), start_not; reflexivity|].
    eapply rtc_l; [eapply (thread_step true 0), take_first; reflexivity|].
    eapply rtc_l; [eapply (thread_step true 0), first_login; reflexivity|].
    eapply rtc_l; [eapply (thread_step true 0), first_mark|].
    eapply rtc_l; [eapply (thread_step true 0), first_bump|].
    eapply rtc_l; [eapply (thread_step true 1), take_first; reflexivity|].
    eapply rtc_l; [eapply (thread_step true 1), first_already; reflexivity|].
    eapply rtc_l; [eapply (thread_step true 0), read_generation|].
    eapply rtc_l; [eapply (thread_step true 1), read_generation|].
    eapply rtc_l; [apply expiry; reflexivity|].
    eapply rtc_l; [eapply (thread_step true 0), call_forbidden; reflexivity|].
    eapply rtc_l; [eapply (thread_step true 1), call_forbidden; reflexivity|].
    eapply rtc_l; [eapply (thread_step true 0), take_again; reflexivity|].
    eapply rtc_l; [eapply (thread_step true 0), held_login; reflexivity|].
    eapply rtc_l; [eapply (thread_step true 0), again_bump|].
    eapply rtc_l; [eapply (thread_step true 1), take_again; reflexivity|].
    eapply rtc_l; [eapply (thread_step true 1), held_stale; cbn; lia|].
    eapply rtc_l; [eapply (thread_step true 0), retry_answers; reflexivity|].
    eapply rtc_l; [eapply (thread_step true 1), retry_answers; reflexivity|].
    apply rtc_refl.
  - reflexivity.
  - reflexivity.
Qed.

Example one_login_per_expiry_witness : exists ts,
  rtc (step true) initial (System (Client true 2 None true 2 1) ts) /\ 2 <= S 1.
Proof.
  destruct two_threads_one_login as (ts & Hs & _). exists ts. split; [exact Hs|].
  exact (proj1 (one_login_per_expiry true _ Hs)).
Defined.
