(* ===== verification/Ingest.v ===== *)
(** * Push ingestion

    [collectors/ingest_buffer.py]: the capped Redis list between those who push and
    the collector that drains it; [routers/ingest.py]: the endpoint, from the token
    to the buffer; [collectors/vendors/push_ingest.py]: the virtual collector.

    The list commands of Redis are an interface ([RedisLists], with laws and an
    in-memory implementation).  The JSON writer, the clock's text, the decoding of
    the body and the registry filled at import are parameters.  Redis is at least
    6.2 ([RPOP] with a count). *)

From S2P Require Import Prelude PyVal Text Operators Redaction Store Dedupe RateLimit Secrets.

Local Open Scope Z_scope.

(** ** Lists in Redis *)

Class RedisLists (S : Type) `{Redis S} := {
  l_items : S -> string -> list string;                   (* the elements, the head first *)
  l_push : string -> list string -> S -> S * Z;           (* LPUSH k v..: the new length *)
  l_trim : string -> Z -> S -> S;                         (* LTRIM k 0 stop *)
  l_pop : string -> nat -> S -> S * list string;          (* RPOP k n *)
}.

(** The index [stop] of [LTRIM k 0 stop] may count from the end. *)
Definition trimmed {A} (stop : Z) (l : list A) : list A :=
  take (Z.to_nat (1 + if stop <? 0 then Z.of_nat (length l) + stop else stop)) l.

Class RedisListsLaws (S : Type) `{RedisLists S} := {
  l_push_items k vs s k' : l_items (l_push k vs s).1 k' = if String.eqb k' k then (rev vs ++ l_items s k)%list else l_items s k';
  l_push_length k vs s : (l_push k vs s).2 = Z.of_nat (length vs + length (l_items s k));
  l_trim_items k stop s k' : l_items (l_trim k stop s) k' = if String.eqb k' k then trimmed stop (l_items s k) else l_items s k';
  l_pop_items k n s k' :
    l_items (l_pop k n s).1 k' = if String.eqb k' k then take (length (l_items s k) - n) (l_items s k) else l_items s k';
  l_pop_values k n s : (l_pop k n s).2 = rev (drop (length (l_items s k) - n) (l_items s k));
  l_incrby_items k n s k' : l_items (r_incrby k n s).1 k' = l_items s k';
  l_incr_items k s k' : l_items (r_incr k s).1 k' = l_items s k';
  l_expire_items k n s k' : l_items (r_expire k n s) k' = l_items s k';
}.

(** An in-memory store. *)
Record mem_lists := MemLists { ml_store : mem_store; ml_lists : gmap string (list string) }.
Definition ml_get (s : mem_lists) (k : string) : list string := default [] (ml_lists s !! k).
Definition ml_put (k : string) (l : list string) (s : mem_lists) : mem_lists := MemLists (ml_store s) (<[k := l]> (ml_lists s)).
Definition ml_lift (f : mem_store -> mem_store) (s : mem_lists) : mem_lists := MemLists (f (ml_store s)) (ml_lists s).

#[export] Instance mem_lists_redis : Redis mem_lists := {
  r_now s := r_now (ml_store s);
  r_entry s := r_entry (ml_store s);
  r_set_ex k ttl := ml_lift (r_set_ex k ttl);
  r_set_nx_ex k ttl s := let (st, b) := r_set_nx_ex k ttl (ml_store s) in (MemLists st (ml_lists s), b);
  r_del k := ml_lift (r_del k);
  r_incr k s := let (st, n) := r_incr k (ml_store s) in (MemLists st (ml_lists s), n);
  r_incrby k m s := let (st, n) := r_incrby k m (ml_store s) in (MemLists st (ml_lists s), n);
  r_expire k ttl := ml_lift (r_expire k ttl);
  r_tick d := ml_lift (r_tick d);
}.
#[export] Instance mem_lists_lists : RedisLists mem_lists := {
  l_items := ml_get;
  l_push k vs s := (ml_put k (rev vs ++ ml_get s k) s, Z.of_nat (length vs + length (ml_get s k)));
  l_trim k stop s := ml_put k (trimmed stop (ml_get s k)) s;
  l_pop k n s :=
    let l := ml_get s k in
    (ml_put k (take (length l - n) l) s, rev (drop (length l - n) l));
}.
#[export] Instance mem_lists_laws : RedisListsLaws mem_lists.
Proof.
  assert (forall k l s k', ml_get (ml_put k l s) k' = if String.eqb k' k then l else ml_get s k') as Hput.
  { intros k l s k'. unfold ml_get, ml_put. cbn. destruct (String.eqb_spec k' k) as [->|Hne].
    - by rewrite lookup_insert_eq.
    - by rewrite lookup_insert_ne. }
  split; intros; try done; apply Hput.
Qed.

(** ** The buffer *)

(** [json.dumps(ev, separators, default=str, ensure_ascii=False)], and the size in
    bytes of the ASCII form. *)
Class EventJson := { event_dumps : list (string * pyval) -> string; ascii_size : list (string * pyval) -> Z }.

Definition DEFAULT_MAX_LEN : Z := 100000.
Definition DEFAULT_DRAIN_BUDGET : nat := 50000.
Definition DRAIN_CHUNK : nat := 500.
Definition DROPPED_TTL : Z := 7 * 24 * 3600.

Definition buffer_key (integration_id : Z) (stream : string) : string :=
  ("ingest:buf:" +:+ str_of_Z integration_id +:+ ":" +:+ stream)%string.
Definition dropped_key (integration_id : Z) (stream : string) : string :=
  ("ingest:dropped:" +:+ str_of_Z integration_id +:+ ":" +:+ stream)%string.

(** A round trip to Redis: done, done but the answer lost, or not done. *)
Inductive fate := Answered | LostReply | NotRun.
#[export] Instance fate_eq_dec : EqDecision fate.
Proof. solve_decision. Defined.

Section buffer.
Context {S : Type} `{RedisLists S} `{EventJson} `{JsonLoads}.

(** The pipeline of [push_events] is one transaction; the counter of drops is best
    effort ([counted]). *)
Definition push_events (f : fate) (counted : bool) (integration_id : Z) (stream : string) (events : list (list (string * pyval)))
    (max_len : Z) (s : S) : S * result (Z * Z) :=
  match events with
  | [] => (s, Ok (0, 0))
  | _ =>
      match f with
      | NotRun => (s, Raise EConnection)
      | _ =>
          let key := buffer_key integration_id stream in
          let payloads := event_dumps <$> events in
          let (s, length_after_push) := l_push key payloads s in
          let s := l_trim key (max_len - 1) s in
          match f with
          | LostReply => (s, Raise EConnection)
          | _ =>
              let dropped := Z.max 0 (length_after_push - max_len) in
              let s := if (0 <? dropped) && counted
                       then r_expire (dropped_key integration_id stream) DROPPED_TTL
                              (r_incrby (dropped_key integration_id stream) dropped s).1
                       else s in
              (s, Ok (Z.of_nat (length payloads), dropped))
          end
      end
  end.

(** [json.loads] of each element; a [ValueError] skips it. *)
Fixpoint load_all (raws : list string) : result (list pyval) :=
  match raws with
  | [] => Ok []
  | raw :: raws' =>
      match json_loads raw with
      | Ok v => rest ← load_all raws'; Ok (v :: rest)
      | Raise e => if is_value_error e then load_all raws' else Raise e
      end
  end.

(** A turn of the loop of [drain_events], whose [RPOP] ends as [f] says; [inl]: the
    loop goes on.  An [RPOP] that ran pops, whether or not its answer arrives. *)
Definition drain_turn (f : fate) (budget : nat) (key : string) (out : list pyval) (s : S)
  : S * (list pyval + result (list pyval)) :=
  if (budget <=? length out)%nat then (s, inr (Ok out))
  else
    let count := Nat.min DRAIN_CHUNK (budget - length out) in
    match f with
    | NotRun => (s, inr (Raise EConnection))
    | LostReply => ((l_pop key count s).1, inr (Raise EConnection))
    | Answered =>
        match l_pop key count s with
        | (s, []) => (s, inr (Ok out))
        | (s, chunk) => match load_all chunk with Ok vs => (s, inl (out ++ vs)) | Raise e => (s, inr (Raise e)) end
        end
    end.

(** The loop; [turns n]: how the [n]-th [RPOP] ends.  [None]: out of fuel. *)
Fixpoint drain_loop (fuel : nat) (turns : nat -> fate) (budget : nat) (key : string) (n : nat) (out : list pyval) (s : S)
  : option (S * result (list pyval)) :=
  match fuel with
  | 0%nat => None
  | Datatypes.S fuel' =>
      match drain_turn (turns n) budget key out s with
      | (s, inl out) => drain_loop fuel' turns budget key (Datatypes.S n) out s
      | (s, inr r) => Some (s, r)
      end
  end.
Definition drain_events (turns : nat -> fate) (integration_id : Z) (stream : string) (budget : nat) (s : S)
  : option (S * result (list pyval)) :=
  let key := buffer_key integration_id stream in
  drain_loop (Datatypes.S (length (l_items s key))) turns budget key 0 [] s.

(** [buffer_depth]; 0 without an answer. *)
Definition buffer_depth (up : bool) (integration_id : Z) (stream : string) (s : S) : Z :=
  if up then Z.of_nat (length (l_items s (buffer_key integration_id stream))) else 0.

(** [PushBufferCollector.collect]. *)
Definition push_collect (turns : nat -> fate) (integration_id : Z) (stream : string) (s : S) : option (S * result (list pyval)) :=
  drain_events turns integration_id stream DEFAULT_DRAIN_BUDGET s.
End buffer.

(** [PushBufferCollector.extract_message_id]; on an [_ingest] that is no dict, an
    [AttributeError]. *)
Definition extract_message_id `{FloatRepr} (event : list (string * pyval)) : result string :=
  let meta := py_or (dget "_ingest" event) (PDict []) in
  match meta with
  | PDict m => Ok (py_str (py_or (dget "id" m) (PStr "")))
  | _ => Raise EAttribute
  end.

(** ** The endpoint *)

Definition MAX_BODY_BYTES : Z := 16 * 1024 * 1024.
Definition MAX_EVENTS_PER_REQUEST : nat := 20000.
Definition MAX_EVENT_BYTES : Z := 1024 * 1024.

(** Why an item was refused, for [error_detail]. *)
Inductive rejection := NotAnObject (v : pyval) | TooBig (size : Z) | BadLine (line : string).

Record batch := Batch {
  b_events : list (list (string * pyval));
  b_parse_errors : Z;
  b_type_errors : Z;
  b_oversized : Z;
  b_first_error : option rejection;
}.
Definition empty_batch : batch := Batch [] 0 0 0 None.
Definition rejected (b : batch) : Z := b_parse_errors b + b_type_errors b + b_oversized b.
Definition noted (b : batch) (why : rejection) : option rejection :=
  match b_first_error b with None => Some why | some => some end.

(** [body.decode("utf-8", errors="replace")]. *)
Class DecodeBody := decode_body : string -> string.

(** The breaks of [str.splitlines]; the empty pieces are skipped below. *)
Definition line_break (a : ascii) : bool := in_range 10 13 a || in_range 28 30 a || in_range 133 133 a.
Fixpoint split_lines (s : string) : list string :=
  match s with
  | EmptyString => [EmptyString]
  | String a s' =>
      if line_break a then EmptyString :: split_lines s'
      else match split_lines s' with w :: ws => String a w :: ws | [] => [String a EmptyString] end
  end.

Section parse.
Context `{EventJson} `{JsonLoads} `{DecodeBody}.

(** [_collect]. *)
Definition collect_item (b : batch) (obj : pyval) : batch :=
  match obj with
  | PDict d =>
      let size := ascii_size d in
      if MAX_EVENT_BYTES <? size
      then Batch (b_events b) (b_parse_errors b) (b_type_errors b) (b_oversized b + 1) (noted b (TooBig size))
      else Batch (b_events b ++ [d]) (b_parse_errors b) (b_type_errors b) (b_oversized b) (b_first_error b)
  | _ => Batch (b_events b) (b_parse_errors b) (b_type_errors b + 1) (b_oversized b) (noted b (NotAnObject obj))
  end.

(** A line of NDJSON; only a [ValueError] is caught. *)
Definition ndjson_line (b : batch) (line : string) : result batch :=
  let line := str_strip line in
  if String.eqb line "" then Ok b
  else match json_loads line with
       | Ok (PList items) => Ok (foldl collect_item b items)
       | Ok obj => Ok (collect_item b obj)
       | Raise e =>
           if is_value_error e
           then Ok (Batch (b_events b) (b_parse_errors b + 1) (b_type_errors b) (b_oversized b) (noted b (BadLine line)))
           else Raise e
       end.
Fixpoint ndjson_lines (b : batch) (lines : list string) : result batch :=
  match lines with [] => Ok b | line :: lines' => b ← ndjson_line b line; ndjson_lines b lines' end.

Definition single_json (text : string) : result batch :=
  match json_loads text with
  | Ok (PDict d as parsed) =>
      Ok (match dget "events" d with PList items => foldl collect_item empty_batch items | _ => collect_item empty_batch parsed end)
  | Ok (PList items) => Ok (foldl collect_item empty_batch items)
  | Ok parsed => Ok (collect_item empty_batch parsed)
  | Raise e => if is_value_error e then Raise (EHttp 400 "ingest.invalid_json") else Raise e
  end.

Definition newline_char : ascii := "010"%char.
Definition is_ndjson (content_type text : string) : bool :=
  let ct := str_lower content_type in
  str_contains "ndjson" ct || str_contains "text/plain" ct ||
  (has_char newline_char text && negb (str_prefix "[" (str_lstrip text))).

Definition parse_events (body content_type : string) : result batch :=
  if MAX_BODY_BYTES <? Z.of_nat (String.length body) then Raise (EHttp 413 "ingest.payload_too_large")
  else
    let text := str_strip (decode_body body) in
    if String.eqb text "" then Ok empty_batch
    else
      b ← (if is_ndjson content_type text then ndjson_lines empty_batch (split_lines text) else single_json text);
      if (MAX_EVENTS_PER_REQUEST <? length (b_events b))%nat then Raise (EHttp 413 "ingest.too_many_events") else Ok b.
End parse.

(** [_stamp]; [received_at]: the clock's text. *)
Definition stamp `{Sha256} `{JsonDumps} (received_at stream : string) (event : list (string * pyval)) : list (string * pyval) :=
  dict_set "_ingest" (PDict [("id", PStr (sha256_hex (json_dumps event))); ("received_at", PStr received_at); ("stream", PStr stream)])
    event.

(** What the endpoint uses of an [Integration] row. *)
Record integration := Integration { i_platform : string; i_active : bool; i_credentials : list credential }.

(** The registry: the transport of a platform, the streams it has. *)
Class Registry := { platform_transport : string -> option string; has_stream : string -> string -> bool }.

(** [authorization.split(None, 1)], when there are two parts. *)
Definition split_scheme (s : string) : option (string * string) :=
  let fix word t :=
    match t with
    | String a t' => if is_space a then (EmptyString, t) else let (w, r) := word t' in (String a w, r)
    | EmptyString => (EmptyString, EmptyString)
    end in
  let (scheme, rest) := word (str_lstrip s) in
  match str_lstrip rest with EmptyString => None | r => Some (scheme, r) end.

Definition extract_token (authorization x_token : option string) : option string :=
  let bearer := match authorization with
                | None => None
                | Some a => match split_scheme a with
                            | Some (scheme, t) => if String.eqb (str_lower scheme) "bearer" then Some (str_strip t) else None
                            | None => None
                            end
                end in
  match bearer with
  | Some t => Some t
  | None => match x_token with Some x => if String.eqb x "" then None else Some (str_strip x) | None => None end
  end.

Definition UNAUTHORIZED : exn := EHttp 401 "token de ingestão inválido".

Section endpoint.
Context {S B : Type} `{RedisLists S} `{EventJson} `{JsonLoads} `{DecodeBody} `{SecretsBackend B} `{Sha256} `{JsonDumps} `{Registry}.

Definition authenticate (c : call) (integrations : gmap Z integration) (token : option string) (b : B) : B * result (Z * integration) :=
  match token with
  | None => (b, Raise UNAUTHORIZED)
  | Some token =>
      if String.eqb token "" then (b, Raise UNAUTHORIZED)
      else match parse_integration_id token with
           | None => (b, Raise UNAUTHORIZED)
           | Some id =>
               match integrations !! id with
               | None => (b, Raise UNAUTHORIZED)
               | Some integ =>
                   if i_active integ then
                     match verify c (i_credentials integ) token b with
                     | (b, Ok true) => (b, Ok (id, integ))
                     | (b, Ok false) => (b, Raise UNAUTHORIZED)
                     | (b, Raise e) => (b, Raise e)
                     end
                   else (b, Raise UNAUTHORIZED)
               end
           end
  end.

Record request := Request {
  q_stream : string; q_authorization : option string; q_x_token : option string;
  q_body : string; q_content_type : string; q_received_at : string }.
(** What Redis does during the request: the rate limiter, the push, the counter of
    drops, the length. *)
Record weather := Weather { w_limiter : loss; w_push : fate; w_counted : bool; w_depth : bool }.

Record response := Response { p_status : Z; p_accepted : Z; p_dropped : Z; p_depth : Z; p_rejected : batch }.
Definition respond (b : batch) (accepted dropped depth : Z) : response :=
  Response (if 0 <? rejected b then 207 else 200) accepted dropped depth b.

Definition INGEST_LIMIT : Z := 600.

Definition ingest (c : call) (w : weather) (integrations : gmap Z integration) (q : request) (b : B) (s : S)
  : B * S * result response :=
  match authenticate c integrations (extract_token (q_authorization q) (q_x_token q)) b with
  | (b, Raise e) => (b, s, Raise e)
  | (b, Ok (id, integ)) =>
      match check_token INGEST_LIMIT "ingest_ratelimit" (w_limiter w) id s with
      | (s, Some _) => (b, s, Raise (EHttp 429 "taxa de ingestão excedida"))
      | (s, None) =>
          if negb (bool_decide (platform_transport (i_platform integ) = Some "push"%string))
          then (b, s, Raise (EHttp 422 "ingest.not_push_source"))
          else if negb (has_stream (i_platform integ) (q_stream q)) then (b, s, Raise (EHttp 404 "ingest.unknown_stream"))
          else match parse_events (q_body q) (q_content_type q) with
               | Raise e => (b, s, Raise e)
               | Ok parsed =>
                   match b_events parsed with
                   | [] => (b, s, Ok (respond parsed 0 0 0))
                   | events =>
                       let stamped := stamp (q_received_at q) (q_stream q) <$> events in
                       match push_events (w_push w) (w_counted w) id (q_stream q) stamped DEFAULT_MAX_LEN s with
                       | (s, Ok (accepted, dropped)) =>
                           (b, s, Ok (respond parsed accepted dropped (buffer_depth (w_depth w) id (q_stream q) s)))
                       | (s, Raise _) => (b, s, Raise (EHttp 503 "ingest.buffer_unavailable"))
                       end
                   end
               end
      end
  end.
End endpoint.
