(* ===== verification/IngestProps.v ===== *)
(** * The push buffer is a queue that drops its oldest

    Draining returns the oldest events in the order they were pushed, whatever the
    interleaving of pushes and turns of drains; what the cap drops is older than what
    stays; what a drain popped is gone when its connection is lost.
    The endpoint writes only for the integration whose token it was given, and a bad
    line of a batch costs only itself. *)

From S2P Require Import Prelude PyVal Text Operators Redaction Store Dedupe RateLimit Secrets Ingest.

Local Open Scope Z_scope.

Lemma buffer_key_inj id1 st1 id2 st2 : buffer_key id1 st1 = buffer_key id2 st2 -> id1 = id2 /\ st1 = st2.
Proof.
  unfold buffer_key. intros E. apply str_app_inj in E; [|done]. destruct E as [_ E].
  change (":" +:+ st1)%string with (String ":" st1) in E. change (":" +:+ st2)%string with (String ":" st2) in E.
  apply split_at_sep in E as [E1 E2]; [|apply str_of_Z_no_sep..]. split; [by apply str_of_Z_inj|done].
Qed.

Lemma trimmed_cap {A} (max_len : Z) (l : list A) : 1 <= max_len -> trimmed (max_len - 1) l = take (Z.to_nat max_len) l.
Proof. intros Hm. unfold trimmed. rewrite (proj2 (Z.ltb_ge (max_len - 1) 0)) by lia. f_equal. lia. Qed.

Section fifo.
Context {S : Type} `{RedisListsLaws S} `{EventJson} `{JsonLoads}.

(** An event that survives the buffer: what was written is read back. *)
Definition loadable (d : list (string * pyval)) : Prop := json_loads (event_dumps d) = Ok (PDict d).

Lemma load_all_dumps ds : Forall loadable ds -> load_all (event_dumps <$> ds) = Ok (PDict <$> ds).
Proof. induction 1 as [|d ds Hd _ IH]; [done|]. cbn. unfold loadable in Hd. rewrite Hd. cbn in IH. by rewrite IH. Qed.

Lemma pop_oldest key count s (rest : list (list (string * pyval))) : l_items s key = rev (event_dumps <$> rest) ->
  (l_pop key count s).2 = event_dumps <$> take count rest /\
  l_items (l_pop key count s).1 key = rev (event_dumps <$> drop count rest) /\
  forall key', key' <> key -> l_items (l_pop key count s).1 key' = l_items s key'.
Proof.
  intros Hi. rewrite l_pop_values. split_and!.
  - rewrite Hi, length_rev. rewrite <- firstn_skipn_rev. by rewrite fmap_take.
  - rewrite l_pop_items, String.eqb_refl, Hi, length_rev, firstn_rev, fmap_drop. f_equal.
    destruct (decide (count <= length (event_dumps <$> rest)))%nat as [Hc|Hc].
    + f_equal. lia.
    + by rewrite !drop_ge by lia.
  - intros key' Hne. rewrite l_pop_items. by apply String.eqb_neq in Hne as ->.
Qed.

(** A turn whose [RPOP] is answered takes the oldest of what is left of the budget,
    chunk by chunk, or ends. *)
Lemma drain_turn_spec f budget key out (s : S) (rest : list (list (string * pyval))) : l_items s key = rev (event_dumps <$> rest) -> Forall loadable rest ->
  let k := if f is NotRun then 0%nat else Nat.min DRAIN_CHUNK (budget - length out) in
  let r := drain_turn f budget key out s in
  l_items r.1 key = rev (event_dumps <$> drop k rest) /\ (forall key', key' <> key -> l_items r.1 key' = l_items s key') /\
  match r.2 with
  | inl out' => f = Answered /\ out' = out ++ (PDict <$> take k rest) /\ rest <> [] /\ (0 < k)%nat
  | inr (Ok out') => out' = out /\ take k rest = []
  | inr (Raise e) => e = EConnection /\ f <> Answered
  end.
Proof.
  intros Hi Hl k r. subst r. unfold drain_turn. destruct (Nat.leb_spec budget (length out)) as [Hb|Hb].
  { assert (k = 0%nat) as -> by (subst k; rewrite (proj2 (Nat.sub_0_le _ _) Hb); by destruct f).
    cbn. by rewrite drop_0, take_0. }
  destruct f; cbn [fst snd]; subst k; cbv match.
  - destruct (pop_oldest key (Nat.min DRAIN_CHUNK (budget - length out)) s rest Hi) as (Hv & Hit & Ho).
    destruct (l_pop key (Nat.min DRAIN_CHUNK (budget - length out)) s) as [s1 chunk]. cbn [fst snd] in *.
    assert (0 < Nat.min DRAIN_CHUNK (budget - length out))%nat as Hk by (unfold DRAIN_CHUNK; lia).
    destruct chunk as [|x chunk]; [|destruct (load_all (x :: chunk)) as [vs|e] eqn:El]; cbn [fst snd]; (split; [done|]; split; [done|]).
    + split; [done|]. symmetry in Hv. by apply fmap_nil_inv in Hv.
    + rewrite Hv, load_all_dumps in El by by apply Forall_take. injection El as <-. split_and!; try done.
      intros ->. by rewrite take_nil in Hv.
    + by rewrite Hv, load_all_dumps in El by by apply Forall_take.
  - destruct (pop_oldest key (Nat.min DRAIN_CHUNK (budget - length out)) s rest Hi) as (Hv & Hit & Ho). by split_and!.
  - by rewrite drop_0.
Qed.

Lemma drain_turn_other f budget key out (s : S) key' : key' <> key -> l_items (drain_turn f budget key out s).1 key' = l_items s key'.
Proof.
  intros Hne%String.eqb_neq. unfold drain_turn. destruct (budget <=? length out)%nat; [done|].
  pose proof (l_pop_items key (Nat.min DRAIN_CHUNK (budget - length out)) s key') as Hp. rewrite Hne in Hp.
  destruct f; [|done|done].
  destruct (l_pop key (Nat.min DRAIN_CHUNK (budget - length out)) s) as [s1 [|x chunk]]; [done|]. by destruct (load_all (x :: chunk)).
Qed.

(** Each turn that goes on shortens the list: the fuel of [drain_events] is enough,
    whatever its turns meet. *)
Lemma drain_loop_returns fuel turns budget key n out (s : S) :
  (length (l_items s key) < fuel)%nat -> is_Some (drain_loop fuel turns budget key n out s).
Proof.
  revert n out s. induction fuel as [|fuel IH]; intros n out s Hf; [lia|]. cbn [drain_loop].
  destruct (drain_turn (turns n) budget key out s) as [s1 [out'|r]] eqn:E; [|done]. apply IH.
  unfold drain_turn in E. destruct (Nat.leb_spec budget (length out)); [done|].
  set (count := Nat.min DRAIN_CHUNK (budget - length out)) in *.
  assert (0 < count)%nat as Hc by (subst count; unfold DRAIN_CHUNK; lia).
  pose proof (l_pop_items key count s key) as Hi. rewrite String.eqb_refl in Hi.
  pose proof (l_pop_values key count s) as Hv. destruct (turns n); [|done|done].
  destruct (l_pop key count s) as [s2 [|x chunk]]; [done|]. destruct (load_all (x :: chunk)); [|done].
  injection E as <- _. cbn [fst snd] in *. rewrite Hi, length_take.
  assert (length (l_items s key) <> 0%nat); [|lia]. intros Hz%length_zero_iff_nil. by rewrite Hz, drop_nil in Hv.
Qed.

(** The loop takes the oldest [budget] elements. *)
Lemma drain_loop_spec fuel budget key n out s rest :
  l_items s key = rev (event_dumps <$> rest) -> Forall loadable rest -> (length rest < fuel)%nat ->
  let k := (budget - length out)%nat in
  exists s', drain_loop fuel (fun _ => Answered) budget key n out s = Some (s', Ok (out ++ (PDict <$> take k rest))) /\
    l_items s' key = rev (event_dumps <$> drop k rest) /\ forall key', key' <> key -> l_items s' key' = l_items s key'.
Proof.
  revert n out s rest. induction fuel as [|fuel IH]; intros n out s rest Hi Hl Hf k; [lia|]. cbn [drain_loop].
  pose proof (drain_turn_spec Answered budget key out s rest Hi Hl) as (Hit & Hother & Hr).
  set (count := Nat.min DRAIN_CHUNK (budget - length out)) in *.
  destruct (drain_turn Answered budget key out s) as [s1 [out'|[out'|e]]]; cbn [fst snd] in *; [| |by destruct Hr].
  2: { destruct Hr as [-> Ht]. exists s1. split_and!; [| |done].
    - enough (take k rest = []) as -> by (cbn; by rewrite app_nil_r).
      destruct rest; [apply take_nil|]. subst count k. unfold DRAIN_CHUNK in Ht. destruct (budget - length out)%nat; done.
    - rewrite Hit. destruct rest as [|d rest]; [by rewrite !drop_nil|].
      subst count k. unfold DRAIN_CHUNK in *. by destruct (budget - length out)%nat. }
  destruct Hr as (_ & -> & Hne & Hc).
  destruct (IH (Datatypes.S n) (out ++ (PDict <$> take count rest))%list s1 (drop count rest) Hit) as (s2 & -> & Hi2 & Ho2).
  { by apply Forall_drop. }
  { rewrite length_drop. destruct rest; [done|]. cbn [length] in *. lia. }
  set (k' := (budget - length (out ++ (PDict <$> take count rest)))%nat) in *.
  assert (take k rest = take count rest ++ take k' (drop count rest) /\ drop k rest = drop k' (drop count rest)) as [Ht Hd].
  { subst k' k. rewrite length_app, length_fmap, length_take.
    destruct (decide (length rest <= count))%nat as [Hle|Hgt].
    - rewrite (drop_ge rest count), take_nil, drop_nil, app_nil_r by done.
      by rewrite !take_ge, drop_ge by (subst count; lia).
    - rewrite Nat.min_l by lia. rewrite drop_drop, take_take_drop. split; f_equal; lia. }
  exists s2. rewrite Ht, Hd, fmap_app, app_assoc. split_and!; [done|done|].
  intros key' Hk. by rewrite Ho2, Hother.
Qed.

(** What a push does to the list of its key, when Redis runs it. *)
Lemma push_effect f counted id stream events max_len s (rest : list (list (string * pyval))) :
  l_items s (buffer_key id stream) = rev (event_dumps <$> rest) -> 1 <= max_len -> events <> [] -> f <> NotRun ->
  let n := (length (rest ++ events) - Z.to_nat max_len)%nat in
  let r := push_events f counted id stream events max_len s in
  l_items r.1 (buffer_key id stream) = rev (event_dumps <$> drop n (rest ++ events)) /\
  (f = Answered -> r.2 = Ok (Z.of_nat (length events), Z.of_nat n)) /\ (f = LostReply -> r.2 = Raise EConnection) /\
  forall key, key <> buffer_key id stream -> l_items r.1 key = l_items s key.
Proof.
  intros Hi Hm Hne Hf n r. set (key := buffer_key id stream) in *.
  assert (forall x, l_items (l_trim key (max_len - 1) (l_push key (event_dumps <$> events) s).1) x =
            if String.eqb x key then rev (event_dumps <$> drop n (rest ++ events)) else l_items s x) as Htrim.
  { intros x. rewrite l_trim_items, !l_push_items, String.eqb_refl. destruct (String.eqb x key); [|done].
    rewrite trimmed_cap, Hi, <- rev_app_distr, <- fmap_app, firstn_rev, fmap_drop, length_fmap by done. done. }
  assert (Z.max 0 ((l_push key (event_dumps <$> events) s).2 - max_len) = Z.of_nat n) as Hn.
  { rewrite l_push_length, Hi, length_rev, !length_fmap. subst n. rewrite length_app. lia. }
  subst r. unfold push_events. fold key. destruct events as [|e events]; [done|].
  destruct (l_push key (event_dumps <$> e :: events) s) as [s1 len]. cbn [fst snd] in *.
  destruct f; [| |done]; cbn [fst snd].
  - rewrite Hn. assert (forall x, l_items (if (0 <? Z.of_nat n) && counted
       then r_expire (dropped_key id stream) DROPPED_TTL (r_incrby (dropped_key id stream) (Z.of_nat n) (l_trim key (max_len - 1) s1)).1
       else l_trim key (max_len - 1) s1) x = l_items (l_trim key (max_len - 1) s1) x) as Hsame.
    { intros x. destruct (_ && _); [|done]. by rewrite l_expire_items, l_incrby_items. }
    split_and!; [by rewrite Hsame, Htrim, String.eqb_refl|by rewrite length_fmap|done|].
    intros x Hx. rewrite Hsame, Htrim. by apply String.eqb_neq in Hx as ->.
  - split_and!; [by rewrite Htrim, String.eqb_refl|done|done|].
    intros x Hx. rewrite Htrim. by apply String.eqb_neq in Hx as ->.
Qed.

(** ** Pushes and drains, interleaved *)

(** Drains are open at the same time and wait between their chunks: a push, or a turn
    of another drain, comes in between. *)
Inductive buffer_op :=
| OPush (f : fate) (counted : bool) (id : Z) (stream : string) (events : list (list (string * pyval)))
| OOpen (t : nat) (id : Z) (stream : string) (budget : nat)
| OTurn (t : nat) (f : fate).

(** A call of [drain_events]; [dr_result]: what it returned or raised, once it ended. *)
Record drain := Drain { dr_id : Z; dr_stream : string; dr_budget : nat; dr_out : list pyval; dr_result : option (result (list pyval)) }.
Definition dr_key (d : drain) : string := buffer_key (dr_id d) (dr_stream d).
Definition after_turn (d : drain) (r : list pyval + result (list pyval)) : drain :=
  match r with
  | inl out => Drain (dr_id d) (dr_stream d) (dr_budget d) out None
  | inr res => Drain (dr_id d) (dr_stream d) (dr_budget d) (dr_out d) (Some res)
  end.

(** What one buffer took in and reported as dropped; the drains, by number. *)
Record flow := Flow { f_store : S; f_accepted : list (list (string * pyval)); f_drains : gmap nat drain; f_reported : Z }.

Section one_buffer.
Context (id0 : Z) (stream0 : string) (max_len : Z).

Definition this_buffer (id : Z) (stream : string) : bool := (id =? id0) && String.eqb stream stream0.

Definition flow_step (h : flow) (o : buffer_op) : flow :=
  match o with
  | OPush f counted id stream events =>
      let (s, r) := push_events f counted id stream events max_len (f_store h) in
      if this_buffer id stream then
        Flow s (match f with NotRun => f_accepted h | _ => f_accepted h ++ events end) (f_drains h)
          (match r with Ok (_, dropped) => f_reported h + dropped | Raise _ => f_reported h end)
      else Flow s (f_accepted h) (f_drains h) (f_reported h)
  | OOpen t id stream budget =>
      match f_drains h !! t with
      | Some _ => h
      | None => Flow (f_store h) (f_accepted h) (<[t := Drain id stream budget [] None]> (f_drains h)) (f_reported h)
      end
  | OTurn t f =>
      match f_drains h !! t with
      | Some (Drain _ _ _ _ None as d) =>
          let (s, r) := drain_turn f (dr_budget d) (dr_key d) (dr_out d) (f_store h) in
          Flow s (f_accepted h) (<[t := after_turn d r]> (f_drains h)) (f_reported h)
      | _ => h
      end
  end.
Definition flow_run (ops : list buffer_op) (s : S) : flow := fold_left flow_step ops (Flow s [] ∅ 0).

Definition op_loadable (o : buffer_op) : Prop :=
  match o with OPush _ _ _ _ events => Forall loadable events | _ => True end.
Definition answered (o : buffer_op) : Prop := match o with OPush f _ _ _ _ => f <> LostReply | _ => True end.

(** Each element that left, in the order it came in, with the drain that popped it,
    or [None] for the cap. *)
Abbreviation removal := (list (option nat * list (string * pyval))).
Definition left_by (m : option nat) (r : removal) : list (list (string * pyval)) := (filter (fun e => e.1 = m) r).*2.

(** What a drain has to show for the events it popped: it holds them, it returned
    them, or its connection was lost and they are gone. *)
Definition drained (d : drain) (popped : list (list (string * pyval))) : Prop :=
  (length popped <= dr_budget d)%nat /\
  match dr_result d with
  | None => dr_out d = PDict <$> popped
  | Some (Ok vs) => vs = PDict <$> popped
  | Some (Raise e) => e = EConnection
  end.

Record queue_of (h : flow) (all_answered : Prop) (removed : removal) (rest : list (list (string * pyval))) : Prop := {
  q_items : l_items (f_store h) (buffer_key id0 stream0) = rev (event_dumps <$> rest);
  q_order : f_accepted h = removed.*2 ++ rest;
  q_drains t d : f_drains h !! t = Some d -> this_buffer (dr_id d) (dr_stream d) = true -> drained d (left_by (Some t) removed);
  q_owner t e : (Some t, e) ∈ removed -> exists d, f_drains h !! t = Some d /\ this_buffer (dr_id d) (dr_stream d) = true;
  q_reported : f_reported h <= Z.of_nat (length (left_by None removed));
  q_exact : all_answered -> f_reported h = Z.of_nat (length (left_by None removed));
  q_cap : Z.of_nat (length rest) <= max_len;
  q_loadable : Forall loadable rest;
}.

Lemma left_by_app m r1 r2 : left_by m (r1 ++ r2) = left_by m r1 ++ left_by m r2.
Proof. unfold left_by. by rewrite filter_app, fmap_app. Qed.
Lemma marked (m : option nat) (l : list (list (string * pyval))) :
  ((m,.) <$> l).*2 = l /\ left_by m ((m,.) <$> l) = l /\ forall m', m' <> m -> left_by m' ((m,.) <$> l) = [].
Proof.
  induction l as [|x l (IH1 & IH2 & IH3)]; [done|]. split_and!.
  - cbn. by f_equal.
  - unfold left_by in *. cbn [fmap list_fmap]. rewrite filter_cons. rewrite decide_True by done. cbn. by f_equal.
  - intros m' Hm. unfold left_by in *. cbn [fmap list_fmap]. rewrite filter_cons, decide_False by (by cbn; congruence). by apply IH3.
Qed.
Lemma left_by_none m (r : removal) : (forall e, (m, e) ∉ r) -> left_by m r = [].
Proof.
  intros Hn. unfold left_by. induction r as [|[m' e] r IH]; [done|]. rewrite filter_cons.
  destruct (decide ((m', e).1 = m)) as [<-|_]; [by destruct (Hn e); left|]. apply IH. intros e' He. apply (Hn e'). by right.
Qed.

Lemma this_buffer_spec id stream : if this_buffer id stream then id = id0 /\ stream = stream0
  else buffer_key id0 stream0 <> buffer_key id stream.
Proof.
  unfold this_buffer. destruct (Z.eqb_spec id id0) as [->|Hid]; cbn [andb].
  - destruct (String.eqb_spec stream stream0) as [->|Hs]; [done|]. by intros [_ ?]%buffer_key_inj.
  - by intros [? _]%buffer_key_inj.
Qed.

Lemma push_other f counted id stream events s : buffer_key id0 stream0 <> buffer_key id stream ->
  l_items (push_events f counted id stream events max_len s).1 (buffer_key id0 stream0) = l_items s (buffer_key id0 stream0).
Proof.
  intros Ht%String.eqb_neq. unfold push_events. destruct events as [|e events]; [done|].
  pose proof (l_push_items (buffer_key id stream) (event_dumps <$> e :: events) s (buffer_key id0 stream0)) as Hp.
  rewrite Ht in Hp. destruct f; [| |done];
    destruct (l_push (buffer_key id stream) (event_dumps <$> e :: events) s) as [s1 len]; cbn [fst] in *.
  - destruct (_ && _); cbn [fst]; by rewrite ?l_expire_items, ?l_incrby_items, l_trim_items, Ht.
  - by rewrite l_trim_items, Ht.
Qed.

Lemma push_queue_of h (P : Prop) removed rest f counted id stream events : 1 <= max_len -> Forall loadable events ->
  queue_of h P removed rest ->
  exists removed' rest', queue_of (flow_step h (OPush f counted id stream events)) (P /\ f <> LostReply) removed' rest'.
Proof.
  intros Hm Ho [Hi Hord Hd Hw Hr Hx Hc Hl]. cbn [flow_step].
  pose proof (this_buffer_spec id stream) as Ht. destruct (this_buffer id stream).
  2: { pose proof (push_other f counted id stream events (f_store h) Ht) as Hsame.
       destruct (push_events f counted id stream events max_len (f_store h)) as [s' r]. cbn [fst] in Hsame.
       exists removed, rest. split; cbn; try done; [by rewrite Hsame|]. intros [HP _]. by apply Hx. }
  destruct Ht as [-> ->]. destruct events as [|e events].
  { cbn. exists removed, rest. split; cbn; try done.
    - destruct f; [by rewrite app_nil_r|by rewrite app_nil_r|done].
    - lia.
    - intros [HP _]. rewrite (Hx HP). lia. }
  destruct (decide (f = NotRun)) as [->|Hf]; [by exists removed, rest; split; cbn; try done; intros [HP _]; apply Hx|].
  destruct (push_effect f counted id0 stream0 (e :: events) max_len (f_store h) rest Hi Hm ltac:(done) Hf) as (Hi' & Ha & Hlr & _).
  set (all := rest ++ e :: events) in *. set (n := (length all - Z.to_nat max_len)%nat) in *.
  destruct (push_events f counted id0 stream0 (e :: events) max_len (f_store h)) as [s' r]. cbn [fst snd] in *.
  destruct (marked None (take n all)) as (Hm1 & Hm2 & Hm3). assert (n <= length all)%nat as Hn by lia.
  exists (removed ++ ((None,.) <$> take n all)), (drop n all).
  split; cbn [f_store f_accepted f_drains f_reported]; rewrite ?left_by_app, ?Hm2, ?length_app, ?length_take_le by done.
  - exact Hi'.
  - rewrite fmap_app, Hm1, <- app_assoc, take_drop. destruct f; [| |done]; by rewrite Hord, <- app_assoc.
  - intros t d Hd' Htb. rewrite left_by_app, Hm3, app_nil_r by done. by apply Hd.
  - intros t e' [He|He]%elem_of_app; [by eapply Hw|]. by apply list_elem_of_fmap in He as (? & [=] & _).
  - destruct f; [rewrite (Ha eq_refl)|rewrite (Hlr eq_refl)|done]; lia.
  - intros [HP Hans]. destruct f; [rewrite (Ha eq_refl), (Hx HP); lia|done|done].
  - rewrite length_drop. lia.
  - apply Forall_drop, Forall_app. by split.
Qed.

Lemma turn_queue_of h (P : Prop) removed rest t f : 1 <= max_len -> queue_of h P removed rest ->
  exists removed' rest', queue_of (flow_step h (OTurn t f)) P removed' rest'.
Proof.
  intros Hm [Hi Hord Hd Hw Hr Hx Hc Hl]. cbn [flow_step].
  destruct (f_drains h !! t) as [[id stream budget out [r|]]|] eqn:Et; [by exists removed, rest| |by exists removed, rest].
  pose proof (this_buffer_spec id stream) as Ht. pose proof (Hd t _ Et) as Hdt. cbn [dr_id dr_stream] in Hdt.
  unfold dr_key. cbn [dr_id dr_stream dr_budget dr_out].
  destruct (this_buffer id stream) eqn:Etb.
  - destruct Ht as [-> ->]. destruct (Hdt eq_refl) as [Hb Hout]. cbn in Hb, Hout. subst out.
    set (popped := left_by (Some t) removed) in *.
    pose proof (drain_turn_spec f budget (buffer_key id0 stream0) (PDict <$> popped) (f_store h) rest Hi Hl) as (Hi' & _ & Hres).
    set (k := if f is NotRun then 0%nat else _) in *.
    assert (length popped + k <= budget)%nat as Hk by (subst k; rewrite length_fmap; destruct f; lia).
    destruct (drain_turn f budget (buffer_key id0 stream0) (PDict <$> popped) (f_store h)) as [s' r]. cbn [fst snd] in *.
    destruct (marked (Some t) (take k rest)) as (Hm1 & Hm2 & Hm3).
    exists (removed ++ ((Some t,.) <$> take k rest)), (drop k rest).
    split; cbn [f_store f_accepted f_drains f_reported]; rewrite ?left_by_app, ?(Hm3 None), ?app_nil_r by done; try done.
    + by rewrite fmap_app, Hm1, <- app_assoc, take_drop.
    + intros t' d' Hd' Htb. rewrite left_by_app. apply lookup_insert_Some in Hd' as [[<- <-]|[Hne Hd']].
      2: { rewrite Hm3, app_nil_r by congruence. by apply Hd. }
      rewrite Hm2. fold popped. split.
      * rewrite length_app, length_take. destruct r; cbn [after_turn dr_budget]; lia.
      * destruct r as [out'|[out'|e]]; cbn [after_turn dr_result dr_out].
        -- destruct Hres as (_ & -> & _). by rewrite fmap_app.
        -- destruct Hres as [-> ->]. by rewrite app_nil_r.
        -- by destruct Hres.
    + intros t' e [He|He]%elem_of_app.
      * destruct (Hw _ _ He) as (d & Hd1 & Hd2). destruct (decide (t' = t)) as [->|Hne].
        -- exists (after_turn (Drain id0 stream0 budget (PDict <$> popped) None) r). rewrite lookup_insert_eq. by destruct r.
        -- exists d. by rewrite lookup_insert_ne.
      * apply list_elem_of_fmap in He as (? & [= -> ->] & _).
        exists (after_turn (Drain id0 stream0 budget (PDict <$> popped) None) r). rewrite lookup_insert_eq. by destruct r.
    + rewrite length_drop. lia.
    + by apply Forall_drop.
  - pose proof (drain_turn_other f budget (buffer_key id stream) out (f_store h) (buffer_key id0 stream0) Ht) as Hsame.
    destruct (drain_turn f budget (buffer_key id stream) out (f_store h)) as [s' r]. cbn [fst] in Hsame.
    assert (forall r, this_buffer (dr_id (after_turn (Drain id stream budget out None) r))
              (dr_stream (after_turn (Drain id stream budget out None) r)) = false) as Hno by (by intros []).
    exists removed, rest. split; cbn [f_store f_accepted f_drains f_reported]; try done; [by rewrite Hsame| |].
    + intros t' d' Hd' Htb. apply lookup_insert_Some in Hd' as [[<- <-]|[Hne Hd']]; [by rewrite Hno in Htb|by apply Hd].
    + intros t' e He. destruct (Hw _ _ He) as (d & Hd1 & Hd2). exists d. rewrite lookup_insert_ne; [done|].
      intros <-. rewrite Et in Hd1. injection Hd1 as <-. cbn in Hd2. congruence.
Qed.

Lemma open_queue_of h (P : Prop) removed rest t id stream budget : queue_of h P removed rest ->
  queue_of (flow_step h (OOpen t id stream budget)) P removed rest.
Proof.
  intros [Hi Hord Hd Hw Hr Hx Hc Hl]. cbn [flow_step].
  destruct (f_drains h !! t) as [d|] eqn:Et; [by split|].
  split; cbn [f_store f_accepted f_drains f_reported]; try done.
  - intros t' d' Hd' Htb. apply lookup_insert_Some in Hd' as [[<- <-]|[Hne Hd']]; [|by apply Hd].
    rewrite left_by_none; [split; [cbn; lia|done]|]. intros e He. destruct (Hw _ _ He) as (d & Hd1 & _). congruence.
  - intros t' e He. destruct (Hw _ _ He) as (d & Hd1 & Hd2). exists d. rewrite lookup_insert_ne; [done|]. congruence.
Qed.

Lemma flow_step_queue h (P : Prop) removed rest o : 1 <= max_len -> op_loadable o -> queue_of h P removed rest ->
  exists removed' rest', queue_of (flow_step h o) (P /\ answered o) removed' rest'.
Proof.
  intros Hm Ho Hq. destruct o as [f counted id stream events|t id stream budget|t f].
  - by apply push_queue_of with removed rest.
  - exists removed, rest. destruct (open_queue_of h P removed rest t id stream budget Hq). split; try done. intros [HP _]. auto.
  - destruct (turn_queue_of h P removed rest t f Hm Hq) as (removed' & rest' & []). exists removed', rest'. split; try done.
    intros [HP _]. auto.
Qed.

Lemma flow_run_queue ops h (P : Prop) removed rest : 1 <= max_len -> Forall op_loadable ops -> queue_of h P removed rest ->
  exists removed' rest', queue_of (fold_left flow_step ops h) (P /\ Forall answered ops) removed' rest'.
Proof.
  intros Hm Ho. revert h P removed rest. induction ops as [|o ops IH]; intros h P removed rest Hq.
  - exists removed, rest. destruct Hq. split; try done. intros [HP _]. auto.
  - apply Forall_cons in Ho as [Ho Hos]. destruct (flow_step_queue h P removed rest o Hm Ho Hq) as (r1 & l1 & Hq1).
    destruct (IH Hos _ _ _ _ Hq1) as (r2 & l2 & Hq2). exists r2, l2. destruct Hq2. split; try done.
    intros [HP [Hao Haos]%Forall_cons]. auto.
Qed.

(** The turns of a drain that nothing comes between are [drain_events]. *)
Lemma turns_are_the_loop fuel turns t d h n s' r :
  f_drains h !! t = Some d -> dr_result d = None ->
  drain_loop fuel turns (dr_budget d) (dr_key d) n (dr_out d) (f_store h) = Some (s', r) ->
  exists k, let h' := fold_left flow_step ((fun i => OTurn t (turns i)) <$> seq n k) h in
    f_store h' = s' /\ f_drains h' !! t = Some (Drain (dr_id d) (dr_stream d) (dr_budget d)
                                                 (default [] (dr_out <$> f_drains h' !! t)) (Some r)).
Proof.
  revert d h n. induction fuel as [|fuel IH]; intros [id stream budget out res] h n Ht Hr Hl; [done|]. cbn in Hr. subst res.
  cbn [drain_loop] in Hl.
  assert (flow_step h (OTurn t (turns n)) =
    let (s, x) := drain_turn (turns n) budget (buffer_key id stream) out (f_store h) in
    Flow s (f_accepted h) (<[t := after_turn (Drain id stream budget out None) x]> (f_drains h)) (f_reported h)) as Hs.
  { cbn [flow_step]. by rewrite Ht. }
  unfold dr_key in Hl. cbn [dr_id dr_stream dr_budget dr_out] in *.
  destruct (drain_turn (turns n) budget (buffer_key id stream) out (f_store h)) as [s1 [out'|r1]].
  - destruct (IH (Drain id stream budget out' None) (flow_step h (OTurn t (turns n))) (Datatypes.S n)) as (k & Hk).
    + rewrite Hs. cbn [f_drains]. by rewrite lookup_insert_eq.
    + done.
    + rewrite Hs. exact Hl.
    + exists (Datatypes.S k). exact Hk.
  - injection Hl as <- <-. exists 1%nat. cbn [seq fmap list_fmap fold_left]. rewrite Hs. cbn [f_store f_drains].
    split; [done|]. by rewrite lookup_insert_eq.
Qed.

(** C4 [buffer_is_fifo] Over any interleaving of pushes, drains that start and single
    turns of the drains under way, on any number of buffers, with connections lost
    before or after Redis ran a command, a push buffer is a queue with a cap: the
    events it took in, each readable back, are, in order, those that left it followed
    by those it holds, at most [max_len].  What left was dropped by the cap or popped
    by one drain of this buffer; a drain that returned returned what it popped, in
    order and within its budget, one under way holds it, and one whose connection was
    lost raised and what it popped is gone.  The drops reported are no more than the
    drops, and all of them unless the answer of a push was lost. *)
Theorem buffer_is_fifo ops s :
  1 <= max_len -> l_items s (buffer_key id0 stream0) = [] -> Forall op_loadable ops ->
  let h := flow_run ops s in
  exists removed rest,
    f_accepted h = removed.*2 ++ rest /\
    l_items (f_store h) (buffer_key id0 stream0) = rev (event_dumps <$> rest) /\ Z.of_nat (length rest) <= max_len /\
    (forall t d, f_drains h !! t = Some d -> this_buffer (dr_id d) (dr_stream d) = true -> drained d (left_by (Some t) removed)) /\
    (forall t e, (Some t, e) ∈ removed -> exists d, f_drains h !! t = Some d /\ this_buffer (dr_id d) (dr_stream d) = true) /\
    f_reported h <= Z.of_nat (length (left_by None removed)) /\
    (Forall answered ops -> f_reported h = Z.of_nat (length (left_by None removed))).
Proof.
  intros Hm Hs Ho h.
  assert (queue_of (Flow s [] ∅ 0) True [] []) as Hq by (split; cbn; try done; try lia; by intros ? ? ?%elem_of_nil).
  destruct (flow_run_queue ops _ _ _ _ Hm Ho Hq) as (removed & rest & [H1' H2' H3' H4' H5' H6' H7' _]).
  exists removed, rest. split_and!; try done. intros Ha. by apply H6'.
Qed.
End one_buffer.
End fifo.

(** ** The endpoint *)

Section endpoint.
Context {S B : Type} `{RedisListsLaws S} `{EventJson} `{JsonLoads} `{DecodeBody} `{SecretsBackend B} `{Sha256} `{JsonDumps} `{Registry}.

(** The request carries a token that an active push integration accepts, for a
    stream it has. *)
Definition admitted (c : call) (integrations : gmap Z integration) (q : request) (b : B) (id : Z) : Prop :=
  exists integ token,
    extract_token (q_authorization q) (q_x_token q) = Some token /\ parse_integration_id token = Some id /\
    integrations !! id = Some integ /\ i_active integ = true /\ (verify c (i_credentials integ) token b).2 = Ok true /\
    platform_transport (i_platform integ) = Some "push"%string /\ has_stream (i_platform integ) (q_stream q) = true.

Lemma authenticate_ok c integrations token b id integ : (authenticate c integrations token b).2 = Ok (id, integ) ->
  exists t, token = Some t /\ parse_integration_id t = Some id /\ integrations !! id = Some integ /\ i_active integ = true /\
            (verify c (i_credentials integ) t b).2 = Ok true.
Proof.
  unfold authenticate. destruct token as [t|]; [|done]. destruct (String.eqb t ""); [done|].
  destruct (parse_integration_id t) as [i|] eqn:Ep; [|done]. destruct (integrations !! i) as [row|] eqn:Ei; [|done].
  destruct (i_active row) eqn:Ea; [|done]. destruct (verify c (i_credentials row) t b) as [b' [[]|e]] eqn:Ev; try done.
  intros [= <- <-]. exists t. split_and!; try done. by rewrite Ev.
Qed.

Lemma check_token_items max prefix lost id s key : l_items (check_token max prefix lost id s).1 key = l_items s key.
Proof.
  unfold check_token, redis_check_and_increment. destruct lost; try done;
    pose proof (l_incr_items (token_key prefix id) s key) as Hi; destruct (r_incr (token_key prefix id) s) as [s1 n]; cbn [fst] in Hi;
    destruct (n =? 1); cbn; try destruct (max <? n); cbn; by rewrite ?l_expire_items.
Qed.

Lemma push_key f counted id stream events max_len s key : l_items (push_events f counted id stream events max_len s).1 key <> l_items s key ->
  key = buffer_key id stream.
Proof.
  intros Hne. destruct (decide (key = buffer_key id stream)) as [|Hk]; [done|]. destruct Hne.
  apply String.eqb_neq in Hk. unfold push_events. destruct events as [|e events]; [done|].
  pose proof (l_push_items (buffer_key id stream) (event_dumps <$> e :: events) s key) as Hp.
  rewrite Hk in Hp. destruct f; [| |done];
    destruct (l_push (buffer_key id stream) (event_dumps <$> e :: events) s) as [s1 len]; cbn [fst] in *.
  - destruct (_ && _); cbn [fst]; by rewrite ?l_expire_items, ?l_incrby_items, l_trim_items, Hk.
  - by rewrite l_trim_items, Hk.
Qed.

(** C7 [ingest_is_confined] The push endpoint answers with a result, and changes a
    list in Redis, only for a request whose token an active push integration
    accepts for a stream it has; the list is that integration's buffer of that
    stream.  A request that fails otherwise leaves every buffer as it was, and an
    answer counts every event it took. *)
Theorem ingest_is_confined c w integrations q b s :
  let '(_, s', r) := ingest c w integrations q b s in
  (forall p, r = Ok p -> (exists id, admitted c integrations q b id) /\ p_accepted p = Z.of_nat (length (b_events (p_rejected p)))) /\
  (forall key, l_items s' key <> l_items s key ->
     exists id, admitted c integrations q b id /\ key = buffer_key id (q_stream q) /\
                (is_ok r = true \/ r = Raise (EHttp 503 "ingest.buffer_unavailable"))).
Proof.
  unfold ingest. pose proof (authenticate_ok c integrations (extract_token (q_authorization q) (q_x_token q)) b) as Ha.
  destruct (authenticate c integrations _ b) as [b1 [[id integ]|e]]; [|done]. cbn [snd] in Ha.
  destruct (Ha id integ eq_refl) as (token & Ht & Hp & Hi & Hact & Hv).
  pose proof (check_token_items INGEST_LIMIT "ingest_ratelimit" (w_limiter w) id s) as Hl.
  destruct (check_token INGEST_LIMIT "ingest_ratelimit" (w_limiter w) id s) as [s1 [wait|]]; cbn [fst] in Hl.
  { split; [done|]. intros key Hne. by rewrite Hl in Hne. }
  destruct (bool_decide (platform_transport (i_platform integ) = Some "push"%string)) eqn:Eplat; cbn [negb].
  2: { split; [done|]. intros key Hne. by rewrite Hl in Hne. }
  destruct (has_stream (i_platform integ) (q_stream q)) eqn:Estream; cbn [negb].
  2: { split; [done|]. intros key Hne. by rewrite Hl in Hne. }
  apply bool_decide_eq_true in Eplat.
  assert (admitted c integrations q b id) as Hadm by (exists integ, token; by split_and!).
  destruct (parse_events (q_body q) (q_content_type q)) as [parsed|e].
  2: { split; [done|]. intros key Hne. by rewrite Hl in Hne. }
  destruct (b_events parsed) as [|ev evs] eqn:Eev.
  { split; [|intros key Hne; by rewrite Hl in Hne]. intros p [= <-]. split; [by exists id|]. cbn. by rewrite Eev. }
  pose proof (push_key (w_push w) (w_counted w) id (q_stream q) (stamp (q_received_at q) (q_stream q) <$> ev :: evs) DEFAULT_MAX_LEN s1) as Hk.
  assert (forall s2 a d, push_events (w_push w) (w_counted w) id (q_stream q) (stamp (q_received_at q) (q_stream q) <$> ev :: evs)
            DEFAULT_MAX_LEN s1 = (s2, Ok (a, d)) -> a = Z.of_nat (length (ev :: evs))) as Hcount.
  { intros s2 a d. unfold push_events. cbn [fmap list_fmap]. destruct (w_push w); [|by destruct (l_push _ _ _)|done].
    destruct (l_push _ _ _) as [s3 n]. intros [= _ <- _]. cbn [length]. rewrite !length_fmap. done. }
  destruct (push_events (w_push w) (w_counted w) id (q_stream q) (stamp (q_received_at q) (q_stream q) <$> ev :: evs) DEFAULT_MAX_LEN s1)
    as [s2 [[a d]|e]]; cbn [fst] in Hk.
  - split.
    + intros p [= <-]. split; [by exists id|]. cbn [respond p_accepted p_rejected]. rewrite Eev. by eapply Hcount.
    + intros key Hne. exists id. split_and!; [done|apply Hk; by rewrite Hl|by left].
  - split; [done|]. intros key Hne. exists id. split_and!; [done|apply Hk; by rewrite Hl|by right].
Qed.
End endpoint.

(** ** A batch of lines *)

Section lines.
Context `{EventJson} `{JsonLoads} `{DecodeBody}.

Inductive line := Good (event : list (string * pyval)) | Bad (text : string).
Definition line_text (l : line) : string := match l with Good d => event_dumps d | Bad t => t end.
Fixpoint ndjson_text (ls : list line) : string :=
  match ls with
  | [] => ""
  | [l] => line_text l
  | l :: ls' => (line_text l +:+ String newline_char (ndjson_text ls'))%string
  end.

Fixpoint breakless (s : string) : bool :=
  match s with EmptyString => true | String a s' => negb (line_break a) && breakless s' end.
Definition line_writable (l : line) : Prop :=
  breakless (line_text l) = true /\ str_strip (line_text l) = line_text l /\ line_text l <> ""%string /\
  match l with
  | Good d => loadable d /\ ascii_size d <= MAX_EVENT_BYTES
  | Bad t => exists e, json_loads t = Raise e /\ is_value_error e = true
  end.

Definition goods (ls : list line) : list (list (string * pyval)) := omap (fun l => match l with Good d => Some d | Bad _ => None end) ls.
Definition bads (ls : list line) : list string := omap (fun l => match l with Good _ => None | Bad t => Some t end) ls.

Lemma split_lines_piece s t : breakless s = true ->
  split_lines (s +:+ String newline_char t)%string = s :: split_lines t /\ split_lines s = [s].
Proof.
  induction s as [|a s IH]; cbn [breakless].
  - intros _. split; [|done]. change (("" +:+ String newline_char t)%string) with (String newline_char t). done.
  - intros [Ha%negb_true_iff Hs]%andb_true_iff. destruct (IH Hs) as [IH1 IH2].
    change ((String a s +:+ String newline_char t)%string) with (String a (s +:+ String newline_char t)). cbn [split_lines].
    by rewrite Ha, IH1, IH2.
Qed.

Lemma split_ndjson l ls : Forall line_writable (l :: ls) -> split_lines (ndjson_text (l :: ls)) = line_text <$> l :: ls.
Proof.
  revert l. induction ls as [|l' ls IH]; intros l [(Hb & _) Hls]%Forall_cons.
  - cbn [ndjson_text]. by destruct (split_lines_piece (line_text l) "" Hb) as [_ ->].
  - change (ndjson_text (l :: l' :: ls)) with (line_text l +:+ String newline_char (ndjson_text (l' :: ls)))%string.
    destruct (split_lines_piece (line_text l) (ndjson_text (l' :: ls)) Hb) as [-> _]. by rewrite IH.
Qed.

Lemma ndjson_lines_mixed ls b : Forall line_writable ls ->
  exists first, ndjson_lines b (line_text <$> ls) =
    Ok (Batch (b_events b ++ goods ls) (b_parse_errors b + Z.of_nat (length (bads ls))) (b_type_errors b) (b_oversized b) first).
Proof.
  revert b. induction ls as [|l ls IH]; intros b Hls.
  - exists (b_first_error b). cbn. rewrite app_nil_r, Z.add_0_r. by destruct b.
  - apply Forall_cons in Hls as [(_ & Hs & Hne & Hl) Hls]. cbn [fmap list_fmap ndjson_lines]. unfold ndjson_line.
    rewrite Hs. apply String.eqb_neq in Hne as ->. destruct l as [d|t]; cbn [line_text] in *.
    + destruct Hl as [Hload Hsize]. unfold loadable in Hload. rewrite Hload. cbn [mbind result_bind collect_item].
      rewrite (proj2 (Z.ltb_ge MAX_EVENT_BYTES (ascii_size d))) by done.
      destruct (IH (Batch (b_events b ++ [d]) (b_parse_errors b) (b_type_errors b) (b_oversized b) (b_first_error b)) Hls) as [first ->].
      exists first. cbn. by rewrite <- app_assoc.
    + destruct Hl as (e & -> & He). rewrite He. cbn [mbind result_bind].
      destruct (IH (Batch (b_events b) (b_parse_errors b + 1) (b_type_errors b) (b_oversized b) (noted b (BadLine t))) Hls) as [first ->].
      exists first. cbn [b_events b_parse_errors b_type_errors b_oversized].
      change (bads (Bad t :: ls)) with (t :: bads ls). change (goods (Bad t :: ls)) with (goods ls). cbn [length].
      do 2 f_equal. lia.
Qed.

(** [bad_lines_cost_themselves] A batch of NDJSON lines, some of them no JSON, is
    accepted with every good event, in order, and one parse error per bad line:
    wherever the bad lines stand, they cost nothing but themselves. *)
Theorem bad_lines_cost_themselves l ls body content_type :
  Forall line_writable (l :: ls) -> str_contains "ndjson" (str_lower content_type) = true ->
  str_strip (decode_body body) = ndjson_text (l :: ls) -> Z.of_nat (String.length body) <= MAX_BODY_BYTES ->
  (length (goods (l :: ls)) <= MAX_EVENTS_PER_REQUEST)%nat ->
  exists first, parse_events body content_type = Ok (Batch (goods (l :: ls)) (Z.of_nat (length (bads (l :: ls)))) 0 0 first).
Proof.
  intros Hls Hct Hbody Hsize Hcount. unfold parse_events. rewrite (proj2 (Z.ltb_ge _ _)) by done. rewrite Hbody.
  assert (String.eqb (ndjson_text (l :: ls)) "" = false) as ->.
  { apply String.eqb_neq. apply Forall_cons in Hls as [(_ & _ & Hne & _) _].
    destruct ls; cbn [ndjson_text]; [done|]. by destruct (line_text l). }
  unfold is_ndjson. rewrite Hct. cbn [orb]. rewrite split_ndjson by done.
  destruct (ndjson_lines_mixed (l :: ls) empty_batch Hls) as [first ->]. exists first.
  cbn [mbind result_bind b_events b_parse_errors b_type_errors b_oversized empty_batch app].
  change ([] ++ goods (l :: ls)) with (goods (l :: ls)).
  rewrite (proj2 (Nat.ltb_ge MAX_EVENTS_PER_REQUEST (length (goods (l :: ls))))) by done. done.
Qed.
End lines.

(** ** A retry, and an interrupted drain *)

(** The id of a stamp is of the content alone: a batch sent again, later, gets the
    ids it had, and the collector's dedupe sees them. *)
Lemma retry_keeps_the_ids `{FloatRepr} `{Sha256} `{JsonDumps} t1 t2 stream1 stream2 event : sha256_hex (json_dumps event) <> ""%string ->
  extract_message_id (stamp t1 stream1 event) = Ok (sha256_hex (json_dumps event)) /\
  extract_message_id (stamp t2 stream2 event) = Ok (sha256_hex (json_dumps event)).
Proof.
  intros Hne. unfold stamp, extract_message_id, dget. rewrite !dict_get_set_eq.
  apply String.eqb_neq in Hne. unfold py_or. cbn [of_option default id truthy dict_get]. change (String.eqb "id" "id") with true.
  cbn [of_option default id truthy]. rewrite Hne. done.
Qed.

(** A lost connection after the first chunk raises, and the chunk, popped already, is
    gone: the drain does not give back what it had. *)
Lemma interrupted_drain_loses {S : Type} `{RedisListsLaws S} `{EventJson} `{JsonLoads} id stream s budget (rest : list (list (string * pyval))) :
  l_items s (buffer_key id stream) = rev (event_dumps <$> rest) -> Forall loadable rest ->
  rest <> [] -> (DRAIN_CHUNK < budget)%nat ->
  exists s', drain_events (fun n => if Nat.eqb n 1 then NotRun else Answered) id stream budget s = Some (s', Raise EConnection) /\
             l_items s' (buffer_key id stream) = rev (event_dumps <$> drop DRAIN_CHUNK rest).
Proof.
  intros Hi Hl Hne Hb. unfold drain_events. rewrite Hi, length_rev, length_fmap.
  destruct rest as [|d rest]; [done|]. cbn [length drain_loop Nat.eqb].
  pose proof (drain_turn_spec Answered budget (buffer_key id stream) [] s (d :: rest) Hi Hl) as (Hit & _ & Hr).
  cbn [length] in *. rewrite Nat.sub_0_r, Nat.min_l in * by lia.
  destruct (drain_turn Answered budget (buffer_key id stream) [] s) as [s1 [out|[out|e]]]; cbn [fst snd] in *;
    [|by destruct Hr as [_ ?]|by destruct Hr].
  destruct Hr as (_ & -> & _). exists s1. split; [|done]. unfold drain_turn. cbn [app].
  rewrite length_fmap, length_take, (proj2 (Nat.leb_gt _ _)) by lia. done.
Qed.

(** ** Examples *)

#[local] Instance demo_json : EventJson := {
  event_dumps d := match d with [(k, PStr v)] => (k +:+ "=" +:+ v)%string | _ => ""%string end;
  ascii_size d := 10;
}.
#[local] Instance demo_loads : JsonLoads := fun s =>
  match str_cut "=" s with Some (k, v) => Ok (PDict [(k, PStr v)]) | None => Raise EJsonDecode end.
#[local] Instance demo_decode : DecodeBody := fun s => s.

Definition demo_event (v : string) : list (string * pyval) := [("k", PStr v)].
(** Two drains of one buffer, a push between their chunks, an [RPOP] whose answer is
    lost. *)
Definition demo_ops : list buffer_op :=
  [OPush Answered true 1 "traffic" [demo_event "a"; demo_event "b"]; OPush NotRun true 1 "traffic" [demo_event "x"];
   OPush Answered true 1 "traffic" [demo_event "c"; demo_event "d"]; OPush Answered true 2 "traffic" [demo_event "y"];
   OOpen 0 1 "traffic" 2; OOpen 1 1 "traffic" 1; OTurn 0 Answered; OPush Answered true 1 "traffic" [demo_event "e"];
   OTurn 1 LostReply; OTurn 0 Answered].

Example demo_flow : let h := flow_run 1 "traffic" 3 demo_ops (MemLists mem_empty ∅) in
  (dr_result <$> f_drains h !! 0%nat) = Some (Some (Ok [PDict (demo_event "b"); PDict (demo_event "c")])) /\
  (dr_result <$> f_drains h !! 1%nat) = Some (Some (Raise EConnection)) /\
  l_items (f_store h) (buffer_key 1 "traffic") = ["k=e"] /\ f_reported h = 1.
Proof. vm_compute. done. Qed.

Example buffer_is_fifo_witness :
  let h := flow_run 1 "traffic" 3 demo_ops (MemLists mem_empty ∅) in
  exists removed rest, f_accepted h = removed.*2 ++ rest /\
    drained (Drain 1 "traffic" 2 [PDict (demo_event "b"); PDict (demo_event "c")] (Some (Ok [PDict (demo_event "b"); PDict (demo_event "c")])))
      (left_by (Some 0%nat) removed).
Proof.
  destruct (buffer_is_fifo 1 "traffic" 3 demo_ops (MemLists mem_empty ∅)) as (removed & rest & Ho & _ & _ & Hd & _).
  - lia.
  - reflexivity.
  - repeat constructor.
  - exists removed, rest. split; [exact Ho|]. apply Hd; vm_compute; reflexivity.
Defined.

Example bad_lines_cost_themselves_witness :
  exists first, parse_events ("k=1" +:+ String newline_char ("oops" +:+ String newline_char "k=2"))%string "application/x-ndjson" =
    Ok (Batch [demo_event "1"; demo_event "2"] 1 0 0 first).
Proof.
  destruct (bad_lines_cost_themselves (Good (demo_event "1")) [Bad "oops"; Good (demo_event "2")]
    ("k=1" +:+ String newline_char ("oops" +:+ String newline_char "k=2"))%string "application/x-ndjson") as [first Hp].
  - repeat constructor; try done; try (vm_compute; congruence). by exists EJsonDecode.
  - vm_compute. reflexivity.
  - vm_compute. reflexivity.
  - vm_compute. congruence.
  - apply Nat.leb_le. vm_compute. reflexivity.
  - exists first. exact Hp.
Defined.

(** A JSON object over several lines, as a pretty-printer writes it, is taken for
    NDJSON, whatever the content type says. *)
Lemma pretty_printed_object_is_split (content_type text : string) :
  has_char newline_char text = true -> str_prefix "{" (str_lstrip text) = true -> is_ndjson content_type text = true.
Proof.
  intros Hn Hp. unfold is_ndjson. rewrite Hn. cbn [andb]. destruct (str_lstrip text) as [|a t]; [done|].
  assert (str_prefix "[" (String a t) = false) as ->; [|by rewrite orb_true_r].
  cbn [str_prefix] in *. destruct (Ascii.eqb_spec "{" a) as [<-|]; done.
Qed.
Example pretty_printed_object_example :
  parse_events ("{" +:+ String newline_char ("a" +:+ String newline_char "}"))%string "application/json" =
    Ok (Batch [] 3 0 0 (Some (BadLine "{"))).
Proof. vm_compute. reflexivity. Qed.

#[local] Instance demo_backend : SecretsBackend unit := {
  encrypt _ p b := (b, Ok ("enc:" +:+ p)%string);
  decrypt _ t b := (b, Ok (str_drop 4 t));
}.
#[local] Instance demo_sha : Sha256 := fun s => s.
#[local] Instance demo_dumps : JsonDumps := fun _ => "digest"%string.
#[local] Instance demo_registry : Registry := {
  platform_transport p := if String.eqb p "fortinet_fortigate" then Some "push"%string else None;
  has_stream p st := String.eqb st "traffic";
}.
Definition demo_integrations : gmap Z integration :=
  {[ 1 := Integration "fortinet_fortigate" true [Credential LOGICAL_NAME "enc:coi_1_r" None 1 None None 0] ]}.
Definition demo_call : call := Call 0 0 true "" "" "".
Definition demo_request : request :=
  Request "traffic" (Some "Bearer coi_1_r"%string) None "k=1" "text/plain" "2026-01-01T00:00:00Z".
Definition demo_weather : weather := Weather NoLoss Answered true true.

Example ingest_is_confined_witness :
  exists id, admitted demo_call demo_integrations demo_request tt id.
Proof.
  pose proof (ingest_is_confined demo_call demo_weather demo_integrations demo_request tt (MemLists mem_empty ∅)) as Hc.
  destruct (ingest demo_call demo_weather demo_integrations demo_request tt (MemLists mem_empty ∅)) as [[b s] r] eqn:Ei.
  destruct Hc as [Hok _]. destruct r as [p|e]; [exact (proj1 (Hok p eq_refl))|].
  vm_compute in Ei. discriminate Ei.
Defined.
