(* ===== verification/Classify.v ===== *)
(** * Classification by content

    [collectors/classify.py]: an ordered list of JMESPath expressions gives the
    stream of an event of a generic source (a syslog line, a custom JSON); the
    first that holds wins.  JMESPath is a parameter ([JmesPath]). *)

From S2P Require Import Prelude PyVal Predicates Syslog.

Local Open Scope string_scope.
Local Open Scope list_scope.

(** The names of the detectors and their expressions. *)
Definition FACTORY_DETECTORS : list (string * string) :=
  [("fortigate", "contains(msg, 'devname=') && contains(msg, 'logid=')");
   ("paloalto", "contains(msg, ',TRAFFIC,') || contains(msg, ',THREAT,') || contains(msg, ',SYSTEM,') || contains(msg, ',CONFIG,')");
   ("cisco_asa", "contains(msg, '%ASA-') || contains(msg, '%FTD-')");
   ("pfsense", "app == 'filterlog' || contains(msg, 'filterlog')");
   ("linux_auth", "app == 'sshd' || app == 'sudo' || app == 'su' || app == 'login' || facility == `10` || facility == `4`");
   ("windows_vector", "app == 'Microsoft-Windows-Security-Auditing' || contains(msg, 'EventID=') || contains(msg, '" +:+
      String dquote_char ("EventID" +:+ String dquote_char "') || sd.win != null"))].

(** [@name] is the expression of a detector, any other text is JMESPath. *)
Definition resolve_when (when : string) : result string :=
  match str_strip when with
  | EmptyString => Raise EClassifier
  | String a name =>
      if Ascii.eqb a "@" then match dict_get name FACTORY_DETECTORS with Some e => Ok e | None => Raise EClassifier end
      else Ok (String a name)
  end.

(** One item of [dict(pairs)]: a pair of a hashable key and a value.  A key that is
    not a text is left out: no lookup below can see it. *)
Definition pair_item (item : pyval) : result (option (string * pyval)) :=
  let keyed k v := match k with
                   | PStr s => Ok (Some (s, v))
                   | _ => if hashable k then Ok None else Raise EType
                   end in
  match item with
  | PList [k; v] => keyed k v
  | PStr (String a (String b EmptyString)) => Ok (Some (String a "", PStr (String b "")))
  | PDict [(a, _); (b, _)] => Ok (Some (a, PStr b))
  | PList _ | PStr _ | PDict _ => Raise EValue
  | _ => Raise EType
  end.

(** [dict(value or {})]. *)
Definition py_dict (value : pyval) : result (list (string * pyval)) :=
  if negb (truthy value) then Ok []
  else match value with
       | PDict d => Ok d
       | PList l =>
           result_fold (fun d item => kv ← pair_item item; Ok (match kv with Some (k, v) => dict_set k v d | None => d end)) [] l
       | PStr _ => Raise EValue
       | _ => Raise EType
       end.

Section classify.
Context `{JmesPath} `{FloatRepr}.

Record class_rule := ClassRule { compiled : jmes_expr; when_text : string; stream : string }.
Record classifier := Classifier { rules : list class_rule; default_stream : option string }.

(** Whether the expression holds; one that raises does not. *)
Definition rule_matches (r : class_rule) (event : pyval) : bool :=
  match jmes_search (compiled r) event with Ok v => truthy v | Raise _ => false end.

Fixpoint first_stream (rs : list class_rule) (event : pyval) : option string :=
  match rs with
  | [] => None
  | r :: rs' => if rule_matches r event then Some (stream r) else first_stream rs' event
  end.
Definition classify (c : classifier) (event : pyval) : option string :=
  match first_stream (rules c) event with Some s => Some s | None => default_stream c end.

(** [explain]: the trace has what each expression gave, [None] when it raised. *)
Record traced := Traced { t_when : string; t_stream : string; t_result : option pyval; t_matched : bool }.
Definition trace_rule (event : pyval) (r : class_rule) : traced :=
  match jmes_search (compiled r) event with
  | Ok v => Traced (when_text r) (stream r) (Some v) (truthy v && negb (is_str v))
  | Raise _ => Traced (when_text r) (stream r) None false
  end.
Definition explain (c : classifier) (event : pyval) : option string * bool * list traced :=
  let trace := map (trace_rule event) (rules c) in
  let chosen := t_stream <$> head (filter (fun t => t_matched t = true) trace) in
  (match chosen with Some (String a s) => Some (String a s) | _ => default_stream c end, bool_decide (is_Some chosen), trace).

Definition compile_rule (r : pyval) : result class_rule :=
  match r with
  | PDict d =>
      let name := str_strip (py_str (py_or (dget "stream" d) (PStr ""))) in
      raise_if (String.eqb name "") EClassifier;;
      expr ← resolve_when (py_str (py_or (dget "when" d) (PStr "")));
      match jmes_compile expr with
      | Ok c => Ok (ClassRule c (py_str (dget "when" d)) name)
      | Raise _ => Raise EClassifier
      end
  | _ => Raise EClassifier
  end.

Definition CLASSIFIER_MAX : nat := 50.

(** The default of the configuration, or the one of the source. *)
Definition compile_default (d : list (string * pyval)) (source_default : option string) : option string :=
  let ds := py_or (dget "default_stream" d) (match source_default with Some s => PStr s | None => PNone end) in
  if truthy ds then Some (str_strip (py_str ds)) else None.

Definition compile_classifier (config : pyval) (source_default : option string) : result classifier :=
  cfg ← py_dict config;
  match py_or (dget "rules" cfg) (PList []) with
  | PList raw =>
      raise_if (CLASSIFIER_MAX <? length raw)%nat EClassifier;;
      rs ← result_map compile_rule raw;
      Ok (Classifier rs (compile_default cfg source_default))
  | _ => Raise EClassifier
  end.

(** [sorted(set(...))] of the streams the configuration names. *)
Definition streams_referenced (config : pyval) : result (list string) :=
  cfg ← py_dict config;
  let named r := match r with
                 | PDict d => if truthy (dget "stream" d) then [py_str (dget "stream" d)] else []
                 | _ => []
                 end in
  match py_or (dget "rules" cfg) (PList []) with
  | PList raw =>
      Ok (sorted_strs (remove_dups (concat (map named raw) ++
            (if truthy (dget "default_stream" cfg) then [py_str (dget "default_stream" cfg)] else []))))
  | PStr _ | PDict _ =>
      Ok (if truthy (dget "default_stream" cfg) then [py_str (dget "default_stream" cfg)] else [])
  | _ => Raise EType
  end.
End classify.

(** ** What the classifier guarantees *)

Section properties.
Context `{JmesPath} `{FloatRepr}.

Lemma first_stream_elem rs event s : first_stream rs event = Some s -> exists r, r ∈ rs /\ stream r = s.
Proof.
  induction rs as [|r rs IH]; cbn [first_stream]; [done|]. destruct (rule_matches r event).
  - intros [= <-]. exists r. split; [left | done].
  - intros (r' & ? & ?)%IH. exists r'. split; [by right | done].
Qed.

Lemma compile_rule_stream d r : compile_rule (PDict d) = Ok r ->
  stream r = str_strip (py_str (py_or (dget "stream" d) (PStr ""))) /\ stream r <> "".
Proof.
  unfold compile_rule. intros ([] & Hne%raise_if_ok & He)%result_bind_ok.
  apply result_bind_ok in He as (expr & _ & He). destruct (jmes_compile expr); [|done]. injection He as <-.
  cbn. split; [done|]. by apply String.eqb_neq.
Qed.

Lemma compiled_streams config source_default c r : compile_classifier config source_default = Ok c -> r ∈ rules c -> stream r <> "".
Proof.
  unfold compile_classifier. intros (cfg & _ & Hc)%result_bind_ok. destruct (py_or (dget "rules" cfg) (PList [])) as [| | | | |raw|]; try done.
  apply result_bind_ok in Hc as ([] & _ & Hc). apply result_bind_ok in Hc as (rs & Hrs%result_map_ok & [= <-]). cbn.
  intros (i & Hr)%list_elem_of_lookup_1. destruct (Forall2_lookup_r _ _ _ _ _ Hrs Hr) as ([| | | | | |d] & _ & Hv); try done.
  by apply (compile_rule_stream d r Hv).
Qed.

(** The streams an event can get are those the configuration names, without the
    blanks around them, or the default of the source. *)
Lemma classify_streams config source_default c event s :
  compile_classifier config source_default = Ok c -> classify c event = Some s ->
  (exists named name, streams_referenced config = Ok named /\ name ∈ named /\ s = str_strip name) \/
  (exists name, source_default = Some name /\ s = str_strip name).
Proof.
  unfold compile_classifier, streams_referenced. intros (cfg & -> & Hc)%result_bind_ok. cbn [mbind result_bind].
  destruct (py_or (dget "rules" cfg) (PList [])) as [| | | | |raw|] eqn:Er; try done.
  apply result_bind_ok in Hc as ([] & _ & Hc). apply result_bind_ok in Hc as (rs & Hrs%result_map_ok & [= <-]).
  unfold classify. cbn [rules default_stream].
  destruct (first_stream rs event) as [s'|] eqn:Ef.
  - intros [= ->]. left. apply first_stream_elem in Ef as (r & Hr & <-). apply list_elem_of_lookup_1 in Hr as (i & Hr).
    destruct (Forall2_lookup_r _ _ _ _ _ Hrs Hr) as (v & Hv & Hcomp).
    destruct v as [| | | | | |d]; try done. destruct (compile_rule_stream d r Hcomp) as [Hs Hne].
    assert (truthy (dget "stream" d) = true) as Ht.
    { destruct (truthy (dget "stream" d)) eqn:Ht; [done|]. unfold py_or in Hs. by rewrite Ht in Hs. }
    unfold py_or in Hs. rewrite Ht in Hs. eexists _, _. split; [done|]. split; [|exact Hs].
    rewrite sorted_strs_perm, elem_of_remove_dups, elem_of_app. left.
    apply list_elem_of_In, in_concat. exists [py_str (dget "stream" d)]. split; [|by left].
    apply in_map_iff. exists (PDict d). split; [by rewrite Ht|].
    apply list_elem_of_In. by eapply list_elem_of_lookup_2.
  - unfold compile_default, py_or. intros Hd. destruct (truthy (dget "default_stream" cfg)) eqn:Ht.
    + rewrite Ht in Hd. injection Hd as <-. left. eexists _, _. split; [done|]. split; [|done].
      rewrite sorted_strs_perm, elem_of_remove_dups, elem_of_app. right. left.
    + destruct source_default as [name|]; [|done]. right. exists name. split; [done|].
      destruct (truthy (PStr name)); [|done]. by injection Hd as <-.
Qed.
End properties.
