(* ===== verification/Sources.v ===== *)
(** * The sources of the syslog receiver

    [routers/syslog_sources.py] and the [syslog_sources] rows of [db/models.py]:
    who may speak syslog (a network, a port, a transport), for which push
    integration, and the classifier that names the stream.  The checks that the
    receiver cannot make in time are made here.  [ipaddress], [json] and the
    registry of collectors are parameters. *)

From S2P Require Import Prelude PyVal Predicates Operators Radix Tenancy Accounts Boundary Secrets Ingest Syslog Classify.

Local Open Scope string_scope.
Local Open Scope list_scope.
Local Open Scope Z_scope.

(** ** Data *)

(** [ClassifierConfig]: the rules, each with its [when] and its stream. *)
Abbreviation classifier_config := (list (string * string)).

Record source_row := SourceRow {
  y_id : Z;
  y_organization_id : Z;
  y_integration_id : Z;
  y_name : string;
  y_source_cidr : string;
  y_listen_port : option Z;
  y_transport : string;
  y_default_stream : string;
  y_classifier_json : option string;
  y_enabled : bool;
}.

(** What is read of an [Integration]. *)
Record source_integration := SourceIntegration { n_organization_id : Z; n_platform : string; n_active : bool }.

Record source_db := SourceDb {
  y_rows : list source_row;
  y_integrations : gmap Z source_integration;
  y_next_id : Z;
}.
Definition set_rows (f : list source_row -> list source_row) (d : source_db) : source_db :=
  SourceDb (f (y_rows d)) (y_integrations d) (y_next_id d).

Record source_create := SourceCreate {
  yc_integration_id : Z;
  yc_name : string;
  yc_source_cidr : string;
  yc_listen_port : option Z;
  yc_transport : string;
  yc_default_stream : string;
  yc_classifier : option classifier_config;
  yc_enabled : bool;
}.

(** The outer option of a nullable field is whether it was sent; where a [null] and a
    missing field mean the same there is one option. *)
Record source_update := SourceUpdate {
  yu_name : option string;
  yu_source_cidr : option string;
  yu_listen_port : option (option Z);
  yu_transport : option string;
  yu_default_stream : option (option string);
  yu_classifier : option (option classifier_config);
  yu_enabled : option bool;
}.

(** [str(network)], and [json.dumps(cfg, separators=(",", ":"))] of a configuration. *)
Class NetworkText := network_text : network -> string.
Class ConfigDumps := config_dumps : pyval -> string.

Definition TRANSPORTS : list string := ["any"; "udp"; "tcp"; "tls"].

(** ** The schemas *)

Definition sized (low high : nat) (s : string) : result unit :=
  raise_if (negb ((low <=? String.length s)%nat && (String.length s <=? high)%nat)) INVALID_BODY.
Definition in_bounds (low high : Z) (n : Z) : result unit := raise_if (negb ((low <=? n) && (n <=? high))) INVALID_BODY.
Definition when_set {A} (f : A -> result unit) (o : option A) : result unit := match o with Some a => f a | None => Ok tt end.

Definition classifier_schema (c : classifier_config) : result unit :=
  raise_if (50 <? length c)%nat INVALID_BODY;;
  raise_if (negb (forallb (fun r => is_ok (sized 1 2000 r.1;; sized 1 63 r.2)) c)) INVALID_BODY.

Definition source_create_schema (c : source_create) : result unit :=
  sized 1 120 (yc_name c);; sized 1 64 (yc_source_cidr c);; when_set (in_bounds 1 65535) (yc_listen_port c);;
  sized 1 63 (yc_default_stream c);; when_set classifier_schema (yc_classifier c).

Definition source_update_schema (c : source_update) : result unit :=
  when_set (sized 1 120) (yu_name c);; when_set (sized 1 64) (yu_source_cidr c);;
  when_set (when_set (in_bounds 0 65535)) (yu_listen_port c);; when_set (when_set (sized 1 63)) (yu_default_stream c);;
  when_set (when_set classifier_schema) (yu_classifier c).

(** [model_dump] of a configuration. *)
Definition config_value (c : classifier_config) : pyval :=
  PDict [("rules", PList (map (fun r : string * string => PDict [("when", PStr r.1); ("stream", PStr r.2)]) c))].

(** [ClassifierConfig( **value)]: pydantic refuses with a [ValueError]. *)
Definition config_rule (v : pyval) : result (string * string) :=
  match v with
  | PDict d =>
      match dict_get "when" d, dict_get "stream" d with
      | Some (PStr w), Some (PStr s) => if is_ok (sized 1 2000 w;; sized 1 63 s) then Ok (w, s) else Raise EValue
      | _, _ => Raise EValue
      end
  | _ => Raise EValue
  end.
Definition config_of (v : pyval) : result classifier_config :=
  match v with
  | PDict d =>
      match dict_get "rules" d with
      | None => Ok []
      | Some (PList l) => raise_if (50 <? length l)%nat EValue;; result_map config_rule l
      | Some _ => Raise EValue
      end
  | _ => Raise EType
  end.

Section sources.
Context `{IpAddress} `{NetworkText} `{JsonLoads} `{ConfigDumps} `{JmesPath} `{FloatRepr} `{Registry} `{ScopeResolver}.

(** ** The checks *)

Definition load_push_integration (integration_id : Z) (p : principal) (d : source_db) : result source_integration :=
  match y_integrations d !! integration_id with
  | None => Raise (EHttp 404 "syslog.integration_not_found")
  | Some integ =>
      require_subtree_access (p_user p) (n_organization_id integ);;
      raise_if (negb (bool_decide (platform_transport (n_platform integ) = Some "push"))) (EHttp 422 "syslog.not_push_integration");;
      Ok integ
  end.

Definition validate_cidr (raw : string) : result string :=
  match ip_network (str_strip raw) with
  | None => Raise (EHttp 422 "syslog.invalid_cidr")
  | Some net => raise_if (prefixlen net =? 0)%nat (EHttp 422 "syslog.open_cidr");; Ok (network_text net)
  end.

(** [t or "any"]. *)
Definition validate_transport (t : string) : result string :=
  let v := str_lower (str_strip (if String.eqb t "" then "any" else t)) in
  raise_if (negb (bool_decide (v ∈ TRANSPORTS))) (EHttp 422 "syslog.invalid_transport");; Ok v.

Definition validate_streams (platform default_stream : string) (c : option classifier_config) : result unit :=
  raise_if (negb (forallb (has_stream platform) (default_stream :: map snd (default [] c)))) (EHttp 422 "syslog.unknown_stream").

(** [cfg if cfg else None] of a configuration that may be missing. *)
Definition config_arg (c : option classifier_config) : pyval := match c with Some c => config_value c | None => PNone end.

Definition invalid_classifier {A} (m : result A) : result A :=
  try_except m (fun e => bool_decide (e = EClassifier)) (fun _ => Raise (EHttp 422 "syslog.invalid_classifier")).

(** The text of the column: [None] without rules. *)
Definition validate_classifier (c : option classifier_config) (default_stream : string) : result (option string) :=
  invalid_classifier (compile_classifier (config_arg c) (Some default_stream));;
  Ok (match c with Some (r :: c) => Some (config_dumps (config_value (r :: c))) | _ => None end).

Definition get_visible (source_id : Z) (p : principal) (d : source_db) : result source_row :=
  match first (fun r => y_id r =? source_id) (y_rows d) with
  | None => Raise (EHttp 404 "syslog.source_not_found")
  | Some row => require_subtree_access (p_user p) (y_organization_id row);; Ok row
  end.

(** The configuration of a row, which the handlers read back from its text. *)
Definition stored_config (row : source_row) : result (option classifier_config) :=
  match y_classifier_json row with
  | None | Some EmptyString => Ok None
  | Some text => v ← json_loads text; c ← config_of v; Ok (Some c)
  end.

(** ** The handlers *)

Definition create_source (p : principal) (c : source_create) (d : source_db) : result source_db :=
  require_permission USER_MANAGE p;;
  source_create_schema c;;
  integ ← load_push_integration (yc_integration_id c) p d;
  cidr ← validate_cidr (yc_source_cidr c);
  transport ← validate_transport (yc_transport c);
  validate_streams (n_platform integ) (yc_default_stream c) (yc_classifier c);;
  json ← validate_classifier (yc_classifier c) (yc_default_stream c);
  let row := SourceRow (y_next_id d) (n_organization_id integ) (yc_integration_id c) (str_strip (yc_name c)) cidr
               (yc_listen_port c) transport (yc_default_stream c) json (yc_enabled c) in
  Ok (SourceDb (y_rows d ++ [row]) (y_integrations d) (y_next_id d + 1)).

(** The new row; a refusal leaves the old one, since nothing was committed. *)
Definition updated_row (c : source_update) (integ : source_integration) (row : source_row) : result source_row :=
  cidr ← match yu_source_cidr c with Some raw => validate_cidr raw | None => Ok (y_source_cidr row) end;
  transport ← match yu_transport c with Some t => validate_transport t | None => Ok (y_transport row) end;
  let port := match yu_listen_port c with Some (Some n) => if n =? 0 then None else Some n | Some None => None | None => y_listen_port row end in
  let name := match yu_name c with Some n => str_strip n | None => y_name row end in
  let enabled := default (y_enabled row) (yu_enabled c) in
  let default_stream := match yu_default_stream c with Some (Some s) => if String.eqb s "" then y_default_stream row else s
                                                     | _ => y_default_stream row end in
  config ← match yu_classifier c with Some config => Ok config | None => stored_config row end;
  '(json, default_stream) ←
    (if bool_decide (yu_default_stream c <> None) || bool_decide (yu_classifier c <> None) then
       validate_streams (n_platform integ) default_stream config;;
       json ← validate_classifier config default_stream; Ok (json, default_stream)
     else Ok (y_classifier_json row, y_default_stream row));
  Ok (SourceRow (y_id row) (y_organization_id row) (y_integration_id row) name cidr port transport default_stream json enabled).

(** The foreign key to the integration is [ON DELETE CASCADE]: it is there. *)
Definition update_source (p : principal) (source_id : Z) (c : source_update) (d : source_db) : result source_db :=
  require_permission USER_MANAGE p;;
  source_update_schema c;;
  row ← get_visible source_id p d;
  match y_integrations d !! y_integration_id row with
  | None => Raise EAttribute
  | Some integ =>
      row' ← updated_row c integ row;
      Ok (set_rows (update_where (fun r => y_id r =? y_id row) (fun _ => row')) d)
  end.

Definition delete_source (p : principal) (source_id : Z) (d : source_db) : result source_db :=
  require_permission USER_MANAGE p;;
  row ← get_visible source_id p d;
  Ok (set_rows (delete_where (fun r => y_id r =? y_id row)) d).

Definition list_sources (p : principal) (integration_id organization_id : option Z) (d : source_db) : result (list source_row) :=
  require_permission USER_MANAGE p;;
  Ok (filter (fun r => can_access_subtree (p_user p) (y_organization_id r) = true)
        (filter (fun r => bool_decide (is_Some (y_integrations d !! y_integration_id r))
                          && match integration_id with Some i => y_integration_id r =? i | None => true end
                          && match organization_id with Some o => y_organization_id r =? o | None => true end = true) (y_rows d))).
End sources.
