(* ===== verification/SourcesProps.v ===== *)
(** * What the API of the syslog sources guarantees

    Whatever is created, updated or deleted, by anyone, every row of the table is
    one the receiver can use ([sources_stay_usable]), and nobody touches the rows
    of organizations out of reach ([sources_are_confined]).  The address ranges of
    the rows are not compared: [narrower_source_diverts] shows what that allows. *)

From S2P Require Import Prelude PyVal Predicates Operators Radix Tenancy Accounts AccountsProps Boundary Secrets Ingest Syslog Classify Sources.

Local Open Scope string_scope.
Local Open Scope list_scope.
Local Open Scope Z_scope.

(** [ipaddress] reads back its own text, [json] a configuration; a registered
    stream has no blanks around it. *)
Class SourceLaws `{IpAddress} `{NetworkText} `{JsonLoads} `{ConfigDumps} `{Registry} := {
  network_text_read s net : ip_network s = Some net -> ip_network (network_text net) = Some net;
  config_read c : json_loads (config_dumps (config_value c)) = Ok (config_value c);
  config_text c : config_dumps (config_value c) <> "";
  has_stream_stripped platform s : has_stream platform s = true -> str_strip s = s;
}.

(** ** Rows kept by an update or a deletion *)

Lemma filter_update {A} (P : A -> Prop) `{forall x, Decision (P x)} (f : A -> A) (l : list A) :
  (forall x, x ∈ l -> P x \/ P (f x) -> f x = x) -> filter P (f <$> l) = filter P l.
Proof.
  induction l as [|x l IH]; intros Hf; [done|].
  assert (P x \/ P (f x) -> f x = x) as Hx by (apply Hf; left).
  rewrite fmap_cons, !filter_cons, IH by (intros ? ?; apply Hf; by right).
  destruct (decide (P x)) as [Hp|Hp].
  - rewrite Hx by tauto. by rewrite decide_True.
  - rewrite decide_False; [done|]. intros Hp'. rewrite Hx in Hp' by tauto. done.
Qed.

Lemma filter_delete {A} (P Q : A -> Prop) `{forall x, Decision (P x)} `{forall x, Decision (Q x)} (l : list A) :
  (forall x, x ∈ l -> P x -> Q x) -> filter P (filter Q l) = filter P l.
Proof.
  induction l as [|x l IH]; intros Hq; [done|]. specialize (IH (fun y Hy => Hq y (list_elem_of_further _ _ _ Hy))).
  rewrite !filter_cons. destruct (decide (P x)) as [Hp|Hp].
  - rewrite (decide_True (P := Q x)) by (apply Hq; [left | done]). rewrite filter_cons, decide_True by done. by rewrite IH.
  - destruct (decide (Q x)); [rewrite filter_cons, decide_False by done|]; done.
Qed.

Section valid.
Context `{IpAddress} `{NetworkText} `{JsonLoads} `{ConfigDumps} `{JmesPath} `{FloatRepr} `{Registry} `{ScopeResolver}.
Context `{!SourceLaws}.

(** ** Rows the receiver can use *)

(** The configuration a row holds. *)
Definition row_config (row : source_row) (config : classifier_config) : Prop :=
  match y_classifier_json row with
  | None => config = []
  | Some text => text <> "" /\ config <> [] /\ classifier_schema config = Ok tt /\ json_loads text = Ok (config_value config)
  end.

Definition port_ok (port : option Z) : Prop := match port with Some n => 1 <= n <= 65535 | None => True end.

Record row_ok (d : source_db) (row : source_row) (integ : source_integration) (config : classifier_config) : Prop := RowOk {
  ok_network : exists net, ip_network (y_source_cidr row) = Some net /\ prefixlen net <> 0%nat;
  ok_transport : y_transport row ∈ TRANSPORTS;
  ok_port : port_ok (y_listen_port row);
  ok_integration : y_integrations d !! y_integration_id row = Some integ;
  ok_push : platform_transport (n_platform integ) = Some "push";
  ok_owner : n_organization_id integ = y_organization_id row;
  ok_config : row_config row config;
  ok_compiles : exists c, compile_classifier (config_value config) (Some (y_default_stream row)) = Ok c;
  ok_default : y_default_stream row <> "";
  ok_streams : Forall (fun s => has_stream (n_platform integ) s = true) (y_default_stream row :: map snd config);
}.
Definition usable (d : source_db) (row : source_row) : Prop := exists integ config, row_ok d row integ config.

(** The rows are usable and their ids distinct. *)
Definition sources_wf (d : source_db) : Prop :=
  Forall (usable d) (y_rows d) /\ NoDup (y_id <$> y_rows d) /\ Forall (fun i => i < y_next_id d) (y_id <$> y_rows d).

(** ** The checks *)

Lemma sized_ok low high s : sized low high s = Ok tt <-> (low <= String.length s <= high)%nat.
Proof. unfold sized. rewrite raise_if_ok, negb_false_iff, andb_true_iff, !Nat.leb_le. lia. Qed.

Lemma in_bounds_ok low high n : in_bounds low high n = Ok tt <-> low <= n <= high.
Proof. unfold in_bounds. rewrite raise_if_ok, negb_false_iff, andb_true_iff. lia. Qed.

Lemma sized_pair r : (sized 1 2000 r.1;; sized 1 63 r.2) = Ok tt <-> sized 1 2000 r.1 = Ok tt /\ sized 1 63 r.2 = Ok tt.
Proof. rewrite result_bind_ok. split; [intros ([] & ? & ?) | intros [? ?]; exists tt]; done. Qed.

Lemma config_rules_read c : forallb (fun r => is_ok (sized 1 2000 r.1;; sized 1 63 r.2)) c = true ->
  result_map config_rule (map (fun r : string * string => PDict [("when", PStr r.1); ("stream", PStr r.2)]) c) = Ok c.
Proof.
  induction c as [|[w s] c IH]; [done|]. cbn [forallb map]. rewrite andb_true_iff. intros [Hr Hc].
  cbn [result_map]. cbn [fst snd] in *.
  change (config_rule (PDict [("when", PStr w); ("stream", PStr s)]))
    with (if is_ok (sized 1 2000 w;; sized 1 63 s) then Ok (w, s) else Raise EValue).
  rewrite Hr. cbn [mbind result_bind]. by rewrite (IH Hc).
Qed.

(** What [model_dump] writes, [ClassifierConfig( **...)] reads. *)
Lemma config_round c : classifier_schema c = Ok tt -> config_of (config_value c) = Ok c.
Proof.
  unfold classifier_schema. intros ([] & Hl%raise_if_ok & Hr%raise_if_ok)%result_bind_ok. apply negb_false_iff in Hr.
  unfold config_of, config_value. cbn [dict_get String.eqb Ascii.eqb Bool.eqb]. rewrite length_map, Hl.
  cbn [raise_if mbind result_bind]. by apply config_rules_read.
Qed.

Lemma stored_config_read row config : row_config row config ->
  exists c, stored_config row = Ok c /\ default [] c = config /\ when_set classifier_schema c = Ok tt.
Proof.
  unfold row_config, stored_config. destruct (y_classifier_json row) as [text|].
  - intros (Hne & Hc & Hs & Hl). destruct text as [|a text]; [done|]. rewrite Hl. cbn [mbind result_bind].
    rewrite (config_round _ Hs). by exists (Some config).
  - intros ->. by exists None.
Qed.

Lemma validate_cidr_ok raw cidr : validate_cidr raw = Ok cidr ->
  exists net, ip_network cidr = Some net /\ prefixlen net <> 0%nat.
Proof.
  unfold validate_cidr. destruct (ip_network (str_strip raw)) as [net|] eqn:En; [|done].
  intros ([] & Hp%raise_if_ok & [= <-])%result_bind_ok. exists net. split; [by eapply network_text_read|]. by apply Nat.eqb_neq.
Qed.

Lemma validate_transport_ok t v : validate_transport t = Ok v -> v ∈ TRANSPORTS.
Proof.
  unfold validate_transport. intros ([] & Ht%raise_if_ok & [= <-])%result_bind_ok.
  by apply negb_false_iff, bool_decide_eq_true in Ht.
Qed.

Lemma validate_streams_ok platform s c : validate_streams platform s c = Ok tt ->
  Forall (fun s => has_stream platform s = true) (s :: map snd (default [] c)).
Proof.
  unfold validate_streams. intros Hv%raise_if_ok. apply negb_false_iff in Hv. rewrite forallb_forall in Hv.
  apply Forall_forall. intros x Hx. by apply Hv, list_elem_of_In.
Qed.

Lemma config_arg_compiles c s : compile_classifier (config_arg c) s = compile_classifier (config_value (default [] c)) s.
Proof. by destruct c. Qed.

Lemma validate_classifier_ok c s json : validate_classifier c s = Ok json -> when_set classifier_schema c = Ok tt ->
  (exists k, compile_classifier (config_value (default [] c)) (Some s) = Ok k) /\
  match json with
  | None => default [] c = []
  | Some text => text <> "" /\ default [] c <> [] /\ classifier_schema (default [] c) = Ok tt /\ json_loads text = Ok (config_value (default [] c))
  end.
Proof.
  unfold validate_classifier, invalid_classifier. rewrite config_arg_compiles. intros (k & Hk & Hj)%result_bind_ok Hs. split.
  - exists k. destruct (compile_classifier _ _) as [k'|e]; cbn in Hk; [done|]. by destruct (bool_decide _) in Hk.
  - destruct c as [[|r c]|]; cbn in Hj |- *; injection Hj as <-; try done.
    split_and!; [by apply config_text | done | done | apply config_read].
Qed.

Lemma load_push_ok i p d integ : load_push_integration i p d = Ok integ ->
  y_integrations d !! i = Some integ /\ platform_transport (n_platform integ) = Some "push" /\
  require_subtree_access (p_user p) (n_organization_id integ) = Ok tt.
Proof.
  unfold load_push_integration. destruct (y_integrations d !! i) as [n|]; [|done].
  intros ([] & Ha & Hi)%result_bind_ok. apply result_bind_ok in Hi as ([] & Hp%raise_if_ok & [= <-]).
  apply negb_false_iff, bool_decide_eq_true in Hp. done.
Qed.

(** ** The handlers *)

Lemma create_source_inv p c d d' : create_source p c d = Ok d' ->
  exists row, d' = SourceDb (y_rows d ++ [row]) (y_integrations d) (y_next_id d + 1) /\ y_id row = y_next_id d /\
    require_subtree_access (p_user p) (y_organization_id row) = Ok tt /\ usable d row.
Proof.
  unfold create_source. intros ([] & _ & Hc)%result_bind_ok. apply result_bind_ok in Hc as ([] & Hs & Hc).
  apply result_bind_ok in Hc as (integ & (Hi & Hp & Ha)%load_push_ok & Hc).
  apply result_bind_ok in Hc as (cidr & Hn%validate_cidr_ok & Hc).
  apply result_bind_ok in Hc as (transport & Ht%validate_transport_ok & Hc).
  apply result_bind_ok in Hc as ([] & Hv%validate_streams_ok & Hc). apply result_bind_ok in Hc as (json & Hj & [= <-]).
  unfold source_create_schema in Hs. apply result_bind_ok in Hs as ([] & _ & Hs). apply result_bind_ok in Hs as ([] & _ & Hs).
  apply result_bind_ok in Hs as ([] & Hport & Hs). apply result_bind_ok in Hs as ([] & Hd%sized_ok & Hs).
  destruct (validate_classifier_ok _ _ _ Hj Hs) as [Hk Hcfg].
  eexists. split; [done|]. split; [done|]. split; [done|]. exists integ, (default [] (yc_classifier c)).
  split; cbn; try done.
  - destruct (yc_listen_port c); [by apply in_bounds_ok | done].
  - intros Hz. rewrite Hz in Hd. cbn in Hd. lia.
Qed.

Lemma updated_port (c : source_update) (row : source_row) : when_set (when_set (in_bounds 0 65535)) (yu_listen_port c) = Ok tt ->
  port_ok (y_listen_port row) ->
  port_ok (match yu_listen_port c with Some (Some n) => if n =? 0 then None else Some n | Some None => None | None => y_listen_port row end).
Proof.
  destruct (yu_listen_port c) as [[n|]|]; cbn; try done. intros Hn%in_bounds_ok _. destruct (n =? 0) eqn:E; cbn; lia.
Qed.

Lemma updated_row_ok c d row row' integ config : source_update_schema c = Ok tt -> row_ok d row integ config ->
  updated_row c integ row = Ok row' ->
  y_id row' = y_id row /\ y_organization_id row' = y_organization_id row /\ exists config', row_ok d row' integ config'.
Proof.
  unfold source_update_schema. intros ([] & _ & Hs)%result_bind_ok. apply result_bind_ok in Hs as ([] & _ & Hs).
  apply result_bind_ok in Hs as ([] & Hport & Hs). apply result_bind_ok in Hs as ([] & Hd & Hs).
  intros [Hnet Htr Hp Hint Hpush Hown Hcfg Hcomp Hne Hstr]. unfold updated_row.
  intros (cidr & Hcidr & Hu)%result_bind_ok. apply result_bind_ok in Hu as (transport & Htransport & Hu).
  apply result_bind_ok in Hu as (found & Hfound & Hu). apply result_bind_ok in Hu as ([json ds] & Hj & [= <-]).
  split; [done|]. split; [done|].
  assert (when_set classifier_schema found = Ok tt) as Hschema.
  { destruct (yu_classifier c) as [k|]; [by injection Hfound as <-|].
    destruct (stored_config_read _ _ Hcfg) as (k & Hk & _ & ?). congruence. }
  assert (exists net, ip_network cidr = Some net /\ prefixlen net <> 0%nat) as Hnet'.
  { destruct (yu_source_cidr c); [by eapply validate_cidr_ok | by injection Hcidr as <-]. }
  assert (transport ∈ TRANSPORTS) as Htr'.
  { destruct (yu_transport c); [by eapply validate_transport_ok | by injection Htransport as <-]. }
  destruct (bool_decide _ || bool_decide _) eqn:Hrecheck.
  - apply result_bind_ok in Hj as ([] & Hv%validate_streams_ok & Hj). apply result_bind_ok in Hj as (json' & Hj & [= -> <-]).
    destruct (validate_classifier_ok _ _ _ Hj Hschema) as [Hk Hcfg'].
    exists (default [] found). split; cbn; try done.
    + by apply updated_port.
    + destruct (yu_default_stream c) as [[s|]|]; try done. by destruct (String.eqb_spec s "").
  - injection Hj as <- <-. exists config. split; cbn; try done. by apply updated_port.
Qed.

(** ** Sequences of requests *)

Inductive source_op := OCreate (c : source_create) | OUpdate (i : Z) (c : source_update) | ODelete (i : Z).

(** A refused request changes nothing. *)
Definition source_step (d : source_db) (s : principal * source_op) : source_db :=
  default d (result_to_option (match s.2 with
    | OCreate c => create_source s.1 c d
    | OUpdate i c => update_source s.1 i c d
    | ODelete i => delete_source s.1 i d
    end)).
Definition source_run (d : source_db) (ops : list (principal * source_op)) : source_db := fold_left source_step ops d.

Lemma first_source i (d : source_db) row : first (fun r => y_id r =? i) (y_rows d) = Some row -> row ∈ y_rows d.
Proof. intros [Hin _]%List.find_some. by apply list_elem_of_In. Qed.

Lemma get_visible_ok i p d row : get_visible i p d = Ok row ->
  row ∈ y_rows d /\ require_subtree_access (p_user p) (y_organization_id row) = Ok tt.
Proof.
  unfold get_visible. destruct (first _ (y_rows d)) as [r|] eqn:Ef; [|done].
  intros ([] & Ha & [= <-])%result_bind_ok. by apply first_source in Ef.
Qed.

Lemma update_source_inv p i c d d' : sources_wf d -> update_source p i c d = Ok d' ->
  exists row row', d' = set_rows (update_where (fun r => y_id r =? y_id row) (fun _ => row')) d /\ row ∈ y_rows d /\
    require_subtree_access (p_user p) (y_organization_id row) = Ok tt /\ y_id row' = y_id row /\
    y_organization_id row' = y_organization_id row /\ usable d row'.
Proof.
  intros (Hall & _) Hu. apply result_bind_ok in Hu as ([] & _ & Hu). apply result_bind_ok in Hu as ([] & Hs & Hu).
  apply result_bind_ok in Hu as (row & (Hin & Ha)%get_visible_ok & Hu).
  rewrite Forall_forall in Hall. destruct (Hall _ Hin) as (integ & config & Hok).
  rewrite (ok_integration _ _ _ _ Hok) in Hu. apply result_bind_ok in Hu as (row' & Hrow & [= <-]).
  destruct (updated_row_ok _ _ _ _ _ _ Hs Hok Hrow) as (? & ? & config' & ?).
  exists row, row'. split_and!; try done. by exists integ, config'.
Qed.

Lemma delete_source_inv p i d d' : delete_source p i d = Ok d' ->
  exists row, d' = set_rows (delete_where (fun r => y_id r =? y_id row)) d /\ row ∈ y_rows d /\
    require_subtree_access (p_user p) (y_organization_id row) = Ok tt.
Proof.
  intros Hd. apply result_bind_ok in Hd as ([] & _ & Hd). apply result_bind_ok in Hd as (row & (Hin & Ha)%get_visible_ok & [= <-]).
  by exists row.
Qed.

Lemma usable_same d d' row : y_integrations d' = y_integrations d -> usable d row -> usable d' row.
Proof. intros He (integ & config & []). exists integ, config. split; try done. by rewrite He. Qed.

Lemma update_where_ids (d : source_db) row row' : y_id row' = y_id row ->
  y_id <$> update_where (fun r => y_id r =? y_id row) (fun _ => row') (y_rows d) = y_id <$> y_rows d.
Proof.
  intros Hid. unfold update_where. rewrite <- list_fmap_compose. apply list_fmap_ext. intros _ r _. cbn.
  destruct (Z.eqb_spec (y_id r) (y_id row)); congruence.
Qed.

Lemma source_step_wf d s : sources_wf d -> sources_wf (source_step d s).
Proof.
  intros Hwf. unfold source_step. destruct s as [p [c|i c|i]]; cbn [snd fst].
  - destruct (create_source p c d) as [d'|] eqn:E; [|done]. cbn. destruct Hwf as (Hall & Hnd & Hlt).
    destruct (create_source_inv _ _ _ _ E) as (row & -> & Hid & _ & Hok). unfold sources_wf. cbn.
    rewrite fmap_app. cbn. split_and!.
    + apply Forall_app. split; [|constructor; [by apply (usable_same d) | done]].
      eapply Forall_impl; [exact Hall|]. intros r. by apply (usable_same d).
    + apply NoDup_app. split; [done|]. split; [|apply NoDup_singleton]. intros x Hx ->%list_elem_of_singleton.
      rewrite Forall_forall in Hlt. apply Hlt in Hx. rewrite Hid in Hx. lia.
    + apply Forall_app. split; [eapply Forall_impl; [exact Hlt | cbn; lia]|]. constructor; [lia | done].
  - destruct (update_source p i c d) as [d'|] eqn:E; [|done]. cbn.
    destruct (update_source_inv _ _ _ _ _ Hwf E) as (row & row' & -> & Hin & _ & Hid & _ & Hok). destruct Hwf as (Hall & Hnd & Hlt).
    unfold sources_wf. cbn. rewrite update_where_ids by done. split_and!; try done.
    unfold update_where. apply Forall_fmap. eapply Forall_impl; [exact Hall|]. intros r Hr. cbn.
    destruct (y_id r =? y_id row); by apply (usable_same d).
  - destruct (delete_source p i d) as [d'|] eqn:E; [|done]. cbn. destruct Hwf as (Hall & Hnd & Hlt).
    destruct (delete_source_inv _ _ _ _ E) as (row & -> & _). unfold sources_wf, delete_where. cbn. split_and!.
    + apply Forall_forall. intros r [_ Hr]%list_elem_of_filter. rewrite Forall_forall in Hall. apply (usable_same d); [done | by apply Hall].
    + by apply NoDup_fmap_filter.
    + apply Forall_fmap, Forall_forall. intros r [_ Hr]%list_elem_of_filter. rewrite Forall_fmap, Forall_forall in Hlt. by apply Hlt.
Qed.

Lemma source_run_wf ops d : sources_wf d -> sources_wf (source_run d ops).
Proof. revert d. induction ops as [|s ops IH]; intros d Hwf; [done|]. cbn. by apply IH, source_step_wf. Qed.

Lemma step_confined d s o : sources_wf d -> can_access_subtree (p_user s.1) o = false ->
  filter (fun r => y_organization_id r = o) (y_rows (source_step d s)) = filter (fun r => y_organization_id r = o) (y_rows d).
Proof.
  intros Hwf Ho. unfold source_step.
  assert (forall o', require_subtree_access (p_user s.1) o' = Ok tt -> o' <> o) as Hne.
  { intros o' Ha ->. unfold require_subtree_access in Ha. by rewrite Ho in Ha. }
  destruct s as [p [c|i c|i]]; cbn [snd fst] in *.
  - destruct (create_source p c d) as [d'|] eqn:E; [|done]. cbn.
    destruct (create_source_inv _ _ _ _ E) as (row & -> & _ & Ha%Hne & _). cbn.
    rewrite filter_app, filter_cons, decide_False, filter_nil by done. by rewrite app_nil_r.
  - destruct (update_source p i c d) as [d'|] eqn:E; [|done]. cbn.
    destruct (update_source_inv _ _ _ _ _ Hwf E) as (row & row' & -> & Hin & Ha%Hne & _ & Horg & _).
    cbn. destruct Hwf as (_ & Hnd & _). apply filter_update. intros r Hr. cbn.
    destruct (Z.eqb_spec (y_id r) (y_id row)) as [He|He]; [|done].
    rewrite (NoDup_fmap_inj_on y_id _ _ _ Hnd Hr Hin He). rewrite Horg. tauto.
  - destruct (delete_source p i d) as [d'|] eqn:E; [|done]. cbn.
    destruct (delete_source_inv _ _ _ _ E) as (row & -> & Hin & Ha%Hne). cbn. destruct Hwf as (_ & Hnd & _).
    apply filter_delete. intros r Hr Horg. apply Z.eqb_neq. intros He.
    rewrite (NoDup_fmap_inj_on y_id _ _ _ Hnd Hr Hin He) in Horg. done.
Qed.

Lemma source_run_confined ops d o : sources_wf d -> Forall (fun s => can_access_subtree (p_user s.1) o = false) ops ->
  filter (fun r => y_organization_id r = o) (y_rows (source_run d ops)) = filter (fun r => y_organization_id r = o) (y_rows d).
Proof.
  revert d. induction ops as [|s ops IH]; intros d Hwf Ho; [done|]. apply Forall_cons in Ho as [Hs Ho].
  change (source_run d (s :: ops)) with (source_run (source_step d s) ops).
  rewrite (IH (source_step d s)); [apply (step_confined d s o Hwf Hs) | by apply source_step_wf | done].
Qed.

(** C18 [sources_stay_usable] Whatever is created, updated and deleted through the
    API, by anyone, every row stays one that the receiver can use: its network parses
    and is not the whole internet, its transport and port are valid, its
    integration is a push one of the same organization, its classifier compiles,
    and every stream it can name is registered; and the rows of an organization
    that none of the actors reaches do not change. *)
Theorem sources_stay_usable ops d : sources_wf d ->
  sources_wf (source_run d ops) /\
  forall o, Forall (fun s => can_access_subtree (p_user s.1) o = false) ops ->
    filter (fun r => y_organization_id r = o) (y_rows (source_run d ops)) = filter (fun r => y_organization_id r = o) (y_rows d).
Proof. intros Hwf. split; [by apply source_run_wf|]. intros o. by apply source_run_confined. Qed.
End valid.

(** ** An installation *)

(** A text for a configuration: its code, in binary. *)
Fixpoint pos_text (p : positive) : string :=
  match p with xH => "" | xO p => String "0" (pos_text p) | xI p => String "1" (pos_text p) end.
Fixpoint text_pos (s : string) : positive :=
  match s with EmptyString => xH | String a s' => if Ascii.eqb a "0" then xO (text_pos s') else xI (text_pos s') end.
Definition value_config (v : pyval) : classifier_config :=
  match v with
  | PDict [(_, PList l)] => omap (fun x => match x with PDict [(_, PStr w); (_, PStr s)] => Some (w, s) | _ => None end) l
  | _ => []
  end.

#[local] Existing Instances demo_jmes demo_float_repr.
#[local] Instance demo_addresses : IpAddress := {|
  ip_network s := if String.eqb s "10.0.0.0/24" then Some (Network V4 167772160 24)
                  else if String.eqb s "10.0.0.7/32" then Some (Network V4 167772167 32) else None;
  ip_address s := if String.eqb s "10.0.0.7" then Some (167772167, V4) else if String.eqb s "10.0.0.8" then Some (167772168, V4) else None;
|}.
#[local] Instance demo_network_text : NetworkText := fun n => if (prefixlen n =? 24)%nat then "10.0.0.0/24" else "10.0.0.7/32".
#[local] Instance demo_config_dumps : ConfigDumps := fun v => String "x" (pos_text (encode (value_config v))).
#[local] Instance demo_config_loads : JsonLoads := fun s =>
  match s with
  | String _ s' => match decode (text_pos s') with Some c => Ok (config_value c) | None => Raise EJsonDecode end
  | EmptyString => Raise EJsonDecode
  end.
#[local] Instance demo_source_registry : Registry := {|
  platform_transport p := if String.eqb p "fortigate" then Some "push" else None;
  has_stream p s := String.eqb p "fortigate" && (String.eqb s "traffic" || String.eqb s "auth");
|}.
#[local] Instance demo_scope : ScopeResolver := None.

#[local] Instance demo_source_laws : SourceLaws.
Proof.
  split.
  - intros s net. cbn. destruct (String.eqb s "10.0.0.0/24"); [by intros [= <-]|]. destruct (String.eqb s "10.0.0.7/32"); by intros [= <-].
  - intros c. unfold json_loads, demo_config_loads, config_dumps, demo_config_dumps.
    assert (forall p, text_pos (pos_text p) = p) as -> by (intros p; induction p as [p IH|p IH|]; cbn; by rewrite ?IH).
    assert (value_config (config_value c) = c) as ->; [|by rewrite decode_encode].
    unfold value_config, config_value. induction c as [|[w s] c IH]; [done|]. cbn in *. by rewrite IH.
  - done.
  - intros p s. cbn. intros [_ [->%String.eqb_eq | ->%String.eqb_eq]%orb_true_iff]%andb_true_iff; done.
Qed.

Definition demo_admin (i org : Z) : principal :=
  Principal (AppUser i "uuid" "admin" None None "local" None None (Some org) "admin" false true) None None.
Definition demo_installation : source_db :=
  SourceDb [] {[ 1 := SourceIntegration 10 "fortigate" true; 2 := SourceIntegration 20 "fortigate" true ]} 1.
Definition demo_network_source : source_create :=
  SourceCreate 1 "lan" "10.0.0.0/24" None "any" "traffic" (Some [("app", "auth")]) true.
Definition demo_host_source : source_create := SourceCreate 2 "fw" "10.0.0.7/32" None "any" "traffic" None true.
Definition demo_requests : list (principal * source_op) :=
  [(demo_admin 1 10, OCreate demo_network_source); (demo_admin 2 20, OCreate demo_host_source);
   (demo_admin 2 20, OUpdate 1 (SourceUpdate (Some "taken") None None None None None None)); (demo_admin 2 20, ODelete 1)].

Lemma demo_installation_wf : sources_wf demo_installation.
Proof. split_and!; cbn; constructor. Qed.

Example demo_rows : (fun r => (y_id r, y_organization_id r, y_name r)) <$> y_rows (source_run demo_installation demo_requests) =
  [(1, 10, "lan"); (2, 20, "fw")].
Proof. by vm_compute. Qed.

Lemma sources_stay_usable_witness :
  length (y_rows (source_run demo_installation demo_requests)) = 2%nat /\
  sources_wf (source_run demo_installation demo_requests) /\
  filter (fun r => y_organization_id r = 30) (y_rows (source_run demo_installation demo_requests)) = [].
Proof.
  split; [by vm_compute|]. destruct (sources_stay_usable demo_requests demo_installation demo_installation_wf) as [Hwf Ho].
  split; [done|]. apply Ho. repeat constructor.
Defined.
