(* ===== verification/SyslogServer.v ===== *)
(** * The syslog receiver

    [syslog/server.py]: the table of sources, the receiver that parses, classifies
    and queues what arrives, the framing of TCP, and the flush of the queues into
    the buffers of [Ingest].  Bytes are 8-bit characters.  A flush gives way to
    other coroutines at each push, so [step] is a relation: lines, the start of a
    flush, its pushes and a reload of the sources come in any order.  Metrics and
    the log of unknown peers are left out. *)

From S2P Require Import Prelude PyVal Text Predicates Operators Dedupe Store Redaction Radix Tenancy Accounts Boundary Secrets Ingest Syslog Classify Sources.

Local Open Scope string_scope.
Local Open Scope list_scope.
Local Open Scope Z_scope.

Abbreviation event := (list (string * pyval)).

(** ** Sources *)

Section table.
Context `{IpAddress} `{JsonLoads} `{JmesPath} `{FloatRepr}.

Record source_match := SourceMatch {
  m_source_id : Z;
  m_integration_id : Z;
  m_organization_id : Z;
  m_platform : string;
  m_classifier : classifier;
  m_name : string;
}.
Record source_entry := SourceEntry {
  e_network : network;
  e_listen_port : option Z;
  e_transport : string;
  e_match : source_match;
}.

(** [a]'s sort key is below [b]'s: a longer prefix, then a port, then a transport. *)
Definition entry_key (e : source_entry) : Z * Z * Z :=
  (- Z.of_nat (prefixlen (e_network e)), Z.b2z (bool_decide (e_listen_port e = None)), Z.b2z (String.eqb (e_transport e) "any")).
Definition key_lt (a b : Z * Z * Z) : bool :=
  let '(a1, a2, a3) := a in let '(b1, b2, b3) := b in
  (a1 <? b1) || ((a1 =? b1) && ((a2 <? b2) || ((a2 =? b2) && (a3 <? b3)))).

(** A stable sort. *)
Fixpoint insert_entry (e : source_entry) (l : list source_entry) : list source_entry :=
  match l with
  | [] => [e]
  | x :: l' => if key_lt (entry_key e) (entry_key x) then e :: l else x :: insert_entry e l'
  end.
Definition source_table (entries : list source_entry) : list source_entry := foldl (fun l e => insert_entry e l) [] entries.

Definition entry_serves (ip : Z) (version : ip_version) (port : Z) (transport : string) (e : source_entry) : bool :=
  contains (e_network e) ip version
  && match e_listen_port e with Some p => p =? port | None => true end
  && (String.eqb (e_transport e) "any" || String.eqb (e_transport e) transport).

Definition resolve (table : list source_entry) (peer_ip : string) (port : Z) (transport : string) : option source_match :=
  match ip_address peer_ip with
  | None => None
  | Some (ip, version) => e_match <$> List.find (entry_serves ip version port transport) table
  end.

(** One row of the query; one that fails is skipped. *)
Definition load_entry (integrations : gmap Z source_integration) (row : source_row) : option source_entry :=
  match integrations !! y_integration_id row with
  | None => None
  | Some integ =>
      if y_enabled row && n_active integ then
        net ← ip_network (y_source_cidr row);
        cfg ← match y_classifier_json row with
              | None | Some EmptyString => Some (PDict [])
              | Some text => result_to_option (json_loads text)
              end;
        clf ← result_to_option (compile_classifier cfg (Some (y_default_stream row)));
        Some (SourceEntry net (y_listen_port row) (if String.eqb (y_transport row) "" then "any" else y_transport row)
               (SourceMatch (y_id row) (y_integration_id row) (n_organization_id integ) (n_platform integ) clf (y_name row)))
      else None
  end.
Definition load_source_table (d : source_db) : list source_entry :=
  source_table (omap (load_entry (y_integrations d)) (y_rows d)).
End table.

(** ** The event of a line *)

Definition text_or_null (s : option string) : pyval := match s with Some s => PStr s | None => PNone end.
Definition text_dict (d : list (string * string)) : pyval := PDict (map (fun kv : string * string => (kv.1, PStr kv.2)) d).

(** The dict that [parse_syslog_line] returns, in its order. *)
Definition parsed_event (p : parsed) : event :=
  let prio {A} (f : priority -> A) (g : A -> pyval) := match o_prio p with Some q => g (f q) | None => PNone end in
  [("format", PStr (match o_format p with Rfc5424 => "rfc5424" | Rfc3164 => "rfc3164" | Unknown => "unknown" end));
   ("raw", PStr (o_raw p)); ("version", PInt (o_version p)); ("timestamp", text_or_null (o_timestamp p));
   ("ts_inferred", PBool (o_inferred p)); ("host", text_or_null (o_host p)); ("app", text_or_null (o_app p));
   ("procid", text_or_null (o_procid p)); ("msgid", text_or_null (o_msgid p));
   ("sd", PDict (map (fun kv : string * sd_params => (kv.1, text_dict kv.2)) (o_sd p))); ("msg", PStr (o_msg p));
   ("pri", prio pri PInt); ("facility", prio facility PInt); ("facility_name", prio facility_name PStr);
   ("severity", prio severity PInt); ("severity_name", prio severity_name PStr)]
  ++ match o_cef p, o_leef p with
     | Some c, _ =>
         [("cef", PDict [("version", PStr (cef_version c)); ("vendor", PStr (cef_vendor c)); ("product", PStr (cef_product c));
            ("product_version", PStr (cef_pversion c)); ("signature_id", PStr (cef_sig c)); ("name", PStr (cef_name c));
            ("severity", PStr (cef_severity c)); ("ext", text_dict (cef_ext c))])]
     | None, Some l =>
         [("leef", PDict [("version", PStr (leef_version l)); ("vendor", PStr (leef_vendor l)); ("product", PStr (leef_product l));
            ("product_version", PStr (leef_pversion l)); ("event_id", PStr (leef_event l)); ("ext", text_dict (leef_ext l))])]
     | None, None => []
     end.

Definition stamp_event `{Sha256} `{JsonDumps} (received_at stream transport peer : string) (e : event) : event :=
  dict_set "_ingest" (PDict [("id", PStr (sha256_hex (json_dumps e))); ("received_at", PStr received_at); ("stream", PStr stream);
                             ("transport", PStr transport); ("peer", PStr peer)]) e.

(** The dry run of [routers/syslog_sources.py], on a text. *)
Definition classify_test `{JsonLoads} `{JmesPath} `{FloatRepr} `{FromIso} `{IsoMillis} (now_year now : Z) (p : principal) (line : string)
    (c : option classifier_config) (default_stream : option string) : result (event * (option string * bool * list traced)) :=
  require_permission USER_MANAGE p;;
  sized 1 65536 line;; when_set classifier_schema c;;
  clf ← invalid_classifier (compile_classifier (config_arg c) default_stream);
  match parse_syslog_line now_year now line with
  | Some (Ok out) => Ok (parsed_event out, explain clf (PDict (parsed_event out)))
  | Some (Raise e) => Raise e
  | None => Raise EOther
  end.

(** ** The receiver *)

Abbreviation queue_key := (Z * string * string)%type.
Abbreviation queues := (list (queue_key * list event)%type).

(** [self._queues.setdefault(key, []).extend(events)]. *)
Fixpoint queue_extend (key : queue_key) (events : list event) (qs : queues) : queues :=
  match qs with
  | [] => [(key, events)]
  | (k, q) :: qs' => if bool_decide (k = key) then (k, q ++ events) :: qs' else (k, q) :: queue_extend key events qs'
  end.

Inductive outcome := Accepted | UnknownSource | Unclassified.

Record receiver `{JmesPath} := Receiver {
  r_sources : list source_entry;
  r_queues : queues;
  r_stats : list (string * Z);
}.
Arguments Receiver {_}.
Arguments r_sources {_}.
Arguments r_queues {_}.
Arguments r_stats {_}.

(** What a line reads from the clocks: the year and the instant for the parser,
    the text of the stamp. *)
Record instant := Instant { i_year : Z; i_now : Z; i_text : string }.

(** [bytes.strip] strips ASCII blanks. *)
Definition byte_space (a : ascii) : bool := in_range 9 13 a || in_range 32 32 a.

Section receiver.
Context `{IpAddress} `{JsonLoads} `{JmesPath} `{FloatRepr} `{Registry} `{FromIso} `{IsoMillis} `{DecodeBody} `{Sha256} `{JsonDumps}.
Context (batch_max max_line : nat).

Definition bump (k : string) (r : receiver) : receiver :=
  Receiver (r_sources r) (r_queues r) (dict_set k (default 0 (dict_get k (r_stats r)) + 1) (r_stats r)).
Definition set_queues (qs : queues) (r : receiver) : receiver := Receiver (r_sources r) qs (r_stats r).

(** The outcome of a line that is not blank, after the truncation.  The parser
    always answers, so the [None] of its fuel is not met. *)
Definition receive (i : instant) (peer_ip : string) (port : Z) (transport raw : string) (r : receiver) : receiver * result (option outcome) :=
  match resolve (r_sources r) peer_ip port transport with
  | None => (bump "unknown_source" r, Ok (Some UnknownSource))
  | Some m =>
      match parse_syslog_line (i_year i) (i_now i) (decode_body raw) with
      | None => (r, Raise EOther)
      | Some (Raise e) => (r, Raise e)
      | Some (Ok p) =>
          let e := parsed_event p in
          match classify (m_classifier m) (PDict e) with
          | Some (String a s) =>
              let stream := String a s in
              if has_stream (m_platform m) stream then
                let e := stamp_event (i_text i) stream transport peer_ip e in
                (bump "accepted" (set_queues (queue_extend (m_integration_id m, stream, m_platform m) [e] (r_queues r)) r),
                 Ok (Some Accepted))
              else (bump "unclassified" r, Ok (Some Unclassified))
          | _ => (bump "unclassified" r, Ok (Some Unclassified))
          end
      end
  end.
Definition handle_line (i : instant) (peer_ip : string) (port : Z) (transport raw : string) (r : receiver) : receiver * result (option outcome) :=
  if String.eqb (strip_while byte_space raw) "" then (r, Ok None)
  else if (max_line <? String.length raw)%nat
       then receive i peer_ip port transport (str_take max_line raw) (bump "truncated" r)
       else receive i peer_ip port transport raw r.

(** The lines of a datagram; an exception loses the rest.  [clock n]: what the
    [n]-th line reads. *)
Fixpoint handle_lines (clock : nat -> instant) (peer_ip : string) (port : Z) (transport : string) (lines : list string) (r : receiver)
  : receiver * result unit :=
  match lines with
  | [] => (r, Ok tt)
  | l :: lines' =>
      match handle_line (clock 0%nat) peer_ip port transport l r with
      | (r, Ok _) => handle_lines (fun n => clock (S n)) peer_ip port transport lines' r
      | (r, Raise e) => (r, Raise e)
      end
  end.
Definition handle_datagram (clock : nat -> instant) (peer_ip : string) (port : Z) (data : string) (r : receiver) : receiver * result unit :=
  handle_lines clock peer_ip port "udp"
    (if has_char newline (strip_while byte_space data) then str_split newline data else [data]) r.

(** ** The framing of TCP: [_serve_stream] *)

(** What one round of the loop hands on: a line, or an overrun of the limit. *)
Inductive frame := Line (body : string) | Overrun.

(** [reader.readuntil]: the text to the first line end, if there is one, and what
    follows it. *)
Definition read_line (s : string) : string * bool * string :=
  match str_cut newline s with Some (l, rest) => (l, true, rest) | None => (s, false, EmptyString) end.

(** The frames of a connection that sends [s] and closes.  [readuntil] refuses a line
    over the limit; [read] then takes [max_line] bytes of it.  [None]: out of
    fuel. *)
Fixpoint frames (fuel : nat) (s : string) : option (list frame) :=
  match fuel with
  | 0%nat => None
  | S fuel' =>
      let '(l, ended, rest) := read_line s in
      if (max_line <? String.length l)%nat then cons Overrun <$> frames fuel' (str_drop max_line s)
      else
        let chunk := if ended then (l +:+ String newline EmptyString)%string else l in
        if String.eqb chunk "" then Some []
        else
          match strip_octet_count chunk with
          | (body, Some declared) =>
              let missing := (Z.to_nat declared - String.length body)%nat in
              cons (Line (body +:+ str_take missing rest)) <$> frames fuel' (str_drop missing rest)
          | (body, None) => if ended then cons (Line body) <$> frames fuel' rest else Some [Line body]
          end
  end.

(** The frames of a connection, handled in turn; an exception closes it.  A flush may
    run between two of them ([maybe_flush_soon]). *)
Fixpoint serve_frames (clock : nat -> instant) (peer_ip : string) (port : Z) (transport : string) (fs : list frame) (r : receiver)
  : receiver * result unit :=
  match fs with
  | [] => (r, Ok tt)
  | Overrun :: fs' => serve_frames clock peer_ip port transport fs' (bump "truncated" r)
  | Line body :: fs' =>
      match handle_line (clock 0%nat) peer_ip port transport body r with
      | (r, Ok _) => serve_frames (fun n => clock (S n)) peer_ip port transport fs' r
      | (r, Raise e) => (r, Raise e)
      end
  end.

(** ** The flush *)

Definition pending (qs : queues) : nat := sum_list (map (fun kq => length kq.2) qs).
Definition maybe_flush_soon (r : receiver) : bool := (batch_max <=? pending (r_queues r))%nat.

(** A push that failed: the events go back, and the oldest beyond the cap go. *)
Definition retain (key : queue_key) (events : list event) (r : receiver) : receiver * list event :=
  let qs := queue_extend key events (r_queues r) in
  let q := default [] (snd <$> List.find (fun kq : queue_key * list event => bool_decide (kq.1 = key)) qs) in
  if (batch_max * 20 <? length q)%nat then
    let dropped_mem := (length q - batch_max * 20)%nat in
    (bump "dropped_memory"
       (set_queues (map (fun kq : queue_key * list event => if bool_decide (kq.1 = key) then (kq.1, drop dropped_mem kq.2) else kq) qs) r),
     take dropped_mem q)
  else (set_queues qs r, []).

Context {S : Type} `{RedisLists S} `{EventJson}.

(** One round of the loop of [flush]: [None] when the push got through, or the
    events that were dropped from memory. *)
Definition push_queue (f : fate) (counted : bool) (key : queue_key) (events : list event) (r : receiver) (s : S)
  : receiver * S * option (list event) :=
  match push_events f counted key.1.1 key.1.2 events DEFAULT_MAX_LEN s with
  | (s, Ok _) => (r, s, None)
  | (s, Raise _) => let (r, lost) := retain key events r in (r, s, Some lost)
  end.

(** ** Coroutines

    [flights]: the queues each flush under way has still to push.  [accepted],
    [pushed] and [lost] record the events taken in, acknowledged by Redis and
    dropped from memory. *)
Record system := System {
  rcv : receiver;
  flights : list queues;
  store : S;
  accepted : list (queue_key * event);
  pushed : list (queue_key * event);
  lost : list (queue_key * event);
}.

(** The events of one queue, with its key. *)
Definition keyed (key : queue_key) (events : list event) : list (queue_key * event) := map (pair key) events.
Definition flat (qs : queues) : list (queue_key * event) := concat (map (fun kq => keyed kq.1 kq.2) qs).

(** The part of a line that is read. *)
Definition kept (raw : string) : string := if (max_line <? String.length raw)%nat then str_take max_line raw else raw.

(** The event that an accepted line stands for, with the queue it belongs to: of the
    source of the peer, parsed, classified and stamped. *)
Definition line_event (i : instant) (peer_ip : string) (port : Z) (transport raw : string) (r : receiver) : list (queue_key * event) :=
  match resolve (r_sources r) peer_ip port transport with
  | Some m =>
      match parse_syslog_line (i_year i) (i_now i) (decode_body (kept raw)) with
      | Some (Ok p) =>
          match classify (m_classifier m) (PDict (parsed_event p)) with
          | Some stream => [((m_integration_id m, stream, m_platform m), stamp_event (i_text i) stream transport peer_ip (parsed_event p))]
          | None => []
          end
      | _ => []
      end
  | None => []
  end.

(** The events of a push that Redis answered. *)
Definition acknowledged (f : fate) (counted : bool) (key : queue_key) (events : list event) (s : S) : list (queue_key * event) :=
  match (push_events f counted key.1.1 key.1.2 events DEFAULT_MAX_LEN s).2 with Ok _ => keyed key events | Raise _ => [] end.

(** A line is handled whole; whether it was accepted is the answer of
    [handle_line].  A push that fails leaves what [push_queue] did with its events. *)
Inductive step : system -> system -> Prop :=
| line_handled i peer port transport raw r r' res fs s acc psh lst :
    handle_line i peer port transport raw r = (r', res) ->
    step (System r fs s acc psh lst)
         (System r' fs s (acc ++ match res with Ok (Some Accepted) => line_event i peer port transport raw r | _ => [] end) psh lst)
| flush_begins r fs s acc psh lst : r_queues r <> [] ->
    step (System r fs s acc psh lst) (System (set_queues [] r) (fs ++ [r_queues r]) s acc psh lst)
| flush_pushes f counted before key events rest after r r' s s' gone acc psh lst :
    push_queue f counted key events r s = (r', s', gone) ->
    step (System r (before ++ ((key, events) :: rest) :: after) s acc psh lst)
         (System r' (before ++ rest :: after) s' acc (psh ++ acknowledged f counted key events s) (lst ++ keyed key (default [] gone)))
| sources_reloaded d r fs s acc psh lst :
    step (System r fs s acc psh lst) (System (Receiver (load_source_table d) (r_queues r) (r_stats r)) fs s acc psh lst)
| store_moves r fs s s' acc psh lst :
    step (System r fs s acc psh lst) (System r fs s' acc psh lst).

Definition initial (sources : list source_entry) (s : S) : system := System (Receiver sources [] []) [] s [] [] [].
End receiver.
Arguments system {_} S.
