(* ===== verification/SyslogServerProps.v ===== *)
(** * What the syslog receiver guarantees

    The most specific source answers for a peer ([most_specific_source]); what it
    accepts is pushed, dropped under the cap, or still in memory, whatever the
    coroutines do ([receiver_conserves]); a table managed through the API leaves
    nothing unclassified ([registered_streams_served]); and a counted frame is read
    back whole ([octet_frames_round_trip]). *)

From Stdlib Require Import Sorted DecimalString.
From S2P Require Import Prelude PyVal Text Predicates Operators Dedupe Store Redaction Radix Tenancy Accounts AccountsProps Boundary Secrets Ingest IngestProps Syslog.
From S2P Require Import SyslogRound SecretsProps Detection Classify Sources SourcesProps SyslogServer.

Local Open Scope string_scope.
Local Open Scope list_scope.
Local Open Scope Z_scope.

(** ** The table of sources *)

Section table.
Context `{IpAddress} `{JsonLoads} `{JmesPath} `{FloatRepr}.

(** [a] comes no later than [b]. *)
Definition no_later (a b : source_entry) : Prop := key_lt (entry_key b) (entry_key a) = false.

Lemma key_lt_asym a b : key_lt a b = true -> key_lt b a = false.
Proof. destruct a as [[a1 a2] a3], b as [[b1 b2] b3]. cbn. lia. Qed.

#[local] Instance no_later_trans : Transitive no_later.
Proof.
  intros a b c. unfold no_later. destruct (entry_key a) as [[a1 a2] a3], (entry_key b) as [[b1 b2] b3], (entry_key c) as [[c1 c2] c3].
  cbn. lia.
Qed.

Lemma insert_entry_perm e l : insert_entry e l ≡ₚ e :: l.
Proof. induction l as [|x l IH]; cbn [insert_entry]; [done|]. destruct (key_lt (entry_key e) (entry_key x)); [done|]. rewrite IH. constructor. Qed.

Lemma insert_entry_sorted e l : StronglySorted no_later l -> StronglySorted no_later (insert_entry e l).
Proof.
  induction 1 as [|x l Hl IH Hx]; cbn [insert_entry]; [by repeat constructor|]. destruct (key_lt (entry_key e) (entry_key x)) eqn:E.
  - apply key_lt_asym in E. constructor; [by constructor|]. constructor; [done|].
    eapply Forall_impl; [exact Hx|]. intros y Hy. by etrans.
  - constructor; [done|]. rewrite insert_entry_perm. by constructor.
Qed.

Lemma source_table_perm es : source_table es ≡ₚ es.
Proof.
  unfold source_table. rewrite <- (app_nil_r es) at 2. generalize (@nil source_entry) as l.
  induction es as [|e es IH]; intros l; [done|]. cbn [foldl]. rewrite IH, insert_entry_perm. symmetry. apply Permutation_middle.
Qed.

Lemma source_table_sorted es : StronglySorted no_later (source_table es).
Proof.
  unfold source_table. assert (StronglySorted no_later []) as Hl by constructor. revert Hl. generalize (@nil source_entry) as l.
  induction es as [|e es IH]; intros l Hl; [done|]. cbn [foldl]. by apply IH, insert_entry_sorted.
Qed.

Lemma find_sorted (p : source_entry -> bool) l e : StronglySorted no_later l -> List.find p l = Some e ->
  forall e', e' ∈ l -> p e' = true -> no_later e e'.
Proof.
  induction 1 as [|x l Hl IH Hx]; cbn [List.find]; [done|]. destruct (p x) eqn:Ep.
  - intros [= <-] e' [->|He']%elem_of_cons _; [unfold no_later; destruct (entry_key x) as [[??]?]; cbn; lia|].
    rewrite Forall_forall in Hx. by apply Hx.
  - intros Hf e' [->|He']%elem_of_cons Hp; [congruence|]. by apply IH.
Qed.

(** [most_specific_source]: among the sources that serve a peer, a port and a
    transport, the answer is one that no other precedes: no longer prefix, then none
    that names the port, then none that names the transport.  There is no answer
    only when none serves, or the address does not parse. *)
Theorem most_specific_source es peer port transport :
  match resolve (source_table es) peer port transport with
  | Some m =>
      exists ip version e, ip_address peer = Some (ip, version) /\ e ∈ es /\ e_match e = m /\
        entry_serves ip version port transport e = true /\
        forall e', e' ∈ es -> entry_serves ip version port transport e' = true -> key_lt (entry_key e') (entry_key e) = false
  | None => forall ip version e, ip_address peer = Some (ip, version) -> e ∈ es -> entry_serves ip version port transport e = false
  end.
Proof.
  unfold resolve. destruct (ip_address peer) as [[ip version]|] eqn:Ei; [|done].
  destruct (List.find _ (source_table es)) as [e|] eqn:Ef; cbn.
  - exists ip, version, e. apply List.find_some in Ef as Hin. destruct Hin as [Hin Hp]. apply list_elem_of_In in Hin.
    rewrite source_table_perm in Hin. split_and!; try done. intros e' He' Hp'.
    apply (find_sorted _ _ _ (source_table_sorted es) Ef); [by rewrite source_table_perm | done].
  - intros ip' version' e [= <- <-] He. apply (List.find_none _ _ Ef). apply list_elem_of_In. by rewrite source_table_perm.
Qed.
End table.

(** ** What is accepted stays accounted for *)

Section conservation.
Context `{IpAddress} `{JsonLoads} `{JmesPath} `{FloatRepr} `{Registry} `{FromIso} `{IsoMillis} `{DecodeBody} `{Sha256} `{JsonDumps}.
Context (batch_max max_line : nat).
Context {S : Type} `{RedisLists S} `{EventJson}.

Definition count_of (k : string) (r : receiver) : Z := default 0 (dict_get k (r_stats r)).

Lemma flat_extend key events qs : flat (queue_extend key events qs) ≡ₚ flat qs ++ keyed key events.
Proof.
  induction qs as [|[k q] qs IH]; cbn [queue_extend].
  - unfold flat. cbn. by rewrite app_nil_r.
  - destruct (bool_decide_reflect (k = key)) as [->|Hne]; unfold flat in *; cbn.
    + unfold keyed. rewrite map_app, <- !app_assoc. by rewrite (Permutation_app_comm (concat _)).
    + rewrite IH. by rewrite app_assoc.
Qed.

Lemma queue_extend_keys key events qs k : k ∈ (queue_extend key events qs).*1 <-> k = key \/ k ∈ qs.*1.
Proof.
  induction qs as [|[k' q] qs IH]; cbn [queue_extend].
  - cbn. rewrite list_elem_of_singleton, elem_of_nil. tauto.
  - destruct (bool_decide_reflect (k' = key)) as [->|Hne]; cbn; rewrite !elem_of_cons; [tauto|]. rewrite IH. tauto.
Qed.

Lemma queue_extend_nodup key events qs : NoDup qs.*1 -> NoDup (queue_extend key events qs).*1.
Proof.
  induction qs as [|[k q] qs IH]; cbn [queue_extend]; [intros _; apply NoDup_singleton|].
  destruct (bool_decide_reflect (k = key)) as [->|Hne]; [done|]. cbn. rewrite !NoDup_cons, queue_extend_keys. naive_solver.
Qed.

(** The cut of one queue. *)
Lemma flat_cut key n (qs : queues) q : NoDup qs.*1 ->
  snd <$> List.find (fun kq : queue_key * list event => bool_decide (kq.1 = key)) qs = Some q ->
  flat (map (fun kq : queue_key * list event => if bool_decide (kq.1 = key) then (kq.1, drop n kq.2) else kq) qs) ++ keyed key (take n q)
  ≡ₚ flat qs.
Proof.
  induction qs as [|[k q'] qs IH]; cbn [List.find map fst snd]; [done|]. intros [Hk Hnd]%NoDup_cons.
  destruct (bool_decide_reflect (k = key)) as [->|Hne].
  - intros [= ->]. unfold flat. cbn. 
    assert (map (fun kq : queue_key * list event => if bool_decide (kq.1 = key) then (kq.1, drop n kq.2) else kq) qs = qs) as ->.
    { transitivity (map id qs); [|apply map_id]. apply map_ext_in. intros [k' q'] Hin%list_elem_of_In. cbn.
      destruct (bool_decide_reflect (k' = key)) as [->|?]; [|done]. destruct Hk. apply list_elem_of_fmap. by exists (key, q'). }
    rewrite <- (take_drop n q) at 3. unfold keyed. rewrite map_app, <- !app_assoc.
    rewrite (Permutation_app_comm (concat _)). rewrite !app_assoc. apply Permutation_app_tail, Permutation_app_comm.
  - intros Hf. unfold flat in *. cbn. rewrite <- app_assoc. by rewrite (IH Hnd Hf).
Qed.

Lemma extend_found key events qs :
  is_Some (List.find (fun kq : queue_key * list event => bool_decide (kq.1 = key)) (queue_extend key events qs)).
Proof.
  induction qs as [|[k q] qs IH]; cbn [queue_extend].
  - cbn. rewrite bool_decide_true by done. by eexists.
  - destruct (bool_decide_reflect (k = key)) as [->|Hne]; cbn.
    + rewrite bool_decide_true by done. by eexists.
    + by rewrite bool_decide_false.
Qed.

Lemma retain_spec key events r r' gone : NoDup (r_queues r).*1 -> retain batch_max key events r = (r', gone) ->
  flat (r_queues r') ++ keyed key gone ≡ₚ flat (r_queues r) ++ keyed key events /\ NoDup (r_queues r').*1.
Proof.
  intros Hnd. unfold retain. apply (queue_extend_nodup key events) in Hnd as Hnd'.
  destruct (extend_found key events (r_queues r)) as [[k q] Hf]. rewrite Hf. cbn [fmap option_fmap option_map snd default from_option id].
  cbv zeta. destruct (batch_max * 20 <? length q)%nat; intros He; injection He as He1 He2; subst r' gone; cbn [bump set_queues r_queues].
  - split.
    + rewrite (flat_cut key (length q - batch_max * 20)); [apply flat_extend | done | by rewrite Hf].
    + rewrite map_map. erewrite map_ext; [exact Hnd'|]. intros [k' q']. cbn. by destruct (bool_decide _).
  - rewrite app_nil_r. split; [apply flat_extend | done].
Qed.

(** What a line leaves: the queues as they were, or with one event more. *)
Lemma receive_cases i peer port transport raw r r' res : receive i peer port transport raw r = (r', res) ->
  (res <> Ok (Some Accepted) /\ r_queues r' = r_queues r /\ count_of "accepted" r' = count_of "accepted" r) \/
  (res = Ok (Some Accepted) /\ count_of "accepted" r' = count_of "accepted" r + 1 /\
   exists m p s, resolve (r_sources r) peer port transport = Some m /\
     parse_syslog_line (i_year i) (i_now i) (decode_body raw) = Some (Ok p) /\
     classify (m_classifier m) (PDict (parsed_event p)) = Some s /\ s <> "" /\ has_stream (m_platform m) s = true /\
     r_queues r' = queue_extend (m_integration_id m, s, m_platform m)
                     [stamp_event (i_text i) s transport peer (parsed_event p)] (r_queues r)).
Proof.
  unfold receive, count_of. destruct (resolve (r_sources r) peer port transport) as [m|] eqn:Em.
  2: { intros [= <- <-]. left. split_and!; try done. cbn [bump r_stats]. by rewrite dict_get_set_ne by done. }
  destruct (parse_syslog_line _ _ _) as [[p|e]|] eqn:Ep; [|intros [= <- <-]; by left | intros [= <- <-]; by left].
  cbv zeta. destruct (classify (m_classifier m) (PDict (parsed_event p))) as [[|a s]|] eqn:Ec.
  1, 3: intros [= <- <-]; left; split_and!; try done; cbn [bump r_stats]; by rewrite dict_get_set_ne by done.
  destruct (has_stream (m_platform m) (String a s)) eqn:Eh; intros [= <- <-].
  - right. split; [done|]. split; [|by exists m, p, (String a s)]. cbn [bump set_queues r_stats]. by rewrite dict_get_set_eq.
  - left. split_and!; try done. cbn [bump r_stats]. by rewrite dict_get_set_ne by done.
Qed.

Lemma bump_other k k' r : k <> k' -> count_of k (bump k' r) = count_of k r.
Proof. intros Hne. unfold count_of. cbn [bump r_stats]. by rewrite dict_get_set_ne. Qed.

Lemma handle_line_cases i peer port transport raw r r' res : handle_line max_line i peer port transport raw r = (r', res) ->
  (res <> Ok (Some Accepted) /\ r_queues r' = r_queues r /\ count_of "accepted" r' = count_of "accepted" r) \/
  (res = Ok (Some Accepted) /\ count_of "accepted" r' = count_of "accepted" r + 1 /\
   exists m p s, resolve (r_sources r) peer port transport = Some m /\
     parse_syslog_line (i_year i) (i_now i) (decode_body (kept max_line raw)) = Some (Ok p) /\
     classify (m_classifier m) (PDict (parsed_event p)) = Some s /\ s <> "" /\ has_stream (m_platform m) s = true /\
     r_queues r' = queue_extend (m_integration_id m, s, m_platform m)
                     [stamp_event (i_text i) s transport peer (parsed_event p)] (r_queues r)).
Proof.
  unfold handle_line, kept. destruct (String.eqb _ ""); [intros [= <- <-]; by left|].
  destruct (max_line <? String.length raw)%nat; intros Hr%receive_cases; [|done].
  by rewrite !bump_other in Hr.
Qed.

Lemma handle_line_drops i peer port transport raw r r' res : handle_line max_line i peer port transport raw r = (r', res) ->
  count_of "dropped_memory" r' = count_of "dropped_memory" r.
Proof.
  assert (forall raw r r' res, receive i peer port transport raw r = (r', res) ->
    count_of "dropped_memory" r' = count_of "dropped_memory" r) as Hrec.
  { clear. intros raw r r' res. unfold receive. destruct (resolve _ _ _ _); [|intros [= <- _]; by rewrite bump_other].
    destruct (parse_syslog_line _ _ _) as [[p|e]|]; [|by intros [= <- _]..]. cbv zeta.
    destruct (classify _ _) as [[|a st]|]; [by intros [= <- _]; rewrite bump_other| |by intros [= <- _]; rewrite bump_other].
    destruct (has_stream _ _); intros [= <- _]; by rewrite bump_other. }
  unfold handle_line. destruct (String.eqb _ ""); [by intros [= <- _]|].
  destruct (_ <? _)%nat; intros Hr%Hrec; [|done]. by rewrite Hr, bump_other.
Qed.

(** ** Redis *)

Lemma retain_accepted key events r r' gone : retain batch_max key events r = (r', gone) ->
  count_of "accepted" r' = count_of "accepted" r.
Proof.
  unfold retain. cbv zeta. destruct (_ <? _)%nat; intros He; injection He as He1 He2; subst r' gone; [|done].
  by rewrite bump_other.
Qed.

(** A drop is counted once, however many events go. *)
Lemma retain_drops key events r r' gone : retain batch_max key events r = (r', gone) ->
  (gone = [] /\ count_of "dropped_memory" r' = count_of "dropped_memory" r) \/
  (gone <> [] /\ count_of "dropped_memory" r' = count_of "dropped_memory" r + 1).
Proof.
  unfold retain. cbv zeta. destruct (_ <? _)%nat eqn:Hlt; intros He; injection He as He1 He2; subst r' gone; [|by left].
  right. split; [|unfold count_of; cbn [bump r_stats set_queues]; by rewrite dict_get_set_eq].
  apply Nat.ltb_lt in Hlt. intros Hg%(f_equal length). rewrite length_take in Hg. cbn in Hg. lia.
Qed.

Lemma push_queue_cases f counted key events r r' s s' gone : push_queue batch_max f counted key events r s = (r', s', gone) ->
  (acknowledged f counted key events s = keyed key events /\ r' = r /\ gone = None) \/
  (acknowledged f counted key events s = [] /\ retain batch_max key events r = (r', default [] gone)).
Proof.
  unfold push_queue, acknowledged. destruct (push_events _ _ _ _ _ _ _) as [s1 [n|e]]; cbn [snd].
  - intros [= <- _ <-]. by left.
  - destruct (retain batch_max key events r) as [r1 g]. intros [= <- _ <-]. by right.
Qed.

(** A push that is acknowledged left its events in the buffer, after those it held,
    the oldest beyond the cap gone. *)
Lemma push_queue_done `{!RedisListsLaws S} f counted key events r r' s s' (rest : list event) : events <> [] ->
  l_items s (buffer_key key.1.1 key.1.2) = rev (event_dumps <$> rest) ->
  push_queue batch_max f counted key events r s = (r', s', None) ->
  r' = r /\ f = Answered /\
  l_items s' (buffer_key key.1.1 key.1.2) =
    rev (event_dumps <$> drop (length (rest ++ events) - Z.to_nat DEFAULT_MAX_LEN) (rest ++ events)).
Proof.
  intros Hne Hi. unfold push_queue.
  destruct (push_events f counted key.1.1 key.1.2 events DEFAULT_MAX_LEN s) as [s1 [n|e]] eqn:Ep.
  2: { by destruct (retain _ _ _ _). }
  assert (f = Answered) as ->. { destruct f; [done| |]; unfold push_events in Ep; destruct events; try done. by destruct (l_push _ _ _). }
  intros [= <- <-]. split; [done|]. split; [done|].
  destruct (push_effect Answered counted key.1.1 key.1.2 events DEFAULT_MAX_LEN s rest Hi ltac:(done) Hne ltac:(done)) as [He _].
  by rewrite Ep in He.
Qed.

(** ** The coroutines *)

(** Every accepted event is in one place. *)
Record accounted (y : system S) : Prop := Accounted {
  places : accepted y ≡ₚ pushed y ++ lost y ++ flat (r_queues (rcv y)) ++ concat (map flat (flights y));
  one_queue : NoDup (r_queues (rcv y)).*1;
  counter : count_of "accepted" (rcv y) = Z.of_nat (length (accepted y));
  drops : 0 <= count_of "dropped_memory" (rcv y) <= Z.of_nat (length (lost y)) /\ (count_of "dropped_memory" (rcv y) = 0 -> lost y = []);
}.

Lemma flat_flights before (q : queue_key * list event) rest after :
  concat (map flat (before ++ (q :: rest) :: after)) ≡ₚ keyed q.1 q.2 ++ concat (map flat (before ++ rest :: after)).
Proof.
  rewrite !map_app, !concat_app. cbn [map concat]. unfold flat at 2. cbn [map concat]. fold (flat rest).
  rewrite <- app_assoc. rewrite !app_assoc. do 2 apply Permutation_app_tail. apply Permutation_app_comm.
Qed.

Lemma perm_acknowledged {A} (p l q k r : list A) : p ++ l ++ q ++ k ++ r ≡ₚ (p ++ k) ++ l ++ q ++ r.
Proof. rewrite <- app_assoc. apply Permutation_app_head. rewrite !app_assoc. apply Permutation_app_tail. rewrite <- (app_assoc k). apply Permutation_app_comm. Qed.
Lemma perm_retained {A} (p l q k r q' g : list A) : q' ++ g ≡ₚ q ++ k -> p ++ l ++ q ++ k ++ r ≡ₚ p ++ (l ++ g) ++ q' ++ r.
Proof.
  intros He. apply Permutation_app_head. rewrite <- app_assoc. apply Permutation_app_head. rewrite !app_assoc.
  apply Permutation_app_tail. rewrite <- He. apply Permutation_app_comm.
Qed.

Lemma step_accounted y y' : step batch_max max_line y y' -> accounted y -> accounted y'.
Proof.
  intros Hstep [Hp Hn Hc Hd]. destruct Hstep as [i peer port transport raw r r' res fs s acc psh lst Hl|r fs s acc psh lst Hr
    |f counted before key events rest after r r' s s' gone acc psh lst Hf
    |d r fs s acc psh lst|r fs s s' acc psh lst]; cbn [accepted pushed lost rcv flights] in *.
  - destruct (handle_line_drops _ _ _ _ _ _ _ _ Hl).
    destruct (handle_line_cases _ _ _ _ _ _ _ _ Hl) as [(Hres & Hq & Ha)|(-> & Ha & m & p & st & Hm & Hpar & Hcl & _ & _ & Hq)].
    + assert ((match res with Ok (Some Accepted) => line_event max_line i peer port transport raw r | _ => [] end) = []) as ->
        by (destruct res as [[[]|]|]; done).
      rewrite app_nil_r. split; cbn [accepted pushed lost rcv flights]; by rewrite ?Hq, ?Ha.
    + assert (line_event max_line i peer port transport raw r =
        [((m_integration_id m, st, m_platform m), stamp_event (i_text i) st transport peer (parsed_event p))]) as ->
        by (unfold line_event; by rewrite Hm, Hpar, Hcl).
      split; cbn [accepted pushed lost rcv flights].
      * rewrite Hq, flat_extend, Hp. unfold keyed. cbn [map]. rewrite <- !app_assoc.
        rewrite (Permutation_app_comm (concat _)). by rewrite !app_assoc.
      * rewrite Hq. by apply queue_extend_nodup.
      * rewrite Ha, Hc, length_app. cbn. lia.
      * done.
  - split; cbn [accepted pushed lost rcv flights set_queues r_queues].
    + rewrite map_app, concat_app. cbn [map concat]. rewrite app_nil_r, Hp. unfold flat at 3. cbn [map concat app].
      do 2 apply Permutation_app_head. apply Permutation_app_comm.
    + constructor.
    + exact Hc.
    + exact Hd.
  - apply push_queue_cases in Hf as [(-> & -> & ->)|[-> Hf]].
    { cbn [default keyed map]. rewrite app_nil_r. split; cbn [accepted pushed lost rcv flights]; try done.
      by rewrite Hp, (flat_flights _ (key, events)), perm_acknowledged. }
    rewrite app_nil_r. revert Hf. generalize (default [] gone). clear gone. intros gone Hf.
    destruct (retain_spec _ _ _ _ _ Hn Hf) as [Hr Hn']. split; cbn [accepted pushed lost rcv flights].
    + by rewrite Hp, (flat_flights _ (key, events)), (perm_retained _ _ _ _ _ _ _ Hr).
    + done.
    + by rewrite (retain_accepted _ _ _ _ _ Hf).
    + destruct (retain_drops _ _ _ _ _ Hf) as [[-> ->]|[Hg ->]]; [by rewrite app_nil_r|]. rewrite length_app. unfold keyed. rewrite length_map.
      destruct gone; [done|]. cbn [length map]. split; [lia|]. intros E. lia.
  - by split.
  - by split.
Qed.

(** C17 [receiver_conserves] Whatever lines come, flushes start and pushes fail, in any
    order, every accepted event, that is the one of its source, parsed, classified and
    stamped, is in exactly one place: acknowledged by Redis, dropped under the cap,
    queued, or in a flush under way; as many were accepted as the statistics say; and
    the statistics count a drop when there is one, though one for several events. *)
Theorem receiver_conserves sources s y : rtc (step batch_max max_line) (initial sources s) y ->
  accepted y ≡ₚ pushed y ++ lost y ++ flat (r_queues (rcv y)) ++ concat (map flat (flights y)) /\
  count_of "accepted" (rcv y) = Z.of_nat (length (accepted y)) /\
  count_of "dropped_memory" (rcv y) <= Z.of_nat (length (lost y)) /\ (count_of "dropped_memory" (rcv y) = 0 -> lost y = []).
Proof.
  intros Hrun. assert (accounted (initial sources s)) as Hi by (split; cbn; [done | constructor | done | done]).
  assert (accounted y) as [? _ ? [[_ ?] ?]]; [|done]. revert Hi. induction Hrun as [y|y y' y'' Hs _ IH]; [done|].
  intros Hy. by apply IH, (step_accounted y).
Qed.

(** A failed push leaves at most the cap in its queue, and drops only down to it. *)
Lemma retained_is_capped key events r r' gone : NoDup (r_queues r).*1 -> retain batch_max key events r = (r', gone) ->
  forall q, (key, q) ∈ r_queues r' -> (length q <= batch_max * 20)%nat /\ (gone <> [] -> length q = batch_max * 20)%nat.
Proof.
  intros Hnd. unfold retain. apply (queue_extend_nodup key events) in Hnd as Hnd'. cbv zeta.
  destruct (extend_found key events (r_queues r)) as [[k q0] Hf]. rewrite Hf. cbn [fmap option_fmap option_map snd default from_option id].
  apply List.find_some in Hf as [Hin Hk%bool_decide_eq_true]. cbn in Hk. subst k. apply list_elem_of_In in Hin.
  assert (forall q, (key, q) ∈ queue_extend key events (r_queues r) -> q = q0) as Hone.
  { intros q Hq. by injection (NoDup_fmap_inj_on fst _ _ _ Hnd' Hq Hin eq_refl). }
  destruct (batch_max * 20 <? length q0)%nat eqn:Hlt; intros He; injection He as He1 He2; subst r' gone; cbn [bump set_queues r_queues].
  - intros q Hq. apply list_elem_of_In, in_map_iff in Hq as ([k q1] & He & Hq%list_elem_of_In).
    destruct (bool_decide_reflect (k = key)) as [->|Hne]; cbn in He.
    + rewrite bool_decide_true in He by done. injection He as <-. rewrite (Hone _ Hq), length_drop. apply Nat.ltb_lt in Hlt. lia.
    + rewrite bool_decide_false in He by done. naive_solver.
  - intros q Hq. rewrite (Hone _ Hq). apply Nat.ltb_ge in Hlt. done.
Qed.
End conservation.

(** ** Sources from the API *)

Section served.
Context `{IpAddress} `{NetworkText} `{JsonLoads} `{ConfigDumps} `{JmesPath} `{FloatRepr} `{Registry}.
Context `{FromIso} `{IsoMillis} `{DecodeBody} `{Sha256} `{JsonDumps}.
Context `{!SourceLaws}.
Context (max_line : nat).

(** What [load_source_table] parses for a row. *)
Lemma stored_compiles row config : row_config row config ->
  exists cfg, match y_classifier_json row with
              | None | Some EmptyString => Some (PDict [])
              | Some text => result_to_option (json_loads text)
              end = Some cfg /\
  compile_classifier cfg (Some (y_default_stream row)) = compile_classifier (config_value config) (Some (y_default_stream row)).
Proof.
  unfold row_config. destruct (y_classifier_json row) as [[|a text]|].
  - by intros [? _].
  - intros (_ & _ & _ & ->). by exists (config_value config).
  - intros ->. by exists (PDict []).
Qed.

Lemma load_entry_ok d row integ config : row_ok d row integ config -> y_enabled row = true -> n_active integ = true ->
  exists net c, ip_network (y_source_cidr row) = Some net /\
    compile_classifier (config_value config) (Some (y_default_stream row)) = Ok c /\
    load_entry (y_integrations d) row =
      Some (SourceEntry net (y_listen_port row) (y_transport row)
              (SourceMatch (y_id row) (y_integration_id row) (n_organization_id integ) (n_platform integ) c (y_name row))).
Proof.
  intros [(net & Hn & _) Ht _ Hi _ _ Hc (c & Hk) _ _] He Ha. exists net, c. split; [done|]. split; [done|].
  unfold load_entry. rewrite Hi, He, Ha, Hn. cbn [andb mbind option_bind].
  destruct (stored_compiles _ _ Hc) as (cfg & Hcfg & Heq).
  replace (match y_classifier_json row with None | Some EmptyString => Some (PDict []) | Some text => result_to_option (json_loads text) end)
    with (Some cfg) by done.
  cbn [mbind option_bind]. rewrite Heq, Hk. cbn [result_to_option mbind option_bind]. destruct (String.eqb_spec (y_transport row) "") as [E|_]; [|done].
  rewrite E in Ht. unfold TRANSPORTS in Ht. rewrite !elem_of_cons, elem_of_nil in Ht. naive_solver.
Qed.

Lemma config_streams config named n : streams_referenced (config_value config) = Ok named -> n ∈ named -> n ∈ map snd config.
Proof.
  replace (streams_referenced (config_value config)) with
    (Ok (sorted_strs (remove_dups (concat (map (fun r : string * string => if truthy (PStr r.2) then [r.2] else []) config) ++ []))))
    by (destruct config; unfold streams_referenced, config_value; cbn; by rewrite ?map_map).
  intros [= <-]. rewrite app_nil_r, sorted_strs_perm, elem_of_remove_dups. intros Hn.
  apply list_elem_of_In, in_concat in Hn as (l & Hl & Hn). apply in_map_iff in Hl as ([w s] & <- & Hin). cbn in Hn.
  destruct s as [|a s]; [done|]. destruct Hn as [<-|[]]. apply list_elem_of_In, in_map_iff. by exists (w, String a s).
Qed.

Lemma compiled_default config s c : s <> "" -> compile_classifier (config_value config) (Some s) = Ok c ->
  default_stream c = Some (str_strip s).
Proof.
  unfold compile_classifier. intros Hs (cfg & Hcfg & Hc)%result_bind_ok. injection Hcfg as <-.
  destruct (py_or _ _); try done. apply result_bind_ok in Hc as ([] & _ & Hc). apply result_bind_ok in Hc as (rs & _ & [= <-]).
  cbn. unfold compile_default. change (dget "default_stream" _) with PNone. by destruct s.
Qed.

(** A usable row gives every event a stream that its platform has. *)
Lemma row_classifies d row integ config c e : row_ok d row integ config ->
  compile_classifier (config_value config) (Some (y_default_stream row)) = Ok c ->
  exists s, classify c e = Some s /\ s <> "" /\ has_stream (n_platform integ) s = true.
Proof.
  intros [_ _ _ _ _ _ _ _ Hne Hv] Hc. rewrite Forall_forall in Hv.
  assert (forall s, classify c e = Some s -> has_stream (n_platform integ) s = true) as Hreg.
  { intros s Hs. destruct (classify_streams _ _ _ _ _ Hc Hs) as [(named & name & Hn & Hin & ->)|(name & [= <-] & ->)].
    - assert (has_stream (n_platform integ) name = true) as Hh; [|by rewrite (has_stream_stripped _ _ Hh)].
      apply Hv. right. by eapply config_streams.
    - assert (has_stream (n_platform integ) (y_default_stream row) = true) as Hh by (apply Hv; left).
      by rewrite (has_stream_stripped _ _ Hh). }
  assert (str_strip (y_default_stream row) = y_default_stream row) as Hd by (apply (has_stream_stripped (n_platform integ)), Hv; left).
  unfold classify in *. destruct (first_stream (rules c) e) as [s|] eqn:Ef.
  - exists s. split; [done|]. split; [|by apply Hreg].
    apply first_stream_elem in Ef as (r & Hr & <-). by eapply compiled_streams.
  - rewrite (compiled_default _ _ _ Hne Hc), Hd in *. exists (y_default_stream row). split; [done|]. split; [done|]. by apply Hreg.
Qed.

(** The source a loaded table answers with gives every event a stream of its
    platform. *)
Lemma loaded_classifies d peer port transport m e : sources_wf d -> resolve (load_source_table d) peer port transport = Some m ->
  exists s, classify (m_classifier m) e = Some s /\ s <> "" /\ has_stream (m_platform m) s = true.
Proof.
  intros (Hall & _). unfold resolve. destruct (ip_address peer) as [[ip version]|]; [|done].
  destruct (List.find _ _) as [x|] eqn:Ef; [|done]. intros [= <-].
  apply List.find_some in Ef as [Hin%list_elem_of_In _]. unfold load_source_table in Hin. rewrite source_table_perm in Hin.
  apply list_elem_of_omap in Hin as (row & Hrow & Hl). rewrite Forall_forall in Hall. destruct (Hall _ Hrow) as (integ & config & Hok).
  assert (y_enabled row = true /\ n_active integ = true) as [He Ha].
  { unfold load_entry in Hl. rewrite (ok_integration _ _ _ _ Hok) in Hl.
    destruct (y_enabled row && n_active integ) eqn:E; [|done]. by apply andb_true_iff. }
  destruct (load_entry_ok _ _ _ _ Hok He Ha) as (net & c & _ & Hc & Hl'). rewrite Hl in Hl'. injection Hl' as ->. cbn.
  by eapply row_classifies.
Qed.

Lemma receive_classifies d i peer port transport raw r : sources_wf d -> r_sources r = load_source_table d ->
  (receive i peer port transport raw r).2 <> Ok (Some Unclassified).
Proof.
  intros Hwf Hr. unfold receive. rewrite Hr. destruct (resolve _ _ _ _) as [m|] eqn:Em; [|done].
  destruct (parse_syslog_line _ _ _) as [[p|e]|]; try done. cbv zeta.
  destruct (loaded_classifies d _ _ _ _ (PDict (parsed_event p)) Hwf Em) as ([|a s] & -> & Hne & Hh); [done|]. by rewrite Hh.
Qed.

(** [registered_streams_served] The table the receiver loads from rows that the API
    wrote has an entry for each enabled row with an active integration, and no line of
    a known peer is left unclassified. *)
Theorem registered_streams_served d i peer port transport raw r r' res : sources_wf d ->
  r_sources r = load_source_table d -> handle_line max_line i peer port transport raw r = (r', res) ->
  res <> Ok (Some Unclassified) /\
  (forall row integ, row ∈ y_rows d -> y_integrations d !! y_integration_id row = Some integ -> y_enabled row = true -> n_active integ = true ->
     exists e, e ∈ load_source_table d /\ m_source_id (e_match e) = y_id row /\ m_integration_id (e_match e) = y_integration_id row /\
       ip_network (y_source_cidr row) = Some (e_network e) /\ e_listen_port e = y_listen_port row /\ e_transport e = y_transport row).
Proof.
  intros Hwf Hr Hl. split.
  - unfold handle_line in Hl. destruct (String.eqb _ ""); [by injection Hl as <- <-|].
    destruct (max_line <? _)%nat.
    + pose proof (receive_classifies d i peer port transport (str_take max_line raw) (bump "truncated" r) Hwf Hr) as Hc.
      by rewrite Hl in Hc.
    + pose proof (receive_classifies d i peer port transport raw r Hwf Hr) as Hc. by rewrite Hl in Hc.
  - intros row integ Hrow Hi He Ha. destruct Hwf as (Hall & _). rewrite Forall_forall in Hall.
    destruct (Hall _ Hrow) as (integ' & config & Hok). rewrite (ok_integration _ _ _ _ Hok) in Hi. injection Hi as ->.
    destruct (load_entry_ok _ _ _ _ Hok He Ha) as (net & c & Hn & _ & Hload).
    match type of Hload with _ = Some ?x => exists x end. split; [|cbn; by split_and!].
    unfold load_source_table. rewrite source_table_perm. apply list_elem_of_omap. by exists row.
Qed.
End served.

(** ** Framing *)

Section framing.
Context (max_line : nat).

(** The loop of a connection ends. *)
Lemma str_drop_nonempty s n : s <> "" -> (0 < n)%nat -> (String.length (str_drop n s) < String.length s)%nat.
Proof. intros Hs Hn. rewrite str_length_drop. destruct s; [done|]. cbn. lia. Qed.

Lemma frames_total fuel s : (0 < max_line)%nat -> (String.length s < fuel)%nat -> is_Some (frames max_line fuel s).
Proof.
  intros Hm. revert s. induction fuel as [|fuel IH]; intros s Hf; [lia|]. cbn [frames]. unfold read_line.
  assert (forall (x : frame) t, (String.length t < String.length s)%nat -> is_Some (cons x <$> frames max_line fuel t)) as Hrec.
  { intros x t Ht. apply fmap_is_Some, IH. lia. }
  destruct (str_cut newline s) as [[l rest]|] eqn:Ec.
  - apply str_cut_some in Ec as [-> _]. rewrite str_length_app in *. cbn [String.length] in *.
    destruct (max_line <? String.length l)%nat eqn:El.
    + apply Hrec. rewrite str_length_drop, str_length_app. cbn. apply Nat.ltb_lt in El. lia.
    + destruct (String.eqb _ ""); [by eexists|]. destruct (strip_octet_count _) as [body [declared|]]; apply Hrec; rewrite ?str_length_drop; lia.
  - destruct (max_line <? String.length s)%nat eqn:El.
    + apply Hrec. rewrite str_length_drop. apply Nat.ltb_lt in El. lia.
    + destruct (String.eqb_spec s "") as [->|Hne]; [by eexists|].
      destruct (strip_octet_count _) as [body [declared|]]; [|by eexists]. apply Hrec. rewrite str_length_drop.
      destruct s; [done|]. cbn. lia.
Qed.

(** A message with its octet count in front, as RFC 6587 has it. *)
Definition octet_frame (m : string) : string := str_of_nat (String.length m) +:+ String " " m.
Fixpoint write_frames (ms : list string) : string :=
  match ms with [] => EmptyString | m :: ms' => octet_frame m +:+ write_frames ms' end.

(** It has a line end, its count has at most seven digits, and the first line of its
    frame is within the limit. *)
Definition framable (m : string) : Prop :=
  exists l t, m = l +:+ String newline t /\ has_char newline l = false /\
    (String.length (str_of_nat (String.length m)) <= 7)%nat /\
    (String.length (str_of_nat (String.length m)) + 1 + String.length l <= max_line)%nat.

Lemma digits_of_nat n : all_chars is_digit10 (str_of_nat n) = true /\ str_of_nat n <> "".
Proof.
  unfold str_of_nat, str_of_Z, NilZero.string_of_int. destruct (Z.to_int (Z.of_nat n)) as [u|u] eqn:E.
  2: { destruct n; cbn in E; discriminate. }
  assert (all_chars is_digit10 (NilEmpty.string_of_uint u) = true) as Hu by (clear E; by induction u).
  destruct u; by split.
Qed.

Lemma str_take_app n s t : (String.length s <= n)%nat -> str_take n (s +:+ t) = s +:+ str_take (n - String.length s) t.
Proof.
  revert n. induction s as [|a s IH]; intros n Hn; cbn [String.length] in *.
  - change ("" +:+ t) with t. by rewrite Nat.sub_0_r.
  - destruct n as [|n]; [lia|]. change (String a s +:+ t) with (String a (s +:+ t)). cbn [str_take]. rewrite IH by lia. done.
Qed.

Lemma strip_frame n rest : (String.length (str_of_nat n) <= 7)%nat -> (String.length rest <= n)%nat ->
  strip_octet_count (str_of_nat n +:+ String " " rest) = (rest, Some (Z.of_nat n)).
Proof.
  intros Hl Hr. destruct (digits_of_nat n) as [Hd Hne]. unfold strip_octet_count.
  rewrite str_take_app by lia. destruct (9 - String.length (str_of_nat n))%nat as [|k] eqn:Ek; [lia|]. cbn [str_take].
  rewrite (upto_app 7 is_digit10) by (done || lia).
  change (is_space " " && (N_of_ascii " " <? 128)%N) with true. cbv match.
  assert (digits_value (str_of_nat n) = Z.of_nat n) as ->.
  { unfold digits_value, str_of_nat in *. rewrite int_of_text by lia. done. }
  rewrite Nat2Z.id. f_equal. change (str_of_nat n +:+ String " " rest) with (str_of_nat n +:+ (String " " "" +:+ rest)).
  assert (S (String.length (str_of_nat n)) = String.length (str_of_nat n +:+ " ")) as -> by (rewrite str_length_app; cbn; lia).
  rewrite <- str_app_assoc, str_drop_app. by apply str_take_all.
Qed.

Lemma str_app_nil_r s : s +:+ "" = s.
Proof. induction s as [|a s IH]; [done|]. change (String a s +:+ "") with (String a (s +:+ "")). by rewrite IH. Qed.
Lemma str_drop_length s t : str_drop (String.length s) (s +:+ t) = t.
Proof. by rewrite str_drop_app. Qed.

(** The first round of the loop takes the first frame. *)
Lemma frames_first fuel m rest : framable m ->
  frames max_line (S fuel) (octet_frame m +:+ rest) = cons (Line m) <$> frames max_line fuel rest.
Proof.
  intros (l & t & -> & Hl & Hc & Hw). set (n := String.length (l +:+ String newline t)) in *.
  destruct (digits_of_nat n) as [Hd Hne].
  assert (has_char newline (str_of_nat n +:+ String " " l) = false) as Hnl.
  { rewrite has_char_app. change (String " " l) with (" " +:+ l). rewrite has_char_app, Hl.
    assert (has_char newline (str_of_nat n) = false) as ->; [|done]. clear - Hd. induction (str_of_nat n) as [|a s IH]; [done|].
    cbn [all_chars] in Hd. apply andb_true_iff in Hd as [Ha Hs]. cbn [has_char]. rewrite (IH Hs), orb_false_r.
    apply Ascii.eqb_neq. intros ->. done. }
  assert (octet_frame (l +:+ String newline t) +:+ rest = (str_of_nat n +:+ String " " l) +:+ String newline (t +:+ rest)) as ->.
  { unfold octet_frame. fold n. change (String " " (l +:+ String newline t)) with (" " +:+ (l +:+ String newline t)).
    rewrite !str_app_assoc. done. }
  cbn [frames]. unfold read_line. rewrite str_cut_app by done.
  assert ((max_line <? String.length (str_of_nat n +:+ String " " l))%nat = false) as ->.
  { apply Nat.ltb_ge. rewrite str_length_app. cbn [String.length]. lia. }
  cbv zeta. assert ((str_of_nat n +:+ String " " l) +:+ String newline "" = str_of_nat n +:+ String " " (l +:+ String newline "")) as ->.
  { rewrite str_app_assoc. done. }
  assert (String.length (l +:+ String newline "") <= n)%nat as Hle.
  { subst n. rewrite !str_length_app. cbn [String.length]. lia. }
  rewrite strip_frame by done. rewrite Nat2Z.id.
  assert (n - String.length (l +:+ String newline "") = String.length t)%nat as ->.
  { subst n. rewrite !str_length_app. cbn [String.length]. lia. }
  rewrite str_drop_length, str_take_app by lia. rewrite Nat.sub_diag. cbn [str_take].
  assert (String.eqb (str_of_nat n +:+ String " " (l +:+ String newline "")) "" = false) as ->.
  { apply String.eqb_neq. by destruct (str_of_nat n). }
  by rewrite str_app_nil_r, str_app_assoc.
Qed.

(** C20 [octet_frames_round_trip] A connection that sends counted frames, each message with
    a line end in it, is read back message by message, line ends included; and
    whatever a connection sends, the loop ends. *)
Theorem octet_frames_round_trip ms : (0 < max_line)%nat -> Forall framable ms ->
  frames max_line (S (String.length (write_frames ms))) (write_frames ms) = Some (map Line ms) /\
  forall s, is_Some (frames max_line (S (String.length s)) s).
Proof.
  intros Hm Hms. split; [|intros s; apply frames_total; lia].
  assert (forall fuel, (length ms < fuel)%nat -> frames max_line fuel (write_frames ms) = Some (map Line ms)) as Hf.
  { induction Hms as [|m ms Hf Hms IH]; intros [|fuel] Hfuel; cbn [length] in Hfuel; try lia; [done|].
    cbn [write_frames map]. rewrite (frames_first fuel m _ Hf), IH by lia. done. }
  apply Hf. clear Hf. induction Hms as [|m ms Hf Hms IH]; [cbn; lia|]. cbn [write_frames length]. rewrite str_length_app.
  unfold octet_frame. rewrite str_length_app. cbn [String.length]. lia.
Qed.
End framing.

(** ** The receiver of the installation *)

#[local] Existing Instances demo_jmes demo_float_repr demo_addresses demo_network_text demo_config_dumps demo_config_loads
  demo_source_registry demo_scope demo_source_laws.
#[local] Instance demo_server_iso : FromIso := fun _ => None.
#[local] Instance demo_server_millis : IsoMillis := fun _ => "t".
#[local] Instance demo_server_decode : DecodeBody := fun s => s.
#[local] Instance demo_server_sha : Sha256 := fun s => s.
#[local] Instance demo_server_dumps : JsonDumps := fun _ => "{}".
#[local] Instance demo_server_events : EventJson := {| event_dumps := fun _ => "{}"; ascii_size := fun _ => 2 |}.

Definition demo_sources : source_db := source_run demo_installation (take 2 demo_requests).
Definition demo_receiver : receiver := Receiver (load_source_table demo_sources) [] [].
Definition demo_instant : instant := Instant 2026 0 "now".

(** Nothing compares the network of a new source with the others': the second
    organization registered one host of the first one's network, and has had its
    lines since. *)
Example narrower_source_diverts :
  (m_organization_id <$> resolve (load_source_table (source_run demo_installation (take 1 demo_requests))) "10.0.0.7" 514 "udp") = Some 10 /\
  (m_organization_id <$> resolve (load_source_table demo_sources) "10.0.0.7" 514 "udp") = Some 20.
Proof. by vm_compute. Qed.

Lemma registered_streams_served_witness :
  sources_wf demo_sources /\ (handle_line 100 demo_instant "10.0.0.8" 514 "udp" "<13>hello" demo_receiver).2 = Ok (Some Accepted) /\
  (handle_line 100 demo_instant "10.0.0.8" 514 "udp" "<13>hello" demo_receiver).2 <> Ok (Some Unclassified).
Proof.
  assert (sources_wf demo_sources) as Hwf by apply source_run_wf, demo_installation_wf.
  split; [done|]. split; [by vm_compute|].
  exact (proj1 (registered_streams_served 100 demo_sources demo_instant "10.0.0.8" 514 "udp" "<13>hello" demo_receiver
    (handle_line 100 demo_instant "10.0.0.8" 514 "udp" "<13>hello" demo_receiver).1
    (handle_line 100 demo_instant "10.0.0.8" 514 "udp" "<13>hello" demo_receiver).2 Hwf eq_refl (surjective_pairing _))).
Defined.

(** One line, a flush that Redis does not answer, a second line, and a flush that
    gets through. *)
Definition demo_line (text : string) (r : receiver) : receiver := (handle_line 100 demo_instant "10.0.0.8" 514 "udp" text r).1.
Definition demo_key : queue_key := (1, "traffic", "fortigate").
Definition demo_event (text : string) : event :=
  match parse_syslog_line 2026 0 text with
  | Some (Ok p) => stamp_event "now" "traffic" "udp" "10.0.0.8" (parsed_event p)
  | _ => []
  end.
Definition demo_store : mem_lists := MemLists mem_empty ∅.

Definition demo_one : receiver := demo_line "<13>one" demo_receiver.
Definition demo_two : receiver := demo_line "<13>two" (set_queues [] demo_one).
Definition demo_held : receiver := (retain 10 demo_key [demo_event "<13>one"] demo_two).1.
Definition demo_sent : mem_lists :=
  (push_events Answered true 1 "traffic" [demo_event "<13>two"; demo_event "<13>one"] DEFAULT_MAX_LEN demo_store).1.
Definition demo_accepted : list (queue_key * event) := [(demo_key, demo_event "<13>one"); (demo_key, demo_event "<13>two")].
Definition demo_end : system mem_lists :=
  System (set_queues [] demo_held) [[]; []] demo_sent demo_accepted (keyed demo_key [demo_event "<13>two"; demo_event "<13>one"]) [].

Lemma demo_run : rtc (step 10 100) (initial (load_source_table demo_sources) demo_store) demo_end.
Proof.
  apply (rtc_l _ _ (System demo_one [] demo_store [(demo_key, demo_event "<13>one")] [] [])).
  { assert ([(demo_key, demo_event "<13>one")] = [] ++ line_event 100 demo_instant "10.0.0.8" 514 "udp" "<13>one" demo_receiver) as ->
      by by vm_compute.
    apply (line_handled 10 100 demo_instant "10.0.0.8" 514 "udp" "<13>one" demo_receiver demo_one (Ok (Some Accepted))). by vm_compute. }
  apply (rtc_l _ _ (System (set_queues [] demo_one) [[(demo_key, [demo_event "<13>one"])]] demo_store [(demo_key, demo_event "<13>one")] [] [])).
  { assert (r_queues demo_one = [(demo_key, [demo_event "<13>one"])]) as Hq by by vm_compute.
    rewrite <- Hq. apply (flush_begins 10 100 demo_one []). by rewrite Hq. }
  apply (rtc_l _ _ (System demo_two [[(demo_key, [demo_event "<13>one"])]] demo_store demo_accepted [] [])).
  { assert (demo_accepted = [(demo_key, demo_event "<13>one")] ++
      line_event 100 demo_instant "10.0.0.8" 514 "udp" "<13>two" (set_queues [] demo_one)) as -> by by vm_compute.
    apply (line_handled 10 100 demo_instant "10.0.0.8" 514 "udp" "<13>two" (set_queues [] demo_one) demo_two (Ok (Some Accepted))).
    by vm_compute. }
  apply (rtc_l _ _ (System demo_held [[]] demo_store demo_accepted [] [])).
  { pose proof (flush_pushes 10 100 NotRun true [] demo_key [demo_event "<13>one"] [] [] demo_two demo_held demo_store demo_store (Some [])
      demo_accepted [] []) as Hs.
    assert (acknowledged NotRun true demo_key [demo_event "<13>one"] demo_store = []) as E by by vm_compute. rewrite E in Hs.
    apply Hs. by vm_compute. }
  apply (rtc_l _ _ (System (set_queues [] demo_held) [[]; [(demo_key, [demo_event "<13>two"; demo_event "<13>one"])]] demo_store demo_accepted [] [])).
  { assert (r_queues demo_held = [(demo_key, [demo_event "<13>two"; demo_event "<13>one"])]) as Hq by by vm_compute.
    rewrite <- Hq. apply (flush_begins 10 100 demo_held [[]]). by rewrite Hq. }
  apply rtc_once.
  pose proof (flush_pushes 10 100 Answered true [[]] demo_key [demo_event "<13>two"; demo_event "<13>one"] [] [] (set_queues [] demo_held)
    (set_queues [] demo_held) demo_store demo_sent None demo_accepted [] []) as Hs.
  assert (acknowledged Answered true demo_key [demo_event "<13>two"; demo_event "<13>one"] demo_store =
    keyed demo_key [demo_event "<13>two"; demo_event "<13>one"]) as E by by vm_compute. rewrite E in Hs.
  apply Hs. by vm_compute.
Qed.

Lemma receiver_conserves_witness :
  rtc (step 10 100) (initial (load_source_table demo_sources) demo_store) demo_end /\
  length (accepted demo_end) = 2%nat /\
  accepted demo_end ≡ₚ pushed demo_end ++ lost demo_end ++ flat (r_queues (rcv demo_end)) ++ concat (map flat (flights demo_end)).
Proof. split; [exact demo_run|]. split; [done|]. exact (proj1 (receiver_conserves 10 100 _ _ _ demo_run)). Defined.

(** A failed push puts its events behind those that came since: the second line is
    in the buffer before the first. *)
Example failed_push_reorders : r_queues demo_held = [(demo_key, [demo_event "<13>two"; demo_event "<13>one"])].
Proof. by vm_compute. Qed.

(** The cap drops two events and the statistics count one drop. *)
Example drops_counted_once :
  let r := retain 0 demo_key [demo_event "<13>one"; demo_event "<13>two"] demo_receiver in
  length r.2 = 2%nat /\ count_of "dropped_memory" r.1 = 1.
Proof. by vm_compute. Qed.

(** A line that makes the parser raise ends the handling of its datagram: the good
    line behind it is not read. *)
Example bad_line_hides_the_next :
  let data := "<13>LEEF:2.0|v|p|1|e|xyz|a=b" +:+ String newline "<13>good" in
  handle_datagram 100 (fun _ => demo_instant) "10.0.0.8" 514 data demo_receiver = (demo_receiver, Raise EValue).
Proof. by vm_compute. Qed.

(** Two counted frames without line ends, as RFC 6587 writes them: the second is
    lost. *)
Example counted_frames_merge : frames 100 20 "5 hello5 world" = Some [Line "hello"].
Proof. by vm_compute. Qed.

(** The rest of a line over the limit comes back as a line of its own. *)
Example long_line_tail : frames 4 20 ("abcdefgh" +:+ String newline EmptyString) = Some [Overrun; Line ("efgh" +:+ String newline EmptyString)].
Proof. by vm_compute. Qed.

Lemma octet_frames_round_trip_witness :
  let m := "<13>a" +:+ String newline ("b" +:+ String newline EmptyString) in
  Forall (framable 100) [m; m] /\ frames 100 (S (String.length (write_frames [m; m]))) (write_frames [m; m]) = Some (map Line [m; m]).
Proof.
  intros m. assert (framable 100 m) as Hm by (exists "<13>a", ("b" +:+ String newline EmptyString); by vm_compute; split_and!; try lia).
  assert (Forall (framable 100) [m; m]) as Hms by by repeat constructor.
  split; [done|]. exact (proj1 (octet_frames_round_trip 100 [m; m] ltac:(lia) Hms)).
Defined.

(** The dry run does not count a text as a match, the receiver does: for a rule that
    selects a field, the answer of the first is not the stream of the second. *)
Example preview_disagrees : exists clf out,
  compile_classifier (config_value [("app", "auth")]) (Some "traffic") = Ok clf /\
  parse_syslog_line 2026 0 "<13>Jan  1 00:00:00 h sshd: x" = Some (Ok out) /\
  classify clf (PDict (parsed_event out)) = Some "auth" /\ (explain clf (PDict (parsed_event out))).1 = (Some "traffic", false).
Proof. eexists _, _. split; [vm_compute; reflexivity|]. split; [vm_compute; reflexivity|]. by vm_compute. Qed.
