(* ===== verification/Senders.v ===== *)
(** * The syslog senders

    [output/syslog_sender.py] (RFC 5424 with octet counts), [output/rfc3164_sender.py]
    (RFC 3164 with a JSON message) and the priority both take from
    [normalize/severity_map.py].  The connection is left out: what is modelled is
    the text of an event and the bytes of a batch.  [_fastjson] is the parameter
    [EventJson]; the host name, the process and the clock are arguments. *)

From S2P Require Import Prelude PyVal Text Operators Dedupe Boundary Ingest Syslog.

Local Open Scope string_scope.
Local Open Scope list_scope.
Local Open Scope Z_scope.

Abbreviation event := (list (string * pyval)).

(** ** Priority *)

Definition SYSLOG_FACILITY_LOCAL0 : Z := 16.
Definition PRI_DEFAULT : Z := SYSLOG_FACILITY_LOCAL0 * 8 + 6.

Definition OCSF_TO_SYSLOG_SEVERITY (severity_id : Z) : option Z :=
  match severity_id with
  | 0 => Some 6 | 1 => Some 6 | 2 => Some 5 | 3 => Some 4 | 4 => Some 3 | 5 => Some 2 | 6 => Some 0 | 99 => Some 6
  | _ => None
  end.

(** Only [TypeError] and [ValueError] of [int] are caught. *)
Definition pri_for_severity_id (severity_id : pyval) : result Z :=
  if is_none severity_id then Ok PRI_DEFAULT
  else
    n ← try_except (n ← py_int severity_id; Ok (Some n)) (fun e => bool_decide (e = EType) || is_value_error e) (fun _ => Ok None);
    Ok (match n ≫= OCSF_TO_SYSLOG_SEVERITY with Some sev => SYSLOG_FACILITY_LOCAL0 * 8 + sev | None => PRI_DEFAULT end).

Definition pri_for_event (e : event) : result Z :=
  match dget "normalized" e with
  | PDict normalized =>
      let sid := dget "severity_id" normalized in
      if is_none sid then Ok PRI_DEFAULT else pri_for_severity_id sid
  | _ => Ok PRI_DEFAULT
  end.

(** ** RFC 5424 *)

Section formats.
Context `{FloatRepr} `{EventJson}.

(** The three [replace]s, one after the other. *)
Definition sdv (value : pyval) : string :=
  if is_none value then ""
  else str_replace "]" "\]" (str_replace dquote_char (String "\" (String dquote_char "")) (str_replace "\" "\\" (py_str value))).

Definition quoted (name value : string) : string :=
  name +:+ "=" +:+ String dquote_char "" +:+ value +:+ String dquote_char "".

(** [hostname]: [socket.gethostname()]; [now_iso]: [_now_iso()]. *)
Definition format_rfc5424 (hostname now_iso : string) (e : event) : result string :=
  let meta := dget "_centralops" e in
  if negb (truthy meta) then Raise EValue
  else match meta with
       | PDict meta =>
           let ts := py_or (dget "collected_at" meta) (PStr now_iso) in
           let msgid := py_str (py_or (dget "integration_id" meta) (PStr "-")) in
           let vendor := py_or (dget "vendor" meta) (dget "platform" meta) in
           let sd := "[centralops@32473 " +:+ quoted "integration_id" (sdv (dget "integration_id" meta)) +:+ " "
                       +:+ quoted "customer_id" (sdv (dget "customer_id" meta)) +:+ " " +:+ quoted "vendor" (sdv vendor) +:+ " "
                       +:+ quoted "stream" (sdv (dget "stream" meta)) +:+ " "
                       +:+ quoted "event_type" (sdv (dget "event_type" meta)) +:+ "]" in
           pri ← pri_for_event e;
           Ok ("<" +:+ str_of_Z pri +:+ ">1 " +:+ py_str ts +:+ " " +:+ hostname +:+ " centralops-collector - " +:+ msgid
                 +:+ " " +:+ sd +:+ " " +:+ event_dumps e)
       | _ => Raise EAttribute
       end.

(** ** RFC 3164 *)

Definition APP_NAME : string := "centralops".

(** [datetime.utcnow()], its parts. *)
Record utc_now := UtcNow { n_month : Z; n_day : Z; n_hour : Z; n_minute : Z; n_second : Z }.

(** [%02d] and [:>2d] of a number below 100. *)
Definition two_digits (fill : ascii) (n : Z) : string := if n <? 10 then String fill (str_of_Z n) else str_of_Z n.

Definition stamp_text (now : utc_now) : string :=
  default "" (MONTHS !! Z.to_nat (n_month now - 1)) +:+ " " +:+ two_digits " " (n_day now) +:+ " "
    +:+ two_digits "0" (n_hour now) +:+ ":" +:+ two_digits "0" (n_minute now) +:+ ":" +:+ two_digits "0" (n_second now).

Definition format_rfc3164 (now : utc_now) (hostname : string) (pid : Z) (e : event) : result string :=
  match e with
  | [] => Raise EValue
  | _ =>
      pri ← pri_for_event e;
      Ok ("<" +:+ str_of_Z pri +:+ ">" +:+ stamp_text now +:+ " " +:+ (if String.eqb hostname "" then "centralops" else hostname)
            +:+ " " +:+ APP_NAME +:+ "[" +:+ str_of_Z pid +:+ "]: " +:+ event_dumps e)
  end.
End formats.

(** ** The bytes of a batch *)

(** UTF-8 of a text of 8-bit code points. *)
Fixpoint utf8_encode (s : string) : string :=
  match s with
  | EmptyString => ""
  | String a s' =>
      let n := N_of_ascii a in
      if (n <? 128)%N then String a (utf8_encode s')
      else String (ascii_of_N (192 + n / 64)) (String (ascii_of_N (128 + n mod 64)) (utf8_encode s'))
  end.

(** What [send_batch] writes: with octet counts, or a line end behind each line. *)
Definition counted_frame (line : string) : string :=
  let bytes := utf8_encode line in str_of_nat (String.length bytes) +:+ String " " bytes.
Definition lf_line (line : string) : string := utf8_encode line +:+ String "010" "".

(** The loop of [send_batch]: an event that cannot be formatted ends it, after those
    before it were written.  [format n] formats the [n]-th event. *)
Fixpoint write_batch (format : nat -> event -> result string) (framed : string -> string) (batch : list event) : string * result unit :=
  match batch with
  | [] => ("", Ok tt)
  | e :: batch' =>
      match format 0%nat e with
      | Raise x => ("", Raise x)
      | Ok line => let (bytes, r) := write_batch (fun n => format (S n)) framed batch' in (framed line +:+ bytes, r)
      end
  end.
Definition send_batch_rfc5424 `{FloatRepr} `{EventJson} (hostname : string) (clock : nat -> string) : list event -> string * result unit :=
  write_batch (fun n => format_rfc5424 hostname (clock n)) counted_frame.
Definition send_batch_rfc3164 `{FloatRepr} `{EventJson} (clock : nat -> utc_now) (hostname : string) (pid : Z) : list event -> string * result unit :=
  write_batch (fun n => format_rfc3164 (clock n) hostname pid) lf_line.
