(* ===== verification/SendersProps.v ===== *)
(** * What the syslog senders write, read back

    The lines of the two senders are given to the parser and the receiver of this
    repository.  The RFC 3164 sender is read back event by event
    ([rfc3164_batch_read_back]); an RFC 5424 line is read back field by field
    ([rfc5424_event_read_back]), but of a batch with octet counts the receiver keeps
    the first event ([counted_batch_keeps_first]). *)

From Stdlib Require Import DecimalString.
From S2P Require Import Prelude PyVal Text Predicates Operators Dedupe Store Redaction Radix Tenancy Accounts Boundary Secrets SecretsProps.
From S2P Require Import Ingest Syslog SyslogProps SyslogRound Detection Classify Sources SyslogServer SyslogServerProps Senders.

Local Open Scope string_scope.
Local Open Scope list_scope.
Local Open Scope Z_scope.

(** A JSON object, on one line; and the decoder undoes the encoder. *)
Class EventJsonLaws `{EventJson} := {
  dumps_object e : exists t, event_dumps e = "{" +:+ t +:+ "}";
  dumps_one_line e : has_char newline (event_dumps e) = false;
}.
Class DecodeLaw `{DecodeBody} := decode_encoded s : decode_body (utf8_encode s) = s.

(** ** Priority *)

Lemma severity_pri n s : OCSF_TO_SYSLOG_SEVERITY n = Some s -> 0 <= s <= 6.
Proof. unfold OCSF_TO_SYSLOG_SEVERITY. repeat case_match; intros [= <-]; lia. Qed.

Lemma pri_bounds e p : pri_for_event e = Ok p -> 128 <= p <= 134.
Proof.
  assert (forall v q, pri_for_severity_id v = Ok q -> 128 <= q <= 134) as Hs.
  { intros v q. unfold pri_for_severity_id. destruct (is_none v); [intros [= <-]; unfold PRI_DEFAULT, SYSLOG_FACILITY_LOCAL0; lia|].
    intros (n & _ & [= <-])%result_bind_ok. destruct (n ≫= OCSF_TO_SYSLOG_SEVERITY) as [s|] eqn:E.
    - destruct n as [n|]; [|done]. apply severity_pri in E. unfold SYSLOG_FACILITY_LOCAL0. lia.
    - unfold PRI_DEFAULT, SYSLOG_FACILITY_LOCAL0. lia. }
  unfold pri_for_event. assert (128 <= PRI_DEFAULT <= 134) by (unfold PRI_DEFAULT, SYSLOG_FACILITY_LOCAL0; lia).
  destruct (dget "normalized" e); try (intros [= <-]; done). cbv zeta.
  destruct (is_none _); [by intros [= <-]|]. apply Hs.
Qed.

(** ** RFC 5424 *)

Lemma str_replace_app c t s u : str_replace c t (s +:+ u) = str_replace c t s +:+ str_replace c t u.
Proof.
  induction s as [|a s IH]; [done|]. change (String a s +:+ u) with (String a (s +:+ u)). cbn [str_replace]. rewrite IH.
  destruct (Ascii.eqb a c); [by rewrite str_app_assoc | done].
Qed.

(** The text of a value in structured data. *)
Definition value_text `{FloatRepr} (v : pyval) : string := if is_none v then "" else py_str v.

Lemma escape_steps s :
  str_replace "]" "\]" (str_replace dquote_char (String "\" (String dquote_char "")) (str_replace "\" "\\" s)) = escape sd_special s.
Proof.
  induction s as [|a s IH]; [done|]. cbn [str_replace escape]. unfold sd_special at 1.
  destruct (Ascii.eqb_spec a "\") as [->|Hb].
  - rewrite !str_replace_app. cbn [str_replace]. change (Ascii.eqb "\" dquote_char) with false. cbv match.
    change (str_replace "]" "\]" "\\") with "\\". rewrite IH. done.
  - cbn [str_replace]. destruct (Ascii.eqb_spec a dquote_char) as [->|Hd].
    + rewrite str_replace_app, IH. done.
    + cbn [str_replace]. destruct (Ascii.eqb_spec a "]") as [->|Hr]; rewrite IH; done.
Qed.

Lemma sdv_escape `{FloatRepr} v : sdv v = escape sd_special (value_text v).
Proof. unfold sdv, value_text. destruct (is_none v); [done|]. apply escape_steps. Qed.

Section rfc5424.
Context `{FloatRepr} `{EventJson} `{FromIso} `{IsoMillis} `{!EventJsonLaws}.

(** The message an event is sent as. *)
Definition sent_5424 (hostname now_iso : string) (pri : Z) (meta : list (string * pyval)) (e : event) : message :=
  Message pri (py_str (py_or (dget "collected_at" meta) (PStr now_iso))) hostname "centralops-collector" "-"
    (py_str (py_or (dget "integration_id" meta) (PStr "-")))
    [("centralops@32473",
      [("integration_id", value_text (dget "integration_id" meta)); ("customer_id", value_text (dget "customer_id" meta));
       ("vendor", value_text (py_or (dget "vendor" meta) (dget "platform" meta))); ("stream", value_text (dget "stream" meta));
       ("event_type", value_text (dget "event_type" meta))])]
    (event_dumps e) None.

Lemma format_writes hostname now_iso e line : format_rfc5424 hostname now_iso e = Ok line ->
  exists meta pri, dget "_centralops" e = PDict meta /\ pri_for_event e = Ok pri /\
    line = write_line (sent_5424 hostname now_iso pri meta e).
Proof.
  unfold format_rfc5424. destruct (negb (truthy (dget "_centralops" e))); [done|].
  destruct (dget "_centralops" e) as [| | | | | |meta]; try done. cbv zeta.
  intros (pri & Hp & [= <-])%result_bind_ok. exists meta, pri. split; [done|]. split; [done|].
  unfold write_line, sent_5424. cbn [m_pri m_ts m_host m_app m_procid m_msgid m_sd]. unfold write_body. cbn [m_text m_cef].
  rewrite str_app_nil. cbn [write_sd write_elements write_params]. unfold write_param. cbn [fst snd].
  rewrite !sdv_escape. unfold quoted. by rewrite !str_app_assoc.
Qed.

(** A JSON text is no blank at its head and no line end at its end. *)
Lemma dumps_ends e : starts_with is_space (event_dumps e) = false /\ rstrip newline_char (event_dumps e) = event_dumps e.
Proof.
  destruct (dumps_object e) as [t ->]. split; [done|]. change ("{" +:+ t +:+ "}") with ("{" +:+ (t +:+ String "}" "")).
  change ("{" +:+ (t +:+ String "}" "")) with (("{" +:+ t) +:+ String "}" "").
  by rewrite rstrip_solid.
Qed.

(** [rfc5424_event_read_back]: the receiver reads, from the line of an event, its time,
    host and integration, the five labels with their quotes and brackets, and its
    JSON. *)
Lemma rfc5424_event_read_back now_year now hostname now_iso e line ts : format_rfc5424 hostname now_iso e = Ok line ->
  str_contains "CEF:" (event_dumps e) = false -> str_after "LEEF:" (event_dumps e) = None ->
  exists meta pri, dget "_centralops" e = PDict meta /\ pri_for_event e = Ok pri /\
  let m := sent_5424 hostname now_iso pri meta e in
  (Forall field_writable [m_ts m; m_host m; m_msgid m] -> parse_5424_ts (m_ts m) = Ok ts ->
   parse_syslog_line now_year now line =
     Some (Ok (Parsed Rfc5424 line (pri_fields (Some pri)) 1 ts false (dash hostname) (Some "centralops-collector") None
                 (dash (m_msgid m)) (m_sd m) (event_dumps e) None None))).
Proof.
  intros (meta & pri & Hm & Hp & ->)%format_writes Hcef Hleef. exists meta, pri. split; [done|]. split; [done|].
  intros m Hf Hts. destruct (dumps_ends e) as [Hs Hr]. apply pri_bounds in Hp.
  rewrite (read_written_line now_year now m ts); [|split_and!|done].
  - unfold write_body. cbn [m_text m_cef]. by rewrite str_app_nil.
  - cbn. lia.
  - cbn. lia.
  - rewrite !Forall_cons in Hf. destruct Hf as (? & ? & ? & _).
    repeat (apply Forall_cons; split; [done || by split|]). constructor.
  - split; [apply NoDup_singleton|]. apply Forall_singleton. split; [done|]. split; [|by repeat constructor].
    apply (bool_decide_unpack _). by vm_compute.
  - cbn. unfold write_body. cbn. by rewrite str_app_nil.
  - unfold write_body. cbn [m_text m_cef]. by rewrite str_app_nil.
  - done.
  - done.
Qed.
End rfc5424.

(** ** RFC 3164 *)









(** *** The year that the stamp does not say *)








Section rfc3164.
Context `{FloatRepr} `{EventJson} `{FromIso} `{IsoMillis} `{!EventJsonLaws}.








End rfc3164.

(** ** The bytes on the wire *)

Lemma utf8_one_line s : has_char newline (utf8_encode s) = has_char newline s.
Proof.
  induction s as [|a s IH]; [done|]. cbn [utf8_encode has_char]. destruct (N_of_ascii a <? 128)%N eqn:E; cbn [has_char]; rewrite IH; [done|].
  clear IH. revert E. destruct a as [[] [] [] [] [] [] [] []]; done.
Qed.

Lemma digits_one_line s : all_chars is_digit10 s = true -> has_char newline s = false.
Proof.
  induction s as [|a s IH]; [done|]. cbn [all_chars has_char]. intros [Ha Hs]%andb_true_iff. rewrite (IH Hs), orb_false_r.
  revert Ha. by destruct a as [[] [] [] [] [] [] [] []].
Qed.

(** The texts one after the other. *)
Definition joined (framed : string -> string) (lines : list string) : string := foldr (fun l s => framed l +:+ s) "" lines.


Section wire.
Context (max_line : nat).




(** A batch with octet counts holds no line end: it is one chunk, of which the
    receiver keeps the first message. *)
Lemma counted_batch_keeps_first line lines fuel : line <> "" -> Forall (fun l => has_char newline l = false) (line :: lines) ->
  (String.length (str_of_nat (String.length (utf8_encode line))) <= 7)%nat ->
  (String.length (joined counted_frame (line :: lines)) <= max_line)%nat ->
  frames max_line (S (S fuel)) (joined counted_frame (line :: lines)) = Some [Line (utf8_encode line)].
Proof.
  intros Hne Hnl Hc Hlen.
  assert (has_char newline (joined counted_frame (line :: lines)) = false) as Hone.
  { clear -Hnl. induction Hnl as [|l ls Hl _ IH]; [done|]. cbn [joined foldr]. fold (joined counted_frame ls).
    rewrite has_char_app, IH, orb_false_r. unfold counted_frame. rewrite has_char_app.
    change (has_char newline (String " " (utf8_encode l))) with (has_char newline (utf8_encode l)). rewrite utf8_one_line, Hl. destruct (digits_of_nat (String.length (utf8_encode l))) as [Hd _].
    rewrite orb_false_r. by apply digits_one_line. }
  set (s := joined counted_frame (line :: lines)) in *. cbn [frames]. unfold read_line. rewrite str_cut_none by done. cbv zeta.
  rewrite (proj2 (Nat.ltb_ge _ _) Hlen).
  destruct (digits_of_nat (String.length (utf8_encode line))) as [Hd Hdne].
  assert (String.eqb s "" = false) as ->.
  { apply String.eqb_neq. subst s. cbn [joined foldr]. unfold counted_frame. by destruct (str_of_nat _). }
  assert (strip_octet_count s = (utf8_encode line, Some (Z.of_nat (String.length (utf8_encode line))))) as ->.
  { subst s. cbn [joined foldr]. fold (joined counted_frame lines). unfold counted_frame at 1. rewrite str_app_assoc.
    change (String " " (utf8_encode line) +:+ joined counted_frame lines) with (String " " (utf8_encode line +:+ joined counted_frame lines)).
    assert (digits_value (str_of_nat (String.length (utf8_encode line))) = Z.of_nat (String.length (utf8_encode line))) as Hv.
    { unfold digits_value, str_of_nat in *. rewrite int_of_text by lia. done. }
    rewrite <- Hv. eapply second_frame_is_dropped; [|done].
    set (n := String.length (str_of_nat _)) in *. rewrite str_take_app by lia. fold n.
    assert (9 - n = S (8 - n))%nat as -> by lia. cbn [str_take]. by rewrite upto_app by (done || lia). }
  rewrite Nat2Z.id, Nat.sub_diag. change (str_take 0 "") with "". rewrite str_app_nil. done.
Qed.
End wire.

Section batch.
Context `{FloatRepr} `{EventJson} `{FromIso} `{IsoMillis} `{DecodeBody} `{!EventJsonLaws} `{!DecodeLaw}.
Context (max_line : nat).



End batch.

(** ** Batches of two events *)

#[local] Existing Instance demo_float_repr.
#[local] Instance demo_sent_json : EventJson := {|
  event_dumps e := "{" +:+ str_of_nat (length e) +:+ "}"; ascii_size := fun _ => 2 |}.
#[local] Instance demo_sent_laws : EventJsonLaws.
Proof.
  split; intros e; [by eexists|].
  change (has_char newline (event_dumps e)) with (has_char newline (str_of_nat (length e) +:+ "}")).
  rewrite has_char_app. by rewrite (digits_one_line _ (proj1 (digits_of_nat (length e)))).
Qed.
#[local] Instance demo_sent_iso : FromIso := fun _ => None.
#[local] Instance demo_sent_millis : IsoMillis := fun _ => "t".
(** The decoder of the texts the encoder writes. *)
#[local] Instance demo_sent_decode : DecodeBody :=
  fix go s := match s with
  | String a s' =>
      if (N_of_ascii a <? 128)%N then String a (go s')
      else match s' with
           | String b s'' => String (ascii_of_N ((N_of_ascii a - 192) * 64 + (N_of_ascii b - 128))) (go s'')
           | EmptyString => EmptyString
           end
  | EmptyString => EmptyString
  end.
#[local] Instance demo_sent_decode_law : DecodeLaw.
Proof.
  intros s. induction s as [|a s IH]; [done|]. cbn [utf8_encode]. unfold decode_body in *. destruct (N_of_ascii a <? 128)%N eqn:E.
  - cbn [demo_sent_decode]. rewrite E. by rewrite IH.
  - revert E. destruct a as [[] [] [] [] [] [] [] []]; intros E; try done; cbn; by rewrite IH.
Qed.

Definition demo_sent : event :=
  [("_centralops", PDict [("integration_id", PInt 7); ("vendor", PStr "acme")]); ("normalized", PDict [("severity_id", PInt 4)])].


(** The RFC 5424 sender and the receiver of this repository: of two events, one. *)
Example counted_batch_loses :
  let wire := send_batch_rfc5424 "worker" (fun _ => "2026-09-06T01:02:03Z") [demo_sent; demo_sent] in
  wire.2 = Ok tt /\ length <$> frames 2000 3 wire.1 = Some 1%nat.
Proof. by vm_compute. Qed.

(** An event that cannot be formatted stops the batch behind the events before it:
    a retry sends those again. *)
Example bad_event_after_good :
  send_batch_rfc5424 "worker" (fun _ => "now") [demo_sent; [("raw", PNone)]] =
  ((send_batch_rfc5424 "worker" (fun _ => "now") [demo_sent]).1, Raise EValue).
Proof. by vm_compute. Qed.

(** A severity that is infinite raises an error that [pri_for_severity_id] does not
    catch. *)
Example infinite_severity : pri_for_event [("normalized", PDict [("severity_id", PFloat (S754_infinity false))])] = Raise EOverflow.
Proof. by vm_compute. Qed.
