(* ===== verification/Limiters.v ===== *)
(** * Limits shared by the workers

    [collectors/rate_limit_redis.py] (sliding windows per tenant and vendor),
    [collectors/domain_limiter.py] and [collectors/output/destination_limiter.py]
    (concurrency leases), which run one Lua script on a sorted set of Redis.
    [SortedSets] is the interface of Redis they use; [mem_zsets] implements it; the
    backoff of a vendor is a key of [Store].
    Instants are milliseconds of the clock of Redis; each reading of a worker's
    clock is off by a skew, an argument.  [time.monotonic] only measures
    durations and is read off the same clock. *)

From S2P Require Import Prelude PyVal Text Store RateLimit.

Local Open Scope Z_scope.

(** ** Sorted sets *)

Class SortedSets (S : Type) := {
  z_now : S -> Z;
  z_set : S -> string -> gmap string Z;                (* member to score; empty if there is no key *)
  z_deadline : S -> string -> option Z;
  z_remrangebyscore : string -> Z -> Z -> S -> S;      (* ZREMRANGEBYSCORE k lo hi *)
  z_add : string -> Z -> string -> S -> S;             (* ZADD k score member *)
  z_pexpire : string -> Z -> S -> S;                   (* PEXPIRE k ms *)
  z_rem : string -> string -> S -> S;                  (* ZREM k member *)
  z_tick : Z -> S -> S;                                (* time passes *)
}.

Definition outside (lo hi : Z) (mx : string * Z) : Prop := ¬ (lo <= mx.2 <= hi).
#[export] Instance outside_dec lo hi mx : Decision (outside lo hi mx).
Proof. unfold outside. apply _. Defined.

(** Has a deadline passed? *)
Definition expired (now : Z) (deadline : option Z) : bool := match deadline with Some t => t <=? now | None => false end.

Class SortedSetLaws (S : Type) `{SortedSets S} := {
  z_remrange_now k lo hi s : z_now (z_remrangebyscore k lo hi s) = z_now s;
  z_remrange_set k lo hi s k' :
    z_set (z_remrangebyscore k lo hi s) k' = if String.eqb k' k then filter (outside lo hi) (z_set s k) else z_set s k';
  z_remrange_deadline k lo hi s k' :
    z_deadline (z_remrangebyscore k lo hi s) k' =
    if String.eqb k' k && bool_decide (filter (outside lo hi) (z_set s k) = ∅) then None else z_deadline s k';
  z_add_now k x m s : z_now (z_add k x m s) = z_now s;
  z_add_set k x m s k' : z_set (z_add k x m s) k' = if String.eqb k' k then <[m := x]> (z_set s k) else z_set s k';
  z_add_deadline k x m s k' : z_deadline (z_add k x m s) k' = z_deadline s k';
  z_pexpire_now k ms s : z_now (z_pexpire k ms s) = z_now s;
  z_pexpire_set k ms s k' : 0 < ms -> z_set (z_pexpire k ms s) k' = z_set s k';
  z_pexpire_deadline k ms s k' : 0 < ms -> z_set s k <> ∅ ->
    z_deadline (z_pexpire k ms s) k' = if String.eqb k' k then Some (z_now s + ms) else z_deadline s k';
  z_rem_now k m s : z_now (z_rem k m s) = z_now s;
  z_rem_set k m s k' : z_set (z_rem k m s) k' = if String.eqb k' k then delete m (z_set s k) else z_set s k';
  z_rem_deadline k m s k' :
    z_deadline (z_rem k m s) k' = if String.eqb k' k && bool_decide (delete m (z_set s k) = ∅) then None else z_deadline s k';
  z_tick_now d s : z_now (z_tick d s) = z_now s + d;
  z_tick_set d s k : 0 <= d -> z_set (z_tick d s) k = if expired (z_now s + d) (z_deadline s k) then ∅ else z_set s k;
  z_tick_deadline d s k : 0 <= d -> z_deadline (z_tick d s) k = if expired (z_now s + d) (z_deadline s k) then None else z_deadline s k;
}.

(** An in-memory implementation: each key has its members and its deadline. *)
Record mem_zsets := MemZsets { mz_now : Z; mz_map : gmap string (gmap string Z * option Z) }.
Definition mz_entry (s : mem_zsets) (k : string) : gmap string Z * option Z :=
  match mz_map s !! k with
  | Some (ms, d) => if expired (mz_now s) d then (∅, None) else (ms, d)
  | None => (∅, None)
  end.
Definition mz_put (k : string) (ms : gmap string Z) (d : option Z) (s : mem_zsets) : mem_zsets :=
  MemZsets (mz_now s) (<[k := (ms, if bool_decide (ms = ∅) then None else d)]> (mz_map s)).
#[export] Instance mem_sorted_sets : SortedSets mem_zsets := {
  z_now := mz_now;
  z_set s k := (mz_entry s k).1;
  z_deadline s k := (mz_entry s k).2;
  z_remrangebyscore k lo hi s := mz_put k (filter (outside lo hi) (mz_entry s k).1) (mz_entry s k).2 s;
  z_add k x m s := mz_put k (<[m := x]> (mz_entry s k).1) (mz_entry s k).2 s;
  z_pexpire k ms s := mz_put k (mz_entry s k).1 (Some (mz_now s + ms)) s;
  z_rem k m s := mz_put k (delete m (mz_entry s k).1) (mz_entry s k).2 s;
  z_tick d s := MemZsets (mz_now s + d) (mz_map s);
}.

(** ** The script *)

Section script.
Context {S : Type} `{SortedSets S}.

(** [_ACQUIRE_LUA], [_SLIDING_WINDOW_LUA]: atomic in Redis. *)
Definition acquire_script (key : string) (now lease limit : Z) (token : string) (s : S) : S * bool :=
  let s := z_remrangebyscore key 0 (now - lease) s in
  if Z.of_nat (size (z_set s key)) <? limit
  then (z_pexpire key lease (z_add key now token s), true)
  else (s, false).

(** Where the connection is lost during a command: before Redis gets it, or before
    the reply. *)
Inductive loss := NoLoss | LostRequest | LostReply.
Definition evaluate (lost : loss) (script : S -> S * bool) (s : S) : S * result bool :=
  match lost with
  | NoLoss => let (s, b) := script s in (s, Ok b)
  | LostRequest => (s, Raise EConnection)
  | LostReply => ((script s).1, Raise EConnection)
  end.
End script.

(** ** Leases: [DomainLimiter.slot], [DestinationLimiter.slot] *)

(** How a limiter is set up: its lease, its pause between two polls, and whether it
    lets the body run when it cannot get a slot. *)
Record limiter := LimiterOf { lm_lease : Z; lm_pause : Z; lm_fail_open : bool }.
Definition domain_limiter : limiter := LimiterOf 30000 200 false.
Definition destination_limiter : limiter := LimiterOf 120000 100 true.

Fixpoint limit_for_domain (default_limit : Z) (limits : list (string * Z)) (domain : string) : Z :=
  match limits with
  | (vendor, limit) :: limits' => if str_contains vendor domain then limit else limit_for_domain default_limit limits' domain
  | [] => default_limit
  end.
Definition limit_for_destination (concurrency : Z) : Z := if 1 <=? concurrency then concurrency else 1.
Definition domain_key (domain : string) : string := ("domain_sem:" +:+ domain)%string.
Definition destination_key (destination_id : string) : string := ("dest_concurrency:" +:+ destination_id)%string.

(** A coroutine in [slot]; its token names it.  It polls until it is in the body,
    with a slot (since when) or without, or it raised; then it has left. *)
Inductive phase := Polling | Inside (held : option Z) | Failed (e : exn) | Left.
Record client := Client { c_key : string; c_limit : Z; c_deadline : Z; c_next : Z; c_phase : phase }.
Definition set_phase (p : phase) (c : client) : client := Client (c_key c) (c_limit c) (c_deadline c) (c_next c) p.

Section slots.
Context {S : Type} `{SortedSets S}.
Context (lm : limiter).

(** [slot], up to its loop. *)
Definition enter_slot (key : string) (limit max_wait now : Z) : client := Client key limit (now + max_wait) now Polling.

(** A round of the loop: [skew] is the error of the worker's clock. *)
Definition poll (token : string) (skew : Z) (lost : loss) (c : client) (s : S) : S * client :=
  let (s, reply) := evaluate lost (acquire_script (c_key c) (z_now s + skew) (lm_lease lm) (c_limit c) token) s in
  (s, match reply with
      | Ok true => set_phase (Inside (Some (z_now s))) c
      | Ok false =>
          if c_deadline c <=? z_now s
          then set_phase (if lm_fail_open lm then Inside None else Failed EConnection) c
          else Client (c_key c) (c_limit c) (c_deadline c) (z_now s + lm_pause lm) Polling
      | Raise e => set_phase (if lm_fail_open lm then Inside None else Failed e) c
      end).

(** The [finally] of the body. *)
Definition leave_slot (token : string) (lost : loss) (c : client) (s : S) : S * client :=
  (match c_phase c, lost with
   | Inside (Some _), NoLoss | Inside (Some _), LostReply => z_rem (c_key c) token s
   | _, _ => s
   end, set_phase Left c).

(** The workers: Redis, and the clients by their tokens ([uuid4]: a fresh one each). *)
Record world := World { w_store : S; w_clients : gmap string client }.

Inductive act :=
| Enter (token key : string) (limit max_wait : Z)
| Poll (token : string) (skew : Z) (lost : loss)
| Leave (token : string) (lost : loss)
| Die (token : string)                           (* the process is killed *)
| Tick (d : Z).

Definition perform (a : act) (w : world) : option world :=
  let '(World s cs) := w in
  match a with
  | Enter token key limit max_wait =>
      match cs !! token with
      | None => Some (World s (<[token := enter_slot key limit max_wait (z_now s)]> cs))
      | Some _ => None
      end
  | Poll token skew lost =>
      match cs !! token with
      | Some c =>
          match c_phase c with
          | Polling =>
              if c_next c <=? z_now s then let (s, c) := poll token skew lost c s in Some (World s (<[token := c]> cs)) else None
          | _ => None
          end
      | None => None
      end
  | Leave token lost =>
      match cs !! token with
      | Some c =>
          match c_phase c with
          | Inside _ => let (s, c) := leave_slot token lost c s in Some (World s (<[token := c]> cs))
          | _ => None
          end
      | None => None
      end
  | Die token =>
      match cs !! token with Some c => Some (World s (<[token := set_phase Left c]> cs)) | None => None end
  | Tick d => if 0 <=? d then Some (World (z_tick d s) cs) else None
  end.
End slots.
Arguments World {S}.
Arguments w_store {S}.
Arguments w_clients {S}.

(** ** Sliding windows: [RedisRateLimiter] *)

Definition WINDOW_MS (name : string) : option Z :=
  if String.eqb name "per_second" then Some 1000 else if String.eqb name "per_minute" then Some 60000
  else if String.eqb name "per_hour" then Some 3600000 else if String.eqb name "per_day" then Some 86400000 else None.

Definition window_key (vendor : string) (tenant_id : Z) (window_name : string) : string :=
  ("rl:" +:+ vendor +:+ ":" +:+ str_of_Z tenant_id +:+ ":" +:+ window_name)%string.

(** The windows a round asks for: the loop skips the others. *)
Definition windows_of (limits : list (string * Z)) : list (string * Z * Z) :=
  omap (fun wl => match WINDOW_MS wl.1 with Some ms => if wl.2 <=? 0 then None else Some (wl.1, ms, wl.2) | None => None end) limits.

(** [backoff], and the sleep of [_wait_if_vendor_backoff] from the TTL that Redis
    answers: the store counts in seconds. *)
Definition backoff_key (vendor : string) : string := ("rl:backoff:" +:+ vendor)%string.
Definition backoff_ttl (retry_after : Z) : Z := Z.max 1 retry_after.
Definition backoff `{Redis R} (vendor : string) (retry_after : Z) (s : R) : R := r_set_ex (backoff_key vendor) (backoff_ttl retry_after) s.
Definition backoff_wait (max_wait ttl : Z) : Z := if 0 <? ttl then Z.min (ttl * 1000) max_wait else 0.
Definition vendor_wait `{Redis R} (max_wait : Z) (vendor : string) (s : R) : Z := backoff_wait max_wait (r_ttl s (backoff_key vendor)).

(** A coroutine in [acquire]: the windows it still asks for in this round. *)
Inductive turn := Asking (todo : list (string * Z * Z)) | Granted | TimedOut | Lost (e : exn).
Record caller := Caller { q_vendor : string; q_tenant : Z; q_windows : list (string * Z * Z); q_deadline : Z; q_next : Z; q_turn : turn }.
Definition set_turn (t : turn) (q : caller) : caller :=
  Caller (q_vendor q) (q_tenant q) (q_windows q) (q_deadline q) (q_next q) t.

Section windows.
Context {S : Type} `{SortedSets S}.

(** [acquire] up to its loop: the sleep of the backoff comes before the deadline is set. *)
Definition enter_acquire (vendor : string) (tenant_id : Z) (limits : list (string * Z)) (max_wait ttl now : Z) : caller :=
  let now := now + backoff_wait max_wait ttl in
  Caller vendor tenant_id (windows_of limits) (now + max_wait) now
    (match windows_of limits with [] => Granted | ws => Asking ws end).

(** The next window of the round: the caller, and the window it was admitted to. *)
Definition ask (token : string) (skew : Z) (lost : loss) (q : caller) (s : S) : S * caller * option string :=
  match q_turn q with
  | Asking ((name, ms, limit) :: todo) =>
      let key := window_key (q_vendor q) (q_tenant q) name in
      let (s', reply) := evaluate lost (acquire_script key (z_now s + skew) ms limit token) s in
      let counted := if (acquire_script key (z_now s + skew) ms limit token s).2
                     then match lost with LostRequest => None | _ => Some key end else None in
      (s', match reply with
           | Ok true => set_turn (match todo with [] => Granted | _ => Asking todo end) q
           | Ok false =>
               if q_deadline q <=? z_now s' then set_turn TimedOut q
               else Caller (q_vendor q) (q_tenant q) (q_windows q) (q_deadline q) (z_now s' + 200) (Asking (q_windows q))
           | Raise e => set_turn (Lost e) q
           end, counted)
  | _ => (s, q, None)
  end.

(** The workers, with a log of the admissions: key, token and instant. *)
Record traffic := Traffic { t_store : S; t_callers : gmap nat caller; t_log : list (string * string * Z) }.

Inductive move :=
| Arrive (id : nat) (vendor : string) (tenant_id : Z) (max_wait ttl : Z)
| Ask (id : nat) (token : string) (skew : Z) (lost : loss)
| Pass (d : Z).

(** [limits]: the limits of each vendor; each [Ask] has a fresh token. *)
Definition proceed (limits : string -> list (string * Z)) (m : move) (t : traffic) : option traffic :=
  let '(Traffic s qs log) := t in
  match m with
  | Arrive id vendor tenant_id max_wait ttl =>
      match qs !! id with
      | None => Some (Traffic s (<[id := enter_acquire vendor tenant_id (limits vendor) max_wait ttl (z_now s)]> qs) log)
      | Some _ => None
      end
  | Ask id token skew lost =>
      match qs !! id with
      | Some q =>
          if (q_next q <=? z_now s) && negb (existsb (fun e => String.eqb e.1.2 token) log)
          then let '(s', q, counted) := ask token skew lost q s in
               Some (Traffic s' (<[id := q]> qs) (match counted with Some key => log ++ [(key, token, z_now s)] | None => log end))
          else None
      | None => None
      end
  | Pass d => if 0 <=? d then Some (Traffic (z_tick d s) qs log) else None
  end.
End windows.
Arguments Traffic {S}.
Arguments t_store {S}.
Arguments t_callers {S}.
Arguments t_log {S}.
