(* ===== verification/LimitersProps.v ===== *)
(** * What the shared limits guarantee

    However the workers interleave and wherever a connection is lost, the live
    leases of a key stay within its limit and the admissions of a window within
    its budget, up to the skew of the clocks; and a slot that leaked comes back. *)

From S2P Require Import Prelude PyVal Text Store RateLimit Limiters.

Local Open Scope Z_scope.

(** An entry that is written is read back; an expired one is not there. *)
Lemma mz_put_entry k ms d s k' : expired (mz_now s) d = false -> mz_entry (mz_put k ms d s) k' =
  if String.eqb k' k then (ms, if bool_decide (ms = ∅) then None else d) else mz_entry s k'.
Proof.
  intros Hd. unfold mz_entry, mz_put. cbn. destruct (String.eqb_spec k' k) as [->|Hk]; [|by rewrite lookup_insert_ne].
  rewrite lookup_insert_eq. case_bool_decide; cbn; [by subst|by rewrite Hd].
Qed.
Lemma mz_live s k : expired (mz_now s) (mz_entry s k).2 = false.
Proof. unfold mz_entry. destruct (mz_map s !! k) as [[ms d]|]; [|done]. by destruct (expired (mz_now s) d) eqn:E. Qed.
Lemma mz_tick_entry d s k : 0 <= d -> mz_entry (MemZsets (mz_now s + d) (mz_map s)) k =
  if expired (mz_now s + d) (mz_entry s k).2 then (∅, None) else mz_entry s k.
Proof.
  intros Hd. unfold mz_entry. cbn. destruct (mz_map s !! k) as [[ms [t|]]|]; [|done..]. unfold expired.
  destruct (Z.leb_spec t (mz_now s)); cbn; [by rewrite (proj2 (Z.leb_le _ _)) by lia|]. by destruct (t <=? mz_now s + d).
Qed.

#[export] Instance mem_sorted_set_laws : SortedSetLaws mem_zsets.
Proof.
  split; intros; cbn; rewrite ?mz_put_entry, ?mz_tick_entry by (done || apply mz_live || (cbn; apply Z.leb_gt; lia)); try done.
  all: try (destruct (String.eqb_spec k' k) as [->|]; cbn; done || (case_bool_decide; done)).
  all: try by destruct (expired _ _).
  destruct (String.eqb_spec k' k) as [->|]; [|done]. cbn. rewrite bool_decide_eq_false_2; [done|apply insert_non_empty].
Qed.

(** ** The script *)

Section script.
Context {S : Type} `{SortedSetLaws S}.

(** What an admission leaves of a set. *)
Definition kept (s : S) (key : string) (cutoff : Z) : gmap string Z := filter (outside 0 cutoff) (z_set s key).

Lemma script_cases key now lease limit token s s' b : 0 < lease -> acquire_script key now lease limit token s = (s', b) ->
  z_now s' = z_now s /\
  z_set s' key = (if b then <[token := now]> (kept s key (now - lease)) else kept s key (now - lease)) /\
  (b = true <-> Z.of_nat (size (kept s key (now - lease))) < limit) /\
  (b = true -> z_deadline s' key = Some (z_now s + lease)) /\
  (b = false -> kept s key (now - lease) <> ∅ -> z_deadline s' key = z_deadline s key) /\
  (forall k, k <> key -> z_set s' k = z_set s k /\ z_deadline s' k = z_deadline s k).
Proof.
  unfold acquire_script, kept. intros Hl. rewrite z_remrange_set, String.eqb_refl.
  destruct (Z.ltb_spec (Z.of_nat (size (filter (outside 0 (now - lease)) (z_set s key)))) limit) as [Hlt|Hge]; intros [= <- <-].
  - assert (z_set (z_add key now token (z_remrangebyscore key 0 (now - lease) s)) key <> ∅) as Hne
      by (rewrite z_add_set, String.eqb_refl; apply insert_non_empty).
    split_and!; [..|intros k Hk%String.eqb_neq]; try done.
    + by rewrite z_pexpire_now, z_add_now, z_remrange_now.
    + by rewrite z_pexpire_set, z_add_set, z_remrange_set, !String.eqb_refl.
    + rewrite z_pexpire_deadline, String.eqb_refl, z_add_now, z_remrange_now by done. done.
    + rewrite z_pexpire_set, z_pexpire_deadline, z_add_set, z_add_deadline, !z_remrange_set, z_remrange_deadline by done. by rewrite Hk, ?String.eqb_refl.
  - split_and!; [..|intros k Hk%String.eqb_neq]; try done; try lia.
    + by rewrite z_remrange_now.
    + by rewrite z_remrange_set, String.eqb_refl.
    + intros _ Hne. rewrite z_remrange_deadline, String.eqb_refl, bool_decide_eq_false_2; done.
    + rewrite z_remrange_set, z_remrange_deadline. by rewrite Hk.
Qed.
End script.

(** ** Tracked tokens *)

Section tracked.
Context {S : Type} `{SortedSetLaws S}.
Context (skew_max lease : Z) (Hskew : 0 <= skew_max).

(** The token entered the set at [a] and is still in it. *)
Definition tracked (s : S) (key token : string) (a : Z) : Prop :=
  exists score deadline, z_set s key !! token = Some score /\ a - skew_max <= score /\
    z_deadline s key = Some deadline /\ a + lease <= deadline.

(** It stays there for the lease, less what the clocks may differ by. *)
Definition keeps (s : S) (key token : string) (a : Z) : Prop :=
  a <= z_now s /\ (z_now s < a + lease - 2 * skew_max -> tracked s key token a).

Lemma keeps_same s s' key token a : z_now s' = z_now s -> z_set s' key !! token = z_set s key !! token ->
  (z_set s key !! token <> None -> z_deadline s' key = z_deadline s key) -> keeps s key token a -> keeps s' key token a.
Proof.
  intros Hn Hs Hd [Ha Hk]. unfold keeps. rewrite Hn. split; [done|]. intros Hlive.
  destruct (Hk Hlive) as (x & d & Hx & Hlo & Hdl & Hhi). exists x, d. rewrite Hs, Hd by congruence. done.
Qed.

Lemma keeps_tick d s key token a : 0 <= d -> keeps s key token a -> keeps (z_tick d s) key token a.
Proof.
  intros Hd [Ha Hk]. unfold keeps. rewrite z_tick_now. split; [lia|]. intros Hlive.
  destruct (Hk ltac:(lia)) as (x & t & Hx & Hlo & Hdl & Hhi). exists x, t.
  rewrite z_tick_set, z_tick_deadline, Hdl by done. cbn [expired].
  by rewrite (proj2 (Z.leb_gt _ _)) by lia.
Qed.

Lemma keeps_rem key' token' s key token a : token' <> token -> keeps s key token a -> keeps (z_rem key' token' s) key token a.
Proof.
  intros Ht. apply keeps_same; [apply z_rem_now|..].
  - rewrite z_rem_set. destruct (String.eqb_spec key key') as [->|]; [by rewrite lookup_delete_ne|done].
  - intros Hin. rewrite z_rem_deadline. destruct (String.eqb_spec key key') as [->|]; [|done]. cbn [andb].
    rewrite bool_decide_eq_false_2; [done|]. intros He. apply Hin.
    rewrite <- (lookup_delete_ne _ token' token), He by done. apply lookup_empty.
Qed.

(** A live score survives the eviction of any admission on the key. *)
Lemma tracked_kept s key token a skew : - skew_max <= skew <= skew_max -> keeps s key token a ->
  z_now s < a + lease - 2 * skew_max ->
  exists score, kept s key (z_now s + skew - lease) !! token = Some score /\ a - skew_max <= score /\
    exists deadline, z_deadline s key = Some deadline /\ a + lease <= deadline.
Proof.
  intros Hsk [Ha Hk] Hlive. destruct (Hk Hlive) as (x & d & Hx & Hlo & Hd & Hhi). exists x.
  split; [|eauto]. apply map_lookup_filter_Some. split; [done|]. unfold outside. cbn. lia.
Qed.

Lemma keeps_script key' now' lease' limit token' s s' b skew key token a :
  - skew_max <= skew <= skew_max -> now' = z_now s + skew -> 0 < lease' -> (key' = key -> lease' = lease /\ token' <> token) ->
  acquire_script key' now' lease' limit token' s = (s', b) -> keeps s key token a -> keeps s' key token a.
Proof.
  intros Hsk -> Hpos Hsame Hrun Hkeep. apply script_cases in Hrun as (Hn & Hset & _ & Hdt & Hdf & Hother); [|done].
  destruct (decide (key' = key)) as [->|Hne].
  - destruct (Hsame eq_refl) as [-> Ht]. unfold keeps. rewrite Hn. split; [by destruct Hkeep|]. intros Hlive.
    destruct (tracked_kept s key token a skew) as (x & Hx & Hlo & d & Hd & Hhi); [done..|].
    assert (kept s key (z_now s + skew - lease) <> ∅) as Hne by (intros He; by rewrite He in Hx).
    destruct Hkeep as [Ha _]. destruct b.
    + exists x, (z_now s + lease). rewrite Hset, lookup_insert_ne, Hdt by done. repeat split; [done..|lia].
    + exists x, d. rewrite Hset, Hdf by done. done.
  - destruct (Hother key) as [Hs Hd]; [done|]. apply (keeps_same s); congruence.
Qed.

Lemma keeps_admitted key now lease' limit token s s' skew : - skew_max <= skew <= skew_max -> now = z_now s + skew -> 0 < lease ->
  lease' = lease -> acquire_script key now lease' limit token s = (s', true) -> keeps s' key token (z_now s).
Proof.
  intros Hsk -> Hpos -> Hrun. apply script_cases in Hrun as (Hn & Hset & _ & Hd & _); [|done]. unfold keeps. rewrite Hn. split; [lia|].
  intros _. exists (z_now s + skew), (z_now s + lease). rewrite Hset, lookup_insert_eq, Hd by done. repeat split; lia.
Qed.
End tracked.

(** ** Leases *)

Definition holds_since (key : string) (since : Z) (c : client) : bool :=
  String.eqb (c_key c) key && match c_phase c with Inside (Some a) => since <? a | _ => false end.

Section leases.
Context {S : Type} `{SortedSetLaws S}.
Context (lm : limiter) (skew_max : Z) (Hskew : 0 <= skew_max) (Hlease : 0 < lm_lease lm).

Definition within (a : act) : Prop := match a with Poll _ skew _ => - skew_max <= skew <= skew_max | _ => True end.
Inductive wstep : world -> world -> Prop :=
| wstep_act a w w' : within a -> perform lm a w = Some w' -> wstep w w'.

(** The clients in the body of a key with a slot they got after an instant. *)
Definition holders (key : string) (since : Z) (w : world (S := S)) : gmap string client :=
  filter (fun tc => holds_since key since tc.2 = true) (w_clients w).

(** Every client of the key asked for at most [L] slots. *)
Definition asked_at_most (key : string) (L : Z) (w : world (S := S)) : Prop :=
  forall token c, w_clients w !! token = Some c -> c_key c = key -> c_limit c <= L.

Record leased (w : world (S := S)) : Prop := {
  holder_kept token c a : w_clients w !! token = Some c -> c_phase c = Inside (Some a) ->
    keeps skew_max (lm_lease lm) (w_store w) (c_key c) token a;
  set_bounded key L : 0 <= L -> asked_at_most key L w -> Z.of_nat (size (z_set (w_store w) key)) <= L;
  set_expires key : z_set (w_store w) key <> ∅ ->
    exists d, z_deadline (w_store w) key = Some d /\ d <= z_now (w_store w) + lm_lease lm;
}.

Lemma asked_insert key L s s' cs token c c' : cs !! token = Some c -> c_key c' = c_key c -> c_limit c' = c_limit c ->
  asked_at_most key L (World s' (<[token := c']> cs)) -> asked_at_most key L (World s cs).
Proof.
  intros Hc Hk Hl Hall t d Ht Hd. cbn in *. destruct (decide (t = token)) as [->|Hne].
  - rewrite Hc in Ht. injection Ht as <-. rewrite <- Hl. apply (Hall token c'); [cbn; by rewrite lookup_insert_eq|congruence].
  - apply (Hall t d); [cbn; by rewrite lookup_insert_ne|done].
Qed.

(** What a command on one key does to the sets. *)
Lemma size_kept s key cutoff : (size (kept s key cutoff) <= size (z_set s key))%nat.
Proof. apply map_size_filter. Qed.

(** Phases that hold no slot are of no concern. *)
Definition slotless (c : client) : Prop := forall a, c_phase c <> Inside (Some a).

Lemma leased_phase s cs token c c' : leased (World s cs) -> cs !! token = Some c -> c_key c' = c_key c -> c_limit c' = c_limit c ->
  slotless c' -> leased (World s (<[token := c']> cs)).
Proof.
  intros [Hh Hb He] Hc Hk Hl Hp. split; [|by eauto using asked_insert|done].
  cbn. intros t d a Ht Ha. apply lookup_insert_Some in Ht as [[<- <-]|[Hne Ht]]; [by destruct (Hp a)|by eapply Hh].
Qed.

Lemma leased_script s cs token c skew s' b : leased (World s cs) -> cs !! token = Some c -> slotless c -> - skew_max <= skew <= skew_max ->
  acquire_script (c_key c) (z_now s + skew) (lm_lease lm) (c_limit c) token s = (s', b) -> leased (World s' cs).
Proof.
  intros [Hh Hb He] Hc Hp Hsk Hrun. cbn in *. pose proof Hrun as (Hn & Hset & Hbt & Hdt & Hdf & Hother)%script_cases; [|done]. split; cbn.
  - intros t d a Ht Ha. eapply keeps_script; [done..| |done|by eapply Hh].
    intros Hk. split; [done|]. intros <-. rewrite Hc in Ht. injection Ht as <-. by destruct (Hp a).
  - intros key L HL Hall. destruct (decide (key = c_key c)) as [->|Hk].
    + pose proof (Hall token c Hc eq_refl). pose proof (Hb _ _ HL Hall). pose proof (size_kept s (c_key c) (z_now s + skew - lm_lease lm)).
      rewrite Hset. destruct b; [|lia].
      apply proj1 in Hbt. specialize (Hbt eq_refl). rewrite map_size_insert. case_match; cbn; lia.
    + destruct (Hother key Hk) as [-> _]. by apply Hb.
  - intros key Hne. rewrite Hn. destruct (decide (key = c_key c)) as [->|Hk].
    + destruct b; [rewrite Hdt by done; eexists; split; [done|lia]|]. rewrite Hset in Hne. rewrite Hdf by done.
      apply He. intros E. apply Hne. unfold kept. by rewrite E, map_filter_empty.
    + destruct (Hother key Hk) as [Hs ->]. rewrite Hs in Hne. by apply He.
Qed.

Lemma leased_poll token skew lost c s cs s' c' : leased (World s cs) -> cs !! token = Some c -> slotless c ->
  - skew_max <= skew <= skew_max -> poll lm token skew lost c s = (s', c') -> leased (World s' (<[token := c']> cs)).
Proof.
  intros Hw Hc Hp Hsk. unfold poll.
  destruct (acquire_script (c_key c) (z_now s + skew) (lm_lease lm) (c_limit c) token s) as [s1 b] eqn:Hrun.
  pose proof (leased_script _ _ _ _ _ _ _ Hw Hc Hp Hsk Hrun) as Hw1.
  unfold evaluate. destruct lost; rewrite ?Hrun; [destruct b|..]; intros [= <- <-].
  - pose proof Hw1 as [Hh Hb He]. split; [|intros k L HL Hall; apply Hb; [done|]; exact (asked_insert k L s1 s1 cs token c (set_phase (Inside (Some (z_now s1))) c) Hc eq_refl eq_refl Hall)|done].
    cbn. intros t d a Ht Ha. apply lookup_insert_Some in Ht as [[<- <-]|[Hne Ht]]; [|by eapply Hh].
    injection Ha as <-. cbn [set_phase c_key]. assert (z_now s1 = z_now s) as -> by (by destruct (script_cases _ _ _ _ _ _ _ _ Hlease Hrun)).
    by eapply keeps_admitted.
  - repeat case_match; eapply leased_phase; done.
  - repeat case_match; eapply leased_phase; done.
  - repeat case_match; eapply leased_phase; done.
Qed.

Lemma leased_rem s cs key token : leased (World s cs) -> (forall c, cs !! token = Some c -> slotless c) ->
  leased (World (z_rem key token s) cs).
Proof.
  intros [Hh Hb He] Hp. split; cbn in *.
  - intros t c a Hc Ha. apply keeps_rem; [|by eapply Hh]. intros <-. by apply (Hp c Hc a).
  - intros k L HL Hall. specialize (Hb k L HL Hall). rewrite z_rem_set. destruct (String.eqb_spec k key) as [<-|]; [|done].
    rewrite map_size_delete. case_match; cbn; lia.
  - intros k. rewrite z_rem_set, z_rem_deadline, z_rem_now. destruct (String.eqb_spec k key) as [<-|]; [|apply He].
    intros Hne. cbn [andb]. rewrite bool_decide_eq_false_2 by done. apply He. intros E. apply Hne. by rewrite E, delete_empty.
Qed.

Lemma leased_perform a w w' : within a -> perform lm a w = Some w' -> leased w -> leased w'.
Proof.
  destruct w as [s cs]. intros Hin Hact Hw. destruct a as [token key limit max_wait|token skew lost|token lost|token|d]; cbn [perform] in Hact.
  - destruct (cs !! token) eqn:Ht; [done|]. injection Hact as <-. destruct Hw as [Hh Hb He]. split; [| |done]; cbn in *.
    + intros t c a Hc Ha. apply lookup_insert_Some in Hc as [[<- <-]|[Hne Hc]]; [done|by eapply Hh].
    + intros k L HL Hall. apply Hb; [done|]. intros t c Hc Hk. cbn in Hc. apply (Hall t c); [rewrite <- Hc; apply lookup_insert_ne; intros ->; by rewrite Ht in Hc|done].
  - destruct (cs !! token) as [c|] eqn:Hc; [|done]. destruct (c_phase c) eqn:Hp; try done. destruct (_ <=? _); [|done].
    destruct (poll lm token skew lost c s) as [s' c'] eqn:Hpoll. injection Hact as <-.
    eapply leased_poll; try done. intros a. congruence.
  - destruct (cs !! token) as [c|] eqn:Hc; [|done]. destruct (c_phase c) as [|held| |] eqn:Hp; try done. injection Hact as <-.
    pose proof (leased_phase s cs token c (set_phase Left c) Hw Hc eq_refl eq_refl ltac:(done)) as Hleft. rewrite Hp.
    assert (leased (World (z_rem (c_key c) token s) (<[token := set_phase Left c]> cs))) as Hrem.
    { apply leased_rem; [done|]. intros d. rewrite lookup_insert_eq. by intros [= <-]. }
    by destruct held as [a|], lost.
  - destruct (cs !! token) as [c|] eqn:Hc; [|done]. injection Hact as <-. by eapply leased_phase.
  - destruct (Z.leb_spec 0 d) as [Hd|]; [|done]. injection Hact as <-. destruct Hw as [Hh Hb He]. split; cbn in *.
    + intros t c a Hc Ha. apply keeps_tick; [done..|by eapply Hh].
    + intros k L HL Hall. rewrite z_tick_set by done. destruct (expired _ _); [rewrite map_size_empty; lia|by apply Hb].
    + intros k. rewrite z_tick_set, z_tick_deadline, z_tick_now by done. destruct (expired _ _); [done|].
      intros (t & -> & Ht)%He. exists t. split; [done|lia].
Qed.

Lemma leased_start s : (forall k, z_set s k = ∅) -> leased (World s ∅).
Proof.
  intros Hs. split; cbn; [done| |by intros k; rewrite Hs].
  intros k L HL _. rewrite Hs, map_size_empty. lia.
Qed.
Lemma leased_reachable s w : (forall k, z_set s k = ∅) -> rtc wstep (World s ∅) w -> leased w.
Proof.
  intros Hs Hrun. pose proof (leased_start s Hs) as Hw. induction Hrun as [|x y z Hxy _ IH]; [done|].
  apply IH. destruct Hxy as [a x y Hin Ha]. by eapply leased_perform.
Qed.

(** C19 [leases_within_limit] (safety): whatever the workers of a limiter do, in any
    interleaving, connections lost before or after a command and workers killed
    included, the clients that are in the body with a slot of a key they got within
    the lease, less twice what the clocks may be off by, are no more than the limit
    they asked for. *)
Theorem leases_within_limit s w key L : (forall k, z_set s k = ∅) -> rtc wstep (World s ∅) w -> 0 <= L -> asked_at_most key L w ->
  Z.of_nat (size (holders key (z_now (w_store w) - lm_lease lm + 2 * skew_max) w)) <= L.
Proof.
  intros Hs Hrun HL Hall. pose proof (leased_reachable s w Hs Hrun) as [Hh Hb _]. etrans; [|by apply Hb]. apply inj_le.
  rewrite <- !size_dom. apply subseteq_size. intros t [c Hc]%elem_of_dom.
  apply map_lookup_filter_Some in Hc as [Hc Hp]. unfold holds_since in Hp. cbn in Hp.
  apply andb_true_iff in Hp as [<-%String.eqb_eq Hp]. destruct (c_phase c) as [|[a|]| |] eqn:Hph; try done. apply Z.ltb_lt in Hp.
  destruct (Hh t c a Hc Hph) as [_ (x & d & Hx & _)]; [lia|]. apply elem_of_dom. eauto.
Qed.

(** A slot whose worker died, or never heard that it got it, is given out again: at
    the latest once the key saw no admission for a lease. *)
Lemma leaked_slots_return s w d token c skew : (forall k, z_set s k = ∅) -> rtc wstep (World s ∅) w -> lm_lease lm <= d ->
  1 <= c_limit c -> c_phase (poll lm token skew NoLoss c (z_tick d (w_store w))).2 = Inside (Some (z_now (w_store w) + d)).
Proof.
  intros Hs Hrun Hd Hl. pose proof (leased_reachable s w Hs Hrun) as [_ _ He]. unfold poll, evaluate.
  destruct (acquire_script _ _ _ _ _ _) as [s' b] eqn:E. apply script_cases in E as (Hn & _ & Hb & _); [|done].
  assert (z_set (z_tick d (w_store w)) (c_key c) = ∅) as Hempty.
  { rewrite z_tick_set by lia. destruct (decide (z_set (w_store w) (c_key c) = ∅)) as [->|Hne]; [by destruct (expired _ _)|].
    apply He in Hne as (t & -> & Ht). cbn. by rewrite (proj2 (Z.leb_le _ _)) by lia. }
  assert (b = true) as ->.
  { apply Hb. unfold kept. rewrite Hempty, map_filter_empty, map_size_empty. lia. }
  cbn. by rewrite Hn, z_tick_now.
Qed.

(** The loop ends: a poll past the deadline decides, an earlier one that does not puts
    the next off by the pause; a limiter that fails open never raises. *)
Lemma poll_decides token skew lost c s : let c' := (poll lm token skew lost c s).2 in
  (c_phase c' = Polling -> z_now s < c_deadline c /\ c_next c' = z_now s + lm_pause lm /\ c_deadline c' = c_deadline c) /\
  (lm_fail_open lm = true -> forall e, c_phase c' <> Failed e).
Proof.
  unfold poll, evaluate. destruct (acquire_script _ _ _ _ _ _) as [s' b] eqn:E. apply script_cases in E as [Hn _]; [|done].
  destruct lost, b, (lm_fail_open lm); cbn; rewrite ?Hn; try done; destruct (Z.leb_spec (c_deadline c) (z_now s)); done.
Qed.
End leases.

(** ** The domain of a vendor *)

Lemma limit_for_domain_spec dflt limits domain :
  limit_for_domain dflt limits domain = default dflt (snd <$> List.find (fun vl => str_contains vl.1 domain) limits).
Proof. induction limits as [|[v l] limits IH]; [done|]. cbn. by destruct (str_contains v domain). Qed.

(** Three clients of a domain with two slots: the third waits until one leaves. *)
Definition three_clients : list act :=
  let key := domain_key "api.okta.com" in
  [Enter "a" key 2 60000; Enter "b" key 2 60000; Enter "c" key 2 60000;
   Poll "a" 0 NoLoss; Poll "b" 5 NoLoss; Tick 10; Poll "c" (-5) NoLoss; Die "a"; Tick 29000; Poll "c" 0 NoLoss].
Definition no_zsets : mem_zsets := MemZsets 1000 ∅.
Fixpoint perform_all (lm : limiter) (acts : list act) (w : world (S := mem_zsets)) : option (world (S := mem_zsets)) :=
  match acts with [] => Some w | a :: acts' => w ← perform lm a w; perform_all lm acts' w end.
Definition phases (w : option (world (S := mem_zsets))) : list (option phase) :=
  match w with Some w => map (fun t => c_phase <$> w_clients w !! t) ["a"; "b"; "c"]%string | None => [] end.

Example third_waits : phases (perform_all domain_limiter three_clients (World no_zsets ∅)) =
  [Some Left; Some (Inside (Some 1000)); Some Polling].
Proof. vm_compute. reflexivity. Qed.
Example dead_client_ages_out :
  phases (perform_all domain_limiter (three_clients ++ [Tick 995; Poll "c" 0 NoLoss]) (World no_zsets ∅)) =
  [Some Left; Some (Inside (Some 1000)); Some (Inside (Some 31005))].
Proof. vm_compute. reflexivity. Qed.
(** A destination that is full is sent to all the same, once the caller is tired of
    waiting. *)
Example full_destination_fails_open :
  phases (perform_all destination_limiter
    [Enter "a" (destination_key "d1") 1 30000; Enter "b" (destination_key "d1") 1 30000; Poll "a" 0 NoLoss; Tick 30000; Poll "b" 0 NoLoss]
    (World no_zsets ∅)) = [Some (Inside (Some 1000)); Some (Inside None); None].
Proof. vm_compute. reflexivity. Qed.
(** A worker whose clock is ahead by a lease ends the leases of all others. *)
Example fast_clock_evicts :
  phases (perform_all domain_limiter
    [Enter "a" (domain_key "x") 1 60000; Enter "b" (domain_key "x") 1 60000; Poll "a" 0 NoLoss; Poll "b" 30000 NoLoss]
    (World no_zsets ∅)) = [Some (Inside (Some 1000)); Some (Inside (Some 1000)); None].
Proof. vm_compute. reflexivity. Qed.

Lemma perform_all_rtc lm skew_max acts w w' : Forall (within skew_max) acts -> perform_all lm acts w = Some w' ->
  rtc (wstep lm skew_max) w w'.
Proof.
  intros Hin. revert w. induction Hin as [|a acts Ha _ IH]; intros w; cbn; [by intros [= <-]|].
  destruct (perform lm a w) as [w1|] eqn:E; [|done]. intros Hrun. eapply rtc_l; [by eapply wstep_act|by apply IH].
Qed.

Definition three_world : world (S := mem_zsets) := default (World no_zsets ∅) (perform_all domain_limiter three_clients (World no_zsets ∅)).
Lemma three_limits : map_Forall (fun _ c => c_limit c <= 2) (w_clients three_world).
Proof. apply (bool_decide_unpack _). vm_compute. reflexivity. Qed.

Lemma leases_within_limit_witness :
  rtc (wstep domain_limiter 5) (World no_zsets ∅) three_world /\
  size (holders (domain_key "api.okta.com") (z_now (w_store three_world) - 30000 + 10) three_world) = 1%nat /\
  Z.of_nat (size (holders (domain_key "api.okta.com") (z_now (w_store three_world) - lm_lease domain_limiter + 2 * 5) three_world)) <= 2.
Proof.
  assert (rtc (wstep domain_limiter 5) (World no_zsets ∅) three_world) as Hrun.
  { apply (perform_all_rtc _ _ three_clients); [repeat constructor; cbn; lia|]. vm_compute. reflexivity. }
  split; [done|]. split; [vm_compute; reflexivity|].
  apply (leases_within_limit domain_limiter 5 ltac:(lia) ltac:(cbn; lia) no_zsets _ _ 2); [done|exact Hrun|lia|].
  intros t c Hc _. exact (map_Forall_lookup_1 _ _ t c three_limits Hc).
Defined.

(** ** Windows *)

(** The admissions to a key after one instant and up to another. *)
Definition admissions (key : string) (after upto : Z) (log : list (string * string * Z)) : list (string * string * Z) :=
  filter (fun e => e.1.1 = key /\ after < e.2 <= upto) log.

Lemma rate_key_inj v1 t1 n1 v2 t2 n2 ms1 ms2 : WINDOW_MS n1 = Some ms1 -> WINDOW_MS n2 = Some ms2 ->
  window_key v1 t1 n1 = window_key v2 t2 n2 -> v1 = v2 /\ t1 = t2 /\ n1 = n2.
Proof.
  assert (forall n ms, WINDOW_MS n = Some ms -> has_char ":" n = false) as Hn.
  { intros n ms. unfold WINDOW_MS. repeat (case_match; [match goal with E : String.eqb n _ = true |- _ => apply String.eqb_eq in E as -> end; done|]). done. }
  intros H1%Hn H2%Hn He. unfold window_key in He. apply (inj (String.append "rl:")) in He.
  rewrite <- !str_app_assoc in He. rewrite !(str_app_assoc _ ":" _) in He.
  apply split_at_last_sep in He as [He ->]; [|done..].
  apply split_at_last_sep in He as [-> He%str_of_Z_inj]; [|apply str_of_Z_no_sep..]. done.
Qed.

Lemma windows_of_spec limits n ms L : (n, ms, L) ∈ windows_of limits -> WINDOW_MS n = Some ms /\ 0 < L /\ (n, L) ∈ limits.
Proof.
  unfold windows_of. intros ([n' L'] & Hin & He)%list_elem_of_omap. cbn in He.
  destruct (WINDOW_MS n') as [ms'|] eqn:Hw; [|done]. destruct (Z.leb_spec L' 0); [done|]. by injection He as -> -> ->.
Qed.
Lemma window_ms_positive n ms : WINDOW_MS n = Some ms -> 0 < ms.
Proof. unfold WINDOW_MS. repeat case_match; naive_solver lia. Qed.
Lemma NoDup_fst_eq {A B} (l : list (A * B)) a b b' : NoDup l.*1 -> (a, b) ∈ l -> (a, b') ∈ l -> b = b'.
Proof.
  induction l as [|[x y] l IH]; cbn; [by intros _ ?%not_elem_of_nil|]. intros [Hx Hnd]%NoDup_cons.
  assert (forall c, (x, c) ∈ l -> False) as Hno by (intros c Hc; apply Hx, list_elem_of_fmap; by exists (x, c)).
  intros [E1|H1]%elem_of_cons [E2|H2]%elem_of_cons; simplify_eq; try done; [by destruct (Hno b')|by destruct (Hno b)|by apply IH].
Qed.

Section windows.
Context {S : Type} `{SortedSetLaws S}.
Context (limits : string -> list (string * Z)) (skew_max : Z).
Context (Hskew : 0 <= skew_max) (Hdict : forall vendor, NoDup (limits vendor).*1).

Definition skew_within (m : move) : Prop := match m with Ask _ _ skew _ => - skew_max <= skew <= skew_max | _ => True end.
Inductive mstep : traffic -> traffic -> Prop :=
| mstep_move m t t' : skew_within m -> proceed limits m t = Some t' -> mstep t t'.

(** Every admission of a window is tracked in its set. *)
Definition log_kept (s : S) (log : list (string * string * Z)) : Prop :=
  forall e v tn n ms, e ∈ log -> WINDOW_MS n = Some ms -> e.1.1 = window_key v tn n -> keeps skew_max ms s e.1.1 e.1.2 e.2.

Record metered (t : traffic (S := S)) : Prop := {
  callers_ok id q : t_callers t !! id = Some q -> q_windows q = windows_of (limits (q_vendor q)) /\
    forall todo w, q_turn q = Asking todo -> w ∈ todo -> w ∈ q_windows q;
  all_kept : log_kept (t_store t) (t_log t);
  tokens_once : NoDup ((fun e => e.1.2) <$> t_log t);
  within_budget v tn n ms L upto : (n, ms, L) ∈ windows_of (limits v) ->
    Z.of_nat (length (admissions (window_key v tn n) (upto - (ms - 2 * skew_max)) upto (t_log t))) <= L;
}.

(** What the set of a window counts is at least the admissions of its last span. *)
Lemma counted_by_set s log v tn n ms skew : WINDOW_MS n = Some ms -> log_kept s log -> NoDup ((fun e => e.1.2) <$> log) ->
  - skew_max <= skew <= skew_max ->
  (length (admissions (window_key v tn n) (z_now s - (ms - 2 * skew_max)) (z_now s) log) <=
   size (kept s (window_key v tn n) (z_now s + skew - ms)))%nat.
Proof.
  intros Hn Hk Hnd Hsk. set (l := admissions _ _ _ log).
  assert (NoDup ((fun e => e.1.2) <$> l)) as Hl.
  { eapply sublist_NoDup; [exact Hnd|apply fmap_sublist, sublist_filter]. }
  rewrite <- (length_fmap (fun e => e.1.2) l), <- (size_list_to_set (C := gset string)) by done.
  rewrite <- size_dom. apply subseteq_size. intros tok Htok.
  rewrite elem_of_list_to_set in Htok; apply list_elem_of_fmap in Htok as (e & -> & [[Hkey Ha] Hin]%list_elem_of_filter).
  pose proof (Hk e v tn n ms Hin Hn Hkey) as Hkeep. rewrite Hkey in Hkeep.
  destruct (tracked_kept skew_max ms s (window_key v tn n) e.1.2 e.2 skew) as (x & Hx & _); [done..|lia|].
  apply elem_of_dom. eauto.
Qed.

Definition caller_ok (q : caller) : Prop := q_windows q = windows_of (limits (q_vendor q)) /\
  forall todo w, q_turn q = Asking todo -> w ∈ todo -> w ∈ q_windows q.

Lemma metered_caller s qs log id q : metered (Traffic s qs log) -> caller_ok q -> metered (Traffic s (<[id := q]> qs) log).
Proof.
  intros [Hc Hk Hnd Hb] Hq. split; cbn in *; [|done..].
  intros i p Hp. apply lookup_insert_Some in Hp as [[<- <-]|[Hne Hp]]; [done|by eapply Hc].
Qed.

Lemma log_kept_script s s' b log v tn n ms limit token skew : (n, ms, limit) ∈ windows_of (limits v) ->
  - skew_max <= skew <= skew_max -> Forall (fun e => e.1.2 <> token) log ->
  acquire_script (window_key v tn n) (z_now s + skew) ms limit token s = (s', b) -> log_kept s log -> log_kept s' log.
Proof.
  intros (Hn & _ & _)%windows_of_spec Hsk Hfresh Hrun Hk e v' tn' n' ms' Hin Hn' Hkey.
  apply (keeps_script skew_max ms' (window_key v tn n) (z_now s + skew) ms limit token s s' b skew); try done;
    [by eapply window_ms_positive| |by eapply Hk].
  rewrite Hkey. intros He. pose proof (rate_key_inj _ _ _ _ _ _ _ _ Hn Hn' He) as (_ & _ & <-).
  split; [congruence|]. rewrite Forall_forall in Hfresh. apply not_eq_sym. by apply Hfresh.
Qed.

Lemma metered_script s qs log v tn n ms limit token skew s' b : metered (Traffic s qs log) ->
  (n, ms, limit) ∈ windows_of (limits v) -> - skew_max <= skew <= skew_max -> Forall (fun e => e.1.2 <> token) log ->
  acquire_script (window_key v tn n) (z_now s + skew) ms limit token s = (s', b) ->
  metered (Traffic s' qs (if b then log ++ [(window_key v tn n, token, z_now s)] else log)).
Proof.
  intros [Hc Hk Hnd Hb] Hin Hsk Hfresh Hrun. cbn in *. pose proof (log_kept_script _ _ _ _ _ _ _ _ _ _ _ Hin Hsk Hfresh Hrun Hk) as Hk'.
  pose proof Hin as (Hn & HL & Hlim)%windows_of_spec. pose proof (window_ms_positive n ms Hn) as Hms.
  destruct b; [|by split]. split; cbn; [done|..].
  - intros e v' tn' n' ms' [He|He%list_elem_of_singleton]%elem_of_app Hn' Hkey; [by eapply Hk'|]. subst e. cbn in *.
    pose proof (rate_key_inj _ _ _ _ _ _ _ _ Hn Hn' Hkey) as (_ & _ & <-).
    apply (keeps_admitted skew_max ms' _ (z_now s + skew) ms limit token s s' skew); congruence || done || lia.
  - rewrite fmap_app. apply NoDup_app. split; [done|]. split; [|apply NoDup_singleton].
    intros x (e & -> & He)%list_elem_of_fmap Htok%list_elem_of_singleton. cbn in Htok. rewrite Forall_forall in Hfresh. by apply (Hfresh e).
  - intros v' tn' n' ms' L upto Hin'. unfold admissions. rewrite filter_app. rewrite filter_cons, filter_nil.
    destruct (decide _) as [[Hkey Hspan]|_]; [|rewrite app_nil_r; by apply Hb]. cbn in Hkey, Hspan.
    pose proof Hin' as (Hn' & _ & Hlim')%windows_of_spec. pose proof (rate_key_inj _ _ _ _ _ _ _ _ Hn Hn' Hkey) as (-> & -> & ->).
    assert (ms' = ms) as -> by congruence. rewrite (NoDup_fst_eq _ _ _ _ (Hdict v') Hlim' Hlim).
    apply script_cases in Hrun as (_ & _ & [Hroom _] & _); [|done]. specialize (Hroom eq_refl).
    pose proof (counted_by_set s log v' tn' n' ms skew Hn Hk Hnd Hsk) as Hcount.
    assert (length (admissions (window_key v' tn' n') (upto - (ms - 2 * skew_max)) upto log) <=
            length (admissions (window_key v' tn' n') (z_now s - (ms - 2 * skew_max)) (z_now s) log))%nat as Hle.
    { unfold admissions. clear - Hk Hspan Hn. induction log as [|e log IH]; [done|].
      assert (log_kept s log) as Hk1 by (intros e' v1 tn1 n1 ms1 Hin1; apply Hk; by right). specialize (IH Hk1).
      rewrite !filter_cons. destruct (decide _) as [[He Ht]|]; [|case_decide; cbn; lia].
      rewrite decide_True; [cbn; lia|]. destruct (Hk e v' tn' n' ms (list_elem_of_here _ _) Hn He) as [Hnow _]. split; [done|lia]. }
    unfold admissions in Hle, Hcount. rewrite length_app. cbn. lia.
Qed.

Lemma caller_ok_turn t q : caller_ok q -> (forall todo w, t = Asking todo -> w ∈ todo -> w ∈ q_windows q) -> caller_ok (set_turn t q).
Proof. intros [Hw _] Ht. by split. Qed.

Lemma metered_ask s qs log id q token skew lost s' q' counted : metered (Traffic s qs log) -> qs !! id = Some q ->
  - skew_max <= skew <= skew_max -> Forall (fun e => e.1.2 <> token) log -> ask token skew lost q s = (s', q', counted) ->
  metered (Traffic s' (<[id := q']> qs) (match counted with Some key => log ++ [(key, token, z_now s)] | None => log end)).
Proof.
  intros Hm Hq Hsk Hfresh. assert (caller_ok q) as Hok by exact (callers_ok _ Hm id q Hq). unfold ask.
  destruct (q_turn q) as [[|[[name ms] limit] todo]| | |] eqn:Ht; try (intros [= <- <- <-]; by apply metered_caller).
  pose proof Hok as [Hw Htodo]. specialize (Htodo _ (name, ms, limit) Ht (list_elem_of_here _ _)) as Hin. rewrite Hw in Hin.
  destruct (acquire_script _ _ _ _ _ _) as [s1 b] eqn:Hrun.
  pose proof (metered_script _ _ _ _ _ _ _ _ _ _ _ _ Hm Hin Hsk Hfresh Hrun) as Hm1.
  assert (caller_ok (set_turn (match todo with [] => Granted | _ => Asking todo end) q)) as Hnext.
  { apply caller_ok_turn; [done|]. intros todo' w E Hin'. apply (Htodo _ w Ht). right. destruct todo; [done|]. by injection E as <-. }
  assert (forall t, caller_ok (set_turn (Lost t) q) /\ caller_ok (set_turn TimedOut q)) as Hend by (intros t; split; by apply caller_ok_turn).
  unfold evaluate. destruct lost; rewrite ?Hrun; intros [= <- <- <-].
  - destruct b; apply metered_caller; try done. destruct (_ <=? _); [by apply (Hend EOther)|]. split; [done|].
    cbn. intros todo' w [= <-]. done.
  - destruct b; apply metered_caller; by apply Hend || done.
  - destruct b; apply metered_caller; by apply Hend || done.
Qed.

Lemma metered_proceed m t t' : skew_within m -> proceed limits m t = Some t' -> metered t -> metered t'.
Proof.
  destruct t as [s qs log]. intros Hin Hact Hm. destruct m as [id v tn max_wait ttl|id token skew lost|d]; cbn in Hact.
  - destruct (qs !! id); [done|]. injection Hact as <-. apply metered_caller; [done|]. split; [done|].
    unfold enter_acquire. cbn. by destruct (windows_of (limits v)); [|intros todo w [= <-]].
  - destruct (qs !! id) as [q|] eqn:Hq; [|done]. destruct (_ && _) eqn:Hg; [|done].
    apply andb_true_iff in Hg as [_ Hfresh%negb_true_iff].
    destruct (ask token skew lost q s) as [[s' q'] counted] eqn:Hask. injection Hact as <-.
    eapply metered_ask; try done. apply Forall_forall. intros e He Htok. rewrite <- not_true_iff_false, existsb_exists in Hfresh.
    apply Hfresh. exists e. by rewrite <- list_elem_of_In, String.eqb_eq.
  - destruct (Z.leb_spec 0 d) as [Hd|]; [|done]. injection Hact as <-. destruct Hm as [Hc Hk Hnd Hb]. split; cbn in *; try done.
    intros e v tn n ms Hin' Hn Hkey. apply keeps_tick; [done..|]. by eapply Hk.
Qed.

(** C24 [window_budget] (bounds): however many workers call [acquire] for a tenant of a
    vendor, in any interleaving and with connections lost before or after a command,
    in no span of a window, less twice what the clocks may be off by, does Redis
    admit more requests than the limit of the window. *)
Theorem window_budget s t v tn n ms L upto : rtc mstep (Traffic s ∅ []) t -> (n, ms, L) ∈ windows_of (limits v) ->
  Z.of_nat (length (admissions (window_key v tn n) (upto - (ms - 2 * skew_max)) upto (t_log t))) <= L.
Proof.
  intros Hrun Hin. assert (metered (Traffic s ∅ [])) as Hm.
  { split; cbn; [done|by intros e v' tn' n' ms' ?%not_elem_of_nil|constructor|].
    intros v' tn' n' ms' L' upto' (_ & HL & _)%windows_of_spec. cbn. lia. }
  apply within_budget; [|done]. induction Hrun as [|x y z Hxy _ IH]; [done|].
  apply IH. destruct Hxy as [m x y Hsk Hact]. by eapply metered_proceed.
Qed.
End windows.

Fixpoint proceed_all (limits : string -> list (string * Z)) (moves : list move) (t : traffic (S := mem_zsets)) : option (traffic (S := mem_zsets)) :=
  match moves with [] => Some t | m :: moves' => t ← proceed limits m t; proceed_all limits moves' t end.
Lemma proceed_all_rtc limits skew_max moves t t' : Forall (skew_within skew_max) moves -> proceed_all limits moves t = Some t' ->
  rtc (mstep limits skew_max) t t'.
Proof.
  intros Hin. revert t. induction Hin as [|m moves Hm _ IH]; intros t; cbn; [by intros [= <-]|].
  destruct (proceed limits m t) as [t1|] eqn:E; [|done]. intros Hrun. apply (rtc_l _ _ t1); [by eapply mstep_move|by apply IH].
Qed.

Definition demo_limits (vendor : string) : list (string * Z) :=
  if String.eqb vendor "okta" then [("per_second", 2); ("per_minute", 1)]%string else [].
Definition two_callers : list move :=
  [Arrive 0 "okta" 7 30000 0; Arrive 1 "okta" 7 30000 (-2); Ask 0 "a" 0 NoLoss; Ask 1 "b" 0 NoLoss; Ask 0 "c" 0 NoLoss; Ask 1 "d" 0 NoLoss].
Definition demo_traffic : traffic (S := mem_zsets) :=
  default (Traffic no_zsets ∅ []) (proceed_all demo_limits two_callers (Traffic no_zsets ∅ [])).

(** A round that is refused by the second window has already spent a request of the
    first, without making one: with one request made the second of both is full. *)
Example refused_round_spends :
  (q_turn <$> t_callers demo_traffic !! 0%nat, q_turn <$> t_callers demo_traffic !! 1%nat,
   length (admissions (window_key "okta" 7 "per_second") 0 1000 (t_log demo_traffic)),
   length (admissions (window_key "okta" 7 "per_minute") 0 1000 (t_log demo_traffic))) =
  (Some Granted, Some (Asking [("per_second", 1000, 2); ("per_minute", 60000, 1)]%string), 2%nat, 1%nat).
Proof. vm_compute. reflexivity. Qed.

(** A 429 that one worker saw holds every worker back, for what is left of it. *)
Lemma backoff_is_shared `{RedisLaws R} max_wait vendor retry_after d (s : R) : 0 <= d < backoff_ttl retry_after ->
  vendor_wait max_wait vendor (r_tick d (backoff vendor retry_after s)) = Z.min ((backoff_ttl retry_after - d) * 1000) max_wait.
Proof.
  intros Hd. unfold vendor_wait, r_ttl, backoff. rewrite r_tick_entry, r_set_ex_entry, String.eqb_refl, r_tick_now, r_set_ex_now by lia.
  cbn [still_live live snd]. rewrite (proj2 (Z.ltb_lt _ _)) by lia. unfold backoff_wait. rewrite (proj2 (Z.ltb_lt _ _)) by lia.
  f_equal. f_equal. lia.
Qed.

(** The backoff of a vendor is waited for at most [max_wait]: a request goes out 90
    seconds before the end of a pause of two minutes. *)
Example backoff_cut_short :
  let q := enter_acquire "okta" 7 (demo_limits "okta") 30000 (backoff_ttl 120) 0 in q_next q = 30000 /\ q_turn q = Asking (q_windows q).
Proof. done. Qed.

Lemma demo_dict vendor : NoDup (demo_limits vendor).*1.
Proof. unfold demo_limits. destruct (String.eqb _ _); [|constructor]. apply (bool_decide_unpack _). vm_compute. reflexivity. Qed.

Lemma window_budget_witness :
  rtc (mstep demo_limits 3) (Traffic no_zsets ∅ []) demo_traffic /\
  Z.of_nat (length (admissions (window_key "okta" 7 "per_minute") (1000 - (60000 - 2 * 3)) 1000 (t_log demo_traffic))) <= 1 /\
  length (admissions (window_key "okta" 7 "per_minute") (1000 - (60000 - 2 * 3)) 1000 (t_log demo_traffic)) = 1%nat.
Proof.
  assert (rtc (mstep demo_limits 3) (Traffic no_zsets ∅ []) demo_traffic) as Hrun.
  { apply (proceed_all_rtc _ _ two_callers); [repeat constructor; cbn; lia|]. vm_compute. reflexivity. }
  split; [done|]. split; [|vm_compute; reflexivity].
  apply (window_budget demo_limits 3 ltac:(lia) demo_dict no_zsets demo_traffic "okta" 7 "per_minute" 60000 1); [exact Hrun|].
  cbn. right. left.
Defined.
