(* ===== verification/Bulkhead.v ===== *)
(** * The bulkhead of a destination

    [collectors/output/concurrency_pool.py]: the semaphore of a destination in one
    event loop, whose size follows the configuration while sends are in flight.
    [asyncio.Semaphore] is that of Python 3.11.  The coroutines of a loop are
    interleaved at their awaits: between two of them a step is atomic. *)

From S2P Require Import Prelude.

Local Open Scope Z_scope.

(** ** [asyncio.Semaphore] *)

(** The waiters in order of arrival; [true]: woken, with a permit set aside. *)
Record semaphore := Semaphore { value : Z; waiters : list (nat * bool) }.
Definition new_semaphore (n : Z) : semaphore := Semaphore n [].

Fixpoint wake_first (ws : list (nat * bool)) : option (list (nat * bool)) :=
  match ws with
  | [] => None
  | (id, true) :: ws' => cons (id, true) <$> wake_first ws'
  | (id, false) :: ws' => Some ((id, true) :: ws')
  end.
Definition wake_up_next (s : semaphore) : semaphore :=
  match wake_first (waiters s) with Some ws => Semaphore (value s - 1) ws | None => s end.
Definition release (s : semaphore) : semaphore := wake_up_next (Semaphore (value s + 1) (waiters s)).
Definition locked (s : semaphore) : bool := (value s =? 0) || negb (bool_decide (waiters s = [])).

Definition leave_queue (id : nat) (s : semaphore) : semaphore :=
  Semaphore (value s) (filter (fun w => w.1 <> id) (waiters s)).
(** The rest of [acquire], when the coroutine runs again with its permit. *)
Definition resume (id : nat) (s : semaphore) : semaphore :=
  let s := leave_queue id s in if 0 <? value s then wake_up_next s else s.
(** The coroutine is cancelled while it waits: a permit set aside goes back. *)
Definition cancel (id : nat) (woken : bool) (s : semaphore) : semaphore :=
  let s := leave_queue id s in if woken then wake_up_next (Semaphore (value s + 1) (waiters s)) else s.

(** ** [DestinationSlot] *)

Record slot := Slot { sl_sem : semaphore; sl_limit : Z; sl_target : Z; sl_pending : Z }.
Definition new_slot (limit : Z) : slot := Slot (new_semaphore limit) limit limit 0.
Definition in_use (s : slot) : bool := 0 <? sl_pending s.

Definition retarget (new_limit : Z) (s : slot) : slot :=
  let n := Z.max 1 new_limit in
  if n =? sl_limit s then Slot (sl_sem s) (sl_limit s) n (sl_pending s)
  else if sl_pending s =? 0 then Slot (new_semaphore n) n n (sl_pending s)
  else if sl_limit s <? n
       then Slot (Nat.iter (Z.to_nat (n - sl_limit s)) release (sl_sem s)) n n (sl_pending s)
       else Slot (sl_sem s) (sl_limit s) n (sl_pending s).

Definition set_sem (m : semaphore) (s : slot) : slot := Slot m (sl_limit s) (sl_target s) (sl_pending s).
Definition add_pending (d : Z) (s : slot) : slot := Slot (sl_sem s) (sl_limit s) (sl_target s) (sl_pending s + d).

(** [__aenter__] up to its await: does it hold the slot at once? *)
Definition aenter (id : nat) (s : slot) : slot * bool :=
  let s := add_pending 1 s in
  let m := sl_sem s in
  if locked m then (set_sem (Semaphore (value m) (waiters m ++ [(id, false)])) s, false)
  else (set_sem (Semaphore (value m - 1) (waiters m)) s, true).
Definition aexit (s : slot) : slot :=
  let s := add_pending (-1) s in
  if sl_target s <? sl_limit s then Slot (sl_sem s) (sl_limit s - 1) (sl_target s) (sl_pending s)
  else set_sem (release (sl_sem s)) s.

(** ** [get_semaphore] *)

(** The slots of the destinations, each with its event loop. *)
Definition pool := gmap string (slot * nat).
Definition get_semaphore (destination_id : string) (concurrency : Z) (loop : nat) (p : pool) : pool * slot :=
  let concurrency := Z.max 1 concurrency in
  let fresh := (<[destination_id := (new_slot concurrency, loop)]> p, new_slot concurrency) in
  match p !! destination_id with
  | Some (s, l) =>
      if (l =? loop)%nat then
        let s := if sl_target s =? concurrency then s else retarget concurrency s in
        (<[destination_id := (s, loop)]> p, s)
      else fresh
  | None => fresh
  end.

(** ** The coroutines of a loop *)

(** The pool, and the coroutines inside the slot of a destination; [b_peak]: the
    largest concurrency asked for so far. *)
Record bulkhead := Bulkhead { b_pool : pool; b_holders : list nat; b_peak : Z }.

Section steps.
Context (destination_id : string) (loop : nat).

Definition the_slot (b : bulkhead) : option slot := fst <$> b_pool b !! destination_id.
Definition put_slot (s : slot) (b : bulkhead) : pool := <[destination_id := (s, loop)]> (b_pool b).

Inductive event :=
| Dispatch (concurrency : Z)   (* a dispatch reads its configuration *)
| Arrive (id : nat)            (* and enters the slot *)
| Resume (id : nat)
| Cancel (id : nat)
| Leave (id : nat).

Definition known (id : nat) (s : slot) (b : bulkhead) : bool :=
  bool_decide (id ∈ b_holders b) || bool_decide (id ∈ (waiters (sl_sem s)).*1).
Definition woken (id : nat) (s : slot) : option bool :=
  snd <$> List.find (fun w => Nat.eqb w.1 id) (waiters (sl_sem s)).

Definition happens (e : event) (b : bulkhead) : option bulkhead :=
  match e with
  | Dispatch c => Some (Bulkhead (get_semaphore destination_id c loop (b_pool b)).1 (b_holders b) (Z.max (b_peak b) c))
  | Arrive id =>
      s ← the_slot b;
      if known id s b then None
      else let (s, held) := aenter id s in
           Some (Bulkhead (put_slot s b) (if held then id :: b_holders b else b_holders b) (b_peak b))
  | Resume id =>
      s ← the_slot b;
      match woken id s with
      | Some true => Some (Bulkhead (put_slot (set_sem (resume id (sl_sem s)) s) b) (id :: b_holders b) (b_peak b))
      | _ => None
      end
  | Cancel id =>
      s ← the_slot b;
      w ← woken id s;
      Some (Bulkhead (put_slot (add_pending (-1) (set_sem (cancel id w (sl_sem s)) s)) b) (b_holders b) (b_peak b))
  | Leave id =>
      s ← the_slot b;
      if bool_decide (id ∈ b_holders b)
      then Some (Bulkhead (put_slot (aexit s) b) (filter (fun h => h <> id) (b_holders b)) (b_peak b))
      else None
  end.

Definition idle_pool : bulkhead := Bulkhead ∅ [] 1.
Definition bstep (b b' : bulkhead) : Prop := exists e, happens e b = Some b'.
End steps.

(** ** What it guarantees *)

Definition set_aside (ws : list (nat * bool)) : Z := Z.of_nat (length (filter (fun w => w.2 = true) ws)).

Record sound (s : slot) (holders : list nat) (peak : Z) : Prop := {
  permits : value (sl_sem s) + set_aside (waiters (sl_sem s)) + Z.of_nat (length holders) = sl_limit s;
  pending_counts : sl_pending s = Z.of_nat (length (waiters (sl_sem s))) + Z.of_nat (length holders);
  limits_ordered : 1 <= sl_target s <= sl_limit s /\ sl_limit s <= peak;
  value_nonneg : 0 <= value (sl_sem s);
  permits_move : forall w, w ∈ waiters (sl_sem s) -> w.2 = false -> value (sl_sem s) = 0 \/ 0 < set_aside (waiters (sl_sem s));
  waiters_once : NoDup (waiters (sl_sem s)).*1;
  holders_once : NoDup holders;
}.

Lemma set_aside_cons w ws : set_aside (w :: ws) = (if w.2 then 1 else 0) + set_aside ws.
Proof. unfold set_aside. rewrite filter_cons. destruct w as [i []]; cbn [snd]; [rewrite decide_True by done; cbn [length]; lia|by rewrite decide_False]. Qed.
Lemma set_aside_app ws ws' : set_aside (ws ++ ws') = set_aside ws + set_aside ws'.
Proof. unfold set_aside. rewrite filter_app, length_app. lia. Qed.
Lemma set_aside_nonneg ws : 0 <= set_aside ws. Proof. unfold set_aside. lia. Qed.

Lemma wake_first_spec ws : match wake_first ws with
  | Some ws' => set_aside ws' = set_aside ws + 1 /\ length ws' = length ws /\ ws'.*1 = ws.*1
  | None => forall w, w ∈ ws -> w.2 = true
  end.
Proof.
  induction ws as [|[i []] ws IH]; cbn [wake_first]; [by intros w ?%not_elem_of_nil| |].
  - destruct (wake_first ws) as [ws'|]; cbn.
    + destruct IH as (Ha & Hl & Hf). rewrite !set_aside_cons. cbn. split_and!; [lia|lia|by rewrite Hf].
    + intros w [->|Hw]%elem_of_cons; [done|by apply IH].
  - rewrite !set_aside_cons. cbn. split_and!; [lia|done..].
Qed.

(** What the operations of the semaphore keep of the invariant. *)
Record balanced (m : semaphore) (out : Z) : Prop := {
  bal_sum : value m + set_aside (waiters m) = out;
  bal_value : 0 <= value m;
  bal_once : NoDup (waiters m).*1;
}.
Definition moving (m : semaphore) : Prop :=
  forall w, w ∈ waiters m -> w.2 = false -> value m = 0 \/ 0 < set_aside (waiters m).

Lemma wake_balanced m out : balanced m out -> 0 < value m ->
  balanced (wake_up_next m) out /\ moving (wake_up_next m) /\ length (waiters (wake_up_next m)) = length (waiters m).
Proof.
  intros [Hs Hv Hn] Hp. unfold wake_up_next. pose proof (wake_first_spec (waiters m)) as Hw.
  destruct (wake_first (waiters m)) as [ws|].
  - destruct Hw as (Ha & Hl & Hf). pose proof (set_aside_nonneg (waiters m)). split_and!; [split; cbn [value waiters]; [lia|lia|by rewrite Hf]| |done].
    intros w _ _. right. cbn [waiters]. lia.
  - split_and!; [by split| |done]. intros w Hin E. specialize (Hw w Hin). congruence.
Qed.
Lemma release_balanced m out : balanced m out ->
  balanced (release m) (out + 1) /\ moving (release m) /\ length (waiters (release m)) = length (waiters m).
Proof.
  intros [Hs Hv Hn]. apply (wake_balanced (Semaphore (value m + 1) (waiters m))); [|cbn; lia]. split; cbn [value waiters]; [lia|lia|done].
Qed.
Lemma releases_balanced n m out : balanced m out -> moving m ->
  balanced (Nat.iter n release m) (out + Z.of_nat n) /\ moving (Nat.iter n release m) /\
  length (waiters (Nat.iter n release m)) = length (waiters m).
Proof.
  intros Hb Hm. induction n as [|n (IHb & IHm & IHl)]; [by rewrite Z.add_0_r|].
  cbn [Nat.iter nat_rect]. destruct (release_balanced _ _ IHb) as (Hb' & Hm' & Hl'). split_and!; [|done|by rewrite <- IHl, <- Hl'].
  by replace (out + Z.of_nat (S n)) with (out + Z.of_nat n + 1) by lia.
Qed.

Lemma woken_in id w (ws : list (nat * bool)) : snd <$> List.find (fun x => Nat.eqb x.1 id) ws = Some w -> (id, w) ∈ ws.
Proof.
  intros E. destruct (List.find _ ws) as [[i b]|] eqn:Hf; [|done]. injection E as <-. cbn.
  apply find_some in Hf as [Hin He%Nat.eqb_eq]. cbn in He. subst. by apply list_elem_of_In.
Qed.

(** Dropping the one element with a key. *)
Lemma filter_absent {A} (f : A -> nat) id (l : list A) : id ∉ f <$> l -> filter (fun y => f y <> id) l = l.
Proof.
  induction l as [|x l IH]; [done|]. rewrite fmap_cons. intros [Hx Hl]%not_elem_of_cons. rewrite filter_cons, decide_True by congruence.
  f_equal. by apply IH.
Qed.
Lemma filter_one {A} (f : A -> nat) (l : list A) x : NoDup (f <$> l) -> x ∈ l ->
  exists l1 l2, l = l1 ++ x :: l2 /\ filter (fun y => f y <> f x) l = l1 ++ l2.
Proof.
  intros Hnd (l1 & l2 & ->)%list_elem_of_split. exists l1, l2. split; [done|].
  rewrite fmap_app, fmap_cons in Hnd. apply NoDup_app in Hnd as (_ & H1 & [H2 _]%NoDup_cons).
  rewrite filter_app, filter_cons, decide_False by (by intros E; apply E).
  rewrite !filter_absent; [done..|]. intros Hx. apply (H1 _ Hx). left.
Qed.

Lemma leave_queue_spec id (w : bool) (ws : list (nat * bool)) : NoDup ws.*1 -> (id, w) ∈ ws ->
  let ws' := filter (fun x => x.1 <> id) ws in
  set_aside ws' + (if w then 1 else 0) = set_aside ws /\ (S (length ws') = length ws)%nat /\ NoDup ws'.*1.
Proof.
  intros Hnd Hin. cbn. split_and!; [..|eapply sublist_NoDup; [exact Hnd|apply fmap_sublist, sublist_filter]];
    destruct (filter_one fst ws (id, w) Hnd Hin) as (l1 & l2 & -> & E); cbn [fst] in E; rewrite E.
  - rewrite !set_aside_app, set_aside_cons. cbn [snd]. lia.
  - rewrite !length_app. cbn [length]. lia.
Qed.

(** A coroutine that stops waiting, with or without a permit set aside. *)
Lemma leave_queue_balanced id (w : bool) m out : balanced m out -> (id, w) ∈ waiters m ->
  balanced (leave_queue id m) (out - (if w then 1 else 0)) /\ (S (length (waiters (leave_queue id m))) = length (waiters m))%nat /\
  value (leave_queue id m) = value m.
Proof.
  intros [Hs Hv Hn] Hin. destruct (leave_queue_spec id w (waiters m) Hn Hin) as (Ha & Hl & Hn').
  split_and!; [|done|done]. split; cbn [leave_queue value waiters]; [lia|done..].
Qed.

Lemma resume_balanced id m out : balanced m out -> (id, true) ∈ waiters m ->
  balanced (resume id m) (out - 1) /\ moving (resume id m) /\ (S (length (waiters (resume id m))) = length (waiters m))%nat.
Proof.
  intros Hb Hin. destruct (leave_queue_balanced id true m out Hb Hin) as (Hb' & Hl & Hv). unfold resume.
  destruct (Z.ltb_spec 0 (value (leave_queue id m))).
  - destruct (wake_balanced _ _ Hb') as (Hb2 & Hm & Hl2); [done|]. by rewrite Hl2.
  - split_and!; [done| |done]. intros x _ _. left. destruct Hb'. lia.
Qed.

Lemma cancel_balanced id (w : bool) m out : balanced m out -> moving m -> (id, w) ∈ waiters m ->
  balanced (cancel id w m) out /\ moving (cancel id w m) /\ (S (length (waiters (cancel id w m))) = length (waiters m))%nat.
Proof.
  intros Hb Hm Hin. destruct (leave_queue_balanced id w m out Hb Hin) as (Hb' & Hl & Hv). unfold cancel. destruct w.
  - destruct (release_balanced _ _ Hb') as (Hb2 & Hm2 & Hl2). unfold release in *. rewrite Hl2.
    split_and!; [|done|done]. by replace out with (out - 1 + 1) by lia.
  - rewrite Z.sub_0_r in Hb'. split_and!; [done| |done]. intros x Hx Ew. rewrite Hv.
    assert (x ∈ waiters m) as Hx' by (by apply list_elem_of_filter in Hx as [_ Hx]).
    destruct (Hm x Hx' Ew) as [E|E]; [by left|right]. destruct Hb as [Hs _ _], Hb' as [Hs' _ _]. lia.
Qed.

Lemma sound_balanced s holders peak : sound s holders peak ->
  balanced (sl_sem s) (sl_limit s - Z.of_nat (length holders)) /\ moving (sl_sem s).
Proof. intros [Hp _ _ Hv Hm Hw _]. split; [split; [lia|done..]|exact Hm]. Qed.

Lemma balanced_sound m out holders pending limit target peak : balanced m out -> moving m -> out = limit - Z.of_nat (length holders) ->
  pending = Z.of_nat (length (waiters m)) + Z.of_nat (length holders) -> 1 <= target <= limit -> limit <= peak -> NoDup holders ->
  sound (Slot m limit target pending) holders peak.
Proof. intros [Hs Hv Hn] Hm -> -> Ht Hp Hh. split; cbn [sl_sem sl_limit sl_target sl_pending]; try done. lia. Qed.

Lemma new_slot_sound n peak : 1 <= n <= peak -> sound (new_slot n) [] peak.
Proof.
  intros Hn. apply (balanced_sound _ n); cbn [length]; try done; try lia; [|by intros w ?%not_elem_of_nil|constructor].
  split; unfold set_aside; cbn; [lia|lia|constructor].
Qed.

Lemma retarget_sound c s holders peak : sound s holders peak -> sound (retarget c s) holders (Z.max peak c).
Proof.
  intros Hs. pose proof (sound_balanced _ _ _ Hs) as [Hb Hm]. destruct Hs as [_ Hpend [Ht Hp] _ _ _ Hh]. unfold retarget.
  destruct (Z.eqb_spec (Z.max 1 c) (sl_limit s)); [apply (balanced_sound _ _ _ _ _ _ _ Hb Hm); done || lia|].
  destruct (Z.eqb_spec (sl_pending s) 0) as [E|E].
  - destruct holders as [|h holders]; [|cbn [length] in Hpend; lia]. rewrite E. apply (new_slot_sound (Z.max 1 c)). lia.
  - destruct (Z.ltb_spec (sl_limit s) (Z.max 1 c)); [|apply (balanced_sound _ _ _ _ _ _ _ Hb Hm); done || lia].
    destruct (releases_balanced (Z.to_nat (Z.max 1 c - sl_limit s)) _ _ Hb Hm) as (Hb' & Hm' & Hl').
    apply (balanced_sound _ _ _ _ _ _ _ Hb' Hm'); try done; try lia.
Qed.

Lemma aenter_sound id s holders peak : sound s holders peak -> id ∉ (waiters (sl_sem s)).*1 -> id ∉ holders ->
  sound (aenter id s).1 (if (aenter id s).2 then id :: holders else holders) peak.
Proof.
  intros Hs Hw Hh. pose proof (sound_balanced _ _ _ Hs) as [[Hsum Hv Hn] Hm]. destruct Hs as [Hp Hpend [Ht Hk] _ _ _ Hnd].
  unfold aenter, add_pending, set_sem, locked. cbn [sl_sem sl_limit sl_target sl_pending].
  destruct (Z.eqb_spec (value (sl_sem s)) 0) as [E|E]; [|case_bool_decide as Hq]; cbn [orb negb fst snd].
  2: { apply (balanced_sound _ (sl_limit s - Z.of_nat (length holders) - 1)); cbn [value waiters length]; try done; try lia.
       - split; cbn [value waiters]; [lia|lia|done].
       - intros w. cbn. rewrite Hq. by intros ?%not_elem_of_nil.
       - by apply NoDup_cons. }
  all: apply (balanced_sound _ (sl_limit s - Z.of_nat (length holders))); cbn [value waiters]; try done; try (rewrite length_app; cbn [length]; lia).
  1,3: split; cbn [value waiters]; [rewrite set_aside_app, set_aside_cons; unfold set_aside at 2; cbn; lia|lia|];
    rewrite fmap_app; apply NoDup_app; split_and!; [done| |apply NoDup_singleton]; by intros x Hx ->%list_elem_of_singleton.
  1: by left.
  intros w _ _. cbn [value waiters]. destruct (waiters (sl_sem s)) as [|[i b] ws] eqn:Hws; [done|].
  assert (value (sl_sem s) = 0 \/ 0 < set_aside (waiters (sl_sem s))) as [|Ha]; [|done|].
  { destruct b; [right; rewrite Hws, set_aside_cons; cbn; pose proof (set_aside_nonneg ws); lia|].
    apply (Hm (i, false)); [rewrite Hws; left|done]. }
  right. rewrite set_aside_app, <- Hws. pose proof (set_aside_nonneg [(id, false)]). lia.
Qed.

Lemma aexit_sound s holders peak id : sound s holders peak -> id ∈ holders ->
  sound (aexit s) (filter (fun h => h <> id) holders) peak.
Proof.
  intros Hs Hin. pose proof (sound_balanced _ _ _ Hs) as [Hb Hm]. destruct Hs as [Hp Hpend [Ht Hk] _ _ _ Hnd].
  assert (Z.of_nat (length (filter (fun h => h <> id) holders)) = Z.of_nat (length holders) - 1) as Hl.
  { rewrite <- (list_fmap_id holders) in Hnd. destruct (filter_one (fun h => h) holders id Hnd Hin) as (l1 & l2 & -> & E).
    rewrite E, !length_app. cbn [length]. lia. }
  assert (NoDup (filter (fun h => h <> id) holders)) as Hnd' by (by apply NoDup_filter).
  unfold aexit, add_pending, set_sem. cbn [sl_sem sl_limit sl_target sl_pending]. destruct (Z.ltb_spec (sl_target s) (sl_limit s)).
  - apply (balanced_sound _ _ _ _ _ _ _ Hb Hm); try done; lia.
  - destruct (release_balanced _ _ Hb) as (Hb' & Hm' & Hl'). apply (balanced_sound _ _ _ _ _ _ _ Hb' Hm'); try done; lia.
Qed.

(** *** Who waits *)

Definition ids (m : semaphore) : list nat := (waiters m).*1.

Lemma ids_wake m : ids (wake_up_next m) = ids m.
Proof.
  unfold ids, wake_up_next. pose proof (wake_first_spec (waiters m)) as Hw. destruct (wake_first _); [|done]. apply Hw.
Qed.
Lemma ids_release m : ids (release m) = ids m. Proof. apply (ids_wake (Semaphore (value m + 1) (waiters m))). Qed.
Lemma ids_leave id m j : j ∈ ids (leave_queue id m) -> j ∈ ids m /\ j <> id.
Proof.
  intros (x & -> & [Hne Hx]%list_elem_of_filter)%list_elem_of_fmap. split; [|done]. apply list_elem_of_fmap. by exists x.
Qed.
Lemma ids_resume id m j : j ∈ ids (resume id m) -> j ∈ ids m /\ j <> id.
Proof. unfold resume. destruct (_ <? _); rewrite ?ids_wake; apply ids_leave. Qed.
Lemma ids_cancel id w m j : j ∈ ids (cancel id w m) -> j ∈ ids m /\ j <> id.
Proof. unfold cancel. destruct w; [rewrite (ids_wake (Semaphore _ _))|]; apply (ids_leave id m). Qed.
Lemma ids_retarget c s j : j ∈ ids (sl_sem (retarget c s)) -> j ∈ ids (sl_sem s).
Proof.
  unfold retarget. repeat case_match; cbn [sl_sem]; try done; [by intros ?%not_elem_of_nil|].
  assert (forall n m, ids (Nat.iter n release m) = ids m) as ->; [|done].
  intros n m. induction n as [|n IH]; [done|]. cbn [Nat.iter nat_rect]. by rewrite ids_release.
Qed.

(** *** Every execution *)

Section executions.
Context (destination_id : string) (loop : nat).

Definition apart (s : slot) (holders : list nat) : Prop := forall id, id ∈ ids (sl_sem s) -> id ∉ holders.

Definition bulk_ok (b : bulkhead) : Prop :=
  1 <= b_peak b /\
  ((b_pool b !! destination_id = None /\ b_holders b = []) \/
   exists s, b_pool b !! destination_id = Some (s, loop) /\ sound s (b_holders b) (b_peak b) /\ apart s (b_holders b)).

Lemma bulk_put s b holders peak : 1 <= peak -> sound s holders peak -> apart s holders ->
  bulk_ok (Bulkhead (put_slot destination_id loop s b) holders peak).
Proof. intros Hp Hs Ha. split; [done|]. right. exists s. split; [apply lookup_insert_eq|done]. Qed.

Lemma sound_peak s holders peak peak' : peak <= peak' -> sound s holders peak -> sound s holders peak'.
Proof. intros Hp [? ? [? ?] ? ? ? ?]. split; try done. split; [done|lia]. Qed.

Lemma the_slot_ok b s : bulk_ok b -> the_slot destination_id b = Some s ->
  1 <= b_peak b /\ sound s (b_holders b) (b_peak b) /\ apart s (b_holders b).
Proof.
  unfold the_slot. intros [Hp [[Hn _]|(s' & Hl & Hs & Ha)]]; [by rewrite Hn|]. rewrite Hl. by intros [= <-].
Qed.

Lemma bulk_step b b' : bulk_ok b -> bstep destination_id loop b b' -> bulk_ok b'.
Proof.
  intros Hb [e He]. destruct e as [c|id|id|id|id]; unfold happens in He.
  - injection He as <-. destruct Hb as [Hp Hb]. unfold get_semaphore.
    destruct Hb as [[-> ->]|(s & -> & Hs & Ha)]; cbn [fst b_holders b_peak].
    + split; cbn [b_peak]; [lia|]. right. exists (new_slot (Z.max 1 c)). split; [apply lookup_insert_eq|].
      split; [apply new_slot_sound; lia|by intros j Hj%not_elem_of_nil].
    + rewrite Nat.eqb_refl. cbn [fst]. split; cbn [b_peak]; [lia|]. right. eexists. split; [apply lookup_insert_eq|]. cbn [b_holders].
      destruct (_ =? _); [split; [by eapply sound_peak; [|done]; lia|done]|].
      assert (Z.max (b_peak b) c = Z.max (b_peak b) (Z.max 1 c)) as -> by lia.
      split; [by apply retarget_sound|]. intros j Hj%ids_retarget. by apply Ha.
  - destruct (the_slot destination_id b) as [s|] eqn:E; [|done]. cbn [mbind option_bind] in He.
    destruct (the_slot_ok b s Hb E) as (Hp & Hs & Ha). destruct (known id s b) eqn:Hk; [done|].
    apply orb_false_iff in Hk as [Hh%bool_decide_eq_false Hw%bool_decide_eq_false].
    pose proof (aenter_sound id s _ _ Hs Hw Hh) as Hs'. destruct (aenter id s) as [s' held] eqn:Ea. injection He as <-.
    apply bulk_put; [done|done|]. unfold aenter in Ea. unfold apart, ids in *.
    destruct (locked _); injection Ea as <- <-; cbn [sl_sem add_pending set_sem waiters].
    + intros j. rewrite fmap_app. intros [Hj|Hj%list_elem_of_singleton]%elem_of_app; [by apply Ha|]. cbn in Hj. by subst.
    + intros j Hj [->|Hj']%elem_of_cons; [done|]. by apply (Ha j).
  - destruct (the_slot destination_id b) as [s|] eqn:E; [|done]. cbn [mbind option_bind] in He.
    destruct (the_slot_ok b s Hb E) as (Hp & Hs & Ha). destruct (woken id s) as [[]|] eqn:Hw; try done. injection He as <-.
    apply woken_in in Hw. pose proof (sound_balanced _ _ _ Hs) as [Hbal Hm].
    destruct (resume_balanced id _ _ Hbal Hw) as (Hb' & Hm' & Hl'). destruct Hs as [_ Hpend [Ht Hk] _ _ _ Hh].
    assert (id ∉ b_holders b) as Hid by (apply Ha, list_elem_of_fmap; by exists (id, true)).
    apply bulk_put; [done|apply (balanced_sound _ _ _ _ _ _ _ Hb' Hm'); cbn [length sl_pending sl_limit]; try done; try lia; by apply NoDup_cons|].
    intros j [Hj Hne]%ids_resume [->|Hj']%elem_of_cons; [done|]. by apply (Ha j).
  - destruct (the_slot destination_id b) as [s|] eqn:E; [|done]. cbn [mbind option_bind] in He.
    destruct (the_slot_ok b s Hb E) as (Hp & Hs & Ha). destruct (woken id s) as [w|] eqn:Hw; try done. injection He as <-.
    apply woken_in in Hw. pose proof (sound_balanced _ _ _ Hs) as [Hbal Hm].
    destruct (cancel_balanced id w _ _ Hbal Hm Hw) as (Hb' & Hm' & Hl'). destruct Hs as [_ Hpend [Ht Hk] _ _ _ Hh].
    apply bulk_put; [done|apply (balanced_sound _ _ _ _ _ _ _ Hb' Hm'); cbn [sl_pending set_sem]; done || lia|].
    intros j [Hj Hne]%ids_cancel. by apply Ha.
  - destruct (the_slot destination_id b) as [s|] eqn:E; [|done]. cbn [mbind option_bind] in He.
    destruct (the_slot_ok b s Hb E) as (Hp & Hs & Ha). case_bool_decide as Hin; [|done]. injection He as <-.
    apply bulk_put; [done|by apply aexit_sound|]. intros j Hj [_ Hj']%list_elem_of_filter. apply (Ha j); [|done].
    unfold aexit in Hj. destruct (_ <? _) in Hj; [done|]. unfold set_sem in Hj. cbn [sl_sem] in Hj. by rewrite ids_release in Hj.
Qed.

Lemma find_woken (ws : list (nat * bool)) : NoDup ws.*1 -> 0 < set_aside ws -> exists id, snd <$> List.find (fun x => Nat.eqb x.1 id) ws = Some true.
Proof.
  induction ws as [|[i []] ws IH]; [by cbn|..]; rewrite set_aside_cons; cbn [snd fst]; intros Hnd Ha.
  - exists i. cbn. by rewrite Nat.eqb_refl.
  - rewrite fmap_cons in Hnd. apply NoDup_cons in Hnd as [Hi Hnd]. destruct (IH Hnd ltac:(lia)) as [id Hid]. exists id.
    cbn. destruct (Nat.eqb_spec i id) as [->|]; [|done]. exfalso. apply Hi. apply woken_in in Hid.
    apply list_elem_of_fmap. by exists (id, true).
Qed.

(** C27 [bulkhead_never_overbooked] (invariant): whatever dispatches read, with the
    concurrency raised and lowered while sends are in flight, and whatever coroutines
    arrive, are cancelled and leave, the coroutines inside a destination's slot are
    no more than its capacity, which never exceeds the largest concurrency asked for
    nor falls below the one in force; and when some wait, one of them can go on or
    one is inside that will leave. *)
Theorem bulkhead_never_overbooked b s : rtc (bstep destination_id loop) idle_pool b -> the_slot destination_id b = Some s ->
  Z.of_nat (length (b_holders b)) <= sl_limit s <= b_peak b /\ 1 <= sl_target s <= sl_limit s /\
  sl_pending s = Z.of_nat (length (waiters (sl_sem s))) + Z.of_nat (length (b_holders b)) /\
  (waiters (sl_sem s) <> [] -> b_holders b = [] -> exists id, woken id s = Some true).
Proof.
  intros Hrun Hs. assert (bulk_ok b) as Hb.
  { assert (bulk_ok idle_pool) as Hi by (split; [cbn; lia|by left]).
    induction Hrun as [|x y z Hxy _ IH]; [done|]. apply IH; [done|]. by eapply bulk_step. }
  destruct (the_slot_ok b s Hb Hs) as (_ & [Hp Hpend [Ht Hk] Hv Hm Hw Hh] & _).
  pose proof (set_aside_nonneg (waiters (sl_sem s))). split_and!; try done; try lia.
  intros Hne Hempty. unfold woken. rewrite Hempty in Hp. cbn [length] in Hp. apply find_woken; [done|].
  destruct (Z.eqb_spec (value (sl_sem s)) 0); [lia|]. destruct (waiters (sl_sem s)) as [|[i [|]] ws] eqn:E; [done|..].
  - rewrite set_aside_cons. cbn. pose proof (set_aside_nonneg ws). lia.
  - destruct (Hm (i, false)) as [|Ha]; [left|done|done|done].
Qed.
End executions.

(** A reduction takes effect as the sends leave. *)
Lemma exit_absorbs s : sl_target s < sl_limit s -> sl_limit (aexit s) = sl_limit s - 1 /\ value (sl_sem (aexit s)) = value (sl_sem s).
Proof. intros Ht. unfold aexit. cbn [add_pending sl_sem sl_limit sl_target sl_pending]. by rewrite (proj2 (Z.ltb_lt _ _)). Qed.

Fixpoint happen (d : string) (loop : nat) (es : list event) (b : bulkhead) : option bulkhead :=
  match es with [] => Some b | e :: es' => b ← happens d loop e b; happen d loop es' b end.
Lemma happen_rtc d loop es b b' : happen d loop es b = Some b' -> rtc (bstep d loop) b b'.
Proof.
  revert b. induction es as [|e es IH]; intros b; cbn; [by intros [= <-]|].
  destruct (happens d loop e b) as [b1|] eqn:E; [|done]. intros Hrun. apply (rtc_l _ _ b1); [by exists e|by apply IH].
Qed.

(** Eight in flight under a concurrency of eight, lowered to two: the ninth waits until
    seven have left. *)
Definition lowered : list event :=
  Dispatch 8 :: (Arrive <$> seq 0 8) ++ [Dispatch 2; Arrive 8] ++ (Leave <$> seq 0 6).
Definition lowered_bulk : bulkhead := default idle_pool (happen "d" 0 lowered idle_pool).
Example ninth_waits :
  (length (b_holders lowered_bulk), sl_limit <$> the_slot "d" lowered_bulk, woken 8 <$> the_slot "d" lowered_bulk) =
  (2%nat, Some 2, Some (Some false)).
Proof. vm_compute. reflexivity. Qed.

(** But a slot that drains before it has absorbed enough keeps its capacity while it
    is idle: with three in flight under eight, lowered to two, five more may enter
    together afterwards. *)
Definition drained : list event :=
  Dispatch 8 :: (Arrive <$> seq 0 3) ++ [Dispatch 2] ++ (Leave <$> seq 0 3) ++ concat ((fun i => [Dispatch 2; Arrive i]) <$> seq 3 6).
Definition drained_bulk : bulkhead := default idle_pool (happen "d" 0 drained idle_pool).
Example drained_slot_keeps_capacity :
  (length (b_holders drained_bulk), sl_limit <$> the_slot "d" drained_bulk, sl_target <$> the_slot "d" drained_bulk) =
  (5%nat, Some 5, Some 2).
Proof. vm_compute. reflexivity. Qed.

Lemma bulkhead_never_overbooked_witness :
  rtc (bstep "d" 0) idle_pool lowered_bulk /\
  (forall s, the_slot "d" lowered_bulk = Some s ->
    Z.of_nat (length (b_holders lowered_bulk)) <= sl_limit s <= b_peak lowered_bulk /\ 1 <= sl_target s <= sl_limit s /\
    sl_pending s = Z.of_nat (length (waiters (sl_sem s))) + Z.of_nat (length (b_holders lowered_bulk)) /\
    (waiters (sl_sem s) <> [] -> b_holders lowered_bulk = [] -> exists id, woken id s = Some true)) /\
  sl_pending <$> the_slot "d" lowered_bulk = Some 3.
Proof.
  assert (rtc (bstep "d" 0) idle_pool lowered_bulk) as Hrun by (apply (happen_rtc _ _ lowered); vm_compute; reflexivity).
  split; [exact Hrun|]. split; [|vm_compute; reflexivity]. intros s Hs. exact (bulkhead_never_overbooked "d" 0 lowered_bulk s Hrun Hs).
Defined.
